(* ===== verification/_CoqProject ===== *)
-Q . S2P
Prelude.v
Strs.v
Percent.v
Pattern.v
Host.v
Trie.v
Url.v
Router.v
RouterInv.v
RouterLookup.v
OpenApi.v
Http1.v
Session.v
Request.v
Headers.v
Response.v
Cookie.v
Sessions.v
Sse.v
Body.v
Form.v
Conditional.v
Compression.v
StaticFiles.v
Middleware.v
Preflight.v
Ipv6.v
WsConfig.v
WsRuntime.v
WsRuntimeInv.v
WsSocket.v
WsShutdown.v
WsHub.v
WsDriver.v
RequestHead.v
Dispatch.v
Extract.v
WsUpgrade.v
WsEndpoint.v
DispatchSpec.v
Redirect.v
Server.v
