(* ===== verification/Prelude.v ===== *)
(** * RustRest: a verification library for the framework's core

    RustRest is an HTTP framework in Rust: an [App] owns a router, a chain of
    middleware, and a server that reads requests from connections, dispatches
    them to handlers and emits the responses; WebSocket routes hand the
    connection over to a driver task, and a hub broadcasts to the connections of
    this and, through a broker, of other nodes. This library models the parts of
    [src/app/] that carry the framework's own logic as executable functions and
    proves what makes them correct.

    ** How code becomes definitions

    A Rust string is its UTF-8 bytes ([str]); [Result] is [result] with the
    [let?] notation for the question mark; integers are [Z] with the bounds and
    saturations of their width written out; instants and durations are
    nanosecond counts; a [HashMap] is a [gmap]. Code that mutates is a function
    from state to state. Everything the code asks of the outside (the clock, the
    peer's bytes, the answers of channels, file system and transport, the
    completion order of concurrent sends) is an argument, so that a theorem
    quantifies over it. Third-party crates are parameters: the classes
    [PercentEncoding], [HttpParse], [HeaderMap], [HttpTypes] and [HttpDate] state
    their documented behaviour and have concrete instances that show the laws can
    hold and let the examples evaluate; base64, SHA-256, HMAC, JSON rendering
    and URI parsing are plain function arguments.

    ** Files

    - [Prelude], [Strs]: bytes, results, tactics, list lemmas; the string methods
      of the Rust standard library ([trim], [split], [parse], [to_string]) with
      their lemmas.
    - [Percent], [Pattern], [Host], [Trie], [Url], [Router] model [router.rs] and
      [trie.rs]; [RouterInv] proves the router's invariant over every sequence
      of registrations, [RouterLookup] what the lookups return.
    - [Http1] models [http1.rs], the inspector that classifies request heads
      before hyper sees them.
    - [Session] models the store of [session.rs].
    - [Request] models [request.rs]; [Headers], [Response] the header maps and
      [response.rs], [error.rs].
    - [Conditional], [StaticFiles], [Middleware] model
      [middleware/conditional.rs], the static handler of [router.rs], and
      [middleware/mod.rs].
    - [Cookie], [Sse], [Body], [Form], [Compression] model [cookie.rs], [sse.rs],
      [body.rs], [form.rs] and [middleware/compression.rs].
    - [Sessions] models the configuration and the middleware of [session.rs].
    - [OpenApi] models [openapi.rs] and [App::serve_docs].
    - [Preflight], [RequestHead], [Dispatch], [Server] model [server.rs]: the
      protocol detection of a new connection, the validation of request heads
      and their translation to a [Request] ([Ipv6]: the addresses of the
      standard library), the middleware onion with its deadlines, panics and
      error rendering, and the configuration, connection admission and HTTP/1
      entry point; [DispatchSpec] and [Redirect] prove what dispatch promises.
    - [Extract] models [extract.rs], [state.rs] and the typed handlers of
      [handler.rs].
    - [WsConfig], [WsRuntime], [WsSocket], [WsHub], [WsDriver] model
      [websocket/config.rs], [runtime.rs], [socket.rs], [hub.rs] with
      [broker.rs], and [driver.rs]; [WsRuntimeInv] proves the registry's
      invariant; [WsShutdown] models the waits of its shutdown; [WsUpgrade]
      composes the upgrade of [websocket.rs] out of them,
      [WsEndpoint] models the handles of [socket.rs].

    ** What is proved

    - Routing: a resolved route is the best one that may answer the request and
      none is found only when none may; the route table never holds two routes
      that could answer the same request, on every path through registration,
      errors included; the trie index agrees with the table; generated URLs lead
      back to their route and parameters; patterns round-trip.
    - Protocol safety: the HTTP/1 inspector gives the same verdicts however the
      stream is cut, and only unambiguous requests keep a connection open;
      Content-Length is accepted exactly when it is unambiguous; every response
      leaves well framed, [finalize] terminates, and HEAD mirrors GET.
    - Requests and sessions: the header, cookie and query views agree after any
      mutation; the session store's counters, indices and limits hold after any
      operation; regeneration moves a session.
    - Conditional and static requests: preconditions are decided as RFC 9110
      says; a GET of a file answers exactly its range, or the whole file for none
      and for what is no range; paths stay inside the
      served directory; a body never ends short in silence.
    - Middleware: the rate limiter's memory and rate bounds; CORS grants.
    - Serving: protocol detection depends on the bytes and not on how they
      arrive, and replays them; a head is accepted exactly when it is within the
      limits and names one authority; the request handed to dispatch is
      faithful to it; every request is answered by its deadline, whatever the
      handlers and middleware do (hang, panic, fail), with a well-framed
      response, without a body for HEAD; only a completed handshake switches
      protocols and any other 101 becomes a 500, CONNECT never
      succeeds, unmatched requests get the answers of the HTTP semantics, and a
      redirect never leaves the site; the limits a configuration can have are
      coherent with the buffer of the HTTP/1 inspector.
    - Cookies and events: a built cookie prints as one well-formed field and a signed
      value verifies only as it was signed; a client reads back the events that
      were formatted.
    - Sessions: handlers only see an identifier that was signed under the
      secret and is alive, or a fresh one; the cookie of a response brings its
      session back; no response is left to shared caches.
    - Bodies, forms and extractors: a body is read exactly or refused with the
      error its first excess or failure asks for; what a client encodes as
      multipart is what is parsed; an optional typed body is absent only
      when the request has none; typed handlers contain panics.
    - Compression picks a coding the client accepts and never touches a
      response it must not; the API description lists every route exactly, and
      its page holds no markup of a title or URL.
    - Upgrades: a connection is spawned exactly when the configuration, the
      handshake, the limits and the transport allow it, with a 101 that the server's
      own check passes on, and a refused upgrade leaves no admission behind.
    - WebSockets: admission and its limits, the registry invariant, exact
      broadcasts and what they publish, remote delivery, the life cycle of the broker
      supervisor with its back-off, and for the driver, over all its runs, that the
      Close frame is the last frame, that the message rate is bounded and that a silent
      peer, and only a silent one, is dropped; a shutdown of the runtime ends within
      twice its grace period and succeeds exactly when the registry empties in the first.

    ** Fuel and bounds

    The loops of [find_candidates] and [matching_methods] run on a work stack; their fuel
    is the number of trie nodes, proved sufficient by equality with the recursive
    search. The loop of [observe] consumes a byte or changes state in each round; its
    fuel is computed from the input and proved sufficient. [trim] drops a byte a
    round, so the length is enough; [to_dec] uses the bit length.
    [finalize_loop] needs two passes, proved for every response. Loops that wait for
    the world ([drive], the file producer, the supervisor) are functions of the list of
    their inputs.
    [inspect_loop] reads at least a byte a round, up to [MAX_PREFACE_BYTES], its
    fuel; that it never runs out is part of the theorem. The loops of [Form] move on
    in the body in every round; their fuel is its length and one more, and the round
    trip covers that it is enough.

    ** Not modelled

    Sockets, TLS, the hyper and tokio glue of [server.rs] and of the task
    wrappers in [driver.rs] and [runtime.rs]; the encoders behind compression
    (their output is an argument); what serde makes of a text (an argument of each
    extractor); the setters of configuration values that only store one, and accessors;
    logging, the test client and the examples. Concurrency
    inside a critical section's lock is atomic: each operation of the registry or the
    session store is one step; the counter of public senders ([WsEndpoint]) is the
    exception, its two steps interleave. *)

From stdpp Require Export base gmap strings list numbers sorting.
From Stdlib Require Export Strings.Byte.
From Stdlib Require Export Lia.

#[export] Set Warnings "-notation-for-abbreviation".
#[export] Set Warnings "-register-all".
#[export] Set Warnings "-level-tolerance".
#[export] Set Warnings "-clear-no-such-hyp".

(** ** Bytes and byte strings

    A Rust [String]/[&str] is its sequence of UTF-8 bytes: [str]. *)

Abbreviation byte := Init.Byte.byte.
Abbreviation str := (list Init.Byte.byte).

#[export] Instance byte_eq_dec : EqDecision byte := Byte.byte_eq_dec.

#[export] Program Instance byte_countable : Countable byte :=
  {| encode b := encode (Byte.to_N b); decode p := n ← decode p; Byte.of_N n |}.
Next Obligation.
  intros b. simpl. rewrite decode_encode. simpl. apply Byte.of_to_N.
Qed.

(** The bytes of an ASCII string literal, [§"GET"]. *)
Definition lit (s : string) : str := String.list_byte_of_string s.

Declare Scope rustrest_scope.
Delimit Scope rustrest_scope with rr.
Notation "§ s" := (lit s%string) (at level 1, format "§ s") : rustrest_scope.
#[export] Set Warnings "-closed-notation-not-level-0".
Open Scope rustrest_scope.

(** Numeric value of a byte (a [u8]). *)
Definition bval (b : byte) : Z := Z.of_N (Byte.to_N b).

(** [(lo..=hi).contains(&b)]. *)
Definition in_range (lo hi : Z) (b : byte) : bool :=
  (lo <=? bval b)%Z && (bval b <=? hi)%Z.

Lemma bval_range b : (0 <= bval b < 256)%Z.
Proof. unfold bval. pose proof (Byte.to_N_bounded b). lia. Qed.

Lemma bval_inj b c : bval b = bval c -> b = c.
Proof.
  unfold bval. intros E. apply N2Z.inj in E.
  pose proof (Byte.of_to_N b). pose proof (Byte.of_to_N c). congruence.
Qed.

(** ** Fallible code: Rust's [Result] *)

Inductive result (A E : Type) : Type :=
| Ok (a : A)
| Err (e : E).
Arguments Ok {A E} _.
Arguments Err {A E} _.

#[export] Instance result_eq_dec {A E} `{EqDecision A, EqDecision E} :
  EqDecision (result A E).
Proof. solve_decision. Defined.

(** The [?] operator. *)
Notation "'let?' x := e 'in' k" :=
  (match e with Ok x => k | Err err => Err err end)
  (at level 10, x pattern, e at level 100, k at level 200)
  : rustrest_scope.

Definition is_ok {A E} (r : result A E) : bool :=
  match r with Ok _ => true | Err _ => false end.

(** [iter().map(f).collect::<Result<Vec<_>, _>>()]: the first error wins. *)
Fixpoint try_map {A B E} (f : A -> result B E) (l : list A) : result (list B) E :=
  match l with
  | [] => Ok []
  | x :: l => let? y := f x in let? ys := try_map f l in Ok (y :: ys)
  end.

(** A [for] loop over an accumulator whose body may return early with an error. *)
Fixpoint try_fold {A S E} (f : S -> A -> result S E) (acc : S) (l : list A) : result S E :=
  match l with
  | [] => Ok acc
  | x :: l => let? acc := f acc x in try_fold f acc l
  end.

Lemma try_map_Ok {A B E} (f : A -> result B E) l ys :
  try_map f l = Ok ys <-> Forall2 (fun x y => f x = Ok y) l ys.
Proof.
  revert ys. induction l as [|x l IH]; intros ys; simpl.
  - split; [by intros [= <-]|]. by inversion 1.
  - destruct (f x) as [y|e] eqn:Hf.
    + destruct (try_map f l) as [zs|e] eqn:Hl.
      * split.
        -- intros [= <-]. constructor; [done|]. by apply IH.
        -- inversion 1; subst. match goal with H : Forall2 _ l _ |- _ =>
             apply IH in H end. congruence.
      * split; [done|]. inversion 1; subst.
        match goal with H : Forall2 _ l _ |- _ => apply IH in H end. congruence.
    + split; [done|]. inversion 1; congruence.
Qed.

Lemma try_map_length {A B E} (f : A -> result B E) l ys :
  try_map f l = Ok ys -> length ys = length l.
Proof. rewrite try_map_Ok. intros H. by apply Forall2_length in H. Qed.

Lemma try_map_all_Ok {A B E} (f : A -> result B E) (g : A -> B) l :
  Forall (fun x => f x = Ok (g x)) l -> try_map f l = Ok (map g l).
Proof.
  induction 1 as [|x l Hx _ IH]; simpl; [done|]. by rewrite Hx, IH.
Qed.

(** ** Proof automation of the development *)

Create HintDb rr.

(** Splits the [if]s, [match]es and boolean conjunctions of the context. *)
Ltac bsplit :=
  repeat match goal with
  | H : _ && _ = true |- _ => apply andb_true_iff in H as [? ?]
  | H : _ || _ = false |- _ => apply orb_false_iff in H as [? ?]
  | H : negb _ = true |- _ => apply negb_true_iff in H
  | H : negb _ = false |- _ => apply negb_false_iff in H
  | H : bool_decide _ = true |- _ => apply bool_decide_eq_true in H
  | H : bool_decide _ = false |- _ => apply bool_decide_eq_false in H
  | H : (_ =? _)%nat = true |- _ => apply Nat.eqb_eq in H
  | H : (_ =? _)%nat = false |- _ => apply Nat.eqb_neq in H
  | H : (_ <? _)%nat = true |- _ => apply Nat.ltb_lt in H
  | H : (_ <? _)%nat = false |- _ => apply Nat.ltb_ge in H
  | H : (_ <=? _)%nat = true |- _ => apply Nat.leb_le in H
  | H : (_ <=? _)%nat = false |- _ => apply Nat.leb_gt in H
  | H : (_ =? _)%Z = true |- _ => apply Z.eqb_eq in H
  | H : (_ =? _)%Z = false |- _ => apply Z.eqb_neq in H
  | H : (_ <? _)%Z = true |- _ => apply Z.ltb_lt in H
  | H : (_ <? _)%Z = false |- _ => apply Z.ltb_ge in H
  | H : (_ <=? _)%Z = true |- _ => apply Z.leb_le in H
  | H : (_ <=? _)%Z = false |- _ => apply Z.leb_gt in H
  end.

(** Reflects the boolean comparisons of the goal and closes it with [lia]. *)
Ltac bgoal :=
  repeat match goal with
  | |- _ && _ = true => apply andb_true_iff; split
  | |- _ || _ = false => apply orb_false_iff; split
  | |- negb _ = true => apply negb_true_iff
  | |- negb _ = false => apply negb_false_iff
  | |- (_ =? _)%nat = true => apply Nat.eqb_eq
  | |- (_ =? _)%nat = false => apply Nat.eqb_neq
  | |- (_ <? _)%nat = true => apply Nat.ltb_lt
  | |- (_ <? _)%nat = false => apply Nat.ltb_ge
  | |- (_ <=? _)%nat = true => apply Nat.leb_le
  | |- (_ <=? _)%nat = false => apply Nat.leb_gt
  | |- (_ =? _)%Z = true => apply Z.eqb_eq
  | |- (_ =? _)%Z = false => apply Z.eqb_neq
  | |- (_ <? _)%Z = true => apply Z.ltb_lt
  | |- (_ <? _)%Z = false => apply Z.ltb_ge
  | |- (_ <=? _)%Z = true => apply Z.leb_le
  | |- (_ <=? _)%Z = false => apply Z.leb_gt
  | |- bool_decide _ = true => apply bool_decide_eq_true_2
  | |- bool_decide _ = false => apply bool_decide_eq_false_2
  end.

(** Case analysis on a byte: 256 closed goals. *)
Ltac byte_cases b := destruct b; vm_compute; first [done | congruence | auto].

(** ** Lists *)

Lemma existsb_false_Forall {A} (f : A -> bool) l :
  existsb f l = false <-> Forall (fun x => f x = false) l.
Proof.
  induction l as [|x l IH]; simpl; [done|].
  rewrite orb_false_iff, Forall_cons, IH. done.
Qed.

Lemma existsb_true_Exists {A} (f : A -> bool) l :
  existsb f l = true <-> Exists (fun x => f x = true) l.
Proof.
  induction l as [|x l IH]; simpl.
  - split; [done|]. by intros ?%Exists_nil.
  - by rewrite orb_true_iff, Exists_cons, IH.
Qed.

Lemma forallb_true_Forall {A} (f : A -> bool) l :
  forallb f l = true <-> Forall (fun x => f x = true) l.
Proof.
  induction l as [|x l IH]; simpl; [done|].
  by rewrite andb_true_iff, Forall_cons, IH.
Qed.

Lemma Forall2_map_r {A B C} (P : A -> C -> Prop) (f : B -> C) l k :
  Forall2 P l (map f k) <-> Forall2 (fun x y => P x (f y)) l k.
Proof. apply (Forall2_fmap_r f). Qed.

Lemma find_None {A} (f : A -> bool) l : List.find f l = None <-> Forall (fun x => f x = false) l.
Proof.
  rewrite Forall_forall. split.
  - intros Hf x Hx. by eapply List.find_none; [|apply list_elem_of_In].
  - induction l as [|x l IH]; [done|]. intros Hall. cbn. rewrite Hall by left. apply IH.
    intros y Hy. apply Hall. by right.
Qed.

Lemma find_Some_elem {A} (f : A -> bool) l x : List.find f l = Some x -> x ∈ l /\ f x = true.
Proof. intros [? ?]%List.find_some. by rewrite list_elem_of_In. Qed.

(** Every two elements at different positions are related. *)
Definition pairwise {A} (R : A -> A -> Prop) (l : list A) : Prop :=
  forall i j a b, i <> j -> l !! i = Some a -> l !! j = Some b -> R a b.

Lemma pairwise_nil {A} (R : A -> A -> Prop) : pairwise R [].
Proof. intros i j a b _ Ha. by rewrite lookup_nil in Ha. Qed.

Lemma pairwise_snoc {A} (R : A -> A -> Prop) l x :
  pairwise R l -> Forall (fun a => R a x /\ R x a) l -> pairwise R (l ++ [x]).
Proof.
  intros Hp Hf i j a b Hne Hi Hj. rewrite Forall_lookup in Hf.
  apply lookup_snoc_Some in Hi as [[? Hi]|[-> <-]], Hj as [[? Hj]|[-> <-]].
  - by eapply Hp.
  - by apply (Hf _ _ Hi).
  - by apply (Hf _ _ Hj).
  - done.
Qed.

Lemma pairwise_app {A} (R : A -> A -> Prop) l1 l2 :
  pairwise R l1 -> pairwise R l2 ->
  (forall a b, a ∈ l1 -> b ∈ l2 -> R a b /\ R b a) -> pairwise R (l1 ++ l2).
Proof.
  intros H1 H2 Hx i j a b Hne Hi Hj.
  apply lookup_app_Some in Hi as [Hi|[? Hi]], Hj as [Hj|[? Hj]].
  - by eapply H1.
  - apply (Hx a b); by eapply list_elem_of_lookup_2.
  - apply (Hx b a); by eapply list_elem_of_lookup_2.
  - eapply H2; [|done|done]. lia.
Qed.

Lemma pairwise_delete {A} (R : A -> A -> Prop) i l : pairwise R l -> pairwise R (delete i l).
Proof.
  intros Hp j k a b Hne. rewrite !list_lookup_delete. intros Hj Hk. eapply Hp; [|done|done].
  repeat case_decide; lia.
Qed.

Lemma pairwise_alter {A} (R : A -> A -> Prop) f i l :
  pairwise R l ->
  (forall a j b, l !! i = Some a -> j <> i -> l !! j = Some b -> R (f a) b /\ R b (f a)) ->
  pairwise R (alter f i l).
Proof.
  intros Hp Hf j k a b Hne. rewrite !list_lookup_alter.
  repeat case_decide; subst; intros Hj Hk.
  - done.
  - apply fmap_Some in Hj as (a' & Hj & ->). by destruct (Hf a' k b).
  - apply fmap_Some in Hk as (b' & Hk & ->). by destruct (Hf b' j a).
  - by apply (Hp j k a b).
Qed.

Lemma Forall_alter_le {A} (P : A -> Prop) f i l :
  Forall P l -> (forall a, P a -> P (f a)) -> Forall P (alter f i l).
Proof. intros Hl Hf. apply Forall_alter; auto. Qed.

Lemma map_alter_same {A B} (g : A -> B) f i l :
  (forall a, g (f a) = g a) -> map g (alter f i l) = map g l.
Proof.
  intros Hg. apply list_eq. intros j.
  change (map g (alter f i l)) with (g <$> alter f i l). change (map g l) with (g <$> l).
  rewrite !list_lookup_fmap, list_lookup_alter.
  case_decide; [|done]. subst. destruct (l !! j); [|done]. cbn. by rewrite Hg.
Qed.

Lemma sorted_split_after {A} (R : relation A) l1 x l2 y :
  StronglySorted R (l1 ++ x :: l2) -> y ∈ l1 ++ x :: l2 -> y ∉ l1 -> y = x \/ R x y.
Proof.
  intros Hs Hy Hn. apply elem_of_app in Hy as [Hy|Hy]; [done|].
  apply elem_of_cons in Hy as [->|Hy]; [by left|]. right.
  apply StronglySorted_app_1_r, StronglySorted_cons in Hs as [Hf _].
  by rewrite Forall_forall in Hf; apply Hf.
Qed.

Lemma elem_of_filter_bool {A} (f : A -> bool) l x : x ∈ List.filter f l <-> x ∈ l /\ f x = true.
Proof. by rewrite !list_elem_of_In, List.filter_In. Qed.
