(* ===== verification/Strs.v ===== *)
(** * Byte-string operations of the Rust standard library used by RustRest

    [str]/[u8] methods the framework calls, written out on UTF-8 byte
    sequences: ASCII classes, prefix/suffix tests, [split], [split_once],
    [rsplit_once], [join], [trim], case folding, UTF-8 validation and the
    [char]-level predicates ([is_control], [is_whitespace]) on the encoded
    form. *)
From S2P Require Import Prelude.

(** ** ASCII classes ([u8::is_ascii_*]) *)

Definition is_ascii_digit (b : byte) : bool := in_range 48 57 b.
Definition is_ascii_upper (b : byte) : bool := in_range 65 90 b.
Definition is_ascii_lower (b : byte) : bool := in_range 97 122 b.
Definition is_ascii_alphanumeric (b : byte) : bool :=
  is_ascii_digit b || is_ascii_upper b || is_ascii_lower b.
Definition is_ascii_hexdigit (b : byte) : bool :=
  is_ascii_digit b || in_range 65 70 b || in_range 97 102 b.

(** A byte given by its value, [b'..' as u8]; only used with literals and
    sums below 256, where [Byte.of_N] succeeds. *)
Definition byte_of (n : Z) : byte :=
  default Byte.x00 (Byte.of_N (Z.to_N n)).

Lemma byte_of_bval b : byte_of (bval b) = b.
Proof. unfold byte_of, bval. rewrite N2Z.id, Byte.of_to_N. done. Qed.

Definition to_ascii_lower (b : byte) : byte :=
  if is_ascii_upper b then byte_of (bval b + 32) else b.
Definition to_ascii_upper (b : byte) : byte :=
  if is_ascii_lower b then byte_of (bval b - 32) else b.

Definition to_ascii_lowercase (s : str) : str := map to_ascii_lower s.
Definition to_ascii_uppercase (s : str) : str := map to_ascii_upper s.

(** [str::eq_ignore_ascii_case]. *)
Definition eq_ignore_ascii_case (s t : str) : bool :=
  bool_decide (to_ascii_lowercase s = to_ascii_lowercase t).

(** ** Searching and splitting *)

(** [s.contains(c)] for an ASCII [c]. *)
Definition contains (c : byte) (s : str) : bool := existsb (fun b => bool_decide (b = c)) s.

Fixpoint strip_prefix (p s : str) : option str :=
  match p, s with
  | [], _ => Some s
  | a :: p, b :: s => if bool_decide (a = b) then strip_prefix p s else None
  | _ :: _, [] => None
  end.

Definition starts_with (p s : str) : bool := bool_decide (is_Some (strip_prefix p s)).

Definition ends_with (suffix s : str) : bool :=
  (length suffix <=? length s) && bool_decide (drop (length s - length suffix) s = suffix).

Definition strip_suffix (suffix s : str) : option str :=
  if ends_with suffix s then Some (take (length s - length suffix) s) else None.

(** [s.split(sep)] for an ASCII [sep]: never empty. *)
Fixpoint split_on (sep : byte) (s : str) : list str :=
  match s with
  | [] => [[]]
  | c :: s =>
      if bool_decide (c = sep) then [] :: split_on sep s
      else match split_on sep s with
           | [] => [[c]]
           | w :: ws => (c :: w) :: ws
           end
  end.

(** [slice.join(sep)]. *)
Fixpoint join (sep : str) (ws : list str) : str :=
  match ws with
  | [] => []
  | [w] => w
  | w :: ws => w ++ sep ++ join sep ws
  end.

(** [s.split_once(sep)]: at the first occurrence. *)
Fixpoint split_once (sep : byte) (s : str) : option (str * str) :=
  match s with
  | [] => None
  | c :: s =>
      if bool_decide (c = sep) then Some ([], s)
      else match split_once sep s with
           | Some (a, b) => Some (c :: a, b)
           | None => None
           end
  end.

(** [s.rsplit_once(sep)]: at the last occurrence. *)
Fixpoint rsplit_once (sep : byte) (s : str) : option (str * str) :=
  match s with
  | [] => None
  | c :: s =>
      match rsplit_once sep s with
      | Some (a, b) => Some (c :: a, b)
      | None => if bool_decide (c = sep) then Some ([], s) else None
      end
  end.

(** [s.trim_start_matches(c)] and [s.trim_end_matches(c)]. *)
Fixpoint trim_start_matches (c : byte) (s : str) : str :=
  match s with
  | b :: s' => if bool_decide (b = c) then trim_start_matches c s' else s
  | [] => []
  end.
Definition trim_end_matches (c : byte) (s : str) : str :=
  rev (trim_start_matches c (rev s)).

(** Byte length of the whitespace character ([char::is_whitespace], the
    Unicode [White_Space] property) that starts [s], 0 when there is none. *)
Definition ws_prefix (s : str) : nat :=
  match s with
  | a :: s1 =>
      if in_range 9 13 a || (bval a =? 32)%Z then 1 else
      match s1 with
      | b :: s2 =>
          if (bval a =? 194)%Z && ((bval b =? 133)%Z || (bval b =? 160)%Z) then 2 else
          match s2 with
          | c :: _ =>
              if ((bval a =? 225)%Z && (bval b =? 154)%Z && (bval c =? 128)%Z)
                 || ((bval a =? 226)%Z && (bval b =? 128)%Z
                     && (in_range 128 138 c || (bval c =? 168)%Z || (bval c =? 169)%Z
                         || (bval c =? 175)%Z))
                 || ((bval a =? 226)%Z && (bval b =? 129)%Z && (bval c =? 159)%Z)
                 || ((bval a =? 227)%Z && (bval b =? 128)%Z && (bval c =? 128)%Z)
              then 3 else 0
          | [] => 0
          end
      | [] => 0
      end
  | [] => 0
  end.

(** The same for the character that ends the string whose reversal is [r]. *)
Definition ws_suffix (r : str) : nat :=
  if (ws_prefix (take 1 r) =? 1)%nat then 1
  else if (ws_prefix (rev (take 2 r)) =? 2)%nat then 2
  else if (ws_prefix (rev (take 3 r)) =? 3)%nat then 3 else 0.

Fixpoint trim_with (len : str -> nat) (fuel : nat) (s : str) : str :=
  match fuel with
  | O => s
  | S fuel => match len s with O => s | n => trim_with len fuel (drop n s) end
  end.

(** [str::trim]; every round drops at least one byte, so [length s] rounds
    are enough. *)
Definition trim_start (s : str) : str := trim_with ws_prefix (length s) s.
Definition trim_end (s : str) : str := rev (trim_with ws_suffix (length s) (rev s)).
Definition trim (s : str) : str := trim_end (trim_start s).

(** [s.chars().any(char::is_whitespace)]. *)
Fixpoint has_whitespace (s : str) : bool :=
  negb (ws_prefix s =? 0)%nat ||
  match s with [] => false | _ :: s => has_whitespace s end.

(** [s.chars().any(char::is_control)]: U+0000..U+001F and U+007F..U+009F. *)
Fixpoint has_control (s : str) : bool :=
  match s with
  | [] => false
  | a :: s1 =>
      in_range 0 31 a || (bval a =? 127)%Z
      || ((bval a =? 194)%Z && match s1 with b :: _ => in_range 128 159 b | [] => false end)
      || has_control s1
  end.

(** ** UTF-8 ([str::from_utf8]) *)

Definition utf8_cont (b : byte) : bool := in_range 128 191 b.

(** The two leading bytes of a three-byte and of a four-byte character. *)
Definition utf8_lead3 (a b : byte) : bool :=
  ((bval a =? 224)%Z && in_range 160 191 b)
  || ((in_range 225 236 a || in_range 238 239 a) && utf8_cont b)
  || ((bval a =? 237)%Z && in_range 128 159 b).
Definition utf8_lead4 (a b : byte) : bool :=
  ((bval a =? 240)%Z && in_range 144 191 b)
  || (in_range 241 243 a && utf8_cont b)
  || ((bval a =? 244)%Z && in_range 128 143 b).

Fixpoint utf8_valid (s : str) : bool :=
  match s with
  | [] => true
  | a :: s1 =>
      if in_range 0 127 a then utf8_valid s1 else
      match s1 with
      | [] => false
      | b :: s2 =>
          if in_range 194 223 a then utf8_cont b && utf8_valid s2 else
          match s2 with
          | [] => false
          | c :: s3 =>
              if utf8_lead3 a b then utf8_cont c && utf8_valid s3 else
              match s3 with
              | [] => false
              | d :: s4 => utf8_lead4 a b && utf8_cont c && utf8_cont d && utf8_valid s4
              end
          end
      end
  end.

(** ** Integers: [str::parse::<u64>] and [to_string] *)

Definition u64_max : Z := 18446744073709551615.

(** Decimal digits accumulated with the overflow check of [parse]. *)
Fixpoint parse_digits (max : Z) (acc : Z) (s : str) : option Z :=
  match s with
  | [] => Some acc
  | c :: s =>
      if is_ascii_digit c then
        let acc := (acc * 10 + (bval c - 48))%Z in
        if (acc <=? max)%Z then parse_digits max acc s else None
      else None
  end.

(** [s.parse::<u64>().ok()]: an optional leading [+], then at least one
    digit. *)
Definition parse_uint (max : Z) (s : str) : option Z :=
  match s with
  | [] => None
  | c :: s' =>
      if bool_decide (c = Byte.x2b) then
        match s' with [] => None | _ => parse_digits max 0 s' end
      else parse_digits max 0 s
  end.
Definition parse_u64 : str -> option Z := parse_uint u64_max.

(** [u64::to_string]: decimal digits, no leading zero. The fuel is the bit
    length, an upper bound of the number of digits. *)
Fixpoint dec_digits (fuel : nat) (n : Z) (acc : str) : str :=
  match fuel with
  | O => acc
  | S fuel =>
      let acc := byte_of (48 + n mod 10) :: acc in
      if (n <? 10)%Z then acc else dec_digits fuel (n / 10) acc
  end.
Definition to_dec (n : Z) : str := dec_digits (S (Z.to_nat (Z.log2 n))) n [].
Arguments to_dec : simpl never.

Example to_dec_ex : to_dec 18446744073709551615 = §"18446744073709551615".
Proof. reflexivity. Qed.
Example parse_u64_ex : parse_u64 §"+0042" = Some 42%Z /\ parse_u64 §"18446744073709551616" = None.
Proof. split; reflexivity. Qed.
Example trim_ex : trim §" 	 a b  " = §"a b".
Proof. reflexivity. Qed.
Example split_ex : split_on Byte.x2f §"/a//b" = [[]; §"a"; []; §"b"].
Proof. reflexivity. Qed.

(** [Ord] on strings is the bytewise lexicographic order. *)
Fixpoint str_leb (a b : str) : bool :=
  match a, b with
  | [], _ => true
  | _ :: _, [] => false
  | x :: a, y :: b => (bval x <? bval y)%Z || ((bval x =? bval y)%Z && str_leb a b)
  end.

(** ** Lemmas *)

Lemma strip_prefix_app p s : strip_prefix p (p ++ s) = Some s.
Proof. induction p as [|c p IH]; [done|]. cbn. by rewrite bool_decide_eq_true_2. Qed.

Lemma ends_with_iff suffix s : ends_with suffix s = true <-> exists p, s = p ++ suffix.
Proof.
  unfold ends_with. rewrite andb_true_iff, Nat.leb_le, bool_decide_eq_true. split.
  - intros [_ Hd]. exists (take (length s - length suffix) s). by rewrite <- Hd at 2; rewrite take_drop.
  - intros [p ->]. rewrite length_app. split; [lia|].
    by rewrite Nat.add_sub, drop_app_length.
Qed.

(** The number a digit string denotes. *)
Definition digits_value (s : str) : Z := foldl (fun acc c => acc * 10 + (bval c - 48))%Z 0%Z s.

Lemma digit_bval c : is_ascii_digit c = true -> (48 <= bval c <= 57)%Z.
Proof. unfold is_ascii_digit, in_range. intros ?; bsplit. lia. Qed.

Lemma digits_foldl_ge acc s :
  (0 <= acc)%Z -> forallb is_ascii_digit s = true ->
  (acc <= foldl (fun acc c => acc * 10 + (bval c - 48))%Z acc s)%Z.
Proof.
  revert acc. induction s as [|c s IH]; intros acc Ha; cbn [forallb foldl]; [lia|].
  intros [Hc Hs]%andb_true_iff. apply digit_bval in Hc.
  specialize (IH (acc * 10 + (bval c - 48))%Z ltac:(lia) Hs). lia.
Qed.

(** [parse] of digits: their value, when it fits. *)
Lemma parse_digits_spec max acc s :
  (0 <= acc <= max)%Z ->
  parse_digits max acc s =
    if forallb is_ascii_digit s then
      let v := foldl (fun acc c => acc * 10 + (bval c - 48))%Z acc s in
      if (v <=? max)%Z then Some v else None
    else None.
Proof.
  revert acc. induction s as [|c s IH]; intros acc Ha; cbn [parse_digits forallb foldl].
  { rewrite (proj2 (Z.leb_le acc max)) by lia. done. }
  destruct (is_ascii_digit c) eqn:Hc; [|done]. cbn [andb]. pose proof (digit_bval c Hc).
  destruct (Z.leb_spec (acc * 10 + (bval c - 48)) max); [rewrite IH by lia; done|].
  destruct (forallb is_ascii_digit s) eqn:Hs; [|done].
  pose proof (digits_foldl_ge (acc * 10 + (bval c - 48)) s ltac:(lia) Hs).
  cbn zeta. by rewrite (proj2 (Z.leb_gt _ _)) by lia.
Qed.

Lemma split_on_ne sep s : split_on sep s <> [].
Proof. destruct s as [|c s]; simpl; [done|]. case_bool_decide; [done|]. by destruct (split_on sep s). Qed.

Lemma split_on_sep sep a b :
  split_on sep (a ++ sep :: b) = split_on sep a ++ split_on sep b.
Proof.
  induction a as [|c a IH]; simpl.
  - by rewrite bool_decide_eq_true_2.
  - rewrite IH. case_bool_decide; [done|].
    pose proof (split_on_ne sep a). by destruct (split_on sep a).
Qed.

Lemma split_on_plain sep s : sep ∉ s -> split_on sep s = [s].
Proof.
  induction s as [|c s IH]; simpl; [done|]. rewrite not_elem_of_cons. intros [Hc Hs].
  rewrite bool_decide_eq_false_2 by congruence. by rewrite IH.
Qed.

(** Every piece is a separator-free infix of the string. *)
Lemma split_on_infix sep s w :
  w ∈ split_on sep s -> sep ∉ w /\ exists p q, s = p ++ w ++ q.
Proof.
  revert w. induction s as [|c s IH]; simpl; intros w.
  - rewrite list_elem_of_singleton. intros ->. split; [apply not_elem_of_nil|]. by exists [], [].
  - case_bool_decide as Hc.
    + rewrite elem_of_cons. intros [->|Hw].
      * split; [apply not_elem_of_nil|]. by exists [], (c :: s).
      * apply IH in Hw as [? (p & q & ->)]. split; [done|]. by exists (c :: p), q.
    + destruct (split_on sep s) as [|v vs] eqn:E; [by apply split_on_ne in E|].
      assert (exists q, s = v ++ q) as [q Hq].
      { clear -E. revert v vs E. induction s as [|d s IHs]; simpl; intros v vs.
        - intros [= <- <-]. by exists [].
        - case_bool_decide; [intros [= <- <-]; by eexists|].
          destruct (split_on sep s) as [|v' vs'] eqn:E'.
          + by apply split_on_ne in E'.
          + intros [= <- <-]. destruct (IHs _ _ eq_refl) as [q ->]. by exists q. }
      rewrite elem_of_cons. intros [->|Hw].
      * destruct (IH v) as [Hv _]; [left|]. split.
        -- rewrite not_elem_of_cons. split; [congruence|done].
        -- exists [], q. by rewrite Hq.
      * destruct (IH w) as [? (p & q' & ->)]; [by right|]. split; [done|]. by exists (c :: p), q'.
Qed.

Lemma has_control_app_r a b : has_control (a ++ b) = false -> has_control b = false.
Proof.
  induction a as [|c a IH]; [done|]. cbn [app has_control]. intros ?; bsplit. by apply IH.
Qed.

Lemma has_control_app_l a b : has_control (a ++ b) = false -> has_control a = false.
Proof.
  induction a as [|c a IH]; [done|]. cbn [app has_control]. intros ?; bsplit.
  rewrite IH by done. destruct a as [|d a]; cbn [app] in *; rewrite ?andb_false_r;
    bgoal; try done; lia.
Qed.

Lemma has_control_infix p s q : has_control (p ++ s ++ q) = false -> has_control s = false.
Proof. intros ?%has_control_app_r. by eapply has_control_app_l. Qed.

(** Splitting at an ASCII separator cuts between characters. *)
Lemma utf8_valid_cut sep a b :
  in_range 0 127 sep = true ->
  utf8_valid (a ++ sep :: b) = true -> utf8_valid a = true /\ utf8_valid b = true.
Proof.
  intros Hsep. induction a as [a IH] using (induction_ltof1 _ (@length _)); unfold ltof in IH.
  assert (utf8_cont sep = false) as Hc by (destruct sep; vm_compute in Hsep |- *; congruence).
  assert (forall x, utf8_lead3 x sep = false) as H3.
  { intros x. unfold utf8_lead3. rewrite Hc. unfold in_range in *. bsplit.
    destruct (160 <=? bval sep)%Z eqn:?; bsplit; [lia|].
    destruct (128 <=? bval sep)%Z eqn:?; bsplit; [lia|].
    by rewrite !andb_false_l, !andb_false_r. }
  assert (forall x, utf8_lead4 x sep = false) as H4.
  { intros x. unfold utf8_lead4. rewrite Hc. unfold in_range in *. bsplit.
    destruct (144 <=? bval sep)%Z eqn:?; bsplit; [lia|].
    destruct (128 <=? bval sep)%Z eqn:?; bsplit; [lia|].
    by rewrite !andb_false_l, !andb_false_r. }
  destruct a as [|x a]; cbn [app utf8_valid]; [by rewrite Hsep|].
  destruct (in_range 0 127 x) eqn:?; [apply IH; simpl; lia|].
  destruct a as [|y a]; cbn [app].
  { destruct (in_range 194 223 x); [by rewrite Hc|]. destruct b as [|c b]; [done|].
    rewrite H3. destruct b; [done|]. by rewrite H4. }
  destruct (in_range 194 223 x).
  { intros ?; bsplit. destruct (IH a) as [-> ->]; [simpl; lia|done|]. split; [by bgoal|done]. }
  destruct a as [|z a]; cbn [app].
  { destruct (utf8_lead3 x y); [by rewrite Hc|]. destruct b; [done|].
    rewrite Hc. by rewrite andb_false_r. }
  destruct (utf8_lead3 x y).
  { intros ?; bsplit. destruct (IH a) as [-> ->]; [simpl; lia|done|]. split; [by bgoal|done]. }
  destruct a as [|w a]; cbn [app].
  { rewrite Hc. by rewrite andb_false_r. }
  intros ?; bsplit. destruct (IH a) as [-> ->]; [simpl; lia|done|].
  split; [by bgoal|done].
Qed.

Lemma split_on_cases sep s :
  (sep ∉ s /\ split_on sep s = [s])
  \/ exists a b, s = a ++ sep :: b /\ sep ∉ a /\ split_on sep s = a :: split_on sep b.
Proof.
  destruct (decide (sep ∈ s)) as [Hin|Hnin]; [right|left; split; [done|by apply split_on_plain]].
  apply list_elem_of_split_l in Hin as (a & b & -> & Ha). exists a, b.
  split_and!; [done|done|]. by rewrite split_on_sep, split_on_plain.
Qed.

Lemma utf8_valid_split sep s w :
  in_range 0 127 sep = true ->
  utf8_valid s = true -> w ∈ split_on sep s -> utf8_valid w = true.
Proof.
  intros Hsep. induction s as [s IH] using (induction_ltof1 _ (@length _)); unfold ltof in IH.
  intros Hs. destruct (split_on_cases sep s) as [[_ ->]|(a & b & -> & _ & ->)].
  - rewrite list_elem_of_singleton. by intros ->.
  - apply utf8_valid_cut in Hs as [Ha Hb]; [|done].
    rewrite elem_of_cons. intros [->|Hw]; [done|].
    apply (IH b); [rewrite length_app; simpl; lia|done|done].
Qed.

Lemma join_app_sep sep w ws : ws <> [] -> join sep (w :: ws) = w ++ sep ++ join sep ws.
Proof. by destruct ws. Qed.

(** [split] inverts [join] on separator-free pieces. *)
Lemma split_on_join sep ws :
  ws <> [] -> Forall (fun w => sep ∉ w) ws -> split_on sep (join [sep] ws) = ws.
Proof.
  intros Hne H. induction H as [|w ws Hw Hws IH]; [done|].
  destruct ws as [|v ws]; [by apply split_on_plain|].
  rewrite join_app_sep by done. cbn [app].
  by rewrite split_on_sep, split_on_plain, IH by done.
Qed.

(** ** Trimming *)

Lemma ws_prefix_le s : ws_prefix s <= length s.
Proof.
  destruct s as [|a [|b [|c s]]]; cbn; repeat case_match; lia.
Qed.

Lemma ws_prefix_app s t : ws_prefix s <> 0 -> ws_prefix (s ++ t) = ws_prefix s.
Proof.
  destruct s as [|a [|b [|c s]]]; cbn; intros H; repeat case_match; done.
Qed.

Lemma ws_prefix_take k s : ws_prefix s = 0 -> ws_prefix (take k s) = 0.
Proof.
  intros H. destruct (decide (ws_prefix (take k s) = 0)) as [|Hne]; [done|].
  pose proof (ws_prefix_app _ (drop k s) Hne) as E. rewrite take_drop in E. congruence.
Qed.

(** An ASCII byte that is no space ends every run of white space. *)
Definition ascii_solid (b : byte) : bool := in_range 33 126 b.

Lemma ws_prefix_cut s b t : ascii_solid b = true -> ws_prefix s = 0 -> ws_prefix (s ++ b :: t) = 0.
Proof.
  unfold ascii_solid, in_range. intros Hb Hs. bsplit.
  destruct s as [|a [|c [|d s]]]; cbn in *; unfold in_range in *;
    repeat case_match; bsplit; try done; exfalso;
    repeat (match goal with H : _ || _ = true |- _ => apply orb_true_iff in H as [?|?] end; bsplit); lia.
Qed.

Lemma ws_suffix_le r : ws_suffix r <= length r.
Proof.
  unfold ws_suffix.
  repeat case_match; bsplit; try lia;
    match goal with H : ws_prefix ?x = _ |- _ => pose proof (ws_prefix_le x) as Hl; rewrite H in Hl end;
    rewrite ?length_rev in Hl; rewrite length_take in Hl; lia.
Qed.

Lemma trim_with_spec len fuel s :
  (forall t, len t <= length t) -> length s <= fuel ->
  len (trim_with len fuel s) = 0 /\ exists p, s = p ++ trim_with len fuel s.
Proof.
  intros Hlen. revert s. induction fuel as [|fuel IH]; intros s Hf; cbn.
  - specialize (Hlen s). split; [lia|]. by exists [].
  - destruct (len s) as [|n] eqn:E; [split; [done|by exists []]|].
    destruct (IH (drop (S n) s)) as [H1 [p H2]]; [rewrite length_drop; lia|].
    split; [done|]. exists (take (S n) s ++ p). rewrite <- app_assoc, <- H2. by rewrite take_drop.
Qed.

Lemma trim_with_id len fuel s : len s = 0 -> trim_with len fuel s = s.
Proof. intros E. destruct fuel; cbn; [done|]. by rewrite E. Qed.

(** Neither end of [s] is white space. *)
Definition trimmed (s : str) : Prop := ws_prefix s = 0 /\ ws_suffix (rev s) = 0.

Lemma trim_start_suffix s : ws_prefix (trim_start s) = 0 /\ exists p, s = p ++ trim_start s.
Proof. apply trim_with_spec; [apply ws_prefix_le|done]. Qed.

Lemma trim_end_prefix s : ws_suffix (rev (trim_end s)) = 0 /\ exists q, s = trim_end s ++ q.
Proof.
  unfold trim_end. rewrite rev_involutive.
  destruct (trim_with_spec ws_suffix (length s) (rev s)) as [H1 [p H2]];
    [apply ws_suffix_le|by rewrite length_rev|].
  split; [done|]. exists (rev p). rewrite <- rev_app_distr, <- H2. by rewrite rev_involutive.
Qed.

Lemma trim_trimmed s : trimmed (trim s).
Proof.
  unfold trim. destruct (trim_start_suffix s) as [H1 _].
  destruct (trim_end_prefix (trim_start s)) as [H2 [q H3]]. split; [|done].
  rewrite H3 in H1. apply (ws_prefix_take (length (trim_end (trim_start s)))) in H1.
  by rewrite take_app_length in H1.
Qed.

Lemma trim_id s : trimmed s -> trim s = s.
Proof.
  intros [H1 H2]. unfold trim, trim_start. rewrite trim_with_id by done.
  unfold trim_end. rewrite trim_with_id by done. apply rev_involutive.
Qed.

Lemma trim_infix s : exists p q, s = p ++ trim s ++ q.
Proof.
  destruct (trim_start_suffix s) as [_ [p H1]]. destruct (trim_end_prefix (trim_start s)) as [_ [q H2]].
  exists p, q. unfold trim. by rewrite <- H2.
Qed.

Lemma trim_elem s c : c ∈ trim s -> c ∈ s.
Proof. destruct (trim_infix s) as (p & q & E). intros Hc. rewrite E. set_solver. Qed.

Lemma trim_space s : trim (Byte.x20 :: s) = trim s.
Proof.
  unfold trim, trim_start. reflexivity.
Qed.

Lemma ws_suffix_cut r c q : ascii_solid c = true -> ws_suffix r = 0 -> ws_suffix (r ++ c :: q) = 0.
Proof.
  unfold ascii_solid, in_range. intros Hc H2. bsplit.
  destruct r as [|a [|b [|d r]]]; unfold ws_suffix in *; cbn in *; unfold in_range in *;
    destruct q as [|e [|g q]]; cbn in *; rewrite ?take_0 in *; cbn in *; unfold in_range in *;
    repeat case_match; bsplit; try done; exfalso;
    repeat (match goal with H : _ || _ = true |- _ => apply orb_true_iff in H as [?|?] end; bsplit); lia.
Qed.

Lemma trimmed_solid s c t : ascii_solid c = true -> trimmed s -> trimmed t -> trimmed (s ++ c :: t).
Proof.
  intros Hc [H1 _] [_ H2]. split; [by apply ws_prefix_cut|].
  rewrite rev_app_distr. cbn [rev]. rewrite <- app_assoc. by apply ws_suffix_cut.
Qed.

(** Only the ends matter. *)
Lemma trimmed_ends a m b : ascii_solid a = true -> ascii_solid b = true -> trimmed (a :: m ++ [b]).
Proof.
  intros Ha Hb. split; [by apply (ws_prefix_cut [])|].
  cbn [rev]. rewrite rev_app_distr. by apply (ws_suffix_cut []).
Qed.

(** ** Splitting once *)

Lemma split_once_Some sep s a b : split_once sep s = Some (a, b) <-> s = a ++ sep :: b /\ sep ∉ a.
Proof.
  revert a b. induction s as [|c s IH]; intros a b; cbn.
  - split; [done|]. intros [E _]. by destruct a.
  - case_bool_decide as Hc.
    + subst. split.
      * intros [= <- <-]. split; [done|apply not_elem_of_nil].
      * intros [E Ha]. destruct a as [|d a]; [by injection E as ->|]. injection E as -> ->. set_solver.
    + destruct (split_once sep s) as [[a' b']|] eqn:E.
      * destruct (IH a' b') as [IH1 _]. destruct IH1 as [-> Hn]; [done|]. split.
        -- intros [= <- <-]. split; [done|]. set_solver.
        -- intros [E' Ha]. destruct a as [|d a]; [injection E' as ? ?; by subst|]. injection E' as -> E'.
           destruct (IH a b) as [_ IH2]. specialize (IH2 (conj E' (fun h => Ha (list_elem_of_further _ _ _ h)))).
           by injection IH2 as -> ->.
      * split; [done|]. intros [E' Ha]. destruct a as [|d a]; [injection E' as ? ?; by subst|]. injection E' as -> E'.
        destruct (IH a b) as [_ IH2]. by specialize (IH2 (conj E' (fun h => Ha (list_elem_of_further _ _ _ h)))).
Qed.

Lemma split_once_app sep a b : sep ∉ a -> split_once sep (a ++ sep :: b) = Some (a, b).
Proof. intros Ha. by apply split_once_Some. Qed.

(** [split] on the separator of a join with [sep ' ']. *)
Lemma split_on_join_space sep w ws :
  sep <> Byte.x20 -> Forall (fun w => sep ∉ w) (w :: ws) ->
  split_on sep (join [sep; Byte.x20] (w :: ws)) = w :: map (cons Byte.x20) ws.
Proof.
  intros Hsep. revert w. induction ws as [|v ws IH]; intros w [Hw Hws]%Forall_cons; [by apply split_on_plain|].
  rewrite join_app_sep by done. cbn [app]. rewrite split_on_sep, split_on_plain by done. cbn [app]. f_equal.
  cbn [split_on]. rewrite bool_decide_eq_false_2 by congruence. rewrite IH by done. done.
Qed.

Lemma ws_prefix_solid a s : ascii_solid a = true -> ws_prefix (a :: s) = 0.
Proof. intros Ha. apply (ws_prefix_cut [] a s Ha). reflexivity. Qed.

Lemma trimmed_nil : trimmed [].
Proof. done. Qed.

(** A string of visible ASCII has nothing to trim. *)
Lemma solid_trimmed s : Forall (fun b => ascii_solid b = true) s -> trimmed s.
Proof.
  induction s as [|a s IH] using rev_ind; [intros; apply trimmed_nil|].
  intros [Hs Ha]%Forall_app. apply Forall_cons in Ha as [Ha _]. exact (trimmed_solid s a [] Ha (IH Hs) trimmed_nil).
Qed.

(** ** Decimal rendering *)

Lemma byte_of_digit d : (0 <= d < 10)%Z ->
  is_ascii_digit (byte_of (48 + d)) = true /\ bval (byte_of (48 + d)) = (48 + d)%Z.
Proof.
  intros Hd. assert (exists i, i < 10 /\ d = Z.of_nat i) as (i & Hi & ->) by (exists (Z.to_nat d); lia).
  do 10 (destruct i as [|i]; [by split|]). lia.
Qed.

Lemma dec_digits_spec fuel : forall n acc, (0 <= n < 10 ^ Z.of_nat fuel)%Z -> fuel <> 0 ->
  exists ds, dec_digits fuel n acc = ds ++ acc /\ ds <> [] /\ Forall (fun c => is_ascii_digit c = true) ds
    /\ digits_value ds = n.
Proof.
  induction fuel as [|fuel IH]; intros n acc Hn Hf; [done|]. cbn [dec_digits].
  destruct (byte_of_digit (n mod 10)) as [Hd Hv]; [by apply Z.mod_pos_bound|].
  destruct (Z.ltb_spec n 10) as [Hs|Hs].
  - exists [byte_of (48 + n mod 10)]. split_and!; [done|done|by constructor|].
    unfold digits_value. cbn. rewrite Hv, Z.mod_small by lia. lia.
  - assert (Hq : (0 <= n / 10 < 10 ^ Z.of_nat fuel)%Z).
    { split; [apply Z.div_pos; lia|]. apply Z.div_lt_upper_bound; [lia|].
      rewrite Nat2Z.inj_succ, Z.pow_succ_r in Hn by lia. lia. }
    destruct fuel as [|fuel]; [cbn in Hq; assert (1 <= n / 10)%Z by (apply Z.div_le_lower_bound; lia); lia|].
    destruct (IH (n / 10)%Z (byte_of (48 + n mod 10) :: acc) Hq) as (ds & -> & Hne & Hall & Hval); [done|].
    exists (ds ++ [byte_of (48 + n mod 10)]). split_and!.
    + by rewrite <- app_assoc.
    + by destruct ds.
    + apply Forall_app. split; [done|]. by constructor.
    + unfold digits_value in *. rewrite foldl_app, Hval. cbn [foldl]. rewrite Hv.
      pose proof (Z.div_mod n 10). lia.
Qed.

Lemma to_dec_spec n : (0 <= n)%Z ->
  to_dec n <> [] /\ Forall (fun c => is_ascii_digit c = true) (to_dec n) /\ digits_value (to_dec n) = n.
Proof.
  intros Hn. unfold to_dec. edestruct (dec_digits_spec (S (Z.to_nat (Z.log2 n))) n []) as (ds & E & ?); [|done|].
  2:{ rewrite E, app_nil_r. done. }
  split; [done|]. destruct (decide (n = 0)%Z) as [->|]; [done|].
  rewrite Nat2Z.inj_succ, Z2Nat.id by apply Z.log2_nonneg.
  pose proof (Z.log2_spec n ltac:(lia)) as [_ Hlog]. eapply Z.lt_le_trans; [exact Hlog|].
  apply Z.pow_le_mono_l. lia.
Qed.

Lemma parse_u64_digits s : s <> [] -> Forall (fun c => is_ascii_digit c = true) s ->
  parse_u64 s = if (digits_value s <=? u64_max)%Z then Some (digits_value s) else None.
Proof.
  intros Hne Hd. destruct s as [|c s]; [done|]. unfold parse_u64, parse_uint.
  assert (c <> Byte.x2b) by (apply Forall_cons in Hd as [Hc _]; by intros ->).
  rewrite bool_decide_eq_false_2 by done. rewrite parse_digits_spec by (unfold u64_max; lia).
  by rewrite (proj2 (forallb_true_Forall _ _) Hd).
Qed.

Lemma parse_u64_to_dec n : (0 <= n <= u64_max)%Z -> parse_u64 (to_dec n) = Some n.
Proof.
  intros Hn. destruct (to_dec_spec n) as (Hne & Hd & Hv); [lia|].
  rewrite parse_u64_digits, Hv by done. by rewrite (proj2 (Z.leb_le _ _)) by lia.
Qed.

Lemma digit_solid s : Forall (fun c => is_ascii_digit c = true) s -> Forall (fun b => ascii_solid b = true) s.
Proof.
  intros Hs. eapply Forall_impl; [exact Hs|]. intros b Hb.
  unfold is_ascii_digit, ascii_solid, in_range in *. bsplit. bgoal; lia.
Qed.

(** ** Membership, prefixes and the last separator *)

Lemma contains_false c s : contains c s = false <-> c ∉ s.
Proof.
  unfold contains. rewrite existsb_false_Forall, Forall_forall. setoid_rewrite bool_decide_eq_false.
  split; [intros Hc Hin; by apply (Hc c)|intros Hc x Hx ->; done].
Qed.

Lemma rsplit_once_none sep s : sep ∉ s -> rsplit_once sep s = None.
Proof.
  induction s as [|b s IH]; [done|]. intros [Hb Hs]%not_elem_of_cons. cbn. rewrite IH by done.
  by rewrite bool_decide_eq_false_2.
Qed.

Lemma rsplit_once_last sep a b : sep ∉ b -> rsplit_once sep (a ++ sep :: b) = Some (a, b).
Proof.
  intros Hb. induction a as [|c a IH]; cbn; [|by rewrite IH].
  rewrite rsplit_once_none by done. by rewrite bool_decide_eq_true_2.
Qed.

Lemma split_once_None sep s : split_once sep s = None -> sep ∉ s.
Proof.
  induction s as [|c s IH]; cbn; [intros _; apply not_elem_of_nil|]. case_bool_decide as Hc; [done|].
  destruct (split_once sep s) as [[a b]|]; [done|]. intros _. apply not_elem_of_cons. split; [congruence|by apply IH].
Qed.

Lemma starts_with_iff p s : starts_with p s = true <-> exists q, s = p ++ q.
Proof.
  unfold starts_with. rewrite bool_decide_eq_true. split.
  - intros [q Hq]. exists q. revert s Hq. induction p as [|a p IH]; intros s Hq; cbn in *; [congruence|].
    destruct s as [|b s]; [done|]. destruct (bool_decide_reflect (a = b)) as [->|]; [|done].
    f_equal. by apply IH.
  - intros [q ->]. rewrite strip_prefix_app. eauto.
Qed.
