(* ===== verification/Percent.v ===== *)
(** * Percent encoding

    [encode_path_segment] and [validate_percent_triplets] of
    [src/app/router.rs], [hex_value] of [src/app/request.rs], and the interface
    of the third-party [percent_encoding] crate the router decodes with: the
    class [PercentEncoding] states the documented behaviour of
    [percent_decode_str] that the router relies on; [reference_percent_encoding]
    is a concrete decoder satisfying it. *)
From S2P Require Import Prelude Strs.

Definition hex_value (b : byte) : option Z :=
  if is_ascii_digit b then Some (bval b - 48)%Z
  else if in_range 97 102 b then Some (bval b - 97 + 10)%Z
  else if in_range 65 70 b then Some (bval b - 65 + 10)%Z
  else None.

Abbreviation percent := Byte.x25.
Abbreviation slash := Byte.x2f.

(** ** The [percent_encoding] crate *)

Class PercentEncoding := {
  percent_decode : str -> str;
  percent_decode_nil : percent_decode [] = [];
  percent_decode_plain b s :
    b <> percent -> percent_decode (b :: s) = b :: percent_decode s;
  percent_decode_triplet h l hv lv s :
    hex_value h = Some hv -> hex_value l = Some lv ->
    percent_decode (percent :: h :: l :: s) = byte_of (16 * hv + lv) :: percent_decode s
}.

Fixpoint reference_percent_decode (s : str) : str :=
  match s with
  | [] => []
  | c :: s1 =>
      if bool_decide (c = percent) then
        match s1 with
        | h :: l :: s2 =>
            match hex_value h, hex_value l with
            | Some hv, Some lv => byte_of (16 * hv + lv) :: reference_percent_decode s2
            | _, _ => c :: reference_percent_decode s1
            end
        | _ => c :: reference_percent_decode s1
        end
      else c :: reference_percent_decode s1
  end.

#[export] Program Instance reference_percent_encoding : PercentEncoding :=
  {| percent_decode := reference_percent_decode |}.
Next Obligation. done. Qed.
Next Obligation.
  intros b s Hb. cbn [reference_percent_decode].
  rewrite bool_decide_eq_false_2 by done. done.
Qed.
Next Obligation.
  intros h l hv lv s Hh Hl. cbn [reference_percent_decode].
  rewrite bool_decide_eq_true_2 by done. by rewrite Hh, Hl.
Qed.

(** The reference decoder is a witness for the interface, not a hidden default. *)
#[export] Remove Hints reference_percent_encoding : typeclass_instances.

(** ** Encoding a path segment *)

(** [format!("{:X}")] of a nibble. *)
Definition hex_digit (n : Z) : byte := byte_of (if (n <? 10)%Z then 48 + n else 55 + n).

Definition is_unreserved (b : byte) : bool :=
  is_ascii_alphanumeric b
  || bool_decide (b = Byte.x2d) || bool_decide (b = Byte.x2e)
  || bool_decide (b = Byte.x5f) || bool_decide (b = Byte.x7e).

Definition encode_byte (b : byte) : str :=
  if is_unreserved b then [b]
  else [percent; hex_digit (bval b / 16); hex_digit (bval b mod 16)].

Definition encode_path_segment (input : str) : str := concat (map encode_byte input).

(** The scan loop shared by [validate_percent_triplets] and
    [decode_route_static_segment]: every [%] is followed by two hex digits. *)
Fixpoint valid_triplets (s : str) : bool :=
  match s with
  | [] => true
  | c :: s1 =>
      if bool_decide (c = percent) then
        match s1 with
        | h :: l :: s2 => is_ascii_hexdigit h && is_ascii_hexdigit l && valid_triplets s2
        | _ => false
        end
      else valid_triplets s1
  end.

(** ** Lemmas *)

Lemma encode_byte_shape b :
  (is_unreserved b = true /\ encode_byte b = [b] /\ b <> percent /\ b <> slash)
  \/ exists h l hv lv,
       encode_byte b = [percent; h; l]
       /\ hex_value h = Some hv /\ hex_value l = Some lv
       /\ is_ascii_hexdigit h = true /\ is_ascii_hexdigit l = true
       /\ h <> slash /\ l <> slash /\ byte_of (16 * hv + lv) = b.
Proof.
  destruct b;
    first [ left; repeat split; done
          | right; do 4 eexists; repeat (split; [reflexivity || done|]); done ].
Qed.

Lemma valid_triplets_encode_byte b s :
  valid_triplets (encode_byte b ++ s) = valid_triplets s.
Proof.
  destruct (encode_byte_shape b) as [(_ & -> & Hp & _)|(h & l & hv & lv & -> & ? & ? & Hh & Hl & _)];
    cbn [app valid_triplets].
  - by rewrite bool_decide_eq_false_2.
  - rewrite bool_decide_eq_true_2 by done. by rewrite Hh, Hl.
Qed.

Lemma valid_triplets_encode s : valid_triplets (encode_path_segment s) = true.
Proof.
  unfold encode_path_segment. induction s as [|b s IH]; [done|].
  cbn [map concat]. by rewrite valid_triplets_encode_byte.
Qed.

Lemma encode_no_slash s : slash ∉ encode_path_segment s.
Proof.
  unfold encode_path_segment. induction s as [|b s IH]; cbn [map concat]; [by apply not_elem_of_nil|].
  rewrite not_elem_of_app. split; [|done].
  destruct (encode_byte_shape b) as [(_ & -> & _ & Hs)|(h & l & hv & lv & -> & _ & _ & _ & _ & Hh & Hl & _)];
    rewrite !not_elem_of_cons; repeat split; try done; apply not_elem_of_nil.
Qed.

Lemma encode_nil_iff s : encode_path_segment s = [] <-> s = [].
Proof.
  split; [|by intros ->]. destruct s as [|b s]; [done|]. unfold encode_path_segment.
  cbn [map concat]. destruct (encode_byte_shape b) as [(_ & -> & _)|(h & l & hv & lv & -> & _)]; done.
Qed.

Section decode.
Context `{PercentEncoding}.

(** Decoding inverts [encode_path_segment] on every byte string. *)
Lemma percent_decode_encode s : percent_decode (encode_path_segment s) = s.
Proof.
  unfold encode_path_segment. induction s as [|b s IH]; cbn [map concat]; [apply percent_decode_nil|].
  destruct (encode_byte_shape b) as [(_ & -> & Hp & _)|(h & l & hv & lv & -> & Hh & Hl & _ & _ & _ & _ & Hb)];
    cbn [app].
  - by rewrite percent_decode_plain, IH.
  - erewrite percent_decode_triplet by done. by rewrite IH, Hb.
Qed.

Lemma encode_path_segment_inj s t : encode_path_segment s = encode_path_segment t -> s = t.
Proof.
  intros E. rewrite <- (percent_decode_encode s), <- (percent_decode_encode t). by rewrite E.
Qed.
End decode.

(** The first byte of an encoded segment is a [%] or an unreserved byte, so it
    is never a placeholder marker. *)
Lemma encode_head s c t :
  encode_path_segment s = c :: t -> c <> Byte.x3a /\ c <> Byte.x2a.
Proof.
  destruct s as [|b s]; [done|]. unfold encode_path_segment. cbn [map concat].
  destruct (encode_byte_shape b) as [(Hu & -> & _)|(h & l & hv & lv & -> & _)];
    intros [= <- _]; [split; by intros ->|done].
Qed.
