(* ===== verification/Pattern.v ===== *)
(** * Route patterns and request paths ([src/app/router.rs])

    [RoutePattern::parse], [validate_segments], [RoutePattern::join],
    [render_pattern] and the path side: [path_segments],
    [decode_path_segments] and [match_decoded_pattern]. The theorems: parsing
    yields well-formed patterns, rendering round-trips, joining two patterns is
    parsing their concatenation, and matching captures exactly the segments of
    the placeholders. *)
From S2P Require Import Prelude Strs Percent.

Definition MAX_PATH_SEGMENTS : nat := 256.

(** ** Data *)

(** A single segment of a route pattern. *)
Inductive Segment :=
| Static (s : str)
| Param (name : str)
| Wildcard (name : str).

#[export] Instance Segment_eq_dec : EqDecision Segment.
Proof. solve_decision. Defined.

(** The parameter-name-independent shape used for conflict detection. *)
Inductive ConflictSegment :=
| CStatic (s : str)
| CParam
| CWildcard.

#[export] Instance ConflictSegment_eq_dec : EqDecision ConflictSegment.
Proof. solve_decision. Defined.

Record RoutePattern := mkRoutePattern {
  rendered : str;
  segments : list Segment;
  parameter_names : list str;
  conflict_key : list ConflictSegment
}.

#[export] Instance RoutePattern_eq_dec : EqDecision RoutePattern.
Proof. solve_decision. Defined.

Inductive RouteErrorKind :=
| MissingLeadingSlash
| EmptyParameter
| InvalidParameter
| DuplicateParameter
| NonTerminalWildcard
| TooManySegments
| DuplicateRoute
| ConflictingPattern
| DuplicateName
| InvalidHostPattern
| MissingUrlParameter
| UnexpectedUrlParameter
| InvalidPercentEncoding
| InvalidStaticRoot
| InvalidStaticOptions
| UnsupportedMethod.

#[export] Instance RouteErrorKind_eq_dec : EqDecision RouteErrorKind.
Proof. solve_decision. Defined.

Record RouteError := RouteError_new { kind : RouteErrorKind; message : str }.

Inductive RouteMatchErrorKind :=
| InvalidPathEncoding
| TooManyPathSegments.

Record RouteMatchError := mkRouteMatchError {
  match_kind : RouteMatchErrorKind;
  match_message : str
}.

Definition invalid_path_encoding : RouteMatchError :=
  mkRouteMatchError InvalidPathEncoding §"La ruta contiene codificacion porcentual invalida".

Definition too_many_segments : RouteMatchError :=
  mkRouteMatchError TooManyPathSegments
    (§"La ruta no puede contener mas de " ++ to_dec (Z.of_nat MAX_PATH_SEGMENTS) ++ §" segmentos").

(** ** Paths *)

Definition nonempty (s : str) : bool := match s with [] => false | _ => true end.

(** Splits a path into non-empty segments. *)
Definition path_segments (path : str) : list str :=
  List.filter nonempty (split_on slash path).

Definition validate_percent_triplets (input : str) : result unit RouteMatchError :=
  if valid_triplets input then Ok tt else Err invalid_path_encoding.

Section decoding.
Context `{PercentEncoding}.

Definition decode_path_segment (segment : str) : result str RouteMatchError :=
  let? _ := validate_percent_triplets segment in
  let decoded := percent_decode segment in
  if utf8_valid decoded then
    if has_control decoded then Err invalid_path_encoding else Ok decoded
  else Err invalid_path_encoding.

Definition decode_path_segments (path : str) : result (list str) RouteMatchError :=
  let segments := path_segments path in
  if (MAX_PATH_SEGMENTS <? length segments)%nat then Err too_many_segments
  else try_map decode_path_segment segments.

Definition decode_route_static_segment (raw : str) : result str RouteError :=
  if valid_triplets raw then
    let decoded := percent_decode raw in
    if utf8_valid decoded then
      if has_control decoded then
        Err (RouteError_new InvalidPercentEncoding
               §"El patron de ruta contiene caracteres de control")
      else Ok decoded
    else Err (RouteError_new InvalidPercentEncoding
                §"El patron de ruta contiene UTF-8 porcentual no valido")
  else Err (RouteError_new InvalidPercentEncoding
              §"El patron de ruta contiene codificacion porcentual invalida").
End decoding.

(** The pattern loop of [match_decoded_pattern] from a pattern position and a
    segment position on; the positions are the suffixes that remain. *)
Fixpoint match_loop (pattern : list Segment) (segs : list str) (params : gmap str str)
  : option (gmap str str) :=
  match pattern with
  | [] => match segs with [] => Some params | _ :: _ => None end
  | Wildcard name :: rest =>
      if bool_decide (rest = []) then Some (<[name := join [slash] segs]> params) else None
  | Static s :: rest =>
      match segs with
      | actual :: segs => if bool_decide (s = actual) then match_loop rest segs params else None
      | [] => None
      end
  | Param name :: rest =>
      match segs with
      | actual :: segs => match_loop rest segs (<[name := actual]> params)
      | [] => None
      end
  end.

Definition match_decoded_pattern (pattern : list Segment) (segs : list str)
  : option (gmap str str) := match_loop pattern segs ∅.

(** ** Patterns *)

Definition param_byte (b : byte) : bool :=
  is_ascii_alphanumeric b || bool_decide (b = Byte.x5f) || bool_decide (b = Byte.x2d).

(** [seen] and [parameter_names] are the two collections the caller threads. *)
Definition validate_parameter_name (name : str) (seen : gset str) (names : list str)
  : result (gset str * list str) RouteError :=
  if bool_decide (name = []) then
    Err (RouteError_new EmptyParameter §"Los parametros de ruta no pueden estar vacios")
  else if negb (forallb param_byte name) then
    Err (RouteError_new InvalidParameter (§"Nombre de parametro de ruta no valido: " ++ name))
  else if bool_decide (name ∈ seen) then
    Err (RouteError_new DuplicateParameter (§"Parametro duplicado: " ++ name))
  else Ok ({[name]} ∪ seen, names ++ [name]).

(** Renders a parsed pattern back to its [/users/:id] form. *)
Definition render_segment (segment : Segment) : str :=
  slash :: match segment with
           | Static s => encode_path_segment s
           | Param name => Byte.x3a :: name
           | Wildcard name => Byte.x2a :: name
           end.
Definition render_pattern (pattern : list Segment) : str :=
  match pattern with
  | [] => [slash]
  | _ => concat (map render_segment pattern)
  end.

Definition conflict_segment (segment : Segment) : ConflictSegment :=
  match segment with
  | Static value => CStatic value
  | Param _ => CParam
  | Wildcard _ => CWildcard
  end.

Definition from_validated_segments (segments : list Segment) (parameter_names : list str)
  : RoutePattern :=
  mkRoutePattern (render_pattern segments) segments parameter_names
    (map conflict_segment segments).

Definition too_many_route_segments : RouteError :=
  RouteError_new TooManySegments
    (§"Las rutas no pueden contener mas de " ++ to_dec (Z.of_nat MAX_PATH_SEGMENTS) ++ §" segmentos").

Definition non_terminal_wildcard : RouteError :=
  RouteError_new NonTerminalWildcard §"Los comodines solo pueden aparecer al final de la ruta".

(** The loop of [validate_segments]; [last] is the index of the final segment. *)
Fixpoint validate_loop (last index : nat) (segs : list Segment)
    (seen : gset str) (names : list str) : result (list str) RouteError :=
  match segs with
  | [] => Ok names
  | Static _ :: segs => validate_loop last (S index) segs seen names
  | Param name :: segs =>
      let? (seen, names) := validate_parameter_name name seen names in
      validate_loop last (S index) segs seen names
  | Wildcard name :: segs =>
      if bool_decide (index <> last) then Err non_terminal_wildcard
      else
        let? (seen, names) := validate_parameter_name name seen names in
        validate_loop last (S index) segs seen names
  end.

Definition validate_segments (segments : list Segment) : result RoutePattern RouteError :=
  if (MAX_PATH_SEGMENTS <? length segments)%nat then Err too_many_route_segments
  else
    let? names := validate_loop (length segments - 1) 0 segments ∅ [] in
    Ok (from_validated_segments segments names).

(** [RoutePattern::join]. *)
Definition pattern_join (prefix suffix : RoutePattern) : result RoutePattern RouteError :=
  validate_segments (segments prefix ++ segments suffix).

Section parsing.
Context `{PercentEncoding}.

(** The loop of [RoutePattern::parse]; [count] is [raw_segments.len()]. *)
Fixpoint parse_loop (count index : nat) (raws : list str)
    (seen : gset str) (names : list str) (segs : list Segment)
  : result (list Segment * list str) RouteError :=
  match raws with
  | [] => Ok (segs, names)
  | raw :: raws =>
      match strip_prefix [Byte.x3a] raw with
      | Some name =>
          let? (seen, names) := validate_parameter_name name seen names in
          parse_loop count (S index) raws seen names (segs ++ [Param name])
      | None =>
          match strip_prefix [Byte.x2a] raw with
          | Some name =>
              if bool_decide (index <> (count - 1)%nat) then Err non_terminal_wildcard
              else
                let? (seen, names) := validate_parameter_name name seen names in
                parse_loop count (S index) raws seen names (segs ++ [Wildcard name])
          | None =>
              let? s := decode_route_static_segment raw in
              parse_loop count (S index) raws seen names (segs ++ [Static s])
          end
      end
  end.

(** [RoutePattern::parse]. *)
Definition parse (path : str) : result RoutePattern RouteError :=
  if negb (starts_with [slash] path) then
    Err (RouteError_new MissingLeadingSlash §"Las rutas deben empezar con /")
  else
    let raw_segments := path_segments path in
    if (MAX_PATH_SEGMENTS <? length raw_segments)%nat then Err too_many_route_segments
    else
      let? (segs, names) := parse_loop (length raw_segments) 0 raw_segments ∅ [] [] in
      Ok (from_validated_segments segs names).
End parsing.

(** ** Structural matching *)

(** Whether a pattern matches decoded path segments, ignoring captures. *)
Fixpoint pattern_matches (pattern : list Segment) (segs : list str) : bool :=
  match pattern, segs with
  | [], [] => true
  | [], _ :: _ => false
  | Wildcard _ :: rest, _ => bool_decide (rest = [])
  | Static s :: rest, actual :: segs => bool_decide (s = actual) && pattern_matches rest segs
  | Param _ :: rest, _ :: segs => pattern_matches rest segs
  | _ :: _, [] => false
  end.

Lemma match_loop_is_Some pattern segs params :
  is_Some (match_loop pattern segs params) <-> pattern_matches pattern segs = true.
Proof.
  revert segs params. induction pattern as [|[s|n|n] rest IH]; intros segs params; cbn.
  - rewrite is_Some_alt. by destruct segs.
  - destruct segs as [|a segs]; [by rewrite is_Some_alt|].
    case_bool_decide; cbn; [apply IH|]. by rewrite is_Some_alt.
  - destruct segs as [|a segs]; [by rewrite is_Some_alt|]. apply IH.
  - rewrite is_Some_alt. by case_bool_decide.
Qed.

Lemma match_decoded_pattern_is_Some pattern segs :
  is_Some (match_decoded_pattern pattern segs) <-> pattern_matches pattern segs = true.
Proof. apply match_loop_is_Some. Qed.

(** The declared parameter names of a pattern, in order. *)
Definition seg_name (segment : Segment) : option str :=
  match segment with Static _ => None | Param n | Wildcard n => Some n end.
Definition seg_names (segs : list Segment) : list str := omap seg_name segs.

(** The value a placeholder at position [i] captures. *)
Definition captured (pattern : list Segment) (segs : list str) (i : nat) : option str :=
  match pattern !! i with
  | Some (Param _) => segs !! i
  | Some (Wildcard _) => Some (join [slash] (drop i segs))
  | _ => None
  end.

Lemma seg_names_elem segs n :
  n ∈ seg_names segs <-> exists i seg, segs !! i = Some seg /\ seg_name seg = Some n.
Proof.
  unfold seg_names. rewrite list_elem_of_omap. setoid_rewrite list_elem_of_lookup. naive_solver.
Qed.

(** A name is declared by one segment only. *)
Lemma seg_names_inj segs i j a b n :
  NoDup (seg_names segs) -> segs !! i = Some a -> segs !! j = Some b ->
  seg_name a = Some n -> seg_name b = Some n -> i = j.
Proof.
  assert (Hhead : forall c (rest : list Segment) k b, NoDup (seg_names (c :: rest)) ->
    rest !! k = Some b -> seg_name c = Some n -> seg_name b = Some n -> False).
  { intros c rest k d Hnd Hk Hc Hd. unfold seg_names in Hnd. cbn in Hnd. rewrite Hc in Hnd.
    apply NoDup_cons in Hnd as [Hno _]. apply Hno, seg_names_elem. eauto. }
  revert i j. induction segs as [|c rest IH]; intros [|i] [|j] Hnd Hi Hj Ha Hb; simplify_eq/=; try done.
  - destruct (Hhead _ _ _ _ Hnd Hj Ha Hb).
  - destruct (Hhead _ _ _ _ Hnd Hi Hb Ha).
  - f_equal. apply IH; try done. unfold seg_names in *. cbn in Hnd.
    destruct (seg_name c); [by apply NoDup_cons in Hnd as [_ ?]|done].
Qed.

Lemma match_loop_other pattern segs params params' n :
  match_loop pattern segs params = Some params' ->
  n ∉ seg_names pattern -> params' !! n = params !! n.
Proof.
  revert segs params. induction pattern as [|[s|m|m] rest IH]; intros segs params; cbn.
  - destruct segs; [by intros [= ->]|done].
  - destruct segs; [done|]. case_bool_decide; [apply IH|done].
  - destruct segs; [done|]. intros Hm Hn. apply not_elem_of_cons in Hn as [Hne Hn].
    rewrite (IH _ _ Hm Hn). by rewrite lookup_insert_ne.
  - case_bool_decide as Hr; [|done]. intros [= <-] Hn. apply not_elem_of_cons in Hn as [Hne _].
    by rewrite lookup_insert_ne.
Qed.

Lemma match_loop_captures pattern segs params params' i seg n :
  NoDup (seg_names pattern) ->
  match_loop pattern segs params = Some params' ->
  pattern !! i = Some seg -> seg_name seg = Some n ->
  params' !! n = captured pattern segs i /\ is_Some (captured pattern segs i).
Proof.
  unfold captured. revert segs params i. induction pattern as [|[s|m|m] rest IH];
    intros segs params i Hnd; cbn [match_loop]; [done| | |].
  - destruct segs as [|a segs]; [done|]. case_bool_decide; [|done].
    intros Hm Hi Hn. destruct i as [|i]; simplify_eq/=. by eapply IH.
  - destruct segs as [|a segs]; [done|]. cbn in Hnd. apply NoDup_cons in Hnd as [Hm Hnd].
    intros Hl Hi Hn. destruct i as [|i]; simplify_eq/=.
    + by rewrite (match_loop_other _ _ _ _ _ Hl Hm), lookup_insert_eq.
    + by eapply IH.
  - case_bool_decide as Hr; [|done]. subst rest. intros [= <-] Hi Hn.
    destruct i as [|i]; simplify_eq/=. by rewrite lookup_insert_eq.
Qed.

(** ** Well-formed patterns *)

Definition name_ok (name : str) : Prop := name <> [] /\ forallb param_byte name = true.

Definition seg_ok (segment : Segment) : Prop :=
  match segment with
  | Static s => s <> [] /\ utf8_valid s = true /\ has_control s = false
  | Param name | Wildcard name => name_ok name
  end.

(** What a validated [RoutePattern] promises to the router: bounded length,
    usable segments, a wildcard only at the end, distinct names, and derived
    fields that agree with the segments. *)
Record wf_pattern (p : RoutePattern) : Prop := {
  wf_length : length (segments p) <= MAX_PATH_SEGMENTS;
  wf_segs : Forall seg_ok (segments p);
  wf_wildcard i n : segments p !! i = Some (Wildcard n) -> S i = length (segments p);
  wf_nodup : NoDup (seg_names (segments p));
  wf_names : parameter_names p = seg_names (segments p);
  wf_rendered : rendered p = render_pattern (segments p);
  wf_key : conflict_key p = map conflict_segment (segments p)
}.

Lemma validate_parameter_name_Ok name seen names r :
  validate_parameter_name name seen names = Ok r <->
  name_ok name /\ name ∉ seen /\ r = ({[name]} ∪ seen, names ++ [name]).
Proof.
  unfold validate_parameter_name, name_ok.
  case_bool_decide; [naive_solver|].
  destruct (forallb param_byte name); cbn [negb]; [|naive_solver].
  case_bool_decide; naive_solver.
Qed.

Lemma validate_parameter_name_Err name seen names e :
  validate_parameter_name name seen names = Err e -> name_ok name -> name ∈ seen.
Proof.
  intros Hv Hok. destruct (decide (name ∈ seen)); [done|].
  by rewrite (proj2 (validate_parameter_name_Ok name seen names _) (conj Hok (conj n eq_refl))) in Hv.
Qed.

Lemma validate_loop_Ok last idx segs seen names names' :
  (forall x, x ∈ seen <-> x ∈ names) ->
  validate_loop last idx segs seen names = Ok names' <->
  names' = names ++ seg_names segs /\ Forall name_ok (seg_names segs)
  /\ NoDup (seg_names segs) /\ (forall x, x ∈ seg_names segs -> x ∉ names)
  /\ (forall i n, segs !! i = Some (Wildcard n) -> idx + i = last).
Proof.
  revert idx seen names. induction segs as [|seg segs IH]; intros idx seen names Hs.
  - cbn. rewrite app_nil_r. split; [|naive_solver].
    intros [= <-]. split_and!; [done|by constructor|by constructor| |done].
    by intros x ?%elem_of_nil.
  - assert (Hshift : forall P : Prop,
      (forall i n, (seg :: segs) !! i = Some (Wildcard n) -> idx + i = last) <->
      (forall n, seg = Wildcard n -> idx = last) /\
      (forall i n, segs !! i = Some (Wildcard n) -> S idx + i = last)).
    { intros _. split.
      - intros Hw. split; [intros n ->; specialize (Hw 0 n eq_refl); lia|].
        intros i n Hi. specialize (Hw (S i) n Hi). lia.
      - intros [H0 Hw] [|i] n Hi; cbn in Hi; [injection Hi as Hi; rewrite (H0 _ Hi); lia|].
        rewrite <- (Hw _ _ Hi). lia. }
    rewrite (Hshift True). clear Hshift.
    destruct seg as [s|n|n]; cbn [validate_loop seg_names omap list_omap seg_name];
      fold (seg_names segs).
    + rewrite IH by done. naive_solver.
    + destruct (validate_parameter_name n seen names) as [[seen' names1]|e] eqn:Hv.
      * apply validate_parameter_name_Ok in Hv as (Hok & Hnew & [= -> ->]).
        rewrite IH by set_solver. rewrite Forall_cons, NoDup_cons, <- app_assoc. cbn [app].
        set_solver.
      * split; [done|]. intros (_ & Hok & _ & Hnew & _). apply Forall_cons in Hok as [Hok _].
        apply validate_parameter_name_Err in Hv; set_solver.
    + case_bool_decide as Hi.
      * split; [done|]. intros (_ & _ & _ & _ & Hw & _). by destruct (Hi (Hw _ eq_refl)).
      * destruct (validate_parameter_name n seen names) as [[seen' names1]|e] eqn:Hv.
        -- apply validate_parameter_name_Ok in Hv as (Hok & Hnew & [= -> ->]).
           rewrite IH by set_solver. rewrite Forall_cons, NoDup_cons, <- app_assoc. cbn [app].
           set_solver.
        -- split; [done|]. intros (_ & Hok & _ & Hnew & _). apply Forall_cons in Hok as [Hok _].
           apply validate_parameter_name_Err in Hv; set_solver.
Qed.

(** [validate_segments] accepts exactly the well-formed segment lists. *)
Lemma validate_segments_Ok segs p :
  Forall seg_ok segs ->
  validate_segments segs = Ok p <-> wf_pattern p /\ segments p = segs.
Proof.
  intros Hsegs. unfold validate_segments.
  destruct (MAX_PATH_SEGMENTS <? length segs)%nat eqn:Hlen; bsplit.
  { split; [done|]. intros [[] <-]. lia. }
  destruct (validate_loop _ _ _ _ _) as [names|e] eqn:Hv.
  - apply validate_loop_Ok in Hv as (Hn & _ & Hnd & _ & Hw); [|set_solver].
    split.
    + intros [= <-]. split; [|done]. constructor; try done; cbn.
      intros i n Hi. specialize (Hw i n Hi). apply lookup_lt_Some in Hi. lia.
    + intros [[] <-]. f_equal. destruct p; cbn in *. unfold from_validated_segments. by subst.
  - split; [done|]. intros [[] <-].
    cut (validate_loop (length (segments p) - 1) 0 (segments p) ∅ [] = Ok (seg_names (segments p)));
      [congruence|].
    apply validate_loop_Ok; [set_solver|]. split_and!; [done| |done|set_solver|].
    + apply Forall_forall. intros n (i & seg & Hi & Hs)%seg_names_elem.
      eapply Forall_lookup_1 in Hi; [|done]. by destruct seg; simplify_eq/=.
    + intros i n Hi. specialize (wf_wildcard0 i n Hi). lia.
Qed.

Lemma path_segments_slash a b : path_segments (a ++ slash :: b) = path_segments a ++ path_segments b.
Proof. unfold path_segments. by rewrite split_on_sep, List.filter_app. Qed.

Lemma path_segments_plain w : slash ∉ w -> path_segments w = if nonempty w then [w] else [].
Proof. intros Hw. unfold path_segments. rewrite split_on_plain by done. simpl. by destruct w. Qed.

(** The raw text of a rendered segment, without its leading slash. *)
Definition raw_segment (segment : Segment) : str := tail (render_segment segment).

Lemma param_name_no_slash name : forallb param_byte name = true -> slash ∉ name.
Proof.
  rewrite forallb_true_Forall, Forall_forall. intros Hn Hs. by specialize (Hn _ Hs).
Qed.

Lemma raw_segment_ok segment :
  seg_ok segment -> slash ∉ raw_segment segment /\ nonempty (raw_segment segment) = true.
Proof.
  destruct segment as [s|n|n]; cbn; intros Hok.
  - split; [apply encode_no_slash|]. destruct (encode_path_segment s) eqn:E; [|done].
    apply (proj1 (encode_nil_iff s)) in E. destruct Hok; congruence.
  - split; [|done]. rewrite not_elem_of_cons. split; [done|]. by apply param_name_no_slash, Hok.
  - split; [|done]. rewrite not_elem_of_cons. split; [done|]. by apply param_name_no_slash, Hok.
Qed.

Lemma render_segment_raw segment : render_segment segment = slash :: raw_segment segment.
Proof. done. Qed.

Lemma path_segments_concat_render segs :
  Forall seg_ok segs -> path_segments (concat (map render_segment segs)) = map raw_segment segs.
Proof.
  induction segs as [|seg segs IH] using rev_ind; [done|].
  rewrite Forall_app, Forall_singleton. intros [Hs Hseg].
  rewrite !List.map_app, concat_app. cbn [map concat]. rewrite app_nil_r, render_segment_raw.
  apply raw_segment_ok in Hseg as [Hns Hne].
  by rewrite path_segments_slash, IH, (path_segments_plain _ Hns), Hne.
Qed.

Lemma path_segments_render segs :
  Forall seg_ok segs -> path_segments (render_pattern segs) = map raw_segment segs.
Proof. intros H. destruct segs as [|seg segs]; [done|]. by apply path_segments_concat_render. Qed.

Lemma render_pattern_slash segs : exists t, render_pattern segs = slash :: t.
Proof. destruct segs; [by exists []|]. cbn. eauto. Qed.

Lemma starts_with_slash t : starts_with [slash] (slash :: t) = true.
Proof. unfold starts_with. apply bool_decide_eq_true_2. cbn. eauto. Qed.

Section parse_theorems.
Context `{PercentEncoding}.

Lemma decode_route_static_encode s :
  seg_ok (Static s) -> decode_route_static_segment (encode_path_segment s) = Ok s.
Proof.
  intros (_ & Hu & Hc). unfold decode_route_static_segment.
  by rewrite valid_triplets_encode, percent_decode_encode, Hu, Hc.
Qed.

(** The parser on rendered segments runs the validator on the segments. *)
Lemma parse_loop_render count idx segs seen names acc :
  Forall seg_ok segs ->
  parse_loop count idx (map raw_segment segs) seen names acc =
  let? names' := validate_loop (count - 1) idx segs seen names in Ok (acc ++ segs, names').
Proof.
  intros Hs. revert idx seen names acc.
  induction Hs as [|seg segs Hseg _ IH]; intros idx seen names acc; [by rewrite app_nil_r|].
  cbn [map parse_loop]. destruct seg as [s|n|n].
  - cbn [raw_segment render_segment tail validate_loop].
    destruct (encode_path_segment s) as [|c t] eqn:E.
    { apply (proj1 (encode_nil_iff s)) in E. destruct Hseg; congruence. }
    destruct (encode_head _ _ _ E) as [H1 H2]. cbn [strip_prefix].
    rewrite !bool_decide_eq_false_2 by congruence.
    rewrite <- E, decode_route_static_encode by done. rewrite IH.
    by rewrite <- app_assoc.
  - cbn [raw_segment render_segment tail validate_loop strip_prefix].
    rewrite bool_decide_eq_true_2 by done.
    destruct (validate_parameter_name n seen names) as [[seen' names']|e]; [|done].
    rewrite IH. by rewrite <- app_assoc.
  - cbn [raw_segment render_segment tail validate_loop strip_prefix].
    rewrite bool_decide_eq_false_2, bool_decide_eq_true_2 by done.
    case_bool_decide; [done|].
    destruct (validate_parameter_name n seen names) as [[seen' names']|e]; [|done].
    rewrite IH. by rewrite <- app_assoc.
Qed.

(** Parsing any path whose non-empty segments are rendered segments is
    validating those segments. *)
Lemma parse_of_raws path segs :
  Forall seg_ok segs -> starts_with [slash] path = true ->
  path_segments path = map raw_segment segs ->
  parse path = validate_segments segs.
Proof.
  intros Hs Hp Hraw. unfold parse, validate_segments.
  rewrite Hp, Hraw, length_map. cbn [negb].
  destruct (_ <? _)%nat; [done|]. rewrite parse_loop_render by done.
  by destruct (validate_loop _ _ _ _ _).
Qed.

Lemma parse_render_pattern segs :
  Forall seg_ok segs -> parse (render_pattern segs) = validate_segments segs.
Proof.
  intros Hs. apply parse_of_raws; [done| |by apply path_segments_render].
  destruct (render_pattern_slash segs) as [t ->]. apply starts_with_slash.
Qed.
End parse_theorems.

Lemma hexdigit_value b : is_ascii_hexdigit b = true -> is_Some (hex_value b).
Proof. destruct b; vm_compute; (discriminate || eauto). Qed.

Section parse_ok.
Context `{PercentEncoding}.

Lemma percent_decode_ne raw : valid_triplets raw = true -> raw <> [] -> percent_decode raw <> [].
Proof.
  destruct raw as [|c s]; [done|]. cbn [valid_triplets]. case_bool_decide as Hc.
  - subst c. destruct s as [|h [|l s]]; [done|done|]. intros Hh _; bsplit.
    destruct (hexdigit_value h) as [hv Hhv]; [done|].
    destruct (hexdigit_value l) as [lv Hlv]; [done|].
    by erewrite percent_decode_triplet.
  - intros _ _. by rewrite percent_decode_plain.
Qed.

Lemma decode_route_static_Ok raw s :
  raw <> [] -> decode_route_static_segment raw = Ok s -> seg_ok (Static s).
Proof.
  unfold decode_route_static_segment. intros Hne.
  destruct (valid_triplets raw) eqn:Ht; [|done].
  destruct (utf8_valid _) eqn:Hu; [|done]. destruct (has_control _) eqn:Hc; [done|].
  intros [= <-]. by split; [apply percent_decode_ne|].
Qed.

Lemma parse_loop_Ok count idx raws seen names acc segs' names' :
  Forall (fun r => r <> []) raws ->
  parse_loop count idx raws seen names acc = Ok (segs', names') ->
  exists segs, segs' = acc ++ segs /\ length segs = length raws /\ Forall seg_ok segs
    /\ validate_loop (count - 1) idx segs seen names = Ok names'.
Proof.
  intros Hr. revert idx seen names acc.
  induction Hr as [|raw raws Hraw _ IH]; intros idx seen names acc; cbn [parse_loop].
  { intros [= <- <-]. exists []. by rewrite app_nil_r. }
  assert (Hstep : forall seg idx seen names, seg_ok seg ->
    parse_loop count idx raws seen names (acc ++ [seg]) = Ok (segs', names') ->
    exists segs, segs' = acc ++ seg :: segs /\ length segs = length raws
      /\ Forall seg_ok (seg :: segs) /\ validate_loop (count - 1) idx segs seen names = Ok names').
  { intros seg i sn nm Hseg Hp. apply IH in Hp as (segs & -> & Hl & Hok & Hv).
    exists segs. rewrite <- app_assoc. by split_and!; [|done|constructor|]. }
  destruct (strip_prefix [_] raw) as [name|].
  - destruct (validate_parameter_name _ _ _) as [[seen1 names1]|] eqn:Hv; [|done].
    pose proof (proj1 (proj1 (validate_parameter_name_Ok _ _ _ _) Hv)) as Hok.
    intros (segs & -> & Hl & Hf & Hvl)%Hstep; [|done].
    exists (Param name :: segs). cbn [length validate_loop]. by rewrite Hl, Hv.
  - destruct (strip_prefix [_] raw) as [name|].
    + case_bool_decide as Hidx; [done|].
      destruct (validate_parameter_name _ _ _) as [[seen1 names1]|] eqn:Hv; [|done].
      pose proof (proj1 (proj1 (validate_parameter_name_Ok _ _ _ _) Hv)) as Hok.
      intros (segs & -> & Hl & Hf & Hvl)%Hstep; [|done].
      exists (Wildcard name :: segs). cbn [length validate_loop].
      by rewrite bool_decide_eq_false_2, Hl, Hv by (intros ?; done).
    + destruct (decode_route_static_segment raw) as [s|] eqn:Hs; [|done].
      intros (segs & -> & Hl & Hf & Hvl)%Hstep; [|by eapply decode_route_static_Ok].
      exists (Static s :: segs). cbn [length validate_loop]. by rewrite Hl.
Qed.

Lemma path_segments_ne path : Forall (fun r => r <> []) (path_segments path).
Proof.
  unfold path_segments. apply Forall_forall. intros r Hr.
  apply list_elem_of_In, List.filter_In in Hr as [_ Hr]. by destruct r.
Qed.

Lemma parse_Ok_wf path p : parse path = Ok p -> wf_pattern p.
Proof.
  unfold parse. destruct (negb _); [done|].
  destruct (_ <? _)%nat eqn:Hlen; [done|].
  destruct (parse_loop _ _ _ _ _ _) as [[segs names]|] eqn:Hp; [|done].
  intros [= <-]. apply parse_loop_Ok in Hp as (segs' & -> & Hl & Hok & Hv); [|apply path_segments_ne].
  cbn [app]. apply (validate_segments_Ok segs'); [done|]. unfold validate_segments.
  rewrite Hl, Hlen, Hv. done.
Qed.

Lemma wf_parse p : wf_pattern p -> parse (rendered p) = Ok p.
Proof.
  intros Hwf. rewrite (wf_rendered _ Hwf), parse_render_pattern by apply Hwf.
  apply validate_segments_Ok; [apply Hwf|]. done.
Qed.

Lemma rendered_inj p q : wf_pattern p -> wf_pattern q -> rendered p = rendered q -> p = q.
Proof. intros Hp%wf_parse Hq%wf_parse E. rewrite E in Hp. congruence. Qed.

Lemma pattern_join_Ok p q r :
  wf_pattern p -> wf_pattern q -> pattern_join p q = Ok r ->
  wf_pattern r /\ segments r = segments p ++ segments q.
Proof.
  intros Hp Hq. unfold pattern_join. rewrite validate_segments_Ok; [done|].
  apply Forall_app; split; [apply Hp|apply Hq].
Qed.
End parse_ok.

(** ** Properties *)

Section pattern_properties.
Context `{PercentEncoding}.

(** Everything [RoutePattern::parse] accepts is well-formed (bounded
    length, non-empty valid segments, wildcard last, distinct names, derived
    fields in agreement), its rendering parses back to the same pattern, and
    patterns with equal renderings are equal: [rendered] is a faithful key. *)
Theorem parse_rendered_roundtrip path p :
  parse path = Ok p ->
  wf_pattern p /\ parse (rendered p) = Ok p
  /\ forall path' q, parse path' = Ok q -> rendered q = rendered p -> q = p.
Proof.
  intros Hp%parse_Ok_wf. split_and!; [done|by apply wf_parse|].
  intros path' q Hq%parse_Ok_wf E. by apply rendered_inj.
Qed.

(** Mounting is textual: joining two validated patterns gives exactly
    what parsing the concatenation of their renderings gives, errors
    (too many segments, repeated names, inner wildcards) included. *)
Theorem join_is_parse_of_concatenation p q :
  wf_pattern p -> wf_pattern q ->
  pattern_join p q = parse (rendered p ++ rendered q).
Proof.
  intros Hp Hq. unfold pattern_join. symmetry. apply parse_of_raws.
  - apply Forall_app; split; [apply Hp|apply Hq].
  - rewrite (wf_rendered _ Hp). destruct (render_pattern_slash (segments p)) as [t ->].
    apply starts_with_slash.
  - pose proof (path_segments_render _ (wf_segs _ Hp)) as Ep.
    pose proof (path_segments_render _ (wf_segs _ Hq)) as Eq.
    rewrite (wf_rendered _ Hp), (wf_rendered _ Hq), List.map_app, <- Ep, <- Eq.
    destruct (render_pattern_slash (segments q)) as [t Et]. rewrite Et.
    rewrite path_segments_slash. f_equal.
Qed.
End pattern_properties.

(** [match_decoded_pattern] captures exactly what the pattern says: the
    match succeeds iff the pattern has the shape of the path; the captured map
    has exactly the declared names as keys; a parameter is bound to the segment
    at its position and a wildcard to the remaining segments joined by [/]. *)
Theorem match_captures_exactly p segs :
  wf_pattern p ->
  (is_Some (match_decoded_pattern (segments p) segs) <-> pattern_matches (segments p) segs = true)
  /\ forall params, match_decoded_pattern (segments p) segs = Some params ->
     dom params = list_to_set (parameter_names p)
     /\ forall i seg n, segments p !! i = Some seg -> seg_name seg = Some n ->
        params !! n = captured (segments p) segs i.
Proof.
  intros Hwf. split; [apply match_decoded_pattern_is_Some|]. intros params Hm.
  assert (Hcap : forall i seg n, segments p !! i = Some seg -> seg_name seg = Some n ->
    params !! n = captured (segments p) segs i /\ is_Some (captured (segments p) segs i)).
  { intros i seg n. apply (match_loop_captures _ _ _ _ _ _ _ (wf_nodup _ Hwf) Hm). }
  split; [|intros i seg n Hi Hn; apply (Hcap _ _ _ Hi Hn)].
  apply set_eq. intros n. rewrite elem_of_dom, elem_of_list_to_set, (wf_names _ Hwf).
  destruct (decide (n ∈ seg_names (segments p))) as [Hin|Hout].
  - split; [done|]. intros _. apply seg_names_elem in Hin as (i & seg & Hi & Hn).
    destruct (Hcap _ _ _ Hi Hn) as [-> ?]. done.
  - split; [|done]. rewrite (match_loop_other _ _ _ _ _ Hm Hout), lookup_empty. by intros [].
Qed.

(** ** Witnesses *)

Definition demo_path : str := §"/files/:id/*rest".

Lemma parse_rendered_roundtrip_witness :
  exists p, parse (H := reference_percent_encoding) demo_path = Ok p
            /\ wf_pattern p /\ rendered p = demo_path.
Proof.
  destruct (parse (H := reference_percent_encoding) demo_path) as [p|e] eqn:E; [|by vm_compute in E].
  exists p. split; [done|].
  destruct (@parse_rendered_roundtrip reference_percent_encoding demo_path p E) as (Hw & _).
  split; [exact Hw|]. vm_compute in E. injection E as <-. vm_compute. reflexivity.
Defined.

Lemma join_is_parse_of_concatenation_witness :
  exists p, parse (H := reference_percent_encoding) demo_path = Ok p
    /\ pattern_join p p = parse (H := reference_percent_encoding) (demo_path ++ demo_path)
    /\ pattern_join p p = Err non_terminal_wildcard.
Proof.
  destruct (parse (H := reference_percent_encoding) demo_path) as [p|e] eqn:E; [|by vm_compute in E].
  exists p. split; [done|].
  pose proof (@parse_Ok_wf reference_percent_encoding _ _ E) as Hw.
  pose proof (@join_is_parse_of_concatenation reference_percent_encoding p p Hw Hw) as Hj.
  vm_compute in E. injection E as <-. split; [exact Hj|vm_compute; reflexivity].
Defined.

Lemma match_captures_exactly_witness :
  exists p params, parse (H := reference_percent_encoding) demo_path = Ok p
    /\ match_decoded_pattern (segments p) [§"files"; §"7"; §"a"; §"b"] = Some params
    /\ params !! §"rest" = Some §"a/b".
Proof.
  destruct (parse (H := reference_percent_encoding) demo_path) as [p|e] eqn:E; [|by vm_compute in E].
  pose proof (@parse_Ok_wf reference_percent_encoding _ _ E) as Hw.
  vm_compute in E. injection E as <-. eexists _, _. split; [reflexivity|]. split; [reflexivity|].
  rewrite (proj2 (proj2 (match_captures_exactly _ [§"files"; §"7"; §"a"; §"b"] Hw) _ eq_refl)
             2 _ §"rest" eq_refl eq_refl).
  vm_compute. reflexivity.
Defined.
