(* ===== verification/Host.v ===== *)
(** * Host constraints of routes ([src/app/router.rs])

    [HostPattern::parse], [normalize_host], [strip_valid_port], request
    matching, and [hosts_overlap], the test route registration uses to decide
    whether two equally shaped routes could answer the same request. *)
From S2P Require Import Prelude Strs Percent Pattern.

Abbreviation dot := Byte.x2e.
Abbreviation colon := Byte.x3a.

Inductive HostPattern :=
| Exact (host : str)
| WildcardSubdomain (suffix : str).

#[export] Instance HostPattern_eq_dec : EqDecision HostPattern.
Proof. solve_decision. Defined.

(** [host.matches(':').count()]. *)
Definition count_byte (c : byte) (s : str) : nat :=
  length (List.filter (fun b => bool_decide (b = c)) s).

Definition is_port (port : str) : bool := nonempty port && forallb is_ascii_digit port.

Definition strip_valid_port (host : str) : option str :=
  if starts_with [Byte.x5b] host then
    match split_once Byte.x5d host with
    | None => None
    | Some (inside, after) =>
        if bool_decide (after = []) then Some host
        else match strip_prefix [colon] after with
             | None => None
             | Some port => if is_port port then Some (inside ++ [Byte.x5d]) else None
             end
    end
  else
    match rsplit_once colon host with
    | Some (name, port) =>
        if is_port port then Some name
        else if (count_byte colon host =? 1)%nat then None else Some host
    | None => Some host
    end.

Definition normalize_host (raw : str) : option str :=
  let trimmed := trim raw in
  if bool_decide (trimmed = []) || contains Byte.x40 trimmed || contains slash trimmed
     || contains Byte.x5c trimmed || (has_control trimmed || has_whitespace trimmed)
  then None
  else match strip_valid_port trimmed with
       | None => None
       | Some without_port =>
           if bool_decide (without_port = []) then None
           else Some (to_ascii_lowercase without_port)
       end.

(** [HostPattern::parse]. *)
Definition host_pattern_parse (pattern : str) : result HostPattern RouteError :=
  match normalize_host pattern with
  | None => Err (RouteError_new InvalidHostPattern §"El patron de host no es valido")
  | Some host =>
      match strip_prefix §"*." host with
      | Some suffix =>
          if bool_decide (suffix = []) || contains Byte.x2a suffix then
            Err (RouteError_new InvalidHostPattern §"El comodin de host debe tener un sufijo valido")
          else Ok (WildcardSubdomain suffix)
      | None =>
          if contains Byte.x2a host then
            Err (RouteError_new InvalidHostPattern
                   §"El comodin de host solo puede aparecer como prefijo *.")
          else Ok (Exact host)
      end
  end.

Definition matches_normalized (p : HostPattern) (host : str) : bool :=
  match p with
  | Exact expected => bool_decide (expected = host)
  | WildcardSubdomain suffix =>
      (length suffix + 1 <? length host)%nat && ends_with suffix host
      && bool_decide (host !! (length host - length suffix - 1)%nat = Some dot)
  end.

Definition matches_request (p : HostPattern) (host : option str) : bool :=
  match host with
  | None => false
  | Some raw =>
      match normalize_host raw with
      | None => false
      | Some host => matches_normalized p host
      end
  end.

Definition host_matches (pattern : option HostPattern) (host : option str) : bool :=
  match pattern with
  | Some pattern => matches_request pattern host
  | None => true
  end.

Definition suffix_overlaps (more_specific broader : str) : bool :=
  (length broader <? length more_specific)%nat && ends_with broader more_specific
  && bool_decide (more_specific !! (length more_specific - length broader - 1)%nat = Some dot).

Definition hosts_overlap (left right : option HostPattern) : bool :=
  match left, right with
  | None, _ | _, None => true
  | Some (Exact l), Some (Exact r) => bool_decide (l = r)
  | Some (Exact host), Some pattern | Some pattern, Some (Exact host) =>
      matches_normalized pattern host
  | Some (WildcardSubdomain l), Some (WildcardSubdomain r) =>
      bool_decide (l = r) || suffix_overlaps l r || suffix_overlaps r l
  end.

(** ** Lemmas *)

(** The common shape of the two suffix tests: the part before the suffix is
    [p] followed by a dot. *)
Lemma dotted_suffix suffix s :
  ends_with suffix s = true -> length suffix < length s ->
  s !! (length s - length suffix - 1)%nat = Some dot <-> exists p, s = p ++ dot :: suffix.
Proof.
  intros [q ->]%ends_with_iff Hl. rewrite length_app in *.
  destruct q as [|c p _] using rev_ind; [simpl in Hl; lia|].
  rewrite length_app in *. cbn [length] in *.
  replace (length p + 1 + length suffix - length suffix - 1)%nat with (length p) by lia.
  rewrite <- app_assoc. cbn [app]. rewrite list_lookup_middle by done. split.
  - intros [= ->]. by exists p.
  - intros [p' E]. assert (length p = length p') as Hlen.
    { apply (f_equal length) in E. rewrite !length_app in E. simpl in E. lia. }
    apply app_inj_1 in E as [_ E]; [|done]. congruence.
Qed.

Lemma matches_wildcard_iff suffix host :
  matches_normalized (WildcardSubdomain suffix) host = true
  <-> exists p, p <> [] /\ host = p ++ dot :: suffix.
Proof.
  unfold matches_normalized. split.
  - intros ?; bsplit. destruct (proj1 (dotted_suffix suffix host ltac:(done) ltac:(lia))) as [p ->]; [done|].
    exists p. split; [|done]. intros ->. simpl in *. lia.
  - intros (p & Hp & ->). destruct p as [|c p]; [done|].
    assert (ends_with suffix ((c :: p) ++ dot :: suffix) = true) as He.
    { apply ends_with_iff. exists ((c :: p) ++ [dot]). by rewrite <- app_assoc. }
    bgoal; [rewrite length_app; simpl; lia|done|].
    apply dotted_suffix; [done|rewrite length_app; simpl; lia|by eexists].
Qed.

Lemma suffix_overlaps_iff more broader :
  suffix_overlaps more broader = true <-> exists p, more = p ++ dot :: broader.
Proof.
  unfold suffix_overlaps. split.
  - intros ?; bsplit. by apply dotted_suffix.
  - intros (p & ->).
    assert (ends_with broader (p ++ dot :: broader) = true) as He.
    { apply ends_with_iff. exists (p ++ [dot]). by rewrite <- app_assoc. }
    bgoal; [rewrite length_app; simpl; lia|done|].
    apply dotted_suffix; [done|rewrite length_app; simpl; lia|by eexists].
Qed.

(** Matching of an optional constraint against a normalized host. *)
Definition admits (p : option HostPattern) (host : str) : Prop :=
  match p with None => True | Some p => matches_normalized p host = true end.

Lemma wildcards_share_host s t :
  (s = t \/ suffix_overlaps s t = true \/ suffix_overlaps t s = true)
  <-> exists host, admits (Some (WildcardSubdomain s)) host /\ admits (Some (WildcardSubdomain t)) host.
Proof.
  unfold admits. setoid_rewrite matches_wildcard_iff. rewrite !suffix_overlaps_iff. split.
  - intros [->|[[p ->]|[p ->]]].
    + by exists (Byte.x78 :: dot :: t); split; exists [Byte.x78].
    + exists (Byte.x78 :: dot :: p ++ dot :: t). split; [by exists [Byte.x78]|].
      by exists (Byte.x78 :: dot :: p).
    + exists (Byte.x78 :: dot :: p ++ dot :: s). split; [|by exists [Byte.x78]].
      by exists (Byte.x78 :: dot :: p).
  - intros (host & (p & _ & ->) & (q & _ & E)).
    apply List.app_eq_app in E as (k & [[-> E]|[-> E]]); destruct k as [|c k]; simplify_eq/=; eauto 6.
Qed.

Lemma hosts_overlap_admits left right :
  hosts_overlap left right = true <-> exists host, admits left host /\ admits right host.
Proof.
  destruct left as [[l|l]|], right as [[r|r]|]; cbn [hosts_overlap].
  - rewrite bool_decide_eq_true. unfold admits. cbn. setoid_rewrite bool_decide_eq_true. naive_solver.
  - unfold admits. cbn [matches_normalized]. setoid_rewrite bool_decide_eq_true. naive_solver.
  - split; [|done]. intros _. exists l. split; [|done]. cbn. by apply bool_decide_eq_true.
  - unfold admits at 2. cbn [matches_normalized]. setoid_rewrite bool_decide_eq_true.
    unfold admits. naive_solver.
  - rewrite <- wildcards_share_host, !orb_true_iff, bool_decide_eq_true. naive_solver.
  - split; [|done]. intros _. exists (Byte.x78 :: dot :: l). split; [|done].
    apply matches_wildcard_iff. by exists [Byte.x78].
  - split; [|done]. intros _. exists r. split; [done|]. cbn. by apply bool_decide_eq_true.
  - split; [|done]. intros _. exists (Byte.x78 :: dot :: r). split; [done|].
    apply matches_wildcard_iff. by exists [Byte.x78].
  - split; [|done]. intros _. by exists [].
Qed.

Lemma host_matches_admits p raw :
  host_matches (Some p) raw = true <->
  exists host, (raw ≫= normalize_host) = Some host /\ admits (Some p) host.
Proof.
  cbn. unfold matches_request. destruct raw as [raw|]; cbn; [|naive_solver].
  destruct (normalize_host raw); naive_solver.
Qed.

Lemma hosts_overlap_request left right raw :
  host_matches left raw = true -> host_matches right raw = true ->
  hosts_overlap left right = true.
Proof.
  destruct left as [l|]; [|done]. destruct right as [r|]; [|by destruct l].
  rewrite !host_matches_admits. intros (h & Hh & Hl) (h' & Hh' & Hr).
  apply hosts_overlap_admits. exists h. split; [done|]. congruence.
Qed.

Lemma hosts_overlap_sym left right : hosts_overlap left right = hosts_overlap right left.
Proof.
  apply eq_bool_prop_intro. rewrite !Is_true_true, !hosts_overlap_admits. naive_solver.
Qed.

(** ** Properties *)

(** The conflict test between two host constraints is exact:
    [hosts_overlap] holds iff some host name is admitted by both, so that two
    routes it separates never answer the same request, whatever the raw [Host]
    header, and two routes it does not separate do compete for some host. *)
Theorem hosts_overlap_exact left right :
  (hosts_overlap left right = true <-> exists host, admits left host /\ admits right host)
  /\ (hosts_overlap left right = false ->
      forall raw, ~ (host_matches left raw = true /\ host_matches right raw = true)).
Proof.
  split; [apply hosts_overlap_admits|]. intros Hno raw [Hl Hr].
  by rewrite (hosts_overlap_request _ _ _ Hl Hr) in Hno.
Qed.

Lemma hosts_overlap_exact_witness :
  ~ (host_matches (Some (WildcardSubdomain §"a.com")) (Some §"a.com:80") = true
     /\ host_matches (Some (Exact §"a.com")) (Some §"a.com:80") = true).
Proof.
  apply (proj2 (hosts_overlap_exact (Some (WildcardSubdomain §"a.com")) (Some (Exact §"a.com")))).
  vm_compute. reflexivity.
Defined.
