(* ===== verification/Trie.v ===== *)
(** * The segment-trie route index ([src/app/trie.rs])

    [RouteIndex::build], [find_candidates] and [matching_methods] with their
    explicit work stacks. The theorems: the stack loops terminate and compute
    the recursive depth-first search, the index holds exactly the registered
    routes that match, and candidates come out in routing precedence. *)
From S2P Require Import Prelude Strs Percent Pattern.

Definition METHOD_ALL : str := §"*".

(** ** Data *)

Inductive Node := mkNode {
  statics : gmap str Node;
  param : option Node;
  (** Routes whose pattern ends exactly here: (method, registration index). *)
  terminals : list (str * nat);
  (** Trailing-wildcard routes anchored here. *)
  wildcards : list (str * nat)
}.

Definition Node_default : Node := mkNode ∅ None [] [].

Record RouteIndex := mkRouteIndex { root : Node }.

(** ** Building *)

(** One iteration of the [routes] loop: walk the pattern from [node], creating
    the missing children, and record the route where the pattern ends. A
    wildcard before the end is skipped, keeping the nodes created so far. *)
Fixpoint insert_pattern (method : str) (index : nat) (pattern : list Segment) (node : Node) : Node :=
  match pattern with
  | [] => mkNode (statics node) (param node) (terminals node ++ [(method, index)]) (wildcards node)
  | Static s :: rest =>
      let child := default Node_default (statics node !! s) in
      mkNode (<[s := insert_pattern method index rest child]> (statics node))
        (param node) (terminals node) (wildcards node)
  | Param _ :: rest =>
      let child := default Node_default (param node) in
      mkNode (statics node) (Some (insert_pattern method index rest child))
        (terminals node) (wildcards node)
  | Wildcard _ :: rest =>
      if bool_decide (rest = []) then
        mkNode (statics node) (param node) (terminals node) (wildcards node ++ [(method, index)])
      else node
  end.

Fixpoint build_from (index : nat) (patterns : list (str * list Segment)) (node : Node) : Node :=
  match patterns with
  | [] => node
  | (method, pattern) :: patterns =>
      build_from (S index) patterns (insert_pattern method index pattern node)
  end.

(** [RouteIndex::build]. *)
Definition build (patterns : list (str * list Segment)) : RouteIndex :=
  mkRouteIndex (build_from 0 patterns Node_default).

(** ** Lookup *)

(** The indices of the entries registered for [method]. *)
Definition entries_for (method : str) (entries : list (str * nat)) : list nat :=
  map snd (List.filter (fun e => bool_decide (e.1 = method)) entries).

Definition push_matching (entries : list (str * nat)) (method : str) (found : list nat) : list nat :=
  let found := found ++ entries_for method entries in
  let found :=
    if bool_decide (method = §"HEAD") then found ++ entries_for §"GET" entries else found in
  found ++ entries_for METHOD_ALL entries.

Inductive Work :=
| Visit (node : Node) (index : nat)
| Wildcards (node : Node).

(** The [while let Some(next) = work.pop()] loop of [collect_candidates]; the
    head of [work] is the top of the stack. [None]: out of fuel. *)
Fixpoint collect_candidates_loop (fuel : nat) (method : str) (segs : list str)
    (work : list Work) (found : list nat) : option (list nat) :=
  match work with
  | [] => Some found
  | next :: work =>
      match fuel with
      | O => None
      | S fuel =>
          match next with
          | Wildcards node =>
              collect_candidates_loop fuel method segs work
                (push_matching (wildcards node) method found)
          | Visit node index =>
              match segs !! index with
              | None =>
                  let found := push_matching (terminals node) method found in
                  collect_candidates_loop fuel method segs work
                    (push_matching (wildcards node) method found)
              | Some segment =>
                  let work := Wildcards node :: work in
                  let work := match param node with
                              | Some child => Visit child (S index) :: work
                              | None => work end in
                  let work := match statics node !! segment with
                              | Some child => Visit child (S index) :: work
                              | None => work end in
                  collect_candidates_loop fuel method segs work found
              end
          end
      end
  end.

(** The number of iterations a [Visit] causes: the nodes explored below it. *)
Fixpoint visit_cost (segs : list str) (node : Node) : nat :=
  match segs with
  | [] => 1
  | s :: segs =>
      2 + match statics node !! s with Some c => visit_cost segs c | None => 0 end
        + match param node with Some c => visit_cost segs c | None => 0 end
  end.

(** [find_candidates] with [collect_candidates]; the fuel is the number of
    iterations ([collect_candidates_terminates]). *)
Definition find_candidates (idx : RouteIndex) (method : str) (segs : list str) : list nat :=
  default []
    (collect_candidates_loop (visit_cost segs (root idx)) method segs [Visit (root idx) 0] []).

(** The loop of [collect_methods]. *)
Fixpoint collect_methods_loop (fuel : nat) (segs : list str)
    (work : list (Node * nat)) (found : list (nat * str)) : option (list (nat * str)) :=
  match work with
  | [] => Some found
  | (node, segment_index) :: work =>
      match fuel with
      | O => None
      | S fuel =>
          let found := found ++ map (fun e => (e.2, e.1)) (wildcards node) in
          match segs !! segment_index with
          | None =>
              collect_methods_loop fuel segs work
                (found ++ map (fun e => (e.2, e.1)) (terminals node))
          | Some segment =>
              let work := match param node with
                          | Some child => (child, S segment_index) :: work
                          | None => work end in
              let work := match statics node !! segment with
                          | Some child => (child, S segment_index) :: work
                          | None => work end in
              collect_methods_loop fuel segs work found
          end
      end
  end.

(** The number of nodes [collect_methods] explores below a node. *)
Fixpoint method_cost (segs : list str) (node : Node) : nat :=
  match segs with
  | [] => 1
  | s :: segs =>
      1 + match statics node !! s with Some c => method_cost segs c | None => 0 end
        + match param node with Some c => method_cost segs c | None => 0 end
  end.

(** [sort_by_key(|(index, _)| *index)]: a stable merge sort on the index. *)
Definition index_le (x y : nat * str) : Prop := x.1 <= y.1.
#[export] Instance index_le_dec : RelDecision index_le.
Proof. intros x y. unfold index_le. apply _. Defined.

Definition matching_methods (idx : RouteIndex) (segs : list str) : list (nat * str) :=
  merge_sort index_le
    (default [] (collect_methods_loop (method_cost segs (root idx)) segs [(root idx, 0)] [])).

(** ** Reference: recursive depth-first search

    [matching_entries] lists the (key, method, index) of every entry below
    [node] that matches [segs], in visiting order. The key of an entry spells
    the branches taken: 0 static, 1 parameter, 2 wildcard. *)

Definition tag (key : list nat) (entries : list (str * nat)) : list (list nat * str * nat) :=
  map (fun e => (key, e.1, e.2)) entries.
Definition push_key (k : nat) (l : list (list nat * str * nat)) : list (list nat * str * nat) :=
  map (fun e => (k :: e.1.1, e.1.2, e.2)) l.

Fixpoint matching_entries (segs : list str) (node : Node) : list (list nat * str * nat) :=
  match segs with
  | [] => tag [] (terminals node) ++ tag [2] (wildcards node)
  | s :: segs =>
      match statics node !! s with Some c => push_key 0 (matching_entries segs c) | None => [] end
      ++ match param node with Some c => push_key 1 (matching_entries segs c) | None => [] end
      ++ tag [2] (wildcards node)
  end.

(** The candidates of [method] in visiting order, as (key, class, index): class
    0 entries were pushed for their own method, 1 as a [GET] answering [HEAD],
    2 as an [all()] route. *)
Definition pick (key : list nat) (method : str) (entries : list (str * nat))
  : list (list nat * nat * nat) :=
  map (fun i => (key, 0, i)) (entries_for method entries)
  ++ (if bool_decide (method = §"HEAD")
      then map (fun i => (key, 1, i)) (entries_for §"GET" entries) else [])
  ++ map (fun i => (key, 2, i)) (entries_for METHOD_ALL entries).

Definition push_ckey (k : nat) (l : list (list nat * nat * nat)) : list (list nat * nat * nat) :=
  map (fun e => (k :: e.1.1, e.1.2, e.2)) l.

Fixpoint search (method : str) (segs : list str) (node : Node) : list (list nat * nat * nat) :=
  match segs with
  | [] => pick [] method (terminals node) ++ pick [2] method (wildcards node)
  | s :: segs =>
      match statics node !! s with Some c => push_ckey 0 (search method segs c) | None => [] end
      ++ match param node with Some c => push_ckey 1 (search method segs c) | None => [] end
      ++ pick [2] method (wildcards node)
  end.

(** ** The stack loops compute the search *)

Lemma push_matching_pick key entries method found :
  push_matching entries method found = found ++ map snd (pick key method entries).
Proof.
  unfold push_matching, pick. rewrite !List.map_app, !List.map_map. cbn [snd].
  rewrite !List.map_id. case_bool_decide; rewrite ?List.map_map; cbn [snd map];
    by rewrite ?List.map_id, <- ?app_assoc.
Qed.

Lemma push_ckey_snd k l : map snd (push_ckey k l) = map snd l.
Proof. unfold push_ckey. rewrite List.map_map. by apply List.map_ext. Qed.

Lemma drop_cons_inv {A} (l : list A) i x r :
  drop i l = x :: r -> l !! i = Some x /\ drop (S i) l = r.
Proof.
  intros E. assert (Hi : l !! i = Some x).
  { replace i with (i + 0)%nat by lia. rewrite <- lookup_drop, E. done. }
  split; [done|]. apply drop_S in Hi. rewrite E in Hi. congruence.
Qed.

Lemma drop_nil_inv {A} (l : list A) i : drop i l = [] -> l !! i = None.
Proof.
  intros E. replace i with (i + 0)%nat by lia. by rewrite <- lookup_drop, E.
Qed.

(** The children a [Visit] pushes for the segment [s], top of the stack first. *)
Definition children (node : Node) (s : str) : list Node :=
  option_list (statics node !! s) ++ option_list (param node).

Lemma collect_candidates_step fuel method segs node index s work found :
  segs !! index = Some s ->
  collect_candidates_loop (S fuel) method segs (Visit node index :: work) found
  = collect_candidates_loop fuel method segs
      (map (fun c => Visit c (S index)) (children node s) ++ Wildcards node :: work) found.
Proof.
  intros E. cbn. rewrite E. unfold children.
  by destruct (statics node !! s), (param node).
Qed.

Lemma visit_cost_cons s rest node :
  visit_cost (s :: rest) node = S (sum_list (map (visit_cost rest) (children node s)) + 1).
Proof.
  cbn. unfold children. destruct (statics node !! s), (param node); cbn; lia.
Qed.

Lemma search_cons method s rest node :
  map snd (search method (s :: rest) node)
  = concat (map (fun c => map snd (search method rest c)) (children node s))
    ++ map snd (pick [2] method (wildcards node)).
Proof.
  cbn [search]. unfold children. rewrite !List.map_app.
  destruct (statics node !! s), (param node); cbn;
    rewrite ?push_ckey_snd, ?app_nil_r; by rewrite <- ?app_assoc.
Qed.

Lemma collect_candidates_visit method segs rest :
  forall node index work found fuel,
    drop index segs = rest ->
    collect_candidates_loop (visit_cost rest node + fuel) method segs (Visit node index :: work) found
    = collect_candidates_loop fuel method segs work (found ++ map snd (search method rest node)).
Proof.
  induction rest as [|s rest IH]; intros node index work found fuel E.
  - apply drop_nil_inv in E. cbn [visit_cost Nat.add collect_candidates_loop search].
    rewrite E, List.map_app, app_assoc. by rewrite <- !push_matching_pick.
  - apply drop_cons_inv in E as [Hi Hd]. rewrite visit_cost_cons, search_cons.
    cbn [Nat.add]. rewrite (collect_candidates_step _ _ _ _ _ _ _ _ Hi).
    rewrite <- Nat.add_assoc. cbn [Nat.add]. revert found.
    induction (children node s) as [|c cs IHcs]; intros found.
    + cbn. by rewrite (push_matching_pick [2]).
    + cbn [map sum_list_with id app concat]. rewrite <- Nat.add_assoc.
      rewrite IH by done. rewrite IHcs. by rewrite <- !app_assoc.
Qed.

Lemma collect_candidates_terminates method segs node :
  collect_candidates_loop (visit_cost segs node) method segs [Visit node 0] []
  = Some (map snd (search method segs node)).
Proof.
  rewrite <- (Nat.add_0_r (visit_cost segs node)).
  by rewrite (collect_candidates_visit method segs segs).
Qed.

Lemma find_candidates_search idx method segs :
  find_candidates idx method segs = map snd (search method segs (root idx)).
Proof. unfold find_candidates. by rewrite collect_candidates_terminates. Qed.

(** ** What the index holds *)

(** The branch taken for each segment of a pattern; comparing keys
    lexicographically, shorter first, is routing precedence. *)
Definition seg_rank (segment : Segment) : nat :=
  match segment with Static _ => 0 | Param _ => 1 | Wildcard _ => 2 end.
Definition route_key (pattern : list Segment) : list nat := map seg_rank pattern.

Lemma matching_entries_default segs : matching_entries segs Node_default = [].
Proof. by destruct segs. Qed.

Lemma push_key_app k l1 l2 : push_key k (l1 ++ l2) = push_key k l1 ++ push_key k l2.
Proof. apply List.map_app. Qed.

#[export] Instance push_key_Permutation k : Proper ((≡ₚ) ==> (≡ₚ)) (push_key k).
Proof. intros l1 l2. apply Permutation_map. Qed.

Lemma matching_entries_child segs o :
  match o with Some c => matching_entries segs c | None => [] end
  = matching_entries segs (default Node_default o).
Proof. destruct o; [done|]. by rewrite matching_entries_default. Qed.

Lemma push_child k segs (o : option Node) :
  match o with Some c => push_key k (matching_entries segs c) | None => [] end
  = push_key k (matching_entries segs (default Node_default o)).
Proof. destruct o; [done|]. by rewrite matching_entries_default. Qed.

(** Inserting a route adds exactly one entry to the paths it matches. *)
Lemma matching_entries_insert method index pattern :
  forall segs node,
    matching_entries segs (insert_pattern method index pattern node)
    ≡ₚ (if pattern_matches pattern segs then [(route_key pattern, method, index)] else [])
       ++ matching_entries segs node.
Proof.
  induction pattern as [|[s|n|n] rest IH]; intros segs node.
  - destruct segs as [|a segs]; [|done]. cbn. unfold tag. rewrite List.map_app. cbn.
    rewrite <- app_assoc. cbn. by rewrite Permutation_middle.
  - destruct segs as [|a segs]; [done|].
    cbn [insert_pattern matching_entries statics param wildcards pattern_matches].
    destruct (decide (s = a)) as [<-|Hne].
    + rewrite lookup_insert_eq, bool_decide_eq_true_2 by done. cbn [andb]. rewrite IH, push_key_app.
      rewrite (push_child 0). destruct (pattern_matches rest segs); cbn; done.
    + by rewrite lookup_insert_ne, bool_decide_eq_false_2.
  - destruct segs as [|a segs]; [done|].
    cbn [insert_pattern matching_entries statics param wildcards pattern_matches].
    rewrite IH, push_key_app, !(push_child 1).
    destruct (pattern_matches rest segs); cbn [push_key map app]; [|done].
    by rewrite <- Permutation_middle.
  - cbn [insert_pattern]. case_bool_decide as Hr.
    + subst rest. unfold tag.
      destruct segs as [|a segs]; cbn [matching_entries terminals wildcards statics param];
        unfold tag; rewrite List.map_app; cbn [map pattern_matches route_key seg_rank];
        rewrite bool_decide_eq_true_2 by done;
        rewrite !app_assoc; by rewrite Permutation_app_comm.
    + destruct segs; cbn [pattern_matches]; by rewrite bool_decide_eq_false_2.
Qed.

(** The entries the registered routes contribute for a path. *)
Fixpoint expected_entries (index : nat) (patterns : list (str * list Segment)) (segs : list str)
  : list (list nat * str * nat) :=
  match patterns with
  | [] => []
  | (method, pattern) :: patterns =>
      (if pattern_matches pattern segs then [(route_key pattern, method, index)] else [])
      ++ expected_entries (S index) patterns segs
  end.

Lemma matching_entries_build_from patterns :
  forall index node segs,
    matching_entries segs (build_from index patterns node)
    ≡ₚ expected_entries index patterns segs ++ matching_entries segs node.
Proof.
  induction patterns as [|[m p] ps IH]; intros index node segs; [done|].
  cbn [build_from expected_entries]. rewrite IH, matching_entries_insert, !app_assoc.
  by rewrite (Permutation_app_comm (expected_entries _ _ _)).
Qed.

Lemma expected_entries_elem patterns segs k m i index :
  (k, m, i) ∈ expected_entries index patterns segs <->
  exists p, index <= i /\ patterns !! (i - index)%nat = Some (m, p)
            /\ pattern_matches p segs = true /\ k = route_key p.
Proof.
  revert index. induction patterns as [|[m' p'] ps IH]; intros index; cbn [expected_entries].
  - rewrite elem_of_nil. split; [done|]. intros (p & _ & Hp & _). by rewrite lookup_nil in Hp.
  - rewrite elem_of_app, IH. split.
    + intros [Hin|(p & Hi & Hp & Hm & ->)].
      * destruct (pattern_matches p' segs) eqn:?; [|by apply elem_of_nil in Hin].
        apply list_elem_of_singleton in Hin as [= -> -> ->]. exists p'. by rewrite Nat.sub_diag.
      * exists p. split_and!; [lia| |done|done].
        by replace (i - index)%nat with (S (i - S index)) by lia.
    + intros (p & Hi & Hp & Hm & ->). destruct (i - index)%nat as [|j] eqn:Ej; cbn in Hp.
      * injection Hp as -> ->. left. rewrite Hm.
        replace i with index by lia. by apply list_elem_of_singleton.
      * right. exists p. split_and!; [lia| |done|done]. by replace (i - S index)%nat with j by lia.
Qed.

Lemma matching_entries_build patterns segs k m i :
  (k, m, i) ∈ matching_entries segs (root (build patterns)) <->
  exists p, patterns !! i = Some (m, p) /\ pattern_matches p segs = true /\ k = route_key p.
Proof.
  cbn [root build]. rewrite matching_entries_build_from, matching_entries_default, app_nil_r.
  rewrite expected_entries_elem. setoid_rewrite Nat.sub_0_r. split.
  - intros (p & _ & ?). by exists p.
  - intros (p & ?). exists p. split; [lia|done].
Qed.

(** Which entry methods are pushed for a request method, and in which class. *)
Definition pushes (method entry : str) (c : nat) : Prop :=
  (c = 0 /\ entry = method)
  \/ (c = 1 /\ method = §"HEAD" /\ entry = §"GET")
  \/ (c = 2 /\ entry = METHOD_ALL).

Lemma entries_for_elem m entries i : i ∈ entries_for m entries <-> (m, i) ∈ entries.
Proof.
  unfold entries_for. rewrite list_elem_of_In, List.in_map_iff.
  setoid_rewrite List.filter_In. setoid_rewrite bool_decide_eq_true.
  rewrite list_elem_of_In. split.
  - by intros ([m' i'] & <- & ? & <-).
  - intros Hin. by exists (m, i).
Qed.

Lemma pick_elem key m entries k c i :
  (k, c, i) ∈ pick key m entries <-> k = key /\ exists m', (m', i) ∈ entries /\ pushes m m' c.
Proof.
  unfold pick, pushes. rewrite !elem_of_app.
  assert (Hm : forall c' m', (k, c, i) ∈ map (fun i => (key, c', i)) (entries_for m' entries)
             <-> k = key /\ c = c' /\ (m', i) ∈ entries).
  { intros c' m'. rewrite list_elem_of_fmap. setoid_rewrite entries_for_elem. naive_solver. }
  case_bool_decide; rewrite !Hm, ?elem_of_nil; naive_solver.
Qed.

Lemma tag_elem key entries k m i :
  (k, m, i) ∈ tag key entries <-> k = key /\ (m, i) ∈ entries.
Proof.
  unfold tag. rewrite list_elem_of_fmap. split.
  - intros ([m' i'] & [= -> -> ->] & ?). done.
  - intros [-> ?]. by exists (m, i).
Qed.

Lemma push_key_elem x l k m i :
  (k, m, i) ∈ push_key x l <-> exists k', k = x :: k' /\ (k', m, i) ∈ l.
Proof.
  unfold push_key. rewrite list_elem_of_fmap. split.
  - intros ([[k' m'] i'] & [= -> -> ->] & ?). by eexists.
  - intros (k' & -> & ?). by exists (k', m, i).
Qed.

Lemma push_ckey_elem x l k c i :
  (k, c, i) ∈ push_ckey x l <-> exists k', k = x :: k' /\ (k', c, i) ∈ l.
Proof.
  unfold push_ckey. rewrite list_elem_of_fmap. split.
  - intros ([[k' m'] i'] & [= -> -> ->] & ?). by eexists.
  - intros (k' & -> & ?). by exists (k', c, i).
Qed.

Lemma option_child_elem {T} (f : Node -> list T) o e :
  e ∈ match o with Some c => f c | None => [] end <-> exists c, o = Some c /\ e ∈ f c.
Proof. destruct o; rewrite ?elem_of_nil; naive_solver. Qed.

(** A candidate is a matching entry whose method the request may use. *)
Lemma search_elem method segs :
  forall node k c i,
    (k, c, i) ∈ search method segs node <->
    exists m, (k, m, i) ∈ matching_entries segs node /\ pushes method m c.
Proof.
  induction segs as [|s segs IH]; intros node k c i; cbn [search matching_entries].
  - rewrite elem_of_app, !pick_elem. setoid_rewrite elem_of_app. setoid_rewrite tag_elem. naive_solver.
  - rewrite !elem_of_app, !option_child_elem, pick_elem.
    setoid_rewrite elem_of_app. setoid_rewrite elem_of_app. setoid_rewrite option_child_elem.
    setoid_rewrite tag_elem. setoid_rewrite push_key_elem. setoid_rewrite push_ckey_elem.
    setoid_rewrite IH. naive_solver.
Qed.

(** ** Candidates come out in routing precedence *)

(** Lexicographic order on keys, a proper prefix first. *)
Fixpoint key_lt (a b : list nat) : Prop :=
  match a, b with
  | [], _ :: _ => True
  | _, [] => False
  | x :: a, y :: b => x < y \/ (x = y /\ key_lt a b)
  end.

(** Precedence of (key, class, registration index). *)
Definition cand_lt (x y : list nat * nat * nat) : Prop :=
  key_lt x.1.1 y.1.1
  \/ (x.1.1 = y.1.1 /\ (x.1.2 < y.1.2 \/ (x.1.2 = y.1.2 /\ x.2 < y.2))).

(** The entries of a list were appended in registration order. *)
Definition indices_ok (n : nat) (entries : list (str * nat)) : Prop :=
  StronglySorted lt (map snd entries) /\ Forall (fun i => i < n) (map snd entries).

Inductive node_wf (n : nat) (node : Node) : Prop := mk_node_wf {
  wf_statics s c : statics node !! s = Some c -> node_wf n c;
  wf_param c : param node = Some c -> node_wf n c;
  wf_terminals : indices_ok n (terminals node);
  wf_wildcards : indices_ok n (wildcards node)
}.

Lemma indices_ok_S n entries : indices_ok n entries -> indices_ok (S n) entries.
Proof. intros [? Hf]. split; [done|]. eapply Forall_impl; [done|]. simpl. lia. Qed.

Lemma indices_ok_push n entries m : indices_ok n entries -> indices_ok (S n) (entries ++ [(m, n)]).
Proof.
  intros [Hs Hf]. unfold indices_ok. rewrite List.map_app. cbn. split.
  - apply StronglySorted_app. split_and!; [|done|by repeat constructor].
    intros x y Hx Hy%list_elem_of_singleton. subst y. by rewrite Forall_forall in Hf; apply Hf.
  - apply Forall_app. split; [|by repeat constructor]. eapply Forall_impl; [done|]. simpl. lia.
Qed.

Lemma node_wf_S n node : node_wf n node -> node_wf (S n) node.
Proof. induction 1. constructor; eauto using indices_ok_S. Qed.

Lemma node_wf_default n : node_wf n Node_default.
Proof. by constructor; cbn; try (intros; simplify_map_eq); repeat constructor. Qed.

#[export] Hint Resolve node_wf_S node_wf_default indices_ok_S indices_ok_push : rr.

Lemma node_wf_insert n method pattern :
  forall node, node_wf n node -> node_wf (S n) (insert_pattern method n pattern node).
Proof.
  induction pattern as [|[s|p|p] rest IH]; intros node Hn; cbn [insert_pattern].
  - destruct Hn. constructor; cbn; eauto with rr.
  - destruct Hn as [Hs ? ? ?]. constructor; cbn; eauto with rr.
    intros s' c. rewrite lookup_insert. case_decide; [|eauto with rr]. intros [= <-]. apply IH.
    destruct (statics node !! s) eqn:E; cbn; eauto with rr.
  - destruct Hn as [? Hp ? ?]. constructor; cbn; eauto with rr.
    intros c [= <-]. apply IH. destruct (param node) eqn:E; cbn; eauto with rr.
  - case_bool_decide; [|eauto with rr]. destruct Hn. constructor; cbn; eauto with rr.
Qed.

Lemma node_wf_build_from patterns :
  forall n node, node_wf n node -> node_wf (length patterns + n) (build_from n patterns node).
Proof.
  induction patterns as [|[m p] ps IH]; intros n node Hn; [done|]. cbn [build_from length].
  replace (S (length ps) + n) with (length ps + S n) by lia. apply IH. by apply node_wf_insert.
Qed.

Lemma entries_for_sorted m entries :
  StronglySorted lt (map snd entries) -> StronglySorted lt (entries_for m entries).
Proof.
  unfold entries_for. induction entries as [|[m' i] es IH]; [done|]. cbn.
  intros [Hf Hs]%StronglySorted_cons. case_bool_decide; [|by apply IH]. cbn.
  apply StronglySorted_cons. split; [|by apply IH].
  rewrite Forall_forall in Hf |- *. intros j Hj. apply Hf.
  apply list_elem_of_In, List.in_map_iff in Hj as (e & <- & He%List.filter_In).
  apply list_elem_of_In, List.in_map. by destruct He.
Qed.

Lemma pick_sorted key m n entries : indices_ok n entries -> StronglySorted cand_lt (pick key m entries).
Proof.
  intros [Hs _]. unfold pick.
  assert (Hc : forall c m', StronglySorted cand_lt (map (fun i => (key, c, i)) (entries_for m' entries))).
  { intros c m'. eapply StronglySorted_fmap; [|by apply entries_for_sorted].
    intros x y Hxy. right. cbn. auto. }
  assert (Hin : forall (x : list nat * nat * nat) c m', x ∈ map (fun i => (key, c, i)) (entries_for m' entries) ->
                x.1.1 = key /\ x.1.2 = c).
  { intros x c m' (i & -> & _)%list_elem_of_fmap. done. }
  case_bool_decide; rewrite ?app_nil_l.
  - apply StronglySorted_app. split_and!; [|done|apply StronglySorted_app; split_and!; [|done|done]].
    + intros x y [Hx1 Hx2]%Hin [[Hy1 Hy2]%Hin|[Hy1 Hy2]%Hin]%elem_of_app;
        right; rewrite Hx1, Hy1, Hx2, Hy2; (split; [done|lia]).
    + intros x y [Hx1 Hx2]%Hin [Hy1 Hy2]%Hin. right. rewrite Hx1, Hy1, Hx2, Hy2. split; [done|lia].
  - apply StronglySorted_app. split_and!; [|done|done].
    intros x y [Hx1 Hx2]%Hin [Hy1 Hy2]%Hin. right. rewrite Hx1, Hy1, Hx2, Hy2. split; [done|lia].
Qed.

Lemma push_ckey_sorted k l : StronglySorted cand_lt l -> StronglySorted cand_lt (push_ckey k l).
Proof.
  apply StronglySorted_fmap. intros x y [Hlt|[E Hlt]]; [left; cbn; auto|right; cbn]. by rewrite E.
Qed.

Lemma search_sorted method segs :
  forall n node, node_wf n node -> StronglySorted cand_lt (search method segs node).
Proof.
  assert (Hpick : forall key es x, x ∈ pick key method es -> x.1.1 = key).
  { intros key es [[k c] i] [-> _]%pick_elem. done. }
  assert (Hpush : forall k l x, x ∈ push_ckey k l -> exists k', x.1.1 = k :: k').
  { intros k l [[k0 c] i] (k' & -> & _)%push_ckey_elem. by eexists. }
  induction segs as [|s segs IH]; intros n node [Hs Hp Ht Hw]; cbn [search].
  - apply StronglySorted_app. split_and!; [|by eapply pick_sorted|by eapply pick_sorted].
    intros x y Hx%Hpick Hy%Hpick. left. by rewrite Hx, Hy.
  - apply StronglySorted_app. split_and!; [| |apply StronglySorted_app; split_and!].
    + intros x y (c & _ & [kx Hx]%Hpush)%option_child_elem Hy. left. rewrite Hx.
      apply elem_of_app in Hy as [(d & _ & [ky Hy]%Hpush)%option_child_elem|Hy%Hpick];
        rewrite Hy; cbn; lia.
    + destruct (statics node !! s) eqn:E; [|constructor]. eapply push_ckey_sorted, IH. by eapply Hs.
    + intros x y (c & _ & [kx Hx]%Hpush)%option_child_elem Hy%Hpick. left. rewrite Hx, Hy. cbn. lia.
    + destruct (param node) eqn:E; [|constructor]. eapply push_ckey_sorted, IH. by eapply Hp.
    + by eapply pick_sorted.
Qed.

Lemma search_build_sorted method segs patterns :
  StronglySorted cand_lt (search method segs (root (build patterns))).
Proof.
  eapply search_sorted. apply (node_wf_build_from patterns 0 Node_default), node_wf_default.
Qed.

(** ** The methods of a path *)

Lemma collect_methods_step fuel segs node index s work found :
  segs !! index = Some s ->
  collect_methods_loop (S fuel) segs ((node, index) :: work) found
  = collect_methods_loop fuel segs
      (map (fun c => (c, S index)) (children node s) ++ work)
      (found ++ map (fun e => (e.2, e.1)) (wildcards node)).
Proof.
  intros E. cbn. rewrite E. unfold children.
  by destruct (statics node !! s), (param node).
Qed.

Lemma method_cost_cons s rest node :
  method_cost (s :: rest) node = S (sum_list (map (method_cost rest) (children node s))).
Proof. cbn. unfold children. destruct (statics node !! s), (param node); cbn; lia. Qed.

(** The order in which [collect_methods] finds the entries. *)
Fixpoint methods_dfs (segs : list str) (node : Node) : list (nat * str) :=
  map (fun e => (e.2, e.1)) (wildcards node) ++
  match segs with
  | [] => map (fun e => (e.2, e.1)) (terminals node)
  | s :: segs => concat (map (methods_dfs segs) (children node s))
  end.

Lemma collect_methods_visit segs rest :
  forall node index work found fuel,
    drop index segs = rest ->
    collect_methods_loop (method_cost rest node + fuel) segs ((node, index) :: work) found
    = collect_methods_loop fuel segs work (found ++ methods_dfs rest node).
Proof.
  induction rest as [|s rest IH]; intros node index work found fuel E.
  - apply drop_nil_inv in E. cbn [method_cost Nat.add collect_methods_loop methods_dfs].
    by rewrite E, app_assoc.
  - apply drop_cons_inv in E as [Hi Hd]. rewrite method_cost_cons.
    cbn [Nat.add methods_dfs]. rewrite (collect_methods_step _ _ _ _ _ _ _ Hi), app_assoc.
    generalize (found ++ map (fun e => (e.2, e.1)) (wildcards node)). clear found.
    induction (children node s) as [|c cs IHcs]; intros found.
    + cbn. by rewrite app_nil_r.
    + cbn [map sum_list_with id app concat]. rewrite <- Nat.add_assoc.
      rewrite IH by done. rewrite IHcs. by rewrite <- !app_assoc.
Qed.

Definition entry_route (e : list nat * str * nat) : nat * str := (e.2, e.1.2).

Lemma entry_route_push_key k l : map entry_route (push_key k l) = map entry_route l.
Proof. unfold push_key. by rewrite List.map_map. Qed.

Lemma methods_dfs_entries segs :
  forall node, methods_dfs segs node ≡ₚ map entry_route (matching_entries segs node).
Proof.
  induction segs as [|s segs IH]; intros node; cbn [methods_dfs matching_entries];
    rewrite Permutation_app_comm; unfold tag; rewrite !List.map_app, !List.map_map; [done|].
  rewrite app_assoc. apply Permutation_app; [|done].
  unfold children. destruct (statics node !! s), (param node); cbn [option_list app map concat];
    cbn; rewrite ?entry_route_push_key, ?app_nil_r, ?IH; done.
Qed.

Lemma matching_methods_Permutation idx segs :
  matching_methods idx segs ≡ₚ map entry_route (matching_entries segs (root idx)).
Proof.
  unfold matching_methods. rewrite merge_sort_Permutation.
  rewrite <- (Nat.add_0_r (method_cost segs (root idx))).
  rewrite (collect_methods_visit segs segs) by done. cbn. apply methods_dfs_entries.
Qed.

Lemma matching_methods_elem patterns segs i m :
  (i, m) ∈ matching_methods (build patterns) segs <->
  exists p, patterns !! i = Some (m, p) /\ pattern_matches p segs = true.
Proof.
  rewrite matching_methods_Permutation, list_elem_of_fmap. split.
  - intros ([[k m'] i'] & [= -> ->] & (p & ? & ? & _)%matching_entries_build). by exists p.
  - intros (p & ? & ?). exists (route_key p, m, i). split; [done|].
    apply matching_entries_build. by exists p.
Qed.

Lemma matching_methods_sorted idx segs : StronglySorted index_le (matching_methods idx segs).
Proof.
  apply StronglySorted_merge_sort.
  - intros x y z; unfold index_le; lia.
  - intros x y; unfold index_le; lia.
Qed.

(** Registration indices occur once. *)
Lemma expected_entries_indices patterns segs index :
  NoDup (map snd (expected_entries index patterns segs))
  /\ Forall (fun i => index <= i) (map snd (expected_entries index patterns segs)).
Proof.
  revert index. induction patterns as [|[m p] ps IH]; intros index; cbn; [by repeat constructor|].
  destruct (IH (S index)) as [Hn Hf].
  assert (Hf' : Forall (fun i => index <= i) (map snd (expected_entries (S index) ps segs))).
  { eapply Forall_impl; [done|]. cbn. intros; lia. }
  destruct (pattern_matches p segs); cbn; [|done]. split; constructor; try done.
  rewrite Forall_forall in Hf. intros Hi%Hf. lia.
Qed.

Lemma matching_methods_NoDup patterns segs : NoDup (map fst (matching_methods (build patterns) segs)).
Proof.
  rewrite matching_methods_Permutation, List.map_map. cbn [root build entry_route fst].
  rewrite matching_entries_build_from, matching_entries_default, app_nil_r.
  apply expected_entries_indices.
Qed.

Lemma sorted_NoDup_strict (l : list (nat * str)) :
  StronglySorted index_le l -> NoDup (map fst l) -> StronglySorted (fun x y => x.1 < y.1) l.
Proof.
  induction 1 as [|x l Hs IH Hf]; cbn; [by constructor|]. intros [Hx Hn]%NoDup_cons.
  constructor; [by apply IH|]. rewrite Forall_forall in *. intros y Hy. specialize (Hf y Hy).
  unfold index_le in Hf. assert (x.1 <> y.1); [|lia]. intros E. apply Hx. rewrite E.
  change (y.1 ∈ fst <$> l). by apply list_elem_of_fmap_2.
Qed.

(** ** Properties *)

(** [find_candidates] is exact and ordered: the explicit-stack loop returns
    within [visit_cost] iterations, and its result is the registration indices
    of a list of (key, class, index) triples that holds exactly the registered
    routes matching the path whose method serves the request (its own, [GET]
    for [HEAD], or [all()]), in strictly increasing routing precedence: static
    before parameter before wildcard, then method class, then registration. *)
Theorem find_candidates_exact patterns method segs :
  exists cands : list (list nat * nat * nat),
    collect_candidates_loop (visit_cost segs (root (build patterns))) method segs
      [Visit (root (build patterns)) 0] [] = Some (map snd cands)
    /\ find_candidates (build patterns) method segs = map snd cands
    /\ StronglySorted cand_lt cands
    /\ forall k c i, (k, c, i) ∈ cands <->
         exists m p, patterns !! i = Some (m, p) /\ pattern_matches p segs = true
                     /\ k = route_key p /\ pushes method m c.
Proof.
  exists (search method segs (root (build patterns))).
  split_and!; [apply collect_candidates_terminates|apply find_candidates_search
              |apply search_build_sorted|].
  intros k c i. rewrite search_elem. setoid_rewrite matching_entries_build. naive_solver.
Qed.

(** [matching_methods] lists exactly the (registration index, method) pairs
    of the routes whose pattern matches the path, in registration order and
    without repetition. *)
Theorem matching_methods_complete patterns segs :
  StronglySorted (fun x y => x.1 < y.1) (matching_methods (build patterns) segs)
  /\ forall i m, (i, m) ∈ matching_methods (build patterns) segs <->
       exists p, patterns !! i = Some (m, p) /\ pattern_matches p segs = true.
Proof.
  split; [|intros i m; apply matching_methods_elem].
  apply sorted_NoDup_strict; [apply matching_methods_sorted|apply matching_methods_NoDup].
Qed.
