(* ===== verification/Url.v ===== *)
(** * URL generation ([build_url] of [src/app/router.rs])

    The generator behind [Router::url_for] and the round trip with the request
    side: a generated URL decodes to segments that the pattern matches again,
    capturing the parameters it was generated from. *)
From S2P Require Import Prelude Strs Percent Pattern.

(** Collecting pairs into a [HashMap]: the last value of a key wins. *)
Definition collect_map (pairs : list (str * str)) : gmap str str :=
  foldl (fun m kv => <[kv.1 := kv.2]> m) ∅ pairs.

Definition missing_url_parameter (name : str) : RouteError :=
  RouteError_new MissingUrlParameter (§"Falta el parametro de URL " ++ name).
Definition unexpected_url_parameter (name : str) : RouteError :=
  RouteError_new UnexpectedUrlParameter (§"Parametro de URL inesperado: " ++ name).
Definition empty_url_parameter (name : str) : RouteError :=
  RouteError_new MissingUrlParameter
    (§"El parametro de URL " ++ name ++ §" no puede estar vacio").

(** The wildcard value with its empty pieces dropped. *)
Definition wildcard_pieces (value : str) : list str := List.filter nonempty (split_on slash value).

(** What one segment contributes after its slash. [params.get(name)] is
    defined for every declared name by the two checks of [build_url]; the
    [expect] branch is [None]. *)
Definition build_segment (params : gmap str str) (segment : Segment)
  : option (result str RouteError) :=
  match segment with
  | Static value => Some (Ok (encode_path_segment value))
  | Param name =>
      match params !! name with
      | None => None
      | Some value =>
          if bool_decide (value = []) then Some (Err (empty_url_parameter name))
          else Some (Ok (encode_path_segment value))
      end
  | Wildcard name =>
      match params !! name with
      | None => None
      | Some value => Some (Ok (join [slash] (map encode_path_segment (wildcard_pieces value))))
      end
  end.

(** The [for segment in pattern.segments()] loop; [None] is a panic. *)
Fixpoint build_loop (params : gmap str str) (segs : list Segment) (out : str)
  : option (result str RouteError) :=
  match segs with
  | [] => Some (Ok out)
  | segment :: segs =>
      match build_segment params segment with
      | None => None
      | Some (Err e) => Some (Err e)
      | Some (Ok piece) => build_loop params segs (out ++ slash :: piece)
      end
  end.

(** [build_url]. Rust iterates the two hash collections in an unspecified
    order; the model reports the first offending name in declaration order,
    respectively in [map_to_list] order. *)
Definition build_url (pattern : RoutePattern) (pairs : list (str * str))
  : option (result str RouteError) :=
  let params := collect_map pairs in
  match List.find (fun name => bool_decide (params !! name = None)) (parameter_names pattern) with
  | Some expected_name => Some (Err (missing_url_parameter expected_name))
  | None =>
      match List.find (fun name => bool_decide (name ∉ parameter_names pattern))
              (map fst (map_to_list params)) with
      | Some provided => Some (Err (unexpected_url_parameter provided))
      | None =>
          if bool_decide (segments pattern = []) then Some (Ok [slash])
          else build_loop params (segments pattern) []
      end
  end.

(** ** Lemmas *)

(** A value that may travel in a path segment: a Rust string (valid UTF-8)
    without control characters. *)
Definition url_value (v : str) : Prop := utf8_valid v = true /\ has_control v = false.

(** The decoded segments a pattern segment yields when its URL is routed. *)
Definition url_segments (params : gmap str str) (segment : Segment) : list str :=
  match segment with
  | Static value => [value]
  | Param name => [default [] (params !! name)]
  | Wildcard name => wildcard_pieces (default [] (params !! name))
  end.

(** The parameters that routing a generated URL captures: a wildcard value
    loses its empty pieces. *)
Definition routed_params (segs : list Segment) (params : gmap str str) : gmap str str :=
  map_imap (fun name value =>
    if bool_decide (Wildcard name ∈ segs) then Some (join [slash] (wildcard_pieces value))
    else Some value) params.

Section roundtrip.
Context `{PercentEncoding}.

Lemma decode_path_segment_encode s :
  url_value s -> decode_path_segment (encode_path_segment s) = Ok s.
Proof.
  intros [Hu Hc]. unfold decode_path_segment, validate_percent_triplets.
  by rewrite valid_triplets_encode, percent_decode_encode, Hu, Hc.
Qed.

Lemma wildcard_pieces_ok value :
  url_value value -> Forall (fun p => url_value p /\ p <> []) (wildcard_pieces value).
Proof.
  intros [Hu Hc]. apply Forall_forall. intros p Hp. unfold wildcard_pieces in Hp.
  apply list_elem_of_In, List.filter_In in Hp as [Hp Hne]. apply list_elem_of_In in Hp.
  split; [|by destruct p]. split; [by apply (utf8_valid_split slash value)|].
  apply split_on_infix in Hp as [_ (a & b & ->)]. by eapply has_control_infix.
Qed.

(** The segments of a path built from separator-free encoded pieces. *)
Lemma path_segments_join ws :
  Forall (fun w => slash ∉ w /\ w <> []) ws -> path_segments (join [slash] ws) = ws.
Proof.
  induction 1 as [|w ws [Hw Hne] Hws IH]; [done|]. destruct ws as [|v ws].
  - cbn [join]. rewrite path_segments_plain by done. by destruct w.
  - rewrite join_app_sep by done. cbn [app]. rewrite path_segments_slash, IH.
    rewrite path_segments_plain by done. by destruct w.
Qed.

Lemma encoded_pieces_ok ps :
  Forall (fun p => url_value p /\ p <> []) ps ->
  Forall (fun w => slash ∉ w /\ w <> []) (map encode_path_segment ps).
Proof.
  intros Hp. apply Forall_fmap. eapply Forall_impl; [done|]. intros p [_ Hne].
  split; [apply encode_no_slash|]. by intros E%(proj1 (encode_nil_iff p)).
Qed.

(** One segment of the URL, routed. *)
Lemma build_segment_routed params segment piece :
  seg_ok segment -> (forall n v, params !! n = Some v -> url_value v) ->
  build_segment params segment = Some (Ok piece) ->
  path_segments piece = map encode_path_segment (url_segments params segment)
  /\ Forall url_value (url_segments params segment).
Proof.
  intros Hseg Hval. destruct segment as [s|n|n]; cbn.
  - intros [= <-]. destruct Hseg as (Hne & Hu). split; [|by apply Forall_singleton].
    rewrite path_segments_plain by apply encode_no_slash.
    destruct (encode_path_segment s) eqn:E; [|done].
    apply (proj1 (encode_nil_iff s)) in E. congruence.
  - destruct (params !! n) as [v|] eqn:Hv; [|done]. case_bool_decide as Hne; [done|].
    intros [= <-]. simpl. split; [|by apply Forall_singleton; eapply Hval].
    rewrite path_segments_plain by apply encode_no_slash.
    destruct (encode_path_segment v) eqn:E; [|done].
    apply (proj1 (encode_nil_iff v)) in E. congruence.
  - destruct (params !! n) as [v|] eqn:Hv; [|done]. intros [= <-]. cbn.
    pose proof (wildcard_pieces_ok v (Hval _ _ Hv)) as Hp. split.
    + by apply path_segments_join, encoded_pieces_ok.
    + eapply Forall_impl; [done|]. by intros ? [? _].
Qed.

Lemma build_loop_routed params segs out url :
  Forall seg_ok segs -> (forall n v, params !! n = Some v -> url_value v) ->
  build_loop params segs out = Some (Ok url) ->
  path_segments url = path_segments out ++ map encode_path_segment (concat (map (url_segments params) segs))
  /\ Forall url_value (concat (map (url_segments params) segs)).
Proof.
  intros Hs Hval. revert out. induction Hs as [|seg segs Hseg _ IH]; intros out; cbn [build_loop].
  - intros [= <-]. cbn. by rewrite app_nil_r.
  - destruct (build_segment params seg) as [[piece|e]|] eqn:Hb; [|done|done].
    apply build_segment_routed in Hb as [Hp Hv]; [|done|done].
    intros [Hu Hf]%IH. cbn [map concat]. rewrite Hu, path_segments_slash, Hp, List.map_app.
    split; [by rewrite app_assoc|]. by apply Forall_app.
Qed.

Lemma try_map_decode_encode segs :
  Forall url_value segs -> try_map decode_path_segment (map encode_path_segment segs) = Ok segs.
Proof.
  induction 1 as [|s segs Hs _ IH]; [done|]. cbn [map try_map].
  by rewrite decode_path_segment_encode, IH.
Qed.
End roundtrip.

(** What the placeholders of [segs] bind when the generated URL is matched. *)
Fixpoint bind_params (params : gmap str str) (segs : list Segment) (acc : gmap str str)
  : gmap str str :=
  match segs with
  | [] => acc
  | Static _ :: segs => bind_params params segs acc
  | Param n :: segs => bind_params params segs (<[n := default [] (params !! n)]> acc)
  | Wildcard n :: segs =>
      bind_params params segs (<[n := join [slash] (wildcard_pieces (default [] (params !! n)))]> acc)
  end.

Lemma match_loop_url params segs acc :
  (forall i n, segs !! i = Some (Wildcard n) -> S i = length segs) ->
  match_loop segs (concat (map (url_segments params) segs)) acc = Some (bind_params params segs acc).
Proof.
  revert acc. induction segs as [|seg segs IH]; intros acc Hw; [done|].
  assert (Hw' : forall i n, segs !! i = Some (Wildcard n) -> S i = length segs).
  { intros i n Hi. specialize (Hw (S i) n Hi). simpl in Hw. lia. }
  destruct seg as [s|n|n]; cbn [map concat url_segments app match_loop bind_params].
  - rewrite bool_decide_eq_true_2 by done. by apply IH.
  - by apply IH.
  - specialize (Hw 0 n eq_refl). destruct segs; [|simpl in Hw; lia].
    rewrite bool_decide_eq_true_2 by done. cbn. by rewrite app_nil_r.
Qed.

(** The binding made for a name by the segment that declares it. *)
Definition bound_value (params : gmap str str) (segment : Segment) : option str :=
  match segment with
  | Static _ => None
  | Param n => Some (default [] (params !! n))
  | Wildcard n => Some (join [slash] (wildcard_pieces (default [] (params !! n))))
  end.

Lemma bind_params_other params segs acc n :
  n ∉ seg_names segs -> bind_params params segs acc !! n = acc !! n.
Proof.
  revert acc. induction segs as [|[s|m|m] segs IH]; intros acc; cbn; [done|apply IH| |];
    intros [Hne Hn]%not_elem_of_cons; by rewrite IH, lookup_insert_ne.
Qed.

Lemma bind_params_lookup params segs acc i seg n :
  NoDup (seg_names segs) -> segs !! i = Some seg -> seg_name seg = Some n ->
  bind_params params segs acc !! n = bound_value params seg.
Proof.
  revert acc i. induction segs as [|[s|m|m] segs IH]; intros acc i; cbn [seg_names omap list_omap seg_name];
    [done| |intros [Hm Hnd]%NoDup_cons|intros [Hm Hnd]%NoDup_cons];
    destruct i as [|i]; intros; simplify_eq/=; try (by eapply IH).
  - by rewrite bind_params_other, lookup_insert_eq.
  - by rewrite bind_params_other, lookup_insert_eq.
Qed.

Lemma routed_params_lookup segs params n :
  routed_params segs params !! n =
  (fun v => if bool_decide (Wildcard n ∈ segs) then join [slash] (wildcard_pieces v) else v)
  <$> params !! n.
Proof.
  unfold routed_params. rewrite map_lookup_imap. destruct (params !! n) as [v|]; [|done].
  cbn. by case_bool_decide.
Qed.

Lemma bind_params_routed params segs :
  NoDup (seg_names segs) -> (forall n, is_Some (params !! n) <-> n ∈ seg_names segs) ->
  bind_params params segs ∅ = routed_params segs params.
Proof.
  intros Hnd Hdom. apply map_eq. intros n. rewrite routed_params_lookup.
  destruct (params !! n) as [v|] eqn:Hv.
  - assert (Hn : n ∈ seg_names segs) by (apply Hdom; eauto).
    apply seg_names_elem in Hn as (i & seg & Hi & Hs).
    rewrite (bind_params_lookup _ _ _ _ _ _ Hnd Hi Hs).
    destruct seg as [s|m|m]; simplify_eq/=; rewrite Hv; simpl.
    + case_bool_decide as Hin; [|done]. apply list_elem_of_lookup in Hin as [j Hj].
      assert (Hij : i = j) by by eapply seg_names_inj. subst; congruence.
    + rewrite bool_decide_eq_true_2; [done|]. by eapply list_elem_of_lookup_2.
  - rewrite bind_params_other; [done|]. rewrite <- Hdom, Hv. by apply is_Some_None.
Qed.

(** ** Totality and errors of [build_url] *)

Lemma map_to_list_keys (params : gmap str str) n :
  n ∈ map fst (map_to_list params) <-> is_Some (params !! n).
Proof.
  rewrite list_elem_of_fmap. split.
  - intros ([m v] & -> & ?%elem_of_map_to_list). by eexists.
  - intros [v Hv]. exists (n, v). by rewrite elem_of_map_to_list.
Qed.

(** The first segment a generated URL cannot fill in. *)
Definition empty_param (params : gmap str str) (segment : Segment) : bool :=
  match segment with Param n => bool_decide (params !! n = Some []) | _ => false end.

Lemma build_loop_total params segs out :
  (forall n, n ∈ seg_names segs -> is_Some (params !! n)) ->
  match List.find (empty_param params) segs with
  | Some seg => exists n, seg = Param n /\ params !! n = Some []
      /\ build_loop params segs out = Some (Err (empty_url_parameter n))
  | None => exists url, build_loop params segs out = Some (Ok url)
  end.
Proof.
  revert out. induction segs as [|[s|m|m] segs IH]; intros out Hn; cbn [List.find empty_param build_loop build_segment].
  - eauto.
  - by apply IH.
  - assert (Hm : is_Some (params !! m)) by (apply Hn; cbn; by left). destruct Hm as [v Hv].
    rewrite Hv. case_bool_decide as Hne; simplify_eq.
    + exists m. by rewrite Hv, bool_decide_eq_true_2.
    + rewrite bool_decide_eq_false_2 by congruence. apply IH. intros n Hin. apply Hn. cbn. by right.
  - assert (Hm : is_Some (params !! m)) by (apply Hn; cbn; by left). destruct Hm as [v Hv].
    rewrite Hv. apply IH. intros n Hin. apply Hn. cbn. by right.
Qed.

(** The outcome of [build_url] on a well-formed pattern, branch by branch. *)
Inductive url_outcome (p : RoutePattern) (params : gmap str str)
  : option (result str RouteError) -> Prop :=
| Url_missing n :
    n ∈ parameter_names p -> params !! n = None ->
    url_outcome p params (Some (Err (missing_url_parameter n)))
| Url_unexpected n :
    (forall m, m ∈ parameter_names p -> is_Some (params !! m)) ->
    is_Some (params !! n) -> n ∉ parameter_names p ->
    url_outcome p params (Some (Err (unexpected_url_parameter n)))
| Url_empty n :
    (forall m, is_Some (params !! m) <-> m ∈ parameter_names p) ->
    Param n ∈ segments p -> params !! n = Some [] ->
    url_outcome p params (Some (Err (empty_url_parameter n)))
| Url_ok url :
    (forall m, is_Some (params !! m) <-> m ∈ parameter_names p) ->
    (forall n, Param n ∈ segments p -> params !! n <> Some []) ->
    url_outcome p params (Some (Ok url)).

Lemma build_url_outcome p pairs :
  wf_pattern p -> url_outcome p (collect_map pairs) (build_url p pairs).
Proof.
  intros Hwf. unfold build_url. set (params := collect_map pairs).
  destruct (List.find _ (parameter_names p)) as [n|] eqn:Hmiss.
  { apply find_Some_elem in Hmiss as [Hn Hb]. bsplit. by constructor. }
  assert (Hall : forall m, m ∈ parameter_names p -> is_Some (params !! m)).
  { apply find_None in Hmiss. rewrite Forall_forall in Hmiss. intros m Hm.
    specialize (Hmiss m Hm). bsplit. by apply not_eq_None_Some. }
  destruct (List.find _ (map fst _)) as [n|] eqn:Hextra.
  { apply find_Some_elem in Hextra as [Hn%map_to_list_keys Hb]. bsplit. by constructor. }
  assert (Hdom : forall m, is_Some (params !! m) <-> m ∈ parameter_names p).
  { apply find_None in Hextra. rewrite Forall_forall in Hextra. intros m. split; [|apply Hall].
    intros Hm%map_to_list_keys. specialize (Hextra m Hm). bsplit. by apply dec_stable. }
  case_bool_decide as Hnil.
  { apply Url_ok; [done|]. rewrite Hnil. by intros n ?%elem_of_nil. }
  pose proof (build_loop_total params (segments p) []) as Hb.
  rewrite (wf_names _ Hwf) in Hall. specialize (Hb Hall).
  destruct (List.find (empty_param params) (segments p)) as [seg|] eqn:He.
  - destruct Hb as (n & -> & Hv & ->). apply find_Some_elem in He as [He _]. by apply Url_empty.
  - destruct Hb as [url ->]. apply Url_ok; [done|]. intros n Hn Hv.
    apply find_None in He. rewrite Forall_forall in He. specialize (He _ Hn). cbn in He. by bsplit.
Qed.

Lemma build_url_Ok_dom p pairs url :
  wf_pattern p -> build_url p pairs = Some (Ok url) ->
  forall n, is_Some (collect_map pairs !! n) <-> n ∈ seg_names (segments p).
Proof.
  intros Hwf Hb. pose proof (build_url_outcome p pairs Hwf) as Ho. rewrite Hb in Ho.
  rewrite <- (wf_names _ Hwf). by inversion Ho.
Qed.

Section url_claims.
Context `{PercentEncoding}.

Lemma build_url_routed p pairs url :
  wf_pattern p -> build_url p pairs = Some (Ok url) ->
  (forall n v, collect_map pairs !! n = Some v -> url_value v) ->
  exists segs, Forall url_value segs
    /\ path_segments url = map encode_path_segment segs
    /\ match_decoded_pattern (segments p) segs
       = Some (routed_params (segments p) (collect_map pairs)).
Proof.
  intros Hwf Hb Hval. set (params := collect_map pairs) in *.
  exists (concat (map (url_segments params) (segments p))).
  pose proof (build_url_Ok_dom _ _ _ Hwf Hb) as Hdom.
  assert (Hm : match_decoded_pattern (segments p) (concat (map (url_segments params) (segments p)))
               = Some (routed_params (segments p) params)).
  { unfold match_decoded_pattern. rewrite match_loop_url by apply Hwf.
    f_equal. apply bind_params_routed; [apply Hwf|done]. }
  revert Hb. unfold build_url. destruct (List.find _ _); [done|]. destruct (List.find _ _); [done|].
  case_bool_decide as Hnil.
  - intros [= <-]. rewrite Hnil in *. done.
  - intros [Hp Hf]%build_loop_routed; [|apply Hwf|done]. done.
Qed.

(** C3. Round trip of URL generation and routing: whenever [build_url]
    produces a URL from values that are control-free UTF-8 strings, and the
    URL stays within the 256-segment limit, the request side decodes it
    without error and the same pattern matches it, capturing exactly the
    parameters given (a wildcard value without its empty pieces). *)
Theorem url_for_roundtrip p pairs url :
  wf_pattern p -> build_url p pairs = Some (Ok url) ->
  (forall n v, collect_map pairs !! n = Some v -> url_value v) ->
  length (path_segments url) <= MAX_PATH_SEGMENTS ->
  exists segs, decode_path_segments url = Ok segs
    /\ match_decoded_pattern (segments p) segs
       = Some (routed_params (segments p) (collect_map pairs)).
Proof.
  intros Hwf Hb Hval Hlen. destruct (build_url_routed _ _ _ Hwf Hb Hval) as (segs & Hv & Hp & Hm).
  exists segs. split; [|done]. unfold decode_path_segments.
  rewrite (proj2 (Nat.ltb_ge _ _) Hlen), Hp. by apply try_map_decode_encode.
Qed.
End url_claims.

Definition example_pattern : RoutePattern :=
  from_validated_segments [Static §"users"; Param §"id"; Wildcard §"rest"] [§"id"; §"rest"].
Definition example_pairs : list (str * str) := [(§"id", §"a/b c"); (§"rest", §"/x//y")].

Lemma example_pattern_wf : wf_pattern example_pattern.
Proof.
  apply (@parse_Ok_wf reference_percent_encoding §"/users/:id/*rest"). vm_compute. reflexivity.
Qed.

Lemma url_for_roundtrip_witness :
  exists segs,
    decode_path_segments (H := reference_percent_encoding) §"/users/a%2Fb%20c/x/y" = Ok segs
    /\ match_decoded_pattern (segments example_pattern) segs
       = Some (routed_params (segments example_pattern) (collect_map example_pairs)).
Proof.
  apply (@url_for_roundtrip reference_percent_encoding example_pattern example_pairs).
  - exact example_pattern_wf.
  - vm_compute. reflexivity.
  - intros n v Hv. unfold collect_map in Hv. cbn in Hv.
    apply lookup_insert_Some in Hv as [[_ <-]|[_ Hv]]; [split; vm_compute; reflexivity|].
    apply lookup_insert_Some in Hv as [[_ <-]|[_ Hv]]; [split; vm_compute; reflexivity|done].
  - vm_compute. lia.
Defined.

(** Every outcome of URL generation on a well-formed pattern: it never
    panics; a missing declared parameter, an undeclared parameter and an empty
    path parameter are the only errors, each reported with its own kind; and
    in every other case a URL is produced. *)
Theorem build_url_complete p pairs :
  wf_pattern p -> url_outcome p (collect_map pairs) (build_url p pairs).
Proof. apply build_url_outcome. Qed.

Lemma build_url_complete_witness :
  url_outcome example_pattern (collect_map [(§"id", §"7")]) (build_url example_pattern [(§"id", §"7")]).
Proof. apply build_url_complete. exact example_pattern_wf. Defined.
