(* ===== verification/Router.v ===== *)
(** * The router ([src/app/router.rs])

    [Router] with its lazily built index, every registration and configuration
    operation ([add_with_kind], [static_files_with_options], [mount], [layer]
    and the [RouteHandle] methods) and every lookup ([resolve_method],
    [resolve_http_method], [allowed_methods], [scoped_middlewares], [url_for]).
    Handlers, middlewares and WebSocket configurations are opaque values of
    the client: they are stored, cloned and returned, never inspected. *)
From S2P Require Import Prelude Strs Percent Pattern Host Url Trie.

Section router.
Context {Handler Middleware WebSocketConfig : Type}.

(** ** Data *)

Inductive RouteKind :=
| Http
| WebSocket (config : WebSocketConfig).

Record RouteMeta := mkRouteMeta {
  summary : option str;
  description : option str;
  tags : list str;
  meta_body_limit : option Z
}.
Definition RouteMeta_default : RouteMeta := mkRouteMeta None None [] None.

(** A registered route. [route_layers] counts the trailing entries of
    [route_middlewares] that [RouteHandle::layer] added. *)
Record Route := mkRoute {
  method : str;
  pattern : RoutePattern;
  handler : Handler;
  route_middlewares : list Middleware;
  route_layers : nat;
  route_kind : RouteKind;
  meta : RouteMeta;
  route_name : option str;
  route_host : option HostPattern
}.

Record MatchedRoute := mkMatchedRoute {
  matched_handler : Handler;
  matched_middlewares : list Middleware;
  matched_params : gmap str str;
  matched_pattern : str;
  matched_kind : RouteKind;
  matched_body_limit : option Z
}.

(** [index] is the [OnceLock]: [None] until the first lookup, dropped by every
    mutation of the route list. *)
Record Router := mkRouter {
  routes : list Route;
  middlewares : list Middleware;
  index_cell : option RouteIndex
}.

Definition Router_new : Router := mkRouter [] [] None.

Definition route_patterns (rs : list Route) : list (str * list Segment) :=
  map (fun route => (method route, segments (pattern route))) rs.

(** [Router::index]: [get_or_init]. *)
Definition router_index (r : Router) : Router * RouteIndex :=
  match index_cell r with
  | Some idx => (r, idx)
  | None =>
      let idx := build (route_patterns (routes r)) in
      (mkRouter (routes r) (middlewares r) (Some idx), idx)
  end.

(** ** Registration *)

Definition conflict_message (method : str) (pattern other : RoutePattern) : str :=
  §"La ruta " ++ method ++ §" " ++ rendered pattern ++ §" entra en conflicto con " ++ rendered other.

Definition conflict_error (method : str) (pattern other : RoutePattern) : RouteError :=
  RouteError_new
    (if bool_decide (rendered other = rendered pattern) then DuplicateRoute else ConflictingPattern)
    (conflict_message method pattern other).

Definition duplicate_name (name : str) : RouteError :=
  RouteError_new DuplicateName (§"Nombre de ruta duplicado: " ++ name).

Definition has_name (name : str) (route : Route) : bool := bool_decide (route_name route = Some name).

(** The conflict test of the validation loops. *)
Definition conflicts (method' : str) (pattern' : RoutePattern) (host : option HostPattern)
    (route : Route) : bool :=
  bool_decide (method route = method')
  && bool_decide (conflict_key (pattern route) = conflict_key pattern')
  && hosts_overlap (route_host route) host.

(** [validate_route_insert] and [validate_route_batch_insert] have the same
    body over [self.routes] and over the batch. *)
Definition validate_insert_in (rs : list Route) (method' : str) (pattern' : RoutePattern)
    (host : option HostPattern) (name : option str) : result unit RouteError :=
  match (match name with
         | Some name => if existsb (has_name name) rs then Some (duplicate_name name) else None
         | None => None
         end) with
  | Some e => Err e
  | None =>
      match List.find (conflicts method' pattern' host) rs with
      | Some route => Err (conflict_error method' pattern' (pattern route))
      | None => Ok tt
      end
  end.

Definition validate_route_insert (r : Router) := validate_insert_in (routes r).
Definition validate_route_batch_insert := validate_insert_in.

(** The loop of [validate_route_host_update] over [(position, other)]. *)
Fixpoint host_update_loop (index position : nat) (route : Route) (host : HostPattern)
    (rs : list Route) : result unit RouteError :=
  match rs with
  | [] => Ok tt
  | other :: rs =>
      if bool_decide (position = index) || negb (bool_decide (method other = method route))
         || negb (bool_decide (conflict_key (pattern other) = conflict_key (pattern route)))
         || negb (hosts_overlap (route_host other) (Some host))
      then host_update_loop index (S position) route host rs
      else Err (RouteError_new
                  (if bool_decide (rendered (pattern other) = rendered (pattern route))
                   then DuplicateRoute else ConflictingPattern)
                  (conflict_message (method route) (pattern route) (pattern other)))
  end.

(** Appending a route drops the index ([self.index.take()]). *)
Definition push_routes (r : Router) (new : list Route) : Router :=
  mkRouter (routes r ++ new) (middlewares r) None.

Context `{PercentEncoding}.

(** [add_with_kind]; on success the handle is the position of the new route.
    Every error leaves the router unchanged. *)
Definition add_with_kind (r : Router) (method' path : str) (handler' : Handler) (kind' : RouteKind)
  : Router * result nat RouteError :=
  if eq_ignore_ascii_case method' §"CONNECT" then
    (r, Err (RouteError_new UnsupportedMethod
               §"CONNECT requiere una API de tunel dedicada y no se puede registrar como ruta HTTP"))
  else
    match parse path with
    | Err e => (r, Err e)
    | Ok pattern' =>
        match validate_route_insert r method' pattern' None None with
        | Err e => (r, Err e)
        | Ok _ =>
            let route := mkRoute method' pattern' handler' [] 0 kind' RouteMeta_default None None in
            let r := push_routes r [route] in
            (r, Ok (length (routes r) - 1))
        end
    end.

Definition add (r : Router) (method' path : str) (handler' : Handler) :=
  add_with_kind r method' path handler' Http.

(** [Router::fallback]. *)
Definition fallback (r : Router) (handler' : Handler) := add r METHOD_ALL §"/*path" handler'.

(** [Router::layer]; [guard] layers a middleware built from the predicate. *)
Definition layer (r : Router) (mw : Middleware) : Router :=
  mkRouter (routes r) (middlewares r ++ [mw]) (index_cell r).

Definition join_paths (prefix suffix : str) : str :=
  let prefix := trim_end_matches slash prefix in
  let suffix := trim_start_matches slash suffix in
  match prefix, suffix with
  | [], [] => [slash]
  | [], _ => slash :: suffix
  | _, [] => prefix
  | _, _ => prefix ++ slash :: suffix
  end.

Definition static_route (method' : str) (pattern' : RoutePattern) (handler' : Handler) : Route :=
  mkRoute method' pattern' handler' [] 0 Http RouteMeta_default None None.

(** [static_files_with_options]. [options] is the outcome of
    [validate_static_options]; [root] is the outcome of opening the directory
    capability and closing the file handler over it. *)
Definition static_files_with_options (r : Router) (prefix : str)
    (options : result unit RouteError) (root : result Handler RouteError)
  : Router * result unit RouteError :=
  match options with
  | Err e => (r, Err e)
  | Ok _ =>
      match root with
      | Err e => (r, Err e)
      | Ok handler' =>
          match parse (join_paths prefix §"/*path") with
          | Err e => (r, Err e)
          | Ok pattern' =>
              match validate_route_insert r §"GET" pattern' None None with
              | Err e => (r, Err e)
              | Ok _ =>
                  match validate_route_insert r §"HEAD" pattern' None None with
                  | Err e => (r, Err e)
                  | Ok _ =>
                      (push_routes r [static_route §"GET" pattern' handler';
                                      static_route §"HEAD" pattern' handler'], Ok tt)
                  end
              end
          end
      end
  end.

(** ** Mounting *)

Definition mounted_route (scoped : list Middleware) (pattern' : RoutePattern) (route : Route) : Route :=
  mkRoute (method route) pattern' (handler route) (scoped ++ route_middlewares route)
    (route_layers route) (route_kind route) (meta route) (route_name route) (route_host route).

(** The [for route in other.routes] loop, with the routes mounted so far. *)
Fixpoint mount_loop (r : Router) (prefix : RoutePattern) (scoped : list Middleware)
    (others : list Route) (mounted : list Route) : result (list Route) RouteError :=
  match others with
  | [] => Ok mounted
  | route :: others =>
      let? pattern' := pattern_join prefix (pattern route) in
      let? _ := validate_route_insert r (method route) pattern' (route_host route) (route_name route) in
      let? _ := validate_route_batch_insert mounted (method route) pattern'
                  (route_host route) (route_name route) in
      mount_loop r prefix scoped others (mounted ++ [mounted_route scoped pattern' route])
  end.

Definition mount (r : Router) (prefix : str) (other : Router) : Router * result unit RouteError :=
  match parse prefix with
  | Err e => (r, Err e)
  | Ok prefix =>
      match mount_loop r prefix (middlewares other) (routes other) [] with
      | Err e => (r, Err e)
      | Ok mounted => (push_routes r mounted, Ok tt)
      end
  end.

(** ** [RouteHandle] methods on the route at [i] *)

Definition alter_route (i : nat) (f : Route -> Route) (r : Router) : Router :=
  mkRouter (alter f i (routes r)) (middlewares r) (index_cell r).

(** [fail_and_remove]: [Vec::remove] at the handle's position. *)
Definition fail_and_remove (r : Router) (i : nat) : Router :=
  mkRouter (delete i (routes r)) (middlewares r) None.

Definition set_middlewares (f : list Middleware -> list Middleware) (layers : nat -> nat)
    (route : Route) : Route :=
  mkRoute (method route) (pattern route) (handler route) (f (route_middlewares route))
    (layers (route_layers route)) (route_kind route) (meta route) (route_name route) (route_host route).
Definition set_meta (f : RouteMeta -> RouteMeta) (route : Route) : Route :=
  mkRoute (method route) (pattern route) (handler route) (route_middlewares route)
    (route_layers route) (route_kind route) (f (meta route)) (route_name route) (route_host route).
Definition set_name (name : str) (route : Route) : Route :=
  mkRoute (method route) (pattern route) (handler route) (route_middlewares route)
    (route_layers route) (route_kind route) (meta route) (Some name) (route_host route).
Definition set_host (host : HostPattern) (route : Route) : Route :=
  mkRoute (method route) (pattern route) (handler route) (route_middlewares route)
    (route_layers route) (route_kind route) (meta route) (route_name route) (Some host).

Definition handle_layer (mw : Middleware) (i : nat) : Router -> Router :=
  alter_route i (set_middlewares (fun l => l ++ [mw]) S).
(** [RouteHandle::timeout] pushes [middleware::timeout(duration)] and leaves
    [route_layers] as it is. *)
Definition handle_timeout (timeout_mw : Middleware) (i : nat) : Router -> Router :=
  alter_route i (set_middlewares (fun l => l ++ [timeout_mw]) id).
Definition handle_body_limit (bytes : Z) (i : nat) : Router -> Router :=
  alter_route i (set_meta (fun m => mkRouteMeta (summary m) (description m) (tags m) (Some bytes))).
Definition handle_summary (s : str) (i : nat) : Router -> Router :=
  alter_route i (set_meta (fun m => mkRouteMeta (Some s) (description m) (tags m) (meta_body_limit m))).
Definition handle_description (s : str) (i : nat) : Router -> Router :=
  alter_route i (set_meta (fun m => mkRouteMeta (summary m) (Some s) (tags m) (meta_body_limit m))).
Definition handle_tag (s : str) (i : nat) : Router -> Router :=
  alter_route i (set_meta (fun m => mkRouteMeta (summary m) (description m) (tags m ++ [s]) (meta_body_limit m))).

(** Whether another route than the one at [i] carries [name]. *)
Definition name_taken (name : str) (i : nat) (rs : list Route) : bool :=
  existsb (fun jr : nat * Route => negb (bool_decide (jr.1 = i)) && has_name name jr.2)
    (imap pair rs).

Definition handle_name (name : str) (i : nat) (r : Router) : Router * result unit RouteError :=
  if name_taken name i (routes r) then (fail_and_remove r i, Err (duplicate_name name))
  else (alter_route i (set_name name) r, Ok tt).

(** [RouteHandle::host]. [None]: the handle does not point at a route, which
    Rust's indexing turns into a panic. *)
Definition handle_host (host : str) (i : nat) (r : Router)
  : option (Router * result unit RouteError) :=
  match host_pattern_parse host with
  | Err e => Some (fail_and_remove r i, Err e)
  | Ok host =>
      match routes r !! i with
      | None => None
      | Some route =>
          match host_update_loop i 0 route host (routes r) with
          | Err e => Some (fail_and_remove r i, Err e)
          | Ok _ =>
              Some (mkRouter (alter (set_host host) i (routes r)) (middlewares r) None, Ok tt)
          end
      end
  end.

(** ** Lookup *)

Definition is_websocket (kind : RouteKind) : bool :=
  match kind with WebSocket _ => true | Http => false end.

Definition matched_route (route : Route) (params : gmap str str) : MatchedRoute :=
  mkMatchedRoute (handler route) (route_middlewares route) params (rendered (pattern route))
    (route_kind route) (meta_body_limit (meta route)).

(** The candidate loop of [resolve_method] and [resolve_http_method]: [skip]
    is the disjunction of their [continue] conditions. [None] is the panic of
    an out-of-range [self.routes[index]]. *)
Fixpoint resolve_loop (rs : list Route) (skip : Route -> bool) (segs : list str)
    (candidates : list nat) : option (option MatchedRoute) :=
  match candidates with
  | [] => Some None
  | index :: candidates =>
      match rs !! index with
      | None => None
      | Some route =>
          if skip route then resolve_loop rs skip segs candidates
          else match match_decoded_pattern (segments (pattern route)) segs with
               | None => resolve_loop rs skip segs candidates
               | Some params => Some (Some (matched_route route params))
               end
      end
  end.

Definition skip_method (method' : str) (host : option str) (route : Route) : bool :=
  negb (host_matches (route_host route) host)
  || (bool_decide (method' = §"HEAD") && negb (bool_decide (method route = method'))
      && is_websocket (route_kind route)).

Definition skip_http (host : option str) (route : Route) : bool :=
  is_websocket (route_kind route) || negb (host_matches (route_host route) host).

Definition resolve_with (skip : Route -> bool) (r : Router) (method' path : str)
  : Router * option (result (option MatchedRoute) RouteMatchError) :=
  match decode_path_segments path with
  | Err e => (r, Some (Err e))
  | Ok segs =>
      let '(r, idx) := router_index r in
      (r, Ok <$> resolve_loop (routes r) skip segs (find_candidates idx method' segs))
  end.

Definition resolve_method (r : Router) (method' path : str) (host : option str) :=
  resolve_with (skip_method method' host) r method' path.
Definition resolve_http_method (r : Router) (method' path : str) (host : option str) :=
  resolve_with (skip_http host) r method' path.

(** The loop of [allowed_methods]. *)
Fixpoint allowed_loop (rs : list Route) (host : option str) (segs : list str)
    (found : list (nat * str)) (methods : list str) : option (list str) :=
  match found with
  | [] => Some methods
  | (index, m) :: found =>
      match rs !! index with
      | None => None
      | Some route =>
          if negb (host_matches (route_host route) host)
             || bool_decide (match_decoded_pattern (segments (pattern route)) segs = None)
          then allowed_loop rs host segs found methods
          else if negb (bool_decide (m = METHOD_ALL)) && negb (bool_decide (m ∈ methods))
          then allowed_loop rs host segs found (methods ++ [m])
          else allowed_loop rs host segs found methods
      end
  end.

Definition allowed_methods (r : Router) (path : str) (host : option str)
  : Router * option (result (list str) RouteMatchError) :=
  match decode_path_segments path with
  | Err e => (r, Some (Err e))
  | Ok segs =>
      let '(r, idx) := router_index r in
      (r, Ok <$> allowed_loop (routes r) host segs (matching_methods idx segs) [])
  end.

Definition pattern_specificity (segs : list Segment) : list nat :=
  map (fun segment => match segment with Static _ => 2 | Param _ => 1 | Wildcard _ => 0 end) segs.

(** [Ord] for [Vec<u8>]: [a < b], lexicographic, a proper prefix is less. *)
Fixpoint vec_ltb (a b : list nat) : bool :=
  match a, b with
  | [], _ :: _ => true
  | _, [] => false
  | x :: a, y :: b => (x <? y)%nat || ((x =? y)%nat && vec_ltb a b)
  end.

(** The loop of [scoped_middlewares]: the best (specificity, index) so far. *)
Fixpoint scoped_loop (rs : list Route) (host : option str) (segs : list str)
    (found : list (nat * str)) (best : option (list nat * nat)) : option (option (list nat * nat)) :=
  match found with
  | [] => Some best
  | (index, m) :: found =>
      match rs !! index with
      | None => None
      | Some route =>
          if bool_decide (m = METHOD_ALL) || negb (host_matches (route_host route) host)
             || bool_decide (match_decoded_pattern (segments (pattern route)) segs = None)
          then scoped_loop rs host segs found best
          else
            let specificity := pattern_specificity (segments (pattern route)) in
            let better := match best with
                          | None => true
                          | Some (current, current_index) =>
                              vec_ltb current specificity
                              || (bool_decide (specificity = current) && (index <? current_index)%nat)
                          end in
            scoped_loop rs host segs found (if better then Some (specificity, index) else best)
      end
  end.

Definition scoped_middlewares (r : Router) (path : str) (host : option str)
  : Router * option (result (list Middleware) RouteMatchError) :=
  match decode_path_segments path with
  | Err e => (r, Some (Err e))
  | Ok segs =>
      let '(r, idx) := router_index r in
      (r, match scoped_loop (routes r) host segs (matching_methods idx segs) None with
          | None => None
          | Some None => Some (Ok [])
          | Some (Some (_, index)) =>
              match routes r !! index with
              | None => None
              | Some route =>
                  let l := route_middlewares route in
                  Some (Ok (take (length l - route_layers route) l))
              end
          end)
  end.

(** [Router::url_for]. *)
Definition url_for (r : Router) (name : str) (pairs : list (str * str))
  : option (result str RouteError) :=
  match List.find (has_name name) (routes r) with
  | None => Some (Err (RouteError_new MissingUrlParameter (§"No existe una ruta con nombre " ++ name)))
  | Some route => build_url (pattern route) pairs
  end.

(** [allow_header_value]. *)
Definition allow_header_value (allowed : list str) (implicit_head : bool) : str :=
  let methods := allowed in
  let methods := if implicit_head && negb (bool_decide (§"HEAD" ∈ methods))
                 then methods ++ [§"HEAD"] else methods in
  let methods := if negb (bool_decide (§"OPTIONS" ∈ methods)) then methods ++ [§"OPTIONS"] else methods in
  join §", " methods.
End router.

Arguments Route : clear implicits.
Arguments Router : clear implicits.
Arguments MatchedRoute : clear implicits.
Arguments RouteKind : clear implicits.
