(* ===== verification/RouterInv.v ===== *)
(** * The router invariant

    [router_ok]: patterns are well formed, no two routes can answer the same
    request shape or share a name, and a cached index is never stale. Every
    registration operation preserves it, on success and on error; so it holds
    in every router a program can build ([reachable]). *)
From S2P Require Import Prelude Strs Percent Pattern Host Url Trie Router.

Section inv.
Context {Handler Middleware WebSocketConfig : Type} `{PercentEncoding}.
Abbreviation Route := (Route Handler Middleware WebSocketConfig).
Abbreviation Router := (Router Handler Middleware WebSocketConfig).

(** Two routes may coexist: different shapes, or disjoint hosts; and different
    names. *)
Definition compatible (a b : Route) : Prop :=
  (method a = method b -> conflict_key (pattern a) = conflict_key (pattern b) ->
   hosts_overlap (route_host a) (route_host b) = false)
  /\ (forall n, route_name a = Some n -> route_name b <> Some n).

Record router_ok (r : Router) : Prop := {
  ok_patterns : Forall (fun route => wf_pattern (pattern route)) (routes r);
  ok_pairs : pairwise compatible (routes r);
  ok_layers : Forall (fun route => route_layers route <= length (route_middlewares route)) (routes r);
  ok_index : index_cell r = None \/ index_cell r = Some (build (route_patterns (routes r)))
}.

Lemma compatible_sym a b : compatible a b -> compatible b a.
Proof.
  intros [H1 H2]. split.
  - intros Hm Hk. rewrite hosts_overlap_sym. by apply H1.
  - intros n Hb Ha. by apply (H2 n).
Qed.

Lemma compatible_both a b : compatible a b -> compatible a b /\ compatible b a.
Proof. auto using compatible_sym. Qed.

Lemma validate_insert_in_Ok rs m p h n :
  validate_insert_in rs m p h n = Ok tt <->
  Forall (fun route : Route =>
    (method route = m -> conflict_key (pattern route) = conflict_key p ->
     hosts_overlap (route_host route) h = false)
    /\ (forall name, n = Some name -> route_name route <> Some name)) rs.
Proof.
  assert (Hc : forall route : Route, conflicts m p h route = false <->
    (method route = m -> conflict_key (pattern route) = conflict_key p ->
     hosts_overlap (route_host route) h = false)).
  { intros route. unfold conflicts. repeat case_bool_decide; cbn; naive_solver. }
  assert (Hn : forall name (route : Route), has_name name route = false <-> route_name route <> Some name).
  { intros. unfold has_name. apply bool_decide_eq_false. }
  rewrite Forall_and. unfold validate_insert_in.
  assert (Hf : (match List.find (conflicts m p h) rs with
            | Some route => Err (conflict_error m p (pattern route))
            | None => Ok tt end = Ok tt) <->
    Forall (fun route => method route = m -> conflict_key (pattern route) = conflict_key p ->
     hosts_overlap (route_host route) h = false) rs).
  { setoid_rewrite <- Hc. rewrite <- find_None. by destruct (List.find _ rs). }
  destruct n as [name|].
  - destruct (existsb (has_name name) rs) eqn:He.
    + split; [done|]. intros [_ Hall]. apply existsb_true_Exists, Exists_exists in He as (x & Hx & He).
      rewrite Forall_forall in Hall. specialize (Hall x Hx name eq_refl).
      apply Hn in Hall. congruence.
    + rewrite Hf. apply existsb_false_Forall in He. split; [|naive_solver]. intros ?. split; [done|].
      eapply Forall_impl; [exact He|]. intros route Hr name' [= <-]. by apply Hn.
  - rewrite Hf. split; [|naive_solver]. intros ?. split; [done|]. apply Forall_forall. naive_solver.
Qed.

(** A validated route is compatible with the routes it was checked against. *)
Lemma validate_insert_compatible rs new :
  validate_insert_in rs (method new) (pattern new) (route_host new) (route_name new) = Ok tt ->
  Forall (fun route => compatible route new /\ compatible new route) rs.
Proof.
  rewrite validate_insert_in_Ok. intros Hv. eapply Forall_impl; [exact Hv|].
  intros route [Hc Hn]. apply compatible_both. split; [auto|]. intros n Hr Hnew. by apply (Hn n).
Qed.

Lemma router_ok_new : router_ok Router_new.
Proof. constructor; cbn; [done|apply pairwise_nil|done|by left]. Qed.

Lemma router_ok_push_one r route :
  router_ok r -> wf_pattern (pattern route) -> route_layers route <= length (route_middlewares route) ->
  Forall (fun x => compatible x route /\ compatible route x) (routes r) ->
  router_ok (push_routes r [route]).
Proof.
  intros [] Hp Hl Hc. constructor; cbn.
  - by apply Forall_app; split; [|apply Forall_singleton].
  - by apply pairwise_snoc.
  - by apply Forall_app; split; [|apply Forall_singleton].
  - by left.
Qed.

(** ** Registration *)

Lemma add_with_kind_Ok (r : Router) m path h k r' i :
  add_with_kind r m path h k = (r', Ok i) ->
  exists p, parse path = Ok p /\ validate_route_insert r m p None None = Ok tt
    /\ i = length (routes r)
    /\ r' = push_routes r [mkRoute m p h [] 0 k RouteMeta_default None None].
Proof.
  unfold add_with_kind. destruct (eq_ignore_ascii_case _ _); [done|].
  destruct (parse path) as [p|]; [|done].
  destruct (validate_route_insert r m p None None) as [[]|] eqn:Hv; [|done].
  intros [= <- <-]. exists p. split_and!; try done. rewrite length_app. simpl. lia.
Qed.

Lemma add_with_kind_Err (r : Router) m path h k r' e :
  add_with_kind r m path h k = (r', Err e) -> r' = r.
Proof.
  unfold add_with_kind. destruct (eq_ignore_ascii_case _ _); [by intros [= <- _]|].
  destruct (parse path) as [p|]; [|by intros [= <- _]].
  destruct (validate_route_insert _ _ _ _ _); [done|by intros [= <- _]].
Qed.

Lemma router_ok_add r m path h k : router_ok r -> router_ok (add_with_kind r m path h k).1.
Proof.
  intros Hr. destruct (add_with_kind r m path h k) as [r' [i|e]] eqn:E; cbn.
  - apply add_with_kind_Ok in E as (p & Hp & Hv & _ & ->).
    apply router_ok_push_one; cbn; [done|by eapply parse_Ok_wf|lia|].
    by apply (validate_insert_compatible _ (mkRoute m p h [] 0 k RouteMeta_default None None)).
  - by apply add_with_kind_Err in E as ->.
Qed.

Lemma router_ok_layer r mw : router_ok r -> router_ok (layer r mw).
Proof. by intros []. Qed.

Lemma router_ok_static_files r prefix options root :
  router_ok r -> router_ok (static_files_with_options r prefix options root).1.
Proof.
  intros Hr. unfold static_files_with_options.
  destruct options; [|done]. destruct root as [h|]; [|done].
  destruct (parse _) as [p|] eqn:Hp; [|done]. apply parse_Ok_wf in Hp.
  destruct (validate_route_insert r §"GET" p None None) as [[]|] eqn:Hg; [|done].
  destruct (validate_route_insert r §"HEAD" p None None) as [[]|] eqn:Hh; [|done]. cbn [fst].
  replace (push_routes r _) with (push_routes (push_routes r [static_route §"GET" p h]) [static_route §"HEAD" p h])
    by (unfold push_routes; cbn; by rewrite <- app_assoc).
  apply router_ok_push_one; cbn; [|done|lia|].
  - apply router_ok_push_one; cbn; [done|done|lia|].
    by apply (validate_insert_compatible _ (static_route §"GET" p h)).
  - apply Forall_app. split.
    + by apply (validate_insert_compatible _ (static_route §"HEAD" p h)).
    + apply Forall_singleton. by apply compatible_both.
Qed.

(** ** Mounting *)

Lemma mount_loop_Ok (r : Router) prefix scoped others mounted res :
  wf_pattern prefix -> Forall (fun route : Route => wf_pattern (pattern route)) others ->
  mount_loop r prefix scoped others mounted = Ok res ->
  exists new, res = mounted ++ new
    /\ Forall2 (fun (o n : Route) => exists p, pattern_join prefix (pattern o) = Ok p
                 /\ n = mounted_route scoped p o) others new
    /\ Forall (fun n => Forall (fun x => compatible x n /\ compatible n x) (routes r)) new
    /\ (pairwise compatible mounted -> pairwise compatible res).
Proof.
  intros Hpre. revert mounted. induction others as [|o others IH]; intros mounted Hwf; cbn.
  { intros [= <-]. exists []. by rewrite app_nil_r. }
  apply Forall_cons in Hwf as [Ho Hwf].
  destruct (pattern_join prefix (pattern o)) as [p|] eqn:Hj; [|done].
  destruct (validate_route_insert _ _ _ _ _) as [[]|] eqn:Hv; [|done].
  destruct (validate_route_batch_insert _ _ _ _ _) as [[]|] eqn:Hb; [|done].
  apply (validate_insert_compatible _ (mounted_route scoped p o)) in Hv, Hb.
  intros (new & -> & Hf & Hc & Hp)%IH; [|done].
  exists (mounted_route scoped p o :: new). rewrite <- app_assoc. split_and!; [done| |by constructor|].
  - constructor; [|done]. eauto.
  - intros Hm. rewrite app_assoc. apply Hp. by apply pairwise_snoc.
Qed.

Lemma router_ok_mount r prefix other :
  router_ok r -> router_ok other -> router_ok (mount r prefix other).1.
Proof.
  intros Hr Ho. unfold mount. destruct (parse prefix) as [pre|] eqn:Hpre; [|done].
  apply parse_Ok_wf in Hpre.
  destruct (mount_loop _ _ _ _ _) as [res|] eqn:Hm; [|done]. cbn [fst].
  apply mount_loop_Ok in Hm as (new & Hres & Hf & Hc & Hp); [|done|apply Ho].
  cbn in Hres. subst res. destruct Hr, Ho.
  assert (Hnew : Forall (fun n => wf_pattern (pattern n)
                          /\ route_layers n <= length (route_middlewares n)) new).
  { apply Forall_lookup. intros i n Hn.
    destruct (Forall2_lookup_r _ _ _ _ _ Hf Hn) as (o & Hio & p & Hj & ->). cbn.
    rewrite Forall_lookup in ok_patterns1, ok_layers1.
    apply pattern_join_Ok in Hj as [? _]; [|done|by eapply ok_patterns1].
    specialize (ok_layers1 _ _ Hio). rewrite length_app. split; [done|lia]. }
  apply Forall_and in Hnew as [Hw Hl]. constructor; cbn.
  - by apply Forall_app.
  - apply pairwise_app; [done|by apply Hp, pairwise_nil|]. intros a b Ha Hb.
    rewrite Forall_forall in Hc. specialize (Hc b Hb). by rewrite Forall_forall in Hc; apply Hc.
  - by apply Forall_app.
  - by left.
Qed.

(** ** Handle operations *)

Lemma router_ok_alter r i f :
  router_ok r ->
  (forall a, method (f a) = method a /\ pattern (f a) = pattern a /\ route_host (f a) = route_host a
             /\ route_name (f a) = route_name a
             /\ (route_layers a <= length (route_middlewares a) ->
                 route_layers (f a) <= length (route_middlewares (f a)))) ->
  router_ok (alter_route i f r).
Proof.
  intros [Hw Hp Hl Hi] Hf. constructor; cbn.
  - apply Forall_alter_le; [done|]. intros a. by destruct (Hf a) as (_ & -> & _).
  - apply pairwise_alter; [done|]. intros a j b Ha Hj Hb. apply compatible_both.
    destruct (Hf a) as (Hm & Hpat & Hh & Hn & _). unfold compatible. rewrite Hm, Hpat, Hh, Hn.
    by apply (Hp i j a b).
  - apply Forall_alter_le; [done|]. intros a. by destruct (Hf a) as (_ & _ & _ & _ & ?).
  - unfold route_patterns. rewrite map_alter_same; [done|].
    intros a. by destruct (Hf a) as (-> & -> & _).
Qed.

Lemma router_ok_remove r i : router_ok r -> router_ok (fail_and_remove r i).
Proof.
  intros [Hw Hp Hl _]. constructor; cbn; [by apply Forall_delete|by apply pairwise_delete|by apply Forall_delete|by left].
Qed.

Lemma name_taken_false name i (rs : list Route) :
  name_taken name i rs = false ->
  forall j b, j <> i -> rs !! j = Some b -> route_name b <> Some name.
Proof.
  unfold name_taken. rewrite existsb_false_Forall, Forall_forall. intros Hf j b Hj Hb Hn.
  specialize (Hf (j, b) (elem_of_lookup_imap_2 _ _ _ _ Hb)). cbn in Hf.
  rewrite bool_decide_eq_false_2 in Hf by done. unfold has_name in Hf. by rewrite bool_decide_eq_true_2 in Hf.
Qed.

Lemma router_ok_name r name i : router_ok r -> router_ok (handle_name name i r).1.
Proof.
  intros Hr. unfold handle_name. destruct (name_taken _ _ _) eqn:Ht; [by apply router_ok_remove|].
  destruct Hr as [Hw Hp Hl Hi]. constructor; cbn.
  - by apply Forall_alter_le.
  - apply pairwise_alter; [done|]. intros a j b Ha Hj Hb. apply compatible_both. split; cbn.
    + apply (Hp i j a b); done.
    + intros n [= <-]. by eapply name_taken_false.
  - by apply Forall_alter_le.
  - unfold route_patterns. by rewrite map_alter_same.
Qed.

Lemma host_update_loop_Ok i pos (route : Route) host rs :
  host_update_loop i pos route host rs = Ok tt ->
  forall j b, rs !! j = Some b -> pos + j <> i -> method b = method route ->
    conflict_key (pattern b) = conflict_key (pattern route) ->
    hosts_overlap (route_host b) (Some host) = false.
Proof.
  revert pos. induction rs as [|other rs IH]; intros pos; [by intros _ j b Hj; rewrite lookup_nil in Hj|].
  cbn [host_update_loop]. intros Hl [|j] b Hb Hne Hm Hk.
  - injection Hb as ->. rewrite bool_decide_eq_false_2 in Hl by lia.
    rewrite !bool_decide_eq_true_2 in Hl by done. cbn in Hl.
    by destruct (hosts_overlap (route_host b) (Some host)).
  - destruct (_ || _) in Hl; [|done]. eapply IH; [exact Hl|exact Hb| |done|done]. lia.
Qed.

Lemma router_ok_host r host i r' res :
  router_ok r -> handle_host host i r = Some (r', res) -> router_ok r'.
Proof.
  intros Hr. unfold handle_host.
  destruct (host_pattern_parse host) as [h|]; [|intros [= <- _]; by apply router_ok_remove].
  destruct (routes r !! i) as [route|] eqn:Hi; [|done].
  destruct (host_update_loop _ _ _ _ _) as [[]|] eqn:Hu; [|intros [= <- _]; by apply router_ok_remove].
  intros [= <- _]. destruct Hr as [Hw Hp Hl _]. constructor; cbn.
  - by apply Forall_alter_le.
  - apply pairwise_alter; [done|]. intros a j b Ha Hj Hb. rewrite Hi in Ha. injection Ha as <-.
    apply compatible_both, compatible_sym. split; cbn.
    + intros Hm Hk. by eapply host_update_loop_Ok.
    + by apply (Hp j i b route).
  - by apply Forall_alter_le.
  - by left.
Qed.

(** ** Reachable routers *)

(** Everything a program can do with routers: create, register, layer, serve
    static files, mount one into another, configure a registered route, and
    look up (which may fill the index cell). *)
Inductive reachable : Router -> Prop :=
| reach_new : reachable Router_new
| reach_add r m path h k : reachable r -> reachable (add_with_kind r m path h k).1
| reach_layer r mw : reachable r -> reachable (layer r mw)
| reach_static r prefix options root :
    reachable r -> reachable (static_files_with_options r prefix options root).1
| reach_mount r prefix other : reachable r -> reachable other -> reachable (mount r prefix other).1
| reach_handle_layer r i mw : reachable r -> reachable (handle_layer mw i r)
| reach_handle_timeout r i mw : reachable r -> reachable (handle_timeout mw i r)
| reach_handle_body_limit r i n : reachable r -> reachable (handle_body_limit n i r)
| reach_handle_summary r i s : reachable r -> reachable (handle_summary s i r)
| reach_handle_description r i s : reachable r -> reachable (handle_description s i r)
| reach_handle_tag r i s : reachable r -> reachable (handle_tag s i r)
| reach_handle_name r i n : reachable r -> reachable (handle_name n i r).1
| reach_handle_host r i host r' res :
    reachable r -> handle_host host i r = Some (r', res) -> reachable r'
| reach_lookup r : reachable r -> reachable (router_index r).1.

Lemma router_index_spec r :
  router_ok r ->
  (router_index r).2 = build (route_patterns (routes r))
  /\ routes (router_index r).1 = routes r
  /\ index_cell (router_index r).1 = Some (build (route_patterns (routes r)))
  /\ router_ok (router_index r).1.
Proof.
  intros Hr. unfold router_index. destruct (ok_index _ Hr) as [E|E]; rewrite E; cbn; [|done].
  split_and!; try done. destruct Hr. constructor; cbn; auto.
Qed.

Lemma reachable_ok r : reachable r -> router_ok r.
Proof.
  induction 1.
  - apply router_ok_new.
  - by apply router_ok_add.
  - by apply router_ok_layer.
  - by apply router_ok_static_files.
  - by apply router_ok_mount.
  - apply router_ok_alter; [done|]. intros a; cbn. split_and!; try done. rewrite length_app. cbn. lia.
  - apply router_ok_alter; [done|]. intros a; cbn. split_and!; try done. rewrite length_app. cbn. lia.
  - apply router_ok_alter; [done|]. by intros a.
  - apply router_ok_alter; [done|]. by intros a.
  - apply router_ok_alter; [done|]. by intros a.
  - apply router_ok_alter; [done|]. by intros a.
  - by apply router_ok_name.
  - by eapply router_ok_host.
  - by apply router_index_spec.
Qed.
End inv.
