(* ===== verification/RouterLookup.v ===== *)
(** * What the lookups of a reachable router return

    Resolution finds a route exactly when some registered route is eligible
    for the request, and then the one that comes first in routing precedence;
    the [Allow] list is the reference computation over the route table; two
    findings about [scoped_middlewares] are proved on concrete routers. *)
From S2P Require Import Prelude Strs Percent Pattern Host Url Trie Router RouterInv.

(** How a registered method serves a request method: by itself (0), as a [GET]
    for [HEAD] (1), as an [all()] route (2). *)
Definition method_class (m entry : str) : option nat :=
  if bool_decide (entry = m) then Some 0
  else if bool_decide (m = §"HEAD" /\ entry = §"GET") then Some 1
  else if bool_decide (entry = METHOD_ALL) then Some 2
  else None.

Lemma pushes_class m entry c : pushes m entry c -> exists c', method_class m entry = Some c' /\ c' <= c.
Proof.
  unfold pushes, method_class. repeat case_bool_decide; naive_solver lia.
Qed.

Lemma class_pushes m entry c : method_class m entry = Some c -> pushes m entry c.
Proof. unfold pushes, method_class. repeat case_bool_decide; naive_solver. Qed.

Lemma key_lt_irrefl k : ~ key_lt k k.
Proof. induction k as [|x k IH]; cbn; [tauto|]. intros [?|[_ ?]]; [lia|done]. Qed.

Lemma key_lt_asym a b : key_lt a b -> key_lt b a -> False.
Proof.
  revert b. induction a as [|x a IH]; intros [|y b]; cbn; [tauto|tauto|tauto|].
  intros [?|[-> ?]] [?|[? ?]]; try lia. by eapply IH.
Qed.

Lemma cand_lt_asym x y : cand_lt x y -> cand_lt y x -> False.
Proof.
  unfold cand_lt. intros [H1|[E1 H1]] [H2|[E2 H2]].
  - by eapply key_lt_asym.
  - rewrite E2 in H1. by eapply key_lt_irrefl.
  - rewrite E1 in H2. by eapply key_lt_irrefl.
  - lia.
Qed.

Section lookup.
Context {Handler Middleware WebSocketConfig : Type} `{PercentEncoding}.
Abbreviation Route := (Route Handler Middleware WebSocketConfig).
Abbreviation Router := (Router Handler Middleware WebSocketConfig).

(** The precedence of the route at [i] for a request method. *)
Definition rank (m : str) (i : nat) (route : Route) : option (list nat * nat * nat) :=
  (fun c => (route_key (segments (pattern route)), c, i)) <$> method_class m (method route).

(** A route that may answer: its method serves the request's, its pattern
    matches the path, and the lookup does not skip it. *)
Definition eligible (skip : Route -> bool) (m : str) (segs : list str) (route : Route) : Prop :=
  is_Some (method_class m (method route))
  /\ pattern_matches (segments (pattern route)) segs = true
  /\ skip route = false.

Lemma route_patterns_lookup (rs : list Route) i m p :
  route_patterns rs !! i = Some (m, p) <->
  exists route, rs !! i = Some route /\ m = method route /\ p = segments (pattern route).
Proof.
  unfold route_patterns. change (map ?f rs) with (f <$> rs).
  rewrite list_lookup_fmap, fmap_Some. naive_solver.
Qed.

(** The candidates of the trie, in terms of the route table. *)
Lemma search_routes (rs : list Route) m segs k c i :
  (k, c, i) ∈ search m segs (root (build (route_patterns rs))) <->
  exists route, rs !! i = Some route /\ pattern_matches (segments (pattern route)) segs = true
    /\ k = route_key (segments (pattern route)) /\ pushes m (method route) c.
Proof.
  rewrite search_elem. setoid_rewrite matching_entries_build.
  setoid_rewrite route_patterns_lookup. naive_solver.
Qed.

(** The candidate loop returns the first candidate it does not skip. *)
Lemma resolve_loop_first (rs : list Route) skip segs cands :
  Forall (fun i => exists route, rs !! i = Some route
            /\ pattern_matches (segments (pattern route)) segs = true) cands ->
  (Forall (fun i => exists route, rs !! i = Some route /\ skip route = true) cands
   /\ resolve_loop rs skip segs cands = Some None)
  \/ exists pre i post route params,
       cands = pre ++ i :: post
       /\ Forall (fun i => exists route, rs !! i = Some route /\ skip route = true) pre
       /\ rs !! i = Some route /\ skip route = false
       /\ match_decoded_pattern (segments (pattern route)) segs = Some params
       /\ resolve_loop rs skip segs cands = Some (Some (matched_route route params)).
Proof.
  induction 1 as [|i cands (route & Hi & Hm) _ IH]; [left; split; [done|done]|]. cbn.
  rewrite Hi. destruct (skip route) eqn:Hs.
  - destruct IH as [[Hall ->]|(pre & j & post & route' & params & -> & Hpre & Hrest)].
    + left. split; [|done]. constructor; eauto.
    + right. exists (i :: pre), j, post, route', params. split; [done|].
      split; [constructor; eauto|done].
  - apply match_decoded_pattern_is_Some in Hm as [params Hp]. rewrite Hp.
    right. exists [], i, cands, route, params. by split_and!.
Qed.

(** [resolve_with] on a well-formed router: the best eligible route, if any. *)
Lemma resolve_with_best (r : Router) skip m path segs :
  router_ok r -> decode_path_segments path = Ok segs ->
  exists res, (resolve_with skip r m path).2 = Some (Ok res) /\
  match res with
  | None => forall i route, routes r !! i = Some route -> ~ eligible skip m segs route
  | Some found => exists i route params x,
      routes r !! i = Some route /\ eligible skip m segs route
      /\ match_decoded_pattern (segments (pattern route)) segs = Some params
      /\ found = matched_route route params /\ rank m i route = Some x
      /\ forall j other y, routes r !! j = Some other -> eligible skip m segs other ->
         rank m j other = Some y -> j = i \/ cand_lt x y
  end.
Proof.
  intros Hr Hseg. unfold resolve_with. rewrite Hseg.
  destruct (router_index_spec _ Hr) as (Hidx & Hroutes & _ & _).
  destruct (router_index r) as [r' idx]; cbn [fst snd] in *. rewrite Hroutes, Hidx.
  rewrite find_candidates_search.
  pose proof (search_build_sorted m segs (route_patterns (routes r))) as Hsorted.
  pose proof (search_routes (routes r) m segs) as Hin.
  set (L := search m segs (root (build (route_patterns (routes r))))) in *.
  assert (HL : forall j other c, routes r !! j = Some other -> eligible skip m segs other ->
    method_class m (method other) = Some c ->
    (route_key (segments (pattern other)), c, j) ∈ L).
  { intros j other c Hj (_ & Hm & _) Hc. apply Hin. exists other. auto using class_pushes. }
  destruct (resolve_loop_first (routes r) skip segs (map snd L)) as [[Hall ->]|Hfirst].
  { apply Forall_fmap, Forall_forall. intros [[k c] i] (route & ? & ? & _)%Hin. by exists route. }
  - exists None. split; [done|]. intros j other Hj Hel.
    destruct (proj1 Hel) as [c Hc]. pose proof (HL _ _ _ Hj Hel Hc) as Hinj.
    apply (Forall_fmap _ _ L) in Hall. rewrite Forall_forall in Hall.
    destruct (Hall _ Hinj) as (route & Hroute & Hskip). destruct Hel as (_ & _ & ?). cbn in *. congruence.
  - destruct Hfirst as (pre & i & post & route & params & Hsplit & Hpre & Hi & Hskip & Hparams & ->).
    exists (Some (matched_route route params)). split; [done|].
    apply List.map_eq_app in Hsplit as (L1 & L2 & HLe & HL1 & HL2).
    destruct L2 as [|[[k c] i'] L2]; [done|]. cbn in HL2. injection HL2 as -> HL2.
    assert (Hx : (k, c, i) ∈ L) by (rewrite HLe; set_solver).
    apply Hin in Hx as (route0 & Hi0 & Hm & Hk & Hc). rewrite Hi in Hi0. injection Hi0 as <-.
    (* every non-skipped candidate is the first one or comes after it *)
    assert (Hafter : forall y other, y ∈ L -> routes r !! y.2 = Some other -> skip other = false ->
              y = (k, c, i) \/ cand_lt (k, c, i) y).
    { intros y other Hy Hother Hns. rewrite HLe in Hy, Hsorted.
      eapply sorted_split_after; [done|done|]. intros Hy1. rewrite Forall_forall in Hpre.
      destruct (Hpre y.2) as (o & Ho & Hso); [|congruence].
      rewrite <- HL1. by apply list_elem_of_fmap_2. }
    destruct (pushes_class _ _ _ Hc) as (c' & Hc' & Hle).
    assert (Hel : eligible skip m segs route) by (split_and!; eauto).
    assert (c = c') as <-.
    { destruct (Hafter _ _ (HL _ _ _ Hi Hel Hc') Hi Hskip) as [E|Hlt]; [congruence|].
      destruct (decide (c' < c)) as [Hlt'|]; [|lia]. exfalso. eapply cand_lt_asym; [exact Hlt|].
      right. cbn. subst k. auto. }
    exists i, route, params, (k, c, i). split_and!; try done.
    + unfold rank. rewrite Hc'. cbn. by rewrite Hk.
    + intros j other y Hj Helj Hy. unfold rank in Hy. apply fmap_Some in Hy as (cj & Hcj & ->).
      destruct (Hafter _ _ (HL _ _ _ Hj Helj Hcj) Hj ltac:(apply Helj)) as [E|Hlt]; [left; congruence|by right].
Qed.

(** ** The methods of a path *)

(** The routes whose pattern matches the path and whose host admits the
    request. *)
Definition reaches (host : option str) (segs : list str) (route : Route) : bool :=
  host_matches (route_host route) host && pattern_matches (segments (pattern route)) segs.

(** First occurrences only. *)
Definition add_method (methods : list str) (route : Route) : list str :=
  if bool_decide (method route = METHOD_ALL) || bool_decide (method route ∈ methods)
  then methods else methods ++ [method route].

(** The reference: walk the route table in registration order. *)
Definition allowed_reference (rs : list Route) (host : option str) (segs : list str) : list str :=
  foldl add_method [] (List.filter (reaches host segs) rs).

Lemma pattern_matches_None (p : list Segment) segs :
  match_decoded_pattern p segs = None <-> pattern_matches p segs = false.
Proof.
  rewrite <- not_true_iff_false, <- match_decoded_pattern_is_Some, <- eq_None_not_Some. done.
Qed.

Lemma expected_entries_index patterns segs index x :
  x ∈ expected_entries index patterns segs -> index <= x.2.
Proof. destruct x as [[k m] i]. by intros (p & ? & _)%expected_entries_elem. Qed.

Lemma expected_entries_sorted patterns segs index :
  StronglySorted index_le (map entry_route (expected_entries index patterns segs)).
Proof.
  revert index. induction patterns as [|[m p] ps IH]; intros index; [constructor|]. cbn.
  destruct (pattern_matches p segs); cbn [app map]; [|apply IH].
  apply StronglySorted_cons. split; [|apply IH]. apply Forall_fmap, Forall_forall.
  intros x Hx%expected_entries_index. unfold index_le. cbn. lia.
Qed.

(** [matching_methods] lists the matching routes in registration order. *)
Lemma matching_methods_exact patterns segs :
  matching_methods (build patterns) segs = map entry_route (expected_entries 0 patterns segs).
Proof.
  assert (Hperm : matching_methods (build patterns) segs ≡ₚ map entry_route (expected_entries 0 patterns segs)).
  { rewrite matching_methods_Permutation. cbn [root build].
    by rewrite matching_entries_build_from, matching_entries_default, app_nil_r. }
  eapply StronglySorted_unique_strong; [|apply matching_methods_sorted|apply expected_entries_sorted|done].
  intros [i m] [j n] H1 H2. rewrite <- Hperm in H2. unfold index_le. cbn. intros Hij Hji.
  assert (i = j) as <- by lia.
  apply matching_methods_elem in H1 as (p & Hp & _), H2 as (q & Hq & _). congruence.
Qed.

Lemma allowed_loop_reference (rs : list Route) host segs :
  forall rest index methods,
    drop index rs = rest ->
    allowed_loop rs host segs (map entry_route (expected_entries index (route_patterns rest) segs)) methods
    = Some (foldl add_method methods (List.filter (reaches host segs) rest)).
Proof.
  induction rest as [|route rest IH]; intros index methods Hd; [done|].
  apply drop_cons_inv in Hd as [Hi Hd]. cbn [route_patterns map expected_entries List.filter].
  unfold reaches at 1. destruct (pattern_matches (segments (pattern route)) segs) eqn:Hm.
  - rewrite andb_true_r. cbn [app map entry_route fst snd allowed_loop]. rewrite Hi.
    rewrite (bool_decide_eq_false_2 (match_decoded_pattern _ _ = None))
      by (rewrite pattern_matches_None; congruence).
    rewrite orb_false_r. destruct (host_matches (route_host route) host); cbn [negb foldl].
    + unfold add_method at 2. rewrite <- negb_orb.
      destruct (bool_decide _ || bool_decide _); cbn [negb]; by apply IH.
    + by apply IH.
  - rewrite andb_false_r. by apply IH.
Qed.

Lemma allowed_methods_reference (r : Router) path host segs :
  router_ok r -> decode_path_segments path = Ok segs ->
  (allowed_methods r path host).2 = Some (Ok (allowed_reference (routes r) host segs)).
Proof.
  intros Hr Hseg. unfold allowed_methods. rewrite Hseg.
  destruct (router_index_spec _ Hr) as (Hidx & Hroutes & _ & _).
  destruct (router_index r) as [r' idx]; cbn [fst snd] in *. rewrite Hroutes, Hidx, matching_methods_exact.
  by rewrite (allowed_loop_reference (routes r) host segs (routes r) 0 []).
Qed.

Lemma add_method_elem methods route m :
  m ∈ add_method methods route <-> m ∈ methods \/ (m = method route /\ m <> METHOD_ALL).
Proof. unfold add_method. repeat case_bool_decide; cbn; set_solver. Qed.

Lemma add_method_NoDup methods route : NoDup methods -> NoDup (add_method methods route).
Proof.
  unfold add_method. repeat case_bool_decide; cbn; [done..|]. intros Hn.
  apply NoDup_app. split_and!; [done|set_solver|apply NoDup_singleton].
Qed.

Lemma foldl_add_method_elem (l : list Route) methods m :
  m ∈ foldl add_method methods l <->
  m ∈ methods \/ exists route, route ∈ l /\ m = method route /\ m <> METHOD_ALL.
Proof.
  revert methods. induction l as [|route l IH]; intros methods; cbn; [set_solver|].
  rewrite IH, add_method_elem. set_solver.
Qed.

Lemma foldl_add_method_NoDup (l : list Route) methods :
  NoDup methods -> NoDup (foldl add_method methods l).
Proof. revert methods. induction l as [|route l IH]; intros methods Hn; cbn; [done|]. by apply IH, add_method_NoDup. Qed.
End lookup.

(** ** Properties *)

Section properties.
Context {Handler Middleware WebSocketConfig : Type} `{PercentEncoding}.
Abbreviation Router := (Router Handler Middleware WebSocketConfig).

(** A route that may answer a request: it is registered for its method, for
    [GET] when the request is [HEAD], or for every method; its pattern matches
    the path, its host constraint the host; and a [HEAD] request reaches a WebSocket
    route only when that was registered for [HEAD]. *)
Definition may_answer (m : str) (host : option str) (segs : list str)
    (route : Route Handler Middleware WebSocketConfig) : Prop :=
  is_Some (method_class m (method route))
  /\ pattern_matches (segments (pattern route)) segs = true
  /\ host_matches (route_host route) host = true
  /\ (m = §"HEAD" -> method route = §"HEAD" \/ is_websocket (route_kind route) = false).

Lemma eligible_may_answer m host segs route :
  eligible (skip_method m host) m segs route <-> may_answer m host segs route.
Proof.
  unfold eligible, may_answer, skip_method. rewrite orb_false_iff, negb_false_iff.
  destruct (is_websocket (route_kind route)); [|rewrite andb_false_r; naive_solver]. rewrite andb_true_r.
  repeat case_bool_decide; cbn; naive_solver congruence.
Qed.

(** C1. Route resolution is sound, complete and precedence-correct: on every
    router a program can build and every path that decodes, [resolve_method]
    returns (it never panics on a stale index); it returns [None] exactly when
    no registered route is eligible for the method, path and host, and
    otherwise the eligible route that comes first in routing order (static
    before parameter before wildcard, segment by segment; own method before
    [GET]-for-[HEAD] before [all()]; earlier registration first), with the
    parameters its pattern captures. *)
Theorem resolve_method_best (r : Router) m path host segs :
  reachable r -> decode_path_segments path = Ok segs ->
  exists res, (resolve_method r m path host).2 = Some (Ok res) /\
  match res with
  | None => forall i route, routes r !! i = Some route -> ~ may_answer m host segs route
  | Some found => exists i route params x,
      routes r !! i = Some route /\ may_answer m host segs route
      /\ match_decoded_pattern (segments (pattern route)) segs = Some params
      /\ found = matched_route route params /\ rank m i route = Some x
      /\ forall j other y, routes r !! j = Some other ->
         may_answer m host segs other ->
         rank m j other = Some y -> j = i \/ cand_lt x y
  end.
Proof.
  intros Hr Hs. destruct (resolve_with_best r (skip_method m host) m path segs (reachable_ok r Hr) Hs) as (res & E & Hres).
  exists res. split; [done|]. destruct res as [found|].
  - destruct Hres as (i & route & params & x & ? & He & ? & ? & ? & Hbest). exists i, route, params, x.
    split_and!; try done; [by apply eligible_may_answer|]. intros j other y Hj He'. apply Hbest; [done|].
    by apply eligible_may_answer.
  - intros i route Hi Hm. apply (Hres i route Hi). by apply eligible_may_answer.
Qed.

(** Implicit-[HEAD] lookup never selects a WebSocket route:
    [resolve_http_method] returns the best eligible ordinary HTTP route, and
    [None] only when there is none. *)
Theorem resolve_http_method_ordinary (r : Router) m path host segs :
  reachable r -> decode_path_segments path = Ok segs ->
  exists res, (resolve_http_method r m path host).2 = Some (Ok res) /\
  match res with
  | None => forall i route, routes r !! i = Some route ->
      host_matches (route_host route) host = true ->
      pattern_matches (segments (pattern route)) segs = true ->
      is_Some (method_class m (method route)) -> is_websocket (route_kind route) = true
  | Some found => matched_kind found = Http /\ exists i route params,
      routes r !! i = Some route /\ found = matched_route route params
      /\ host_matches (route_host route) host = true
      /\ match_decoded_pattern (segments (pattern route)) segs = Some params
  end.
Proof.
  intros Hr Hs. destruct (resolve_with_best r (skip_http host) m path segs) as (res & Hres & Hspec);
    [by apply reachable_ok|done|]. exists res. split; [done|]. destruct res as [found|].
  - destruct Hspec as (i & route & params & x & Hi & (_ & _ & Hskip) & Hp & -> & _).
    unfold skip_http in Hskip. bsplit. cbn. split.
    + by destruct (route_kind route).
    + by exists i, route, params.
  - intros i route Hi Hh Hm Hc. destruct (is_websocket (route_kind route)) eqn:Hw; [done|].
    destruct (Hspec i route Hi). split_and!; [done|done|]. unfold skip_http. by rewrite Hw, Hh.
Qed.

(** C2. Registration never admits ambiguity: in every reachable router the
    route table is well formed, names are unique, the cached index is never
    stale, and no request host is admitted by two different routes of the same
    method and parameter-independent shape. *)
Theorem registration_invariant (r : Router) :
  reachable r ->
  router_ok r /\
  forall i j a b host, i <> j -> routes r !! i = Some a -> routes r !! j = Some b ->
    method a = method b -> conflict_key (pattern a) = conflict_key (pattern b) ->
    host_matches (route_host a) host = true -> host_matches (route_host b) host = true -> False.
Proof.
  intros Hr%reachable_ok. split; [done|]. intros i j a b host Hne Hi Hj Hm Hk Ha Hb.
  destruct (ok_pairs _ Hr i j a b Hne Hi Hj) as [Hc _]. specialize (Hc Hm Hk).
  rewrite (hosts_overlap_request _ _ _ Ha Hb) in Hc. done.
Qed.

(** The [Allow] list: on every reachable router and decodable path,
    [allowed_methods] returns the distinct concrete methods of the routes that
    match the path and host, without duplicates and without [*], in
    registration order (the fold over the route table). *)
Theorem allowed_methods_exact (r : Router) path host segs :
  reachable r -> decode_path_segments path = Ok segs ->
  exists l, (allowed_methods r path host).2 = Some (Ok l)
    /\ l = allowed_reference (routes r) host segs /\ NoDup l
    /\ forall m, m ∈ l <-> m <> METHOD_ALL /\ exists i route, routes r !! i = Some route
         /\ reaches host segs route = true /\ method route = m.
Proof.
  intros Hr%reachable_ok Hs. exists (allowed_reference (routes r) host segs).
  rewrite (allowed_methods_reference _ _ _ _ Hr Hs). split_and!; [done|done| |].
  - apply foldl_add_method_NoDup. constructor.
  - intros m. unfold allowed_reference. rewrite foldl_add_method_elem.
    setoid_rewrite elem_of_filter_bool. rewrite elem_of_nil.
    setoid_rewrite list_elem_of_lookup. naive_solver.
Qed.

(** Mounting is all or nothing and composes patterns: on error the router
    is unchanged; on success exactly the sub-router's routes are appended, in
    order, each with the prefix's segments in front of its own, the
    sub-router's middlewares wrapped outside its own chain, and its method,
    handler, name, host and metadata kept. *)
Theorem mount_effect (r other r' : Router) prefix res :
  reachable r -> reachable other -> mount r prefix other = (r', res) ->
  match res with
  | Err _ => r' = r
  | Ok _ => exists pre new, parse prefix = Ok pre /\ routes r' = routes r ++ new
      /\ Forall2 (fun o n => segments (pattern n) = segments pre ++ segments (pattern o)
           /\ route_middlewares n = middlewares other ++ route_middlewares o
           /\ n = mounted_route (middlewares other) (pattern n) o) (routes other) new
  end.
Proof.
  intros _ Ho%reachable_ok. unfold mount. destruct (parse prefix) as [pre|] eqn:Hpre; [|by intros [= <- <-]].
  destruct (mount_loop _ _ _ _ _) as [mounted|] eqn:Hm; [|by intros [= <- <-]]. intros [= <- <-].
  pose proof (parse_Ok_wf _ _ Hpre) as Hwf.
  apply mount_loop_Ok in Hm as (new & Hres & Hf & _); [|done|apply Ho]. cbn in Hres. subst mounted.
  exists pre, new. split_and!; [done|done|]. pose proof (ok_patterns _ Ho) as Hpats.
  apply Forall2_same_length_lookup. split; [by eapply Forall2_length|].
  intros i o n Hi Hn. destruct (Forall2_lookup_lr _ _ _ _ _ _ Hf Hi Hn) as (p & Hj & ->).
  rewrite Forall_lookup in Hpats. apply pattern_join_Ok in Hj as [_ Hseg]; [|done|by eapply Hpats]. done.
Qed.

(** A registration that fails while it is being configured is rolled
    back: when naming or host-constraining a just-added route is rejected, the
    route table is the one before the registration. *)
Theorem failed_configuration_rolls_back (r r1 : Router) m path h k i :
  add_with_kind r m path h k = (r1, Ok i) ->
  (forall name r2 e, handle_name name i r1 = (r2, Err e) -> routes r2 = routes r)
  /\ (forall host r2 e, handle_host host i r1 = Some (r2, Err e) -> routes r2 = routes r).
Proof.
  intros (p & _ & _ & -> & ->)%add_with_kind_Ok. set (r1 := push_routes _ _).
  assert (Hdel : routes (fail_and_remove r1 (length (routes r))) = routes r).
  { cbn. by rewrite delete_middle, app_nil_r. }
  split.
  - intros name r2 e. unfold handle_name. destruct (name_taken _ _ _); [|done]. by intros [= <- _].
  - intros host r2 e. unfold handle_host. destruct (host_pattern_parse host); [|by intros [= <- _]].
    destruct (routes r1 !! length (routes r)); [|done].
    destruct (host_update_loop _ _ _ _ _); [done|]. by intros [= <- _].
Qed.
End properties.

(** ** Concrete routers: witnesses and findings *)

Module Demo.
#[local] Existing Instance reference_percent_encoding.
Abbreviation R := (Router nat nat unit).

Definition get (path : string) (h : nat) (r : R) : R :=
  (add_with_kind r §"GET" (lit path) h Http).1.

(** [/users/:id], [/users/me] and an [all()] fallback. *)
Definition users : R := (fallback (get "/users/me" 2 (get "/users/:id" 1 Router_new)) 3).1.

(** Two sub-routers with their own middleware (1 and 2) mounted at the root:
    one serves [/a], the other everything below [/a]. *)
Definition sub (path : string) (mw : nat) : R := layer (get path mw Router_new) mw.
Definition nested : R :=
  (mount (mount Router_new §"/" (sub "/a" 1)).1 §"/" (sub "/a/*rest" 2)).1.

(** One route with a route-level layer (7) and then a route timeout (8). *)
Definition timed : R := handle_timeout 8 0 (handle_layer 7 0 (get "/x" 0 Router_new)).

Lemma users_reachable : reachable users.
Proof. unfold users, fallback, add, get. repeat constructor. Defined.
Lemma nested_reachable : reachable nested.
Proof. unfold nested, sub, get. repeat constructor. Defined.
Lemma timed_reachable : reachable timed.
Proof. unfold timed, get. repeat constructor. Defined.
End Demo.

Lemma resolve_method_best_witness :
  exists res, (resolve_method (H := reference_percent_encoding) Demo.users §"HEAD" §"/users/me" None).2
              = Some (Ok res).
Proof.
  destruct (@resolve_method_best _ _ _ reference_percent_encoding Demo.users §"HEAD" §"/users/me" None
              [§"users"; §"me"] Demo.users_reachable ltac:(vm_compute; reflexivity)) as (res & H & _).
  exists res. exact H.
Defined.

Lemma resolve_http_method_ordinary_witness :
  exists res, (resolve_http_method (H := reference_percent_encoding) Demo.users §"GET" §"/users/7" None).2
              = Some (Ok res).
Proof.
  destruct (@resolve_http_method_ordinary _ _ _ reference_percent_encoding Demo.users §"GET" §"/users/7" None
              [§"users"; §"7"] Demo.users_reachable ltac:(vm_compute; reflexivity)) as (res & H & _).
  exists res. exact H.
Defined.

Lemma registration_invariant_witness : router_ok Demo.nested.
Proof. exact (proj1 (@registration_invariant _ _ _ reference_percent_encoding Demo.nested Demo.nested_reachable)). Defined.

Lemma allowed_methods_exact_witness :
  exists l, (allowed_methods (H := reference_percent_encoding) Demo.users §"/users/me" None).2 = Some (Ok l)
            /\ NoDup l.
Proof.
  destruct (@allowed_methods_exact _ _ _ reference_percent_encoding Demo.users §"/users/me" None
              [§"users"; §"me"] Demo.users_reachable ltac:(vm_compute; reflexivity)) as (l & H & _ & Hn & _).
  exists l. split; [exact H|exact Hn].
Defined.

Lemma mount_effect_witness :
  exists pre new, parse (H := reference_percent_encoding) §"/api" = Ok pre
    /\ routes (mount (H := reference_percent_encoding) Demo.users §"/api" (Demo.sub "/a" 1)).1
       = routes Demo.users ++ new.
Proof.
  assert (Hs : reachable (H := reference_percent_encoding) (Demo.sub "/a" 1)).
  { unfold Demo.sub, Demo.get. repeat constructor. }
  destruct (@mount_effect _ _ _ reference_percent_encoding Demo.users (Demo.sub "/a" 1) _ §"/api" (Ok tt)
              Demo.users_reachable Hs ltac:(vm_compute; reflexivity)) as (pre & new & Hp & Hr & _).
  exists pre, new. split; [exact Hp|exact Hr].
Defined.

Lemma failed_configuration_rolls_back_witness :
  exists r2 e, handle_host §"bad host" 0 (Demo.get "/x" 0 Router_new) = Some (r2, Err e)
               /\ routes r2 = [].
Proof.
  pose proof (proj2 (@failed_configuration_rolls_back nat nat unit reference_percent_encoding
                  Router_new (Demo.get "/x" 0 Router_new) §"GET" §"/x" 0 Http 0
                  ltac:(vm_compute; reflexivity)) §"bad host") as Hr.
  destruct (handle_host §"bad host" 0 (Demo.get "/x" 0 Router_new)) as [[r2 [u|e]]|] eqn:E;
    try (vm_compute in E; discriminate E).
  exists r2, e. split; [reflexivity|]. exact (Hr r2 e eq_refl).
Defined.

(** [scoped_middlewares] does not follow routing order on prefixes: for
    [/a] routing selects the route [/a] (middleware chain [1]), but the
    synthesized OPTIONS/405 responses of the same path run under the
    middlewares of [/a/*rest] (chain [2]), because a proper prefix is the
    smaller [Vec] in [pattern_specificity] order. *)
Theorem scoped_middlewares_prefers_wildcard :
  reachable (H := reference_percent_encoding) Demo.nested
  /\ (exists found,
        (resolve_method (H := reference_percent_encoding) Demo.nested §"GET" §"/a" None).2
          = Some (Ok (Some found))
        /\ matched_middlewares found = [1])
  /\ (scoped_middlewares (H := reference_percent_encoding) Demo.nested §"/a" None).2 = Some (Ok [2]).
Proof.
  split; [exact Demo.nested_reachable|]. split; [|vm_compute; reflexivity].
  eexists. split; vm_compute; reflexivity.
Qed.

(** A route timeout makes a route-level layer leak: [RouteHandle::timeout]
    pushes a middleware without counting it in [route_layers], so
    [scoped_middlewares], which drops the last [route_layers] entries, returns
    the route-level layer [7] although no router-scoped middleware exists. *)
Theorem timeout_leaks_route_layer :
  reachable (H := reference_percent_encoding) Demo.timed
  /\ middlewares Demo.timed = []
  /\ (scoped_middlewares (H := reference_percent_encoding) Demo.timed §"/x" None).2 = Some (Ok [7]).
Proof. split; [exact Demo.timed_reachable|]. split; vm_compute; reflexivity. Qed.
