(* ===== verification/OpenApi.v ===== *)
(** * The generated API description ([src/app/openapi.rs], [App::serve_docs])

    The OpenAPI document of the registered routes and the page that shows it.
    JSON values are an inductive type with finite maps for objects; the JSON
    serialization of a string, SHA-256 and base64 are parameters. Proved: the
    document describes every registered route exactly as it was registered,
    with the parameters the router captures; and nothing in a title or an URL
    can add markup to the page. *)
From S2P Require Import Prelude Strs Percent Pattern Host Trie Url Router.

(** [serde_json::Value]. *)
Inductive Value :=
| VString (s : str)
| VBool (b : bool)
| VNumber (n : Z)
| VArray (l : list Value)
| VObject (m : gmap str Value).

Record RouteInfo := mkRouteInfo {
  info_method : str;
  info_path : str;
  info_summary : option str;
  info_description : option str;
  info_tags : list str
}.

(** [Router::routes]. *)
Definition route_info {H M W} (route : Route H M W) : RouteInfo :=
  mkRouteInfo (method route) (rendered (pattern route)) (summary (meta route)) (description (meta route)) (tags (meta route)).
Definition router_routes {H M W} (r : Router H M W) : list RouteInfo :=
  map route_info (routes r).

Definition OPENAPI_OPERATIONS : list str :=
  [§"get"; §"put"; §"post"; §"delete"; §"options"; §"head"; §"patch"; §"trace"].
Definition CUSTOM_METHODS : str := §"x-rustrest-custom-methods".
Definition DUPLICATE_ROUTES : str := §"x-rustrest-duplicate-routes".

(** [strip_prefix(':').or_else(strip_prefix('*'))]. *)
Definition placeholder (segment : str) : option str :=
  match segment with
  | c :: name => if bool_decide (c = colon) || bool_decide (c = Byte.x2a) then Some name else None
  | [] => None
  end.
Definition openapi_segment (acc : str * list str) (segment : str) : str * list str :=
  let '(path, params) := acc in
  match placeholder segment with
  | Some name => (path ++ [slash] ++ §"{" ++ name ++ §"}", params ++ [name])
  | None => (path ++ [slash] ++ segment, params)
  end.
Definition openapi_path (pattern : str) : str * list str :=
  let '(path, params) := foldl openapi_segment ([], []) (path_segments pattern) in
  (match path with [] => [slash] | _ => path end, params).

Definition parameter (name : str) : Value :=
  VObject {[ §"name" := VString name; §"in" := VString §"path"; §"required" := VBool true;
             §"schema" := VObject {[ §"type" := VString §"string" ]} ]}.

(** [operation.insert] under a condition. *)
Definition insert_some (key : str) (v : option Value) (m : gmap str Value) : gmap str Value :=
  match v with Some v => <[key := v]> m | None => m end.
Definition operation (route : RouteInfo) (params : list str) : gmap str Value :=
  let m := insert_some §"summary" (VString <$> info_summary route) ∅ in
  let m := insert_some §"description" (VString <$> info_description route) m in
  let m := insert_some §"tags" (match info_tags route with [] => None | tags => Some (VArray (map VString tags)) end) m in
  let m := insert_some §"parameters" (match params with [] => None | _ => Some (VArray (map parameter params)) end) m in
  <[§"responses" := VObject {[ §"200" := VObject {[ §"description" := VString §"OK" ]} ]}]> m.

(** Method names are tokens, so [to_lowercase] is the ASCII one. *)
Definition operation_name (route : RouteInfo) : str := to_ascii_lowercase (info_method route).
Definition is_operation (name : str) : bool := bool_decide (name ∈ OPENAPI_OPERATIONS).

Definition as_u64 (v : Value) : option Z := match v with VNumber n => Some n | _ => None end.

(** The changes of a path item by one route. *)
Definition add_custom (item : gmap str Value) (route : RouteInfo) (op : gmap str Value) : gmap str Value :=
  let op := <[§"method" := VString (info_method route)]> op in
  <[CUSTOM_METHODS := match default (VArray []) (item !! CUSTOM_METHODS) with
                      | VArray custom => VArray (custom ++ [VObject op])
                      | other => other
                      end]> item.
Definition add_operation (item : gmap str Value) (name : str) (op : gmap str Value) : gmap str Value :=
  match item !! name with
  | None => <[name := VObject op]> item
  | Some (VObject existing) =>
      let count := (default 1 (existing !! DUPLICATE_ROUTES ≫= as_u64) + 1)%Z in
      <[name := VObject (<[DUPLICATE_ROUTES := VNumber count]> existing)]> item
  | Some _ => item
  end.
Definition add_to_item (item : gmap str Value) (route : RouteInfo) (params : list str) : gmap str Value :=
  if is_operation (operation_name route) then add_operation item (operation_name route) (operation route params)
  else add_custom item route (operation route params).

(** One turn of the loop of [build_document]. *)
Definition add_route (paths : gmap str Value) (route : RouteInfo) : gmap str Value :=
  let '(path, params) := openapi_path (info_path route) in
  match default (VObject ∅) (paths !! path) with
  | VObject item => <[path := VObject (add_to_item item route params)]> paths
  | other => <[path := other]> paths
  end.
Definition build_document (title version : str) (routes : list RouteInfo) : Value :=
  VObject {[ §"openapi" := VString §"3.0.3";
             §"info" := VObject {[ §"title" := VString title; §"version" := VString version ]};
             §"paths" := VObject (foldl add_route ∅ routes) ]}.

(** ** The page *)

Definition escape_html_char (b : byte) : str :=
  if bool_decide (b = Byte.x26) then §"&amp;"
  else if bool_decide (b = Byte.x3c) then §"&lt;"
  else if bool_decide (b = Byte.x3e) then §"&gt;"
  else if bool_decide (b = Byte.x22) then §"&quot;"
  else if bool_decide (b = Byte.x27) then §"&#39;"
  else [b].
Definition escape_html_text (value : str) : str := concat (map escape_html_char value).

(** The replacements, character by character, of a UTF-8 text: U+2028 and
    U+2029 are three bytes. *)
Fixpoint escape_script (s : str) : str :=
  match s with
  | [] => []
  | b :: rest =>
      if bool_decide (b = Byte.x3c) then §"\u003C" ++ escape_script rest
      else if bool_decide (b = Byte.x3e) then §"\u003E" ++ escape_script rest
      else if bool_decide (b = Byte.x26) then §"\u0026" ++ escape_script rest
      else match rest with
           | c :: d :: rest' =>
               if bool_decide (b = Byte.xe2) && bool_decide (c = Byte.x80) && bool_decide (d = Byte.xa8) then §"\u2028" ++ escape_script rest'
               else if bool_decide (b = Byte.xe2) && bool_decide (c = Byte.x80) && bool_decide (d = Byte.xa9) then §"\u2029" ++ escape_script rest'
               else b :: escape_script rest
           | _ => b :: escape_script rest
           end
  end.

(** A literal in which a backquote stands for a double quote. *)
Definition quoted (s : string) : str := map (fun b => if bool_decide (b = Byte.x60) then Byte.x22 else b) (lit s).

Section page.
(** [serde_json::to_string] of a string; the digest of the initializer in base64. *)
Context (json_string : str -> option str) (digest : str -> str).

Definition json_string_for_inline_script (value : str) : str :=
  escape_script (match json_string value with Some s => s | None => quoted "``" end).

Definition initializer (spec_url : str) : str :=
  quoted "window.addEventListener(`load`, () => {
      SwaggerUIBundle({ url: " ++ json_string_for_inline_script spec_url ++ quoted ", dom_id: `#swagger-ui` });
    });".

Definition page_head : str := quoted "<!DOCTYPE html>
<html lang=`es`>
<head>
  <meta charset=`utf-8` />
  <meta name=`viewport` content=`width=device-width, initial-scale=1` />
  <meta http-equiv=`Content-Security-Policy` content=`default-src 'none'; base-uri 'none'; object-src 'none'; connect-src 'self'; img-src data: https:; style-src 'unsafe-inline' https://unpkg.com; script-src 'sha256-".
Definition page_policy_end : str := quoted "' https://unpkg.com` />
  <meta name=`referrer` content=`no-referrer` />
  <title>".
Definition page_title_end : str := [Byte.x20; Byte.xe2; Byte.x80; Byte.x94] ++ quoted " API docs</title>
  <link rel=`stylesheet` href=`https://unpkg.com/swagger-ui-dist@5.17.14/swagger-ui.css` crossorigin=`anonymous` />
</head>
<body>
  <div id=`swagger-ui`></div>
  <script src=`https://unpkg.com/swagger-ui-dist@5.17.14/swagger-ui-bundle.js` crossorigin=`anonymous`></script>
  <script>".
Definition page_end : str := quoted "</script>
</body>
</html>
".
Definition swagger_ui_html (title spec_url : str) : str :=
  page_head ++ digest (initializer spec_url) ++ page_policy_end ++ escape_html_text title ++ page_title_end
  ++ initializer spec_url ++ page_end.
End page.

(** ** Serving them *)

Definition trim_matches (c : byte) (s : str) : str := trim_end_matches c (trim_start_matches c s).
Definition docs_prefix (prefix : str) : str := slash :: trim_matches slash prefix.
Definition docs_spec_url (prefix : str) : str := trim_end_matches slash (docs_prefix prefix) ++ §"/openapi.json".

Section serve.
Context {H M W : Type} `{PercentEncoding}.
Context (json_string : str -> option str) (digest : str -> str).
(** The two handlers: a JSON response, and the page as HTML. *)
Context (json_handler : Value -> H) (html_handler : str -> H).
Abbreviation Router := (Router H M W).

Definition openapi (r : Router) (title version : str) : Value := build_document title version (router_routes r).
Definition serve_docs (r : Router) (prefix title version : str) : Router * result unit RouteError :=
  let spec_url := docs_spec_url prefix in
  match add Router_new §"GET" spec_url (json_handler (openapi r title version)) with
  | (_, Err e) => (r, Err e)
  | (docs, Ok _) =>
      match add docs §"GET" (docs_prefix prefix) (html_handler (swagger_ui_html json_string digest title spec_url)) with
      | (_, Err e) => (r, Err e)
      | (docs, Ok _) => mount r [slash] docs
      end
  end.
End serve.

(** ** Properties *)

(** The OpenAPI form of a route pattern. *)
Definition template_segment (segment : Segment) : str :=
  slash :: match segment with
           | Static s => encode_path_segment s
           | Param name | Wildcard name => §"{" ++ name ++ §"}"
           end.
Definition template (segs : list Segment) : str :=
  match segs with [] => [slash] | _ => concat (map template_segment segs) end.

Lemma placeholder_raw seg : placeholder (raw_segment seg) = seg_name seg.
Proof.
  destruct seg as [s|n|n]; [|done..]. unfold raw_segment, placeholder. cbn [render_segment tail seg_name].
  destruct (encode_path_segment s) as [|c t] eqn:E; [done|]. apply encode_head in E as [H1 H2].
  by rewrite !bool_decide_eq_false_2.
Qed.

Lemma openapi_segments segs : forall path params,
  foldl openapi_segment (path, params) (map raw_segment segs) = (path ++ concat (map template_segment segs), params ++ seg_names segs).
Proof.
  induction segs as [|seg segs IH]; intros path params; cbn [map foldl concat]; [by rewrite !app_nil_r|].
  unfold openapi_segment at 2. rewrite placeholder_raw. destruct seg as [s|n|n]; cbn [seg_name]; rewrite IH; unfold seg_names;
    cbn [omap list_omap seg_name template_segment]; f_equal; rewrite ?app_comm_cons, <- ?app_assoc; cbn; by rewrite <- ?app_assoc.
Qed.

Lemma openapi_path_pattern p : wf_pattern p -> openapi_path (rendered p) = (template (segments p), parameter_names p).
Proof.
  intros Hwf. unfold openapi_path. rewrite (wf_rendered _ Hwf), path_segments_render by apply Hwf.
  rewrite openapi_segments, (wf_names _ Hwf). cbn [app]. by destruct (segments p).
Qed.

(** *** The document *)

Definition described_op (r : RouteInfo) : gmap str Value := operation r (openapi_path (info_path r)).2.
Definition custom_op (r : RouteInfo) : Value := VObject (<[§"method" := VString (info_method r)]> (described_op r)).

(** What the routes [rs] of one path put under the key [k]. *)
Definition described (rs : list RouteInfo) (k : str) : option Value :=
  if bool_decide (k = CUSTOM_METHODS) then
    match List.filter (fun r => negb (is_operation (operation_name r))) rs with
    | [] => None
    | custom => Some (VArray (map custom_op custom))
    end
  else if is_operation k then
    match List.filter (fun r => bool_decide (operation_name r = k)) rs with
    | [] => None
    | [r] => Some (VObject (described_op r))
    | r :: others => Some (VObject (<[DUPLICATE_ROUTES := VNumber (1 + Z.of_nat (length others))]> (described_op r)))
    end
  else None.

Lemma described_no_duplicates r : described_op r !! DUPLICATE_ROUTES = None.
Proof.
  unfold described_op. generalize (openapi_path (info_path r)).2. intros ps. unfold operation, insert_some. rewrite lookup_insert_ne by done.
  destruct ps, (info_tags r), (info_description r), (info_summary r); cbn; repeat (rewrite lookup_insert_ne by done); done.
Qed.

Lemma filter_snoc {A} (f : A -> bool) l x : List.filter f (l ++ [x]) = List.filter f l ++ (if f x then [x] else []).
Proof. rewrite List.filter_app. cbn. by destruct (f x). Qed.

(** One more route of the path. *)
Lemma add_to_item_described item rs r : (forall k, item !! k = described rs k) ->
  forall k, add_to_item item r (openapi_path (info_path r)).2 !! k = described (rs ++ [r]) k.
Proof.
  intros Hi k. unfold add_to_item. destruct (is_operation (operation_name r)) eqn:Ho.
  - assert (operation_name r <> CUSTOM_METHODS) as Hc by (intros E; by rewrite E in Ho).
    unfold add_operation. pose proof (Hi (operation_name r)) as Hr. unfold described in Hr. rewrite bool_decide_eq_false_2, Ho in Hr by done.
    assert (forall k, k <> operation_name r -> described (rs ++ [r]) k = described rs k) as Hframe.
    { intros k' Hk. unfold described. rewrite !filter_snoc, Ho. cbn [negb]. rewrite bool_decide_eq_false_2 with (P := operation_name r = k') by done.
      by rewrite !app_nil_r. }
    assert (described (rs ++ [r]) (operation_name r)
      = match List.filter (fun r' => bool_decide (operation_name r' = operation_name r)) rs ++ [r] with
        | [] => None
        | [r] => Some (VObject (described_op r))
        | r :: others => Some (VObject (<[DUPLICATE_ROUTES := VNumber (1 + Z.of_nat (length others))]> (described_op r)))
        end) as Hnew.
    { unfold described. rewrite bool_decide_eq_false_2, Ho by done. rewrite filter_snoc. by rewrite bool_decide_eq_true_2. }
    destruct (List.filter _ rs) as [|r1 rest]; cbn [app] in Hnew.
    + rewrite Hr. destruct (decide (k = operation_name r)) as [->|Hk]; [by rewrite lookup_insert_eq, Hnew|].
      by rewrite lookup_insert_ne, Hframe by done.
    + destruct rest as [|r2 rest]; rewrite Hr; (destruct (decide (k = operation_name r)) as [->|Hk]; [|by rewrite lookup_insert_ne, Hframe by done]);
        rewrite lookup_insert_eq, Hnew; cbn [app].
      * by rewrite described_no_duplicates.
      * rewrite lookup_insert_eq, insert_insert_eq. cbn [default as_u64 mbind option_bind]. do 4 f_equal. cbn [length]. rewrite length_app. cbn. lia.
  - unfold add_custom. destruct (decide (k = CUSTOM_METHODS)) as [->|Hk].
    + rewrite lookup_insert_eq, Hi. unfold described. rewrite bool_decide_eq_true_2 by done. rewrite filter_snoc, Ho. cbn [negb].
      destruct (List.filter _ rs); cbn; [done|]. by rewrite map_app.
    + rewrite lookup_insert_ne, Hi by done. unfold described. rewrite bool_decide_eq_false_2 by done.
      destruct (is_operation k) eqn:Ek; [|done]. rewrite filter_snoc, bool_decide_eq_false_2 by congruence. by rewrite app_nil_r.
Qed.

(** The paths of the document, path by path. *)
Lemma paths_described rs p :
  let here := List.filter (fun r => bool_decide ((openapi_path (info_path r)).1 = p)) rs in
  match here with
  | [] => foldl add_route ∅ rs !! p = None
  | _ => exists item, foldl add_route ∅ rs !! p = Some (VObject item) /\ forall k, item !! k = described here k
  end.
Proof.
  induction rs as [|r rs IH] using rev_ind; [done|]. cbv zeta in *. rewrite foldl_app, filter_snoc. cbn [foldl].
  unfold add_route at 1 3. destruct (openapi_path (info_path r)) as [path params] eqn:Ep. cbn [fst].
  destruct (decide (path = p)) as [->|Hne].
  - rewrite bool_decide_eq_true_2 by done.
    assert (exists item, default (VObject ∅) (foldl add_route ∅ rs !! p) = VObject item
      /\ forall k, item !! k = described (List.filter (fun r => bool_decide ((openapi_path (info_path r)).1 = p)) rs) k) as (item & Ed & Hi).
    { destruct (List.filter _ rs) as [|r1 rest].
      - rewrite IH. exists ∅. split; [done|]. intros k. rewrite lookup_empty. unfold described. cbn. by repeat case_match.
      - destruct IH as (item & -> & Hi). by exists item. }
    rewrite Ed. pose proof (add_to_item_described item _ r Hi) as Hs. rewrite Ep in Hs. cbn [snd] in Hs.
    destruct (List.filter _ rs); cbn [app] in *; (eexists; split; [apply lookup_insert_eq|done]).
  - rewrite bool_decide_eq_false_2, app_nil_r by done.
    assert (match default (VObject ∅) (foldl add_route ∅ rs !! path) with
            | VObject item => <[path := VObject (add_to_item item r params)]> (foldl add_route ∅ rs)
            | other => <[path := other]> (foldl add_route ∅ rs)
            end !! p = foldl add_route ∅ rs !! p) as E.
    { destruct (default _ _); by rewrite lookup_insert_ne. }
    destruct (List.filter _ rs); [by rewrite E|]. destruct IH as (item & E' & Hi). exists item. by rewrite E.
Qed.

(** The operation object of a route, key by key. *)
Definition operation_key {H M W} (route : Route H M W) (k : str) : option Value :=
  if bool_decide (k = §"summary") then VString <$> summary (meta route)
  else if bool_decide (k = §"description") then VString <$> description (meta route)
  else if bool_decide (k = §"tags") then
    match tags (meta route) with [] => None | names => Some (VArray (map VString names)) end
  else if bool_decide (k = §"parameters") then
    match seg_names (segments (pattern route)) with
    | [] => None
    | names => Some (VArray (map (fun name =>
        VObject {[ §"name" := VString name; §"in" := VString §"path"; §"required" := VBool true;
                   §"schema" := VObject {[ §"type" := VString §"string" ]} ]}) names))
    end
  else if bool_decide (k = §"responses") then
    Some (VObject {[ §"200" := VObject {[ §"description" := VString §"OK" ]} ]})
  else None.

Lemma insert_some_lookup key v m k :
  insert_some key v m !! k = if bool_decide (k = key) then match v with Some v => Some v | None => m !! k end else m !! k.
Proof.
  destruct v as [v|]; cbn; case_bool_decide; subst; rewrite ?lookup_insert_eq, ?lookup_insert_ne by done; done.
Qed.

Lemma described_op_keys {H M W} (route : Route H M W) k : wf_pattern (pattern route) ->
  described_op (route_info route) !! k = operation_key route k.
Proof.
  intros Hwf. unfold described_op. cbn [info_path route_info]. rewrite openapi_path_pattern, (wf_names _ Hwf) by done.
  cbn [snd]. unfold operation, operation_key. cbn [info_summary info_description info_tags route_info].
  destruct (decide (k = §"responses")) as [->|Hk]; [by rewrite lookup_insert_eq|]. rewrite lookup_insert_ne by done.
  rewrite (bool_decide_eq_false_2 (k = §"responses")) by done.
  rewrite !insert_some_lookup, lookup_empty.
  repeat case_bool_decide; subst; try done.
  all: destruct (summary (meta route)), (description (meta route)), (tags (meta route)), (seg_names (segments (pattern route))); try done.
Qed.

(** C37. The API description is exact: for a router whose patterns are well
    formed (those of every router built by registrations are), the document has
    an item for a path exactly when a route renders to it; under each standard
    operation the item has the first registered route of that method, with the
    number of routes that share it, the first included, when there are several
    (the comment in the code speaks of the variants omitted, one less); every
    route of any other method, in order, among the custom methods; and nothing
    else. The operation of a route has its summary, description and tags when
    they are given, one required string parameter in the path for each name its
    pattern captures, in order, and the default response, and no other key. *)
Theorem openapi_document_exact {H M W} (r : Router H M W) title version :
  Forall (fun route => wf_pattern (pattern route)) (routes r) ->
  exists paths,
    openapi r title version
    = VObject {[ §"openapi" := VString §"3.0.3";
                 §"info" := VObject {[ §"title" := VString title; §"version" := VString version ]}; §"paths" := VObject paths ]}
    /\ (forall p,
          let here := List.filter (fun route => bool_decide (template (segments (pattern route)) = p)) (routes r) in
          match here with
          | [] => paths !! p = None
          | _ => exists item, paths !! p = Some (VObject item) /\ forall k, item !! k = described (map route_info here) k
          end)
    /\ forall route, route ∈ routes r -> forall k, described_op (route_info route) !! k = operation_key route k.
Proof.
  intros Hwf. exists (foldl add_route ∅ (router_routes r)). split_and!; [done| |].
  - intros p. cbv zeta. pose proof (paths_described (router_routes r) p) as Hp. cbv zeta in Hp.
    assert (List.filter (fun i => bool_decide ((openapi_path (info_path i)).1 = p)) (router_routes r)
      = map route_info (List.filter (fun route => bool_decide (template (segments (pattern route)) = p)) (routes r))) as E.
    { unfold router_routes. induction Hwf as [|route rs Hr _ IH]; [done|]. cbn [map List.filter info_path route_info].
      rewrite openapi_path_pattern by done. cbn [fst]. case_bool_decide; cbn [map]; by rewrite IH. }
    rewrite E in Hp. by destruct (List.filter _ (routes r)).
  - intros route Hin k. rewrite Forall_forall in Hwf. by apply described_op_keys, Hwf.
Qed.

(** *** The page *)

Abbreviation lt := Byte.x3c.
Definition tag_char (b : byte) : bool := is_ascii_alphanumeric b || bool_decide (b = slash) || bool_decide (b = Byte.x21).
Fixpoint tag_name (s : str) : str :=
  match s with b :: s => if tag_char b then b :: tag_name s else [] | [] => [] end.
(** The name after each [<] of a text, after what precedes the first. *)
Definition tags (s : str) : list str := map tag_name (split_on lt s).

Definition closed (s : str) : bool := existsb (fun b => negb (tag_char b)) s.
Lemma tag_name_closed s t : closed s = true -> tag_name (s ++ t) = tag_name s.
Proof. induction s as [|b s IH]; cbn; [done|]. destruct (tag_char b); cbn; [|done]. intros Hs. by rewrite IH. Qed.

Lemma split_on_nonempty c s : split_on c s <> [].
Proof. destruct s as [|b s]; cbn; [done|]. case_bool_decide; [done|]. by destruct (split_on c s). Qed.

Lemma split_on_hole c h b : c ∉ h -> forall a,
  split_on c (a ++ h ++ b) = removelast (split_on c a) ++ (List.last (split_on c a) [] ++ h ++ hd [] (split_on c b)) :: tl (split_on c b).
Proof.
  intros Hh. induction a as [|x a IH].
  - cbn [app split_on removelast List.last]. induction h as [|y h IH].
    + cbn. pose proof (split_on_nonempty c b). by destruct (split_on c b).
    + apply not_elem_of_cons in Hh as [Hy Hh]. cbn [app split_on]. rewrite bool_decide_eq_false_2 by congruence. by rewrite IH.
  - cbn [app split_on]. case_bool_decide.
    + rewrite IH. pose proof (split_on_nonempty c a). by destruct (split_on c a).
    + rewrite IH. destruct (split_on c a) as [|m [|m' l]] eqn:E; [by apply split_on_nonempty in E|done..].
Qed.

(** A text without [<] after a place where no tag name is open adds no tag. *)
Lemma tags_hole a h b : lt ∉ h -> closed (List.last (split_on lt a) []) = true -> tags (a ++ h ++ b) = tags a ++ tl (tags b).
Proof.
  intros Hh Hc. unfold tags. rewrite split_on_hole by done. rewrite map_app. cbn [map]. rewrite tag_name_closed by done.
  pose proof (split_on_nonempty lt a) as Hne. destruct (exists_last Hne) as (l & m & E). rewrite E in *.
  rewrite last_last, removelast_last, map_app. cbn [map]. rewrite <- app_assoc. by destruct (split_on lt b).
Qed.

Definition inert (c : byte) : bool := bool_decide (c = Byte.x3c) || bool_decide (c = Byte.x3e).

Lemma escape_html_clean title : Forall (fun b => inert b || bool_decide (b = Byte.x22) || bool_decide (b = Byte.x27) = false) (escape_html_text title).
Proof.
  unfold escape_html_text. induction title as [|b title IH]; [constructor|]. cbn [map concat]. apply Forall_app. split; [|done].
  destruct b; by repeat constructor.
Qed.

Lemma escape_script_clean s : Forall (fun b => inert b || bool_decide (b = Byte.x26) = false) (escape_script s).
Proof.
  induction s as [s IH] using (induction_ltof1 _ (@length _)); unfold ltof in IH.
  destruct s as [|b rest]; [constructor|]. cbn [escape_script].
  case_bool_decide; [apply Forall_app; split; [by repeat constructor|apply IH; cbn; lia]|].
  case_bool_decide; [apply Forall_app; split; [by repeat constructor|apply IH; cbn; lia]|].
  case_bool_decide; [apply Forall_app; split; [by repeat constructor|apply IH; cbn; lia]|].
  assert (Forall (fun b => inert b || bool_decide (b = Byte.x26) = false) (b :: escape_script rest)) as Hplain.
  { constructor; [|apply IH; cbn; lia]. unfold inert. by rewrite !bool_decide_eq_false_2. }
  destruct rest as [|c [|d rest']]; [done..|].
  destruct (_ && bool_decide (d = Byte.xa8)); [apply Forall_app; split; [by repeat constructor|apply IH; cbn; lia]|].
  destruct (_ && _); [apply Forall_app; split; [by repeat constructor|apply IH; cbn; lia]|]. done.
Qed.

Fixpoint html_unescape (s : str) : str :=
  match s with
  | Byte.x26 :: Byte.x61 :: Byte.x6d :: Byte.x70 :: Byte.x3b :: s => Byte.x26 :: html_unescape s
  | Byte.x26 :: Byte.x6c :: Byte.x74 :: Byte.x3b :: s => Byte.x3c :: html_unescape s
  | Byte.x26 :: Byte.x67 :: Byte.x74 :: Byte.x3b :: s => Byte.x3e :: html_unescape s
  | Byte.x26 :: Byte.x71 :: Byte.x75 :: Byte.x6f :: Byte.x74 :: Byte.x3b :: s => Byte.x22 :: html_unescape s
  | Byte.x26 :: Byte.x23 :: Byte.x33 :: Byte.x39 :: Byte.x3b :: s => Byte.x27 :: html_unescape s
  | b :: s => b :: html_unescape s
  | [] => []
  end.
Lemma html_unescape_escape title : html_unescape (escape_html_text title) = title.
Proof.
  unfold escape_html_text. induction title as [|b title IH]; [done|]. cbn [map concat].
  transitivity (b :: html_unescape (concat (map escape_html_char title))); [by destruct b|by rewrite IH].
Qed.

Definition page_tags : list str :=
  [§""; §"!DOCTYPE"; §"html"; §"head"; §"meta"; §"meta"; §"meta"; §"meta"; §"title"; §"/title"; §"link"; §"/head"; §"body";
   §"div"; §"/div"; §"script"; §"/script"; §"script"; §"/script"; §"/body"; §"/html"].

(** C38. The documentation page is inert: whatever the title and the URL, the tags
    of the page are those of the template (base64 has no [<]); the title
    is text that a browser reads back unchanged; and the URL, inside the
    inline script, has none of the characters that could end the script. *)
Theorem docs_page_inert json_string digest title spec_url :
  (forall s, lt ∉ digest s) ->
  let page := swagger_ui_html json_string digest title spec_url in
  tags page = page_tags
  /\ html_unescape (escape_html_text title) = title
  /\ Forall (fun b => inert b || bool_decide (b = Byte.x22) || bool_decide (b = Byte.x27) = false) (escape_html_text title)
  /\ Forall (fun b => inert b || bool_decide (b = Byte.x26) = false) (json_string_for_inline_script json_string spec_url).
Proof.
  intros Hd. cbv zeta. split_and!; [|apply html_unescape_escape|apply escape_html_clean|apply escape_script_clean].
  assert (lt ∉ escape_html_text title) as Ht.
  { intros Hin. pose proof (escape_html_clean title) as Hc. rewrite Forall_forall in Hc. by apply Hc in Hin. }
  assert (lt ∉ initializer json_string spec_url) as Hi.
  { unfold initializer. rewrite !not_elem_of_app. split_and!; [by apply contains_false| |by apply contains_false].
    intros Hin. pose proof (escape_script_clean (match json_string spec_url with Some s => s | None => quoted "``" end)) as Hc.
    rewrite Forall_forall in Hc. by apply Hc in Hin. }
  unfold swagger_ui_html. rewrite !tags_hole by (done || by vm_compute). by vm_compute.
Qed.

(** Registering the two routes fails without a trace: no router is left with
    one of them. *)
Lemma serve_docs_atomic {H M W} `{PercentEncoding} json_string digest (json_handler : Value -> H) html_handler (r r' : Router H M W) prefix title version e :
  serve_docs json_string digest json_handler html_handler r prefix title version = (r', Err e) -> r' = r.
Proof.
  unfold serve_docs. destruct (add Router_new _ _ _) as [docs [i|e1]]; [|by intros [= <- _]].
  destruct (add docs _ _ _) as [docs' [j|e2]]; [|by intros [= <- _]]. unfold mount.
  destruct (parse _); [|by intros [= <- _]]. destruct (mount_loop _ _ _ _ _); [done|by intros [= <- _]].
Qed.

(** ** Concrete descriptions *)

Module OpenApiSample.
#[local] Existing Instance reference_percent_encoding.
Abbreviation router := (Router nat unit unit).
Definition app : router :=
  let r := (add Router_new §"GET" §"/users/:id/files/*rest" 1).1 in
  let r := (add r §"LINK" §"/users/:id/files/*rest" 2).1 in
  (add r §"GET" §"/" 3).1.

Lemma app_wf : Forall (fun route => wf_pattern (pattern route)) (routes app).
Proof.
  apply Forall_cons. split; [apply (@parse_Ok_wf reference_percent_encoding §"/users/:id/files/*rest"); by vm_compute|].
  apply Forall_cons. split; [apply (@parse_Ok_wf reference_percent_encoding §"/users/:id/files/*rest"); by vm_compute|].
  apply Forall_cons. split; [apply (@parse_Ok_wf reference_percent_encoding §"/"); by vm_compute|constructor].
Qed.

Definition files : str := §"/users/{id}/files/{rest}".
Definition here (p : str) := List.filter (fun route => bool_decide (template (segments (pattern route)) = p)) (routes app).
Lemma files_here : exists route others, here files = route :: others.
Proof. vm_compute. eexists _, _. reflexivity. Qed.
Lemma files_get : is_Some (described (map route_info (here files)) §"get").
Proof.
  assert (E : match described (map route_info (here files)) §"get" with Some _ => true | None => false end = true)
    by (vm_compute; reflexivity). destruct (described _ _); [eauto|discriminate E].
Qed.
Lemma files_post : described (map route_info (here files)) §"post" = None.
Proof. vm_compute. reflexivity. Qed.
Lemma users_here : here §"/users" = [].
Proof. vm_compute. reflexivity. Qed.

Lemma openapi_document_exact_witness :
  exists (paths item : gmap str Value), paths !! files = Some (VObject item)
    /\ is_Some (item !! §"get") /\ item !! §"post" = None /\ paths !! §"/users" = None.
Proof.
  destruct (openapi_document_exact app §"API" §"1" app_wf) as (paths & _ & Hp & _).
  pose proof (Hp files) as Hf. pose proof (Hp §"/users") as Hn. cbv zeta in Hf, Hn. fold (here files) in Hf. fold (here §"/users") in Hn.
  rewrite users_here in Hn. pose proof files_get as Hg. pose proof files_post as Ho. destruct files_here as (route & others & E).
  rewrite E in Hf, Hg, Ho. destruct Hf as (item & Ei & Hi). exists paths, item. rewrite !Hi. exact (conj Ei (conj Hg (conj Ho Hn))).
Defined.

(** A title and an URL that try to close their elements. *)
Lemma docs_page_inert_witness :
  tags (swagger_ui_html Some (fun _ => §"c2hh") §"</title><script>alert(1)</script>" §"</script><script>") = page_tags.
Proof. apply (docs_page_inert Some (fun _ => §"c2hh") §"</title><script>alert(1)</script>" §"</script><script>"). intros s. by apply contains_false. Defined.

(** A wildcard and a parameter of the same name share a path of the document,
    which shows the first of them, also where the router prefers the second. *)
Definition shared : router := (add (add Router_new §"GET" §"/files/*rest" 1).1 §"GET" §"/files/:rest" 2).1.
Example wildcard_shares_item :
  map (fun i => (openapi_path (info_path i)).1) (router_routes shared) = [§"/files/{rest}"; §"/files/{rest}"]
  /\ match (resolve_method shared §"GET" §"/files/a" None).2 with Some (Ok (Some m)) => matched_handler m = 2 | _ => False end.
Proof. by vm_compute. Qed.

Example docs_urls : map docs_spec_url [§"/docs/"; §"docs"; §"/"] = [§"/docs/openapi.json"; §"/docs/openapi.json"; §"/openapi.json"].
Proof. by vm_compute. Qed.
End OpenApiSample.
