(* ===== verification/Http1.v ===== *)
(** * HTTP/1 request-head inspection ([src/app/http1.rs])

    [Http1InspectedIo::observe] classifies every request head of a persistent
    connection before Hyper parses the same bytes. The model keeps the inspector
    state (the pending-verdict queue, the partial-head buffer and its scanned
    prefix) and the head parser of the [httparse] crate as an interface. The
    theorems: classification is what the header fields say, the inspector's
    verdicts do not depend on how the stream is cut into reads, and whatever the
    interleaving of reads and dispatches a [Persistent] verdict is only given to
    a head the whole stream justifies. *)
From S2P Require Import Prelude Strs.

(** ** Verdicts *)

Inductive HeadVerdict :=
| Persistent
| Terminal
| Ambiguous
| Unclassified.

#[export] Instance HeadVerdict_eq_dec : EqDecision HeadVerdict.
Proof. solve_decision. Defined.

Definition MAX_PENDING_VERDICTS : nat := 256.
Definition MAX_DECODABLE_LENGTH : Z := u64_max - 2.

(** [Http1Verdicts::push]: the queue afterwards and whether it was accepted. *)
Definition push (pending : list HeadVerdict) (verdict : HeadVerdict) : list HeadVerdict * bool :=
  if (MAX_PENDING_VERDICTS <=? length pending)%nat then (pending, false)
  else (pending ++ [verdict], true).

(** [Http1Verdicts::next]. *)
Definition next (pending : list HeadVerdict) : list HeadVerdict * HeadVerdict :=
  match pending with
  | [] => ([], Unclassified)
  | verdict :: pending => (pending, verdict)
  end.

(** ** Heads *)

Definition CR : byte := Byte.x0d.
Definition LF : byte := Byte.x0a.

(** The bytes of the empty lines a buffer starts with: the loop of
    [trim_leading_empty_lines]. *)
Fixpoint leading_empty (buffer : str) : nat :=
  match buffer with
  | [] => 0
  | c :: rest =>
      if bool_decide (c = LF) then S (leading_empty rest)
      else if bool_decide (c = CR) then
        match rest with
        | d :: rest => if bool_decide (d = LF) then S (S (leading_empty rest)) else 0
        | [] => 0
        end
      else 0
  end.

(** The buffer without its leading empty lines, and how many bytes went. *)
Definition trim_leading_empty_lines (buffer : str) : str * nat :=
  let skipped := leading_empty buffer in (drop skipped buffer, skipped).

(** [window.windows(n).any(|w| w == pattern)]. *)
Fixpoint any_window (pattern window : str) : bool :=
  match window with
  | [] => false
  | _ :: rest => starts_with pattern window || any_window pattern rest
  end.

Definition contains_head_terminator (bytes : str) (scanned : nat) : bool :=
  let window := drop (scanned - 2) bytes in
  any_window [LF; LF] window || any_window [LF; CR; LF] window.

(** Mirrors [checked_mul(10)?.checked_add(digit)?] on [u64]. *)
Definition checked_u64 (n : Z) : option Z := if (n <=? u64_max)%Z then Some n else None.

Fixpoint content_length_loop (length : Z) (value : str) : option Z :=
  match value with
  | [] => Some length
  | b :: value =>
      if negb (is_ascii_digit b) then None
      else
        length ← checked_u64 (length * 10);
        length ← checked_u64 (length + (bval b - 48));
        content_length_loop length value
  end.

Definition parse_content_length (value : str) : option Z :=
  match value with
  | [] => None
  | _ =>
      length ← content_length_loop 0 value;
      if (length <=? MAX_DECODABLE_LENGTH)%Z then Some length else None
  end.

(** *** The head parser of the [httparse] crate

    [httparse max_headers bytes] is [Request::parse] with [max_headers] slots:
    the consumed length, the method and the header fields of a complete head.
    The laws: nothing is decided on an empty buffer; a complete head is
    determined by the bytes it consumes; an error stays one when more bytes
    arrive; empty lines before the request line are skipped; a head ends with an
    empty line. *)

Inductive ParseStatus :=
| PComplete (length : nat) (method : option str) (headers : list (str * str))
| PPartial
| PError.

Definition shift_status (k : nat) (s : ParseStatus) : ParseStatus :=
  match s with PComplete n m hs => PComplete (k + n) m hs | s => s end.

Class HttpParse := {
  httparse : nat -> str -> ParseStatus;
  httparse_nil mh : httparse mh [] = PPartial;
  httparse_complete mh b n m hs : httparse mh b = PComplete n m hs ->
    n <= length b /\ forall more, httparse mh (take n b ++ more) = PComplete n m hs;
  httparse_error mh b more : httparse mh b = PError -> httparse mh (b ++ more) = PError;
  httparse_empty_line mh b line : line = [LF] \/ line = [CR; LF] ->
    httparse mh (line ++ b) = shift_status (length line) (httparse mh b);
  httparse_end mh b n m hs : httparse mh b = PComplete n m hs -> leading_empty b = 0 ->
    ends_with [LF; LF] (take n b) = true \/ ends_with [LF; CR; LF] (take n b) = true
}.

Inductive HeadParse :=
| Complete (length : nat) (verdict : HeadVerdict) (body_length : Z)
| Partial
| Invalid.

(** The flags the header loop of [inspect_head] accumulates. *)
Record Framing := mkFraming {
  transfer_encoding : bool;
  content_length_present : bool;
  content_length : option Z;
  invalid_content_length : bool;
  upgrade : bool
}.
Definition no_framing : Framing := mkFraming false false None false false.

Definition inspect_header (f : Framing) (header : str * str) : Framing :=
  if eq_ignore_ascii_case header.1 §"transfer-encoding" then
    mkFraming true (content_length_present f) (content_length f) (invalid_content_length f) (upgrade f)
  else if eq_ignore_ascii_case header.1 §"content-length" then
    match parse_content_length header.2 with
    | Some value =>
        if match content_length f with None => true | Some previous => (previous =? value)%Z end
        then mkFraming (transfer_encoding f) true (Some value) (invalid_content_length f) (upgrade f)
        else mkFraming (transfer_encoding f) true (content_length f) true (upgrade f)
    | None => mkFraming (transfer_encoding f) true (content_length f) true (upgrade f)
    end
  else if eq_ignore_ascii_case header.1 §"upgrade" then
    mkFraming (transfer_encoding f) (content_length_present f) (content_length f)
      (invalid_content_length f) true
  else f.

(** The part of [inspect_head] after a complete parse. *)
Definition classify (method : option str) (headers : list (str * str)) : HeadVerdict * Z :=
  let f := foldl inspect_header no_framing headers in
  let connect := match method with
                 | Some method => eq_ignore_ascii_case method §"CONNECT"
                 | None => false end in
  let verdict :=
    if transfer_encoding f && content_length_present f then Ambiguous
    else if transfer_encoding f || upgrade f || connect || invalid_content_length f then Terminal
    else Persistent in
  (verdict, default 0%Z (content_length f)).

(** ** The inspector *)

Inductive InspectState :=
| Head
| Body (remaining : Z)
| Passthrough.

#[export] Instance InspectState_eq_dec : EqDecision InspectState.
Proof. solve_decision. Defined.

(** The mutable fields of [Http1InspectedIo], with the shared queue. *)
Record Inspector := mkInspector {
  pending : list HeadVerdict;
  state : InspectState;
  head : str;
  head_scanned : nat
}.

Definition Inspector_new : Inspector := mkInspector [] Head [] 0.

Section inspector.
Context `{HttpParse}.
(** The two limits fixed at construction. *)
Context (max_head_bytes max_headers : nat).

Definition inspect_head (bytes : str) : HeadParse :=
  match httparse max_headers bytes with
  | PPartial => Partial
  | PError => Invalid
  | PComplete length method headers =>
      let '(verdict, body_length) := classify method headers in
      Complete length verdict body_length
  end.

Definition finish_head (st : Inspector) (verdict : HeadVerdict) (body_length : Z) : Inspector :=
  let '(pending, accepted) := push (pending st) verdict in
  if bool_decide (verdict = Persistent) && accepted then
    mkInspector pending (if (body_length =? 0)%Z then Head else Body body_length)
      (head st) (head_scanned st)
  else mkInspector pending Passthrough [] 0.

Definition buffer_partial_head (st : Inspector) (bytes : str) : Inspector :=
  if (max_head_bytes <=? length bytes)%nat then finish_head st Terminal 0
  else
    let '(head, _) := trim_leading_empty_lines (head st ++ bytes) in
    mkInspector (pending st) (state st) head (length head).

Definition reset_head_buffer (st : Inspector) : Inspector :=
  mkInspector (pending st) (state st) [] 0.

Definition set_state (st : Inspector) (s : InspectState) : Inspector :=
  mkInspector (pending st) s (head st) (head_scanned st).

(** [Http1InspectedIo::observe]: the [while] loop and the recursive call on the
    bytes after a buffered head. [None]: out of fuel. *)
Fixpoint observe_loop (fuel : nat) (st : Inspector) (input : str) : option Inspector :=
  match input with
  | [] => Some st
  | _ :: _ =>
  match fuel with
  | O => None
  | S fuel =>
  match state st with
  | Passthrough => Some st
  | Body remaining =>
      let skipped := Z.min remaining (Z.of_nat (length input)) in
      let st := set_state st (if (remaining - skipped =? 0)%Z then Head
                              else Body (remaining - skipped)) in
      observe_loop fuel st (drop (Z.to_nat skipped) input)
  | Head =>
      if bool_decide (head st = []) then
        match inspect_head input with
        | Complete length verdict body_length =>
            observe_loop fuel (finish_head st verdict body_length) (drop length input)
        | Partial => Some (buffer_partial_head st input)
        | Invalid => Some (finish_head st Terminal 0)
        end
      else
        let '(buffer, skipped) := trim_leading_empty_lines (head st ++ input) in
        let st := mkInspector (pending st) Head buffer (head_scanned st - skipped) in
        if bool_decide (buffer = []) then Some st
        else if negb (contains_head_terminator buffer (head_scanned st)) then
          let st := mkInspector (pending st) Head buffer (length buffer) in
          Some (if (max_head_bytes <=? length buffer)%nat then finish_head st Terminal 0 else st)
        else
          match inspect_head buffer with
          | Complete length verdict body_length =>
              observe_loop fuel (finish_head (reset_head_buffer st) verdict body_length)
                (drop length buffer)
          | Partial =>
              Some (if (max_head_bytes <=? length buffer)%nat then finish_head st Terminal 0 else st)
          | Invalid => Some (finish_head st Terminal 0)
          end
  end end end.

(** Every iteration consumes input ([observe_spec]). *)
Definition observe (st : Inspector) (input : str) : option Inspector :=
  observe_loop (S (length input)) st input.

(** ** Connections: reads interleaved with dispatched requests *)

Inductive Action :=
| Read (bytes : str)
| Dispatch.

Fixpoint conn_run (st : Inspector) (actions : list Action) : option (Inspector * list HeadVerdict) :=
  match actions with
  | [] => Some (st, [])
  | Read bytes :: actions => st ← observe st bytes; conn_run st actions
  | Dispatch :: actions =>
      let '(pending, verdict) := next (pending st) in
      '(st, verdicts) ← conn_run (mkInspector pending (state st) (head st) (head_scanned st)) actions;
      Some (st, verdict :: verdicts)
  end.

Definition stream_of (actions : list Action) : str :=
  concat (map (fun a => match a with Read bytes => bytes | Dispatch => [] end) actions).
End inspector.

(** ** Classification *)

Lemma content_length_loop_digits length value :
  (0 <= length <= u64_max)%Z -> content_length_loop length value = parse_digits u64_max length value.
Proof.
  revert length. induction value as [|b value IH]; intros length Hl; [done|].
  cbn [content_length_loop parse_digits]. destruct (is_ascii_digit b) eqn:Hb; [|done].
  cbn [negb]. pose proof (digit_bval b Hb). unfold checked_u64.
  destruct (Z.leb_spec (length * 10) u64_max) as [Hm|Hm]; cbn [mbind option_bind]; cbn zeta.
  - destruct (Z.leb_spec (length * 10 + (bval b - 48)) u64_max); cbn [mbind option_bind]; [|done].
    apply IH. lia.
  - by rewrite (proj2 (Z.leb_gt _ _)) by lia.
Qed.

(** Digits only, in the range Hyper decodes, read without overflow. *)
Lemma parse_content_length_Some value n :
  parse_content_length value = Some n <->
  value <> [] /\ forallb is_ascii_digit value = true
  /\ n = digits_value value /\ (n <= MAX_DECODABLE_LENGTH)%Z.
Proof.
  destruct value as [|b value]; [cbn; naive_solver|].
  unfold parse_content_length, digits_value.
  rewrite content_length_loop_digits, parse_digits_spec by (unfold u64_max; lia). cbn zeta.
  destruct (forallb is_ascii_digit (b :: value)); cbn [mbind option_bind]; [|naive_solver].
  set (v := foldl _ _ _). unfold MAX_DECODABLE_LENGTH.
  destruct (Z.leb_spec v u64_max); cbn [mbind option_bind].
  - destruct (Z.leb_spec v (u64_max - 2)); split; try done.
    + by intros [= <-].
    + by intros (_ & _ & -> & _).
    + intros (_ & _ & -> & ?). lia.
  - split; [done|]. intros (_ & _ & -> & ?). lia.
Qed.

Lemma parse_content_length_nonneg value n : parse_content_length value = Some n -> (0 <= n)%Z.
Proof.
  rewrite parse_content_length_Some. intros (_ & Hd & -> & _).
  by apply (digits_foldl_ge 0 value).
Qed.

Definition is_te (h : str * str) : bool := eq_ignore_ascii_case h.1 §"transfer-encoding".
Definition is_cl (h : str * str) : bool := eq_ignore_ascii_case h.1 §"content-length".
Definition is_up (h : str * str) : bool := eq_ignore_ascii_case h.1 §"upgrade".

Lemma eq_ignore_disjoint s a b :
  eq_ignore_ascii_case s a = true -> to_ascii_lowercase a <> to_ascii_lowercase b ->
  eq_ignore_ascii_case s b = false.
Proof.
  unfold eq_ignore_ascii_case. rewrite bool_decide_eq_true. intros E Hne.
  apply bool_decide_eq_false. congruence.
Qed.

(** What the header loop of [inspect_head] has established. *)
Record framing_of (hs : list (str * str)) (f : Framing) : Prop := {
  fr_te : transfer_encoding f = existsb is_te hs;
  fr_cl : content_length_present f = existsb is_cl hs;
  fr_up : upgrade f = existsb is_up hs;
  fr_valid : invalid_content_length f = false ->
    Forall (fun h => is_cl h = true ->
      exists v, content_length f = Some v /\ parse_content_length h.2 = Some v) hs;
  fr_value v : content_length f = Some v ->
    Exists (fun h => is_cl h = true /\ parse_content_length h.2 = Some v) hs;
  fr_invalid : invalid_content_length f = true ->
    forall v, ~ Forall (fun h => is_cl h = true -> parse_content_length h.2 = Some v) hs
}.

(** A field that is not a valid new [Content-Length]: it changes at most the
    two presence flags. *)
Lemma framing_of_skip hs f h g :
  framing_of hs f -> is_cl h = false ->
  transfer_encoding g = (transfer_encoding f || is_te h) ->
  upgrade g = (upgrade f || is_up h) ->
  content_length_present g = content_length_present f -> content_length g = content_length f ->
  invalid_content_length g = invalid_content_length f -> framing_of (hs ++ [h]) g.
Proof.
  intros [Ht Hc Hu Hv Hs Hi] Ecl G1 G2 G3 G4 G5.
  split; rewrite ?existsb_app; cbn [existsb]; rewrite ?G1, ?G2, ?G3, ?G4, ?G5, ?Ecl, ?orb_false_r;
    try congruence.
  - intros. apply Forall_app; split; [auto|]. constructor; [congruence|done].
  - intros. apply Exists_app; left. auto.
  - intros Hinv v. rewrite Forall_app. intros [Hf _]. by apply (Hi Hinv v).
Qed.

Lemma framing_of_content_length hs f h :
  framing_of hs f -> is_te h = false -> is_up h = false -> is_cl h = true ->
  framing_of (hs ++ [h]) (inspect_header f h).
Proof.
  intros [Ht Hc Hu Hv Hs Hi] Ete Eup Ecl. unfold inspect_header.
  fold (is_te h) (is_cl h) (is_up h). rewrite Ete, Ecl.
  assert (Hbad : (forall v, parse_content_length h.2 = Some v ->
                   exists w, content_length f = Some w /\ w <> v) ->
    framing_of (hs ++ [h]) (mkFraming (transfer_encoding f) true (content_length f) true (upgrade f))).
  { intros Hbad. split; rewrite ?existsb_app; cbn; rewrite ?Ete, ?Ecl, ?Eup, ?orb_true_r, ?orb_false_r;
      try congruence.
    - intros. apply Exists_app; left. auto.
    - intros _ v. rewrite Forall_app, Forall_singleton. intros [Hf Hl].
      destruct (Hbad v (Hl Ecl)) as (w & Hw & Hne). specialize (Hs w Hw).
      apply Exists_exists in Hs as (h' & Hin & Hcl & Hp).
      rewrite Forall_forall in Hf. specialize (Hf h' Hin Hcl). congruence. }
  destruct (parse_content_length h.2) as [value|] eqn:Ep; [|by apply Hbad].
  destruct (match content_length f with None => true | Some previous => (previous =? value)%Z end) eqn:Em.
  - split; cbn; rewrite ?existsb_app; cbn; rewrite ?Ete, ?Ecl, ?Eup, ?orb_true_r, ?orb_false_r; try done.
    + intros Hinv. apply Forall_app; split; [|constructor; [by exists value|done]].
      eapply Forall_impl; [exact (Hv Hinv)|]. cbn. intros h' Hh' Hcl.
      destruct (Hh' Hcl) as (w & Hw & Hp). rewrite Hw in Em. bsplit. subst w. by exists value.
    + intros v [= <-]. apply Exists_app; right. by constructor.
    + intros Hinv v. rewrite Forall_app. intros [Hf _]. by apply (Hi Hinv v).
  - apply Hbad. intros v [= <-]. destruct (content_length f) as [w|]; [|done]. bsplit. eauto.
Qed.

Lemma framing_of_foldl hs : framing_of hs (foldl inspect_header no_framing hs).
Proof.
  induction hs as [|h hs IH] using rev_ind; [by split; cbn|].
  rewrite foldl_snoc. set (f := foldl _ _ hs) in *.
  destruct (is_cl h) eqn:Ecl.
  { apply framing_of_content_length; try done; eapply eq_ignore_disjoint; first [exact Ecl|done]. }
  apply (framing_of_skip _ _ _ _ IH Ecl); unfold inspect_header; fold (is_te h) (is_cl h) (is_up h);
    rewrite Ecl; destruct (is_te h) eqn:Ete; try destruct (is_up h) eqn:Eup; cbn;
    rewrite ?orb_true_r, ?orb_false_r; try done.
  pose proof (eq_ignore_disjoint _ _ §"upgrade" Ete ltac:(done)) as E. unfold is_up in Eup. congruence.
Qed.

(** Classification of a complete head. *)
Lemma classify_spec m hs :
  let connect := match m with Some m => eq_ignore_ascii_case m §"CONNECT" | None => false end in
  ((classify m hs).1 = Ambiguous <-> Exists (fun h => is_te h = true) hs /\ Exists (fun h => is_cl h = true) hs)
  /\ ((classify m hs).1 = Persistent <->
        Forall (fun h => is_te h = false /\ is_up h = false) hs /\ connect = false
        /\ exists v, Forall (fun h => is_cl h = true -> parse_content_length h.2 = Some v) hs)
  /\ ((classify m hs).1 = Persistent ->
        Forall (fun h => is_cl h = true -> parse_content_length h.2 = Some (classify m hs).2) hs
        /\ (Forall (fun h => is_cl h = false) hs -> (classify m hs).2 = 0%Z))
  /\ (classify m hs).1 <> Unclassified /\ (0 <= (classify m hs).2 <= MAX_DECODABLE_LENGTH)%Z.
Proof.
  cbn zeta. unfold classify. cbn [fst snd].
  destruct (framing_of_foldl hs) as [Ht Hc Hu Hv Hs Hi]. set (f := foldl _ _ hs) in *.
  set (connect := match m with Some _ => _ | None => false end).
  rewrite <- !existsb_true_Exists, <- Ht, <- Hc.
  assert (Hno : Forall (fun h => is_te h = false /\ is_up h = false) hs
                <-> transfer_encoding f = false /\ upgrade f = false).
  { rewrite Ht, Hu, !existsb_false_Forall, <- Forall_and. done. }
  assert (Hval : invalid_content_length f = false <->
                 exists v, Forall (fun h => is_cl h = true -> parse_content_length h.2 = Some v) hs).
  { split.
    - intros Hinv. destruct (content_length f) as [v|] eqn:E.
      + exists v. eapply Forall_impl; [exact (Hv Hinv)|]. cbn. naive_solver.
      + exists 0%Z. eapply Forall_impl; [exact (Hv Hinv)|]. cbn. naive_solver.
    - intros [v Hf]. destruct (invalid_content_length f) eqn:E; [|done]. by destruct (Hi eq_refl v). }
  rewrite Hno, <- Hval. split_and!.
  - destruct (transfer_encoding f), (content_length_present f), (upgrade f), connect,
      (invalid_content_length f); cbn; naive_solver.
  - destruct (transfer_encoding f), (content_length_present f), (upgrade f), connect,
      (invalid_content_length f); cbn; naive_solver.
  - intros Hp.
    assert (invalid_content_length f = false) as Hinv.
    { destruct (transfer_encoding f), (content_length_present f), (upgrade f), connect,
        (invalid_content_length f); cbn in Hp; done. }
    split.
    + eapply Forall_impl; [exact (Hv Hinv)|]. cbn. intros h Hh Hcl.
      destruct (Hh Hcl) as (v & -> & ->). done.
    + intros Hn. destruct (content_length f) as [v|] eqn:E; [|done].
      specialize (Hs v eq_refl). apply Exists_exists in Hs as (h & Hin & Hcl & _).
      rewrite Forall_forall in Hn. specialize (Hn h Hin). congruence.
  - destruct (transfer_encoding f), (content_length_present f), (upgrade f), connect,
      (invalid_content_length f); done.
  - destruct (content_length f) as [v|]; cbn [default id]; [|done]. specialize (Hs v eq_refl).
    apply Exists_exists in Hs as (h & _ & _ & Hp). by apply parse_content_length_nonneg in Hp.
  - destruct (content_length f) as [v|]; cbn [default id]; [|done]. specialize (Hs v eq_refl).
    apply Exists_exists in Hs as (h & _ & _ & Hp). apply parse_content_length_Some in Hp as (_ & _ & _ & ?).
    done.
Qed.

(** ** The heads of a stream

    The reference: the verdicts of the heads a byte stream contains, with no
    buffer, no queue and no read boundaries. *)

Section reference.
Context `{HttpParse}.
Context (max_head_bytes max_headers : nat).
Abbreviation inspect := (inspect_head max_headers).

(** The bytes after a head, once its body has arrived. *)
Definition after_body (body_length : Z) (rest : str) : option str :=
  if (Z.of_nat (length rest) <? body_length)%Z then None else Some (drop (Z.to_nat body_length) rest).

Fixpoint scan (fuel : nat) (bytes : str) : list HeadVerdict :=
  match fuel with
  | O => []
  | S fuel =>
      match inspect bytes with
      | Partial => []
      | Invalid => [Terminal]
      | Complete n verdict body_length =>
          verdict :: (if bool_decide (verdict = Persistent) then
                        match after_body body_length (drop n bytes) with
                        | Some rest => scan fuel rest
                        | None => [] end
                      else [])
      end
  end.

Definition heads (bytes : str) : list HeadVerdict := scan (S (length bytes)) bytes.

(** *** Empty lines *)

Lemma leading_empty_cases b :
  leading_empty b = 0
  \/ exists line rest, (line = [LF] \/ line = [CR; LF]) /\ b = line ++ rest
       /\ leading_empty b = length line + leading_empty rest.
Proof.
  destruct b as [|c b]; [by left|]. cbn [leading_empty]. case_bool_decide as Hc.
  { subst. right. exists [LF], b. auto. }
  case_bool_decide as Hc'; [|by left]. destruct b as [|d b]; [by left|].
  case_bool_decide; [|by left]. subst. right. exists [CR; LF], b. auto.
Qed.

Lemma leading_empty_drop b :
  leading_empty b <= length b /\ leading_empty (drop (leading_empty b) b) = 0.
Proof.
  induction b as [b IH] using (induction_ltof1 _ (@length byte)); unfold ltof in IH.
  destruct (leading_empty_cases b) as [E|(line & rest & Hl & -> & ->)]; [rewrite E; cbn; split; [lia|done]|].
  rewrite length_app in *. rewrite <- drop_drop, drop_app_length.
  destruct (IH rest) as [? ?]; [destruct Hl as [-> | ->]; cbn; lia|]. split; [lia|done].
Qed.

Lemma httparse_trim b :
  httparse max_headers b
  = shift_status (leading_empty b) (httparse max_headers (drop (leading_empty b) b)).
Proof.
  induction b as [b IH] using (induction_ltof1 _ (@length byte)); unfold ltof in IH.
  destruct (leading_empty_cases b) as [E|(line & rest & Hl & -> & ->)].
  { rewrite E, drop_0. by destruct (httparse max_headers b). }
  rewrite <- drop_drop, drop_app_length, httparse_empty_line by done.
  rewrite (IH rest) at 1 by (rewrite length_app; destruct Hl as [-> | ->]; cbn; lia).
  destruct (httparse _ (drop _ _)); cbn; [|done|done]. by rewrite Nat.add_assoc.
Qed.

Lemma inspect_trim b :
  inspect b = match inspect (drop (leading_empty b) b) with
              | Complete n v l => Complete (leading_empty b + n) v l
              | p => p end.
Proof.
  unfold inspect_head. rewrite httparse_trim at 1.
  destruct (httparse _ (drop _ _)) as [n m hs| |]; cbn; [|done|done]. by destruct (classify m hs).
Qed.

Lemma any_window_drop w p rest k :
  k <= length p -> w <> [] -> any_window w (drop k (p ++ w ++ rest)) = true.
Proof.
  intros Hk Hw. rewrite drop_app_le by done. generalize (drop k p) as q. clear p k Hk.
  assert (Hhead : starts_with w (w ++ rest) = true).
  { unfold starts_with. rewrite strip_prefix_app. done. }
  intros q. induction q as [|c q IH]; cbn [app any_window]; [|by rewrite IH, orb_true_r].
  destruct w; [done|]. cbn [app any_window] in *. by rewrite Hhead.
Qed.

Lemma ends_with_take w n b :
  ends_with w (take n b) = true -> n <= length b ->
  exists p, b = p ++ w ++ drop n b /\ length p + length w = n.
Proof.
  intros [p Hp]%ends_with_iff Hn. exists p.
  rewrite app_assoc, <- Hp, take_drop. split; [done|].
  rewrite <- length_app, <- Hp, length_take. lia.
Qed.

(** *** Complete heads *)

Lemma inspect_Complete b n v l :
  inspect b = Complete n v l ->
  2 <= n <= length b /\ (0 <= l)%Z /\ forall more, inspect (take n b ++ more) = Complete n v l.
Proof.
  unfold inspect_head. intros Hi. destruct (httparse _ b) as [n' m hs| |] eqn:Hp; try done.
  destruct (classify m hs) as [v' l'] eqn:Hc. injection Hi as -> -> ->.
  destruct (httparse_complete _ _ _ _ _ Hp) as [Hle Hmore]. split; [split; [|done]|split].
  - rewrite httparse_trim in Hp. destruct (httparse _ (drop _ _)) as [k m' hs'| |] eqn:Hd; try done.
    injection Hp as <- -> ->.
    destruct (httparse_end _ _ _ _ _ Hd (proj2 (leading_empty_drop b))) as [He|He];
      unfold ends_with in He; bsplit; rewrite length_take in *; cbn in *; lia.
  - destruct (classify_spec m hs) as (_ & _ & _ & _ & Hl & _). by rewrite Hc in Hl.
  - intros more. by rewrite Hmore, Hc.
Qed.

Lemma inspect_Complete_app b n v l more :
  inspect b = Complete n v l -> inspect (b ++ more) = Complete n v l.
Proof.
  intros (_ & _ & Hm)%inspect_Complete. specialize (Hm (drop n b ++ more)).
  by rewrite app_assoc, take_drop in Hm.
Qed.

Lemma inspect_Invalid_app b more : inspect b = Invalid -> inspect (b ++ more) = Invalid.
Proof.
  unfold inspect_head. destruct (httparse _ b) as [n m hs| |] eqn:Hp; [by destruct (classify m hs)|done|].
  intros _. by rewrite httparse_error.
Qed.

Lemma inspect_nil : inspect [] = Partial.
Proof. unfold inspect_head. by rewrite httparse_nil. Qed.

(** A head that became complete with the last bytes has its empty line in the
    window that is searched. *)
Lemma Complete_terminator b n v l scanned :
  inspect b = Complete n v l -> leading_empty b = 0 -> scanned < n ->
  contains_head_terminator b scanned = true.
Proof.
  intros Hi Hb Hs. pose proof (inspect_Complete _ _ _ _ Hi) as [Hn _].
  unfold inspect_head in Hi. destruct (httparse _ b) as [n' m hs| |] eqn:Hp; try done.
  destruct (classify m hs). injection Hi as -> _ _.
  unfold contains_head_terminator. apply orb_true_iff.
  destruct (httparse_end _ _ _ _ _ Hp Hb) as [He|He]; [left|right];
    apply ends_with_take in He as (p & -> & Hl); try lia; cbn [length] in Hl;
    (apply any_window_drop; [lia|done]).
Qed.

(** *** The reference is independent of its fuel *)

Lemma after_body_length l rest rest' : after_body l rest = Some rest' -> length rest' <= length rest.
Proof. unfold after_body. destruct (_ <? _)%Z; [done|]. intros [= <-]. rewrite length_drop. lia. Qed.

Lemma scan_fuel fuel fuel' b :
  length b < fuel -> length b < fuel' -> scan fuel b = scan fuel' b.
Proof.
  revert fuel' b. induction fuel as [|fuel IH]; intros [|fuel'] b Hf Hf'; try lia.
  cbn [scan]. destruct (inspect b) as [n v l| |] eqn:Hi; [|done|done]. f_equal.
  case_bool_decide; [|done]. destruct (after_body l (drop n b)) as [rest|] eqn:Ha; [|done].
  apply after_body_length in Ha. rewrite length_drop in Ha. apply inspect_Complete in Hi as [? _].
  apply IH; lia.
Qed.

Lemma heads_unfold b :
  heads b = match inspect b with
            | Partial => []
            | Invalid => [Terminal]
            | Complete n v l =>
                v :: (if bool_decide (v = Persistent) then
                        match after_body l (drop n b) with Some rest => heads rest | None => [] end
                      else [])
            end.
Proof.
  unfold heads at 1. cbn [scan]. destruct (inspect b) as [n v l| |] eqn:Hi; [|done|done]. f_equal.
  case_bool_decide; [|done]. destruct (after_body l (drop n b)) as [rest|] eqn:Ha; [|done].
  apply after_body_length in Ha. rewrite length_drop in Ha. apply inspect_Complete in Hi as [? _].
  apply scan_fuel; lia.
Qed.

Lemma heads_empty_line line b : line = [LF] \/ line = [CR; LF] -> heads (line ++ b) = heads b.
Proof.
  intros Hl. rewrite (heads_unfold b), heads_unfold. unfold inspect_head.
  rewrite httparse_empty_line by done. destruct (httparse _ b) as [n m hs| |]; cbn; [|done|done].
  destruct (classify m hs). by rewrite <- drop_drop, drop_app_length.
Qed.

Lemma heads_trim b more : heads (drop (leading_empty b) b ++ more) = heads (b ++ more).
Proof.
  induction b as [b IH] using (induction_ltof1 _ (@length byte)); unfold ltof in IH.
  destruct (leading_empty_cases b) as [E|(line & rest & Hl & -> & ->)]; [by rewrite E|].
  rewrite <- drop_drop, drop_app_length, <- app_assoc, (heads_empty_line line) by done.
  apply IH. rewrite length_app. destruct Hl as [-> | ->]; cbn; lia.
Qed.

(** ** The inspector against the reference *)

(** The verdicts the stream still owes, given the bytes yet to arrive. *)
Definition owed (st : Inspector) (bytes : str) : list HeadVerdict :=
  match state st with
  | Passthrough => []
  | Head => heads (head st ++ bytes)
  | Body n => match after_body n bytes with Some rest => heads rest | None => [] end
  end.

Record inspector_ok (st : Inspector) : Prop := {
  ok_pending : length (pending st) <= MAX_PENDING_VERDICTS;
  ok_scanned : head_scanned st <= length (head st);
  ok_head : state st = Head -> leading_empty (head st) = 0
            /\ forall n v l, inspect (head st) <> Complete n v l;
  ok_body n : state st = Body n -> (0 < n)%Z /\ head st = []
}.

(** Why an inspector that stopped following the stream did so: the verdicts are
    all there is; or the head outgrew the buffer and was given up as terminal;
    or the queue was full. *)
Inductive stopped (st : Inspector) (input : str) (st' : Inspector) (new : list HeadVerdict) : Prop :=
| stopped_exact : (forall more, owed st (input ++ more) = new) -> stopped st input st' new
| stopped_oversize p :
    new = p ++ [Terminal] -> max_head_bytes <= length (head st) + length input ->
    (forall more, p `prefix_of` owed st (input ++ more)) -> stopped st input st' new
| stopped_full :
    length (pending st') = MAX_PENDING_VERDICTS ->
    (forall more, new `prefix_of` owed st (input ++ more)) -> stopped st input st' new.

(** One observation: [new] was pushed, and the stream owes [new] and then what
    the new state owes. *)
Record observed (st : Inspector) (input : str) (st' : Inspector) (new : list HeadVerdict) : Prop := {
  ob_ok : inspector_ok st';
  ob_pending : pending st' = pending st ++ new;
  ob_head : length (head st') <= length (head st) + length input;
  ob_follow : state st' <> Passthrough ->
    forall more, owed st (input ++ more) = new ++ owed st' more;
  ob_stop : state st' = Passthrough -> state st <> Passthrough -> stopped st input st' new
}.

Lemma observed_trans st i1 st1 n1 i2 st2 n2 :
  state st <> Passthrough ->
  observed st i1 st1 n1 -> observed st1 i2 st2 n2 ->
  (state st1 = Passthrough -> st2 = st1 /\ n2 = []) ->
  length (head st1) <= length (head st) ->
  observed st (i1 ++ i2) st2 (n1 ++ n2).
Proof.
  intros Hst [_ P1 _ F1 S1] [O2 P2 H2 F2 S2] Hpass Hh. split; [done| | | |].
  - by rewrite P2, P1, app_assoc.
  - rewrite length_app. lia.
  - intros Hs more. rewrite <- app_assoc, <- app_assoc, F1, F2; [done|done|].
    intros E. destruct (Hpass E) as [-> ->]. done.
  - intros Hs _. destruct (decide (state st1 = Passthrough)) as [E|E].
    + destruct (Hpass E) as [-> ->]. rewrite app_nil_r.
      destruct (S1 E Hst) as [Hx|p -> Hm Hp|Hf Hp].
      * apply stopped_exact. intros more. by rewrite <- app_assoc.
      * eapply stopped_oversize; [done|rewrite length_app; lia|]. intros more. by rewrite <- app_assoc.
      * apply stopped_full; [done|]. intros more. by rewrite <- app_assoc.
    + destruct (S2 Hs E) as [Hx|p -> Hm Hp|Hf Hp].
      * apply stopped_exact. intros more. by rewrite <- app_assoc, F1, Hx.
      * apply (stopped_oversize _ _ _ _ (n1 ++ p)); [by rewrite app_assoc|rewrite length_app; lia|].
        intros more. rewrite <- app_assoc, F1 by done. by apply prefix_app.
      * apply stopped_full; [done|]. intros more. rewrite <- app_assoc, F1 by done. by apply prefix_app.
Qed.

(** [finish_head] for a parsed head: [consumed] are the bytes it took. *)
Lemma finish_head_observed st st0 consumed v l :
  inspector_ok st -> state st = Head ->
  pending st0 = pending st -> head st0 = [] -> head_scanned st0 = 0 -> (0 <= l)%Z ->
  (forall more, heads (head st ++ consumed ++ more)
     = v :: (if bool_decide (v = Persistent) then
               match after_body l more with Some rest => heads rest | None => [] end else [])) ->
  observed st consumed (finish_head st0 v l)
    (if (MAX_PENDING_VERDICTS <=? length (pending st))%nat then [] else [v]).
Proof.
  intros [Hp _ _ _] Hst Ep Eh Es Hl Hheads. unfold finish_head, push. rewrite Ep.
  assert (Howed : forall more, owed st (consumed ++ more) = heads (head st ++ consumed ++ more)).
  { intros more. unfold owed. by rewrite Hst. }
  destruct (Nat.leb_spec MAX_PENDING_VERDICTS (length (pending st))) as [Hfull|Hroom].
  { rewrite andb_false_r. split; cbn.
    - by split; cbn.
    - by rewrite app_nil_r.
    - lia.
    - done.
    - intros _ _. apply stopped_full; cbn; [lia|]. intros more. apply prefix_nil. }
  rewrite andb_true_r. case_bool_decide as Hv.
  - assert (Hok : forall s, s = Head \/ (s = Body l /\ (0 < l)%Z) ->
       inspector_ok (mkInspector (pending st ++ [v]) s (head st0) (head_scanned st0))).
    { intros s Hs. rewrite Eh, Es. split; cbn [pending state head head_scanned].
      - rewrite length_app. cbn. lia.
      - done.
      - intros _. split; [done|]. by rewrite inspect_nil.
      - intros n E. destruct Hs as [->|[-> ?]]; [done|]. by injection E as <-. }
    split; cbn [pending head state].
    + apply Hok. destruct (Z.eqb_spec l 0); [by left|right; split; [done|lia]].
    + done.
    + rewrite Eh. cbn. lia.
    + intros _ more. rewrite Howed, Hheads. subst v. unfold owed at 1. cbn. f_equal.
      rewrite Eh. destruct (Z.eqb_spec l 0) as [->|]; [|done]. unfold after_body.
      by rewrite (proj2 (Z.ltb_ge _ _)) by lia.
    + by destruct (l =? 0)%Z.
  - split; cbn.
    + split; cbn; try done. rewrite length_app. cbn. lia.
    + done.
    + lia.
    + done.
    + intros _ _. apply stopped_exact. intros more. by rewrite Howed, Hheads.
Qed.

(** Giving a head up as terminal, invalid ([stopped_exact]) or oversized. *)
Lemma give_up_observed st st0 input :
  inspector_ok st -> state st = Head -> pending st0 = pending st ->
  (max_head_bytes <= length (head st) + length input
   \/ forall more, heads (head st ++ input ++ more) = [Terminal]) ->
  observed st input (finish_head st0 Terminal 0)
    (if (MAX_PENDING_VERDICTS <=? length (pending st))%nat then [] else [Terminal]).
Proof.
  intros [Hp _ _ _] Hst Ep Hwhy. unfold finish_head, push.
  rewrite Ep, (bool_decide_eq_false_2 (Terminal = Persistent)) by done. cbn [andb].
  destruct (Nat.leb_spec MAX_PENDING_VERDICTS (length (pending st))) as [Hfull|Hroom].
  { split; cbn; [by split; cbn|by rewrite app_nil_r|lia|done|].
    intros _ _. apply stopped_full; cbn; [lia|]. intros more. apply prefix_nil. }
  split; cbn; [|done|lia|done|].
  { split; cbn; try done. rewrite length_app. cbn. lia. }
  intros _ _. destruct Hwhy as [Hm|Hx].
  - apply (stopped_oversize _ _ _ _ []); [done|done|]. intros more. apply prefix_nil.
  - apply stopped_exact. intros more. unfold owed. by rewrite Hst.
Qed.

(** Buffering more of an incomplete head. *)
Lemma buffer_observed st input buffer scanned :
  inspector_ok st -> state st = Head ->
  buffer = drop (leading_empty (head st ++ input)) (head st ++ input) ->
  scanned <= length buffer -> (forall n v l, inspect buffer <> Complete n v l) ->
  observed st input (mkInspector (pending st) Head buffer scanned) [].
Proof.
  intros [Hp _ _ _] Hst -> Hs Hn. split; cbn [pending state head head_scanned].
  - split; cbn [pending state head head_scanned]; try done.
    intros _. split; [apply leading_empty_drop|done].
  - by rewrite app_nil_r.
  - rewrite length_drop, length_app. lia.
  - intros _ more. unfold owed. rewrite Hst. cbn [state head app]. by rewrite heads_trim, app_assoc.
  - done.
Qed.

(** Trimming after new bytes: either nothing is trimmed, or a buffered lone
    [CR] met its [LF] and the buffer is a suffix of the new bytes. *)
Lemma trim_append h input :
  h <> [] -> leading_empty h = 0 ->
  leading_empty (h ++ input) = 0 \/ (length h = 1 /\ 2 <= leading_empty (h ++ input)).
Proof.
  intros Hne H0. destruct h as [|c [|d h]]; [done| |].
  - cbn in H0. case_bool_decide; [done|]. cbn [app leading_empty].
    rewrite bool_decide_eq_false_2 by done. case_bool_decide; [|by left].
    destruct input as [|d input]; [by left|]. case_bool_decide; [|by left]. right. split; [done|lia].
  - left. cbn [app leading_empty] in *. case_bool_decide; [done|]. case_bool_decide; [|done].
    by case_bool_decide.
Qed.

(** A head completed by the new bytes ends inside them. *)
Lemma completed_in_input st input n v l :
  inspector_ok st -> state st = Head -> head st <> [] ->
  let k := leading_empty (head st ++ input) in
  inspect (drop k (head st ++ input)) = Complete n v l ->
  head_scanned st - k < n /\ length (head st) < k + n.
Proof.
  intros [_ Hs Hh _] Hst Hne k Hi. destruct (Hh Hst) as [H0 Hnc].
  destruct (trim_append (head st) input Hne H0) as [E|[Hl E]]; fold k in E; subst k.
  - rewrite E in *. rewrite drop_0 in Hi. cbn [Nat.sub].
    assert (length (head st) < n); [|lia].
    destruct (Nat.lt_ge_cases (length (head st)) n) as [|Hle]; [done|].
    destruct (inspect_Complete _ _ _ _ Hi) as (_ & _ & Hm).
    rewrite take_app_le in Hm by done. specialize (Hm (drop n (head st))).
    rewrite take_drop in Hm. by destruct (Hnc n v l).
  - destruct (inspect_Complete _ _ _ _ Hi) as ([? _] & _). lia.
Qed.

Lemma heads_Complete b n v l more :
  inspect b = Complete n v l ->
  heads (take n b ++ more)
  = v :: (if bool_decide (v = Persistent) then
            match after_body l more with Some rest => heads rest | None => [] end else []).
Proof.
  intros Hi. destruct (inspect_Complete _ _ _ _ Hi) as ([_ Hn] & _ & Hm).
  rewrite heads_unfold, Hm, drop_app_length' by (rewrite length_take; lia). done.
Qed.

Lemma heads_Invalid b more : inspect b = Invalid -> heads (b ++ more) = [Terminal].
Proof. intros Hi. by rewrite heads_unfold, (inspect_Invalid_app _ _ Hi). Qed.

Lemma observed_refl st input :
  inspector_ok st -> input = [] \/ state st = Passthrough -> observed st input st [].
Proof.
  intros Hok Hi. split; [done|by rewrite app_nil_r|lia| |done].
  intros Hs more. by destruct Hi as [-> |].
Qed.

(** Skipping body bytes. *)
Lemma body_observed st input n :
  inspector_ok st -> state st = Body n ->
  let skipped := Z.min n (Z.of_nat (length input)) in
  observed st (take (Z.to_nat skipped) input)
    (set_state st (if (n - skipped =? 0)%Z then Head else Body (n - skipped))) [].
Proof.
  intros [Hp Hs _ Hb] Hst skipped. destruct (Hb n Hst) as [Hn Hh]. unfold set_state. rewrite Hh in *.
  split; cbn [pending state head head_scanned].
  - split; cbn [pending state head head_scanned]; try done.
    + intros _. split; [done|]. by rewrite inspect_nil.
    + intros m. destruct (Z.eqb_spec (n - skipped) 0); [done|]. intros [= <-]. split; [lia|done].
  - by rewrite app_nil_r.
  - cbn. lia.
  - intros _ more. unfold owed. rewrite Hst. cbn [state head app]. unfold after_body.
    rewrite length_app, length_take. destruct (Z.eqb_spec (n - skipped) 0).
    + rewrite (proj2 (Z.ltb_ge _ _)) by lia.
      by rewrite drop_app_length' by (rewrite length_take; lia).
    + destruct (Z.ltb_spec (Z.of_nat (length more)) (n - skipped)).
      * by rewrite (proj2 (Z.ltb_lt _ _)) by lia.
      * rewrite (proj2 (Z.ltb_ge _ _)) by lia. f_equal.
        rewrite drop_app_ge by (rewrite length_take; lia). f_equal. rewrite length_take. lia.
  - by destruct (_ =? 0)%Z.
Qed.

(** Fast path: the buffer is empty and the input starts at a head. *)
Lemma fast_path_observed fuel st input :
  (forall st i, inspector_ok st -> length i < fuel ->
     exists st' new, observe_loop max_head_bytes max_headers fuel st i = Some st'
       /\ observed st i st' new /\ (state st = Passthrough -> st' = st /\ new = [])) ->
  inspector_ok st -> state st = Head -> head st = [] -> length input < S fuel ->
  exists st' new,
    match inspect input with
    | Complete n v l =>
        observe_loop max_head_bytes max_headers fuel (finish_head st v l) (drop n input)
    | Partial => Some (buffer_partial_head max_head_bytes st input)
    | Invalid => Some (finish_head st Terminal 0)
    end = Some st' /\ observed st input st' new.
Proof.
  intros IH Hok Hst Hh Hlen. pose proof (ok_scanned _ Hok) as Hs. rewrite Hh in Hs. cbn in Hs.
  destruct (inspect input) as [n v l| |] eqn:Hi.
  - destruct (inspect_Complete _ _ _ _ Hi) as (Hn & Hl & _).
    pose proof (finish_head_observed st st (take n input) v l Hok Hst eq_refl Hh ltac:(lia) Hl) as Hf.
    rewrite Hh in Hf. specialize (Hf (fun more => heads_Complete _ _ _ _ more Hi)).
    destruct (IH (finish_head st v l) (drop n input)) as (st' & new & -> & Ho & Hp).
    { apply Hf. } { rewrite length_drop. lia. }
    eexists st', _. split; [done|]. rewrite <- (take_drop n input).
    eapply observed_trans; [by rewrite Hst|exact Hf|exact Ho|done|].
    unfold finish_head. destruct (push _ _) as [q a]. destruct (_ && _); cbn; [done|lia].
  - unfold buffer_partial_head. destruct (Nat.leb_spec max_head_bytes (length input)).
    + eexists _, _. split; [done|]. apply give_up_observed; [done|done|done|left; lia].
    + cbn [trim_leading_empty_lines]. eexists _, _. split; [done|]. rewrite Hst.
      apply buffer_observed; [done|done|done|lia|]. rewrite Hh. cbn [app].
      intros n v l E. rewrite inspect_trim, E in Hi. done.
  - eexists _, _. split; [done|]. apply give_up_observed; [done|done|done|right].
    intros more. rewrite Hh. by apply (heads_Invalid input).
Qed.

(** Slow path: new bytes for a buffered head. *)
Lemma slow_path_observed fuel st input :
  (forall st i, inspector_ok st -> length i < fuel ->
     exists st' new, observe_loop max_head_bytes max_headers fuel st i = Some st'
       /\ observed st i st' new /\ (state st = Passthrough -> st' = st /\ new = [])) ->
  inspector_ok st -> state st = Head -> head st <> [] -> length input < S fuel ->
  exists st' new,
    (let '(buffer, skipped) := trim_leading_empty_lines (head st ++ input) in
     let st := mkInspector (pending st) Head buffer (head_scanned st - skipped) in
     if bool_decide (buffer = []) then Some st
     else if negb (contains_head_terminator buffer (head_scanned st)) then
       let st := mkInspector (pending st) Head buffer (length buffer) in
       Some (if (max_head_bytes <=? length buffer)%nat then finish_head st Terminal 0 else st)
     else
       match inspect buffer with
       | Complete n v l =>
           observe_loop max_head_bytes max_headers fuel
             (finish_head (reset_head_buffer st) v l) (drop n buffer)
       | Partial =>
           Some (if (max_head_bytes <=? length buffer)%nat then finish_head st Terminal 0 else st)
       | Invalid => Some (finish_head st Terminal 0)
       end) = Some st' /\ observed st input st' new.
Proof.
  intros IH Hok Hst Hne Hlen. cbn [trim_leading_empty_lines]. cbn zeta.
  set (k := leading_empty (head st ++ input)). set (buffer := drop k (head st ++ input)).
  assert (Hscan : head_scanned st - k <= length buffer).
  { pose proof (ok_scanned _ Hok) as Hsc. destruct (ok_head _ Hok Hst) as [Hz _].
    unfold buffer. rewrite length_drop, length_app.
    destruct (trim_append _ input Hne Hz) as [E|[E1 E2]]; [fold k in E|fold k in E2]; lia. }
  assert (Hblen : length buffer <= length (head st) + length input).
  { unfold buffer. rewrite length_drop, length_app. lia. }
  assert (Hb0 : leading_empty buffer = 0) by apply leading_empty_drop.
  assert (Hkeep : forall scanned, scanned <= length buffer ->
     (forall n v l, inspect buffer <> Complete n v l) ->
     exists st' new, Some (if (max_head_bytes <=? length buffer)%nat
                           then finish_head (mkInspector (pending st) Head buffer scanned) Terminal 0
                           else mkInspector (pending st) Head buffer scanned) = Some st'
                     /\ observed st input st' new).
  { intros scanned Hsc Hnc. destruct (Nat.leb_spec max_head_bytes (length buffer)).
    - eexists _, _. split; [done|]. apply give_up_observed; [done|done|done|left; lia].
    - eexists _, _. split; [done|]. by apply buffer_observed. }
  case_bool_decide as Hbe.
  { eexists _, _. split; [done|]. apply buffer_observed; try done.
    rewrite Hbe, inspect_nil. done. }
  cbn [head_scanned]. destruct (contains_head_terminator buffer (head_scanned st - k)) eqn:Ht; cbn [negb].
  2: { apply Hkeep; [lia|]. intros n v l Hi.
       destruct (completed_in_input st input n v l Hok Hst Hne Hi) as [Hsn _]. fold k in Hsn.
       by rewrite (Complete_terminator _ _ _ _ _ Hi Hb0 Hsn) in Ht. }
  destruct (inspect buffer) as [n v l| |] eqn:Hi.
  - destruct (completed_in_input st input n v l Hok Hst Hne Hi) as [_ Hin]. fold k in Hin.
    set (c := (k + n - length (head st))%nat).
    assert (Hrest : drop n buffer = drop c input).
    { unfold buffer. rewrite drop_drop, drop_app_ge by lia. done. }
    assert (Hfull : inspect (head st ++ input) = Complete (k + n) v l).
    { rewrite inspect_trim. fold k buffer. by rewrite Hi. }
    assert (Htake : take (k + n) (head st ++ input) = head st ++ take c input).
    { rewrite take_app_ge by lia. done. }
    destruct (inspect_Complete _ _ _ _ Hi) as (Hn & Hl & _).
    pose proof (finish_head_observed st
      (reset_head_buffer (mkInspector (pending st) Head buffer (head_scanned st - k)))
      (take c input) v l Hok Hst eq_refl eq_refl eq_refl Hl) as Hf.
    destruct (IH (finish_head (reset_head_buffer
      (mkInspector (pending st) Head buffer (head_scanned st - k))) v l) (drop c input))
      as (st' & new & E & Ho & Hp).
    { apply Hf. intros more. rewrite app_assoc, <- Htake. by apply heads_Complete. }
    { rewrite length_drop. unfold buffer in Hn. rewrite length_drop, length_app in Hn. lia. }
    rewrite Hrest. eexists st', _. split; [exact E|]. rewrite <- (take_drop c input).
    eapply observed_trans; [by rewrite Hst| |exact Ho|done|].
    + apply Hf. intros more. rewrite app_assoc, <- Htake. by apply heads_Complete.
    + unfold finish_head. destruct (push _ _) as [q a]. destruct (_ && _); cbn; lia.
  - apply Hkeep; [done|]. intros; congruence.
  - eexists _, _. split; [done|]. apply give_up_observed; [done|done|done|right].
    intros more. rewrite app_assoc. apply heads_Invalid. rewrite inspect_trim. fold k buffer.
    by rewrite Hi.
Qed.

(** [observe] always returns, and pushes what the stream owes. *)
Lemma observe_loop_spec fuel :
  forall st input, inspector_ok st -> length input < fuel ->
    exists st' new, observe_loop max_head_bytes max_headers fuel st input = Some st'
      /\ observed st input st' new /\ (state st = Passthrough -> st' = st /\ new = []).
Proof.
  induction fuel as [|fuel IH]; intros st input Hok Hlen; [lia|].
  destruct input as [|b input].
  { exists st, []. split; [done|]. split; [apply observed_refl; auto|done]. }
  cbn [observe_loop]. destruct (state st) as [|n|] eqn:Hst.
  - case_bool_decide as Hh.
    + destruct (fast_path_observed fuel st (b :: input) IH Hok Hst Hh Hlen) as (st' & new & E & Ho).
      exists st', new. split; [exact E|done].
    + destruct (slow_path_observed fuel st (b :: input) IH Hok Hst Hh Hlen) as (st' & new & E & Ho).
      exists st', new. split; [exact E|done].
  - pose proof (body_observed st (b :: input) n Hok Hst) as Hb. cbn zeta in *.
    set (skipped := Z.min n _) in *. destruct (ok_body _ Hok _ Hst) as [Hn Hh].
    destruct (IH (set_state st (if (n - skipped =? 0)%Z then Head else Body (n - skipped)))
                (drop (Z.to_nat skipped) (b :: input))) as (st' & new & E & Ho & Hp).
    { apply Hb. } { rewrite length_drop. cbn [length] in *. lia. }
    exists st', new. split; [exact E|]. split; [|done].
    rewrite <- (take_drop (Z.to_nat skipped) (b :: input)). change new with ([] ++ new).
    eapply observed_trans; [by rewrite Hst|exact Hb|exact Ho|done|done].
  - exists st, []. split; [done|]. split; [apply observed_refl; auto|done].
Qed.

Lemma observe_spec st input :
  inspector_ok st ->
  exists st' new, observe max_head_bytes max_headers st input = Some st'
    /\ observed st input st' new /\ (state st = Passthrough -> st' = st /\ new = []).
Proof. intros Hok. apply observe_loop_spec; [done|lia]. Qed.

(** ** Connections *)

Lemma prefix_lookup_agree {A} (p l : list A) i v : p `prefix_of` l -> p !! i = Some v -> l !! i = Some v.
Proof. intros [k ->] Hi. by apply lookup_app_l_Some. Qed.

(** The [i]-th verdict a stopped inspector pushed is the reference's or
    [Terminal]. *)
Lemma stopped_lookup st input st' new more i v :
  stopped st input st' new -> new !! i = Some v ->
  v = Terminal \/ owed st (input ++ more) !! i = Some v.
Proof.
  intros [Hx|p -> _ Hp|_ Hp] Hi.
  - right. by rewrite Hx.
  - apply lookup_snoc_Some in Hi as [[_ Hi]|[_ <-]]; [right|by left].
    eapply prefix_lookup_agree; [apply Hp|done].
  - right. eapply prefix_lookup_agree; [apply Hp|done].
Qed.

Lemma conn_run_spec actions :
  forall st, inspector_ok st ->
    exists st' outs pushed,
      conn_run max_head_bytes max_headers st actions = Some (st', outs) /\ inspector_ok st'
      /\ (state st = Passthrough -> pushed = [])
      /\ (forall i v, pushed !! i = Some v -> v = Terminal \/ owed st (stream_of actions) !! i = Some v)
      /\ (forall i v, outs !! i = Some v -> Unclassified ∉ take i outs ->
            v = Unclassified \/ (pending st ++ pushed) !! i = Some v).
Proof.
  induction actions as [|[bytes|] actions IH]; intros st Hok.
  { exists st, [], []. split; [done|]. split; [done|]. split; [done|]. split; intros i v Hi; by rewrite lookup_nil in Hi. }
  - destruct (observe_spec st bytes Hok) as (st1 & n1 & E & Ho & Hp1). cbn [conn_run]. rewrite E.
    destruct (IH st1 (ob_ok _ _ _ _ Ho)) as (st' & outs & n2 & E2 & Hok' & Hp2 & Hpush & Hout).
    exists st', outs, (n1 ++ n2). split; [exact E2|]. split; [done|]. split_and!.
    + intros Hs. destruct (Hp1 Hs) as [-> ->]. by rewrite Hp2.
    + intros i v Hi. unfold stream_of. cbn [map concat]. fold (stream_of actions).
      destruct (decide (state st = Passthrough)) as [Hs|Hs].
      { destruct (Hp1 Hs) as [-> ->]. by rewrite Hp2 in Hi. }
      destruct (decide (state st1 = Passthrough)) as [Hs1|Hs1].
      { rewrite (Hp2 Hs1), app_nil_r in Hi. by eapply stopped_lookup; [apply Ho|]. }
      rewrite (ob_follow _ _ _ _ Ho Hs1). apply lookup_app_Some in Hi as [Hi|[Hge Hi]].
      { right. by apply lookup_app_l_Some. }
      destruct (Hpush _ _ Hi) as [->|Hr]; [by left|right]. by rewrite lookup_app_r.
    + intros i v Hi Hn. destruct (Hout i v Hi Hn) as [->|Hr]; [by left|right].
      by rewrite (ob_pending _ _ _ _ Ho), <- app_assoc in Hr.
  - cbn [conn_run]. destruct (next (pending st)) as [q out] eqn:En.
    set (st1 := mkInspector q (state st) (head st) (head_scanned st)).
    assert (Hok1 : inspector_ok st1).
    { destruct Hok as [Hp Hs Hh Hb]. split; cbn; try done.
      destruct (pending st); cbn in *; injection En as <- _; cbn; lia. }
    destruct (IH st1 Hok1) as (st' & outs & pushed & E2 & Hok' & Hp2 & Hpush & Hout).
    exists st', (out :: outs), pushed. rewrite E2. split; [done|]. split; [done|]. split_and!; [done|done|].
    intros [|i] v Hi Hn; cbn in Hi.
    + injection Hi as <-. destruct (pending st) as [|w ps]; cbn in En; injection En as <- <-; auto.
    + cbn [take] in Hn. apply not_elem_of_cons in Hn as [Hne Hn].
      destruct (Hout i v Hi Hn) as [->|Hr]; [by left|right].
      destruct (pending st) as [|w ps]; cbn in En; injection En as <- <-; [done|]. done.
Qed.

Lemma inspector_ok_new : inspector_ok Inspector_new.
Proof. split; cbn; try done; [lia|]. intros _. split; [done|]. by rewrite inspect_nil. Qed.

Lemma passthrough_reads st chunks :
  state st = Passthrough ->
  conn_run max_head_bytes max_headers st (map Read chunks) = Some (st, []).
Proof.
  intros Hs. induction chunks as [|b chunks IH]; [done|]. cbn [map conn_run].
  assert (observe max_head_bytes max_headers st b = Some st) as ->; [|exact IH].
  unfold observe. destruct b; [done|]. cbn [observe_loop]. by rewrite Hs.
Qed.

Lemma reads_spec chunks :
  forall st, inspector_ok st -> state st <> Passthrough ->
    length (head st) + length (concat chunks) < max_head_bytes ->
    exists st' new,
      conn_run max_head_bytes max_headers st (map Read chunks) = Some (st', [])
      /\ inspector_ok st' /\ pending st' = pending st ++ new
      /\ (state st' <> Passthrough -> owed st (concat chunks) = new ++ owed st' [])
      /\ (state st' = Passthrough -> owed st (concat chunks) = new
           \/ (length (pending st') = MAX_PENDING_VERDICTS /\ new `prefix_of` owed st (concat chunks))).
Proof.
  induction chunks as [|bytes chunks IH]; intros st Hok Hst Hlen.
  { exists st, []. split; [done|]. by rewrite app_nil_r. }
  cbn [map conn_run concat] in *. rewrite length_app in Hlen.
  destruct (observe_spec st bytes Hok) as (st1 & n1 & E & Ho & _). rewrite E.
  destruct (decide (state st1 = Passthrough)) as [Hs1|Hs1].
  - exists st1, n1. split.
    { by apply passthrough_reads. }
    split; [apply Ho|]. split; [apply Ho|]. split; [done|]. intros _.
    destruct (ob_stop _ _ _ _ Ho Hs1 Hst) as [Hx|p _ Hm _|Hf Hp]; [by left; apply Hx|lia|].
    right. by split; [|apply Hp].
  - destruct (IH st1 (ob_ok _ _ _ _ Ho) Hs1) as (st' & n2 & E2 & Hok' & Hp & Hf & Hs).
    { pose proof (ob_head _ _ _ _ Ho). lia. }
    exists st', (n1 ++ n2). split; [exact E2|]. split; [done|].
    rewrite Hp, (ob_pending _ _ _ _ Ho), <- app_assoc. split; [done|].
    rewrite (ob_follow _ _ _ _ Ho Hs1). split.
    + intros Hs'. by rewrite (Hf Hs'), app_assoc.
    + intros Hs'. rewrite Hp, (ob_pending _ _ _ _ Ho), <- app_assoc in Hs.
      destruct (Hs Hs') as [->|[Hl Hpre]]; [by left|right]. split; [done|]. by apply prefix_app.
Qed.

(** The verdicts queued by reading a stream that fits the head buffer. *)
Lemma reads_verdicts chunks :
  length (concat chunks) < max_head_bytes ->
  length (heads (concat chunks)) <= MAX_PENDING_VERDICTS ->
  exists st, conn_run max_head_bytes max_headers Inspector_new (map Read chunks) = Some (st, [])
    /\ (heads (concat chunks) = pending st
        \/ (heads (concat chunks) = pending st ++ [Terminal] /\ state st = Head)).
Proof.
  intros Hlen Hcap.
  destruct (reads_spec chunks Inspector_new inspector_ok_new ltac:(done) Hlen)
    as (st & new & E & Hok & Hp & Hf & Hs). cbn in Hp. subst new.
  exists st. split; [exact E|]. change (owed Inspector_new (concat chunks)) with (heads (concat chunks)) in *.
  destruct (decide (state st = Passthrough)) as [Hst|Hst].
  - left. destruct (Hs Hst) as [->|[Hl [k Hk]]]; [done|]. rewrite Hk in *. rewrite length_app in Hcap.
    destruct k; [by rewrite app_nil_r|cbn in Hcap; lia].
  - rewrite (Hf Hst). unfold owed. destruct (state st) as [|n|] eqn:Es; [| |done].
    + rewrite app_nil_r, heads_unfold. destruct (ok_head _ Hok Es) as [_ Hnc].
      destruct (inspect (head st)) as [n v l| |] eqn:Ei; [by destruct (Hnc n v l)| |by right].
      left. by rewrite app_nil_r.
    + left. destruct (ok_body _ Hok _ Es) as [Hn _]. unfold after_body. cbn [length].
      by rewrite (proj2 (Z.ltb_lt _ _)), app_nil_r by (cbn; lia).
Qed.

(** A whole head that fits the buffer gets its own verdict, however it is cut. *)
Lemma head_reads chunks v l :
  length (concat chunks) < max_head_bytes -> inspect (concat chunks) = Complete (length (concat chunks)) v l ->
  v <> Terminal ->
  exists st, conn_run max_head_bytes max_headers Inspector_new (map Read chunks) = Some (st, []) /\ pending st = [v].
Proof.
  intros Hlen Hi Hv. assert (heads (concat chunks) = [v]) as Hh.
  { rewrite heads_unfold, Hi, drop_all. case_bool_decide; [|done]. unfold after_body. cbn [length].
    destruct (_ <? l)%Z; [done|]. by rewrite drop_nil, (heads_unfold []), inspect_nil. }
  destruct (reads_verdicts chunks Hlen) as (st & E & Hp); [rewrite Hh; cbn; unfold MAX_PENDING_VERDICTS; lia|].
  exists st. split; [done|]. rewrite Hh in Hp. destruct Hp as [->|[Hp _]]; [done|].
  destruct (pending st) as [|w [|]]; simplify_eq/=.
Qed.

(** ** Properties *)

(** C11. Whatever the interleaving of reads (with any read boundaries) and
    dispatched requests, the inspector returns, its queue stays within 256
    verdicts, and the verdict given to a request, as long as the earlier ones
    kept the connection open, is one that closes the connection ([Terminal],
    [Unclassified]) or exactly the verdict of that request's head in the whole
    stream: no head is ever served as persistent under another head's verdict. *)
Theorem dispatched_verdicts_sound actions :
  exists st outs,
    conn_run max_head_bytes max_headers Inspector_new actions = Some (st, outs)
    /\ length (pending st) <= MAX_PENDING_VERDICTS
    /\ forall i v, outs !! i = Some v ->
         (forall j w, j < i -> outs !! j = Some w -> w = Persistent) ->
         v = Terminal \/ v = Unclassified \/ heads (stream_of actions) !! i = Some v.
Proof.
  destruct (conn_run_spec actions Inspector_new inspector_ok_new)
    as (st & outs & pushed & E & Hok & _ & Hpush & Hout).
  exists st, outs. split; [done|]. split; [apply Hok|]. intros i v Hi Hbefore.
  destruct (Hout i v Hi) as [->|Hr]; [|by auto|].
  - intros Hu. apply list_elem_of_lookup in Hu as [j Hj]. apply lookup_take_Some in Hj as [Hj Hlt].
    by specialize (Hbefore j _ Hlt Hj).
  - destruct (Hpush i v Hr) as [->|Hh]; auto.
Qed.

(** C12. Read boundaries do not matter: while the stream fits the head buffer
    and has at most 256 heads, reading it in any chunks leaves in the queue
    exactly the verdicts of its heads; only the [Terminal] of a malformed head
    may still be outstanding, until its empty line arrives. *)
Theorem chunking_invariant chunks :
  length (concat chunks) < max_head_bytes ->
  length (heads (concat chunks)) <= MAX_PENDING_VERDICTS ->
  exists st, conn_run max_head_bytes max_headers Inspector_new (map Read chunks) = Some (st, [])
    /\ (heads (concat chunks) = pending st
        \/ (heads (concat chunks) = pending st ++ [Terminal] /\ state st = Head)).
Proof. apply reads_verdicts. Qed.

(** A complete head is classified by its fields alone: [Ambiguous] iff both
    [Transfer-Encoding] and [Content-Length] occur, in any order and letter
    case; [Persistent] iff there is no [Transfer-Encoding], no [Upgrade], the
    method is not [CONNECT] and every [Content-Length] is the same decodable
    number, which is then the length of the skipped body (0 without the field);
    a length is decodable iff it is digits only, of value at most 2^64 - 3. *)
Theorem head_classification bytes n v l :
  inspect bytes = Complete n v l ->
  exists method headers, httparse max_headers bytes = PComplete n method headers
  /\ (v = Ambiguous <-> Exists (fun h => is_te h = true) headers /\ Exists (fun h => is_cl h = true) headers)
  /\ (v = Persistent <->
        Forall (fun h => is_te h = false /\ is_up h = false) headers
        /\ match method with Some m => eq_ignore_ascii_case m §"CONNECT" = false | None => True end
        /\ exists k, Forall (fun h => is_cl h = true -> parse_content_length h.2 = Some k) headers)
  /\ (v = Persistent ->
        Forall (fun h => is_cl h = true -> parse_content_length h.2 = Some l) headers
        /\ (Forall (fun h => is_cl h = false) headers -> l = 0%Z))
  /\ (forall h, h ∈ headers -> forall k, parse_content_length h.2 = Some k <->
        h.2 <> [] /\ forallb is_ascii_digit h.2 = true /\ k = digits_value h.2
        /\ (k <= MAX_DECODABLE_LENGTH)%Z).
Proof.
  unfold inspect_head. intros Hi. destruct (httparse _ bytes) as [n' m hs| |]; try done.
  pose proof (classify_spec m hs) as (Ha & Hp & Hl & _). cbn zeta in *.
  destruct (classify m hs) as [v' l']. injection Hi as -> -> ->. cbn [fst snd] in *.
  exists m, hs. split; [done|]. split; [done|]. split.
  { rewrite Hp. destruct m; naive_solver. }
  split; [done|]. intros h _ k. apply parse_content_length_Some.
Qed.
End reference.

(** ** A reference head parser

    Skips empty lines, ends the head at the first empty line, and splits the
    lines; it satisfies the laws of [HttpParse]. *)

Fixpoint find_end (s : str) : option nat :=
  match s with
  | [] => None
  | _ :: rest =>
      if starts_with [LF; LF] s then Some 2
      else if starts_with [LF; CR; LF] s then Some 3
      else S <$> find_end rest
  end.

Definition split_head (s : str) : option str * list (str * str) :=
  let lines := map (fun l => trim_end_matches CR l) (split_on LF s) in
  (match lines with line :: _ => fst <$> split_once Byte.x20 line | [] => None end,
   omap (fun line => match split_once Byte.x3a line with
                     | Some (name, value) => Some (name, trim value)
                     | None => None end) (tail lines)).

Definition reference_httparse (mh : nat) (b : str) : ParseStatus :=
  let k := leading_empty b in
  match find_end (drop k b) with
  | None => PPartial
  | Some n => let '(m, hs) := split_head (take n (drop k b)) in PComplete (k + n) m hs
  end.

Lemma starts_with_take p s : starts_with p s = true <-> take (length p) s = p.
Proof.
  unfold starts_with. rewrite bool_decide_eq_true. revert s.
  induction p as [|c p IH]; intros s; cbn [strip_prefix length]; [by rewrite is_Some_alt|].
  destruct s as [|d s]; [by rewrite is_Some_alt|]. cbn [take]. case_bool_decide.
  - subst. rewrite IH. split; congruence.
  - rewrite is_Some_alt. split; [done|]. congruence.
Qed.

Lemma starts_with_cut p n s more :
  length p <= n -> n <= length s -> starts_with p (take n s ++ more) = starts_with p s.
Proof.
  intros Hp Hn. apply eq_bool_prop_intro. rewrite !Is_true_true, !starts_with_take.
  rewrite take_app_le by (rewrite length_take; lia). rewrite take_take, Nat.min_l by lia. done.
Qed.

Lemma find_end_spec s n :
  find_end s = Some n ->
  2 <= n <= length s
  /\ (ends_with [LF; LF] (take n s) = true \/ ends_with [LF; CR; LF] (take n s) = true)
  /\ forall more, find_end (take n s ++ more) = Some n.
Proof.
  revert n. induction s as [|c s IH]; intros n; [done|]. cbn [find_end].
  destruct (starts_with [LF; LF] (c :: s)) eqn:E2.
  { intros [= <-]. apply starts_with_take in E2. cbn [length] in E2.
    pose proof (f_equal length E2) as Hl. rewrite length_take in Hl. cbn [length] in Hl.
    rewrite E2. split; [cbn [length]; lia|]. split; [by left|]. done. }
  destruct (starts_with [LF; CR; LF] (c :: s)) eqn:E3.
  { intros [= <-]. apply starts_with_take in E3. cbn [length] in E3.
    pose proof (f_equal length E3) as Hl. rewrite length_take in Hl. cbn [length] in Hl.
    rewrite E3. split; [cbn [length]; lia|]. split; [by right|]. done. }
  destruct (find_end s) as [k|] eqn:Ek; [|done]. intros [= <-].
  destruct (IH k eq_refl) as ([Hk Hle] & He & Hm). cbn [length]. split; [lia|]. split.
  - rewrite !ends_with_iff in *. cbn [take].
    destruct He as [[q ->]|[q ->]]; [left|right]; by exists (c :: q).
  - intros more. pose proof (starts_with_cut [LF; LF] (S k) (c :: s) more) as C2.
    pose proof (starts_with_cut [LF; CR; LF] (S k) (c :: s) more) as C3.
    cbn [take app find_end length] in *. rewrite C2, C3, E2, E3, Hm by lia. done.
Qed.

Lemma leading_empty_keep t n more :
  leading_empty t = 0 -> 2 <= n <= length t -> leading_empty (take n t ++ more) = 0.
Proof.
  destruct t as [|c [|d t]], n as [|[|n]]; cbn [length take app]; try (intros; lia).
  intros Ht _. cbn [leading_empty] in *.
  case_bool_decide; [done|]. case_bool_decide; [|done]. by case_bool_decide.
Qed.

Lemma leading_empty_line line b :
  line = [LF] \/ line = [CR; LF] -> leading_empty (line ++ b) = length line + leading_empty b.
Proof. by intros [-> | ->]. Qed.

Lemma leading_empty_prefix b t :
  leading_empty (take (leading_empty b) b ++ t) = leading_empty b + leading_empty t.
Proof.
  induction b as [b IH] using (induction_ltof1 _ (@length byte)); unfold ltof in IH.
  destruct (leading_empty_cases b) as [E|(line & rest & Hl & -> & ->)]; [by rewrite E, take_0|].
  rewrite <- take_take_drop, take_app_length, drop_app_length, <- !app_assoc.
  specialize (IH rest ltac:(rewrite length_app; destruct Hl as [-> | ->]; cbn; lia)).
  rewrite leading_empty_line, IH by done. lia.
Qed.

#[local, refine] Instance reference_HttpParse : HttpParse := {| httparse := reference_httparse |}.
Proof.
  - done.
  - intros mh b n m hs. unfold reference_httparse.
    destruct (leading_empty_drop b) as [Hk H0]. set (k := leading_empty b) in *.
    destruct (find_end (drop k b)) as [e|] eqn:Ee; [|done].
    destruct (split_head _) as [m' hs'] eqn:Es. intros [= <- -> ->].
    destruct (find_end_spec _ _ Ee) as (He & _ & Hm). rewrite length_drop in He. split; [lia|].
    intros more. rewrite <- take_take_drop, <- app_assoc.
    assert (leading_empty (take k b ++ take e (drop k b) ++ more) = k) as ->.
    { unfold k at 1. rewrite leading_empty_prefix, leading_empty_keep;
        [unfold k; lia|done|rewrite length_drop; lia]. }
    rewrite drop_app_length' by (rewrite length_take; lia).
    rewrite Hm, take_app_length' by (rewrite length_take, length_drop; lia). by rewrite Es.
  - intros mh b more. unfold reference_httparse. destruct (find_end _); [|done].
    by destruct (split_head _).
  - intros mh b line Hl. unfold reference_httparse.
    rewrite leading_empty_line by done. rewrite <- drop_drop, drop_app_length. destruct (find_end _); [|done].
    destruct (split_head _). cbn. by rewrite Nat.add_assoc.
  - intros mh b n m hs. unfold reference_httparse. intros Hp H0. rewrite H0, drop_0 in Hp.
    destruct (find_end b) as [e|] eqn:Ee; [|done]. destruct (split_head _). injection Hp as <- _ _.
    by apply find_end_spec in Ee as (_ & ? & _).
Defined.

(** ** Witnesses *)

Definition crlf (s : string) : str := lit s ++ [CR; LF].

(** Two pipelined requests; the first has a body of three bytes. *)
Definition demo_stream : str :=
  crlf "POST /a HTTP/1.1" ++ crlf "Content-Length: 3" ++ [CR; LF] ++ lit "xyz"
  ++ crlf "GET /b HTTP/1.1" ++ crlf "transfer-encoding: chunked" ++ crlf "Content-Length: 1" ++ [CR; LF].

Definition demo_chunks : list str := [take 7 demo_stream; take 35 (drop 7 demo_stream); drop 42 demo_stream].

Example demo_heads : heads 100 demo_stream = [Persistent; Ambiguous].
Proof. vm_compute. reflexivity. Qed.

Lemma dispatched_verdicts_sound_witness :
  exists st outs,
    conn_run 200 100 Inspector_new (Dispatch :: map Read demo_chunks ++ [Dispatch]) = Some (st, outs)
    /\ outs = [Unclassified; Persistent].
Proof.
  destruct (dispatched_verdicts_sound 200 100 (Dispatch :: map Read demo_chunks ++ [Dispatch]))
    as (st & outs & E & _).
  exists st, outs. split; [exact E|]. vm_compute in E. injection E as _ <-. reflexivity.
Defined.

Lemma chunking_invariant_witness :
  exists st, conn_run 200 100 Inspector_new (map Read demo_chunks) = Some (st, [])
             /\ pending st = [Persistent; Ambiguous].
Proof.
  destruct (chunking_invariant 200 100 demo_chunks ltac:(vm_compute; lia) ltac:(vm_compute; lia))
    as (st & E & _).
  exists st. split; [exact E|]. vm_compute in E. injection E as <-. reflexivity.
Defined.

Lemma head_classification_witness :
  exists method headers,
    httparse 100 demo_stream = PComplete 39 method headers
    /\ Forall (fun h => is_cl h = true -> parse_content_length h.2 = Some 3%Z) headers.
Proof.
  assert (Hi : inspect_head 100 demo_stream = Complete 39 Persistent 3) by (vm_compute; reflexivity).
  destruct (head_classification 100 demo_stream 39 Persistent 3 Hi) as (m & hs & E & _ & _ & Hl & _).
  exists m, hs. split; [exact E|]. exact (proj1 (Hl eq_refl)).
Defined.
