(* ===== verification/Session.v ===== *)
(** * The in-memory session store ([src/app/session.rs])

    [SessionStore] with its sixteen shards, the expiry index of each shard, the
    entry counter, the clean-up schedule and the rotation records; every
    operation is a function on the store. [Instant]s and [Duration]s are
    nanosecond counts; each [Instant::now()] is an argument. The hash behind
    [shard_index] is arbitrary. Operations are atomic here: each one is the
    sequence of its critical sections run without interference. *)
From S2P Require Import Prelude Strs.

Definition usize_modulus : Z := 18446744073709551616.
Definition usize_max : Z := usize_modulus - 1.

Definition SESSION_STORE_SHARDS : nat := 16.
Definition STORE_CLEANUP_BATCH : Z := 256.
Definition second : Z := 1000000000.
Definition STORE_CLEANUP_INTERVAL : Z := 60 * second.
Definition ROTATION_RECORD_TTL : Z := 60 * second.

Inductive SessionDataErrorKind :=
| EmptyKey
| KeyTooLarge
| ValueTooLarge
| TooManyEntries
| SessionTooLarge
| SessionUnavailable.

Record SessionDataError := SessionDataError_new {
  error_kind : SessionDataErrorKind;
  error_limit : option Z
}.

Record SessionDataLimits := mkSessionDataLimits {
  limit_entries : Z;
  limit_key_bytes : Z;
  limit_value_bytes : Z;
  limit_total_bytes : Z
}.

Record SessionEntry := mkSessionEntry {
  data : gmap str str;
  expires_at : Z
}.

(** The index key: [ShardExpiryKey] as (expires_at, session_id). *)
Record SessionShard := mkSessionShard {
  shard_entries : gmap str SessionEntry;
  shard_expiry : gset (Z * str)
}.
Definition SessionShard_default : SessionShard := mkSessionShard ∅ ∅.

Record StoreMaintenance := mkStoreMaintenance {
  next_cleanup : Z;
  cleanup_shard : nat
}.

Record SessionStore := mkSessionStore {
  shards : list SessionShard;
  entries : Z;
  maintenance : StoreMaintenance;
  rotations : gmap str (str * Z)
}.

(** [Ord] of [ShardExpiryKey]: the instant, then the id bytewise. *)
Definition key_leb (a b : Z * str) : bool :=
  (a.1 <? b.1)%Z || ((a.1 =? b.1)%Z && str_leb a.2 b.2).

(** [BTreeSet::first]. *)
Definition first_key (s : gset (Z * str)) : option (Z * str) :=
  match elements s with
  | [] => None
  | k :: ks => Some (foldl (fun best k => if key_leb best k then best else k) k ks)
  end.

(** [AtomicUsize::fetch_sub] and [fetch_add] wrap. *)
Definition usize_sub (a b : Z) : Z := (a - b) mod usize_modulus.
Definition usize_add (a b : Z) : Z := (a + b) mod usize_modulus.

(** ** Shards *)

Definition expiry_key (session_id : str) (entry : SessionEntry) : Z * str :=
  (expires_at entry, session_id).

Definition insert_entry (shard : SessionShard) (session_id : str) (entry : SessionEntry)
  : SessionShard * bool :=
  let key := expiry_key session_id entry in
  let previous := shard_entries shard !! session_id in
  let expiry := match previous with
                | Some previous => shard_expiry shard ∖ {[expiry_key session_id previous]}
                | None => shard_expiry shard end in
  (mkSessionShard (<[session_id := entry]> (shard_entries shard)) ({[key]} ∪ expiry),
   match previous with None => true | Some _ => false end).

Definition remove_entry (shard : SessionShard) (session_id : str) : SessionShard * option SessionEntry :=
  match shard_entries shard !! session_id with
  | None => (shard, None)
  | Some entry =>
      (mkSessionShard (delete session_id (shard_entries shard))
         (shard_expiry shard ∖ {[expiry_key session_id entry]}), Some entry)
  end.

(** The [while removed < maximum] loop; an index key without its entry is the
    [debug_assert!] branch. Every iteration takes one key out of the index: the
    fuel is its size. *)
Fixpoint remove_expired_loop (fuel : nat) (shard : SessionShard) (now maximum removed : Z)
  : option (SessionShard * Z) :=
  if (removed <? maximum)%Z then
    match first_key (shard_expiry shard) with
    | None => Some (shard, removed)
    | Some candidate =>
        if (now <? candidate.1)%Z then Some (shard, removed)
        else
          match fuel with
          | O => None
          | S fuel =>
              let expiry := shard_expiry shard ∖ {[candidate]} in
              let matches_index := match shard_entries shard !! candidate.2 with
                                   | Some entry => (expires_at entry =? candidate.1)%Z
                                   | None => false end in
              if matches_index then
                remove_expired_loop fuel
                  (mkSessionShard (delete candidate.2 (shard_entries shard)) expiry)
                  now maximum (removed + 1)
              else
                remove_expired_loop fuel (mkSessionShard (shard_entries shard) expiry)
                  now maximum removed
          end
    end
  else Some (shard, removed).

Definition remove_expired_entries (shard : SessionShard) (now maximum : Z) : SessionShard * Z :=
  default (shard, 0%Z)
    (remove_expired_loop (size (shard_expiry shard)) shard now maximum 0).

(** The test that opens every operation on one session. *)
Definition is_expired (shard : SessionShard) (session_id : str) (now : Z) : bool :=
  match shard_entries shard !! session_id with
  | Some entry => (expires_at entry <=? now)%Z
  | None => false
  end.

(** ** The store *)

Section store.
(** [DefaultHasher] on the id, and the largest representable [Instant]. *)
Context (hash : str -> Z) (instant_max : Z).

Definition checked_add_instant (now d : Z) : option Z :=
  if (now + d <=? instant_max)%Z then Some (now + d)%Z else None.

(** [SessionStore::expiry]. *)
Definition expiry (now idle_timeout : Z) : Z :=
  default now (checked_add_instant now idle_timeout).

(** [SessionStore::renew]. *)
Definition renew (shard : SessionShard) (session_id : str) (now idle_timeout : Z)
  : SessionShard * bool :=
  match shard_entries shard !! session_id with
  | None => (shard, false)
  | Some entry =>
      let previous := expiry_key session_id entry in
      let entry := mkSessionEntry (data entry) (expiry now idle_timeout) in
      (mkSessionShard (<[session_id := entry]> (shard_entries shard))
         ({[expiry_key session_id entry]} ∪ (shard_expiry shard ∖ {[previous]})), true)
  end.

Definition SessionStore_new (now : Z) : SessionStore :=
  mkSessionStore (replicate SESSION_STORE_SHARDS SessionShard_default) 0
    (mkStoreMaintenance (now + STORE_CLEANUP_INTERVAL) 0) ∅.

Definition shard_index (st : SessionStore) (session_id : str) : nat :=
  Z.to_nat ((hash session_id mod usize_modulus) mod Z.of_nat (length (shards st))).

(** [lock_unpoisoned(&self.shards[i])] for reading and for writing back. *)
Definition shard_at (st : SessionStore) (i : nat) : SessionShard :=
  default SessionShard_default (shards st !! i).
Definition put_shard (st : SessionStore) (i : nat) (shard : SessionShard) : SessionStore :=
  mkSessionStore (<[i := shard]> (shards st)) (entries st) (maintenance st) (rotations st).
Definition set_entries (st : SessionStore) (n : Z) : SessionStore :=
  mkSessionStore (shards st) n (maintenance st) (rotations st).
Definition set_maintenance (st : SessionStore) (m : StoreMaintenance) : SessionStore :=
  mkSessionStore (shards st) (entries st) m (rotations st).
Definition set_rotations (st : SessionStore) (r : gmap str (str * Z)) : SessionStore :=
  mkSessionStore (shards st) (entries st) (maintenance st) r.

(** Drops an expired session on access: the common opening of [resume],
    [create], [get], [set] and [remove]. *)
Definition drop_session (st : SessionStore) (session_id : str) : SessionStore :=
  let i := shard_index st session_id in
  let '(shard, _) := remove_entry (shard_at st i) session_id in
  let st := put_shard st i shard in
  set_entries st (usize_sub (entries st) 1).

Definition resume (st : SessionStore) (session_id : str) (idle_timeout now : Z) : SessionStore * bool :=
  let i := shard_index st session_id in
  if is_expired (shard_at st i) session_id now then (drop_session st session_id, false)
  else
    let '(shard, renewed) := renew (shard_at st i) session_id now idle_timeout in
    (put_shard st i shard, renewed).

(** The [while remaining > 0 && visited < self.shards.len()] loop; [left] is
    [self.shards.len() - visited]. *)
Fixpoint cleanup_loop (left : nat) (st : SessionStore) (now remaining removed : Z)
  : SessionStore * Z * Z :=
  match left with
  | O => (st, remaining, removed)
  | S left' =>
      if (0 <? remaining)%Z then
        let visited := (length (shards st) - left)%nat in
        let index := ((cleanup_shard (maintenance st) + visited) mod length (shards st))%nat in
        let '(shard, shard_removed) := remove_expired_entries (shard_at st index) now remaining in
        let st := put_shard st index shard in
        let removed := (removed + shard_removed)%Z in
        let remaining := (remaining - shard_removed)%Z in
        if (remaining =? 0)%Z then
          (set_maintenance st (mkStoreMaintenance (next_cleanup (maintenance st)) index),
           remaining, removed)
        else cleanup_loop left' st now remaining removed
      else (st, remaining, removed)
  end.

Definition cleanup_expired_batch (st : SessionStore) (now : Z) : SessionStore :=
  let '(st, remaining, removed) := cleanup_loop (length (shards st)) st now STORE_CLEANUP_BATCH 0 in
  let st := if (0 <? removed)%Z then set_entries st (usize_sub (entries st) removed) else st in
  let m := maintenance st in
  if (remaining =? 0)%Z then set_maintenance st (mkStoreMaintenance now (cleanup_shard m))
  else set_maintenance st
         (mkStoreMaintenance (default now (checked_add_instant now STORE_CLEANUP_INTERVAL))
            ((cleanup_shard m + 1) mod length (shards st))).

Definition cleanup_if_needed (st : SessionStore) (now : Z) : SessionStore * bool :=
  if (now <? next_cleanup (maintenance st))%Z then (st, false)
  else (cleanup_expired_batch st now, true).

(** The admission half of [create], after the lookup of an existing session. *)
Definition admit_session (st : SessionStore) (session_id : str) (idle_timeout max_sessions now : Z)
  : SessionStore * bool :=
  let '(st, cleanup_attempted) := cleanup_if_needed st now in
  let st := if (max_sessions <=? entries st)%Z && negb cleanup_attempted
            then cleanup_expired_batch st now else st in
  if (max_sessions <=? entries st)%Z then (st, false)
  else
    let i := shard_index st session_id in
    let '(shard, is_new) :=
      insert_entry (shard_at st i) session_id (mkSessionEntry ∅ (expiry now idle_timeout)) in
    let st := put_shard st i shard in
    ((if is_new : bool then set_entries st (usize_add (entries st) 1) else st), true).

Definition create (st : SessionStore) (session_id : str) (idle_timeout max_sessions now : Z)
  : SessionStore * bool :=
  let i := shard_index st session_id in
  let st := if is_expired (shard_at st i) session_id now then drop_session st session_id else st in
  let '(shard, renewed) := renew (shard_at st i) session_id now idle_timeout in
  if renewed : bool then (put_shard st i shard, true)
  else admit_session st session_id idle_timeout max_sessions now.

Definition get (st : SessionStore) (session_id key : str) (idle_timeout now : Z)
  : SessionStore * option str :=
  let i := shard_index st session_id in
  if is_expired (shard_at st i) session_id now then (drop_session st session_id, None)
  else
    let '(shard, renewed) := renew (shard_at st i) session_id now idle_timeout in
    let st := put_shard st i shard in
    (st, if renewed : bool
         then shard_entries (shard_at st i) !! session_id ≫= fun entry => data entry !! key
         else None).

Definition validate_session_value (key value : str) (limits : SessionDataLimits)
  : result unit SessionDataError :=
  let klen := Z.of_nat (length key) in
  let vlen := Z.of_nat (length value) in
  if bool_decide (key = []) then Err (SessionDataError_new EmptyKey None)
  else if (limit_key_bytes limits <? klen)%Z then
    Err (SessionDataError_new KeyTooLarge (Some (limit_key_bytes limits)))
  else if (limit_value_bytes limits <? vlen)%Z then
    Err (SessionDataError_new ValueTooLarge (Some (limit_value_bytes limits)))
  else if (usize_max <? klen + vlen)%Z || (limit_total_bytes limits <? klen + vlen)%Z then
    Err (SessionDataError_new SessionTooLarge (Some (limit_total_bytes limits)))
  else Ok tt.

(** [checked_add] on [usize]. *)
Definition checked_usize (n : Z) : option Z := if (n <=? usize_max)%Z then Some n else None.

(** The [try_fold] that sums the stored bytes. *)
Definition data_bytes (d : gmap str str) : option Z :=
  foldl (fun total kv =>
           total ← total;
           total ← checked_usize (total + Z.of_nat (length (kv : str * str).1));
           checked_usize (total + Z.of_nat (length (kv : str * str).2)))
    (Some 0%Z) (map_to_list d).

(** The body of [set] once the entry is there: the new data or the error. *)
Definition set_value (d : gmap str str) (key value : str) (limits : SessionDataLimits)
  : result (gmap str str) SessionDataError :=
  let too_large := Err (SessionDataError_new SessionTooLarge (Some (limit_total_bytes limits))) in
  let is_new_key := bool_decide (d !! key = None) in
  if is_new_key && (limit_entries limits <=? Z.of_nat (size d))%Z then
    Err (SessionDataError_new TooManyEntries (Some (limit_entries limits)))
  else
    match data_bytes d with
    | None => too_large
    | Some current_bytes =>
        let replaced_bytes := match d !! key with
                              | Some old => Z.of_nat (length key) + Z.of_nat (length old)
                              | None => 0 end%Z in
        let next_bytes :=
          total ← (if (current_bytes <? replaced_bytes)%Z then None
                   else Some (current_bytes - replaced_bytes)%Z);
          total ← checked_usize (total + Z.of_nat (length key));
          checked_usize (total + Z.of_nat (length value)) in
        match next_bytes with
        | Some total => if (total <=? limit_total_bytes limits)%Z
                        then Ok (<[key := value]> d) else too_large
        | None => too_large
        end
    end.

(** The last critical section of [set]. *)
Definition write_value (st : SessionStore) (session_id key value : str) (limits : SessionDataLimits)
    (now : Z) : SessionStore * result unit SessionDataError :=
  let i := shard_index st session_id in
  if is_expired (shard_at st i) session_id now then
    (drop_session st session_id, Err (SessionDataError_new SessionUnavailable None))
  else
    match shard_entries (shard_at st i) !! session_id with
    | None => (st, Err (SessionDataError_new SessionUnavailable None))
    | Some entry =>
        match set_value (data entry) key value limits with
        | Err e => (st, Err e)
        | Ok d =>
            let shard := shard_at st i in
            (put_shard st i
               (mkSessionShard
                  (<[session_id := mkSessionEntry d (expires_at entry)]> (shard_entries shard))
                  (shard_expiry shard)), Ok tt)
        end
    end.

(** The three [Instant::now()] of [set]: in [resume], in [create] and before
    the write. *)
Definition set (st : SessionStore) (session_id key value : str) (idle_timeout max_sessions : Z)
    (limits : SessionDataLimits) (now1 now2 now3 : Z) : SessionStore * result unit SessionDataError :=
  match validate_session_value key value limits with
  | Err e => (st, Err e)
  | Ok _ =>
      let '(st, resumed) := resume st session_id idle_timeout now1 in
      let '(st, present) := if resumed : bool then (st, true)
                            else create st session_id idle_timeout max_sessions now2 in
      if negb present then (st, Err (SessionDataError_new SessionUnavailable None))
      else
        write_value st session_id key value limits now3
  end.

Definition remove (st : SessionStore) (session_id key : str) (idle_timeout now : Z) : SessionStore :=
  let i := shard_index st session_id in
  if is_expired (shard_at st i) session_id now then drop_session st session_id
  else
    let '(shard, renewed) := renew (shard_at st i) session_id now idle_timeout in
    let st := put_shard st i shard in
    if renewed : bool then
      put_shard st i
        (mkSessionShard
           (alter (fun e => mkSessionEntry (delete key (data e)) (expires_at e)) session_id
              (shard_entries shard)) (shard_expiry shard))
    else st.

Definition clear (st : SessionStore) (session_id : str) : SessionStore :=
  let i := shard_index st session_id in
  let '(shard, removed) := remove_entry (shard_at st i) session_id in
  let st := put_shard st i shard in
  match removed with
  | Some _ => set_entries st (usize_sub (entries st) 1)
  | None => st
  end.

Fixpoint live_len_loop (left : nat) (st : SessionStore) (now removed : Z) : SessionStore * Z :=
  match left with
  | O => (st, removed)
  | S left' =>
      let i := (length (shards st) - left)%nat in
      let '(shard, n) := remove_expired_entries (shard_at st i) now usize_max in
      live_len_loop left' (put_shard st i shard) now (removed + n)
  end.

Definition live_len (st : SessionStore) (now : Z) : SessionStore * Z :=
  let '(st, removed) := live_len_loop (length (shards st)) st now 0 in
  let st := if (0 <? removed)%Z then set_entries st (usize_sub (entries st) removed) else st in
  (st, entries st).

Definition rotate (st : SessionStore) (old_id new_id : str) (idle_timeout now : Z)
  : SessionStore * bool :=
  let i := shard_index st old_id in
  let '(shard, entry) := remove_entry (shard_at st i) old_id in
  let st := put_shard st i shard in
  match entry with
  | None => (st, false)
  | Some entry =>
      if (expires_at entry <=? now)%Z then (set_entries st (usize_sub (entries st) 1), false)
      else
        let moved := mkSessionEntry (data entry) (expiry now idle_timeout) in
        let j := shard_index st new_id in
        let '(shard, is_new) := insert_entry (shard_at st j) new_id moved in
        let st := put_shard st j shard in
        ((if is_new : bool then st else set_entries st (usize_sub (entries st) 1)), true)
  end.

Definition record_rotation (st : SessionStore) (old_id new_id : str) (max_records now : Z)
  : SessionStore :=
  let kept := filter (fun kv => Z.max 0 (now - kv.2.2) < ROTATION_RECORD_TTL)%Z (rotations st) in
  set_rotations st
    (if (Z.of_nat (size kept) <? max_records)%Z then <[old_id := (new_id, now)]> kept else kept).

Definition take_rotation (st : SessionStore) (old_id : str) : SessionStore * option str :=
  (set_rotations st (delete old_id (rotations st)), fst <$> rotations st !! old_id).

(** [Sessions::regenerate] with the id [generate_id] produced; the instants of
    [rotate], [create] and [record_rotation]. *)
Definition regenerate (st : SessionStore) (session_id new_id : str) (idle_timeout max_sessions : Z)
    (now1 now2 now3 : Z) : SessionStore * result str SessionDataError :=
  let '(st, rotated) := rotate st session_id new_id idle_timeout now1 in
  let '(st, admitted) := if rotated : bool then (st, true)
                         else create st new_id idle_timeout max_sessions now2 in
  if negb admitted then (st, Err (SessionDataError_new SessionUnavailable None))
  else (record_rotation st session_id new_id max_sessions now3, Ok new_id).

(** The end of [Sessions::middleware]: the id to sign in the response cookie
    and whether it is alive (a dead one clears the cookie). *)
Definition middleware_reissue (st : SessionStore) (id : str) (idle_timeout now : Z)
  : SessionStore * str * bool :=
  let '(st, rotated) := take_rotation st id in
  let id := default id rotated in
  let '(st, alive) := resume st id idle_timeout now in
  (st, id, alive).
End store.

(** ** Shards keep an exact expiry index *)

Definition shard_ok (s : SessionShard) : Prop :=
  forall t id, (t, id) ∈ shard_expiry s <->
    exists e, shard_entries s !! id = Some e /\ expires_at e = t.

(** [s'] differs from [s] at most in the session [id]. *)
Record shard_update (s : SessionShard) (id : str) (s' : SessionShard) : Prop := {
  su_ok : shard_ok s';
  su_frame id' : id' <> id -> shard_entries s' !! id' = shard_entries s !! id'
}.

Lemma shard_ok_default : shard_ok SessionShard_default.
Proof. intros t id. cbn. split; [set_solver|]. intros (e & He & _). by rewrite lookup_empty in He. Qed.

(** Replacing the entry of [id] and its index key. *)
Lemma shard_update_put s id e :
  shard_ok s ->
  shard_update s id (mkSessionShard (<[id := e]> (shard_entries s))
    ({[expiry_key id e]} ∪ match shard_entries s !! id with
                           | Some old => shard_expiry s ∖ {[expiry_key id old]}
                           | None => shard_expiry s end)).
Proof.
  intros Hok. split; [|intros id' Hne; cbn; by rewrite lookup_insert_ne].
  intros t id'. cbn. unfold expiry_key. rewrite elem_of_union, elem_of_singleton.
  destruct (decide (id' = id)) as [->|Hne].
  - rewrite lookup_insert_eq. destruct (shard_entries s !! id) as [old|] eqn:E.
    + rewrite elem_of_difference, (Hok t id), E, elem_of_singleton. split; [|naive_solver].
      intros [[= ->]|((e' & [= <-] & Ht) & Hn)]; [by eexists|]. destruct Hn. congruence.
    + rewrite (Hok t id), E. naive_solver.
  - rewrite lookup_insert_ne by done.
    destruct (shard_entries s !! id) as [old|]; rewrite ?elem_of_difference, ?elem_of_singleton, (Hok t id');
      naive_solver.
Qed.

Lemma insert_entry_update s id e :
  shard_ok s ->
  shard_update s id (insert_entry s id e).1
  /\ shard_entries (insert_entry s id e).1 !! id = Some e
  /\ (insert_entry s id e).2 = bool_decide (shard_entries s !! id = None).
Proof.
  intros Hok. unfold insert_entry. cbn [fst snd]. split; [by apply shard_update_put|]. split.
  - cbn. by rewrite lookup_insert_eq.
  - by destruct (shard_entries s !! id).
Qed.

Lemma remove_entry_update s id :
  shard_ok s ->
  shard_update s id (remove_entry s id).1
  /\ shard_entries (remove_entry s id).1 !! id = None
  /\ (remove_entry s id).2 = shard_entries s !! id.
Proof.
  intros Hok. unfold remove_entry. destruct (shard_entries s !! id) as [e|] eqn:E; cbn; [|done].
  rewrite lookup_delete_eq. split; [|done]. split; cbn; [|intros; by rewrite lookup_delete_ne].
  intros t id'. cbn. rewrite elem_of_difference, elem_of_singleton, (Hok t id'). unfold expiry_key.
  destruct (decide (id' = id)) as [->|Hne].
  - rewrite lookup_delete_eq, E. naive_solver.
  - rewrite lookup_delete_ne by done. naive_solver.
Qed.

Lemma renew_update instant_max s id now idle :
  shard_ok s ->
  shard_update s id (renew instant_max s id now idle).1
  /\ shard_entries (renew instant_max s id now idle).1 !! id
     = (fun e => mkSessionEntry (data e) (expiry instant_max now idle)) <$> shard_entries s !! id
  /\ (renew instant_max s id now idle).2 = bool_decide (is_Some (shard_entries s !! id)).
Proof.
  intros Hok. unfold renew. destruct (shard_entries s !! id) as [e|] eqn:E; cbn [fst snd].
  - pose proof (shard_update_put s id (mkSessionEntry (data e) (expiry instant_max now idle)) Hok) as Hu.
    rewrite E in Hu. split; [exact Hu|]. cbn. rewrite lookup_insert_eq. done.
  - split; [done|]. by rewrite E.
Qed.

(** *** The expiry order *)

Lemma key_leb_instant a b : key_leb a b = true -> (a.1 <= b.1)%Z.
Proof. unfold key_leb. rewrite orb_true_iff, andb_true_iff. intros [?|[? _]]; bsplit; lia. Qed.

Lemma key_leb_instant_false a b : key_leb a b = false -> (b.1 <= a.1)%Z.
Proof. unfold key_leb. intros ?. bsplit. lia. Qed.

Lemma first_key_Some s k :
  first_key s = Some k -> k ∈ s /\ forall k', k' ∈ s -> (k.1 <= k'.1)%Z.
Proof.
  unfold first_key. setoid_rewrite <- elem_of_elements. destruct (elements s) as [|k0 ks]; [done|].
  intros [= <-].
  assert (Hf : forall best, let r := foldl (fun best k => if key_leb best k then best else k) best ks in
    (r = best \/ r ∈ ks) /\ (r.1 <= best.1)%Z /\ forall k', k' ∈ ks -> (r.1 <= k'.1)%Z).
  { induction ks as [|k ks IH]; intros best; cbn [foldl].
    { split; [by left|]. split; [lia|]. by intros k' ?%elem_of_nil. }
    destruct (key_leb best k) eqn:E.
    - destruct (IH best) as (Hin & Hle & Hall). apply key_leb_instant in E.
      split; [set_solver|]. split; [done|]. intros k' [->|Hk]%elem_of_cons; [lia|auto].
    - destruct (IH k) as (Hin & Hle & Hall). apply key_leb_instant_false in E.
      split; [set_solver|]. split; [lia|]. intros k' [->|Hk]%elem_of_cons; [lia|auto]. }
  destruct (Hf k0) as (Hin & Hle & Hall). split; [set_solver|].
  intros k' [->|Hk]%elem_of_cons; auto.
Qed.

Lemma first_key_None s : first_key s = None -> s = ∅.
Proof.
  unfold first_key. destruct (elements s) eqn:E; [|done]. intros _. by apply leibniz_equiv, elements_empty_inv.
Qed.

(** Removing expired entries: only expired ones go, at most [maximum], and all
    of them unless the maximum was reached. *)
Record swept (s : SessionShard) (now maximum : Z) (s' : SessionShard) (n : Z) : Prop := {
  sw_ok : shard_ok s';
  sw_bounds : (0 <= n <= Z.max 0 maximum)%Z;
  sw_size : Z.of_nat (size (shard_entries s)) = (Z.of_nat (size (shard_entries s')) + n)%Z;
  sw_keep id : shard_entries s' !! id = shard_entries s !! id
    \/ (shard_entries s' !! id = None
        /\ exists e, shard_entries s !! id = Some e /\ (expires_at e <= now)%Z);
  sw_all : (n < maximum)%Z -> forall id e, shard_entries s' !! id = Some e -> (now < expires_at e)%Z
}.

Lemma remove_expired_loop_spec fuel :
  forall s now maximum removed,
    shard_ok s -> size (shard_expiry s) <= fuel -> (0 <= removed)%Z ->
    exists s' n, remove_expired_loop fuel s now maximum removed = Some (s', (removed + n)%Z)
      /\ swept s now (maximum - removed) s' n.
Proof.
  assert (Hstop : forall s now maximum removed, shard_ok s ->
    ((removed < maximum)%Z -> forall id e, shard_entries s !! id = Some e -> (now < expires_at e)%Z) ->
    exists s' n, Some (s, removed) = Some (s', (removed + n)%Z) /\ swept s now (maximum - removed) s' n).
  { intros s now maximum removed Hok Hall. exists s, 0%Z. split; [by rewrite Z.add_0_r|].
    split; [done|lia|lia|by left|]. intros ?. apply Hall. lia. }
  induction fuel as [|fuel IH]; intros s now maximum removed Hok Hsize Hr; cbn [remove_expired_loop].
  all: destruct (Z.ltb_spec removed maximum) as [Hlt|Hge]; [|apply Hstop; [done|lia]].
  all: destruct (first_key (shard_expiry s)) as [[t id]|] eqn:Hf;
    [apply first_key_Some in Hf as [Hin Hmin]
    |apply first_key_None in Hf; apply Hstop; [done|]; intros _ id e He;
     assert ((expires_at e, id) ∈ shard_expiry s) by (apply Hok; eauto); set_solver].
  all: cbn [fst snd] in *; destruct (Z.ltb_spec now t) as [Hn|Hn];
    [apply Hstop; [done|]; intros _ id' e He;
     specialize (Hmin (expires_at e, id') ltac:(apply Hok; eauto)); cbn in Hmin; lia|].
  { exfalso. assert (size (shard_expiry s) <> 0); [|lia]. intros E. apply size_empty_inv in E. set_solver. }
  pose proof (proj1 (Hok t id) Hin) as (e & He & Ht). rewrite He, Ht, Z.eqb_refl.
  set (s1 := mkSessionShard (delete id (shard_entries s)) (shard_expiry s ∖ {[(t, id)]})).
  assert (Hok1 : shard_ok s1).
  { pose proof (remove_entry_update s id Hok) as ([Hu _] & _). unfold remove_entry in Hu.
    rewrite He in Hu. cbn in Hu. unfold expiry_key in Hu. by rewrite Ht in Hu. }
  assert (Hsz : size (shard_expiry s1) <= fuel).
  { cbn. rewrite size_difference, size_singleton by set_solver. lia. }
  destruct (IH s1 now maximum (removed + 1)%Z Hok1 Hsz ltac:(lia)) as (s' & n & -> & Hsw).
  exists s', (n + 1)%Z. split; [do 2 f_equal; lia|]. destruct Hsw as [Hok' Hb Hs Hk Ha].
  split; [done|lia| | |intros ?; apply Ha; lia].
  - cbn in Hs. assert (size (shard_entries s) <> 0) as Hne.
    { intros E. apply map_size_empty_inv in E. by rewrite E, lookup_empty in He. }
    rewrite map_size_delete_Some in Hs by eauto. lia.
  - intros id'. destruct (Hk id') as [E|[E (e' & He' & Hx)]]; cbn in *.
    + destruct (decide (id' = id)) as [->|Hd].
      * right. rewrite E, lookup_delete_eq. split; [done|]. exists e. split; [done|lia].
      * left. by rewrite E, lookup_delete_ne.
    + right. split; [done|]. exists e'. split; [|done]. by apply lookup_delete_Some in He' as [_ ?].
Qed.

Lemma remove_expired_entries_spec s now maximum :
  shard_ok s ->
  swept s now maximum (remove_expired_entries s now maximum).1 (remove_expired_entries s now maximum).2.
Proof.
  intros Hok. unfold remove_expired_entries.
  destruct (remove_expired_loop_spec (size (shard_expiry s)) s now maximum 0 Hok ltac:(lia) ltac:(lia))
    as (s' & n & -> & Hsw). cbn. by rewrite Z.sub_0_r in Hsw.
Qed.

(** ** The store invariant *)

Section store_invariant.
Context (hash : str -> Z) (instant_max : Z) (max_sessions : Z).
Hypothesis (max_sessions_ok : (0 < max_sessions <= usize_max)%Z).

Abbreviation index := (shard_index hash).

(** The entry stored for a session id. *)
Definition session_at (st : SessionStore) (id : str) : option SessionEntry :=
  shard_entries (shard_at st (index st id)) !! id.

Definition total (st : SessionStore) : Z :=
  foldr (fun s acc => Z.of_nat (size (shard_entries s)) + acc)%Z 0%Z (shards st).

(** Sixteen shards with exact indexes, each id in the shard of its hash. *)
Record struct_ok (st : SessionStore) : Prop := {
  st_len : length (shards st) = SESSION_STORE_SHARDS;
  st_shards i s : shards st !! i = Some s -> shard_ok s;
  st_place i s id : shards st !! i = Some s -> is_Some (shard_entries s !! id) -> index st id = i
}.

Record store_ok (st : SessionStore) : Prop := {
  so_struct : struct_ok st;
  so_count : entries st = total st;
  so_bound : (total st <= max_sessions)%Z
}.

Lemma total_insert l i s s' :
  l !! i = Some s ->
  let sum := foldr (fun s acc => Z.of_nat (size (shard_entries s)) + acc)%Z 0%Z in
  sum (<[i := s']> l) = (sum l - Z.of_nat (size (shard_entries s)) + Z.of_nat (size (shard_entries s')))%Z.
Proof.
  intros Hi sum. revert i Hi. induction l as [|x l IH]; intros [|i] Hi; cbn in Hi; simplify_eq.
  - cbn. lia.
  - change (<[S i := s']> (x :: l)) with (x :: <[i := s']> l). unfold sum in *. cbn. rewrite IH by done. lia.
Qed.

Lemma total_nonneg st : (0 <= total st)%Z.
Proof. unfold total. induction (shards st); cbn; lia. Qed.

Lemma total_ge st i s : shards st !! i = Some s -> (Z.of_nat (size (shard_entries s)) <= total st)%Z.
Proof.
  unfold total. revert i. induction (shards st) as [|x l IH]; intros [|i] Hi; cbn in *; simplify_eq.
  - assert (0 <= foldr (fun s acc => Z.of_nat (size (shard_entries s)) + acc)%Z 0%Z l)%Z; [|lia].
    clear. induction l; cbn; lia.
  - specialize (IH i Hi). lia.
Qed.

Lemma index_lt st id : struct_ok st -> index st id < SESSION_STORE_SHARDS.
Proof.
  intros [Hl _ _]. unfold shard_index. rewrite Hl.
  pose proof (Z.mod_pos_bound (hash id mod usize_modulus) (Z.of_nat SESSION_STORE_SHARDS) ltac:(done)). lia.
Qed.

Lemma shard_at_lookup st i : struct_ok st -> i < SESSION_STORE_SHARDS -> shards st !! i = Some (shard_at st i).
Proof.
  intros [Hl _ _] Hi. unfold shard_at.
  destruct (lookup_lt_is_Some_2 (shards st) i) as [s Hs]; [lia|]. by rewrite Hs.
Qed.

Lemma index_put st i s id : index (put_shard st i s) id = index st id.
Proof. unfold shard_index. cbn. by rewrite length_insert. Qed.

Lemma shard_at_put st i s j :
  struct_ok st -> i < SESSION_STORE_SHARDS ->
  shard_at (put_shard st i s) j = if decide (i = j) then s else shard_at st j.
Proof.
  intros [Hl _ _] Hi. unfold shard_at. cbn. destruct (decide (i = j)) as [->|Hne].
  - by rewrite list_lookup_insert_eq by lia.
  - by rewrite list_lookup_insert_ne.
Qed.

(** Writing back a shard with a consistent index and no misplaced id. *)
Lemma put_shard_struct st i s :
  struct_ok st -> i < SESSION_STORE_SHARDS -> shard_ok s ->
  (forall id, is_Some (shard_entries s !! id) -> index st id = i) ->
  struct_ok (put_shard st i s)
  /\ total (put_shard st i s)
     = (total st - Z.of_nat (size (shard_entries (shard_at st i))) + Z.of_nat (size (shard_entries s)))%Z
  /\ forall id, session_at (put_shard st i s) id
                = if decide (index st id = i) then shard_entries s !! id else session_at st id.
Proof.
  intros Hok Hi Hs Hplace. pose proof (shard_at_lookup st i Hok Hi) as Hat. split; [|split].
  - split; cbn.
    + rewrite length_insert. apply Hok.
    + intros j s'. rewrite list_lookup_insert. case_decide; [naive_solver|]. by apply Hok.
    + intros j s' id. rewrite list_lookup_insert. rewrite index_put. case_decide as Hj.
      * destruct Hj as [-> _]. intros [= <-]. apply Hplace.
      * by apply Hok.
  - unfold total. cbn. by rewrite (total_insert _ _ _ _ Hat).
  - intros id. unfold session_at. rewrite index_put, shard_at_put by done.
    repeat case_decide; congruence.
Qed.

Definition present (o : option SessionEntry) : Z := match o with Some _ => 1 | None => 0 end.

Lemma size_point_update (m m' : gmap str SessionEntry) id :
  (forall id', id' <> id -> m' !! id' = m !! id') ->
  (Z.of_nat (size m') + present (m !! id) = Z.of_nat (size m) + present (m' !! id))%Z.
Proof.
  intros Hf. assert (Hd : delete id m' = delete id m).
  { apply map_eq. intros id'. destruct (decide (id = id')) as [->|Hne].
    - by rewrite !lookup_delete_eq.
    - rewrite !lookup_delete_ne by done. by apply Hf. }
  assert (Hs : forall k : gmap str SessionEntry,
    Z.of_nat (size k) = (Z.of_nat (size (delete id k)) + present (k !! id))%Z).
  { intros k. destruct (k !! id) as [e|] eqn:E; cbn [present].
    - assert (size k <> 0). { intros H0. apply map_size_empty_inv in H0. by rewrite H0, lookup_empty in E. }
      rewrite map_size_delete_Some by eauto. lia.
    - rewrite delete_id by done. lia. }
  rewrite (Hs m), (Hs m'), Hd. lia.
Qed.

(** Writing back a point update of the shard of [id]. *)
Lemma put_update st id s :
  struct_ok st -> shard_update (shard_at st (index st id)) id s ->
  let st' := put_shard st (index st id) s in
  struct_ok st'
  /\ session_at st' id = shard_entries s !! id
  /\ (forall id', id' <> id -> session_at st' id' = session_at st id')
  /\ total st' = (total st - present (session_at st id) + present (shard_entries s !! id))%Z.
Proof.
  intros Hok [Hs Hf]. cbn zeta. pose proof (index_lt st id Hok) as Hi.
  destruct (put_shard_struct st (index st id) s Hok Hi Hs) as (Hok' & Ht & Hat).
  { intros id' Hp. destruct (decide (id' = id)) as [->|Hne]; [done|]. rewrite Hf in Hp by done.
    eapply st_place; [done| |done]. by apply shard_at_lookup. }
  split; [done|]. split; [|split].
  - rewrite Hat. by rewrite decide_True.
  - intros id' Hne. rewrite Hat. case_decide as E; [|done]. rewrite Hf by done.
    unfold session_at. by rewrite E.
  - rewrite Ht. pose proof (size_point_update _ _ id Hf). unfold session_at. lia.
Qed.

(** ** Operations on one session *)

(** [st'] is [st] with the session [id] now [o]. *)
Record updated (st : SessionStore) (id : str) (o : option SessionEntry) (st' : SessionStore) : Prop := {
  up_ok : store_ok st';
  up_at : session_at st' id = o;
  up_frame id' : id' <> id -> session_at st' id' = session_at st id';
  up_rotations : rotations st' = rotations st
}.

(** The session [id] as an observer at [now] sees it. *)
Definition live_at (st : SessionStore) (now : Z) (id : str) : option SessionEntry :=
  match session_at st id with
  | Some e => if (expires_at e <=? now)%Z then None else Some e
  | None => None
  end.

Lemma is_expired_live st id now :
  is_expired (shard_at st (index st id)) id now = true ->
  is_Some (session_at st id) /\ live_at st now id = None.
Proof.
  unfold is_expired, live_at, session_at.
  destruct (shard_entries _ !! id) as [e|]; [|done]. intros ->. by eauto.
Qed.

Lemma not_expired_live st id now :
  is_expired (shard_at st (index st id)) id now = false -> live_at st now id = session_at st id.
Proof.
  unfold is_expired, live_at, session_at. destruct (shard_entries _ !! id) as [e|]; [|done]. by intros ->.
Qed.

Lemma live_at_session st now id e :
  live_at st now id = Some e <-> session_at st id = Some e /\ (now < expires_at e)%Z.
Proof.
  unfold live_at. destruct (session_at st id) as [e'|]; [|naive_solver].
  destruct (Z.leb_spec (expires_at e') now); split; try done.
  - intros [[= <-] ?]. lia.
  - by intros [= <-].
  - by intros [[= <-] ?].
Qed.

(** Writing back a point update with a counter that follows it. *)
Lemma put_updated st id s n :
  store_ok st -> shard_update (shard_at st (index st id)) id s ->
  n = (entries st - present (session_at st id) + present (shard_entries s !! id))%Z ->
  (n <= max_sessions)%Z ->
  updated st id (shard_entries s !! id) (set_entries (put_shard st (index st id) s) n).
Proof.
  intros [Hst Hc Hb] Hu Hn Hmax. destruct (put_update st id s Hst Hu) as (Hok & Hat & Hf & Ht).
  split; [|exact Hat|exact Hf|done]. split; cbn; [|unfold total in *; cbn in *; lia|unfold total in *; cbn in *; lia].
  destruct Hok. by split.
Qed.

Lemma set_entries_same st i s : set_entries (put_shard st i s) (entries st) = put_shard st i s.
Proof. by destruct st. Qed.

(** The same when the number of sessions does not change. *)
Lemma put_updated_same st id s :
  store_ok st -> shard_update (shard_at st (index st id)) id s ->
  present (session_at st id) = present (shard_entries s !! id) ->
  updated st id (shard_entries s !! id) (put_shard st (index st id) s).
Proof.
  intros Hok Hu Hp. rewrite <- set_entries_same. apply put_updated; [done|done|lia|].
  rewrite (so_count _ Hok). apply Hok.
Qed.

Lemma shard_ok_at st i : struct_ok st -> shard_ok (shard_at st i).
Proof.
  intros Hst. unfold shard_at. destruct (shards st !! i) eqn:E; cbn; [by eapply st_shards|].
  apply shard_ok_default.
Qed.

Lemma session_present_total st id : store_ok st -> is_Some (session_at st id) -> (1 <= entries st)%Z.
Proof.
  intros Hok [e He]. rewrite (so_count _ Hok).
  pose proof (total_ge st _ _ (shard_at_lookup st _ (so_struct _ Hok) (index_lt st id (so_struct _ Hok)))).
  assert (size (shard_entries (shard_at st (index st id))) <> 0); [|lia].
  intros E. apply map_size_empty_inv in E. unfold session_at in He. by rewrite E, lookup_empty in He.
Qed.

Lemma usize_sub_small a b : (0 <= b <= a)%Z -> (a <= usize_max)%Z -> usize_sub a b = (a - b)%Z.
Proof. intros Hb Ha. unfold usize_sub, usize_max in *. apply Z.mod_small. lia. Qed.

Lemma drop_session_updated st id :
  store_ok st -> is_Some (session_at st id) -> updated st id None (drop_session hash st id).
Proof.
  intros Hok Hp. unfold drop_session.
  destruct (remove_entry_update _ id (shard_ok_at st (index st id) (so_struct _ Hok))) as (Hu & Hn & _).
  destruct (remove_entry _ id) as [s e]. cbn [fst] in *. rewrite <- Hn.
  pose proof (session_present_total st id Hok Hp) as H1. pose proof (so_bound _ Hok) as Hb.
  rewrite <- (so_count _ Hok) in Hb. destruct Hp as [e' He'].
  apply put_updated; [done|done| |]; cbn [entries put_shard]; rewrite usize_sub_small by lia.
  - rewrite He', Hn. cbn. lia.
  - lia.
Qed.

Lemma put_shard_twice st i s s' : put_shard (put_shard st i s) i s' = put_shard st i s'.
Proof. unfold put_shard. cbn. by rewrite list_insert_insert_eq. Qed.

(** Changing the data of one entry, not its expiry, keeps the index exact. *)
Lemma shard_update_data s0 id s s' e :
  shard_update s0 id s -> shard_entries s !! id = Some e ->
  (forall id', id' <> id -> shard_entries s' !! id' = shard_entries s !! id') ->
  (exists d, shard_entries s' !! id = Some (mkSessionEntry d (expires_at e))) ->
  shard_expiry s' = shard_expiry s -> shard_update s0 id s'.
Proof.
  intros [Hok Hf] He Hf' [d Hd] Hx. split.
  - intros t id'. rewrite Hx, (Hok t id'). destruct (decide (id' = id)) as [->|Hne].
    + rewrite He, Hd. naive_solver.
    + by rewrite Hf'.
  - intros id' Hne. by rewrite Hf', Hf.
Qed.

(** The sliding renewal every access performs. *)
Definition touched (now idle : Z) (e : SessionEntry) : SessionEntry :=
  mkSessionEntry (data e) (expiry instant_max now idle).

Lemma renew_updated st id now idle :
  store_ok st ->
  let r := renew instant_max (shard_at st (index st id)) id now idle in
  updated st id (touched now idle <$> session_at st id) (put_shard st (index st id) r.1)
  /\ r.2 = bool_decide (is_Some (session_at st id))
  /\ shard_update (shard_at st (index st id)) id r.1.
Proof.
  intros Hok. cbn zeta.
  destruct (renew_update instant_max _ id now idle (shard_ok_at st (index st id) (so_struct _ Hok)))
    as (Hu & Ha & Hr). fold (session_at st id) in Ha, Hr. split; [|done].
  change (touched now idle <$> session_at st id)
    with ((fun e => mkSessionEntry (data e) (expiry instant_max now idle)) <$> session_at st id).
  rewrite <- Ha. apply put_updated_same; [done|done|]. rewrite Ha. by destruct (session_at st id).
Qed.

Lemma resume_spec st id idle now :
  store_ok st ->
  updated st id (touched now idle <$> live_at st now id) (resume hash instant_max st id idle now).1
  /\ (resume hash instant_max st id idle now).2 = bool_decide (is_Some (live_at st now id)).
Proof.
  intros Hok. unfold resume. destruct (is_expired _ id now) eqn:E.
  - apply is_expired_live in E as [Hp ->]. split; [by apply drop_session_updated|done].
  - rewrite (not_expired_live _ _ _ E). destruct (renew_updated st id now idle Hok) as (Hu & Hr & _).
    destruct (renew _ _ _ _ _) as [s b]. done.
Qed.

Lemma get_spec st id key idle now :
  store_ok st ->
  updated st id (touched now idle <$> live_at st now id) (get hash instant_max st id key idle now).1
  /\ (get hash instant_max st id key idle now).2 = live_at st now id ≫= fun e => data e !! key.
Proof.
  intros Hok. unfold get. destruct (is_expired _ id now) eqn:E.
  - apply is_expired_live in E as [Hp ->]. split; [by apply drop_session_updated|done].
  - rewrite (not_expired_live _ _ _ E). destruct (renew_updated st id now idle Hok) as (Hu & Hr & _).
    destruct (renew _ _ _ _ _) as [s b]. cbn [fst snd] in *. split; [done|]. subst b.
    pose proof (up_at _ _ _ _ Hu) as Ha. unfold session_at at 1 in Ha. rewrite index_put in Ha. rewrite Ha.
    by destruct (session_at st id).
Qed.

Lemma remove_spec st id key idle now :
  store_ok st ->
  updated st id ((fun e => mkSessionEntry (delete key (data e)) (expiry instant_max now idle))
                   <$> live_at st now id) (remove hash instant_max st id key idle now).
Proof.
  intros Hok. unfold remove. destruct (is_expired _ id now) eqn:E.
  - apply is_expired_live in E as [Hp ->]. by apply drop_session_updated.
  - rewrite (not_expired_live _ _ _ E). destruct (renew_updated st id now idle Hok) as (Hu & Hr & Hs).
    destruct (renew _ _ _ _ _) as [s b]. cbn [fst snd] in *.
    destruct (session_at st id) as [e|] eqn:He; cbn in Hr; subst b; [|exact Hu].
    pose proof (up_at _ _ _ _ Hu) as Ha. unfold session_at in Ha. rewrite index_put in Ha.
    rewrite shard_at_put, decide_True in Ha by (done || by apply Hok || by apply index_lt, Hok).
    rewrite put_shard_twice. set (s2 := mkSessionShard _ _).
    assert (Hl : shard_entries s2 !! id = Some (mkSessionEntry (delete key (data e)) (expiry instant_max now idle))).
    { unfold s2. cbn. rewrite lookup_alter_eq, Ha. done. }
    cbn. rewrite <- Hl. apply put_updated_same; [done| |by rewrite He, Hl].
    apply (shard_update_data _ _ s _ (touched now idle e) Hs Ha).
    + intros id' Hne. cbn. by rewrite lookup_alter_ne.
    + rewrite Hl. eauto.
    + done.
Qed.

Lemma clear_spec st id : store_ok st -> updated st id None (clear hash st id).
Proof.
  intros Hok. unfold clear.
  destruct (remove_entry_update _ id (shard_ok_at st (index st id) (so_struct _ Hok))) as (Hu & Hn & Ho).
  fold (session_at st id) in Ho. pose proof (drop_session_updated st id Hok) as Hd.
  unfold drop_session in Hd. destruct (remove_entry _ id) as [s o]. cbn [fst snd] in *. subst o.
  destruct (session_at st id) as [e|] eqn:He; [by apply Hd|]. rewrite <- Hn.
  apply put_updated_same; [done|done|]. by rewrite He, Hn.
Qed.

(** ** Clean-up *)

(** Only sessions expired at [now] may be gone. *)
Record cleaned (st : SessionStore) (now : Z) (st' : SessionStore) : Prop := {
  cl_struct : struct_ok st';
  cl_keep id : session_at st' id = session_at st id
    \/ (session_at st' id = None /\ exists e, session_at st id = Some e /\ (expires_at e <= now)%Z);
  cl_rotations : rotations st' = rotations st
}.

Definition shard_clean (now : Z) (s : SessionShard) : Prop :=
  forall id e, shard_entries s !! id = Some e -> (now < expires_at e)%Z.

Lemma cleaned_refl st now : struct_ok st -> cleaned st now st.
Proof. intros Hok. split; [done|by left|done]. Qed.

Lemma cleaned_trans st1 now st2 st3 : cleaned st1 now st2 -> cleaned st2 now st3 -> cleaned st1 now st3.
Proof.
  intros [_ K1 R1] [S2 K2 R2]. split; [done| |congruence]. intros id.
  destruct (K2 id) as [E|[E (e & He & Hx)]].
  - rewrite E. apply K1.
  - right. split; [done|]. destruct (K1 id) as [E1|[E1 _]]; [|congruence].
    exists e. split; [congruence|done].
Qed.

(** Sweeping one shard. *)
Lemma sweep_shard st i now maximum :
  struct_ok st -> i < SESSION_STORE_SHARDS ->
  let r := remove_expired_entries (shard_at st i) now maximum in
  cleaned st now (put_shard st i r.1)
  /\ (0 <= r.2 <= Z.max 0 maximum)%Z
  /\ total (put_shard st i r.1) = (total st - r.2)%Z
  /\ ((r.2 < maximum)%Z -> shard_clean now r.1).
Proof.
  intros Hok Hi r. destruct (remove_expired_entries_spec (shard_at st i) now maximum (shard_ok_at _ _ Hok))
    as [Hs Hb Hsz Hk Ha]. fold r in Hs, Hb, Hsz, Hk, Ha.
  destruct (put_shard_struct st i r.1 Hok Hi Hs) as (Hok' & Ht & Hat).
  { intros id Hp. eapply st_place; [done|by apply shard_at_lookup|].
    destruct (Hk id) as [E|[E _]]; [by rewrite <- E|]. rewrite E in Hp. by destruct Hp. }
  split; [|split; [done|split; [lia|done]]]. split; [done| |done].
  intros id. rewrite Hat. case_decide as E; [|by left].
  unfold session_at. rewrite E. apply Hk.
Qed.

Lemma round_robin_covers c i n : i < n -> exists v, v < n /\ ((c + v) mod n = i)%nat.
Proof.
  intros Hi. assert (n <> 0) as Hn by lia. pose proof (Nat.mod_upper_bound c n Hn).
  exists ((i + (n - c mod n)) mod n)%nat. split; [by apply Nat.mod_upper_bound|].
  rewrite Nat.Div0.add_mod_idemp_r, (Nat.div_mod_eq c n) at 1.
  replace (n * (c / n) + c mod n + (i + (n - c mod n)))%nat with (i + (1 + c / n) * n)%nat by lia.
  rewrite Nat.Div0.mod_add. by apply Nat.mod_small.
Qed.

Lemma cleanup_loop_spec left :
  forall st now remaining removed,
    struct_ok st -> left <= SESSION_STORE_SHARDS -> (0 < remaining)%Z -> (0 <= removed)%Z ->
    (forall v, v < SESSION_STORE_SHARDS - left ->
       shard_clean now (shard_at st ((cleanup_shard (maintenance st) + v) mod SESSION_STORE_SHARDS))) ->
    let r := cleanup_loop left st now remaining removed in
    cleaned st now r.1.1 /\ entries r.1.1 = entries st
    /\ (0 <= r.1.2)%Z /\ (r.1.2 + r.2 = remaining + removed)%Z /\ (removed <= r.2)%Z
    /\ (total r.1.1 + r.2 = total st + removed)%Z
    /\ ((0 < r.1.2)%Z -> forall i, i < SESSION_STORE_SHARDS -> shard_clean now (shard_at r.1.1 i)).
Proof.
  induction left as [|left IH]; intros st now remaining removed Hok Hl Hrem Hr Hclean; cbn [cleanup_loop].
  { cbn [fst snd]. split_and!; try lia; [by apply cleaned_refl|]. intros _ i Hi.
    destruct (round_robin_covers (cleanup_shard (maintenance st)) i SESSION_STORE_SHARDS Hi) as (v & Hv & <-).
    apply Hclean. lia. }
  rewrite (proj2 (Z.ltb_lt _ _) Hrem). rewrite (st_len _ Hok).
  set (index := ((cleanup_shard (maintenance st) + (SESSION_STORE_SHARDS - S left)) mod SESSION_STORE_SHARDS)%nat).
  assert (Hi : index < SESSION_STORE_SHARDS) by (by apply Nat.mod_upper_bound).
  destruct (sweep_shard st index now remaining Hok Hi) as (Hc & Hb & Ht & Ha).
  destruct (remove_expired_entries _ now remaining) as [s n]. cbn [fst snd] in *.
  destruct (Z.eqb_spec (remaining - n) 0) as [E|Hne].
  - cbn [fst snd]. split_and!.
    + destruct Hc as [[] ? ?]. split; [by split|done|done].
    + done.
    + lia.
    + lia.
    + lia.
    + unfold total in *. cbn in *. lia.
    + intros. lia.
  - specialize (IH (put_shard st index s) now (remaining - n)%Z (removed + n)%Z (cl_struct _ _ _ Hc)
                  ltac:(lia) ltac:(lia) ltac:(lia)).
    destruct IH as (Hc' & He & H0 & H1 & H2 & H3 & H4).
    { intros v Hv. cbn [maintenance put_shard]. rewrite shard_at_put by done. case_decide as Ev.
      - apply Ha. lia.
      - apply Hclean. assert (v <> SESSION_STORE_SHARDS - S left); [|lia]. intros ->. by apply Ev. }
    split_and!; try done; try lia. by eapply cleaned_trans.
Qed.

Definition all_live (st : SessionStore) (now : Z) : Prop :=
  forall id e, session_at st id = Some e -> (now < expires_at e)%Z.

Lemma cleanup_expired_batch_spec st now :
  store_ok st ->
  let st' := cleanup_expired_batch instant_max st now in
  cleaned st now st' /\ store_ok st'
  /\ (entries st' = (entries st - STORE_CLEANUP_BATCH)%Z \/ all_live st' now).
Proof.
  intros Hok. unfold cleanup_expired_batch. rewrite (st_len _ (so_struct _ Hok)).
  destruct (cleanup_loop_spec SESSION_STORE_SHARDS st now STORE_CLEANUP_BATCH 0 (so_struct _ Hok)
              ltac:(done) ltac:(done) ltac:(done)) as (Hc & He & H0 & H1 & H2 & H3 & H4); [lia|].
  destruct (cleanup_loop _ _ _ _ _) as [[st1 remaining] removed]. cbn [fst snd] in *.
  destruct Hok as [Hs Hcount Hbound]. pose proof (total_nonneg st1) as Hnn.
  set (st2 := if (0 <? removed)%Z then _ else _).
  assert (Hst2 : entries st2 = (entries st - removed)%Z /\ shards st2 = shards st1
                 /\ rotations st2 = rotations st1 /\ maintenance st2 = maintenance st1).
  { unfold st2. destruct (Z.ltb_spec 0 removed); cbn; (split; [|done]); [|lia].
    rewrite He, usize_sub_small by lia. lia. }
  assert (Hsame : forall m, let st' := set_maintenance st2 m in
    cleaned st now st' /\ store_ok st' /\ (forall id, session_at st' id = session_at st1 id)).
  { intros m. destruct Hst2 as (E1 & E2 & E3 & _).
    assert (Hat : forall id, session_at (set_maintenance st2 m) id = session_at st1 id).
    { intros id. unfold session_at, shard_at, shard_index. cbn. by rewrite E2. }
    assert (Hst : struct_ok (set_maintenance st2 m)).
    { destruct Hc as [[L S P] _ _]. split; cbn; rewrite ?E2; [done|exact S|].
      intros i s id Hi Hp. rewrite <- (P i s id Hi Hp). unfold shard_index. cbn. by rewrite E2. }
    split_and!; [|split; [done| |]|done].
    - split; [done| |cbn; rewrite E3; apply Hc]. intros id. rewrite Hat. apply Hc.
    - cbn. unfold total in *. cbn. rewrite E1, E2. lia.
    - unfold total in *. cbn. rewrite E2. lia. }
  destruct (Z.eqb_spec remaining 0) as [E|Hne].
  - destruct (Hsame (mkStoreMaintenance now (cleanup_shard (maintenance st2)))) as (A & B & _).
    split; [exact A|]. split; [exact B|]. left. cbn. destruct Hst2 as [-> _].
    unfold STORE_CLEANUP_BATCH in *. lia.
  - set (m := mkStoreMaintenance _ _). destruct (Hsame m) as (A & B & D).
    split; [exact A|]. split; [exact B|]. right.
    intros id e. rewrite D. apply H4; [lia|]. apply index_lt, Hc.
Qed.

Lemma admit_session_spec st id idle now :
  store_ok st -> session_at st id = None ->
  let r := admit_session hash instant_max st id idle max_sessions now in
  exists st1, cleaned st now st1 /\ store_ok st1
    /\ if r.2 : bool
       then updated st1 id (Some (mkSessionEntry ∅ (expiry instant_max now idle))) r.1
       else r.1 = st1 /\ entries st1 = max_sessions /\ all_live st1 now.
Proof.
  intros Hok Hnone. unfold admit_session.
  assert (Hcl : let '(st1, b) := cleanup_if_needed instant_max st now in
    let st2 := if (max_sessions <=? entries st1)%Z && negb b
               then cleanup_expired_batch instant_max st1 now else st1 in
    cleaned st now st2 /\ store_ok st2 /\ ((max_sessions <= entries st2)%Z -> all_live st2 now)).
  { pose proof (cleanup_expired_batch_spec st now Hok) as (Hc & Ho & Hl).
    assert (entries st <= max_sessions)%Z by (rewrite (so_count _ Hok); apply Hok).
    assert (Hfull : (max_sessions <= entries (cleanup_expired_batch instant_max st now))%Z ->
                    all_live (cleanup_expired_batch instant_max st now) now).
    { intros Hm. destruct Hl as [El|]; [|done]. unfold STORE_CLEANUP_BATCH in El. lia. }
    unfold cleanup_if_needed. destruct (_ <? _)%Z; cbn [negb].
    - rewrite andb_true_r. destruct (Z.leb_spec max_sessions (entries st)); [done|].
      split; [by apply cleaned_refl, Hok|]. split; [done|lia].
    - by rewrite andb_false_r. }
  destruct (cleanup_if_needed _ _ _) as [st1 b]. destruct Hcl as (Hc & Ho & Hl).
  set (st2 := if _ && _ then _ else _) in *. exists st2. split; [done|]. split; [done|].
  destruct (Z.leb_spec max_sessions (entries st2)) as [Hm|Hm].
  { split; [done|]. split; [|by apply Hl]. pose proof (so_bound _ Ho). rewrite <- (so_count _ Ho) in *. lia. }
  destruct (insert_entry_update _ id (mkSessionEntry ∅ (expiry instant_max now idle))
              (shard_ok_at st2 (index st2 id) (so_struct _ Ho))) as (Hu & Ha & Hn).
  fold (session_at st2 id) in Hn.
  destruct (insert_entry _ id _) as [s is_new]. cbn [fst snd] in *.
  assert (session_at st2 id = None) as E.
  { destruct (cl_keep _ _ _ Hc id) as [->|[-> _]]; done. }
  rewrite E in Hn. cbn in Hn. subst is_new. rewrite <- Ha.
  assert (usize_add (entries st2) 1 = (entries st2 + 1)%Z) as Eadd.
  { unfold usize_add. apply Z.mod_small. pose proof (total_nonneg st2). rewrite (so_count _ Ho) in *.
    unfold usize_max in *. lia. }
  apply put_updated; [done|done| |]; cbn [entries put_shard]; rewrite Eadd; [rewrite E, Ha; cbn; lia|lia].
Qed.

(** ** Creation, writing, rotation *)

(** The other sessions after an operation that may clean up. *)
Definition others_kept (st : SessionStore) (now : Z) (id : str) (st' : SessionStore) : Prop :=
  forall id', id' <> id ->
    session_at st' id' = session_at st id'
    \/ (session_at st' id' = None
        /\ exists e, session_at st id' = Some e /\ (expires_at e <= now)%Z).

(** Refusal: every one of [max_sessions] stored sessions is live. *)
Definition store_full (st : SessionStore) (now : Z) : Prop :=
  total st = max_sessions /\ all_live st now.

Record created (st : SessionStore) (id : str) (idle now : Z) (st' : SessionStore) (b : bool) : Prop := {
  cr_ok : store_ok st';
  cr_others : others_kept st now id st';
  cr_rotations : rotations st' = rotations st;
  cr_true : b = true ->
    session_at st' id = Some (match live_at st now id with
                              | Some e => touched now idle e
                              | None => mkSessionEntry ∅ (expiry instant_max now idle) end);
  cr_false : b = false ->
    live_at st now id = None /\ session_at st' id = None /\ store_full st' now
}.

Lemma create_spec st id idle now :
  store_ok st ->
  let r := create hash instant_max st id idle max_sessions now in created st id idle now r.1 r.2.
Proof.
  intros Hok. unfold create.
  set (st0 := if is_expired _ id now then drop_session hash st id else st).
  assert (H0 : updated st id (live_at st now id) st0 /\ index st0 id = index st id).
  { unfold st0. destruct (is_expired _ id now) eqn:E.
    - apply is_expired_live in E as [Hp ->]. split; [by apply drop_session_updated|].
      unfold drop_session. destruct (remove_entry _ id). apply index_put.
    - rewrite (not_expired_live _ _ _ E). by split. }
  destruct H0 as [[Hok0 Hat0 Hf0 Hr0] Hix]. rewrite <- Hix.
  destruct (renew_updated st0 id now idle Hok0) as ([Hokr Hatr Hfr Hrr] & Hr & _).
  destruct (renew _ _ _ _ _) as [s renewed]. cbn [fst snd] in *. rewrite Hat0 in *.
  destruct (live_at st now id) as [e|] eqn:El; cbn in Hr; subst renewed; cbn [fst snd].
  - split; [done| |congruence|by rewrite El|done]. intros id' Hne. left. by rewrite Hfr, Hf0.
  - destruct (admit_session_spec st0 id idle now Hok0 Hat0) as (st1 & [Hs1 Hk1 Hr1] & Hok1 & Hcase).
    assert (Hother : others_kept st now id st1).
    { intros id' Hne. destruct (Hk1 id') as [E|[E (e & He & Hx)]]; [left; by rewrite E, Hf0|].
      right. split; [done|]. exists e. by rewrite Hf0 in He. }
    destruct (admit_session _ _ _ _ _ _ _) as [st2 [|]]; cbn [fst snd] in *.
    + destruct Hcase as [Hok2 Hat2 Hf2 Hr2]. split; [done| |congruence|by rewrite El|done].
      intros id' Hne. rewrite Hf2 by done. by apply Hother.
    + destruct Hcase as (-> & Hm & Hl). split; [done|done|congruence|done|].
      intros _. split; [done|]. split; [|split; [|done]].
      * destruct (Hk1 id) as [->|[-> _]]; done.
      * by rewrite <- (so_count _ Hok1).
Qed.

Lemma rotate_spec st old new idle now :
  store_ok st -> old <> new ->
  let r := rotate hash instant_max st old new idle now in
  store_ok r.1 /\ rotations r.1 = rotations st /\ session_at r.1 old = None
  /\ (forall id, id <> old -> id <> new -> session_at r.1 id = session_at st id)
  /\ r.2 = bool_decide (is_Some (live_at st now old))
  /\ session_at r.1 new = match live_at st now old with
                          | Some e => Some (touched now idle e)
                          | None => session_at st new end.
Proof.
  intros Hok Hne. unfold rotate.
  destruct (remove_entry_update _ old (shard_ok_at st (index st old) (so_struct _ Hok))) as (Hu & Hn & Ho).
  fold (session_at st old) in Ho. destruct (remove_entry _ old) as [s o]. cbn [fst snd] in *. subst o.
  set (st1 := put_shard st (index st old) s).
  destruct (put_update st old s (so_struct _ Hok) Hu) as (Hs1 & Ha1 & Hf1 & Ht1). fold st1 in Hs1, Ha1, Hf1, Ht1.
  rewrite Hn in *. pose proof (so_bound _ Hok) as Hb. pose proof (so_count _ Hok) as Hc.
  pose proof (total_nonneg st1) as Hnn. unfold live_at.
  destruct (session_at st old) as [e|] eqn:Eo; cbn [present] in Ht1.
  2: { cbn [fst snd]. split_and!; [|done|done|intros; by apply Hf1|done|by apply Hf1].
       split; [done| |]; cbn [entries st1 put_shard]; lia. }
  assert (Hdec : forall st2, struct_ok st2 -> entries st2 = entries st -> (total st2 = total st - 1)%Z ->
            store_ok (set_entries st2 (usize_sub (entries st2) 1))).
  { intros st2 [] Ee Et. pose proof (total_nonneg st2). split.
    - by split.
    - cbn. rewrite usize_sub_small by lia. unfold total in *. cbn. lia.
    - unfold total in *. cbn. lia. }
  destruct (Z.leb_spec (expires_at e) now) as [Hx|Hx]; cbn [fst snd].
  { split_and!; [|done|done|intros; by apply Hf1|done|by apply Hf1]. apply Hdec; [done|done|lia]. }
  destruct (insert_entry_update _ new (mkSessionEntry (data e) (expiry instant_max now idle))
              (shard_ok_at st1 (index st1 new) Hs1)) as (Hu2 & Ha2 & Hn2).
  fold (session_at st1 new) in Hn2. destruct (insert_entry _ new _) as [s2 is_new]. cbn [fst snd] in *.
  destruct (put_update st1 new s2 Hs1 Hu2) as (Hs2 & Hat2 & Hf2 & Ht2).
  set (st2 := put_shard st1 (index st1 new) s2) in *. rewrite Ha2 in *. cbn [present] in Ht2.
  assert (Hview : forall st', store_ok st' -> rotations st' = rotations st ->
    (forall id, session_at st' id = session_at st2 id) ->
    store_ok st' /\ rotations st' = rotations st /\ session_at st' old = None
    /\ (forall id, id <> old -> id <> new -> session_at st' id = session_at st id)
    /\ session_at st' new = Some (touched now idle e)).
  { intros st' ? ? Hv. split_and!; [done|done| | |by rewrite Hv].
    - by rewrite Hv, Hf2.
    - intros id ? ?. by rewrite Hv, Hf2, Hf1. }
  destruct is_new.
  - destruct (Hview st2) as (A & B & C & D & E); [|done|done|by split_and!].
    rewrite (Hf1 new) in Hn2 by done. symmetry in Hn2. apply bool_decide_eq_true in Hn2.
    rewrite (Hf1 new), Hn2 in Ht2 by done. cbn [present] in Ht2. assert (entries st2 = entries st) by done.
    split; [done|lia|lia].
  - destruct (Hview (set_entries st2 (usize_sub (entries st2) 1))) as (A & B & C & D & E);
      [|done|done|by split_and!].
    apply Hdec; [done|done|]. symmetry in Hn2. apply bool_decide_eq_false in Hn2.
    destruct (session_at st1 new); [|done]. cbn [present] in Ht2. lia.
Qed.

(** *** Writing a value *)

(** The outcomes of [set] that passed [validate_session_value]; [old] is the
    data the session had (none when it was not live), [x] its new expiry. *)
Inductive set_outcome (st : SessionStore) (id key value : str) (limits : SessionDataLimits)
    (idle now1 now2 now3 : Z) (st' : SessionStore) : result unit SessionDataError -> Prop :=
| set_full :
    live_at st now1 id = None -> session_at st' id = None -> store_full st' now2 ->
    set_outcome st id key value limits idle now1 now2 now3 st' (Err (SessionDataError_new SessionUnavailable None))
| set_stale x :
    x = expiry instant_max now1 idle \/ x = expiry instant_max now2 idle ->
    (x <= now3)%Z -> session_at st' id = None ->
    set_outcome st id key value limits idle now1 now2 now3 st' (Err (SessionDataError_new SessionUnavailable None))
| set_rejected e x :
    set_value (default ∅ (data <$> live_at st now1 id)) key value limits = Err e ->
    session_at st' id = Some (mkSessionEntry (default ∅ (data <$> live_at st now1 id)) x) ->
    set_outcome st id key value limits idle now1 now2 now3 st' (Err e)
| set_done d x :
    set_value (default ∅ (data <$> live_at st now1 id)) key value limits = Ok d ->
    session_at st' id = Some (mkSessionEntry d x) -> (now3 < x)%Z ->
    set_outcome st id key value limits idle now1 now2 now3 st' (Ok tt).

(** The write itself, on a store where the session is present. *)
Lemma set_write st0 st id key value limits idle now1 now2 now3 x :
  store_ok st ->
  session_at st id = Some (mkSessionEntry (default ∅ (data <$> live_at st0 now1 id)) x) ->
  x = expiry instant_max now1 idle \/ x = expiry instant_max now2 idle ->
  let r := write_value hash st id key value limits now3 in
  updated st id (session_at r.1 id) r.1 /\ set_outcome st0 id key value limits idle now1 now2 now3 r.1 r.2.
Proof.
  intros Hok Hat Hx. cbn zeta. unfold write_value, is_expired. unfold session_at in Hat. rewrite Hat. cbn [expires_at data].
  fold (session_at st id) in Hat. destruct (Z.leb_spec x now3) as [Hle|Hgt]; cbn [fst snd].
  { destruct (drop_session_updated st id Hok ltac:(eauto)) as [A B C D].
    split; [by split|]. by eapply set_stale. }
  destruct (set_value _ key value limits) as [d|e] eqn:Es; cbn [fst snd].
  2: { split; [by split|]. by eapply set_rejected. }
  set (s := mkSessionShard _ _).
  assert (Hl : shard_entries s !! id = Some (mkSessionEntry d x)) by (cbn; by rewrite lookup_insert_eq).
  assert (Hu : updated st id (Some (mkSessionEntry d x)) (put_shard st (index st id) s)).
  { rewrite <- Hl. apply put_updated_same; [done| |by rewrite Hat, Hl].
    apply (shard_update_data _ _ (shard_at st (index st id)) _ _
             (Build_shard_update _ _ _ (shard_ok_at _ _ (so_struct _ Hok)) (fun _ _ => eq_refl)) Hat).
    - intros id' Hne. cbn. by rewrite lookup_insert_ne.
    - rewrite Hl. by eauto.
    - done. }
  pose proof Hu as [A B C D]. rewrite B. split; [exact Hu|]. by eapply set_done.
Qed.

Lemma set_spec st id key value limits idle now1 now2 now3 :
  store_ok st ->
  let r := set hash instant_max st id key value idle max_sessions limits now1 now2 now3 in
  store_ok r.1 /\ others_kept st now2 id r.1 /\ rotations r.1 = rotations st
  /\ match validate_session_value key value limits with
     | Err e => r = (st, Err e)
     | Ok _ => set_outcome st id key value limits idle now1 now2 now3 r.1 r.2
     end.
Proof.
  intros Hok. unfold set. destruct (validate_session_value key value limits) as [u|e].
  2: { split; [done|]. split; [by left|done]. }
  destruct (resume_spec st id idle now1 Hok) as ([Hok1 Hat1 Hf1 Hr1] & Hb).
  destruct (resume _ _ _ _ _ _) as [st1 resumed]. cbn [fst snd] in *. subst resumed.
  destruct (live_at st now1 id) as [e|] eqn:El; cbn [bool_decide] in *.
  - rewrite bool_decide_eq_true_2 by eauto. cbn [negb].
    destruct (set_write st st1 id key value limits idle now1 now2 now3 (expiry instant_max now1 idle) Hok1)
      as ([A _ C D] & Ho); [by rewrite El, Hat1|by left|].
    split; [exact A|]. split; [|split; [by rewrite D, Hr1|exact Ho]].
    intros id' Hne. left. by rewrite C, Hf1.
  - rewrite bool_decide_eq_false_2 by (by intros []).
    destruct (create_spec st1 id idle now2 Hok1) as [Hok2 Hoth Hrot Htrue Hfalse].
    destruct (create _ _ _ _ _ _ _) as [st2 b]. cbn [fst snd] in *.
    assert (Hk : others_kept st now2 id st2).
    { intros id' Hne. specialize (Hoth id' Hne). by rewrite Hf1 in Hoth. }
    assert (Hl1 : live_at st1 now2 id = None). { unfold live_at. by rewrite Hat1. }
    destruct b; cbn [negb].
    + specialize (Htrue eq_refl). rewrite Hl1 in Htrue.
      destruct (set_write st st2 id key value limits idle now1 now2 now3 (expiry instant_max now2 idle) Hok2)
        as ([A _ C D] & Ho); [by rewrite El, Htrue|by right|].
      split; [exact A|]. split; [|split; [by rewrite D, Hrot, Hr1|exact Ho]].
      intros id' Hne. rewrite C by done. by apply Hk.
    + destruct (Hfalse eq_refl) as (_ & Hn & Hfull). cbn [fst snd].
      split; [done|]. split; [done|]. split; [congruence|]. by apply set_full.
Qed.

Lemma live_len_loop_spec left :
  forall st now removed,
    struct_ok st -> left <= SESSION_STORE_SHARDS -> (total st <= usize_max)%Z ->
    (forall i, i < SESSION_STORE_SHARDS - left -> shard_clean now (shard_at st i)) ->
    let r := live_len_loop left st now removed in
    cleaned st now r.1 /\ entries r.1 = entries st /\ (removed <= r.2)%Z
    /\ (total r.1 + r.2 = total st + removed)%Z
    /\ forall i, i < SESSION_STORE_SHARDS -> shard_clean now (shard_at r.1 i).
Proof.
  induction left as [|left IH]; intros st now removed Hok Hl Hm Hclean; cbn [live_len_loop].
  { cbn [fst snd]. split_and!; try lia; [by apply cleaned_refl|]. intros i Hi. apply Hclean. lia. }
  rewrite (st_len _ Hok). set (i := (SESSION_STORE_SHARDS - S left)%nat).
  assert (Hi : i < SESSION_STORE_SHARDS) by (unfold i; lia).
  destruct (sweep_shard st i now usize_max Hok Hi) as (Hc & Hb & Ht & Ha).
  pose proof (total_ge _ i _ (shard_at_lookup _ i (cl_struct _ _ _ Hc) Hi)) as Hge.
  rewrite shard_at_put, decide_True in Hge by done.
  destruct (remove_expired_entries _ now usize_max) as [s n]. cbn [fst snd] in *.
  assert (Hs : shard_clean now s).
  { destruct (Z.lt_ge_cases n usize_max) as [|Hn]; [by apply Ha|]. intros id e He.
    assert (size (shard_entries s) = 0) as E by lia. apply map_size_empty_inv in E.
    by rewrite E, lookup_empty in He. }
  destruct (IH (put_shard st i s) now (removed + n)%Z (cl_struct _ _ _ Hc) ltac:(lia) ltac:(lia))
    as (Hc' & He & H1 & H2 & H3).
  { intros j Hj. rewrite shard_at_put by done. case_decide; [done|]. apply Hclean. lia. }
  split_and!; try done; try lia. by eapply cleaned_trans.
Qed.

Lemma live_len_spec st now :
  store_ok st ->
  let r := live_len st now in
  cleaned st now r.1 /\ store_ok r.1 /\ all_live r.1 now /\ r.2 = total r.1.
Proof.
  intros Hok. unfold live_len. rewrite (st_len _ (so_struct _ Hok)).
  pose proof (so_bound _ Hok) as Hb. pose proof (so_count _ Hok) as Hcount.
  destruct (live_len_loop_spec SESSION_STORE_SHARDS st now 0 (so_struct _ Hok) ltac:(done) ltac:(lia))
    as (Hc & He & H1 & H2 & H3); [lia|].
  destruct (live_len_loop _ _ _ _) as [st1 removed]. cbn [fst snd] in *.
  pose proof (total_nonneg st1) as Hnn.
  assert (Hlive : all_live st1 now).
  { intros id e. apply H3. apply index_lt, Hc. }
  destruct (Z.ltb_spec 0 removed) as [Hp|Hp]; cbn [fst snd].
  - assert (usize_sub (entries st1) removed = total st1) as E.
    { rewrite He, usize_sub_small by lia. lia. }
    split_and!; [|split; cbn|done|done].
    + destruct Hc as [[] K R]. split; [by split|exact K|exact R].
    + destruct Hc as [[] _ _]. by split.
    + exact E.
    + unfold total in *. cbn. lia.
  - split_and!; [done|split; [apply Hc|lia|lia]|done|lia].
Qed.
End store_invariant.

(** ** Per-session limits *)

(** The bytes of a session: keys and values. *)
Definition bytes (d : gmap str str) : Z :=
  map_fold (fun k v acc => Z.of_nat (length k) + Z.of_nat (length v) + acc)%Z 0%Z d.

Lemma bytes_insert d k v :
  d !! k = None -> bytes (<[k := v]> d) = (Z.of_nat (length k) + Z.of_nat (length v) + bytes d)%Z.
Proof. intros Hk. unfold bytes. rewrite map_fold_insert_L; [done| |done]. intros. lia. Qed.

Lemma bytes_delete d k :
  bytes d = (bytes (delete k d) + match d !! k with
                                   | Some v => Z.of_nat (length k) + Z.of_nat (length v)
                                   | None => 0 end)%Z.
Proof.
  destruct (d !! k) as [v|] eqn:E; [|rewrite delete_id by done; lia].
  rewrite <- (insert_delete_id d k v E) at 1. rewrite bytes_insert by apply lookup_delete_eq. lia.
Qed.

Lemma bytes_replace d k v :
  bytes (<[k := v]> d) = (bytes (delete k d) + Z.of_nat (length k) + Z.of_nat (length v))%Z.
Proof.
  rewrite (bytes_delete (<[k := v]> d) k), lookup_insert_eq, delete_insert_eq. lia.
Qed.

Lemma bytes_nonneg d : (0 <= bytes d)%Z.
Proof. unfold bytes. apply (map_fold_weak_ind (fun r _ => 0 <= r)%Z); intros; lia. Qed.

(** [try_fold] over the stored pairs is their size, when it fits a [usize]. *)
Lemma data_bytes_spec d :
  data_bytes d = if (bytes d <=? usize_max)%Z then Some (bytes d) else None.
Proof.
  unfold data_bytes, bytes. rewrite map_fold_foldr. set (l := map_to_list d). clearbody l.
  set (sum := foldr _ 0%Z). set (step := fun total kv => _).
  assert (Hnone : forall l, foldl step None l = None) by (intros l'; induction l'; done).
  assert (Hnn : forall l, (0 <= sum l)%Z).
  { intros l'. induction l' as [|[k v] l' IH]; cbn; [done|]. unfold sum in *. lia. }
  assert (Hgo : forall l t, (0 <= t <= usize_max)%Z ->
    foldl step (Some t) l = if (t + sum l <=? usize_max)%Z then Some (t + sum l)%Z else None).
  { intros l'. induction l' as [|[k v] l' IH]; intros t Ht; cbn [foldl].
    { unfold sum. cbn. rewrite Z.add_0_r, (proj2 (Z.leb_le _ _)) by lia. done. }
    specialize (Hnn l').
    assert (sum ((k, v) :: l') = (Z.of_nat (length k) + Z.of_nat (length v) + sum l')%Z) as -> by done.
    unfold step at 2. cbn [mbind option_bind fst snd]. unfold checked_usize.
    destruct (Z.leb_spec (t + Z.of_nat (length k)) usize_max); cbn [mbind option_bind].
    - destruct (Z.leb_spec (t + Z.of_nat (length k) + Z.of_nat (length v)) usize_max).
      + rewrite IH by lia. rewrite !Z.add_assoc. done.
      + rewrite Hnone. by rewrite (proj2 (Z.leb_gt _ _)) by lia.
    - rewrite Hnone. by rewrite (proj2 (Z.leb_gt _ _)) by lia. }
  rewrite Hgo by (unfold usize_max, usize_modulus; lia). done.
Qed.

Record data_ok (limits : SessionDataLimits) (d : gmap str str) : Prop := {
  do_entries : (Z.of_nat (size d) <= limit_entries limits)%Z;
  do_bytes : (bytes d <= limit_total_bytes limits)%Z;
  do_values : map_Forall (fun k v => k <> []
                /\ (Z.of_nat (length k) <= limit_key_bytes limits)%Z
                /\ (Z.of_nat (length v) <= limit_value_bytes limits)%Z) d
}.

Record limits_ok (limits : SessionDataLimits) : Prop := {
  lo_entries : (0 < limit_entries limits)%Z;
  lo_total : (0 < limit_total_bytes limits <= usize_max)%Z
}.

Lemma data_ok_empty limits : limits_ok limits -> data_ok limits ∅.
Proof.
  intros [He Ht]. split; [rewrite map_size_empty; lia| |apply map_Forall_empty].
  unfold bytes. rewrite map_fold_empty. lia.
Qed.

Lemma data_ok_delete limits d k : data_ok limits d -> data_ok limits (delete k d).
Proof.
  intros [He Hb Hv]. split.
  - rewrite map_size_delete. destruct (d !! k); cbn; lia.
  - pose proof (bytes_delete d k). destruct (d !! k); lia.
  - by apply map_Forall_delete.
Qed.

Lemma validate_session_value_Ok key value limits u :
  validate_session_value key value limits = Ok u ->
  key <> [] /\ (Z.of_nat (length key) <= limit_key_bytes limits)%Z
  /\ (Z.of_nat (length value) <= limit_value_bytes limits)%Z.
Proof.
  unfold validate_session_value. case_bool_decide; [done|].
  destruct (limit_key_bytes limits <? _)%Z eqn:E1; [done|].
  destruct (limit_value_bytes limits <? _)%Z eqn:E2; [done|].
  destruct (_ || _); [done|]. intros _. bsplit. done.
Qed.

(** On data within the limits the write succeeds iff the result is. *)
Lemma set_value_spec d key value limits :
  limits_ok limits -> data_ok limits d ->
  set_value d key value limits =
    if bool_decide (d !! key = None) && (limit_entries limits <=? Z.of_nat (size d))%Z
    then Err (SessionDataError_new TooManyEntries (Some (limit_entries limits)))
    else if (bytes (<[key := value]> d) <=? limit_total_bytes limits)%Z
    then Ok (<[key := value]> d)
    else Err (SessionDataError_new SessionTooLarge (Some (limit_total_bytes limits))).
Proof.
  intros [_ Ht] [_ Hb _]. unfold set_value. destruct (_ && _); [done|].
  rewrite data_bytes_spec, (proj2 (Z.leb_le _ _)) by lia.
  pose proof (bytes_delete d key) as Hd. pose proof (bytes_replace d key value) as Hr.
  pose proof (bytes_nonneg (delete key d)) as Hnn.
  set (old := match d !! key with Some _ => _ | None => _ end) in *.
  rewrite (proj2 (Z.ltb_ge _ _)) by lia. cbn [mbind option_bind]. unfold checked_usize.
  replace (bytes d - old)%Z with (bytes (delete key d)) by lia.
  destruct (Z.leb_spec (bytes (delete key d) + Z.of_nat (length key)) usize_max); cbn [mbind option_bind].
  - rewrite <- Hr. destruct (Z.leb_spec (bytes (<[key:=value]> d)) usize_max); [done|].
    by rewrite (proj2 (Z.leb_gt _ _)) by lia.
  - by rewrite (proj2 (Z.leb_gt _ _)) by lia.
Qed.

Lemma set_value_data_ok d key value limits d' u :
  limits_ok limits -> data_ok limits d -> validate_session_value key value limits = Ok u ->
  set_value d key value limits = Ok d' -> d' = <[key := value]> d /\ data_ok limits d'.
Proof.
  intros Hl Hd Hv. rewrite set_value_spec by done.
  destruct (_ && _) eqn:E; [done|]. destruct (Z.leb_spec (bytes (<[key := value]> d)) (limit_total_bytes limits)); [|done].
  intros [= <-]. split; [done|]. split; [|done|].
  - destruct (d !! key) as [v|] eqn:Ek.
    + rewrite map_size_insert_Some by eauto. apply Hd.
    + rewrite map_size_insert_None by done. cbn in E. bsplit. lia.
  - apply map_Forall_insert_2; [by eapply validate_session_value_Ok|apply Hd].
Qed.

(** ** Reachable stores *)

Section properties.
Context (hash : str -> Z) (instant_max : Z) (max_sessions : Z) (limits : SessionDataLimits).
Hypothesis (max_ok : (0 < max_sessions <= usize_max)%Z) (lim_ok : limits_ok limits).

(** The stores a configured [Sessions] value goes through: the operations its
    handles and its middleware call, with any ids, instants and timeouts. *)
Inductive reachable : SessionStore -> Prop :=
| reach_new now : reachable (SessionStore_new now)
| reach_resume st id idle now : reachable st -> reachable (resume hash instant_max st id idle now).1
| reach_get st id key idle now : reachable st -> reachable (get hash instant_max st id key idle now).1
| reach_set st id key value idle now1 now2 now3 : reachable st ->
    reachable (set hash instant_max st id key value idle max_sessions limits now1 now2 now3).1
| reach_remove st id key idle now : reachable st -> reachable (remove hash instant_max st id key idle now)
| reach_clear st id : reachable st -> reachable (clear hash st id)
| reach_live_len st now : reachable st -> reachable (live_len st now).1
| reach_regenerate st id new idle now1 now2 now3 : reachable st -> id <> new ->
    reachable (regenerate hash instant_max st id new idle max_sessions now1 now2 now3).1
| reach_reissue st id idle now : reachable st ->
    reachable (middleware_reissue hash instant_max st id idle now).1.1.

Definition data_inv (st : SessionStore) : Prop :=
  forall id e, session_at hash st id = Some e -> data_ok limits (data e).

Definition good (st : SessionStore) : Prop := store_ok hash max_sessions st /\ data_inv st.

Lemma good_updated st id o st' :
  good st -> updated hash max_sessions st id o st' ->
  (forall e, o = Some e -> data_ok limits (data e)) -> good st'.
Proof.
  intros [_ Hd] [Hok Ha Hf _] Ho. split; [done|]. intros id' e He.
  destruct (decide (id' = id)) as [->|Hne]; [apply Ho; congruence|]. rewrite Hf in He by done. by eapply Hd.
Qed.

Lemma good_others st now id st' :
  good st -> store_ok hash max_sessions st' -> others_kept hash st now id st' ->
  (forall e, session_at hash st' id = Some e -> data_ok limits (data e)) -> good st'.
Proof.
  intros [_ Hd] Hok Hk Ho. split; [done|]. intros id' e He.
  destruct (decide (id' = id)) as [->|Hne]; [by apply Ho|].
  destruct (Hk id' Hne) as [E|[E _]]; rewrite E in He; [by eapply Hd|done].
Qed.

Lemma live_data_ok st now id e : good st -> live_at hash st now id = Some e -> data_ok limits (data e).
Proof.
  intros [_ Hd] [He _]%(live_at_session hash max_sessions max_ok). by eapply Hd.
Qed.

Lemma good_new now : good (SessionStore_new now).
Proof.
  assert (Hnone : forall id, session_at hash (SessionStore_new now) id = None).
  { intros id. unfold session_at, shard_at. cbn [shards SessionStore_new].
    destruct (replicate _ _ !! _) eqn:E; [|done].
    by apply lookup_replicate in E as [-> _]. }
  split; [|intros id e; by rewrite Hnone]. split; [split|done|].
  4: { assert (total (SessionStore_new now) = 0%Z) as -> by reflexivity. lia. }
  - done.
  - intros i s [-> _]%lookup_replicate. apply shard_ok_default.
  - intros i s id [-> _]%lookup_replicate [e He]. cbn in He. by rewrite lookup_empty in He.
Qed.

Lemma good_resume st id idle now : good st -> good (resume hash instant_max st id idle now).1.
Proof.
  intros Hg. destruct (resume_spec hash instant_max max_sessions max_ok st id idle now (proj1 Hg)) as [Hu _].
  eapply good_updated; [done|exact Hu|]. intros e [e' [He ->]]%fmap_Some. cbn. by eapply live_data_ok.
Qed.

Lemma good_rotations st r : good st -> good (set_rotations st r).
Proof. intros [[[] ? ?] Hd]. split; [split; [by split|done|done]|exact Hd]. Qed.

Lemma good_create st id idle now : good st -> good (create hash instant_max st id idle max_sessions now).1.
Proof.
  intros Hg. destruct (create_spec hash instant_max max_sessions max_ok st id idle now (proj1 Hg))
    as [Hok Hk _ Ht Hf]. eapply good_others; [done|done|done|]. intros e He.
  destruct (create _ _ _ _ _ _ _).2; cbn in *.
  - rewrite Ht in He by done. injection He as <-.
    destruct (live_at hash st now id) eqn:El; [cbn; by eapply live_data_ok|by apply data_ok_empty].
  - destruct (Hf eq_refl) as (_ & E & _). congruence.
Qed.

Lemma good_set st id key value idle now1 now2 now3 :
  good st -> good (set hash instant_max st id key value idle max_sessions limits now1 now2 now3).1.
Proof.
  intros Hg. destruct (set_spec hash instant_max max_sessions max_ok st id key value limits idle now1 now2 now3
    (proj1 Hg)) as (Hok & Hk & _ & Ho).
  destruct (validate_session_value key value limits) eqn:Ev; [|by rewrite Ho].
  assert (Hold : data_ok limits (default ∅ (data <$> live_at hash st now1 id))).
  { destruct (live_at hash st now1 id) eqn:El; [by eapply live_data_ok|by apply data_ok_empty]. }
  eapply good_others; [done|done|done|]. intros e He.
  destruct Ho as [_ E _|x _ _ E|e' x _ E|d x Hs E _]; rewrite E in He; try done; injection He as <-; cbn.
  - done.
  - by eapply set_value_data_ok.
Qed.

Lemma good_rotate st id new idle now :
  good st -> id <> new -> good (rotate hash instant_max st id new idle now).1.
Proof.
  intros Hg Hne.
  destruct (rotate_spec hash instant_max max_sessions max_ok st id new idle now (proj1 Hg) Hne)
    as (Hok & _ & Hold & Hf & _ & Hnew).
  split; [done|]. intros id' e He. destruct (decide (id' = id)) as [->|H1]; [congruence|].
  destruct (decide (id' = new)) as [->|H2].
  - rewrite Hnew in He. destruct (live_at hash st now id) eqn:El.
    + injection He as <-. cbn. by eapply live_data_ok.
    + by eapply Hg.
  - rewrite Hf in He by done. by eapply Hg.
Qed.

Lemma reachable_good st : reachable st -> good st.
Proof.
  induction 1 as [now|st id idle now _ IH|st id key idle now _ IH|st id key value idle n1 n2 n3 _ IH
                 |st id key idle now _ IH|st id _ IH|st now _ IH|st id new idle n1 n2 n3 _ IH Hne
                 |st id idle now _ IH].
  - apply good_new.
  - by apply good_resume.
  - destruct (get_spec hash instant_max max_sessions max_ok st id key idle now (proj1 IH)) as [Hu _].
    eapply good_updated; [done|exact Hu|]. intros e [e' [He ->]]%fmap_Some. cbn. by eapply live_data_ok.
  - by apply good_set.
  - pose proof (remove_spec hash instant_max max_sessions max_ok st id key idle now (proj1 IH)) as Hu.
    eapply good_updated; [done|exact Hu|]. intros e [e' [He ->]]%fmap_Some. cbn.
    apply data_ok_delete. by eapply live_data_ok.
  - eapply good_updated; [done|by apply clear_spec, IH|done].
  - destruct (live_len_spec hash max_sessions max_ok st now (proj1 IH)) as ([_ Hk _] & Hok & _).
    split; [done|]. intros id e He. destruct (Hk id) as [E|[E _]]; rewrite E in He; [by eapply IH|done].
  - unfold regenerate. pose proof (good_rotate st id new idle n1 IH Hne) as Hr.
    destruct (rotate _ _ _ _ _ _ _) as [st1 [|]]; cbn [fst] in Hr; cbn [negb].
    + by apply good_rotations.
    + pose proof (good_create st1 new idle n2 Hr) as Hc.
      destruct (create _ _ _ _ _ _ _) as [st2 [|]]; cbn [fst negb] in *; [by apply good_rotations|done].
  - unfold middleware_reissue, take_rotation.
    pose proof (good_resume (set_rotations st (delete id (rotations st)))
                  (default id (fst <$> rotations st !! id)) idle now (good_rotations _ _ IH)) as Hr.
    by destruct (resume _ _ _ _ _ _).
Qed.

(** A session that was kept or had expired looks the same at a later instant. *)
Lemma kept_live st now id st' id' now' :
  others_kept hash st now id st' -> id' <> id -> (now <= now')%Z ->
  live_at hash st' now' id' = live_at hash st now' id'.
Proof.
  intros Hk Hne Hle. unfold live_at. destruct (Hk id' Hne) as [->|[-> (e & -> & Hx)]]; [done|].
  by rewrite (proj2 (Z.leb_le _ _)) by lia.
Qed.

(** ** Theorems *)

(** C13. In every reachable store each shard's expiry index is exact (a key per
    entry, with its instant), every id is in the shard of its hash, the atomic
    counter is the number of stored sessions and at most [max_sessions], so it
    never wraps, and every session is within the configured entry, key, value
    and total-byte limits. *)
Theorem session_store_invariant st :
  reachable st ->
  store_ok hash max_sessions st
  /\ (0 <= entries st <= max_sessions)%Z
  /\ forall id e, session_at hash st id = Some e -> data_ok limits (data e).
Proof.
  intros [Hok Hd]%reachable_good. split; [done|]. split; [|exact Hd].
  pose proof (total_nonneg st). rewrite (so_count _ _ _ Hok). split; [done|apply Hok].
Qed.

(** The store is a map of maps: after a successful [set], until the session
    expires, [get] returns the new value for that key and what it returned
    before for the others; the other sessions answer as before. *)
Theorem set_then_get st st' id key value idle now1 now2 now3 :
  reachable st ->
  set hash instant_max st id key value idle max_sessions limits now1 now2 now3 = (st', Ok tt) ->
  exists x, (now3 < x)%Z /\ forall idle' now k,
    ((now < x)%Z -> (get hash instant_max st' id k idle' now).2
       = if decide (k = key) then Some value else (get hash instant_max st id k idle now1).2)
    /\ forall id', id' <> id -> (now2 <= now)%Z ->
         (get hash instant_max st' id' k idle' now).2 = (get hash instant_max st id' k idle' now).2.
Proof.
  intros Hr%reachable_good E.
  destruct (set_spec hash instant_max max_sessions max_ok st id key value limits idle now1 now2 now3 (proj1 Hr))
    as (Hok & Hk & _ & Ho). rewrite E in Hok, Hk, Ho. cbn [fst snd] in *.
  destruct (validate_session_value key value limits) eqn:Ev; [|done].
  inversion Ho as [| | |d x Hs Hat Hx]; subst. exists x. split; [done|]. intros idle' now k.
  assert (Hold : data_ok limits (default ∅ (data <$> live_at hash st now1 id))).
  { destruct (live_at hash st now1 id) eqn:El; [by eapply live_data_ok|by apply data_ok_empty]. }
  apply set_value_data_ok with (u := a) in Hs as [-> _]; [|done|done|done]. split.
  - intros Hnow. destruct (get_spec hash instant_max max_sessions max_ok st' id k idle' now Hok) as [_ ->].
    destruct (get_spec hash instant_max max_sessions max_ok st id k idle now1 (proj1 Hr)) as [_ ->].
    unfold live_at at 1. rewrite Hat. cbn [expires_at]. rewrite (proj2 (Z.leb_gt _ _)) by lia. cbn.
    case_decide as Hd; [subst; by rewrite lookup_insert_eq|]. rewrite lookup_insert_ne by done.
    by destruct (live_at hash st now1 id).
  - intros id' Hne Hnow.
    destruct (get_spec hash instant_max max_sessions max_ok st' id' k idle' now Hok) as [_ ->].
    destruct (get_spec hash instant_max max_sessions max_ok st id' k idle' now (proj1 Hr)) as [_ ->].
    by rewrite (kept_live _ _ _ _ _ _ Hk Hne Hnow).
Qed.

(** Admission never evicts and never refuses early: creating a session
    leaves every other live session as it was, and is refused only when exactly
    [max_sessions] sessions are stored and every one of them is live (the
    clean-up, limited to 256 removals a call, always frees a slot otherwise). *)
Theorem admission_exact st st' id idle now b :
  reachable st -> create hash instant_max st id idle max_sessions now = (st', b) ->
  (forall id' now', id' <> id -> (now <= now')%Z -> live_at hash st' now' id' = live_at hash st now' id')
  /\ (b = true -> (now < expiry instant_max now idle)%Z -> is_Some (live_at hash st' now id))
  /\ (b = false -> live_at hash st now id = None /\ entries st' = max_sessions
       /\ forall id' e, session_at hash st' id' = Some e -> (now < expires_at e)%Z).
Proof.
  intros Hr%reachable_good E.
  destruct (create_spec hash instant_max max_sessions max_ok st id idle now (proj1 Hr)) as [Hok Hk _ Ht Hf].
  rewrite E in *. cbn [fst snd] in *. split_and!.
  - intros id' now' Hne Hle. by eapply kept_live.
  - intros Hb Hx. unfold live_at. rewrite (Ht Hb).
    assert (forall e : SessionEntry, expires_at e = expiry instant_max now idle ->
      is_Some (if (expires_at e <=? now)%Z then None else Some e)) as Hlive.
    { intros e ->. rewrite (proj2 (Z.leb_gt _ _)) by lia. by eexists. }
    apply Hlive. by destruct (live_at hash st now id).
  - intros Hb. destruct (Hf Hb) as (Hl & _ & Htot & Hall). split; [done|]. split; [|exact Hall].
    by rewrite (so_count _ _ _ Hok).
Qed.

(** Regeneration moves the session: the old id stops working at once, the
    new id holds the data the old one had when it was live (nothing otherwise),
    the other live sessions are unchanged, and while rotation records fit, the
    middleware of the request finds the new id under the old one. *)
Theorem regenerate_moves st st' id new idle now1 now2 now3 r :
  reachable st -> id <> new -> session_at hash st new = None ->
  regenerate hash instant_max st id new idle max_sessions now1 now2 now3 = (st', Ok r) ->
  r = new /\ session_at hash st' id = None
  /\ (exists x, session_at hash st' new
        = Some (mkSessionEntry (default ∅ (data <$> live_at hash st now1 id)) x))
  /\ (forall id' now, id' <> id -> id' <> new -> (now2 <= now)%Z ->
        live_at hash st' now id' = live_at hash st now id')
  /\ ((Z.of_nat (size (rotations st)) < max_sessions)%Z -> (take_rotation st' id).2 = Some new).
Proof.
  intros Hr%reachable_good Hne Hfresh. unfold regenerate.
  destruct (rotate_spec hash instant_max max_sessions max_ok st id new idle now1 (proj1 Hr) Hne)
    as (Hok1 & Hrot1 & Hold1 & Hf1 & Hb1 & Hnew1).
  destruct (rotate _ _ _ _ _ _ _) as [st1 rotated]. cbn [fst snd] in *.
  assert (Hrec : forall st2, rotations st2 = rotations st ->
    (Z.of_nat (size (rotations st)) < max_sessions)%Z ->
    (take_rotation (record_rotation st2 id new max_sessions now3) id).2 = Some new).
  { intros st2 E2 Hs. unfold take_rotation, record_rotation. cbn. rewrite E2.
    match goal with |- context [filter ?P (rotations st)] =>
      pose proof (map_size_filter P (rotations st)) as Hle end.
    rewrite (proj2 (Z.ltb_lt _ _)) by lia. by rewrite lookup_insert_eq. }
  destruct (live_at hash st now1 id) as [e|] eqn:El; cbn in Hb1; subst rotated.
  - cbn [negb]. intros [= <- <-]. split; [done|]. split; [exact Hold1|]. split; [by eexists|].
    split; [|by apply Hrec]. intros id' now H1 H2 _. unfold live_at.
    change (session_at hash (record_rotation st1 id new max_sessions now3) id') with (session_at hash st1 id').
    by rewrite Hf1.
  - destruct (create_spec hash instant_max max_sessions max_ok st1 new idle now2 Hok1) as [Hok2 Hk Hrot2 Ht _].
    destruct (create _ _ _ _ _ _ _) as [st2 [|]]; cbn [fst snd negb] in *; [|done].
    intros [= <- <-]. split; [done|]. split_and!.
    + change (session_at hash st2 id = None). destruct (Hk id Hne) as [->|[-> _]]; done.
    + exists (expiry instant_max now2 idle). change (session_at hash st2 new = Some (mkSessionEntry ∅ (expiry instant_max now2 idle))).
      rewrite (Ht eq_refl). unfold live_at. by rewrite Hnew1, Hfresh.
    + intros id' now H1 H2 Hn. change (live_at hash st2 now id' = live_at hash st now id').
      rewrite (kept_live _ _ _ _ _ _ Hk H2 Hn). unfold live_at. by rewrite Hf1.
    + apply Hrec. congruence.
Qed.
End properties.

(** ** Concrete stores: witnesses and a finding *)

Module Demo.
(** Ids hashed by their length; two sessions at most; a 100 ns idle timeout. *)
Definition hash (id : str) : Z := Z.of_nat (length id).
Definition horizon : Z := 1000000000000.
Definition limits : SessionDataLimits := mkSessionDataLimits 4 16 16 64.
Definition max : Z := 2.

Definition set_at (st : SessionStore) (id key value : string) (now : Z) :=
  set hash horizon st (lit id) (lit key) (lit value) 100 max limits now now now.
Definition one : SessionStore := (set_at (SessionStore_new 0) "alice" "user" "1" 10).1.
Definition two : SessionStore := (set_at one "bob" "user" "2" 20).1.

Lemma max_ok : (0 < max <= usize_max)%Z.
Proof. by vm_compute. Defined.
Lemma limits_ok : limits_ok limits.
Proof. by split; vm_compute. Defined.
Lemma reachable_one : reachable hash horizon max limits one.
Proof. apply reach_set, reach_new. Defined.
Lemma reachable_two : reachable hash horizon max limits two.
Proof. apply reach_set, reachable_one. Defined.
End Demo.

Lemma session_store_invariant_witness : (0 <= entries Demo.two <= Demo.max)%Z.
Proof.
  exact (proj1 (proj2 (session_store_invariant Demo.hash Demo.horizon Demo.max Demo.limits
                         Demo.max_ok Demo.limits_ok Demo.two Demo.reachable_two))).
Defined.

Lemma set_then_get_witness :
  (get Demo.hash Demo.horizon Demo.two §"alice" §"user" 100 50).2
  = (get Demo.hash Demo.horizon Demo.one §"alice" §"user" 100 50).2.
Proof.
  destruct (set_then_get Demo.hash Demo.horizon Demo.max Demo.limits Demo.max_ok Demo.limits_ok
              Demo.one Demo.two §"bob" §"user" §"2" 100 20 20 20 Demo.reachable_one
              ltac:(vm_compute; reflexivity)) as (x & _ & H).
  exact (proj2 (H 100%Z 50%Z §"user") §"alice" ltac:(discriminate) ltac:(lia)).
Defined.

Lemma admission_exact_witness :
  entries (create Demo.hash Demo.horizon Demo.two §"carol" 100 Demo.max 30).1 = Demo.max.
Proof.
  assert (E : create Demo.hash Demo.horizon Demo.two §"carol" 100 Demo.max 30
              = ((create Demo.hash Demo.horizon Demo.two §"carol" 100 Demo.max 30).1, false))
    by (vm_compute; reflexivity).
  destruct (admission_exact Demo.hash Demo.horizon Demo.max Demo.limits Demo.max_ok Demo.limits_ok
              Demo.two _ §"carol" 100 30 false Demo.reachable_two E) as (_ & _ & H).
  exact (proj1 (proj2 (H eq_refl))).
Defined.

Lemma regenerate_moves_witness :
  session_at Demo.hash
    (regenerate Demo.hash Demo.horizon Demo.two §"alice" §"new" 100 Demo.max 30 30 30).1 §"alice" = None.
Proof.
  destruct (regenerate Demo.hash Demo.horizon Demo.two §"alice" §"new" 100 Demo.max 30 30 30)
    as [st [r|e]] eqn:E; [|by vm_compute in E].
  exact (proj1 (proj2 (regenerate_moves Demo.hash Demo.horizon Demo.max Demo.limits Demo.max_ok Demo.limits_ok
    Demo.two st §"alice" §"new" 100 30 30 30 r Demo.reachable_two ltac:(discriminate)
    ltac:(vm_compute; reflexivity) E))).
Defined.

(** Regenerating twice in one request loses the session: the middleware
    follows one rotation record, from the id it assigned to the first new id,
    which the second regeneration already moved away, so it finds no live
    session and clears the cookie, while the session lives on under the second
    new id, which no cookie carries. *)
Theorem regenerate_twice_loses_session :
  let st1 := (regenerate Demo.hash Demo.horizon Demo.two §"alice" §"id1" 100 Demo.max 30 30 30).1 in
  let st2 := (regenerate Demo.hash Demo.horizon st1 §"id1" §"id22" 100 Demo.max 31 31 31).1 in
  (middleware_reissue Demo.hash Demo.horizon st1 §"alice" 100 40).1.2 = §"id1"
  /\ (middleware_reissue Demo.hash Demo.horizon st1 §"alice" 100 40).2 = true
  /\ (middleware_reissue Demo.hash Demo.horizon st2 §"alice" 100 40).1.2 = §"id1"
  /\ (middleware_reissue Demo.hash Demo.horizon st2 §"alice" 100 40).2 = false
  /\ (get Demo.hash Demo.horizon st2 §"id22" §"user" 100 40).2 = Some §"1".
Proof. vm_compute. repeat split. Qed.
