(* ===== verification/Request.v ===== *)
(** * Requests ([src/app/request.rs])

    A request keeps three views of its header fields: the pairs in arrival
    order ([header_pairs]), the collapsed map ([headers]) and the parsed
    cookies. The mutators keep them synchronised; the theorems state exactly
    how. Also the query string parser and the framing check of
    [validate_content_length]. The [http] crate's [HeaderName]/[HeaderValue]
    parsers and the base64 decoder are parameters. *)
From S2P Require Import Prelude Strs Percent.

Abbreviation semicolon := Byte.x3b.
Abbreviation equals := Byte.x3d.
Abbreviation ampersand := Byte.x26.
Abbreviation comma := Byte.x2c.

(** ** Decoding *)

Definition replacement : str := [Byte.xef; Byte.xbf; Byte.xbd].

(** [String::from_utf8_lossy]: every maximal ill-formed part becomes U+FFFD. *)
Fixpoint from_utf8_lossy (s : str) : str :=
  match s with
  | [] => []
  | a :: s1 =>
      if in_range 0 127 a then a :: from_utf8_lossy s1 else
      match s1 with
      | [] => replacement
      | b :: s2 =>
          if in_range 194 223 a then
            if utf8_cont b then a :: b :: from_utf8_lossy s2 else replacement ++ from_utf8_lossy s1
          else if utf8_lead3 a b then
            match s2 with
            | [] => replacement
            | c :: s3 =>
                if utf8_cont c then a :: b :: c :: from_utf8_lossy s3
                else replacement ++ from_utf8_lossy s2
            end
          else if utf8_lead4 a b then
            match s2 with
            | [] => replacement
            | c :: s3 =>
                if utf8_cont c then
                  match s3 with
                  | [] => replacement
                  | d :: s4 =>
                      if utf8_cont d then a :: b :: c :: d :: from_utf8_lossy s4
                      else replacement ++ from_utf8_lossy s3
                  end
                else replacement ++ from_utf8_lossy s2
            end
          else replacement ++ from_utf8_lossy s1
      end
  end.

(** The byte loop of [decode_component]. *)
Fixpoint decode_loop (plus_as_space : bool) (s : str) : str :=
  match s with
  | [] => []
  | c :: s1 =>
      if bool_decide (c = Byte.x2b) && plus_as_space then Byte.x20 :: decode_loop plus_as_space s1
      else if bool_decide (c = percent) then
        match s1 with
        | h :: l :: s2 =>
            match hex_value h, hex_value l with
            | Some high, Some low =>
                byte_of (Z.lor (Z.shiftl high 4) low) :: decode_loop plus_as_space s2
            | _, _ => c :: decode_loop plus_as_space s1
            end
        | _ => c :: decode_loop plus_as_space s1
        end
      else c :: decode_loop plus_as_space s1
  end.
Definition decode_component (input : str) (plus_as_space : bool) : str :=
  from_utf8_lossy (decode_loop plus_as_space input).

(** ** Query strings *)

Abbreviation Query := (gmap str (list str)).

Definition add_param (params : Query) (pair : str) : Query :=
  let '(key, value) := default (pair, []) (split_once equals pair) in
  let key := decode_component key true in
  let value := decode_component value true in
  <[key := default [] (params !! key) ++ [value]]> params.

Definition parse_query (query : str) : Query :=
  foldl add_param ∅ (List.filter (fun part => negb (bool_decide (part = []))) (split_on ampersand query)).

(** ** Cookies *)

Abbreviation Cookies := (gmap str str).

Definition add_cookie (cookies : Cookies) (part : str) : Cookies :=
  let part := trim part in
  if bool_decide (part = []) then cookies
  else match split_once equals part with
       | Some (name, value) => <[trim name := trim value]> cookies
       | None => cookies
       end.
Definition parse_cookies (header : str) : Cookies := foldl add_cookie ∅ (split_on semicolon header).

Definition is_token_byte (b : byte) : bool :=
  is_ascii_alphanumeric b || existsb (fun c => bool_decide (c = b)) §"!#$%&'*+-.^_`|~".
Definition valid_request_cookie_name (value : str) : bool :=
  negb (bool_decide (value = [])) && forallb is_token_byte value.
Definition valid_request_cookie_value (value : str) : bool :=
  forallb (fun b => (bval b =? 33)%Z || in_range 35 43 b || in_range 45 58 b || in_range 60 91 b
                    || in_range 93 126 b) value.

(** [format!("{name}={value}")] of each cookie in name order, joined with [; ]. *)
Definition cookie_le (a b : str * str) : Prop := str_leb a.1 b.1 = true.
#[export] Instance cookie_le_dec : RelDecision cookie_le.
Proof. intros a b. unfold cookie_le. apply _. Defined.
Definition render_cookie (c : str * str) : str := c.1 ++ [equals] ++ c.2.
Definition render_cookies (cookies : Cookies) : str :=
  join §"; " (map render_cookie (merge_sort cookie_le (map_to_list cookies))).

(** ** Requests *)

Definition COOKIE : str := §"cookie".

Inductive Version := HTTP_09 | HTTP_10 | HTTP_11 | HTTP_2 | HTTP_3.
#[export] Instance Version_eq_dec : EqDecision Version.
Proof. solve_decision. Defined.

(** The fields the header, cookie and query views and the framing checks use;
    [buffered_len] is the length of a body that is already complete. *)
Record Request := mkRequest {
  version : Version;
  method : str;
  path : str;
  raw_query : option str;
  query : Query;
  headers : gmap str str;
  cookies : Cookies;
  buffered_len : option Z;
  body_limit : Z;
  secure_transport : bool;
  header_pairs : list (str * str)
}.

Definition set_views (r : Request) (h : gmap str str) (c : Cookies) (pairs : list (str * str)) : Request :=
  mkRequest (version r) (method r) (path r) (raw_query r) (query r) h c (buffered_len r) (body_limit r)
    (secure_transport r) pairs.

Inductive HttpError :=
| BadRequest
| InvalidContentLength
| AmbiguousFraming
| PayloadTooLarge (limit : Z)
| DuplicateHeader (name : str).

Definition is_cookie (pair : str * str) : bool := eq_ignore_ascii_case pair.1 COOKIE.
Definition is_not_named (name : str) (pair : str * str) : bool := negb (eq_ignore_ascii_case pair.1 name).

Definition rebuild_cookies (pairs : list (str * str)) : Cookies :=
  foldl (fun acc pair => parse_cookies pair.2 ∪ acc) ∅ (List.filter is_cookie pairs).
Definition rebuild_cookie_view (r : Request) : Request :=
  set_views r (headers r) (rebuild_cookies (header_pairs r)) (header_pairs r).

Definition rewrite_cookie_header (r : Request) : Request :=
  let h := delete COOKIE (headers r) in
  let pairs := List.filter (fun p => negb (is_cookie p)) (header_pairs r) in
  if bool_decide (cookies r = ∅) then set_views r h (cookies r) pairs
  else
    let value := render_cookies (cookies r) in
    set_views r (<[COOKIE := value]> h) (cookies r) (pairs ++ [(COOKIE, value)]).

Definition cookie (r : Request) (name : str) : option str := cookies r !! name.

Definition set_cookie (r : Request) (name value : str) : result Request HttpError :=
  if negb (valid_request_cookie_name name) || negb (valid_request_cookie_value value) then Err BadRequest
  else Ok (rewrite_cookie_header
             (set_views r (headers r) (<[name := value]> (cookies r)) (header_pairs r))).

Definition remove_cookie (r : Request) (name : str) : Request :=
  rewrite_cookie_header (set_views r (headers r) (delete name (cookies r)) (header_pairs r)).

Definition header (r : Request) (name : str) : option str :=
  match headers r !! name with
  | Some value => Some value
  | None => headers r !! to_ascii_lowercase name
  end.

Definition headers_all (r : Request) (name : str) : list str :=
  map snd (List.filter (fun pair => eq_ignore_ascii_case pair.1 name) (header_pairs r)).

(** [Request::singleton_header]. *)
Definition request_singleton_header (r : Request) (name : str) : result (option str) HttpError :=
  match headers_all r name with
  | [] => Ok (header r name)
  | [value] => Ok (Some value)
  | _ => Err (DuplicateHeader name)
  end.

Definition remove_header (r : Request) (name : str) : Request :=
  set_views r (filter (fun kv => is_not_named name kv = true) (headers r))
    (if eq_ignore_ascii_case name COOKIE then ∅ else cookies r)
    (List.filter (is_not_named name) (header_pairs r)).

Section header_names.
(** [HeaderName::try_from] (the normalised name) and [HeaderValue::try_from]. *)
Context (parse_header_name : str -> option str) (valid_header_value : str -> bool).

Definition set_header (r : Request) (name value : str) : result Request HttpError :=
  match parse_header_name name with
  | None => Err BadRequest
  | Some normalized =>
      if negb (valid_header_value value) then Err BadRequest
      else
        let r := set_views r (<[normalized := value]> (headers r)) (cookies r)
                   (List.filter (is_not_named normalized) (header_pairs r) ++ [(normalized, value)]) in
        Ok (if bool_decide (normalized = COOKIE) then rebuild_cookie_view r else r)
  end.

Definition append_header (r : Request) (name value : str) : result Request HttpError :=
  match parse_header_name name with
  | None => Err BadRequest
  | Some normalized =>
      if negb (valid_header_value value) then Err BadRequest
      else
        let r := set_views r (<[normalized := value]> (headers r)) (cookies r)
                   (header_pairs r ++ [(normalized, value)]) in
        Ok (if bool_decide (normalized = COOKIE) then rebuild_cookie_view r else r)
  end.
End header_names.

(** ** The builder *)

Record RequestBuilder := mkRequestBuilder {
  b_method : str;
  b_path : str;
  b_raw_query : option str;
  b_headers : list (str * str);
  b_cookies : Cookies;
  b_body_len : Z;
  b_body_limit : Z;
  b_secure : bool
}.

Definition DEFAULT_BODY_LIMIT : Z := 65536.
Definition RequestBuilder_new : RequestBuilder :=
  mkRequestBuilder §"GET" §"/" None [] ∅ 0 DEFAULT_BODY_LIMIT false.

Definition build_method (b : RequestBuilder) (m : str) : RequestBuilder :=
  mkRequestBuilder (to_ascii_uppercase m) (b_path b) (b_raw_query b) (b_headers b) (b_cookies b)
    (b_body_len b) (b_body_limit b) (b_secure b).
Definition build_path (b : RequestBuilder) (p : str) : RequestBuilder :=
  let '(p, q) := match split_once Byte.x3f p with
                 | Some (p, q) => (p, Some q)
                 | None => (p, None) end in
  mkRequestBuilder (b_method b) p q (b_headers b) (b_cookies b) (b_body_len b) (b_body_limit b) (b_secure b).
Definition build_query (b : RequestBuilder) (q : str) : RequestBuilder :=
  mkRequestBuilder (b_method b) (b_path b) (Some q) (b_headers b) (b_cookies b) (b_body_len b)
    (b_body_limit b) (b_secure b).
Definition build_header (b : RequestBuilder) (name value : str) : RequestBuilder :=
  mkRequestBuilder (b_method b) (b_path b) (b_raw_query b)
    (b_headers b ++ [(to_ascii_lowercase name, value)]) (b_cookies b) (b_body_len b) (b_body_limit b)
    (b_secure b).
Definition build_cookie (b : RequestBuilder) (name value : str) : RequestBuilder :=
  mkRequestBuilder (b_method b) (b_path b) (b_raw_query b) (b_headers b) (<[name := value]> (b_cookies b))
    (b_body_len b) (b_body_limit b) (b_secure b).

(** The names of the explicit Cookie fields. *)
Definition explicit_cookie_names (pairs : list (str * str)) : gset str :=
  foldl (fun acc p => if bool_decide (p.1 = COOKIE) then acc ∪ dom (parse_cookies p.2) else acc) ∅ pairs.

(** The views of the pairs, in one pass. *)
Definition collect_pair (views : gmap str str * Cookies) (p : str * str) : gmap str str * Cookies :=
  (<[p.1 := p.2]> views.1,
   if bool_decide (p.1 = COOKIE) then parse_cookies p.2 ∪ views.2 else views.2).

Definition build (b : RequestBuilder) : Request :=
  let query := match b_raw_query b with Some q => parse_query q | None => ∅ end in
  let explicit := explicit_cookie_names (b_headers b) in
  let synthetic := filter (fun kv => kv.1 ∉ explicit) (b_cookies b) in
  let pairs := if bool_decide (synthetic = ∅) then b_headers b
               else (COOKIE, render_cookies synthetic) :: b_headers b in
  let views := foldl collect_pair (∅, ∅) pairs in
  mkRequest HTTP_11 (b_method b) (b_path b) (b_raw_query b) query views.1 views.2
    (Some (b_body_len b)) (b_body_limit b) (b_secure b) pairs.

(** ** Framing *)

(** One list member of a Content-Length field, against the value seen so far. *)
Definition check_length (seen : option Z) (raw_part : str) : result (option Z) HttpError :=
  let value := trim raw_part in
  if bool_decide (value = []) || negb (forallb is_ascii_digit value) then Err InvalidContentLength
  else match parse_u64 value with
       | None => Err InvalidContentLength
       | Some n =>
           match seen with
           | Some previous => if (previous =? n)%Z then Ok seen else Err InvalidContentLength
           | None => Ok (Some n)
           end
       end.

Definition content_length_values (r : Request) : list str :=
  match headers_all r §"content-length" with
  | [] => option_list (header r §"content-length")
  | values => values
  end.

Definition validate_content_length (r : Request) : result unit HttpError :=
  let values := content_length_values r in
  if negb (bool_decide (values = [])) && bool_decide (is_Some (header r §"transfer-encoding")) then
    Err AmbiguousFraming
  else
    let? seen := try_fold (fun seen raw => try_fold check_length seen (split_on comma raw)) None values in
    match seen with
    | None => Ok tt
    | Some n =>
        if (body_limit r <? n)%Z then Err (PayloadTooLarge (body_limit r))
        else match buffered_len r with
             | Some actual => if (n =? actual)%Z then Ok tt else Err InvalidContentLength
             | None => Ok tt
             end
    end.

(** ** Cookies: rendering and parsing *)

(** What a parsed cookie looks like. *)
Definition cookie_clean (name value : str) : Prop :=
  semicolon ∉ name /\ equals ∉ name /\ trimmed name /\ semicolon ∉ value /\ trimmed value.

Abbreviation cookies_clean := (map_Forall cookie_clean).

Lemma add_cookie_clean cs part : semicolon ∉ part -> cookies_clean cs -> cookies_clean (add_cookie cs part).
Proof.
  intros Hp Hcs. unfold add_cookie. case_bool_decide; [done|].
  destruct (split_once equals (trim part)) as [[n v]|] eqn:E; [|done].
  apply split_once_Some in E as [E Hn].
  assert (forall c, c ∈ n \/ c ∈ v -> c ∈ part) as Hin.
  { intros c Hc. apply trim_elem. rewrite E. set_solver. }
  apply map_Forall_insert_2; [|done]. split_and!.
  - intros Hx%trim_elem. apply Hp, Hin. by left.
  - intros Hx%trim_elem. done.
  - apply trim_trimmed.
  - intros Hx%trim_elem. apply Hp, Hin. by right.
  - apply trim_trimmed.
Qed.

Lemma parse_cookies_clean header : cookies_clean (parse_cookies header).
Proof.
  unfold parse_cookies.
  assert (Forall (fun w => semicolon ∉ w) (split_on semicolon header)) as Hw.
  { apply Forall_forall. intros w Hw. by apply split_on_infix in Hw as [? _]. }
  assert (cookies_clean (∅ : Cookies)) as Hc by apply map_Forall_empty.
  revert Hc. generalize (∅ : Cookies). induction Hw as [|w ws Hw _ IH]; intros cs Hc; cbn; [done|].
  by apply IH, add_cookie_clean.
Qed.

Lemma add_cookie_render cs c :
  cookie_clean c.1 c.2 -> add_cookie cs (render_cookie c) = <[c.1 := c.2]> cs
  /\ add_cookie cs (Byte.x20 :: render_cookie c) = <[c.1 := c.2]> cs /\ semicolon ∉ render_cookie c.
Proof.
  destruct c as [n v]. cbn. intros (H1 & H2 & H3 & H4 & H5).
  assert (Ht : trim (n ++ equals :: v) = n ++ equals :: v) by (by apply trim_id, trimmed_solid).
  assert (add_cookie cs (n ++ equals :: v) = <[n := v]> cs) as E.
  { unfold add_cookie. rewrite Ht, bool_decide_eq_false_2 by (by destruct n).
    rewrite split_once_app by done. by rewrite !trim_id. }
  unfold render_cookie. cbn. split_and!; [done| |set_solver].
  rewrite <- E. unfold add_cookie. by rewrite trim_space.
Qed.

Lemma foldl_render (l : list (str * str)) (cs : Cookies) (f : str -> str) :
  Forall (fun c => cookie_clean c.1 c.2) l ->
  (forall cs c, cookie_clean c.1 c.2 -> add_cookie cs (f (render_cookie c)) = <[c.1 := c.2]> cs) ->
  foldl add_cookie cs (map f (map render_cookie l)) = foldl (fun m c => <[c.1 := c.2]> m) cs l.
Proof.
  intros Hl Hf. revert cs. induction Hl as [|c l Hc _ IH]; intros cs; cbn; [done|]. by rewrite Hf, IH.
Qed.

Lemma foldl_insert_map (l : list (str * str)) (cs : Cookies) :
  NoDup l.*1 -> (forall n, n ∈ l.*1 -> cs !! n = None) ->
  foldl (fun m c => <[c.1 := c.2]> m) cs l = list_to_map l ∪ cs.
Proof.
  revert cs. induction l as [|[n v] l IH]; intros cs Hn Hd; cbn; [by rewrite (left_id_L ∅ (∪))|].
  apply NoDup_cons in Hn as [Hn1 Hn2]. rewrite IH; [|done|].
  - rewrite <- insert_union_l, <- insert_union_r; [done|]. by apply not_elem_of_list_to_map.
  - intros m Hm. rewrite lookup_insert_ne; [apply Hd; by right|]. by intros ->.
Qed.

(** Parsing the rendered header gives the cookies back. *)
Lemma parse_render_cookies cs : cookies_clean cs -> parse_cookies (render_cookies cs) = cs.
Proof.
  intros Hcs. unfold render_cookies. set (l := merge_sort cookie_le (map_to_list cs)).
  assert (Hp : l ≡ₚ map_to_list cs) by apply merge_sort_Permutation.
  assert (Hl : Forall (fun c => cookie_clean c.1 c.2) l).
  { rewrite Hp. by apply map_Forall_to_list in Hcs as Hcs'; eapply Forall_impl; [exact Hcs'|]; intros []. }
  assert (Hfold : foldl (fun m c => <[c.1 := c.2]> m) ∅ l = cs).
  { assert (NoDup l.*1) as Hn by (rewrite Hp; apply NoDup_fst_map_to_list).
    rewrite foldl_insert_map; [|done|intros; apply lookup_empty].
    rewrite (right_id_L ∅ (∪)). rewrite (list_to_map_proper _ (map_to_list cs) Hn Hp).
    apply list_to_map_to_list. }
  clearbody l. destruct l as [|c l]; [done|]. apply Forall_cons in Hl as Hl'. destruct Hl' as [Hc Hl'].
  change §"; " with [semicolon; Byte.x20]. unfold parse_cookies. cbn [map].
  rewrite split_on_join_space; [|done|].
  - cbn [foldl]. rewrite (proj1 (add_cookie_render ∅ c Hc)).
    rewrite (foldl_render l _ (cons Byte.x20)); [exact Hfold|done|]. intros cs' c' Hc'. by apply add_cookie_render.
  - change (render_cookie c :: map render_cookie l) with (map render_cookie (c :: l)).
    apply Forall_map. eapply Forall_impl; [exact Hl|]. intros x Hx. by apply (add_cookie_render ∅).
Qed.

(** ** The views agree *)

Definition lower (p : str * str) : Prop := to_ascii_lowercase p.1 = p.1.

(** The collapsed map: the last value of each name. *)
Definition header_view (pairs : list (str * str)) : gmap str str :=
  foldl (fun m p => <[p.1 := p.2]> m) ∅ pairs.

Record views_ok (r : Request) : Prop := {
  vo_lower : Forall lower (header_pairs r);
  vo_headers : headers r = header_view (header_pairs r);
  vo_cookies : cookies r = rebuild_cookies (header_pairs r)
}.

Lemma named_lower p k : lower p -> to_ascii_lowercase k = k -> eq_ignore_ascii_case p.1 k = bool_decide (p.1 = k).
Proof.
  intros Hp Hk. unfold eq_ignore_ascii_case. unfold lower in Hp. by rewrite Hp, Hk.
Qed.

Lemma header_view_snoc l p : header_view (l ++ [p]) = <[p.1 := p.2]> (header_view l).
Proof. unfold header_view. by rewrite foldl_app. Qed.

Lemma header_view_filter (f : str -> bool) l :
  header_view (List.filter (fun p => f p.1) l) = filter (fun kv => f kv.1 = true) (header_view l).
Proof.
  induction l as [|[k v] l IH] using rev_ind; [symmetry; apply map_filter_empty|].
  rewrite List.filter_app, header_view_snoc. cbn. destruct (f k) eqn:E.
  - rewrite header_view_snoc, IH. cbn. by rewrite map_filter_insert_True.
  - rewrite app_nil_r, IH. rewrite map_filter_insert_False by (cbn; by rewrite E).
    apply map_filter_strong_ext. intros i x. cbn. rewrite lookup_delete_Some.
    split; [|tauto]. intros [? ?]. split; [done|]. split; [|done]. intros <-. congruence.
Qed.

Lemma header_view_without k l :
  Forall lower l -> to_ascii_lowercase k = k ->
  header_view (List.filter (is_not_named k) l) = delete k (header_view l).
Proof.
  intros Hl Hk. set (other := fun n : str => negb (bool_decide (n = k))).
  transitivity (header_view (List.filter (fun p => other p.1) l)).
  { f_equal. apply List.filter_ext_in. intros p Hp. unfold is_not_named. rewrite named_lower; [done| |done].
    rewrite Forall_forall in Hl. by apply Hl, list_elem_of_In. }
  rewrite header_view_filter. unfold other. apply map_eq. intros i.
  apply option_eq. intros x. rewrite map_lookup_filter_Some, lookup_delete_Some. cbn.
  rewrite negb_true_iff, bool_decide_eq_false. naive_solver.
Qed.

Lemma header_view_last l k : header_view l !! k = last (map snd (List.filter (fun p => bool_decide (p.1 = k)) l)).
Proof.
  induction l as [|[n v] l IH] using rev_ind; [done|].
  rewrite header_view_snoc, List.filter_app, map_app. cbn. case_bool_decide as E; cbn.
  - subst. by rewrite lookup_insert_eq, last_snoc.
  - by rewrite lookup_insert_ne, app_nil_r.
Qed.

Lemma rebuild_snoc l p :
  rebuild_cookies (l ++ [p]) = if is_cookie p then parse_cookies p.2 ∪ rebuild_cookies l else rebuild_cookies l.
Proof.
  unfold rebuild_cookies. rewrite List.filter_app. cbn. destruct (is_cookie p); [|by rewrite app_nil_r].
  by rewrite foldl_app.
Qed.

Lemma rebuild_clean l : cookies_clean (rebuild_cookies l).
Proof.
  induction l as [|p l IH] using rev_ind; [apply map_Forall_empty|]. rewrite rebuild_snoc.
  destruct (is_cookie p); [|done]. apply map_Forall_union_2; [apply parse_cookies_clean|done].
Qed.

Lemma rebuild_filter f l :
  Forall (fun p => is_cookie p = true -> f p = true) l -> rebuild_cookies (List.filter f l) = rebuild_cookies l.
Proof.
  induction l as [|p l IH] using rev_ind; [done|]. intros [Hl Hp]%Forall_app. apply Forall_cons in Hp as [Hp _].
  rewrite List.filter_app, rebuild_snoc. cbn. destruct (is_cookie p) eqn:E.
  - rewrite Hp, rebuild_snoc, E, IH by done. done.
  - destruct (f p); [by rewrite rebuild_snoc, E, IH|]. rewrite app_nil_r. by apply IH.
Qed.

Lemma rebuild_none l : Forall (fun p => is_cookie p = false) l -> rebuild_cookies l = ∅.
Proof.
  induction l as [|p l IH] using rev_ind; [done|]. intros [Hl Hp]%Forall_app. apply Forall_cons in Hp as [Hp _].
  rewrite rebuild_snoc, Hp. by apply IH.
Qed.

Lemma filter_Forall {A} (P : A -> Prop) f l : Forall P l -> Forall P (List.filter f l).
Proof. rewrite !Forall_forall. intros H x [Hx _]%elem_of_filter_bool. by apply H. Qed.

Lemma filter_all {A} (f : A -> bool) l : Forall (fun x => f x = true) (List.filter f l).
Proof. apply Forall_forall. by intros x [_ ?]%elem_of_filter_bool. Qed.

Lemma COOKIE_lower : to_ascii_lowercase COOKIE = COOKIE.
Proof. reflexivity. Qed.

(** Rewriting the Cookie field from clean cookies restores the views. *)
Lemma rewrite_views r :
  Forall lower (header_pairs r) -> headers r = header_view (header_pairs r) -> cookies_clean (cookies r) ->
  views_ok (rewrite_cookie_header r).
Proof.
  intros Hl Hh Hc. unfold rewrite_cookie_header.
  assert (Hnot : Forall (fun p => is_cookie p = false) (List.filter (fun p => negb (is_cookie p)) (header_pairs r))).
  { eapply Forall_impl; [apply filter_all|]. intros p. cbn. by rewrite negb_true_iff. }
  assert (Hv : header_view (List.filter (fun p => negb (is_cookie p)) (header_pairs r)) = delete COOKIE (headers r)).
  { rewrite Hh. by apply (header_view_without COOKIE). }
  case_bool_decide as E; split; cbn [set_views header_pairs headers cookies].
  - by apply filter_Forall.
  - done.
  - rewrite E. symmetry. by apply rebuild_none.
  - apply Forall_app. split; [by apply filter_Forall|]. by apply Forall_singleton.
  - by rewrite header_view_snoc, Hv.
  - rewrite rebuild_snoc, (rebuild_none _ Hnot). change (is_cookie _) with true. cbn [snd].
    rewrite (right_id_L ∅ (∪)). by rewrite parse_render_cookies.
Qed.

Lemma valid_name_clean n : valid_request_cookie_name n = true -> semicolon ∉ n /\ equals ∉ n /\ trimmed n.
Proof.
  unfold valid_request_cookie_name. intros Hn. bsplit. apply forallb_true_Forall in H0.
  assert (forall b, is_token_byte b = true -> ascii_solid b = true /\ b <> semicolon /\ b <> equals) as Hb.
  { intros b. destruct b; vm_compute; intros; try done; split_and!; done. }
  split_and!.
  - intros Hx. rewrite Forall_forall in H0. specialize (H0 _ Hx). by destruct (Hb _ H0) as (_ & ? & _).
  - intros Hx. rewrite Forall_forall in H0. specialize (H0 _ Hx). by destruct (Hb _ H0) as (_ & _ & ?).
  - apply solid_trimmed. eapply Forall_impl; [exact H0|]. intros b ?. by apply Hb.
Qed.

Lemma valid_value_clean v : valid_request_cookie_value v = true -> semicolon ∉ v /\ trimmed v.
Proof.
  unfold valid_request_cookie_value. intros Hv%forallb_true_Forall.
  match type of Hv with Forall (fun b => ?f = true) _ =>
    assert (forall b, (fun b => f) b = true -> ascii_solid b = true /\ b <> semicolon) as Hb end.
  { intros b. destruct b; vm_compute; intros; try done; split_and!; done. }
  split.
  - intros Hx. rewrite Forall_forall in Hv. specialize (Hv _ Hx). by destruct (Hb _ Hv) as (_ & ?).
  - apply solid_trimmed. eapply Forall_impl; [exact Hv|]. intros b ?. by apply Hb.
Qed.

Section operations.
Context (parse_header_name : str -> option str) (valid_header_value : str -> bool).
(** [HeaderName::as_str] is always lower case. *)
Hypothesis header_name_lower : forall name normalized,
  parse_header_name name = Some normalized -> to_ascii_lowercase normalized = normalized.

(** The mutators of a request, an error leaving it as it was. *)
Inductive Mutation :=
| SetHeader (name value : str)
| AppendHeader (name value : str)
| RemoveHeader (name : str)
| SetCookie (name value : str)
| RemoveCookie (name : str).

Definition or_unchanged (r : Request) (x : result Request HttpError) : Request :=
  match x with Ok r' => r' | Err _ => r end.
Definition mutate (r : Request) (m : Mutation) : Request :=
  match m with
  | SetHeader name value => or_unchanged r (set_header parse_header_name valid_header_value r name value)
  | AppendHeader name value => or_unchanged r (append_header parse_header_name valid_header_value r name value)
  | RemoveHeader name => remove_header r name
  | SetCookie name value => or_unchanged r (set_cookie r name value)
  | RemoveCookie name => remove_cookie r name
  end.

(** Adding a field to pairs without its Cookie fields, or to all of them. *)
Lemma add_field_ok r k v pairs :
  to_ascii_lowercase k = k -> Forall lower pairs ->
  header_view pairs = headers r \/ header_view pairs = delete k (headers r) ->
  (k <> COOKIE -> cookies r = rebuild_cookies pairs) ->
  let r' := set_views r (<[k := v]> (headers r)) (cookies r) (pairs ++ [(k, v)]) in
  views_ok (if bool_decide (k = COOKIE) then rebuild_cookie_view r' else r').
Proof.
  intros Hk Hl Hv Hc r'.
  assert (Hl' : Forall lower (pairs ++ [(k, v)])) by (apply Forall_app; split; [done|]; by apply Forall_cons).
  assert (Hh : <[k := v]> (headers r) = header_view (pairs ++ [(k, v)])).
  { rewrite header_view_snoc. destruct Hv as [->| ->]; cbn; [done|]. by rewrite insert_delete_eq. }
  case_bool_decide as E; split; try done. cbn [r' set_views header_pairs cookies].
  rewrite rebuild_snoc, (Hc E). destruct (is_cookie (k, v)) eqn:Ek; [|done].
  unfold is_cookie in Ek. rewrite named_lower in Ek; [|done|done]. bsplit. done.
Qed.

Lemma mutate_ok r m : views_ok r -> views_ok (mutate r m).
Proof.
  intros [Hl Hh Hc]. destruct m as [n v|n v|n|n v|n]; cbn [mutate or_unchanged].
  - unfold set_header. destruct (parse_header_name n) as [k|] eqn:Hn; cbn; [|done].
    destruct (valid_header_value v); cbn [negb or_unchanged]; [|done]. apply header_name_lower in Hn.
    apply add_field_ok; [done|by apply filter_Forall| |].
    + right. rewrite Hh. by apply header_view_without.
    + intros Hk. rewrite Hc. symmetry. apply rebuild_filter. eapply Forall_impl; [exact Hl|].
      intros p Hp. unfold is_cookie, is_not_named. rewrite !named_lower by done.
      intros Ep. bsplit. bgoal. congruence.
  - unfold append_header. destruct (parse_header_name n) as [k|] eqn:Hn; cbn; [|done].
    destruct (valid_header_value v); cbn [negb or_unchanged]; [|done]. apply header_name_lower in Hn.
    apply add_field_ok; [done|done|by left|done].
  - unfold remove_header. split; cbn [set_views header_pairs headers cookies].
    + by apply filter_Forall.
    + rewrite Hh. symmetry. apply (header_view_filter (fun k => negb (eq_ignore_ascii_case k n))).
    + destruct (eq_ignore_ascii_case n COOKIE) eqn:En.
      * symmetry. apply rebuild_none. eapply Forall_impl; [apply filter_all|]. intros p.
        unfold is_not_named, is_cookie, eq_ignore_ascii_case in *. intros Hp. bsplit. bgoal. congruence.
      * rewrite Hc. symmetry. apply rebuild_filter. apply Forall_forall. intros p _.
        unfold is_not_named, is_cookie, eq_ignore_ascii_case in *. intros Hp. bsplit. bgoal. congruence.
  - unfold set_cookie. destruct (valid_request_cookie_name n) eqn:En; cbn [negb orb or_unchanged]; [|done].
    destruct (valid_request_cookie_value v) eqn:Ev; cbn [negb or_unchanged]; [|done].
    apply rewrite_views; [done|done|]. cbn. apply map_Forall_insert_2; [|rewrite Hc; apply rebuild_clean].
    apply valid_name_clean in En as (? & ? & ?). apply valid_value_clean in Ev as [? ?]. done.
  - apply rewrite_views; [done|done|]. cbn. apply map_Forall_delete. rewrite Hc. apply rebuild_clean.
Qed.

Lemma foldl_map {A B C} (f : C -> B -> C) (g : A -> B) l c :
  foldl f c (map g l) = foldl (fun c x => f c (g x)) c l.
Proof. revert c. induction l as [|x l IH]; intros c; cbn; [done|]. apply IH. Qed.

Lemma collect_views l :
  Forall lower l -> foldl collect_pair (∅, ∅) l = (header_view l, rebuild_cookies l).
Proof.
  induction l as [|p l IH] using rev_ind; [done|]. intros [Hl Hp]%Forall_app. apply Forall_cons in Hp as [Hp _].
  rewrite foldl_app, IH, header_view_snoc, rebuild_snoc by done. cbn. unfold collect_pair, is_cookie. cbn.
  by rewrite named_lower.
Qed.

(** The builders the public methods construct. *)
Inductive built : RequestBuilder -> Prop :=
| built_new : built RequestBuilder_new
| built_method b m : built b -> built (build_method b m)
| built_path b p : built b -> built (build_path b p)
| built_query b q : built b -> built (build_query b q)
| built_header b n v : built b -> built (build_header b n v)
| built_cookie b n v : built b -> built (build_cookie b n v).

Lemma to_lower_idem s : to_ascii_lowercase (to_ascii_lowercase s) = to_ascii_lowercase s.
Proof. unfold to_ascii_lowercase. rewrite List.map_map. apply List.map_ext. intros b. by destruct b. Qed.

Lemma built_lower b : built b -> Forall lower (b_headers b).
Proof.
  induction 1 as [|b m Hb IH|b p Hb IH|b q Hb IH|b n v Hb IH|b n v Hb IH]; cbn; try done.
  - unfold build_path. by destruct (split_once _ p) as [[? ?]|].
  - apply Forall_app. split; [done|]. apply Forall_cons. split; [apply to_lower_idem|done].
Qed.

Lemma build_ok b : built b -> views_ok (build b).
Proof.
  intros Hb%built_lower. unfold build.
  match goal with |- context [foldl collect_pair _ ?l] => set (pairs := l) end.
  assert (Hp : Forall lower pairs).
  { unfold pairs. case_bool_decide; [done|]. by apply Forall_cons. }
  rewrite collect_views by done. by split.
Qed.

Lemma views_header r name : views_ok r -> header r name = last (headers_all r name).
Proof.
  intros [Hl Hh _]. unfold header, headers_all.
  assert (Hlow : headers r !! to_ascii_lowercase name
    = last (map snd (List.filter (fun p => eq_ignore_ascii_case p.1 name) (header_pairs r)))).
  { rewrite Hh, header_view_last. do 2 f_equal. apply List.filter_ext_in. intros p Hp%list_elem_of_In.
    rewrite Forall_forall in Hl. apply Hl in Hp. unfold eq_ignore_ascii_case. by rewrite Hp. }
  destruct (headers r !! name) as [v|] eqn:E; [|done]. rewrite <- Hlow. symmetry.
  enough (to_ascii_lowercase name = name) as -> by done.
  rewrite Hh, header_view_last in E. apply last_Some_elem_of, list_elem_of_fmap in E as (p & _ & Hp).
  apply elem_of_filter_bool in Hp as [Hp Hn]. bsplit. subst. rewrite Forall_forall in Hl. by apply Hl.
Qed.

(** C16. The header and cookie views of a request never diverge: for a request
    built by any sequence of builder calls and changed by any sequence of
    header and cookie mutations, [header] returns the last of [headers_all], and
    the parsed cookies are exactly those of its Cookie fields, the last one of a
    name winning. *)
Theorem request_views_agree b ms :
  built b ->
  let r := foldl mutate (build b) ms in
  (forall name, header r name = last (headers_all r name))
  /\ cookies r = foldl (fun acc value => parse_cookies value ∪ acc) ∅ (headers_all r COOKIE).
Proof.
  intros Hb r. assert (Hr : views_ok r).
  { unfold r. pose proof (build_ok b Hb) as Hr. clear Hb r. revert Hr. generalize (build b).
    induction ms as [|m ms IH]; intros r Hr; [done|]. by apply IH, mutate_ok. }
  split; [intros name; by apply views_header|].
  rewrite (vo_cookies _ Hr). unfold rebuild_cookies, headers_all, is_cookie. by rewrite foldl_map.
Qed.
End operations.

Definition demo_builder : RequestBuilder :=
  build_header (build_cookie (build_header RequestBuilder_new §"Accept" §"a") §"id" §"7") §"accept" §"b".

Lemma request_views_agree_witness :
  let r := foldl (mutate (fun n => Some (to_ascii_lowercase n)) (fun _ => true)) (build demo_builder)
             [SetCookie §"theme" §"dark"; AppendHeader §"X-Id" §"1"; RemoveCookie §"id"] in
  header r §"accept" = last (headers_all r §"accept") /\ headers_all r §"accept" = [§"a"; §"b"]
  /\ headers_all r §"cookie" = [§"theme=dark"].
Proof.
  split; [|split; by vm_compute].
  refine (proj1 (request_views_agree (fun n => Some (to_ascii_lowercase n)) (fun _ => true) _ demo_builder _ _) _).
  - intros n k [= <-]. apply to_lower_idem.
  - repeat constructor.
Defined.

(** ** Query strings: encoding and parsing *)

Lemma from_utf8_lossy_valid s : utf8_valid s = true -> from_utf8_lossy s = s.
Proof.
  induction s as [s IH] using (induction_ltof1 _ (@length _)); unfold ltof in IH.
  destruct s as [|a s]; cbn; [done|].
  destruct (in_range 0 127 a); [intros; rewrite IH; [done|cbn; lia|done]|].
  destruct s as [|b s]; [done|].
  destruct (in_range 194 223 a); [intros ?; bsplit; rewrite H, IH; [done|cbn; lia|done]|].
  destruct s as [|c s]; [done|].
  destruct (utf8_lead3 a b); [intros ?; bsplit; rewrite H, IH; [done|cbn; lia|done]|].
  destruct s as [|d s]; [done|]. intros ?; bsplit. rewrite H, H2, H1, IH; [done|cbn; lia|done].
Qed.

Lemma decode_loop_encode s : decode_loop true (encode_path_segment s) = s.
Proof.
  induction s as [|b s IH]; [done|]. unfold encode_path_segment in *. cbn [map concat].
  transitivity (b :: decode_loop true (concat (map encode_byte s))); [by destruct b|by rewrite IH].
Qed.

Lemma decode_component_encode s : utf8_valid s = true -> decode_component (encode_path_segment s) true = s.
Proof. intros Hs. unfold decode_component. rewrite decode_loop_encode. by apply from_utf8_lossy_valid. Qed.

Lemma encode_avoids c s : c = ampersand \/ c = equals -> c ∉ encode_path_segment s.
Proof.
  intros Hc. unfold encode_path_segment. induction s as [|b s IH]; cbn; [apply not_elem_of_nil|].
  rewrite not_elem_of_app. split; [|done]. apply (proj1 (bool_decide_eq_false _)).
  destruct Hc as [-> | ->]; by destruct b.
Qed.

Definition encode_param (p : str * str) : str := encode_path_segment p.1 ++ [equals] ++ encode_path_segment p.2.
Definition encode_query (params : list (str * str)) : str := join [ampersand] (map encode_param params).

Lemma add_param_encode q p :
  utf8_valid p.1 = true -> utf8_valid p.2 = true ->
  add_param q (encode_param p) = <[p.1 := default [] (q !! p.1) ++ [p.2]]> q.
Proof.
  intros H1 H2. unfold add_param, encode_param. cbn [app].
  rewrite split_once_app by (apply encode_avoids; by right). cbv beta iota zeta delta [default from_option id].
  by rewrite !decode_component_encode.
Qed.

Lemma add_params_lookup params q k :
  Forall (fun p => utf8_valid p.1 = true /\ utf8_valid p.2 = true) params ->
  default [] (foldl add_param q (map encode_param params) !! k)
  = default [] (q !! k) ++ map snd (List.filter (fun p => bool_decide (p.1 = k)) params).
Proof.
  intros Hp. revert q. induction Hp as [|p params [H1 H2] _ IH]; intros q; cbn [map foldl List.filter];
    [by rewrite app_nil_r|].
  rewrite IH, add_param_encode by done. case_bool_decide as E.
  - rewrite E, lookup_insert_eq. cbn. by rewrite <- app_assoc.
  - by rewrite lookup_insert_ne.
Qed.

(** Query strings round-trip: parsing the percent-encoded rendering of any
    list of UTF-8 parameters gives, for every key, exactly its values in
    order. *)
Theorem query_roundtrip params key :
  Forall (fun p => utf8_valid p.1 = true /\ utf8_valid p.2 = true) params ->
  default [] (parse_query (encode_query params) !! key)
  = map snd (List.filter (fun p => bool_decide (p.1 = key)) params).
Proof.
  intros Hp. unfold parse_query, encode_query. destruct params as [|p params]; [done|].
  assert (Hne : Forall (fun w => negb (bool_decide (w = [])) = true) (map encode_param (p :: params))).
  { apply Forall_map, Forall_forall. intros [k v] _. bgoal. by intros [_ [? _]%app_nil]%app_nil. }
  rewrite split_on_join; [|done|].
  - rewrite List.forallb_filter_id by (by apply forallb_true_Forall).
    rewrite add_params_lookup by done. by rewrite lookup_empty.
  - apply Forall_map, Forall_forall. intros [k v] _. unfold encode_param. cbn.
    rewrite not_elem_of_app, not_elem_of_cons. split_and!; [|done|]; apply encode_avoids; by left.
Qed.

Lemma query_roundtrip_witness :
  encode_query [(§"a b", §"1&2"); (§"k", []); (§"a b", §"=")] = §"a%20b=1%262&k=&a%20b=%3D"
  /\ default [] (parse_query (encode_query [(§"a b", §"1&2"); (§"k", []); (§"a b", §"=")]) !! §"a b")
     = [§"1&2"; §"="].
Proof.
  split; [by vm_compute|].
  apply (query_roundtrip [(§"a b", §"1&2"); (§"k", []); (§"a b", §"=")] §"a b"). repeat constructor.
Defined.

(** ** Framing *)

(** A list member declares the length [n]. *)
Definition declares (n : Z) (part : str) : Prop :=
  trim part <> [] /\ Forall (fun c => is_ascii_digit c = true) (trim part)
  /\ digits_value (trim part) = n /\ (n <= u64_max)%Z.

Lemma check_length_Ok seen part out :
  check_length seen part = Ok out <->
  exists n, declares n part /\ out = Some n /\ (seen = None \/ seen = Some n).
Proof.
  unfold check_length, declares. destruct (bool_decide (trim part = [])) eqn:E1; cbn [orb]; bsplit;
    [split; [done|naive_solver]|].
  destruct (forallb is_ascii_digit (trim part)) eqn:E2; cbn [negb];
    [|split; [done|]; intros (n & (_ & Hd & _) & _); apply forallb_true_Forall in Hd; congruence].
  apply forallb_true_Forall in E2. rewrite parse_u64_digits by done.
  destruct (Z.leb_spec (digits_value (trim part)) u64_max) as [Hle|Hgt]; [|split; [done|]; intros (n & ? & _); lia].
  destruct seen as [m|]; [destruct (Z.eqb_spec m (digits_value (trim part)))|]; naive_solver.
Qed.

Lemma check_lengths_Ok parts : forall seen out,
  try_fold check_length seen parts = Ok out <->
  (parts = [] /\ out = seen) \/
  (parts <> [] /\ exists n, Forall (declares n) parts /\ out = Some n /\ (seen = None \/ seen = Some n)).
Proof.
  induction parts as [|part parts IH]; intros seen out; cbn [try_fold]; [naive_solver|].
  destruct (check_length seen part) as [mid|e] eqn:E.
  - apply check_length_Ok in E as (n & Hn & -> & Hseen). rewrite IH. split.
    + intros [[-> ->]|[_ (m & Hm & -> & [?|[= ->]])]]; [| |]; right; [split; [done|]; exists n; auto|done|].
      split; [done|]. exists m. auto.
    + intros [[? _]|(_ & m & [Hm Hms]%Forall_cons & -> & _)]; [done|].
      assert (m = n) as -> by (destruct Hm as (_ & _ & ? & _), Hn as (_ & _ & ? & _); lia).
      destruct parts; [by left|]. right. split; [done|]. exists n. auto.
  - split; [done|]. intros [[? _]|(_ & m & [Hm Hms]%Forall_cons & -> & Hs)]; [done|].
    assert (check_length seen part = Ok (Some m)) as E' by (apply check_length_Ok; eauto). congruence.
Qed.

Lemma try_fold_concat {A S E} (f : S -> A -> result S E) (ls : list (list A)) : forall acc,
  try_fold (fun acc l => try_fold f acc l) acc ls = try_fold f acc (concat ls).
Proof.
  induction ls as [|l ls IH]; intros acc; cbn; [done|].
  revert acc. induction l as [|x l IHl]; intros acc; cbn; [apply IH|]. destruct (f acc x); [apply IHl|done].
Qed.

Lemma try_fold_map {A B S E} (f : S -> B -> result S E) (g : A -> B) l : forall acc,
  try_fold (fun acc x => f acc (g x)) acc l = try_fold f acc (map g l).
Proof. induction l as [|x l IH]; intros acc; cbn; [done|]. destruct (f acc (g x)); [apply IH|done]. Qed.

(** The members of all Content-Length fields. *)
Definition length_parts (r : Request) : list str := concat (map (split_on comma) (content_length_values r)).

Lemma length_parts_nil r : length_parts r = [] <-> content_length_values r = [].
Proof.
  unfold length_parts. destruct (content_length_values r) as [|v vs]; [done|]. cbn. split; [|done].
  intros [E _]%app_nil. by apply split_on_ne in E.
Qed.

(** Request framing is unambiguous: [validate_content_length] accepts
    exactly the requests that declare no length, and those without a
    Transfer-Encoding whose every declared length is the same plain decimal
    number, within the body limit and equal to the length of an already complete
    body. *)
Theorem content_length_exact r :
  validate_content_length r = Ok tt <->
  content_length_values r = []
  \/ (header r §"transfer-encoding" = None
      /\ exists n, Forall (declares n) (length_parts r) /\ (n <= body_limit r)%Z
         /\ forall actual, buffered_len r = Some actual -> actual = n).
Proof.
  unfold validate_content_length.
  rewrite (try_fold_map (fun seen parts => try_fold check_length seen parts) (split_on comma)), try_fold_concat.
  fold (length_parts r). pose proof (length_parts_nil r) as Hnil.
  case_bool_decide as Hv; cbn [negb andb].
  { rewrite (proj2 Hnil Hv). cbn. tauto. }
  case_bool_decide as Hte.
  { split; [done|]. intros [?|[Hn _]]; [done|]. rewrite Hn in Hte. by apply is_Some_None in Hte. }
  assert (header r §"transfer-encoding" = None) by (by apply eq_None_not_Some).
  destruct (try_fold check_length None (length_parts r)) as [out|e] eqn:E.
  - apply check_lengths_Ok in E as [[? _]|(_ & n & Hn & -> & _)]; [tauto|].
    assert (Huniq : forall m, Forall (declares m) (length_parts r) -> m = n).
    { destruct (length_parts r) as [|p ps]; [tauto|]. intros m Hm. apply Forall_cons in Hm as [(_ & _ & ? & _) _].
      apply Forall_cons in Hn as [(_ & _ & ? & _) _]. lia. }
    destruct (Z.ltb_spec (body_limit r) n) as [Hlt|Hle].
    + split; [done|]. intros [?|(_ & m & Hm & ? & _)]; [done|]. apply Huniq in Hm. lia.
    + destruct (buffered_len r) as [actual|].
      * destruct (Z.eqb_spec n actual) as [->|Hne]; [split; [|done]; intros _; right; split; [done|]|].
        -- exists actual. split_and!; [done|done|]. by intros ? [= ->].
        -- split; [done|]. intros [?|(_ & m & Hm & _ & Ha)]; [done|]. apply Huniq in Hm.
           specialize (Ha actual eq_refl). congruence.
      * split; [|done]. intros _. right. split; [done|]. exists n. by split_and!.
  - split; [done|]. intros [?|(_ & n & Hn & _)]; [done|].
    assert (try_fold check_length None (length_parts r) = Ok (Some n)) as E'.
    { apply check_lengths_Ok. right. split; [tauto|]. eauto. }
    congruence.
Qed.
