(* ===== verification/Headers.v ===== *)
(** * Header maps, names, values and status codes

    The types of the [http] crate that responses are made of. The crate is not
    part of the repository, so its operations are two classes: [HeaderMap] with
    the documented behaviour of [insert], [append], [remove] and [get_all] of
    a multimap, and [HttpTypes] with the parsers of names, values and status
    codes. Two maps with the same values under every name are equivalent
    ([≡]), and the operations respect that. *)
From S2P Require Import Prelude Strs Request.

Class HeaderMap (HM : Type) := {
  hm_empty : HM;
  get_all : HM -> str -> list str;
  hm_insert : HM -> str -> str -> HM;
  hm_append : HM -> str -> str -> HM;
  hm_remove : HM -> str -> HM;
  hm_keys : HM -> list str;
  get_all_empty n : get_all hm_empty n = [];
  get_all_insert m n v n' :
    get_all (hm_insert m n v) n' = if decide (n' = n) then [v] else get_all m n';
  get_all_append m n v n' :
    get_all (hm_append m n v) n' = if decide (n' = n) then get_all m n ++ [v] else get_all m n';
  get_all_remove m n n' :
    get_all (hm_remove m n) n' = if decide (n' = n) then [] else get_all m n';
  hm_keys_nodup m : NoDup (hm_keys m);
  elem_of_hm_keys m n : n ∈ hm_keys m <-> get_all m n <> []
}.

Arguments hm_empty : simpl never.
Arguments get_all : simpl never.
Arguments hm_insert : simpl never.
Arguments hm_append : simpl never.
Arguments hm_remove : simpl never.
Arguments hm_keys : simpl never.

(** [contains_key] and [get] (the first value). *)
Definition contains_key `{HeaderMap HM} (m : HM) (n : str) : bool := negb (bool_decide (get_all m n = [])).
Definition hm_get `{HeaderMap HM} (m : HM) (n : str) : option str := head (get_all m n).

(** [iter]: the values grouped by name; [len] counts them all. *)
Definition hm_iter `{HeaderMap HM} (m : HM) : list (str * str) :=
  concat (map (fun n => map (pair n) (get_all m n)) (hm_keys m)).

(** Visible ASCII, and the characters of a header name in lower case. *)
Definition visible_ascii (b : byte) : bool := in_range 32 126 b.
Definition name_byte (b : byte) : bool := is_token_byte b && negb (is_ascii_upper b).
Definition plain_name (n : str) : bool :=
  negb (bool_decide (n = [])) && forallb name_byte n && (Z.of_nat (length n) <? 65536)%Z.

Class HttpTypes := {
  header_name : str -> option str;
  header_value : str -> bool;
  value_to_str : str -> bool;
  status_code : Z -> bool;
  canonical_reason : Z -> option str;
  header_name_plain n : plain_name n = true -> header_name n = Some n;
  header_value_visible v : forallb visible_ascii v = true -> header_value v = true;
  header_value_to_str v : header_value v = true -> value_to_str v = true;
  status_code_range s : status_code s = true <-> (100 <= s <= 999)%Z
}.

Arguments header_name : simpl never.
Arguments header_value : simpl never.
Arguments value_to_str : simpl never.
Arguments status_code : simpl never.
Arguments canonical_reason : simpl never.

(** [StatusCode::is_informational]. *)
Definition is_informational (s : Z) : bool := (100 <=? s)%Z && (s <=? 199)%Z.

Section headers.
Context `{HeaderMap HM}.

#[export] Instance headers_equiv : Equiv HM := fun a b => forall n, get_all a n = get_all b n.

#[export] Instance headers_equivalence : Equivalence (≡@{HM}).
Proof.
  split.
  - by intros a n.
  - intros a b Hab n. by rewrite (Hab n).
  - intros a b c Hab Hbc n. by rewrite (Hab n), (Hbc n).
Qed.

#[export] Instance get_all_proper : Proper ((≡) ==> (=) ==> (=)) (get_all (HM := HM)).
Proof. intros a b Hab n ? <-. apply Hab. Qed.

#[export] Instance contains_key_proper : Proper ((≡) ==> (=) ==> (=)) (contains_key (HM := HM)).
Proof. intros a b Hab n ? <-. unfold contains_key. by rewrite Hab. Qed.

#[export] Instance hm_insert_proper : Proper ((≡) ==> (=) ==> (=) ==> (≡)) (hm_insert (HM := HM)).
Proof. intros a b Hab n ? <- v ? <- n'. rewrite !get_all_insert. case_decide; [done|apply Hab]. Qed.

#[export] Instance hm_append_proper : Proper ((≡) ==> (=) ==> (=) ==> (≡)) (hm_append (HM := HM)).
Proof. intros a b Hab n ? <- v ? <- n'. rewrite !get_all_append, !Hab. by case_decide. Qed.

#[export] Instance hm_remove_proper : Proper ((≡) ==> (=) ==> (≡)) (hm_remove (HM := HM)).
Proof. intros a b Hab n ? <- n'. rewrite !get_all_remove. case_decide; [done|apply Hab]. Qed.

Implicit Types (m : HM) (n v : str).

Lemma get_all_insert_eq m n v : get_all (hm_insert m n v) n = [v].
Proof. by rewrite get_all_insert, decide_True. Qed.
Lemma get_all_insert_ne m n v n' : n' <> n -> get_all (hm_insert m n v) n' = get_all m n'.
Proof. intros. by rewrite get_all_insert, decide_False. Qed.
Lemma get_all_remove_eq m n : get_all (hm_remove m n) n = [].
Proof. by rewrite get_all_remove, decide_True. Qed.
Lemma get_all_remove_ne m n n' : n' <> n -> get_all (hm_remove m n) n' = get_all m n'.
Proof. intros. by rewrite get_all_remove, decide_False. Qed.

Lemma contains_key_false m n : contains_key m n = false <-> get_all m n = [].
Proof. unfold contains_key. by rewrite negb_false_iff, bool_decide_eq_true. Qed.
Lemma contains_key_true m n : contains_key m n = true <-> get_all m n <> [].
Proof. unfold contains_key. by rewrite negb_true_iff, bool_decide_eq_false. Qed.

Lemma elem_of_hm_iter m n v : (n, v) ∈ hm_iter m <-> v ∈ get_all m n.
Proof.
  unfold hm_iter. rewrite list_elem_of_In, in_concat. setoid_rewrite in_map_iff. split.
  - intros (l & (k & <- & _) & Hl). apply in_map_iff in Hl as (w & [= -> ->] & Hw). by apply list_elem_of_In.
  - intros Hv. exists (map (pair n) (get_all m n)). split.
    + exists n. split; [done|]. apply list_elem_of_In, elem_of_hm_keys. by intros E; rewrite E, elem_of_nil in Hv.
    + apply in_map. by apply list_elem_of_In.
Qed.

(** The values of a name in iteration order are those of [get_all]. *)
Lemma hm_iter_named m n : map snd (List.filter (fun p => bool_decide (p.1 = n)) (hm_iter m)) = get_all m n.
Proof.
  assert (forall k, map snd (List.filter (fun p : str * str => bool_decide (p.1 = n)) (map (pair k) (get_all m k)))
            = if decide (k = n) then get_all m k else []) as Hone.
  { intros k. induction (get_all m k) as [|v l IH]; cbn; [by case_decide|].
    case_bool_decide; case_decide; cbn; congruence. }
  unfold hm_iter. assert (forall l, NoDup l ->
    map snd (List.filter (fun p : str * str => bool_decide (p.1 = n)) (concat (map (fun k => map (pair k) (get_all m k)) l)))
    = if decide (n ∈ l) then get_all m n else []) as H'.
  { induction 1 as [|k l Hk _ IH]; cbn.
    - by rewrite decide_False by apply not_elem_of_nil.
    - rewrite List.filter_app, map_app, Hone, IH. destruct (decide (k = n)) as [->|Hne].
      + by rewrite (decide_False (P := n ∈ l)), decide_True, app_nil_r by (done || left).
      + cbn. repeat case_decide; set_solver. }
  rewrite H' by apply hm_keys_nodup. case_decide as Hin; [done|]. rewrite elem_of_hm_keys in Hin.
  by destruct (get_all m n); [|destruct Hin].
Qed.

(** Writing the value a name already has, or removing an absent name, changes nothing. *)
Lemma insert_same m n v : get_all m n = [v] -> hm_insert m n v ≡ m.
Proof. intros E n'. rewrite get_all_insert. case_decide; [by subst|done]. Qed.
Lemma remove_absent m n : get_all m n = [] -> hm_remove m n ≡ m.
Proof. intros E n'. rewrite get_all_remove. case_decide; [by subst|done]. Qed.
Lemma insert_insert m n v w : hm_insert (hm_insert m n v) n w ≡ hm_insert m n w.
Proof. intros n'. rewrite !get_all_insert. by case_decide. Qed.
Lemma remove_insert m n v : get_all m n = [] -> hm_remove (hm_insert m n v) n ≡ m.
Proof. intros E n'. rewrite get_all_remove, get_all_insert. case_decide; [by subst|done]. Qed.
End headers.

(** Looks through updates of other names, compared by computation. *)
Ltac header_ne :=
  repeat first [rewrite get_all_remove_ne by (by vm_compute) | rewrite get_all_insert_ne by (by vm_compute)].

Lemma forallb_digits_visible s : forallb is_ascii_digit s = true -> forallb visible_ascii s = true.
Proof.
  rewrite !forallb_true_Forall. intros Hs. eapply Forall_impl; [exact Hs|]. intros b Hb.
  unfold is_ascii_digit, visible_ascii, in_range in *. bsplit. bgoal; lia.
Qed.

(** ** A concrete map and concrete parsers *)

Abbreviation AssocHeaders := (list (str * str)).
Definition named (n : str) (p : str * str) : bool := bool_decide (p.1 = n).
Definition assoc_get_all (m : AssocHeaders) (n : str) : list str := map snd (List.filter (named n) m).
Definition assoc_remove (m : AssocHeaders) (n : str) : AssocHeaders := List.filter (fun p => negb (named n p)) m.

Lemma assoc_get_all_app a b n : assoc_get_all (a ++ b) n = assoc_get_all a n ++ assoc_get_all b n.
Proof. unfold assoc_get_all. by rewrite List.filter_app, map_app. Qed.
Lemma assoc_get_all_one n v n' : assoc_get_all [(n, v)] n' = if decide (n' = n) then [v] else [].
Proof. unfold assoc_get_all, named. cbn. case_decide; case_bool_decide; cbn; congruence. Qed.
Lemma assoc_get_all_remove m n n' :
  assoc_get_all (assoc_remove m n) n' = if decide (n' = n) then [] else assoc_get_all m n'.
Proof.
  unfold assoc_get_all, assoc_remove, named. induction m as [|[k v] m IH]; cbn; [by case_decide|].
  destruct (bool_decide_reflect (k = n)) as [Hk|Hk]; cbn.
  - rewrite IH. case_decide; [done|]. case_bool_decide; [congruence|done].
  - destruct (bool_decide_reflect (k = n')); cbn; rewrite IH; case_decide; congruence.
Qed.
Lemma elem_of_assoc_keys m n : n ∈ remove_dups (map fst m) <-> assoc_get_all m n <> [].
Proof.
  rewrite elem_of_remove_dups. unfold assoc_get_all, named. induction m as [|[k v] m IH]; cbn.
  - by rewrite elem_of_nil.
  - rewrite elem_of_cons. case_bool_decide; cbn; naive_solver.
Qed.

#[export] Program Instance assoc_header_map : HeaderMap AssocHeaders := {|
  hm_empty := [];
  get_all := assoc_get_all;
  hm_insert m n v := assoc_remove m n ++ [(n, v)];
  hm_append m n v := m ++ [(n, v)];
  hm_remove := assoc_remove;
  hm_keys m := remove_dups (map fst m)
|}.
Next Obligation. done. Qed.
Next Obligation.
  intros m n v n'. cbn beta. rewrite assoc_get_all_app, assoc_get_all_remove, assoc_get_all_one.
  case_decide; [done|by rewrite app_nil_r].
Qed.
Next Obligation.
  intros m n v n'. cbn beta. rewrite assoc_get_all_app, assoc_get_all_one.
  case_decide; [by subst|by rewrite app_nil_r].
Qed.
Next Obligation. intros m n n'. apply assoc_get_all_remove. Qed.
Next Obligation. intros m. apply NoDup_remove_dups. Qed.
Next Obligation. intros m n. apply elem_of_assoc_keys. Qed.

Definition reference_header_name (n : str) : option str :=
  let n := to_ascii_lowercase n in if plain_name n then Some n else None.
Lemma lowercase_plain n : forallb name_byte n = true -> to_ascii_lowercase n = n.
Proof.
  unfold to_ascii_lowercase. induction n as [|b n IH]; cbn; [done|]. intros H. bsplit. f_equal; [|auto].
  unfold name_byte in *. bsplit. unfold to_ascii_lower, is_ascii_upper in *. case_match; congruence.
Qed.

#[export] Program Instance reference_http_types : HttpTypes := {|
  header_name := reference_header_name;
  header_value := forallb visible_ascii;
  value_to_str := forallb visible_ascii;
  status_code s := (100 <=? s)%Z && (s <=? 999)%Z;
  canonical_reason s := if (s =? 500)%Z then Some §"Internal Server Error" else None
|}.
Next Obligation.
  intros n Hn. unfold reference_header_name. assert (forallb name_byte n = true).
  { unfold plain_name in Hn. by bsplit. }
  by rewrite lowercase_plain, Hn.
Qed.
Next Obligation. done. Qed.
Next Obligation. done. Qed.
Next Obligation. intros s. rewrite andb_true_iff. lia. Qed.

(** The concrete structures are for evaluation, never chosen silently. *)
#[export] Remove Hints assoc_header_map reference_http_types : typeclass_instances.
