(* ===== verification/Response.v ===== *)
(** * Responses ([src/app/response.rs], [src/app/error.rs])

    The response value with its builders, what the server does to it before
    emission ([prepare_for_head], [prepare_for_not_modified],
    [strip_http2_connection_headers]) and [finalize], the validation of status,
    trailers and framing every response passes. A body stream is the sequence
    of frames it yields. The [http] crate is [HeaderMap]/[HttpTypes]; base64
    and the JSON rendering of the problem document are parameters. *)
From S2P Require Import Prelude Strs Percent Request Headers.

(** ** Errors *)

(** One constructor per constructor function of [ResponseBuildError]. *)
Inductive ResponseBuildError :=
| invalid_status
| invalid_header_name
| invalid_header_value
| invalid_trailer_name (name : str)
| invalid_content_length
| invalid_content_length_value (value : str)
| conflicting_content_length
| content_length_mismatch (declared actual : Z)
| explicit_transfer_encoding
| content_length_with_trailers
| interim_status (status : Z)
| invalid_switching_protocols
| trailer_without_fields.

(** The boxed errors the framework tells apart. *)
Inductive BoxError := BuildSource (e : ResponseBuildError) | BodyLimitExceeded (limit : Z) | OtherSource.

Record HttpError (HM : Type) := mkHttpError {
  err_status : Z;
  code : str;
  public_message : str;
  err_source : option BoxError;
  err_headers : HM;
  err_missing : bool
}.
Arguments mkHttpError {HM} _ _ _ _ _ _.
Arguments err_status {HM} _.
Arguments code {HM} _.
Arguments public_message {HM} _.
Arguments err_source {HM} _.
Arguments err_headers {HM} _.
Arguments err_missing {HM} _.

Section errors.
Context `{HeaderMap HM}.

Definition HttpError_new (status : Z) (code message : str) : HttpError HM :=
  mkHttpError status code message None hm_empty false.
Definition bad_request_error (message : str) := HttpError_new 400 §"bad_request" message.
Definition not_found_error (message : str) := HttpError_new 404 §"not_found" message.
Definition payload_too_large (message : str) := HttpError_new 413 §"payload_too_large" message.
Definition payload_too_large_limit (limit : Z) :=
  payload_too_large (§"El cuerpo de la solicitud supera el limite de " ++ to_dec limit ++ §" bytes").
Definition invalid_content_length_error :=
  HttpError_new 400 §"invalid_content_length" §"El encabezado Content-Length no es valido".
Definition duplicate_header (name : str) :=
  HttpError_new 400 §"duplicate_header" (§"El encabezado " ++ name ++ §" debe aparecer como maximo una vez").
Definition request_timeout_error (message : str) := HttpError_new 408 §"request_timeout" message.
Definition too_many_requests (message : str) := HttpError_new 429 §"too_many_requests" message.
Definition internal_server_error (message : str) := HttpError_new 500 §"internal_server_error" message.
Definition body_already_consumed :=
  HttpError_new 400 §"body_already_consumed" §"El cuerpo de la solicitud ya fue consumido".

Definition error_header (e : HttpError HM) (name value : str) : HttpError HM :=
  mkHttpError (err_status e) (code e) (public_message e) (err_source e)
    (hm_insert (err_headers e) name value) (err_missing e).
Definition with_source (e : HttpError HM) (source : BoxError) : HttpError HM :=
  mkHttpError (err_status e) (code e) (public_message e) (Some source) (err_headers e) (err_missing e).
Definition missing (e : HttpError HM) : HttpError HM :=
  mkHttpError (err_status e) (code e) (public_message e) (err_source e) (err_headers e) true.

(** The downcast of the source decides between 413 and 400. *)
Definition body_read (source : BoxError) : HttpError HM :=
  match source with
  | BodyLimitExceeded limit => with_source (payload_too_large_limit limit) source
  | _ => with_source (HttpError_new 400 §"body_read" §"No se pudo leer el cuerpo de la solicitud") source
  end.
End errors.

(** ** Responses *)

Inductive Frame (HM : Type) := Data (bytes : str) | Trailers (fields : HM).
Arguments Data {HM} _.
Arguments Trailers {HM} _.
Inductive BodyKind (HM : Type) :=
| Bytes (bytes : str)
| Stream (frames : list (result (Frame HM) BoxError))
| Empty.
Arguments Bytes {HM} _.
Arguments Stream {HM} _.
Arguments Empty {HM}.

Record Response (HM : Type) := mkResponse {
  status : Z;
  content_type : str;
  res_headers : HM;
  body_kind : BodyKind HM;
  trailers : option HM;
  error : option (HttpError HM);
  build_error : option ResponseBuildError;
  websocket_upgrade_authorized : bool
}.
Arguments mkResponse {HM} _ _ _ _ _ _ _ _.
Arguments status {HM} _.
Arguments content_type {HM} _.
Arguments res_headers {HM} _.
Arguments body_kind {HM} _.
Arguments trailers {HM} _.
Arguments error {HM} _.
Arguments build_error {HM} _.
Arguments websocket_upgrade_authorized {HM} _.

Definition CONTENT_LENGTH : str := §"content-length".
Definition CONTENT_TYPE : str := §"content-type".
Definition TRANSFER_ENCODING : str := §"transfer-encoding".
Definition TRAILER : str := §"trailer".
Definition CONNECTION : str := §"connection".
Definition UPGRADE : str := §"upgrade".
Definition SEC_WEBSOCKET_ACCEPT : str := §"sec-websocket-accept".
Arguments CONTENT_LENGTH : simpl never.
Arguments CONTENT_TYPE : simpl never.
Arguments TRANSFER_ENCODING : simpl never.
Arguments TRAILER : simpl never.
Arguments CONNECTION : simpl never.
Arguments UPGRADE : simpl never.
Arguments SEC_WEBSOCKET_ACCEPT : simpl never.

Section response.
Context `{HeaderMap HM}.
Implicit Types (r : Response HM) (h : HM).

(** Field updates. *)
Definition set_status r (s : Z) : Response HM :=
  mkResponse s (content_type r) (res_headers r) (body_kind r) (trailers r) (error r) (build_error r)
    (websocket_upgrade_authorized r).
Definition set_headers r h : Response HM :=
  mkResponse (status r) (content_type r) h (body_kind r) (trailers r) (error r) (build_error r)
    (websocket_upgrade_authorized r).
Definition set_body r (b : BodyKind HM) : Response HM :=
  mkResponse (status r) (content_type r) (res_headers r) b (trailers r) (error r) (build_error r)
    (websocket_upgrade_authorized r).
Definition set_trailers r (t : option HM) : Response HM :=
  mkResponse (status r) (content_type r) (res_headers r) (body_kind r) t (error r) (build_error r)
    (websocket_upgrade_authorized r).
Definition set_error r (e : option (HttpError HM)) : Response HM :=
  mkResponse (status r) (content_type r) (res_headers r) (body_kind r) (trailers r) e (build_error r)
    (websocket_upgrade_authorized r).
Definition record_build_error r (e : ResponseBuildError) : Response HM :=
  match build_error r with
  | None => mkResponse (status r) (content_type r) (res_headers r) (body_kind r) (trailers r) (error r) (Some e)
              (websocket_upgrade_authorized r)
  | Some _ => r
  end.
Definition with_content_type r (t : str) : Response HM :=
  mkResponse (status r) t (res_headers r) (body_kind r) (trailers r) (error r) (build_error r)
    (websocket_upgrade_authorized r).

Definition response_bytes (b content_type : str) : Response HM :=
  mkResponse 200 content_type hm_empty (Bytes b) None None None false.
Definition response_send (text : str) : Response HM := response_bytes text §"text/plain; charset=utf-8".
Definition response_stream (chunks : list (result str BoxError)) : Response HM :=
  mkResponse 200 §"application/octet-stream" hm_empty
    (Stream (map (fun c => match c with Ok b => Ok (Data b) | Err e => Err e end) chunks)) None None None false.

Definition body_bytes r : option str := match body_kind r with Bytes b => Some b | _ => None end.
Definition body_text r : str := match body_kind r with Bytes b => from_utf8_lossy b | _ => [] end.
Definition replace_body_bytes r (b : str) : Response HM * bool :=
  match body_kind r with Bytes _ => (set_body r (Bytes b), true) | _ => (r, false) end.
Definition take_error r : Response HM * option (HttpError HM) := (set_error r None, error r).
Definition clear_body r : Response HM := set_body r Empty.
Definition clear_body_and_trailers r : Response HM :=
  let r := set_trailers (clear_body r) None in set_headers r (hm_remove (res_headers r) TRAILER).

Section http.
Context `{HttpTypes}.
(** base64 STANDARD decoding and the JSON text of a problem document from its
    type, title, status, detail and code. *)
Context (base64_decode : str -> option str) (problem_json : str -> str -> Z -> str -> str -> str).

Definition with_status r (s : Z) : Response HM :=
  if status_code s then set_status r s else record_build_error r invalid_status.
Definition try_status r (s : Z) : result (Response HM) ResponseBuildError :=
  if status_code s then Ok (set_status r s) else Err invalid_status.

Definition try_set_header r (name value : str) : result (Response HM) ResponseBuildError :=
  match header_name name with
  | None => Err invalid_header_name
  | Some name =>
      if header_value value then Ok (set_headers r (hm_insert (res_headers r) name value))
      else Err invalid_header_value
  end.
Definition try_add_header r (name value : str) : result (Response HM) ResponseBuildError :=
  match header_name name with
  | None => Err invalid_header_name
  | Some name =>
      if header_value value then Ok (set_headers r (hm_append (res_headers r) name value))
      else Err invalid_header_value
  end.
Definition with_header r (name value : str) : Response HM :=
  match try_set_header r name value with Ok done => done | Err e => record_build_error r e end.
Definition response_append_header r (name value : str) : Response HM :=
  match try_add_header r name value with Ok done => done | Err e => record_build_error r e end.

Definition from_error (e : HttpError HM) : Response HM :=
  let body := problem_json (§"about:blank#" ++ code e) (default §"HTTP Error" (canonical_reason (err_status e)))
                (err_status e) (public_message e) (code e) in
  let r := with_status (response_bytes body §"application/problem+json") (err_status e) in
  set_error (set_headers r (err_headers e)) (Some e).
Definition not_found : Response HM := from_error (not_found_error §"Not Found").
Definition bad_request : Response HM := from_error (bad_request_error §"Bad Request").

(** ** Redirections *)

(** The bytes kept as they are; the rest is looked at with what follows it. *)
Definition location_byte (b : byte) : bool :=
  is_ascii_alphanumeric b || existsb (fun c => bool_decide (c = b)) §"-._~:/?#[]@!$&'()*+,;=".
Fixpoint encode_location (s : str) : str :=
  match s with
  | [] => []
  | b :: s1 =>
      let is_escape := bool_decide (b = percent)
                       && match s1 with
                          | x :: y :: _ => is_ascii_hexdigit x && is_ascii_hexdigit y
                          | _ => false
                          end in
      if location_byte b || is_escape then b :: encode_location s1
      else [percent; hex_digit (bval b / 16); hex_digit (bval b mod 16)] ++ encode_location s1
  end.

Definition redirect_with_status (location : str) (s : Z) : Response HM :=
  let r := with_header (with_status (response_send []) s) §"location" (encode_location location) in
  if (300 <=? s)%Z && (s <=? 399)%Z then r else record_build_error r invalid_status.
Definition redirect (location : str) : Response HM := redirect_with_status location 302.

(** ** Trailers *)

Definition forbidden_prefixes : list str :=
  [§"access-control-"; §"cross-origin-"; §"proxy-"; §"sec-websocket-"].
Definition forbidden_trailers : list str :=
  [§"accept-ranges"; §"age"; §"allow"; §"alt-svc"; §"authorization"; §"cache-control"; §"connection";
   §"content-disposition"; §"content-encoding"; §"content-language"; §"content-length"; §"content-location";
   §"content-range"; §"content-security-policy"; §"content-type"; §"cookie"; §"date"; §"expect"; §"expires";
   §"host"; §"if-match"; §"if-modified-since"; §"if-none-match"; §"if-range"; §"if-unmodified-since";
   §"keep-alive"; §"last-modified"; §"link"; §"location"; §"max-forwards"; §"permissions-policy"; §"pragma";
   §"range"; §"referrer-policy"; §"refresh"; §"retry-after"; §"server"; §"set-cookie";
   §"strict-transport-security"; §"te"; §"trailer"; §"transfer-encoding"; §"upgrade"; §"vary"; §"warning";
   §"www-authenticate"; §"x-content-type-options"; §"x-frame-options"].
Definition is_forbidden_trailer (name : str) : bool :=
  existsb (fun p => starts_with p name) forbidden_prefixes
  || existsb (fun n => bool_decide (n = name)) forbidden_trailers.

Definition validate_trailers (t : HM) : result unit ResponseBuildError :=
  match List.find is_forbidden_trailer (hm_keys t) with
  | Some name => Err (invalid_trailer_name name)
  | None => Ok tt
  end.

(** The field names a Connection header nominates. *)
Definition connection_nominated_headers h : list str :=
  omap (fun name => header_name (trim name))
    (concat (map (split_on comma) (List.filter value_to_str (get_all h CONNECTION)))).

Definition validate_response_trailers h (t : HM) : result unit ResponseBuildError :=
  let? _ := validate_trailers t in
  match List.find (contains_key t) (connection_nominated_headers h) with
  | Some name => Err (invalid_trailer_name name)
  | None => Ok tt
  end.

Definition with_trailers r (t : HM) : Response HM :=
  match validate_trailers t with Ok _ => set_trailers r (Some t) | Err e => record_build_error r e end.

Definition strip_http2_connection_headers r : Response HM :=
  let nominated := connection_nominated_headers (res_headers r) in
  let r := match trailers r with
           | Some t => match List.find (contains_key t) nominated with
                       | Some name => record_build_error r (invalid_trailer_name name)
                       | None => r
                       end
           | None => r
           end in
  set_headers r
    (foldl hm_remove (res_headers r)
       ([CONNECTION; UPGRADE; §"te"; §"keep-alive"; §"proxy-connection"] ++ nominated)).

(** ** Framing *)

Definition status_has_no_content (s : Z) : bool :=
  is_informational s || (s =? 204)%Z || (s =? 205)%Z || (s =? 304)%Z.

Definition check_candidate (parsed : option Z) (raw : str) : result (option Z) ResponseBuildError :=
  let candidate := trim raw in
  if bool_decide (candidate = []) || negb (forallb is_ascii_digit candidate) then
    Err (invalid_content_length_value candidate)
  else match parse_u64 candidate with
       | None => Err invalid_content_length
       | Some length =>
           match parsed with
           | Some current => if (current =? length)%Z then Ok (Some length) else Err conflicting_content_length
           | None => Ok (Some length)
           end
       end.
Definition check_value (parsed : option Z) (value : str) : result (option Z) ResponseBuildError :=
  if value_to_str value then try_fold check_candidate parsed (split_on comma value)
  else Err invalid_content_length.

(** The parsed length, and the headers with the field normalised. *)
Definition parse_content_length h : result (HM * option Z) ResponseBuildError :=
  let? parsed := try_fold check_value None (get_all h CONTENT_LENGTH) in
  match parsed with
  | Some length => Ok (hm_insert h CONTENT_LENGTH (to_dec length), parsed)
  | None => Ok (h, None)
  end.

Definition body_len (b : str) : Z := Z.of_nat (length b).
Arguments body_len : simpl never.
Definition length_matches (declared : option Z) (b : BodyKind HM) : result unit ResponseBuildError :=
  match declared, b with
  | Some expected, Bytes bytes =>
      if (expected =? body_len bytes)%Z then Ok tt else Err (content_length_mismatch expected (body_len bytes))
  | _, _ => Ok tt
  end.

Definition finalize_framing r : result (Response HM) ResponseBuildError :=
  let? parsed := parse_content_length (res_headers r) in
  let '(hs, declared) := parsed in
  let r := set_headers r hs in
  if contains_key hs TRANSFER_ENCODING then Err explicit_transfer_encoding
  else if bool_decide (is_Some declared) && bool_decide (is_Some (trailers r)) then Err content_length_with_trailers
  else
    let? _ := if (status r =? 304)%Z then length_matches declared (body_kind r) else Ok tt in
    if status_has_no_content (status r) then
      let r := set_trailers (clear_body r) None in
      let h := hm_remove (hm_remove (res_headers r) TRAILER) TRANSFER_ENCODING in
      Ok (set_headers r (if (status r =? 304)%Z then h else hm_remove h CONTENT_LENGTH))
    else let? _ := length_matches declared (body_kind r) in Ok r.

Definition response_header_contains_token h (name expected : str) : bool :=
  existsb (fun value => value_to_str value
             && existsb (fun token => eq_ignore_ascii_case (trim token) expected) (split_on comma value))
    (get_all h name).
Definition valid_websocket_switching_protocols h : bool :=
  response_header_contains_token h CONNECTION §"upgrade"
  && response_header_contains_token h UPGRADE §"websocket"
  && (length (get_all h SEC_WEBSOCKET_ACCEPT) =? 1)%nat
  && match hm_get h SEC_WEBSOCKET_ACCEPT with
     | Some value =>
         value_to_str value
         && match base64_decode (trim value) with Some accept => (length accept =? 20)%nat | None => false end
     | None => false
     end.

(** ** Finalisation *)

Definition finalize_trailers r : result (Response HM) ResponseBuildError :=
  match trailers r with
  | Some t =>
      let? _ := validate_response_trailers (res_headers r) t in
      Ok (set_headers r (hm_insert (res_headers r) TRAILER (join §", " (hm_keys t))))
  | None => if contains_key (res_headers r) TRAILER then Err trailer_without_fields else Ok r
  end.

Definition finalize_content_type r : result (Response HM) ResponseBuildError :=
  if negb (status_has_no_content (status r)) && negb (contains_key (res_headers r) CONTENT_TYPE) then
    if header_value (content_type r) then Ok (set_headers r (hm_insert (res_headers r) CONTENT_TYPE (content_type r)))
    else Err invalid_header_value
  else Ok r.

Definition finalize_content_length r : Response HM :=
  if negb (status_has_no_content (status r)) && negb (contains_key (res_headers r) CONTENT_LENGTH)
     && negb (bool_decide (is_Some (trailers r))) then
    match body_kind r with
    | Bytes b => set_headers r (hm_insert (res_headers r) CONTENT_LENGTH (to_dec (body_len b)))
    | _ => r
    end
  else r.

(** One pass of [finalize]; an error is what it hands to [invalid_response_value]. *)
Definition finalize_pass r : result (Response HM) ResponseBuildError :=
  match build_error r with
  | Some e => Err e
  | None =>
      let s := status r in
      if negb (status_code s) then Err invalid_status
      else if is_informational s && negb (s =? 101)%Z then Err (interim_status s)
      else if (s =? 101)%Z && negb (valid_websocket_switching_protocols (res_headers r)) then
        Err invalid_switching_protocols
      else
        let? announced := finalize_trailers r in
        let? framed := finalize_framing announced in
        let? typed := finalize_content_type framed in
        Ok (finalize_content_length typed)
  end.

Definition invalid_response_value (e : ResponseBuildError) : Response HM :=
  from_error (with_source (internal_server_error §"No se pudo construir la respuesta") (BuildSource e)).

(** [finalize] and [invalid_response_value] call each other. *)
Fixpoint finalize_loop (fuel : nat) r : option (Response HM) :=
  match fuel with
  | O => None
  | S fuel =>
      match finalize_pass r with
      | Ok final => Some final
      | Err e => finalize_loop fuel (invalid_response_value e)
      end
  end.
Definition finalize r : option (Response HM) := finalize_loop 2 r.

(** ** Bodyless responses *)

Definition preserve_buffered_representation_length r : Response HM :=
  match body_kind r with
  | Bytes b =>
      match parse_content_length (res_headers r) with
      | Ok (hs, Some declared) =>
          let r := set_headers r hs in
          if (declared =? body_len b)%Z then r
          else record_build_error r (content_length_mismatch declared (body_len b))
      | Ok (hs, None) => set_headers r (hm_insert hs CONTENT_LENGTH (to_dec (body_len b)))
      | Err e => record_build_error r e
      end
  | _ => r
  end.

Definition prepare_for_head r : Response HM :=
  let r := set_trailers r None in
  let r := set_headers r (hm_remove (res_headers r) TRAILER) in
  if negb (status_code (status r)) then clear_body r
  else if status_has_no_content (status r) then clear_body r
  else clear_body (preserve_buffered_representation_length r).

Definition record_result (r : Response HM) (e : result unit ResponseBuildError) : Response HM :=
  match e with Ok _ => r | Err e => record_build_error r e end.

Definition validate_selected_representation_before_discard r : Response HM :=
  let r := match trailers r with
           | Some t => record_result r (validate_response_trailers (res_headers r) t)
           | None => if contains_key (res_headers r) TRAILER then record_build_error r trailer_without_fields else r
           end in
  let r := if contains_key (res_headers r) TRANSFER_ENCODING
           then record_build_error r explicit_transfer_encoding else r in
  let '(r, declared) := match parse_content_length (res_headers r) with
                        | Ok (hs, declared) => (set_headers r hs, declared)
                        | Err e => (record_build_error r e, None)
                        end in
  let r := if bool_decide (is_Some declared) && bool_decide (is_Some (trailers r))
           then record_build_error r content_length_with_trailers else r in
  let r := match body_kind r with
           | Bytes b =>
               match declared with
               | Some n => if (n =? body_len b)%Z then r
                           else record_build_error r (content_length_mismatch n (body_len b))
               | None => set_headers r (hm_insert (res_headers r) CONTENT_LENGTH (to_dec (body_len b)))
               end
           | _ => r
           end in
  if negb (contains_key (res_headers r) CONTENT_TYPE) && negb (header_value (content_type r))
  then record_build_error r invalid_header_value else r.

Definition prepare_for_not_modified r : Response HM :=
  clear_body_and_trailers (validate_selected_representation_before_discard r).

(** ** Emission *)

(** What hyper is given: status, headers and the frames of the body. A full
    body of no bytes yields no frame. *)
Record HyperResponse := mkHyper { hyper_status : Z; hyper_headers : HM; hyper_body : list (result (Frame HM) BoxError) }.
Definition body_with_trailers (frames : list (result (Frame HM) BoxError)) (t : option HM) :=
  match t with Some t => frames ++ [Ok (Trailers t)] | None => frames end.
Definition into_hyper r : option HyperResponse :=
  match finalize r with
  | None => None
  | Some r =>
      let body := match body_kind r, trailers r with
                  | Bytes b, None => if bool_decide (b = []) then [] else [Ok (Data b)]
                  | Bytes b, t => body_with_trailers [Ok (Data b)] t
                  | Stream frames, t => body_with_trailers frames t
                  | Empty, t => body_with_trailers [] t
                  end in
      let h := if negb (status_has_no_content (status r)) && negb (contains_key (res_headers r) CONTENT_TYPE)
               then hm_append (res_headers r) CONTENT_TYPE (content_type r) else res_headers r in
      Some (mkHyper (status r) h body)
  end.
End http.
End response.

(** ** Headers with a valid name and value *)

Lemma with_header_plain `{HeaderMap HM, HttpTypes} (r : Response HM) n v :
  plain_name n = true -> header_value v = true -> with_header r n v = set_headers r (hm_insert (res_headers r) n v).
Proof. intros Hn Hv. unfold with_header, try_set_header. by rewrite header_name_plain, Hv. Qed.
Lemma dec_header_value `{HttpTypes} n : (0 <= n)%Z -> header_value (to_dec n) = true.
Proof. intros Hn. apply header_value_visible, forallb_digits_visible, forallb_true_Forall, to_dec_spec, Hn. Qed.

(** ** The declared length *)

Section framing.
Context `{HeaderMap HM, HttpTypes}.

(** A parsed length fits a [u64]. *)
Definition fits (n : option Z) : Prop := match n with Some n => (0 <= n <= u64_max)%Z | None => True end.

Lemma check_candidate_Ok p raw q :
  check_candidate p raw = Ok q -> exists n, q = Some n /\ (0 <= n <= u64_max)%Z.
Proof.
  unfold check_candidate. destruct (_ || _) eqn:E; [done|]. bsplit.
  rewrite parse_u64_digits; [|done|by apply forallb_true_Forall].
  pose proof (digits_foldl_ge 0 (trim raw)) as Hge.
  destruct (Z.leb_spec (digits_value (trim raw)) u64_max) as [Hle|]; [|done].
  assert (0 <= digits_value (trim raw))%Z by (unfold digits_value; apply Hge; [lia|done]).
  destruct p as [c|]; [destruct (Z.eqb_spec c (digits_value (trim raw)))|]; naive_solver.
Qed.

Lemma check_candidates_Ok l : forall p q, try_fold check_candidate p l = Ok q -> fits p ->
  fits q /\ (q = None -> p = None /\ l = []).
Proof.
  induction l as [|x l IH]; intros p q; cbn; [by intros [= ->]; naive_solver|].
  destruct (check_candidate p x) as [p'|e] eqn:E; [|done]. intros Hq _.
  apply check_candidate_Ok in E as (n & -> & Hn). destruct (IH _ _ Hq Hn) as [? Hne]. naive_solver.
Qed.

Lemma check_values_Ok l : forall p q, try_fold check_value p l = Ok q -> fits p ->
  fits q /\ (q = None -> p = None /\ l = []).
Proof.
  induction l as [|x l IH]; intros p q; cbn; [by intros [= ->]; naive_solver|].
  unfold check_value at 1. destruct (value_to_str x); [|done].
  destruct (try_fold check_candidate p _) as [p'|e] eqn:E; [|done]. intros Hq Hp.
  apply check_candidates_Ok in E as [Hf Hn]; [|done]. destruct (IH _ _ Hq Hf) as [? Hne].
  split; [done|]. intros Hq'. destruct (Hne Hq') as [-> _]. destruct (Hn eq_refl) as [_ Hs].
  by apply split_on_ne in Hs.
Qed.

(** An absent field has no length; otherwise the field is left with the one
    decimal rendering of its length. *)
Lemma parse_content_length_cases (m m' : HM) declared :
  parse_content_length m = Ok (m', declared) ->
  (declared = None /\ m' = m /\ get_all m CONTENT_LENGTH = [])
  \/ exists n, declared = Some n /\ (0 <= n <= u64_max)%Z /\ m' = hm_insert m CONTENT_LENGTH (to_dec n).
Proof.
  unfold parse_content_length. destruct (try_fold _ _ _) as [[n|]|e] eqn:E; [..|done]; intros [= <- <-];
    apply check_values_Ok in E as [Hf Hn]; try done; [right; eauto|left; naive_solver].
Qed.

Lemma split_on_digits s : Forall (fun c => is_ascii_digit c = true) s -> split_on comma s = [s].
Proof.
  intros Hs. apply split_on_plain. intros Hin. rewrite Forall_forall in Hs. by apply Hs in Hin.
Qed.

(** Reading back a decimal field. *)
Lemma parse_content_length_dec (m : HM) n : (0 <= n <= u64_max)%Z ->
  get_all m CONTENT_LENGTH = [to_dec n] ->
  parse_content_length m = Ok (hm_insert m CONTENT_LENGTH (to_dec n), Some n).
Proof.
  intros Hn E. unfold parse_content_length. rewrite E. cbn [try_fold]. unfold check_value.
  destruct (to_dec_spec n) as (Hne & Hd & _); [lia|].
  assert (Hb : forallb is_ascii_digit (to_dec n) = true) by by apply forallb_true_Forall.
  rewrite header_value_to_str by by apply header_value_visible, forallb_digits_visible.
  rewrite split_on_digits by done. cbn [try_fold]. unfold check_candidate.
  rewrite trim_id by by apply solid_trimmed, digit_solid.
  rewrite bool_decide_eq_false_2, Hb by done. cbn [orb negb]. by rewrite parse_u64_to_dec.
Qed.

Lemma parse_content_length_absent (m : HM) :
  get_all m CONTENT_LENGTH = [] -> parse_content_length m = Ok (m, None).
Proof. intros E. unfold parse_content_length. by rewrite E. Qed.

#[local] Lemma parse_content_length_proper (m1 m2 m1' : HM) d :
  m1 ≡ m2 -> parse_content_length m1 = Ok (m1', d) ->
  exists m2', parse_content_length m2 = Ok (m2', d) /\ m1' ≡ m2'.
Proof.
  intros Hm. unfold parse_content_length. rewrite <- (Hm CONTENT_LENGTH).
  destruct (try_fold _ _ _) as [[n|]|e]; [..|done]; intros [= <- <-]; eexists; (split; [done|]); [by rewrite Hm|done].
Qed.

(** ** Well-framed responses *)

(** The trailers are announced exactly, and none of them is a field that may
    not be sent as a trailer or that the Connection header nominates. *)
Definition trailers_ok (t : option HM) (m : HM) : Prop :=
  match t with
  | None => get_all m TRAILER = []
  | Some t =>
      get_all m TRAILER = [join §", " (hm_keys t)]
      /\ forall n, n ∈ hm_keys t -> is_forbidden_trailer n = false /\ n ∉ connection_nominated_headers m
  end.

(** The length field is absent or one decimal number; it never comes with
    trailers, and matches a buffered body. *)
Definition length_ok (r : Response HM) : Prop :=
  get_all (res_headers r) CONTENT_LENGTH = []
  \/ exists n, (0 <= n /\ (n <= u64_max \/ is_Some (body_bytes r)))%Z
       /\ get_all (res_headers r) CONTENT_LENGTH = [to_dec n] /\ trailers r = None
       /\ forall b, body_kind r = Bytes b -> n = body_len b.

Definition same_except (ns : list str) (m m' : HM) : Prop := forall n, n ∉ ns -> get_all m' n = get_all m n.

Lemma same_except_trans ns m1 m2 m3 : same_except ns m1 m2 -> same_except ns m2 m3 -> same_except ns m1 m3.
Proof. intros H12 H23 n Hn. by rewrite H23, H12. Qed.
Lemma same_except_insert ns m n v : n ∈ ns -> same_except ns m (hm_insert m n v).
Proof. intros Hn n' Hn'. rewrite get_all_insert_ne; set_solver. Qed.
Lemma same_except_remove ns m n : n ∈ ns -> same_except ns m (hm_remove m n).
Proof. intros Hn n' Hn'. rewrite get_all_remove_ne; set_solver. Qed.
Lemma same_except_weaken ns ns' m m' : ns ⊆ ns' -> same_except ns m m' -> same_except ns' m m'.
Proof. intros Hs Hm n Hn. apply Hm. set_solver. Qed.

Lemma nominated_ext (m m' : HM) :
  get_all m CONNECTION = get_all m' CONNECTION ->
  connection_nominated_headers m = connection_nominated_headers m'.
Proof. unfold connection_nominated_headers. by intros ->. Qed.

Definition FRAMING : list str := [CONTENT_LENGTH; CONTENT_TYPE; TRANSFER_ENCODING; TRAILER].

Lemma nominated_framing (m m' : HM) : same_except FRAMING m m' ->
  connection_nominated_headers m' = connection_nominated_headers m.
Proof. intros Hm. apply nominated_ext, Hm. vm_compute. set_solver. Qed.

Lemma find_keys_None (f : str -> bool) l : List.find f l = None -> forall n, n ∈ l -> f n = false.
Proof. rewrite find_None, Forall_forall. done. Qed.

Lemma finalize_trailers_Ok (r r' : Response HM) :
  finalize_trailers r = Ok r' ->
  exists m, r' = set_headers r m /\ same_except [TRAILER] (res_headers r) m /\ trailers_ok (trailers r) m.
Proof.
  unfold finalize_trailers, validate_response_trailers, validate_trailers. destruct r as [s ct m b t e be w].
  cbn [trailers res_headers]. destruct t as [t|].
  - destruct (List.find is_forbidden_trailer _) eqn:Ef; [done|].
    destruct (List.find (contains_key t) _) eqn:En; [done|]. intros [= <-].
    eexists; split_and!; [done|apply same_except_insert; set_solver|].
    cbn [trailers_ok]. split; [apply get_all_insert_eq|]. intros n Hn. split; [by eapply find_keys_None|].
    rewrite (nominated_ext _ m) by (apply get_all_insert_ne; by vm_compute).
    intros Hc. apply (find_keys_None _ _ En) in Hc. apply elem_of_hm_keys in Hn.
    by apply contains_key_false in Hc.
  - destruct (contains_key m TRAILER) eqn:Ec; [done|]. intros [= <-]. exists m.
    split_and!; [done|done|]. by apply contains_key_false.
Qed.

Lemma length_matches_Ok declared (b : BodyKind HM) :
  length_matches declared b = Ok tt <-> forall n bytes, declared = Some n -> b = Bytes bytes -> n = body_len bytes.
Proof.
  unfold length_matches. destruct declared as [n|], b as [bytes|frames|]; try (split; [naive_solver|done]).
  destruct (Z.eqb_spec n (body_len bytes)); split; naive_solver.
Qed.

(** What framing leaves of the length field. *)
Lemma parsed_length_ok (r : Response HM) m declared :
  parse_content_length (res_headers r) = Ok (m, declared) ->
  (is_Some declared -> trailers r = None) ->
  length_matches declared (body_kind r) = Ok tt ->
  same_except [CONTENT_LENGTH] (res_headers r) m /\ length_ok (set_headers r m).
Proof.
  rewrite length_matches_Ok. intros [(-> & -> & E)|(n & -> & Hn & ->)]%parse_content_length_cases Ht Hb.
  - split; [done|]. by left.
  - split; [apply same_except_insert; set_solver|]. right. exists n. cbn.
    rewrite get_all_insert_eq. split_and!; [lia|left; lia|done|by apply Ht|naive_solver].
Qed.

Lemma finalize_framing_Ok (r r' : Response HM) :
  finalize_framing r = Ok r' -> trailers_ok (trailers r) (res_headers r) ->
  exists m b t, r' = set_trailers (set_body (set_headers r m) b) t
    /\ same_except [CONTENT_LENGTH; TRANSFER_ENCODING; TRAILER] (res_headers r) m
    /\ get_all m TRANSFER_ENCODING = [] /\ length_ok r' /\ trailers_ok t m
    /\ if status_has_no_content (status r)
       then b = Empty /\ t = None /\ (status r <> 304%Z -> get_all m CONTENT_LENGTH = [])
       else b = body_kind r /\ t = trailers r.
Proof.
  unfold finalize_framing. destruct (parse_content_length (res_headers r)) as [[m declared]|e] eqn:Ep; [|done].
  destruct (contains_key m TRANSFER_ENCODING) eqn:Ete; [done|]. apply contains_key_false in Ete.
  destruct (bool_decide (is_Some declared) && _) eqn:Et; [done|].
  assert (Ht : is_Some declared -> trailers r = None).
  { intros Hd. rewrite bool_decide_eq_true_2 in Et by done. cbn [andb] in Et. bsplit.
    by apply eq_None_not_Some in Et. }
  destruct r as [s ct hs b t e be w]. cbn [status set_headers body_kind trailers res_headers] in *.
  destruct (Z.eqb_spec s 304) as [->|Hs].
  - destruct (length_matches declared b) as [[]|e'] eqn:El; [|done]. change (status_has_no_content 304) with true.
    cbn iota. intros [= <-] _.
    destruct (parsed_length_ok (mkResponse 304 ct hs b t e be w) _ _ Ep Ht El) as [Hsame Hok].
    exists (hm_remove (hm_remove m TRAILER) TRANSFER_ENCODING), Empty, None. split_and!; [done|..].
    + eapply same_except_trans; [eapply same_except_weaken; [|exact Hsame]; set_solver|].
      eapply same_except_trans; apply same_except_remove; set_solver.
    + apply get_all_remove_eq.
    + unfold length_ok. cbn. header_ne.
      apply parse_content_length_cases in Ep as [(_ & -> & E)|(n & -> & Hn & ->)]; [by left|right].
      exists n. rewrite get_all_insert_eq. split_and!; [lia|left; lia|done..].
    + cbn [trailers_ok]. header_ne. apply get_all_remove_eq.
    + done.
    + done.
    + done.
  - destruct (status_has_no_content s) eqn:Enc.
    + intros [= <-] _. exists (hm_remove (hm_remove (hm_remove m TRAILER) TRANSFER_ENCODING) CONTENT_LENGTH), Empty, None.
      rewrite (proj2 (Z.eqb_neq s 304)) by done. cbn [trailers_ok]. split_and!; [done|..].
      * eapply same_except_trans; [|apply same_except_remove; set_solver].
        eapply same_except_trans; [|apply same_except_remove; set_solver].
        eapply same_except_trans; [|apply same_except_remove; set_solver].
        apply parse_content_length_cases in Ep as [(_ & -> & _)|(n & _ & _ & ->)]; [done|].
        apply same_except_insert; set_solver.
      * header_ne. apply get_all_remove_eq.
      * left. cbn. apply get_all_remove_eq.
      * header_ne. apply get_all_remove_eq.
      * done.
      * done.
      * intros _. apply get_all_remove_eq.
    + destruct (length_matches declared b) as [[]|e'] eqn:El; [|done]. intros [= <-] Htr.
      destruct (parsed_length_ok (mkResponse s ct hs b t e be w) _ _ Ep Ht El) as [Hsame Hok].
      exists m, b, t. split_and!; [done| |done|done| |done|done].
      * eapply same_except_weaken; [|exact Hsame]. set_solver.
      * cbn in Hsame. unfold trailers_ok in *. destruct t as [t|].
        -- rewrite Hsame by (vm_compute; set_solver). destruct Htr as [? Htr]. split; [done|].
           by rewrite (nominated_ext _ hs) by (apply Hsame; vm_compute; set_solver).
        -- by rewrite Hsame by (vm_compute; set_solver).
Qed.

Lemma no_content_304 s : status_has_no_content s = false -> s <> 304%Z /\ s <> 101%Z.
Proof. by split; intros ->. Qed.

(** The content type and the length of a buffered body are filled in. *)
Lemma finalize_fill_Ok (r r' : Response HM) :
  finalize_content_type r = Ok r' ->
  get_all (res_headers r) TRANSFER_ENCODING = [] -> length_ok r -> trailers_ok (trailers r) (res_headers r) ->
  exists m, finalize_content_length r' = set_headers r m
    /\ same_except [CONTENT_LENGTH; CONTENT_TYPE] (res_headers r) m
    /\ length_ok (set_headers r m)
    /\ if status_has_no_content (status r) then m = res_headers r
       else get_all m CONTENT_TYPE <> []
            /\ forall b, body_kind r = Bytes b -> trailers r = None -> get_all m CONTENT_LENGTH = [to_dec (body_len b)].
Proof.
  intros Hty Hte Hlen Htr. destruct r as [s ct m b t e be w]. unfold finalize_content_type, finalize_content_length, length_ok in *.
  cbn [status res_headers body_kind trailers content_type set_headers] in *.
  destruct (status_has_no_content s) eqn:Enc; cbn [negb andb] in *.
  { injection Hty as <-. cbn [status]. rewrite Enc. cbn [negb andb]. by exists m. }
  assert (Hm : exists m1, r' = mkResponse s ct m1 b t e be w /\ same_except [CONTENT_TYPE] m m1
            /\ get_all m1 CONTENT_TYPE <> []).
  { destruct (contains_key m CONTENT_TYPE) eqn:Ec; cbn [negb] in Hty.
    - injection Hty as <-. exists m. split_and!; [done|done|]. by apply contains_key_true.
    - destruct (header_value ct); [|done]. injection Hty as <-. eexists. split_and!; [done| |].
      + apply same_except_insert. set_solver.
      + by rewrite get_all_insert_eq. }
  clear Hty. destruct Hm as (m1 & -> & Hs1 & Hct1). cbn [status res_headers trailers body_kind]. rewrite Enc. cbn [negb].
  assert (Ecl : get_all m1 CONTENT_LENGTH = get_all m CONTENT_LENGTH) by (apply Hs1; vm_compute; set_solver).
  assert (Hs2 : same_except [CONTENT_LENGTH; CONTENT_TYPE] m m1) by (eapply same_except_weaken; [|exact Hs1]; set_solver).
  destruct (contains_key m1 CONTENT_LENGTH) eqn:Ec; cbn [negb andb].
  - apply contains_key_true in Ec. rewrite Ecl in Ec. destruct Hlen as [?|(n & Hn & E & Ht & Hb)]; [done|].
    exists m1. rewrite Ecl. split_and!; [done|done| |done|].
    + right. exists n. destruct Hn. by split_and!.
    + intros bytes -> _. by rewrite E, (Hb _ eq_refl).
  - apply contains_key_false in Ec. destruct t as [t|].
    + exists m1. rewrite bool_decide_eq_true_2 by done. cbn [negb]. split_and!; [done|done|by left|done|done].
    + rewrite bool_decide_eq_false_2 by (by intros [? ?]). cbn [negb].
      destruct b as [bytes|frames|]; [|by exists m1; split_and!; [done|done|left|done|done]..].
      eexists. split_and!; [done|..].
      * eapply same_except_trans; [exact Hs2|]. apply same_except_insert. set_solver.
      * right. exists (body_len bytes). rewrite get_all_insert_eq. split_and!; [unfold body_len; lia|right; by eexists|done|done|].
        intros b' [= ->]. done.
      * by header_ne.
      * intros b' [= ->] _. apply get_all_insert_eq.
Qed.

Lemma trailers_ok_ext t (m m' : HM) : same_except [CONTENT_LENGTH; CONTENT_TYPE] m m' ->
  trailers_ok t m -> trailers_ok t m'.
Proof.
  intros Hs. unfold trailers_ok. destruct t as [t|].
  - rewrite Hs by (vm_compute; set_solver). rewrite (nominated_ext m' m) by (apply Hs; vm_compute; set_solver). done.
  - by rewrite Hs by (vm_compute; set_solver).
Qed.

End framing.

(** ** Finalisation is sound *)

Section theorems.
Context `{HeaderMap HM, HttpTypes}.
Context (base64_decode : str -> option str) (problem_json : str -> str -> Z -> str -> str -> str).

Record well_framed (r : Response HM) : Prop := {
  wf_status : (200 <= status r <= 999)%Z
    \/ status r = 101%Z /\ valid_websocket_switching_protocols base64_decode (res_headers r) = true;
  wf_build_error : build_error r = None;
  wf_transfer_encoding : get_all (res_headers r) TRANSFER_ENCODING = [];
  wf_content_type : status_has_no_content (status r) = false -> get_all (res_headers r) CONTENT_TYPE <> [];
  wf_no_content : status_has_no_content (status r) = true ->
    body_kind r = Empty /\ trailers r = None
    /\ (status r <> 304%Z -> get_all (res_headers r) CONTENT_LENGTH = []);
  wf_length : length_ok r;
  wf_buffered : forall b, body_kind r = Bytes b -> trailers r = None ->
    get_all (res_headers r) CONTENT_LENGTH = [to_dec (body_len b)];
  wf_trailers : trailers_ok (trailers r) (res_headers r)
}.

Lemma switching_ext (m m' : HM) : same_except FRAMING m m' ->
  valid_websocket_switching_protocols base64_decode m' = valid_websocket_switching_protocols base64_decode m.
Proof.
  intros Hm. unfold valid_websocket_switching_protocols, response_header_contains_token, hm_get.
  rewrite !Hm; [done|..]; unfold FRAMING; vm_compute; set_solver.
Qed.
Lemma finalize_pass_well_framed (r r' : Response HM) :
  finalize_pass base64_decode r = Ok r' ->
  well_framed r' /\ status r' = status r /\ same_except FRAMING (res_headers r) (res_headers r')
  /\ (status_has_no_content (status r) = false -> body_kind r' = body_kind r /\ trailers r' = trailers r).
Proof.
  unfold finalize_pass. destruct (build_error r) eqn:Ebe; [done|].
  destruct (status_code (status r)) eqn:Esc; [|done]. apply status_code_range in Esc. cbn [negb].
  destruct (is_informational (status r) && _) eqn:Einf; [done|].
  destruct ((status r =? 101)%Z && _) eqn:E101; [done|].
  destruct (finalize_trailers r) as [r1|] eqn:E1; [|done].
  destruct (finalize_framing r1) as [r2|] eqn:E2; [|done].
  destruct (finalize_content_type r2) as [r3|] eqn:E3; [|done]. intros [= <-].
  apply finalize_trailers_Ok in E1 as (m1 & -> & Hs1 & Ht1).
  apply finalize_framing_Ok in E2 as (m2 & b & t & -> & Hs2 & Hte & Hlen & Ht2 & Hbody); [|done].
  apply finalize_fill_Ok in E3 as (m3 & -> & Hs3 & Hlen3 & Hfill); [|done|done|done].
  destruct r as [s ct m b0 t0 e be w]. cbn in *.
  assert (Hsame : same_except FRAMING m m3).
  { eapply same_except_trans; [eapply same_except_trans|]; (eapply same_except_weaken; [|eassumption]); set_solver. }
  assert (Hte3 : get_all m3 TRANSFER_ENCODING = []) by (rewrite Hs3; [done|vm_compute; set_solver]).
  split_and!; [split; cbn|done|done|].
  - destruct (Z.eqb_spec s 101) as [->|]; [right; split; [done|]|].
    + cbn [andb] in E101. bsplit. by rewrite (switching_ext m).
    + left. unfold is_informational in Einf. destruct (Z.leb_spec 100 s), (Z.leb_spec s 199); cbn in Einf; lia || done.
  - done.
  - done.
  - intros Enc. rewrite Enc in Hfill. apply Hfill.
  - intros Enc. rewrite Enc in Hbody, Hfill. subst m3. destruct Hbody as (-> & -> & ?). by split_and!.
  - done.
  - intros bytes -> ->. destruct (status_has_no_content s) eqn:Enc; [by destruct Hbody|]. by apply Hfill.
  - by eapply trailers_ok_ext.
  - intros Enc. by rewrite Enc in Hbody.
Qed.

(** The error document always passes, with fields that do not depend on the error. *)
Definition error_headers : HM :=
  hm_insert (hm_insert hm_empty CONTENT_TYPE §"application/problem+json") CONTENT_LENGTH
    (to_dec (body_len (problem_json §"about:blank#internal_server_error"
       (default §"HTTP Error" (canonical_reason 500)) 500 §"No se pudo construir la respuesta"
       §"internal_server_error"))).

Lemma invalid_response_passes e :
  exists r', finalize_pass base64_decode (invalid_response_value problem_json e) = Ok r' /\ status r' = 500%Z
    /\ res_headers r' = error_headers.
Proof.
  unfold finalize_pass, invalid_response_value, from_error, with_status. cbn.
  assert (E : status_code 500 = true) by by apply status_code_range. rewrite E. cbn. rewrite E. cbn.
  unfold finalize_trailers. cbn. rewrite (proj2 (contains_key_false _ _)) by apply get_all_empty.
  unfold finalize_framing. cbn. rewrite parse_content_length_absent by apply get_all_empty. cbn.
  rewrite (proj2 (contains_key_false _ _)) by apply get_all_empty. cbn.
  unfold finalize_content_type. cbn. rewrite (proj2 (contains_key_false _ _)) by apply get_all_empty. cbn.
  rewrite header_value_visible by done. cbn. unfold finalize_content_length. cbn.
  rewrite (proj2 (contains_key_false _ _)); [|header_ne; apply get_all_empty].
  cbn. eexists. by split_and!.
Qed.

Lemma finalize_cases (r : Response HM) :
  (exists r', finalize_pass base64_decode r = Ok r'
     /\ forall fuel, 2 <= fuel -> finalize_loop base64_decode problem_json fuel r = Some r')
  \/ (exists e r', finalize_pass base64_decode r = Err e
     /\ finalize_pass base64_decode (invalid_response_value problem_json e) = Ok r'
     /\ status r' = 500%Z /\ res_headers r' = error_headers
     /\ forall fuel, 2 <= fuel -> finalize_loop base64_decode problem_json fuel r = Some r').
Proof.
  destruct (finalize_pass base64_decode r) as [r'|e] eqn:E; [left|right].
  - exists r'. split; [done|]. intros [|fuel] Hf; [lia|]. cbn. by rewrite E.
  - destruct (invalid_response_passes e) as (r' & E' & Hs & Hh). exists e, r'. split_and!; try done.
    intros [|[|fuel]] Hf; [lia|lia|]. cbn. by rewrite E, E'.
Qed.

(** ** Finalising twice *)

Definition response_equiv (a b : Response HM) : Prop :=
  status a = status b /\ content_type a = content_type b /\ res_headers a ≡ res_headers b
  /\ body_kind a = body_kind b /\ trailers a = trailers b /\ build_error a = build_error b.

Lemma find_None_intro {A} (f : A -> bool) l : (forall x, x ∈ l -> f x = false) -> List.find f l = None.
Proof. intros Hl. apply find_None, Forall_forall, Hl. Qed.

Lemma finalize_trailers_again (r : Response HM) : trailers_ok (trailers r) (res_headers r) ->
  exists m, finalize_trailers r = Ok (set_headers r m) /\ m ≡ res_headers r.
Proof.
  destruct r as [s ct m b t e be w]. unfold finalize_trailers, validate_response_trailers, validate_trailers, trailers_ok.
  cbn [trailers res_headers]. destruct t as [t|].
  - intros [E Hk]. rewrite find_None_intro by (intros; by apply Hk). rewrite find_None_intro.
    + eexists. split; [done|]. by apply insert_same.
    + intros n Hn. apply contains_key_false. destruct (decide (get_all t n = [])) as [|Hne]; [done|].
      apply elem_of_hm_keys in Hne. by destruct (Hk n Hne).
  - intros E. rewrite (proj2 (contains_key_false _ _)) by done. by exists m.
Qed.

(** The length field of a well-framed response reads back as it is. *)
Lemma parse_length_again (r : Response HM) (m : HM) :
  length_ok r -> (forall b, body_kind r = Bytes b -> (body_len b <= u64_max)%Z) -> m ≡ res_headers r ->
  exists m' d, parse_content_length m = Ok (m', d) /\ m' ≡ res_headers r
    /\ (is_Some d -> trailers r = None) /\ length_matches d (body_kind r) = Ok tt.
Proof.
  intros [E|(n & [Hn Hfit] & E & Ht & Hb)] Hu Hm.
  - exists m, None. rewrite parse_content_length_absent by by rewrite Hm. split_and!; [done|done|by intros []|].
    by apply length_matches_Ok.
  - assert (n <= u64_max)%Z.
    { destruct Hfit as [|[bytes Hby]]; [done|]. unfold body_bytes in Hby. destruct (body_kind r) eqn:Eb; try done.
      rewrite (Hb _ eq_refl). by apply Hu. }
    exists (hm_insert m CONTENT_LENGTH (to_dec n)), (Some n).
    rewrite (parse_content_length_dec _ n) by (lia || by rewrite Hm).
    split_and!; [done| |done|apply length_matches_Ok; naive_solver].
    etrans; [apply insert_same; by rewrite Hm|done].
Qed.

Lemma finalize_framing_again (r : Response HM) (m : HM) :
  well_framed r -> (forall b, body_kind r = Bytes b -> (body_len b <= u64_max)%Z) -> m ≡ res_headers r ->
  exists m', finalize_framing (set_headers r m) = Ok (set_headers r m') /\ m' ≡ res_headers r.
Proof.
  intros Hwf Hu Hm. destruct (parse_length_again r m) as (m1 & d & Ep & Hm1 & Ht & Hl); [apply Hwf|done|done|].
  unfold finalize_framing. cbn [set_headers res_headers trailers body_kind status]. rewrite Ep.
  assert (Ete : contains_key m1 TRANSFER_ENCODING = false) by (rewrite Hm1; apply contains_key_false, Hwf).
  rewrite Ete.
  assert (Eb : bool_decide (is_Some d) && bool_decide (is_Some (trailers r)) = false).
  { destruct d as [n|]; [|done]. rewrite Ht by eauto. done. }
  rewrite Eb, Hl. destruct r as [s ct hs b t e be w]. cbn [set_headers status body_kind trailers clear_body set_body set_trailers res_headers] in *.
  destruct (status_has_no_content s) eqn:Enc.
  - destruct (wf_no_content _ Hwf Enc) as (Hb & Htr & Hcl). cbn in Hb, Htr, Hcl. subst b t.
    pose proof (wf_trailers _ Hwf) as Hts. pose proof (wf_transfer_encoding _ Hwf) as Hte. cbn in Hts, Hte.
    assert (Hr : hm_remove (hm_remove m1 TRAILER) TRANSFER_ENCODING ≡ hs).
    { rewrite remove_absent; [|header_ne; by rewrite Hm1]. rewrite remove_absent; [done|by rewrite Hm1]. }
    destruct (Z.eqb_spec s 304); (eexists; split; [done|]); [done|].
    rewrite remove_absent; [done|]. rewrite Hr. by apply Hcl.
  - exists m1. split; [by destruct (s =? 304)%Z|done].
Qed.

Lemma finalize_fill_again (r : Response HM) (m : HM) : well_framed r -> m ≡ res_headers r ->
  finalize_content_type (set_headers r m) = Ok (set_headers r m)
  /\ finalize_content_length (set_headers r m) = set_headers r m.
Proof.
  intros Hwf Hm. unfold finalize_content_type, finalize_content_length. cbn [set_headers status res_headers trailers body_kind].
  rewrite !(contains_key_proper _ _ Hm _ _ eq_refl).
  destruct (status_has_no_content (status r)) eqn:Enc; [done|]. cbn [negb andb].
  rewrite (proj2 (contains_key_true _ CONTENT_TYPE)) by by apply Hwf. split; [done|].
  destruct (trailers r) as [t|] eqn:Et; [by rewrite bool_decide_eq_true_2, andb_false_r|].
  destruct (body_kind r) as [b| |] eqn:Eb; [|by case_match..].
  rewrite (proj2 (contains_key_true _ CONTENT_LENGTH)); [done|]. by rewrite (wf_buffered _ Hwf b).
Qed.

Lemma finalize_pass_again (r : Response HM) :
  well_framed r -> (forall b, body_kind r = Bytes b -> (body_len b <= u64_max)%Z) ->
  exists r', finalize_pass base64_decode r = Ok r' /\ response_equiv r' r.
Proof.
  intros Hwf Hu. unfold finalize_pass. rewrite (wf_build_error _ Hwf).
  assert (Hs : status_code (status r) = true).
  { apply status_code_range. destruct (wf_status _ Hwf) as [?|[-> _]]; lia. }
  assert (Hi : is_informational (status r) && negb (status r =? 101)%Z = false).
  { unfold is_informational. destruct (wf_status _ Hwf) as [?|[-> _]]; [|done].
    destruct (Z.leb_spec (status r) 199); [lia|]. by rewrite andb_false_r. }
  assert (Hw : (status r =? 101)%Z && negb (valid_websocket_switching_protocols base64_decode (res_headers r)) = false).
  { destruct (wf_status _ Hwf) as [?|[-> ->]]; [|done]. by rewrite (proj2 (Z.eqb_neq _ _)) by lia. }
  rewrite Hs, Hi, Hw. cbn [negb].
  destruct (finalize_trailers_again r (wf_trailers _ Hwf)) as (m1 & -> & Hm1).
  destruct (finalize_framing_again r m1 Hwf Hu Hm1) as (m2 & -> & Hm2).
  destruct (finalize_fill_again r m2 Hwf Hm2) as [-> E]. rewrite E.
  eexists. split; [done|]. by repeat split.
Qed.

(** C24. Every response leaves the framework well framed: whatever a handler built,
    [finalize] and [invalid_response_value] terminate (two passes are enough) with
    a final status, no Transfer-Encoding, at most one decimal Content-Length
    that is the length of a buffered body, no body or trailers under a
    status that forbids them, and trailers announced exactly and none
    forbidden. A response that needs no correction keeps its status, its
    fields outside framing and its body; any other becomes a 500 problem
    document. Finalising again, as the emission does, changes nothing. *)
Theorem finalize_well_framed (r : Response HM) :
  exists r', (forall fuel, 2 <= fuel -> finalize_loop base64_decode problem_json fuel r = Some r')
  /\ finalize base64_decode problem_json r = Some r' /\ well_framed r'
  /\ match finalize_pass base64_decode r with
     | Ok _ => status r' = status r /\ same_except FRAMING (res_headers r) (res_headers r')
               /\ (status_has_no_content (status r) = false -> body_kind r' = body_kind r /\ trailers r' = trailers r)
     | Err e => status r' = 500%Z /\ res_headers r' = error_headers
     end
  /\ ((forall b, body_kind r' = Bytes b -> (body_len b <= u64_max)%Z) ->
      exists r'', finalize base64_decode problem_json r' = Some r'' /\ response_equiv r'' r').
Proof.
  assert (Hagain : forall r', well_framed r' -> (forall b, body_kind r' = Bytes b -> (body_len b <= u64_max)%Z) ->
            exists r'', finalize base64_decode problem_json r' = Some r'' /\ response_equiv r'' r').
  { intros r' Hwf Hu. destruct (finalize_pass_again r' Hwf Hu) as (r'' & E & ?). exists r''. split; [|done].
    unfold finalize. cbn. by rewrite E. }
  destruct (finalize_cases r) as [(r' & E & Hl)|(e & r' & E & E' & Hs & Hh & Hl)]; exists r'; rewrite E.
  - apply finalize_pass_well_framed in E as (Hwf & ? & ? & ?).
    split_and!; [done|by apply Hl|done|done|done|done|by apply Hagain].
  - apply finalize_pass_well_framed in E' as (Hwf & _).
    split_and!; [done|by apply Hl|done|done|done|by apply Hagain].
Qed.

(** ** HEAD *)

(** A pass over a response with content, no trailers and a valid status. *)
Lemma content_pass (r : Response HM) :
  trailers r = None -> get_all (res_headers r) TRAILER = [] -> status_has_no_content (status r) = false ->
  finalize_pass base64_decode r =
    match build_error r with
    | Some e => Err e
    | None =>
        if status_code (status r) then
          let? p := parse_content_length (res_headers r) in
          if contains_key p.1 TRANSFER_ENCODING then Err explicit_transfer_encoding
          else let? _ := length_matches p.2 (body_kind r) in
               let? typed := finalize_content_type (set_headers r p.1) in
               Ok (finalize_content_length typed)
        else Err invalid_status
    end.
Proof.
  intros Ht Htr Hnc. unfold finalize_pass. destruct (build_error r); [done|].
  destruct (status_code (status r)); [|done]. cbn [negb].
  assert (Hi : is_informational (status r) = false).
  { unfold status_has_no_content in Hnc. by bsplit. }
  destruct (no_content_304 _ Hnc) as [H3 H1].
  rewrite Hi, (proj2 (Z.eqb_neq _ _)) by done. cbn [andb].
  unfold finalize_trailers. rewrite Ht, (proj2 (contains_key_false _ _)) by done.
  unfold finalize_framing. destruct (parse_content_length (res_headers r)) as [[m d]|e]; [|done].
  cbn [fst snd]. destruct (contains_key m TRANSFER_ENCODING); [done|].
  cbn [trailers set_headers status body_kind]. rewrite Ht, Hnc, (proj2 (Z.eqb_neq _ 304)), andb_false_r by done.
  cbn iota. by destruct (length_matches d (body_kind r)) as [[]|].
Qed.

Lemma parse_content_length_equiv (m1 m2 : HM) : m1 ≡ m2 ->
  match parse_content_length m1, parse_content_length m2 with
  | Ok p1, Ok p2 => p1.1 ≡ p2.1 /\ p1.2 = p2.2
  | Err e1, Err e2 => e1 = e2
  | _, _ => False
  end.
Proof.
  intros Hm. unfold parse_content_length. rewrite <- (Hm CONTENT_LENGTH).
  destruct (try_fold _ _ _) as [[n|]|e]; [|done..]. split; [|done]. cbn [fst]. by rewrite Hm.
Qed.

Lemma contains_insert_ne (m : HM) n v n' : n' <> n -> contains_key (hm_insert m n v) n' = contains_key m n'.
Proof. intros Hn. unfold contains_key. by rewrite get_all_insert_ne. Qed.
Lemma contains_insert_eq (m : HM) n v : contains_key (hm_insert m n v) n = true.
Proof. apply contains_key_true. by rewrite get_all_insert_eq. Qed.

(** Filling in the type and the length, for the buffered body and for the
    response that only keeps its length. *)
Lemma fill_head (g h : Response HM) (b : str) :
  status h = status g -> content_type h = content_type g -> trailers g = None ->
  status_has_no_content (status g) = false ->
  body_kind g = Bytes b -> body_kind h = Empty ->
  contains_key (res_headers h) CONTENT_LENGTH = true ->
  res_headers h ≡ (if contains_key (res_headers g) CONTENT_LENGTH then res_headers g
                   else hm_insert (res_headers g) CONTENT_LENGTH (to_dec (body_len b))) ->
  match (let? typed := finalize_content_type g in Ok (finalize_content_length typed)),
        (let? typed := finalize_content_type h in Ok (finalize_content_length typed)) with
  | Ok g', Ok h' => status h' = status g' /\ res_headers h' ≡ res_headers g' /\ body_kind h' = Empty
  | Err _, Err _ => True
  | _, _ => False
  end.
Proof.
  destruct g as [s ct mg bg tg eg beg wg], h as [s' ct' mh bh th eh beh wh]. cbn.
  intros -> -> -> Hnc -> -> Hcl Hm.
  unfold finalize_content_type, finalize_content_length. cbn. rewrite Hnc. cbn [negb andb].
  assert (Ect : contains_key mh CONTENT_TYPE = contains_key mg CONTENT_TYPE).
  { rewrite Hm. destruct (contains_key mg CONTENT_LENGTH); [done|]. by rewrite contains_insert_ne by (by vm_compute). }
  rewrite Ect. destruct (contains_key mg CONTENT_TYPE); cbn [negb].
  - cbn. rewrite Hnc, Hcl. cbn. split; [by repeat case_match|].
    destruct (contains_key mg CONTENT_LENGTH); cbn; by split.
  - destruct (header_value ct); [|done]. cbn. rewrite Hnc, !contains_insert_ne, Hcl by (by vm_compute). cbn.
    split; [by repeat case_match|]. destruct (contains_key mg CONTENT_LENGTH); cbn; (split; [|done]); rewrite Hm; [done|].
    intros n. rewrite !get_all_insert. repeat case_decide; subst; done.
Qed.

Lemma head_pass (r : Response HM) b :
  trailers r = None -> get_all (res_headers r) TRAILER = [] -> status_has_no_content (status r) = false ->
  body_kind r = Bytes b -> (body_len b <= u64_max)%Z ->
  match finalize_pass base64_decode r, finalize_pass base64_decode (prepare_for_head r) with
  | Ok g, Ok h => status h = status g /\ res_headers h ≡ res_headers g /\ body_kind h = Empty
  | Err _, Err _ => True
  | _, _ => False
  end.
Proof.
  intros Ht Htr Hnc Hb Hlen. rewrite (content_pass r) by done.
  destruct r as [s ct m bk t e be w]. cbn in Ht, Htr, Hnc, Hb. subst bk t.
  unfold prepare_for_head. cbn [set_headers set_trailers status res_headers body_kind trailers build_error].
  destruct (status_code s) eqn:Esc; cbn [negb].
  2:{ unfold finalize_pass. cbn. destruct be; [done|]. by rewrite Esc. }
  rewrite Hnc. unfold preserve_buffered_representation_length.
  cbn [set_headers set_trailers status res_headers body_kind trailers build_error].
  pose proof (parse_content_length_equiv _ _ (remove_absent m TRAILER Htr)) as Hp.
  destruct (parse_content_length (hm_remove m TRAILER)) as [[mh d]|e1] eqn:Eh,
    (parse_content_length m) as [[mg d']|e2] eqn:Eg; try done.
  2:{ unfold finalize_pass, record_build_error. cbn. by destruct be. }
  cbn [fst snd] in Hp |- *. destruct Hp as [Hp <-].
  assert (Hcl : forall n, (0 <= n <= u64_max)%Z ->
            parse_content_length (hm_insert mh CONTENT_LENGTH (to_dec n))
            = Ok (hm_insert (hm_insert mh CONTENT_LENGTH (to_dec n)) CONTENT_LENGTH (to_dec n), Some n)).
  { intros n Hn. apply parse_content_length_dec; [done|apply get_all_insert_eq]. }
  assert (Htrail : get_all mg TRAILER = []).
  { apply parse_content_length_cases in Eg as [(_ & -> & _)|(n & _ & _ & ->)]; [done|]. by header_ne. }
  apply parse_content_length_cases in Eg as [(-> & -> & Eabs)|(n & -> & Hn & ->)].
  - rewrite content_pass; [|done|cbn; header_ne; by rewrite Hp|done]. cbn. destruct be; [done|]. rewrite Esc, Hcl by (unfold body_len in *; lia).
    cbn [fst snd]. rewrite !contains_insert_ne by (by vm_compute). rewrite (contains_key_proper _ _ Hp _ _ eq_refl).
    destruct (contains_key m TRANSFER_ENCODING); [done|].
    eapply (fill_head _ _ b); try done; cbn; [apply contains_insert_eq|].
    rewrite (proj2 (contains_key_false m _)) by done. rewrite insert_insert. by rewrite Hp.
  - destruct (Z.eqb_spec n (body_len b)) as [->|Hne].
    + assert (Emh : parse_content_length mh = Ok (hm_insert mh CONTENT_LENGTH (to_dec (body_len b)), Some (body_len b))).
      { apply parse_content_length_dec; [done|]. rewrite (Hp CONTENT_LENGTH). apply get_all_insert_eq. }
      rewrite content_pass; [|done|cbn; by rewrite Hp|done]. cbn. destruct be; [done|]. rewrite Esc, Emh.
      cbn [fst snd]. rewrite !contains_insert_ne by (by vm_compute).
      rewrite (contains_key_proper _ _ Hp _ _ eq_refl), contains_insert_ne by (by vm_compute).
      destruct (contains_key m TRANSFER_ENCODING); [done|]. rewrite (Z.eqb_refl).
      eapply (fill_head _ _ b); try done; cbn; [apply contains_insert_eq|].
      rewrite contains_insert_eq. rewrite Hp. apply insert_same, get_all_insert_eq.
    + unfold finalize_pass, record_build_error. cbn. destruct be; [done|]. cbn.
      rewrite (proj2 (Z.eqb_neq _ _)) by done. by destruct (contains_key _ TRANSFER_ENCODING).
Qed.

(** C25. A HEAD response describes what GET would send: for a buffered response
    with content and no trailers, preparing it for HEAD and finalising gives
    the status and exactly the header fields of the finalised GET response,
    Content-Length included, and errors in the response show under both
    methods alike; a response that is not in error has no body under HEAD. *)
Theorem head_mirrors_get (r : Response HM) b :
  trailers r = None -> get_all (res_headers r) TRAILER = [] -> status_has_no_content (status r) = false ->
  body_kind r = Bytes b -> (body_len b <= u64_max)%Z ->
  exists g h, finalize base64_decode problem_json r = Some g
    /\ finalize base64_decode problem_json (prepare_for_head r) = Some h
    /\ status h = status g /\ res_headers h ≡ res_headers g
    /\ (is_ok (finalize_pass base64_decode r) = true -> body_kind g = Bytes b /\ body_kind h = Empty).
Proof.
  intros Ht Htr Hnc Hb Hlen. pose proof (head_pass r b Ht Htr Hnc Hb Hlen) as Hp.
  destruct (finalize_cases r) as [(g & Eg & Hg)|(eg & g & Eg & _ & Hgs & Hgh & Hg)],
    (finalize_cases (prepare_for_head r)) as [(h & Eh & Hh)|(eh & h & Eh & _ & Hhs & Hhh & Hh)];
    rewrite Eg, Eh in Hp; try done; exists g, h; unfold finalize; rewrite Hg, Hh by lia.
  - destruct Hp as (? & ? & ?). split_and!; try done. intros _. split; [|done].
    apply finalize_pass_well_framed in Eg as (_ & _ & _ & Hbody). by rewrite <- Hb; apply Hbody.
  - rewrite Hhs, Hgs, Hhh, Hgh, Eg. by split_and!.
Qed.
End theorems.

(** ** Redirect targets *)

Definition uri_byte (b : byte) : bool := location_byte b || bool_decide (b = percent).

Lemma escape_bytes b :
  forallb uri_byte [percent; hex_digit (bval b / 16); hex_digit (bval b mod 16)] = true
  /\ is_ascii_hexdigit (hex_digit (bval b / 16)) = true /\ is_ascii_hexdigit (hex_digit (bval b mod 16)) = true.
Proof. byte_cases b. Qed.

(** The encoded target holds only characters of a URI reference, so it is a
    valid header value, and encoding it again leaves it as it is. *)
Lemma encode_location_uri s : forallb uri_byte (encode_location s) = true.
Proof.
  induction s as [|b s IH]; [done|]. cbn [encode_location].
  destruct (location_byte b || _) eqn:E; cbn zeta.
  - cbn [forallb]. rewrite IH, andb_true_r. unfold uri_byte. destruct (location_byte b); [done|].
    cbn [orb] in E |- *. by bsplit; bgoal.
  - cbn zeta. rewrite forallb_app, IH, andb_true_r. apply escape_bytes.
Qed.

Lemma encode_location_hex x s : is_ascii_hexdigit x = true -> encode_location (x :: s) = x :: encode_location s.
Proof.
  intros Hx. cbn [encode_location]. replace (location_byte x) with true; [done|].
  symmetry. revert Hx. byte_cases x.
Qed.

Lemma encode_location_escape x y s : is_ascii_hexdigit x = true -> is_ascii_hexdigit y = true ->
  encode_location (percent :: x :: y :: s) = percent :: x :: y :: encode_location s.
Proof.
  intros Hx Hy. transitivity (percent :: encode_location (x :: y :: s)); [|by rewrite !encode_location_hex].
  remember (x :: y :: s) as t eqn:E. cbn [encode_location]. subst t. rewrite Hx, Hy. by cbn.
Qed.

Lemma encode_location_idempotent s : encode_location (encode_location s) = encode_location s.
Proof.
  induction s as [|b s IH]; [done|]. cbn [encode_location]. cbn zeta.
  destruct (location_byte b || _) eqn:E.
  - cbn [encode_location]. rewrite IH. cbn zeta.
    replace (location_byte b || _) with true; [done|]. symmetry. revert E. destruct (location_byte b); [done|].
    cbn [orb]. destruct (bool_decide (b = percent)); [|done]. cbn [andb].
    destruct s as [|x [|y s]]; [done..|]. intros [Hx Hy]%andb_true_iff.
    by rewrite !encode_location_hex, Hx, Hy.
  - destruct (escape_bytes b) as (_ & Hx & Hy). cbn [app]. by rewrite encode_location_escape, IH.
Qed.

(** ** Instances *)

Module Samples.
#[local] Existing Instance assoc_header_map.
#[local] Existing Instance reference_http_types.

Definition decode (_ : str) : option str := None.
Definition problem (_ _ : str) (_ : Z) (detail _ : str) : str := detail.
Definition greeting : Response AssocHeaders := with_header (response_send §"hola") §"x-node" §"1".

Lemma head_mirrors_get_witness :
  exists g h, finalize decode problem greeting = Some g
    /\ finalize decode problem (prepare_for_head greeting) = Some h
    /\ status h = status g /\ res_headers h ≡ res_headers g
    /\ (is_ok (finalize_pass decode greeting) = true -> body_kind g = Bytes §"hola" /\ body_kind h = Empty).
Proof. by apply (head_mirrors_get decode problem greeting §"hola"). Defined.

(** A conflicting length or a trailer that may not be sent becomes a 500. *)
Example conflicting_length :
  fmap status (finalize decode problem (with_header greeting §"content-length" §"4, 5")) = Some 500%Z
  /\ fmap status (finalize decode problem (with_header greeting §"content-length" §"4, 4")) = Some 200%Z
  /\ fmap status (finalize decode problem (with_trailers greeting [(§"date", §"x")])) = Some 500%Z.
Proof. by vm_compute. Qed.
Example redirect_ex :
  encode_location §"/a b%20%zz" = §"/a%20b%20%25zz".
Proof. reflexivity. Qed.
End Samples.
