(* ===== verification/Cookie.v ===== *)
(** * Response cookies ([src/app/cookie.rs])

    The [Set-Cookie] builder with its sanitisers, the response methods that
    set and clear cookies, and signed values. HMAC-SHA256 and base64url are
    parameters. The theorems: whatever strings an application passes, the
    rendered value splits into exactly the attributes the builder asked for
    and obeys the [__Host-]/[__Secure-]/[SameSite=None] rules; signing and
    verifying are inverse, and verification accepts nothing else. *)
From S2P Require Import Prelude Strs Percent Pattern Host Request Headers Response.

Inductive SameSite := SameStrict | SameLax | SameNone.
#[export] Instance SameSite_eq_dec : EqDecision SameSite.
Proof. solve_decision. Defined.
Definition same_site_str (s : SameSite) : str :=
  match s with SameStrict => §"Strict" | SameLax => §"Lax" | SameNone => §"None" end.

Record Cookie := mkCookie {
  ck_name : str;
  ck_value : str;
  ck_path : str;
  ck_domain : option str;
  ck_max_age : option Z;
  ck_secure : bool;
  ck_http_only : bool;
  ck_same_site : option SameSite
}.

(** ** Sanitisers *)

Definition sanitize_cookie_name (value : str) : str :=
  List.filter (fun b => is_ascii_alphanumeric b || existsb (fun c => bool_decide (c = b)) §"!#$%&'*+-.^_`|~") value.
Definition cookie_octet (b : byte) : bool :=
  (bval b =? 33)%Z || in_range 35 43 b || in_range 45 58 b || in_range 60 91 b || in_range 93 126 b.
Definition sanitize_cookie_value (value : str) : str := List.filter cookie_octet value.

(** By characters: a semicolon, an ASCII control, or one of U+0080..U+009F,
    which UTF-8 writes as C2 80 .. C2 9F, is dropped. *)
Fixpoint sanitize_cookie_path (value : str) : str :=
  match value with
  | [] => []
  | a :: s =>
      match s with
      | b :: t =>
          if (bval a =? 194)%Z && in_range 128 159 b then sanitize_cookie_path t
          else if bool_decide (a = semicolon) || in_range 0 31 a || (bval a =? 127)%Z then sanitize_cookie_path s
          else a :: sanitize_cookie_path s
      | [] => if bool_decide (a = semicolon) || in_range 0 31 a || (bval a =? 127)%Z then [] else [a]
      end
  end.
Definition sanitize_cookie_domain (value : str) : str :=
  List.filter (fun b => is_ascii_alphanumeric b || existsb (fun c => bool_decide (c = b)) §".-:[]") value.

(** ** The builder *)

Definition Cookie_new (name value : str) : Cookie :=
  mkCookie (sanitize_cookie_name name) (sanitize_cookie_value value) §"/" None None false false None.
Definition cookie_path (c : Cookie) (path : str) : Cookie :=
  let path := sanitize_cookie_path path in
  mkCookie (ck_name c) (ck_value c) (if bool_decide (path = []) then §"/" else path) (ck_domain c) (ck_max_age c)
    (ck_secure c) (ck_http_only c) (ck_same_site c).
Definition cookie_domain (c : Cookie) (domain : str) : Cookie :=
  let domain := sanitize_cookie_domain domain in
  mkCookie (ck_name c) (ck_value c) (ck_path c) (if bool_decide (domain = []) then None else Some domain)
    (ck_max_age c) (ck_secure c) (ck_http_only c) (ck_same_site c).
Definition cookie_max_age_secs (c : Cookie) (seconds : Z) : Cookie :=
  mkCookie (ck_name c) (ck_value c) (ck_path c) (ck_domain c) (Some seconds) (ck_secure c) (ck_http_only c)
    (ck_same_site c).
Definition cookie_secure (c : Cookie) (secure : bool) : Cookie :=
  mkCookie (ck_name c) (ck_value c) (ck_path c) (ck_domain c) (ck_max_age c) secure (ck_http_only c) (ck_same_site c).
Definition cookie_http_only (c : Cookie) (http_only : bool) : Cookie :=
  mkCookie (ck_name c) (ck_value c) (ck_path c) (ck_domain c) (ck_max_age c) (ck_secure c) http_only (ck_same_site c).
Definition cookie_same_site (c : Cookie) (s : SameSite) : Cookie :=
  mkCookie (ck_name c) (ck_value c) (ck_path c) (ck_domain c) (ck_max_age c) (ck_secure c) (ck_http_only c) (Some s).
(** [clear_cookie_with] before the header is added. *)
Definition cookie_cleared (c : Cookie) : Cookie :=
  mkCookie (ck_name c) [] (ck_path c) (ck_domain c) (Some 0%Z) (ck_secure c) (ck_http_only c) (ck_same_site c).

(** [i64::to_string]. *)
Definition to_dec_signed (n : Z) : str := if (n <? 0)%Z then §"-" ++ to_dec (- n) else to_dec n.

Definition to_header_value (c : Cookie) : str :=
  let host_prefix := starts_with §"__Host-" (ck_name c) in
  let secure_prefix := starts_with §"__Secure-" (ck_name c) in
  let secure := ck_secure c || bool_decide (ck_same_site c = Some SameNone) || host_prefix || secure_prefix in
  let path := if host_prefix then §"/" else ck_path c in
  let domain := if host_prefix then None else ck_domain c in
  let out := ck_name c ++ §"=" ++ ck_value c ++ §"; Path=" ++ path in
  let out := match domain with Some d => out ++ §"; Domain=" ++ d | None => out end in
  let out := match ck_max_age c with Some n => out ++ §"; Max-Age=" ++ to_dec_signed n | None => out end in
  let out := if secure then out ++ §"; Secure" else out in
  let out := if ck_http_only c then out ++ §"; HttpOnly" else out in
  match ck_same_site c with Some s => out ++ §"; SameSite=" ++ same_site_str s | None => out end.

Section response.
Context `{HeaderMap HM, HttpTypes}.
Definition response_set_cookie (r : Response HM) (c : Cookie) : Response HM :=
  response_append_header r §"set-cookie" (to_header_value c).
Definition clear_cookie_with (r : Response HM) (c : Cookie) : Response HM := response_set_cookie r (cookie_cleared c).
Definition clear_cookie (r : Response HM) (name : str) : Response HM := clear_cookie_with r (Cookie_new name []).
End response.

(** ** Signed values *)

Section signing.
(** HMAC-SHA256 of a message under a key, and base64url without padding. *)
Context (hmac : str -> str -> str) (b64_encode : str -> str) (b64_decode : str -> option str).

Definition signature (secret value : str) : str := b64_encode (hmac secret value).
Definition sign_value (secret value : str) : str := value ++ §"." ++ signature secret value.
Definition verify_value (secret signed : str) : option str :=
  match rsplit_once dot signed with
  | None => None
  | Some (value, signature_b64) =>
      match b64_decode signature_b64 with
      | None => None
      | Some decoded => if bool_decide (decoded = hmac secret value) then Some value else None
      end
  end.
End signing.

(** ** Lemmas *)

(** The cookies an application can build. *)
Inductive cookie_built : Cookie -> Prop :=
| built_new name value : cookie_built (Cookie_new name value)
| built_path c p : cookie_built c -> cookie_built (cookie_path c p)
| built_domain c d : cookie_built c -> cookie_built (cookie_domain c d)
| built_max_age c n : cookie_built c -> cookie_built (cookie_max_age_secs c n)
| built_secure c b : cookie_built c -> cookie_built (cookie_secure c b)
| built_http_only c b : cookie_built c -> cookie_built (cookie_http_only c b)
| built_same_site c s : cookie_built c -> cookie_built (cookie_same_site c s)
| built_cleared c : cookie_built c -> cookie_built (cookie_cleared c).

Definition name_char (b : byte) : bool :=
  is_ascii_alphanumeric b || existsb (fun c => bool_decide (c = b)) §"!#$%&'*+-.^_`|~".
Definition domain_char (b : byte) : bool :=
  is_ascii_alphanumeric b || existsb (fun c => bool_decide (c = b)) §".-:[]".
(** No separator and no control byte. *)
Definition path_char (b : byte) : bool :=
  negb (bool_decide (b = semicolon) || in_range 0 31 b || (bval b =? 127)%Z).

Record cookie_ok (c : Cookie) : Prop := {
  ok_name : Forall (fun b => name_char b = true) (ck_name c);
  ok_value : Forall (fun b => cookie_octet b = true) (ck_value c);
  ok_path : Forall (fun b => path_char b = true) (ck_path c);
  ok_domain : match ck_domain c with Some d => Forall (fun b => domain_char b = true) d | None => True end
}.

Lemma filter_Forall_true {A} (f : A -> bool) l : Forall (fun x => f x = true) (List.filter f l).
Proof. apply filter_all. Qed.

Lemma sanitize_path_chars s : Forall (fun b => path_char b = true) (sanitize_cookie_path s).
Proof.
  induction s as [s IH] using (induction_ltof1 _ (@length _)); unfold ltof in IH.
  destruct s as [|a [|b t]]; cbn [sanitize_cookie_path]; [constructor|..].
  - destruct (bool_decide (a = semicolon) || _ || _) eqn:E; constructor; [|constructor]. unfold path_char. by rewrite E.
  - destruct ((bval a =? 194)%Z && in_range 128 159 b); [apply IH; cbn; lia|].
    destruct (bool_decide (a = semicolon) || _ || _) eqn:E; [apply (IH (b :: t)); cbn; lia|].
    constructor; [unfold path_char; by rewrite E|]. apply (IH (b :: t)). cbn. lia.
Qed.

Lemma built_ok c : cookie_built c -> cookie_ok c.
Proof.
  induction 1 as [name value|c p _ [? ? ? ?]|c d _ [? ? ? ?]|c n _ []|c b _ []|c b _ []|c s _ []|c _ []];
    constructor; cbn; try done; try apply filter_all.
  - by repeat constructor.
  - case_bool_decide; [by repeat constructor|apply sanitize_path_chars].
  - case_bool_decide; [done|]. apply filter_all.
Qed.

(** ** Attributes *)

(** What the builder asked for, with the rules of the cookie prefixes and of
    [SameSite=None]. *)
Definition is_host_prefixed (c : Cookie) : bool := starts_with §"__Host-" (ck_name c).
Definition must_be_secure (c : Cookie) : bool :=
  ck_secure c || bool_decide (ck_same_site c = Some SameNone) || is_host_prefixed c || starts_with §"__Secure-" (ck_name c).
Definition attributes (c : Cookie) : list str :=
  [§"Path=" ++ (if is_host_prefixed c then §"/" else ck_path c)]
  ++ map (fun d => §"Domain=" ++ d) (if is_host_prefixed c then [] else option_list (ck_domain c))
  ++ map (fun n => §"Max-Age=" ++ to_dec_signed n) (option_list (ck_max_age c))
  ++ (if must_be_secure c then [§"Secure"] else [])
  ++ (if ck_http_only c then [§"HttpOnly"] else [])
  ++ map (fun s => §"SameSite=" ++ same_site_str s) (option_list (ck_same_site c)).

Definition pair_text (c : Cookie) : str := ck_name c ++ §"=" ++ ck_value c.

(** The rendered value, attribute by attribute. *)
Lemma to_header_value_attributes c :
  to_header_value c = pair_text c ++ concat (map (fun a => §"; " ++ a) (attributes c)).
Proof.
  unfold to_header_value, attributes, pair_text, must_be_secure, is_host_prefixed.
  destruct (starts_with §"__Host-" (ck_name c)), (ck_secure c || _ || _ || _), (ck_domain c), (ck_max_age c),
    (ck_http_only c), (ck_same_site c); cbn [option_list option_rect map concat app];
    rewrite ?app_nil_r, <- ?app_assoc; reflexivity.
Qed.

Lemma concat_separated (l : list str) : Forall (fun a => semicolon ∉ a) l -> forall s, semicolon ∉ s ->
  split_on semicolon (s ++ concat (map (fun a => §"; " ++ a) l)) = s :: map (fun a => Byte.x20 :: a) l.
Proof.
  induction 1 as [|a l Ha _ IH]; intros s Hs; cbn [map concat].
  - by rewrite app_nil_r, split_on_plain.
  - change (§"; " ++ a) with (semicolon :: Byte.x20 :: a). cbn [app].
    rewrite split_on_sep, split_on_plain by done. cbn [app]. f_equal.
    rewrite app_comm_cons. apply IH. apply not_elem_of_cons. split; [done|done].
Qed.

Lemma Forall_not_elem {A} (f : A -> bool) c l : Forall (fun b => f b = true) l -> f c = false -> c ∉ l.
Proof. intros Hl Hc Hin. rewrite Forall_forall in Hl. specialize (Hl c Hin). congruence. Qed.

Lemma dec_signed_digits n : Forall (fun b => is_ascii_digit b = true \/ b = Byte.x2d) (to_dec_signed n).
Proof.
  unfold to_dec_signed. destruct (Z.ltb_spec n 0).
  - destruct (to_dec_spec (- n)) as (_ & Hd & _); [lia|]. constructor; [by right|].
    eapply Forall_impl; [exact Hd|]. by left.
  - destruct (to_dec_spec n) as (_ & Hd & _); [lia|]. eapply Forall_impl; [exact Hd|]. by left.
Qed.

Lemma lit_no_semicolon (l : str) (s : str) : semicolon ∉ l -> semicolon ∉ s -> semicolon ∉ l ++ s.
Proof. intros Hl Hs. by apply not_elem_of_app. Qed.

Lemma attributes_clean c : cookie_ok c -> Forall (fun a => semicolon ∉ a) (attributes c) /\ semicolon ∉ pair_text c.
Proof.
  intros [Hn Hv Hp Hd]. split.
  - unfold attributes. rewrite !Forall_app. split_and!.
    + constructor; [|constructor]. apply lit_no_semicolon; [by apply contains_false|].
      destruct (is_host_prefixed c); [by apply contains_false|]. by apply (Forall_not_elem path_char).
    + destruct (is_host_prefixed c); [constructor|]. destruct (ck_domain c); repeat constructor.
      apply lit_no_semicolon; [by apply contains_false|]. by apply (Forall_not_elem domain_char).
    + destruct (ck_max_age c) as [n|]; repeat constructor. apply lit_no_semicolon; [by apply contains_false|].
      intros Hin. pose proof (dec_signed_digits n) as Hds. rewrite Forall_forall in Hds. by destruct (Hds _ Hin).
    + destruct (must_be_secure c); repeat constructor. by apply contains_false.
    + destruct (ck_http_only c); repeat constructor. by apply contains_false.
    + destruct (ck_same_site c) as [[]|]; repeat constructor; by apply contains_false.
  - unfold pair_text. apply lit_no_semicolon; [by apply (Forall_not_elem name_char)|].
    apply lit_no_semicolon; [by apply contains_false|]. by apply (Forall_not_elem cookie_octet).
Qed.

Lemma char_solid b : name_char b = true \/ cookie_octet b = true -> ascii_solid b = true.
Proof. intros [H|H]; revert H; byte_cases b. Qed.

Lemma cookie_ok_clean c : cookie_ok c -> cookie_clean (ck_name c) (ck_value c).
Proof.
  intros [Hn Hv _ _]. split_and!.
  - by apply (Forall_not_elem name_char).
  - by apply (Forall_not_elem name_char).
  - apply solid_trimmed. eapply Forall_impl; [exact Hn|]. intros b Hb. apply char_solid. by left.
  - by apply (Forall_not_elem cookie_octet).
  - apply solid_trimmed. eapply Forall_impl; [exact Hv|]. intros b Hb. apply char_solid. by right.
Qed.

Lemma to_header_value_split c : cookie_ok c ->
  split_on semicolon (to_header_value c) = pair_text c :: map (fun a => Byte.x20 :: a) (attributes c).
Proof.
  intros Hok. destruct (attributes_clean c Hok) as [Ha Hp]. rewrite to_header_value_attributes. by apply concat_separated.
Qed.

Lemma pair_text_parses c : cookie_ok c -> parse_cookies (pair_text c) !! ck_name c = Some (ck_value c).
Proof.
  intros Hok. unfold parse_cookies. rewrite split_on_plain by (by apply attributes_clean). cbn [foldl].
  destruct (add_cookie_render ∅ (ck_name c, ck_value c)) as [E _]; [by apply cookie_ok_clean|].
  unfold render_cookie in E. cbn [fst snd] in E. unfold pair_text. change §"=" with [equals]. by rewrite E, lookup_insert_eq.
Qed.

(** C31. Set-Cookie cannot be injected into: for every cookie an application can
    build, from whatever strings, the rendered value splits at its semicolons
    into the name-value pair and exactly the attributes asked for; the pair
    read back by the request parser is the stored name and value; a name with
    the [__Host-] prefix gets Secure and Path=/ and no Domain, and
    [SameSite=None] and [__Secure-] get Secure. *)
Theorem set_cookie_exact c :
  cookie_built c ->
  split_on semicolon (to_header_value c) = pair_text c :: map (fun a => Byte.x20 :: a) (attributes c)
  /\ parse_cookies (pair_text c) !! ck_name c = Some (ck_value c)
  /\ (is_host_prefixed c = true ->
      §"Secure" ∈ attributes c /\ §"Path=/" ∈ attributes c
      /\ forall a, a ∈ attributes c -> starts_with §"Domain=" a = false)
  /\ (ck_same_site c = Some SameNone \/ starts_with §"__Secure-" (ck_name c) = true -> §"Secure" ∈ attributes c).
Proof.
  intros Hok%built_ok. assert (must_be_secure c = true -> §"Secure" ∈ attributes c) as Hsec.
  { intros E. unfold attributes. rewrite E. set_solver. }
  split_and!.
  - by apply to_header_value_split.
  - by apply pair_text_parses.
  - intros Hh. split_and!.
    + apply Hsec. unfold must_be_secure. rewrite Hh. by rewrite orb_true_r.
    + unfold attributes. rewrite Hh. left.
    + unfold attributes. rewrite Hh. cbn [map app]. intros a Hin.
      repeat (apply elem_of_app in Hin as [Hin|Hin] || apply elem_of_cons in Hin as [->|Hin]); [done|..].
      * destruct (ck_max_age c); [|by apply elem_of_nil in Hin]. by apply list_elem_of_singleton in Hin as ->.
      * case_match; [|by apply elem_of_nil in Hin]. by apply list_elem_of_singleton in Hin as ->.
      * case_match; [|by apply elem_of_nil in Hin]. by apply list_elem_of_singleton in Hin as ->.
      * destruct (ck_same_site c); [|by apply elem_of_nil in Hin]. by apply list_elem_of_singleton in Hin as ->.
  - intros Hs. apply Hsec. unfold must_be_secure. destruct Hs as [-> | ->]; [|by rewrite orb_true_r].
    rewrite bool_decide_eq_true_2 by done. by rewrite orb_true_r.
Qed.

(** Appending the header never fails when the path is plain text. *)
Lemma set_cookie_appends `{HeaderMap HM, HttpTypes} (r : Response HM) c :
  header_value (to_header_value c) = true ->
  get_all (res_headers (response_set_cookie r c)) §"set-cookie"
  = get_all (res_headers r) §"set-cookie" ++ [to_header_value c].
Proof.
  intros Hv. unfold response_set_cookie, response_append_header, try_add_header.
  rewrite header_name_plain by (by vm_compute). rewrite Hv. cbn. rewrite get_all_append. by rewrite decide_True.
Qed.

Lemma rsplit_once_Some sep s a b : rsplit_once sep s = Some (a, b) -> s = a ++ sep :: b /\ sep ∉ b.
Proof.
  destruct (decide (sep ∈ s)) as [(p & q & -> & Hq)%list_elem_of_split_r|Hn]; [|by rewrite rsplit_once_none].
  rewrite rsplit_once_last by done. by intros [= -> ->].
Qed.

Section signed.
Context (hmac : str -> str -> str) (b64_encode : str -> str) (b64_decode : str -> option str).
(** base64url: decoding inverts encoding, and its alphabet has no dot. *)
Hypothesis b64_inverse : forall s, b64_decode (b64_encode s) = Some s.
Hypothesis b64_no_dot : forall s, dot ∉ b64_encode s.

(** Signed values: verifying what was signed under the same secret returns
    the value, whatever it contains; and a verified text is always a value, a
    dot and an encoding of that value's own MAC, so changing the value or the
    MAC is detected (up to HMAC itself). *)
Theorem signed_value_roundtrip secret value signed :
  verify_value hmac b64_decode secret (sign_value hmac b64_encode secret value) = Some value
  /\ (verify_value hmac b64_decode secret signed = Some value <->
      exists mac, signed = value ++ dot :: mac /\ dot ∉ mac /\ b64_decode mac = Some (hmac secret value)).
Proof.
  assert (forall s, verify_value hmac b64_decode secret s = Some value <->
      exists mac, s = value ++ dot :: mac /\ dot ∉ mac /\ b64_decode mac = Some (hmac secret value)) as Hiff.
  { intros s. unfold verify_value. split.
    - destruct (rsplit_once dot s) as [[v mac]|] eqn:E; [|done]. apply rsplit_once_Some in E as [-> Hn].
      destruct (b64_decode mac) as [d|] eqn:Ed; [|done]. case_bool_decide; [|done]. intros [= ->]. exists mac. naive_solver.
    - intros (mac & -> & Hn & Hd). rewrite rsplit_once_last, Hd by done. by rewrite bool_decide_eq_true_2. }
  split; [|done]. apply Hiff. unfold sign_value, signature. eexists. split; [done|]. split; [apply b64_no_dot|apply b64_inverse].
Qed.
End signed.

(** ** Concrete cookies *)

Module CookieSample.
Definition session : Cookie :=
  cookie_same_site (cookie_path (Cookie_new §"__Host-id; Domain=evil" §"a b;c") §"/x; Secure") SameLax.
Lemma session_built : cookie_built session.
Proof. repeat constructor. Defined.
Example session_header :
  to_header_value session = §"__Host-idDomainevil=abc; Path=/; Secure; SameSite=Lax".
Proof. by vm_compute. Qed.

Lemma set_cookie_exact_witness :
  split_on semicolon (to_header_value session)
  = [§"__Host-idDomainevil=abc"; §" Path=/"; §" Secure"; §" SameSite=Lax"].
Proof. destruct (set_cookie_exact session session_built) as [E _]. rewrite E. by vm_compute. Defined.

(** A toy MAC, and hexadecimal in place of base64url. *)
Definition mac (secret value : str) : str := [byte_of ((Z.of_nat (length secret) + Z.of_nat (length value)) mod 256)].
Definition hex_encode (s : str) : str := concat (map (fun b => [hex_digit (bval b / 16); hex_digit (bval b mod 16)]) s).
Fixpoint hex_decode (s : str) : option str :=
  match s with
  | [] => Some []
  | h :: l :: s =>
      match hex_value h, hex_value l, hex_decode s with
      | Some hv, Some lv, Some rest => Some (byte_of (16 * hv + lv) :: rest)
      | _, _, _ => None
      end
  | _ => None
  end.
Lemma hex_pair b : (exists hv lv, hex_value (hex_digit (bval b / 16)) = Some hv
    /\ hex_value (hex_digit (bval b mod 16)) = Some lv /\ byte_of (16 * hv + lv) = b)
  /\ hex_digit (bval b / 16) <> dot /\ hex_digit (bval b mod 16) <> dot.
Proof. destruct b; vm_compute; (split; [eauto 10|done]). Qed.
Lemma hex_inverse s : hex_decode (hex_encode s) = Some s.
Proof.
  induction s as [|b s IH]; [done|]. unfold hex_encode in *. cbn [map concat app hex_decode].
  destruct (hex_pair b) as [(hv & lv & -> & -> & Hb) _]. by rewrite IH, Hb.
Qed.
Lemma hex_no_dot s : dot ∉ hex_encode s.
Proof.
  induction s as [|b s IH]; [apply not_elem_of_nil|]. unfold hex_encode in *. cbn [map concat app].
  destruct (hex_pair b) as [_ [Hh Hl]]. by rewrite !not_elem_of_cons.
Qed.

Lemma signed_value_roundtrip_witness :
  verify_value mac hex_decode §"k" (sign_value mac hex_encode §"k" §"v.1") = Some §"v.1".
Proof. apply (signed_value_roundtrip mac hex_encode hex_decode hex_inverse hex_no_dot §"k" §"v.1" []). Defined.
End CookieSample.
