(* ===== verification/Sessions.v ===== *)
(** * The session middleware ([Sessions] of [src/app/session.rs])

    The handle that configures the store, signs session identifiers into
    cookies and installs the middleware. The store is [Session]; signing is
    [Cookie]; the inner layers ([next]) are a function of the request, the
    identifier they are given and the store, which they and concurrent requests
    may change. Proved: handlers only ever see an identifier that was signed
    under the secret and is alive, or a fresh one; the cookie a response issues
    brings the same session back; and no response of the middleware is left
    to shared caches. *)
From S2P Require Import Prelude Strs Percent Pattern Host Request Headers Response Cookie Session.

Definition SESSION_ID_HEADER : str := §"x-session-id".
Definition CACHE_CONTROL : str := §"cache-control".
Definition SET_COOKIE : str := §"set-cookie".
Definition MIN_SECRET_BYTES : nat := 32.
Definition i64_max : Z := 9223372036854775807.

(** The configuration of a [Sessions] value; durations in nanoseconds. *)
Record Sessions := mkSessions {
  secret : str;
  cookie_name : str;
  same_site : SameSite;
  force_secure_cookie : bool;
  idle_timeout : Z;
  max_sessions : Z;
  max_entries_per_session : Z;
  max_session_key_bytes : Z;
  max_session_value_bytes : Z;
  max_session_data_bytes : Z
}.

Record SessionConfigError := mkSessionConfigError { config_message : str }.

Definition try_new (secret : str) : result Sessions SessionConfigError :=
  if (length secret <? MIN_SECRET_BYTES)%nat then
    Err (mkSessionConfigError §"El secreto de sesion debe contener al menos 32 bytes")
  else Ok (mkSessions secret §"rustrest_session" SameLax false (24 * 60 * 60 * second) 10000 64 256 (16 * 1024) (64 * 1024)).

Definition is_valid_cookie_name (name : str) : bool := negb (bool_decide (name = [])) && forallb is_token_byte name.

Section configure.
(** How many handles share the store, and whether an instant that far from now
    is representable. *)
Context (strong_count : nat) (representable : Z -> bool).

Definition ensure_configurable : result unit SessionConfigError :=
  if (strong_count =? 1)%nat then Ok tt
  else Err (mkSessionConfigError §"La configuracion de Sessions debe completarse antes de clonarla o registrar middleware").

Definition try_cookie_name (s : Sessions) (name : str) : result Sessions SessionConfigError :=
  if negb (is_valid_cookie_name name) then Err (mkSessionConfigError §"El nombre de la cookie de sesion no es valido")
  else
    let? _ := ensure_configurable in
    Ok (mkSessions (secret s) name (same_site s) (force_secure_cookie s) (idle_timeout s) (max_sessions s)
          (max_entries_per_session s) (max_session_key_bytes s) (max_session_value_bytes s) (max_session_data_bytes s)).

Definition try_idle_timeout (s : Sessions) (timeout : Z) : result Sessions SessionConfigError :=
  if (timeout =? 0)%Z || negb (representable timeout) then
    Err (mkSessionConfigError §"El tiempo de inactividad de sesion debe ser positivo y representable")
  else
    let? _ := ensure_configurable in
    Ok (mkSessions (secret s) (cookie_name s) (same_site s) (force_secure_cookie s) timeout (max_sessions s)
          (max_entries_per_session s) (max_session_key_bytes s) (max_session_value_bytes s) (max_session_data_bytes s)).

(** The setters of a maximum: zero is refused. *)
Definition positive_maximum (maximum : Z) (message : str) (updated : Sessions) : result Sessions SessionConfigError :=
  if (maximum =? 0)%Z then Err (mkSessionConfigError message)
  else let? _ := ensure_configurable in Ok updated.

Definition try_max_sessions (s : Sessions) (n : Z) : result Sessions SessionConfigError :=
  positive_maximum n §"El maximo de sesiones debe ser mayor que cero"
    (mkSessions (secret s) (cookie_name s) (same_site s) (force_secure_cookie s) (idle_timeout s) n
       (max_entries_per_session s) (max_session_key_bytes s) (max_session_value_bytes s) (max_session_data_bytes s)).
Definition try_max_entries_per_session (s : Sessions) (n : Z) : result Sessions SessionConfigError :=
  positive_maximum n §"El maximo de entradas por sesion debe ser mayor que cero"
    (mkSessions (secret s) (cookie_name s) (same_site s) (force_secure_cookie s) (idle_timeout s) (max_sessions s)
       n (max_session_key_bytes s) (max_session_value_bytes s) (max_session_data_bytes s)).
Definition try_max_session_key_bytes (s : Sessions) (n : Z) : result Sessions SessionConfigError :=
  positive_maximum n §"El maximo de bytes por clave de sesion debe ser mayor que cero"
    (mkSessions (secret s) (cookie_name s) (same_site s) (force_secure_cookie s) (idle_timeout s) (max_sessions s)
       (max_entries_per_session s) n (max_session_value_bytes s) (max_session_data_bytes s)).
Definition try_max_session_value_bytes (s : Sessions) (n : Z) : result Sessions SessionConfigError :=
  positive_maximum n §"El maximo de bytes por valor de sesion debe ser mayor que cero"
    (mkSessions (secret s) (cookie_name s) (same_site s) (force_secure_cookie s) (idle_timeout s) (max_sessions s)
       (max_entries_per_session s) (max_session_key_bytes s) n (max_session_data_bytes s)).
Definition try_max_session_data_bytes (s : Sessions) (n : Z) : result Sessions SessionConfigError :=
  positive_maximum n §"El maximo agregado de datos de sesion debe ser mayor que cero"
    (mkSessions (secret s) (cookie_name s) (same_site s) (force_secure_cookie s) (idle_timeout s) (max_sessions s)
       (max_entries_per_session s) (max_session_key_bytes s) (max_session_value_bytes s) n).
Definition try_secure_cookies (s : Sessions) (secure : bool) : result Sessions SessionConfigError :=
  let? _ := ensure_configurable in
  Ok (mkSessions (secret s) (cookie_name s) (same_site s) secure (idle_timeout s) (max_sessions s)
        (max_entries_per_session s) (max_session_key_bytes s) (max_session_value_bytes s) (max_session_data_bytes s)).
Definition try_same_site (s : Sessions) (site : SameSite) : result Sessions SessionConfigError :=
  let? _ := ensure_configurable in
  Ok (mkSessions (secret s) (cookie_name s) site (force_secure_cookie s) (idle_timeout s) (max_sessions s)
        (max_entries_per_session s) (max_session_key_bytes s) (max_session_value_bytes s) (max_session_data_bytes s)).

(** The configurations an application can reach. *)
Inductive configured : Sessions -> Prop :=
| configured_new secret s : try_new secret = Ok s -> configured s
| configured_name s n s' : configured s -> try_cookie_name s n = Ok s' -> configured s'
| configured_idle s d s' : configured s -> try_idle_timeout s d = Ok s' -> configured s'
| configured_maximum s n s' f :
    configured s -> f ∈ [try_max_sessions; try_max_entries_per_session; try_max_session_key_bytes;
                         try_max_session_value_bytes; try_max_session_data_bytes] -> f s n = Ok s' -> configured s'
| configured_secure s b s' : configured s -> try_secure_cookies s b = Ok s' -> configured s'
| configured_site s x s' : configured s -> try_same_site s x = Ok s' -> configured s'.
End configure.

Definition data_limits (s : Sessions) : SessionDataLimits :=
  mkSessionDataLimits (max_entries_per_session s) (max_session_key_bytes s) (max_session_value_bytes s)
    (max_session_data_bytes s).

(** ** Cookies and caching *)

Definition request_cookie_occurrences (req : Request) (cookie_name : str) : nat :=
  length (List.filter (fun pair => match split_once equals pair with
                                   | Some (name, _) => bool_decide (trim name = cookie_name)
                                   | None => false
                                   end)
            (concat (map (split_on semicolon) (headers_all req §"cookie")))).

(** Seconds, rounded up and saturated. *)
Definition duration_max_age (duration : Z) : Z :=
  let rounded := Z.min u64_max (duration / second + (if (duration mod second =? 0)%Z then 0 else 1))%Z in
  Z.min rounded i64_max.

Definition default_cookie_path (request_path : str) : str :=
  if negb (starts_with [slash] request_path) then [slash]
  else match rsplit_once slash request_path with
       | None | Some ([], _) => [slash]
       | Some (before, _) => before
       end.

(** One attribute of a Set-Cookie value: the effective path and whether there
    is a domain. *)
Definition cookie_attribute (default_path : str) (found : str * bool) (attribute : str) : str * bool :=
  let '(effective_path, has_domain) := found in
  let '(name, value) := match split_once equals (trim attribute) with
                        | Some (name, value) => (trim name, trim value)
                        | None => (trim attribute, [])
                        end in
  if eq_ignore_ascii_case name §"path" then (if starts_with [slash] value then value else default_path, has_domain)
  else if eq_ignore_ascii_case name §"domain" then (effective_path, true)
  else (effective_path, has_domain).

Section sessions.
Context `{HeaderMap HM, HttpTypes}.
Context (problem_json : str -> str -> Z -> str -> str -> str).
Context (hmac : str -> str -> str) (b64_encode : str -> str) (b64_decode : str -> option str).
Context (hash : str -> Z) (instant_max : Z).
Implicit Types r : Response HM.

Definition is_root_host_cookie (cookie_name request_path value : str) : bool :=
  value_to_str value &&
  match split_on semicolon value with
  | [] => false
  | first :: segments =>
      match split_once equals first with
      | None => false
      | Some (name, _) =>
          bool_decide (trim name = cookie_name) &&
          let default_path := default_cookie_path request_path in
          let '(effective_path, has_domain) := foldl (cookie_attribute default_path) (default_path, false) segments in
          bool_decide (effective_path = [slash]) && negb has_domain
      end
  end.
Definition response_sets_root_host_cookie r (cookie_name request_path : str) : bool :=
  existsb (is_root_host_cookie cookie_name request_path) (get_all (res_headers r) SET_COOKIE).

Definition directive_name (directive : str) : str :=
  match split_once equals (trim directive) with Some (name, _) => trim name | None => trim directive end.
Definition is_private_value (value : str) : bool :=
  existsb (fun d => eq_ignore_ascii_case (directive_name d) §"private" || eq_ignore_ascii_case (directive_name d) §"no-store")
    (split_on comma value).
Definition ensure_private_cache_control r : Response HM :=
  let m := res_headers r in
  let values := get_all m CACHE_CONTROL in
  if negb (forallb value_to_str values) then
    set_headers r (hm_insert (hm_remove m CACHE_CONTROL) CACHE_CONTROL §"private, no-store")
  else if negb (existsb is_private_value values) then set_headers r (hm_append m CACHE_CONTROL §"private")
  else r.

(** ** The handle *)

Definition generate_id (s : Sessions) (nanos count : Z) : str :=
  let signed := sign_value hmac b64_encode (secret s) (to_dec nanos ++ §"-" ++ to_dec count) in
  match rsplit_once dot signed with Some (_, signature) => signature | None => signed end.

Definition sessions_get (s : Sessions) (st : SessionStore) (id key : str) (now : Z) : SessionStore * option str :=
  Session.get hash instant_max st id key (idle_timeout s) now.
Definition sessions_set (s : Sessions) (st : SessionStore) (id key value : str) (now1 now2 now3 : Z) :=
  Session.set hash instant_max st id key value (idle_timeout s) (max_sessions s) (data_limits s) now1 now2 now3.
Definition sessions_remove (s : Sessions) (st : SessionStore) (id key : str) (now : Z) : SessionStore :=
  Session.remove hash instant_max st id key (idle_timeout s) now.
Definition sessions_regenerate (s : Sessions) (st : SessionStore) (id : str) (nanos count now1 now2 now3 : Z) :=
  regenerate hash instant_max st id (generate_id s nanos count) (idle_timeout s) (max_sessions s) now1 now2 now3.
Definition sessions_clear (st : SessionStore) (id : str) : SessionStore := Session.clear hash st id.
Definition sessions_len (st : SessionStore) (now : Z) : SessionStore * Z := live_len st now.

(** ** The middleware *)

Definition duplicate_session_cookie : Response HM :=
  from_error problem_json
    (HttpError_new 400 §"duplicate_session_cookie" §"La solicitud contiene varias cookies de sesion con el mismo nombre").
(** [set_header] fails on the value alone: the name is a constant. *)
Definition session_header_error : Response HM :=
  from_error problem_json
    (with_source (bad_request_error §"El valor del encabezado de solicitud no es valido") OtherSource).

(** The identifier of the request: of the presented cookie when it verifies and
    its session is alive, else [fresh]. *)
Definition session_for (s : Sessions) (fresh : str) (st : SessionStore) (req : Request) (now : Z) : SessionStore * str :=
  match cookie req (cookie_name s) ≫= verify_value hmac b64_decode (secret s) with
  | None => (st, fresh)
  | Some id =>
      let '(st, alive) := resume hash instant_max st id (idle_timeout s) now in
      (st, if alive then id else fresh)
  end.

(** Before the inner layers: the request they get and the identifier, or an
    early answer. *)
Definition session_admit (s : Sessions) (fresh : str) (st : SessionStore) (req : Request) (now : Z)
  : SessionStore * result (Request * str) (Response HM) :=
  if (1 <? request_cookie_occurrences req (cookie_name s))%nat then
    (st, Err (ensure_private_cache_control duplicate_session_cookie))
  else
    let '(st, id) := session_for s fresh st req now in
    (st, match set_header header_name header_value req SESSION_ID_HEADER id with
         | Err _ => Err (ensure_private_cache_control session_header_error)
         | Ok req => Ok (req, id)
         end).

Definition session_cookie (s : Sessions) (secure : bool) (id : str) (alive : bool) : Cookie :=
  cookie_same_site
    (cookie_http_only
       (cookie_secure
          (cookie_max_age_secs
             (Cookie_new (cookie_name s) (if alive then sign_value hmac b64_encode (secret s) id else []))
             (if alive then duration_max_age (idle_timeout s) else 0))
          secure)
       true)
    (same_site s).

Definition must_secure (s : Sessions) (secure_transport : bool) : bool :=
  secure_transport || force_secure_cookie s || starts_with §"__Host-" (cookie_name s)
  || starts_with §"__Secure-" (cookie_name s) || bool_decide (same_site s = SameNone).

(** After the inner layers. *)
Definition session_finish (s : Sessions) (req : Request) (id : str) (st : SessionStore) r (now : Z) : SessionStore * Response HM :=
  let r := ensure_private_cache_control r in
  let '(st, rotated) := take_rotation st id in
  let id := default id rotated in
  if response_sets_root_host_cookie r (cookie_name s) (path req) then (st, r)
  else
    let '(st, alive) := resume hash instant_max st id (idle_timeout s) now in
    if negb alive && negb (bool_decide (is_Some (cookie req (cookie_name s)))) then (st, r)
    else (st, response_set_cookie r (session_cookie s (must_secure s (secure_transport req)) id alive)).

(** [next] is given the request, the private session identifier and the
    store. *)
Definition session_middleware (s : Sessions) (fresh : str) (st : SessionStore) (req : Request) (now1 now2 : Z)
    (next : Request -> str -> SessionStore -> SessionStore * Response HM) : SessionStore * Response HM :=
  match session_admit s fresh st req now1 with
  | (st, Err early) => (st, early)
  | (st, Ok (req', id)) => let '(st, r) := next req' id st in session_finish s req id st r now2
  end.
End sessions.

(** ** Properties *)

(** Every configuration an application can reach has a long secret, a cookie
    name that is a token, and no zero limit. *)
Theorem configured_valid count representable s : configured count representable s ->
  MIN_SECRET_BYTES <= length (secret s) /\ is_valid_cookie_name (cookie_name s) = true
  /\ (idle_timeout s <> 0 /\ max_sessions s <> 0 /\ max_entries_per_session s <> 0 /\ max_session_key_bytes s <> 0
      /\ max_session_value_bytes s <> 0 /\ max_session_data_bytes s <> 0)%Z.
Proof.
  induction 1 as [key s E|s n s' _ IH E|s d s' _ IH E|s n s' f _ IH Hf E|s b s' _ IH E|s x s' _ IH E].
  - unfold try_new in E. destruct (Nat.ltb_spec (length key) MIN_SECRET_BYTES); [done|]. by injection E as <-.
  - unfold try_cookie_name in E. destruct (is_valid_cookie_name n) eqn:En; [|done]. cbn [negb] in E.
    destruct (ensure_configurable _); [|done]. injection E as <-. cbn. naive_solver.
  - unfold try_idle_timeout in E. destruct (Z.eqb_spec d 0); [done|]. destruct (negb _); [done|].
    destruct (ensure_configurable _); [|done]. injection E as <-. cbn. naive_solver.
  - repeat (apply elem_of_cons in Hf as [->|Hf]; [unfold try_max_sessions, try_max_entries_per_session, try_max_session_key_bytes,
      try_max_session_value_bytes, try_max_session_data_bytes, positive_maximum in E; destruct (Z.eqb_spec n 0); [done|];
      destruct (ensure_configurable _); [|done]; injection E as <-; cbn; naive_solver|]). by apply elem_of_nil in Hf.
  - unfold try_secure_cookies in E. destruct (ensure_configurable _); [|done]. by injection E as <-.
  - unfold try_same_site in E. destruct (ensure_configurable _); [|done]. by injection E as <-.
Qed.

Section caching.
Context `{HeaderMap HM, HttpTypes}.
Implicit Types r : Response HM.

(** A shared cache may not store the response. *)
Definition uncacheable r : Prop := exists v, v ∈ get_all (res_headers r) CACHE_CONTROL /\ is_private_value v = true.

Lemma ensure_private_spec r :
  uncacheable (ensure_private_cache_control r)
  /\ (forall n, n <> CACHE_CONTROL -> get_all (res_headers (ensure_private_cache_control r)) n = get_all (res_headers r) n)
  /\ status (ensure_private_cache_control r) = status r.
Proof.
  unfold ensure_private_cache_control, uncacheable. destruct (negb (forallb _ _)).
  - cbn [set_headers res_headers status]. rewrite get_all_insert_eq. split_and!; [|..|done].
    + exists §"private, no-store". by split; [left|].
    + intros n Hn. by rewrite get_all_insert_ne, get_all_remove_ne.
  - destruct (negb _) eqn:E.
    + cbn [set_headers res_headers status]. split_and!; [|..|done].
      * exists §"private". rewrite get_all_append, decide_True by done. split; [|done]. apply elem_of_app. right. by left.
      * intros n Hn. by rewrite get_all_append, decide_False.
    + split; [|done]. apply negb_false_iff, existsb_exists in E as (v & Hv & Hp). exists v. by rewrite list_elem_of_In.
Qed.

Lemma set_cookie_other r c n : n <> SET_COOKIE -> get_all (res_headers (response_set_cookie r c)) n = get_all (res_headers r) n.
Proof.
  intros Hn. unfold response_set_cookie, response_append_header, try_add_header. rewrite header_name_plain by (by vm_compute).
  destruct (header_value _); cbn.
  - by rewrite get_all_append, decide_False.
  - unfold record_build_error. by destruct (build_error r).
Qed.
End caching.

Section trust.
Context `{HeaderMap HM, HttpTypes}.
Context (problem_json : str -> str -> Z -> str -> str -> str).
Context (hmac : str -> str -> str) (b64_encode : str -> str) (b64_decode : str -> option str).
Context (hash : str -> Z) (instant_max : Z) (most : Z).
Hypothesis most_ok : (0 < most <= usize_max)%Z.
Abbreviation session_admit := (session_admit problem_json hmac b64_decode hash instant_max).
Abbreviation session_for := (session_for hmac b64_decode hash instant_max).
Abbreviation verify := (verify_value hmac b64_decode).
Abbreviation live_at := (live_at hash).
Abbreviation store_ok := (store_ok hash most).

Lemma frame_live st id o st' now id' : updated hash most st id o st' -> id' <> id -> live_at st' now id' = live_at st now id'.
Proof. intros Hu Hne. unfold Session.live_at. by rewrite (up_frame _ _ _ _ _ _ Hu). Qed.

(** Which identifier the request gets, and what that does to the store. *)
Lemma session_for_spec s fresh st req now : store_ok st ->
  let '(st', id) := session_for s fresh st req now in
  store_ok st' /\ (forall id', id' <> id -> live_at st' now id' = live_at st now id')
  /\ match cookie req (cookie_name s) ≫= verify (secret s) with
     | Some presented => if decide (is_Some (live_at st now presented)) then id = presented else id = fresh
     | None => id = fresh /\ st' = st
     end.
Proof.
  intros Hok. unfold Sessions.session_for. destruct (cookie req (cookie_name s) ≫= _) as [id|]; [|by split_and!].
  destruct (resume_spec hash instant_max most most_ok st id (idle_timeout s) now Hok) as [Hu Ha].
  destruct (resume _ _ _ _ _ _) as [st' alive]. cbn [fst snd] in *. subst alive.
  split; [by eapply up_ok|]. case_decide as Hl.
  - rewrite bool_decide_eq_true_2 by done. split; [|done]. intros id' Hne. by eapply frame_live.
  - rewrite bool_decide_eq_false_2 by done. split; [|done]. intros id' _. destruct (decide (id' = id)) as [-> |Hne]; [|by eapply frame_live].
    apply eq_None_not_Some in Hl. rewrite Hl in Hu. unfold Session.live_at at 1. by rewrite (up_at _ _ _ _ _ _ Hu).
Qed.

Lemma session_header_set req id req' : set_header header_name header_value req SESSION_ID_HEADER id = Ok req' ->
  headers_all req' SESSION_ID_HEADER = [id] /\ cookies req' = cookies req /\ header req' SESSION_ID_HEADER = Some id.
Proof.
  unfold set_header. rewrite header_name_plain by (by vm_compute). destruct (negb _); [done|].
  rewrite bool_decide_eq_false_2 by done. intros [= <-]. unfold headers_all, header. cbn [set_views header_pairs headers cookies].
  rewrite lookup_insert_eq, List.filter_app, map_app. split_and!; [|done..].
  assert (List.filter (fun pair : str * str => eq_ignore_ascii_case pair.1 SESSION_ID_HEADER)
            (List.filter (is_not_named SESSION_ID_HEADER) (header_pairs req)) = []) as ->; [|done].
  induction (header_pairs req) as [|p ps IH]; [done|]. cbn [List.filter]. unfold is_not_named at 1.
  destruct (eq_ignore_ascii_case p.1 SESSION_ID_HEADER) eqn:E; cbn [negb List.filter]; [done|]. by rewrite E.
Qed.

Lemma early_answers :
  (status (ensure_private_cache_control (duplicate_session_cookie problem_json)) = 400%Z
   /\ status (ensure_private_cache_control (session_header_error problem_json)) = 400%Z).
Proof.
  assert (forall e : HttpError HM, err_status e = 400%Z -> status (ensure_private_cache_control (from_error problem_json e)) = 400%Z) as He.
  { intros e E. destruct (ensure_private_spec (from_error problem_json e)) as (_ & _ & ->). unfold from_error, with_status.
    by rewrite E, (proj2 (status_code_range 400)) by lia. }
  split; by apply He.
Qed.

(** A verified text is the value, a dot and the encoding of its own MAC. *)
Lemma verify_shape key signed id : verify key signed = Some id ->
  exists mac, signed = id ++ dot :: mac /\ b64_decode mac = Some (hmac key id).
Proof.
  unfold verify_value. destruct (rsplit_once dot signed) as [[v mac]|] eqn:E; [|done]. apply rsplit_once_Some in E as [-> _].
  destruct (b64_decode mac) as [d|] eqn:Ed; [|done]. case_bool_decide; [|done]. intros [= ->]. exists mac. by subst.
Qed.

(** The identifier of a request is trustworthy: alive and presented with its
    own MAC under the secret, or the fresh one. *)
Definition trusted (s : Sessions) (fresh : str) (st : SessionStore) (req : Request) (now : Z) (id : str) : Prop :=
  (exists mac, cookie req (cookie_name s) = Some (id ++ dot :: mac) /\ b64_decode mac = Some (hmac (secret s) id)
     /\ is_Some (live_at st now id))
  \/ (id = fresh /\ forall signed presented, cookie req (cookie_name s) = Some signed -> verify (secret s) signed = Some presented ->
        live_at st now presented = None).

(** C14. Session identifiers are trusted: whatever a client sends, the inner
    layers get an identifier that is alive in the store and whose MAC under the
    secret the client presented, or the freshly generated one (then nothing
    the client presented verifies and is alive); the [x-session-id] field they
    read is that identifier alone, even if the client sent its own; a request
    with two session cookies, or one whose identifier is no field value, is
    answered 400 without reaching them; other sessions are not touched;
    and every response of the middleware, whatever the inner layers answer, is
    marked so that no shared cache stores it. *)
Theorem session_ids_trusted s fresh st req now :
  store_ok st ->
  (let '(st', admitted) := session_admit s fresh st req now in
   match admitted with
   | Err early => status early = 400%Z
                  /\ (1 < request_cookie_occurrences req (cookie_name s) \/ exists id, trusted s fresh st req now id /\ header_value id = false)
   | Ok (req', id) =>
       request_cookie_occurrences req (cookie_name s) <= 1 /\ trusted s fresh st req now id
       /\ headers_all req' SESSION_ID_HEADER = [id] /\ header req' SESSION_ID_HEADER = Some id
       /\ forall id', id' <> id -> live_at st' now id' = live_at st now id'
   end)
  /\ forall now2 next, uncacheable (session_middleware problem_json hmac b64_encode b64_decode hash instant_max s fresh st req now now2 next).2.
Proof.
  intros Hok. split.
  - unfold Sessions.session_admit. destruct early_answers as [E1 E2]. destruct (Nat.ltb_spec 1 (request_cookie_occurrences req (cookie_name s))).
    { split; [done|by left]. }
    pose proof (session_for_spec s fresh st req now Hok) as Hs. destruct (session_for s fresh st req now) as [st' id].
    destruct Hs as (_ & Hframe & Hid). assert (trusted s fresh st req now id) as Ht.
    { unfold trusted. destruct (cookie req (cookie_name s)) as [signed|] eqn:Ec; cbn in Hid; [|right; naive_solver].
      destruct (verify (secret s) signed) as [p|] eqn:Ev; [|right; naive_solver]. case_decide as Hl.
      - subst p. destruct (verify_shape _ _ _ Ev) as (mac & -> & Hm). left. eauto.
      - right. split; [done|]. intros ? ? [= <-] E. rewrite Ev in E. injection E as <-. by apply eq_None_not_Some. }
    destruct (set_header _ _ req SESSION_ID_HEADER id) as [req'|e] eqn:Eh.
    + destruct (session_header_set req id req' Eh) as (? & _ & ?). by split_and!.
    + split; [done|]. right. exists id. split; [done|]. unfold set_header in Eh.
      rewrite header_name_plain in Eh by (by vm_compute). by destruct (header_value id).
  - intros now2 next. unfold session_middleware. destruct (session_admit s fresh st req now) as [st1 [[req' id]|early]] eqn:Ea.
    + destruct (next req' id st1) as [st2 r]. unfold session_finish. destruct (take_rotation st2 id) as [st3 rot].
      pose proof (proj1 (ensure_private_spec r)) as Hu. destruct (response_sets_root_host_cookie _ _ _); [done|].
      destruct (resume _ _ _ _ _ _) as [st4 alive]. destruct (negb alive && _); [done|]. cbn [snd].
      destruct Hu as (v & Hv & Hp). exists v. by rewrite set_cookie_other.
    + cbn [snd]. unfold Sessions.session_admit in Ea. destruct (_ <? _)%nat; [injection Ea as _ <-; apply ensure_private_spec|].
      destruct (session_for s fresh st req now) as [? id]. destruct (set_header _ _ _ _ _); [done|]. injection Ea as _ <-. apply ensure_private_spec.
Qed.
End trust.

(** ** The cookie comes back *)

Section resumes.
Context `{HeaderMap HM, HttpTypes}.
Context (problem_json : str -> str -> Z -> str -> str -> str).
Context (hmac : str -> str -> str) (b64_encode : str -> str) (b64_decode : str -> option str).
Context (hash : str -> Z) (instant_max : Z) (most : Z).
Hypothesis most_ok : (0 < most <= usize_max)%Z.
(** base64url: decoding inverts encoding; letters, digits, [-] and [_]. *)
Hypothesis b64_inverse : forall s, b64_decode (b64_encode s) = Some s.
Hypothesis b64_alphabet : forall s, Forall (fun b => is_ascii_alphanumeric b || existsb (fun c => bool_decide (c = b)) §"-_" = true) (b64_encode s).
Abbreviation sign := (sign_value hmac b64_encode).
Abbreviation live_at := (live_at hash).
Abbreviation store_ok := (store_ok hash most).
Abbreviation session_cookie := (session_cookie hmac b64_encode).

Lemma b64_plain s : dot ∉ b64_encode s /\ Forall (fun b => cookie_octet b = true) (b64_encode s).
Proof.
  split.
  - intros Hin. pose proof (b64_alphabet s) as Ha. rewrite Forall_forall in Ha. by apply Ha in Hin.
  - eapply Forall_impl; [apply b64_alphabet|]. intros b. by destruct b.
Qed.

(** A generated identifier can stand in a cookie. *)
Lemma generate_id_octets s nanos count : Forall (fun b => cookie_octet b = true) (generate_id hmac b64_encode s nanos count).
Proof.
  unfold generate_id, sign_value, signature.
  change (§"." ++ ?x) with (dot :: x). rewrite rsplit_once_last by apply b64_plain. apply b64_plain.
Qed.

Lemma filter_id {A} (f : A -> bool) l : Forall (fun x => f x = true) l -> List.filter f l = l.
Proof. induction 1 as [|x l Hx _ IH]; cbn; [done|]. by rewrite Hx, IH. Qed.

Lemma octets_visible s : Forall (fun b => cookie_octet b = true) s -> forallb visible_ascii s = true.
Proof. intros Hs. apply forallb_true_Forall. eapply Forall_impl; [exact Hs|]. intros b. by destruct b. Qed.

Lemma sign_octets key id : Forall (fun b => cookie_octet b = true) id -> Forall (fun b => cookie_octet b = true) (sign key id).
Proof.
  intros Hid. unfold sign_value. apply Forall_app. split; [done|]. apply Forall_app. split; [by constructor; [|constructor]|apply b64_plain].
Qed.

Lemma session_cookie_pair s secure id : is_valid_cookie_name (cookie_name s) = true -> Forall (fun b => cookie_octet b = true) id ->
  let c := session_cookie s secure id true in
  cookie_built c /\ ck_name c = cookie_name s /\ ck_value c = sign (secret s) id.
Proof.
  intros Hn Hid. cbv zeta. split; [by repeat constructor|]. unfold Sessions.session_cookie. cbn. split.
  - apply filter_id. unfold is_valid_cookie_name in Hn. apply andb_true_iff in Hn as [_ Hn%forallb_true_Forall]. done.
  - apply filter_id. by apply sign_octets.
Qed.

Lemma visible_app a b : forallb visible_ascii a = true -> forallb visible_ascii b = true -> forallb visible_ascii (a ++ b) = true.
Proof. intros Ha Hb. by rewrite forallb_app, Ha, Hb. Qed.

Lemma session_cookie_visible s secure id : is_valid_cookie_name (cookie_name s) = true -> Forall (fun b => cookie_octet b = true) id ->
  header_value (to_header_value (session_cookie s secure id true)) = true.
Proof.
  intros Hn Hid. destruct (session_cookie_pair s secure id Hn Hid) as (_ & En & Ev). apply header_value_visible.
  rewrite to_header_value_attributes. apply visible_app.
  - unfold pair_text. rewrite En, Ev. apply visible_app; [|apply visible_app; [done|by apply octets_visible, sign_octets]].
    unfold is_valid_cookie_name in Hn. apply andb_true_iff in Hn as [_ Hn%forallb_true_Forall]. apply forallb_true_Forall.
    eapply Forall_impl; [exact Hn|]. intros b. by destruct b.
  - unfold attributes. cbn [ck_path ck_domain ck_max_age ck_http_only ck_same_site Sessions.session_cookie cookie_same_site cookie_http_only
      cookie_secure cookie_max_age_secs Cookie_new option_list option_rect map].
    rewrite !map_app, !concat_app.
    apply visible_app; [by destruct (is_host_prefixed (session_cookie s secure id true))|].
    apply visible_app; [by destruct (is_host_prefixed (session_cookie s secure id true))|].
    apply visible_app; [|apply visible_app; [by destruct (must_be_secure (session_cookie s secure id true))|by destruct (same_site s)]].
    cbn [map concat]. rewrite app_nil_r. apply (visible_app §"; Max-Age="); [done|].
    apply forallb_true_Forall. eapply Forall_impl; [apply dec_signed_digits|]. intros b [Hb| ->]; [|done]. revert Hb. by destruct b.
Qed.

(** The client's side: the pair before the first semicolon is sent back. *)
Definition presents (req : Request) (pair : str) : Prop :=
  headers_all req §"cookie" = [pair] /\ cookies req = parse_cookies pair.

(** Dropping a rotation record leaves every session as it was. *)
Lemma rotations_live st r now id : live_at (set_rotations st r) now id = live_at st now id.
Proof. done. Qed.
Lemma rotations_ok st r : store_ok st -> store_ok (set_rotations st r).
Proof. by intros [[] ? ?]. Qed.

(** What the end of the middleware does to a live session. *)
Lemma session_finish_alive s req id st r now : store_ok st ->
  let kept := default id (take_rotation st id).2 in
  is_Some (live_at st now kept) ->
  response_sets_root_host_cookie (ensure_private_cache_control r) (cookie_name s) (path req) = false ->
  (session_finish hmac b64_encode hash instant_max s req id st r now).2
  = response_set_cookie (ensure_private_cache_control r) (session_cookie s (must_secure s (secure_transport req)) kept true).
Proof.
  intros Hok kept Hl Hr. unfold session_finish. rewrite Hr. unfold take_rotation in *. cbn [snd] in kept. fold kept.
  destruct (resume_spec hash instant_max most most_ok (set_rotations st (delete id (rotations st))) kept (idle_timeout s) now
              (rotations_ok _ _ Hok)) as [_ E].
  destruct (resume _ _ _ _ _ _) as [st' alive]. cbn [snd] in E. subst alive. by rewrite rotations_live, bool_decide_eq_true_2.
Qed.

(** A request with the pair of a session cookie is admitted to the session. *)
Lemma session_admit_pair s secure id fresh st req now :
  is_valid_cookie_name (cookie_name s) = true -> Forall (fun b => cookie_octet b = true) id -> store_ok st ->
  presents req (pair_text (session_cookie s secure id true)) -> is_Some (live_at st now id) ->
  exists st' req', session_admit problem_json hmac b64_decode hash instant_max s fresh st req now = (st', Ok (req', id))
    /\ headers_all req' SESSION_ID_HEADER = [id]
    /\ session_at hash st' id = touched instant_max now (idle_timeout s) <$> live_at st now id.
Proof.
  intros Hn Hid Hok [Hh Hc] Hl. destruct (session_cookie_pair s secure id Hn Hid) as (Hb%built_ok & En & Ev).
  unfold session_admit. destruct (Nat.ltb_spec 1 (request_cookie_occurrences req (cookie_name s))) as [Hlt|_].
  { unfold request_cookie_occurrences in Hlt. rewrite Hh in Hlt. cbn [map concat] in Hlt.
    rewrite app_nil_r, split_on_plain in Hlt by (by apply attributes_clean). cbn in Hlt. case_match; cbn in Hlt; lia. }
  assert (cookie req (cookie_name s) = Some (sign (secret s) id)) as Hck.
  { unfold cookie. rewrite Hc, <- En, <- Ev. by apply pair_text_parses. }
  assert (verify_value hmac b64_decode (secret s) (sign (secret s) id) = Some id) as Hv.
  { unfold verify_value, sign_value, signature. change (§"." ++ ?x) with (dot :: x).
    rewrite rsplit_once_last by apply b64_plain. by rewrite b64_inverse, bool_decide_eq_true_2. }
  unfold session_for. rewrite Hck. cbn [mbind option_bind]. rewrite Hv.
  destruct (resume_spec hash instant_max most most_ok st id (idle_timeout s) now Hok) as [Hu E].
  destruct (resume _ _ _ _ _ _) as [st' alive]. cbn [fst snd] in *. subst alive. rewrite bool_decide_eq_true_2 by done.
  assert (exists req', set_header header_name header_value req SESSION_ID_HEADER id = Ok req') as [req' E].
  { unfold set_header. rewrite header_name_plain by (by vm_compute). rewrite header_value_visible by (by apply octets_visible). eauto. }
  rewrite E. exists st', req'. split; [done|]. split; [by apply (session_header_set req id)|]. by apply (up_at _ _ _ _ _ _ Hu).
Qed.

(** C15. The session cookie brings the session back: when the inner layers leave
    the session of a request alive (under its identifier, or the one it was
    regenerated to), and do not set that cookie themselves, the response gets
    one more Set-Cookie field, an HttpOnly one; and a client that presents the
    pair of that field on any later request, as long as the session is alive,
    has the inner layers called with the same identifier, hence sees the same data. *)
Theorem session_cookie_resumes s req id st r now :
  is_valid_cookie_name (cookie_name s) = true -> store_ok st ->
  let kept := default id (take_rotation st id).2 in
  Forall (fun b => cookie_octet b = true) kept -> is_Some (live_at st now kept) ->
  response_sets_root_host_cookie (ensure_private_cache_control r) (cookie_name s) (path req) = false ->
  exists field pair attributes,
    get_all (res_headers (session_finish hmac b64_encode hash instant_max s req id st r now).2) SET_COOKIE
      = get_all (res_headers r) SET_COOKIE ++ [field]
    /\ split_on semicolon field = pair :: attributes /\ §" HttpOnly" ∈ attributes
    /\ forall req2 st2 fresh now2 next now3, presents req2 pair -> store_ok st2 -> is_Some (live_at st2 now2 kept) ->
         exists st3 req3, session_middleware problem_json hmac b64_encode b64_decode hash instant_max s fresh st2 req2 now2 now3 next
           = (let '(st4, r2) := next req3 kept st3 in session_finish hmac b64_encode hash instant_max s req2 kept st4 r2 now3)
           /\ headers_all req3 SESSION_ID_HEADER = [kept] /\ (forall e, live_at st2 now2 kept = Some e -> session_at hash st3 kept = Some (touched instant_max now2 (idle_timeout s) e)).
Proof.
  intros Hn Hok kept Hid Hl Hr. pose (c := session_cookie s (must_secure s (secure_transport req)) kept true).
  destruct (session_cookie_pair s (must_secure s (secure_transport req)) kept Hn Hid) as (Hb%built_ok & _ & _).
  exists (to_header_value c), (pair_text c), (map (fun a => Byte.x20 :: a) (attributes c)). split_and!.
  - rewrite session_finish_alive by done. unfold SET_COOKIE. rewrite set_cookie_appends by (by apply session_cookie_visible).
    by rewrite (proj1 (proj2 (ensure_private_spec r))) by done.
  - by apply to_header_value_split.
  - apply list_elem_of_fmap. exists §"HttpOnly". split; [done|]. unfold attributes. rewrite !elem_of_app. right; right; right; right; left. by left.
  - intros req2 st2 fresh now2 next now3 Hp Hok2 Hl2.
    destruct (session_admit_pair s _ kept fresh st2 req2 now2 Hn Hid Hok2 Hp Hl2) as (st3 & req3 & E & Hh & Hs).
    exists st3, req3. unfold session_middleware. rewrite E. split_and!; [done|done|]. intros e He. by rewrite Hs, He.
Qed.
End resumes.

(** ** Concrete sessions *)

Module SessionsSample.
#[local] Existing Instances assoc_header_map reference_http_types.
Definition pj (_ _ : str) (_ : Z) (_ _ : str) : str := §"{}".
Definition handle : Sessions :=
  match try_new §"0123456789abcdef0123456789abcdef" with Ok s => s | Err _ => mkSessions [] [] SameLax false 0 0 0 0 0 0 end.
Definition request (pairs : list (str * str)) (cookies : Cookies) : Request :=
  mkRequest HTTP_11 §"GET" §"/" None ∅ (list_to_map pairs) cookies None 0 false pairs.
Definition fresh : str := §"fresh".

(** A client that made up an identifier, in a cookie and in the field. *)
Definition forged : Request :=
  request [(§"cookie", §"rustrest_session=alice.00"); (SESSION_ID_HEADER, §"alice")] {[ §"rustrest_session" := §"alice.00" ]}.
Definition admit_at (req : Request) :=
  session_admit (HM := AssocHeaders) pj CookieSample.mac CookieSample.hex_decode Demo.hash Demo.horizon handle fresh Demo.one req 50.

Lemma one_ok : store_ok Demo.hash Demo.max Demo.one.
Proof. apply (reachable_good Demo.hash Demo.horizon Demo.max Demo.limits Demo.max_ok Demo.limits_ok Demo.one Demo.reachable_one). Defined.

Lemma session_ids_trusted_witness :
  match (admit_at forged).2 with Ok (req', id) => headers_all req' SESSION_ID_HEADER = [fresh] /\ id = fresh | Err _ => False end.
Proof.
  destruct (session_ids_trusted (HM := AssocHeaders) pj CookieSample.mac CookieSample.hex_encode CookieSample.hex_decode
    Demo.hash Demo.horizon Demo.max Demo.max_ok handle fresh Demo.one forged 50 one_ok) as [Hs _].
  assert (E : match (admit_at forged).2 with Ok (_, id) => Some id | Err _ => None end = Some fresh) by (vm_compute; reflexivity).
  unfold admit_at in *. destruct (session_admit _ _ _ _ _ _ _ _ forged _) as [st [[req' id]|e]]; cbn [snd] in *; [|done]. injection E as ->. by destruct Hs as (_ & _ & ? & _).
Defined.

Lemma hex_alphabet s :
  Forall (fun b => is_ascii_alphanumeric b || existsb (fun c => bool_decide (c = b)) §"-_" = true) (CookieSample.hex_encode s).
Proof.
  induction s as [|b s IH]; [constructor|]. unfold CookieSample.hex_encode in *. cbn [map concat app].
  constructor; [by destruct b|]. constructor; [by destruct b|done].
Qed.

(** Alice's response, and her next request. *)
Definition answer : Response AssocHeaders := mkResponse 200 §"text/plain" hm_empty (Bytes §"ok") None None None false.
Definition alice_pair : str := §"rustrest_session=" ++ sign_value CookieSample.mac CookieSample.hex_encode (secret handle) §"alice".
Definition comes_back : Request := request [(§"cookie", alice_pair)] (parse_cookies alice_pair).

Abbreviation finish := (session_finish CookieSample.mac CookieSample.hex_encode Demo.hash Demo.horizon handle).
Definition echo (req : Request) (id : str) (st : SessionStore) : SessionStore * Response AssocHeaders := (st, mkResponse 200 §"text/plain" hm_empty (Bytes id) None None None false).


Definition alice_field : str := alice_pair ++ §"; Path=/; Max-Age=86400; HttpOnly; SameSite=Lax".
Lemma alice_answered : get_all (res_headers (finish (request [] ∅) §"alice" Demo.one answer 50).2) SET_COOKIE = [alice_field].
Proof. by vm_compute. Qed.
Lemma alice_split : split_on semicolon alice_field = [alice_pair; §" Path=/"; §" Max-Age=86400"; §" HttpOnly"; §" SameSite=Lax"].
Proof. by vm_compute. Qed.
Lemma alice_presents : presents comes_back alice_pair.
Proof. split; [by vm_compute|exact eq_refl]. Qed.
Lemma alice_kept : default §"alice" (take_rotation Demo.one §"alice").2 = §"alice".
Proof. by vm_compute. Qed.
Lemma alice_live now : (10 <= now < 110)%Z -> is_Some (live_at Demo.hash Demo.one now §"alice").
Proof.
  intros Hn. assert (E : expires_at <$> session_at Demo.hash Demo.one §"alice" = Some 110%Z) by (by vm_compute).
  unfold live_at. destruct (session_at _ _ _) as [e|]; [|done]. injection E as E. rewrite E.
  destruct (Z.leb_spec 110 now); [lia|eauto].
Qed.

Lemma session_cookie_resumes_witness :
  exists st3 req3,
    session_middleware pj CookieSample.mac CookieSample.hex_encode CookieSample.hex_decode Demo.hash Demo.horizon handle fresh
      Demo.one comes_back 60 60 echo
    = (let '(st4, r2) := echo req3 §"alice" st3 in finish comes_back §"alice" st4 r2 60)
    /\ headers_all req3 SESSION_ID_HEADER = [§"alice"].
Proof.
  destruct (session_cookie_resumes (HM := AssocHeaders) pj CookieSample.mac CookieSample.hex_encode CookieSample.hex_decode
    Demo.hash Demo.horizon Demo.max Demo.max_ok CookieSample.hex_inverse hex_alphabet handle (request [] ∅) §"alice" Demo.one answer 50)
    as (field & pair & attributes & Hf & Hs & _ & Hr); try rewrite alice_kept in *.
  - by vm_compute.
  - exact one_ok.
  - by repeat constructor.
  - apply alice_live. lia.
  - by vm_compute.
  - rewrite alice_answered in Hf. injection Hf as <-. rewrite alice_split in Hs. injection Hs as <- _.
    destruct (Hr comes_back Demo.one fresh 60%Z echo 60%Z alice_presents one_ok (alice_live 60 ltac:(lia))) as (st3 & req3 & E & Hh & _).
    exists st3, req3. by split.
Defined.
End SessionsSample.
