(* ===== verification/Sse.v ===== *)
(** * Server-sent events ([src/app/sse.rs])

    [SseEvent] with its builder and [try_format], and a reference reader of
    event streams (the line rules of the EventSource interface of the HTML
    standard). The theorem: a client reads back exactly the event that was
    formatted, so no data, identifier or event name can smuggle in another
    field or event. *)
From S2P Require Import Prelude Strs Percent Pattern Host.

Abbreviation CR := Byte.x0d.
Abbreviation LF := Byte.x0a.

Record SseEvent := mkSseEvent {
  sse_data : str;
  sse_event : option str;
  sse_id : option str;
  sse_retry : option Z;
  sse_comment : option str
}.

Definition SseEvent_new (data : str) : SseEvent := mkSseEvent data None None None None.
Definition SseEvent_comment (text : str) : SseEvent := mkSseEvent [] None None None (Some text).
Definition with_event (e : SseEvent) (event : str) : SseEvent :=
  mkSseEvent (sse_data e) (Some event) (sse_id e) (sse_retry e) (sse_comment e).
Definition with_id (e : SseEvent) (id : str) : SseEvent :=
  mkSseEvent (sse_data e) (sse_event e) (Some id) (sse_retry e) (sse_comment e).
Definition with_retry (e : SseEvent) (retry : Z) : SseEvent :=
  mkSseEvent (sse_data e) (sse_event e) (sse_id e) (Some retry) (sse_comment e).

Record SseError := mkSseError { sse_message : str }.
Definition invalid_field (field : str) : SseError :=
  mkSseError (§"El campo SSE " ++ field ++ §" no puede contener saltos de linea").

Definition validate_single_line (field value : str) : result unit SseError :=
  if contains CR value || contains LF value then Err (invalid_field field) else Ok tt.

(** The loop of [append_data_lines]; [line] is the text from [start] to [cursor]. *)
Definition data_line (line : str) : str := §"data: " ++ line ++ [LF].
Fixpoint append_data_lines (line data : str) : str :=
  match data with
  | [] => data_line line
  | b :: rest =>
      if bool_decide (b = CR) then
        match rest with
        | c :: rest' =>
            if bool_decide (c = LF) then data_line line ++ append_data_lines [] rest'
            else data_line line ++ append_data_lines [] rest
        | [] => data_line line ++ append_data_lines [] rest
        end
      else if bool_decide (b = LF) then data_line line ++ append_data_lines [] rest
      else append_data_lines (line ++ [b]) rest
  end.

Definition try_format (e : SseEvent) : result str SseError :=
  match sse_comment e with
  | Some comment =>
      let? _ := validate_single_line §"comment" comment in
      Ok (§": " ++ comment ++ [LF; LF])
  | None =>
      let? id := match sse_id e with
                 | Some id => let? _ := validate_single_line §"id" id in Ok (§"id: " ++ id ++ [LF])
                 | None => Ok []
                 end in
      let? event := match sse_event e with
                    | Some event => let? _ := validate_single_line §"event" event in Ok (§"event: " ++ event ++ [LF])
                    | None => Ok []
                    end in
      let retry := match sse_retry e with Some n => §"retry: " ++ to_dec n ++ [LF] | None => [] end in
      Ok (id ++ event ++ retry ++ append_data_lines [] (sse_data e) ++ [LF])
  end.

(** ** The reference reader *)

(** The lines of a text: CR LF, LF and CR each end a line. *)
Fixpoint logical_lines (line data : str) : list str :=
  match data with
  | [] => [line]
  | b :: rest =>
      if bool_decide (b = CR) then
        line :: match rest with
                | c :: rest' => if bool_decide (c = LF) then logical_lines [] rest' else logical_lines [] rest
                | [] => logical_lines [] rest
                end
      else if bool_decide (b = LF) then line :: logical_lines [] rest
      else logical_lines (line ++ [b]) rest
  end.

(** The buffers of the reader, and an event it dispatches. *)
Record Reader := mkReader { rd_data : list str; rd_event : option str; rd_id : option str; rd_retry : option Z }.
Definition fresh : Reader := mkReader [] None None None.

Definition field (r : Reader) (name value : str) : Reader :=
  if bool_decide (name = §"data") then mkReader (rd_data r ++ [value]) (rd_event r) (rd_id r) (rd_retry r)
  else if bool_decide (name = §"event") then mkReader (rd_data r) (Some value) (rd_id r) (rd_retry r)
  else if bool_decide (name = §"id") then
    if contains Byte.x00 value then r else mkReader (rd_data r) (rd_event r) (Some value) (rd_retry r)
  else if bool_decide (name = §"retry") then
    match (if forallb is_ascii_digit value then parse_u64 value else None) with Some n => mkReader (rd_data r) (rd_event r) (rd_id r) (Some n) | None => r end
  else r.

(** One line: an empty line dispatches, a leading colon is a comment, one
    space after the colon is dropped. *)
Definition read_line (st : Reader * list Reader) (line : str) : Reader * list Reader :=
  let '(r, out) := st in
  match line with
  | [] => (fresh, if bool_decide (rd_data r = []) then out else out ++ [r])
  | c :: _ =>
      if bool_decide (c = colon) then (r, out)
      else match split_once colon line with
           | Some (name, value) =>
               (field r name (match value with b :: v => if bool_decide (b = Byte.x20) then v else value | [] => [] end), out)
           | None => (field r line [], out)
           end
  end.

(** The dispatched events of a stream; an unterminated last line is not read. *)
Definition read_stream (text : str) : list Reader :=
  (foldl read_line (fresh, []) (removelast (logical_lines [] text))).2.

(** ** Lemmas *)

Definition single_line (s : str) : Prop := CR ∉ s /\ LF ∉ s.

(** The writer prints the logical lines, one per data field. *)
Lemma append_data_lines_spec data : forall line,
  append_data_lines line data = concat (map data_line (logical_lines line data)).
Proof.
  induction data as [data IH] using (induction_ltof1 _ (@length _)); unfold ltof in IH. intros line.
  destruct data as [|b rest]; cbn [append_data_lines logical_lines map concat]; [by rewrite app_nil_r|].
  case_bool_decide; [|case_bool_decide]; cbn [map concat].
  - destruct rest as [|c rest']; cbn [map concat].
    + by rewrite (IH []) by (cbn; lia).
    + case_bool_decide; by rewrite IH by (cbn; lia).
  - by rewrite (IH rest) by (cbn; lia).
  - by rewrite (IH rest) by (cbn; lia).
Qed.

Lemma logical_lines_single data : forall line, single_line line -> Forall single_line (logical_lines line data).
Proof.
  assert (single_line []) as Hnil by (split; apply not_elem_of_nil).
  induction data as [data IH] using (induction_ltof1 _ (@length _)); unfold ltof in IH. intros line Hl.
  destruct data as [|b rest]; cbn [logical_lines]; [by constructor; [|constructor]|].
  case_bool_decide; [constructor; [done|]|case_bool_decide; [constructor; [done|]|]].
  - destruct rest as [|c rest']; [apply IH; cbn; done || lia|]. case_bool_decide; apply IH; cbn; done || lia.
  - apply IH; cbn; done || lia.
  - apply IH; [cbn; lia|]. destruct Hl as [H1 H2]. split; rewrite not_elem_of_app, list_elem_of_singleton; auto.
Qed.

Lemma logical_lines_ne data : forall line, logical_lines line data <> [].
Proof.
  induction data as [data IH] using (induction_ltof1 _ (@length _)); unfold ltof in IH. intros line.
  destruct data as [|b rest]; cbn [logical_lines]; [done|]. case_bool_decide; [done|]. case_bool_decide; [done|].
  apply IH. cbn. lia.
Qed.

(** A line that ends with LF is read as one logical line. *)
Lemma logical_lines_cut s rest : single_line s -> forall line, logical_lines line (s ++ LF :: rest) = (line ++ s) :: logical_lines [] rest.
Proof.
  intros [Hc Hl]. induction s as [|b s IH]; intros line; cbn [app logical_lines].
  - by rewrite bool_decide_eq_false_2, bool_decide_eq_true_2, app_nil_r by done.
  - apply not_elem_of_cons in Hc as [? ?], Hl as [? ?].
    rewrite !bool_decide_eq_false_2 by congruence. rewrite IH by done. by rewrite <- app_assoc.
Qed.

Lemma logical_lines_blocks ls rest : Forall single_line ls ->
  logical_lines [] (concat (map (fun l => l ++ [LF]) ls) ++ rest) = ls ++ logical_lines [] rest.
Proof.
  induction 1 as [|l ls Hl _ IH]; cbn [map concat app]; [done|].
  rewrite <- !app_assoc. cbn [app]. rewrite logical_lines_cut by done. by rewrite IH.
Qed.

(** The lines of a formatted event, its closing empty line included. *)
Definition event_lines (e : SseEvent) : list str :=
  match sse_comment e with
  | Some c => [§": " ++ c; []]
  | None =>
      option_list ((fun id => §"id: " ++ id) <$> sse_id e) ++ option_list ((fun ev => §"event: " ++ ev) <$> sse_event e)
      ++ option_list ((fun n => §"retry: " ++ to_dec n) <$> sse_retry e)
      ++ map (fun l => §"data: " ++ l) (logical_lines [] (sse_data e)) ++ [[]]
  end.

(** What a reader should make of an event: nothing of a comment. *)
Definition readable_id (id : str) : option str := if contains Byte.x00 id then None else Some id.
Definition as_read (e : SseEvent) : list Reader :=
  match sse_comment e with
  | Some _ => []
  | None => [mkReader (logical_lines [] (sse_data e)) (sse_event e) (sse_id e ≫= readable_id) (sse_retry e)]
  end.

Notation lines_text ls := (concat (map (fun l => l ++ [LF]) ls)).

Definition u64_retry (e : SseEvent) : Prop := forall n, sse_retry e = Some n -> (0 <= n <= u64_max)%Z.

(** The fields that must be a single line are. *)
Definition well_formed (e : SseEvent) : Prop :=
  match sse_comment e with
  | Some c => single_line c
  | None => from_option single_line True (sse_id e) /\ from_option single_line True (sse_event e)
  end.

Lemma validate_single_line_cases name s :
  (validate_single_line name s = Ok tt /\ single_line s)
  \/ (validate_single_line name s = Err (invalid_field name) /\ ~ single_line s).
Proof.
  unfold validate_single_line, single_line. rewrite <- !contains_false.
  destruct (contains CR s) eqn:?, (contains LF s) eqn:?; cbn; naive_solver.
Qed.

Lemma data_lines_text ls : concat (map data_line ls) = lines_text (map (fun l => §"data: " ++ l) ls).
Proof. by rewrite map_map. Qed.

(** An optional field line. *)
Lemma optional_field (name prefix : str) o :
  let printed := match o with Some s => let? _ := validate_single_line name s in Ok (prefix ++ s ++ [LF]) | None => Ok [] end in
  (printed = Ok (lines_text (option_list ((fun s => prefix ++ s) <$> o))) /\ from_option single_line True o)
  \/ (printed = Err (invalid_field name) /\ ~ from_option single_line True o).
Proof.
  destruct o as [s|]; [|by left]. destruct (validate_single_line_cases name s) as [[-> ?]|[-> ?]]; cbn.
  - left. rewrite app_nil_r, <- app_assoc. done.
  - by right.
Qed.

(** [try_format] succeeds exactly on well-formed events, and prints their lines. *)
Lemma try_format_spec e :
  (try_format e = Ok (lines_text (event_lines e)) /\ well_formed e)
  \/ ((exists name, try_format e = Err (invalid_field name)) /\ ~ well_formed e).
Proof.
  unfold try_format, event_lines, well_formed. destruct (sse_comment e) as [c|].
  { destruct (validate_single_line_cases §"comment" c) as [[-> ?]|[-> ?]]; [left|right; eauto].
    split; [|done]. cbn [map concat app]. by rewrite <- !app_assoc. }
  destruct (optional_field §"id" §"id: " (sse_id e)) as [[-> Hi]|[-> Hi]]; [|right; split; [by eexists|by intros [? _]]].
  destruct (optional_field §"event" §"event: " (sse_event e)) as [[-> He]|[-> He]]; [|right; split; [by eexists|by intros [_ ?]]].
  left. split; [|done]. cbv beta iota. f_equal.
  rewrite append_data_lines_spec, data_lines_text, !map_app, !concat_app. do 2 f_equal.
  destruct (sse_retry e); cbn; [|done]. by rewrite app_nil_r, <- !app_assoc.
Qed.

Lemma event_lines_single e : well_formed e -> u64_retry e -> Forall single_line (event_lines e).
Proof.
  assert (single_line []) as Hnil by (split; apply not_elem_of_nil).
  assert (forall p s : str, single_line p -> single_line s -> single_line (p ++ s)) as Happ.
  { intros p s [? ?] [? ?]. split; by rewrite not_elem_of_app. }
  intros Hw Hr. unfold well_formed, u64_retry, event_lines in *. destruct (sse_comment e) as [c|].
  { constructor; [|by constructor]. apply Happ; [|done]. split; by apply contains_false. }
  destruct Hw as [Hi He]. rewrite !Forall_app. split_and!.
  - destruct (sse_id e); [|constructor]. constructor; [|constructor]. apply Happ; [|done]. split; by apply contains_false.
  - destruct (sse_event e); [|constructor]. constructor; [|constructor]. apply Happ; [|done]. split; by apply contains_false.
  - destruct (sse_retry e) as [n|]; [|constructor]. constructor; [|constructor]. specialize (Hr n eq_refl).
    apply Happ; [split; by apply contains_false|]. destruct (to_dec_spec n) as (_ & Hd & _); [lia|].
    rewrite Forall_forall in Hd. split; intros Hin; by apply Hd in Hin.
  - apply Forall_map. eapply Forall_impl; [apply (logical_lines_single _ [] Hnil)|]. intros l Hl.
    apply (Happ §"data: "); [split; by apply contains_false|done].
  - by constructor.
Qed.

(** The reader on the lines of one event. *)
Lemma read_field (name value : str) r out : name <> [] -> colon ∉ name ->
  read_line (r, out) (name ++ colon :: Byte.x20 :: value) = (field r name value, out).
Proof.
  intros Hn Hc. destruct name as [|c name]; [done|]. cbn [read_line app].
  apply not_elem_of_cons in Hc as [Hc Hc']. rewrite bool_decide_eq_false_2 by congruence.
  change (c :: name ++ colon :: Byte.x20 :: value) with ((c :: name) ++ colon :: Byte.x20 :: value).
  rewrite split_once_app by (by apply not_elem_of_cons). by rewrite bool_decide_eq_true_2.
Qed.

Lemma read_data ls : forall r out,
  foldl read_line (r, out) (map (fun l => §"data: " ++ l) ls)
  = (mkReader (rd_data r ++ ls) (rd_event r) (rd_id r) (rd_retry r), out).
Proof.
  induction ls as [|l ls IH]; intros r out; cbn [map foldl]; [by rewrite app_nil_r; destruct r|].
  change (§"data: " ++ l) with (§"data" ++ colon :: Byte.x20 :: l).
  rewrite read_field by (done || by apply contains_false). rewrite IH.
  change (field r §"data" l) with (mkReader (rd_data r ++ [l]) (rd_event r) (rd_id r) (rd_retry r)).
  cbn [rd_data rd_event rd_id rd_retry]. by rewrite <- app_assoc.
Qed.

(** An optional field changes the buffer or leaves it. *)
Lemma read_optional {A} (name : str) (print line : A -> str) (o : option A) r out :
  name <> [] -> colon ∉ name -> (forall v, line v = name ++ colon :: Byte.x20 :: print v) ->
  foldl read_line (r, out) (option_list (line <$> o))
  = (match o with Some v => field r name (print v) | None => r end, out).
Proof.
  intros Hn Hc Hl. destruct o as [v|]; [|done]. change (read_line (r, out) (line v) = (field r name (print v), out)).
  rewrite Hl. by apply read_field.
Qed.

Lemma read_event e out : u64_retry e ->
  foldl read_line (fresh, out) (event_lines e) = (fresh, out ++ as_read e).
Proof.
  intros Hr. unfold event_lines, as_read, u64_retry in *. destruct (sse_comment e) as [c|]; [by rewrite app_nil_r|].
  rewrite !foldl_app. rewrite (read_optional §"id" id) by (done || by apply contains_false).
  rewrite (read_optional §"event" id) by (done || by apply contains_false).
  rewrite (read_optional §"retry" to_dec) by (done || by apply contains_false).
  rewrite read_data. cbn [foldl read_line]. f_equal. rewrite bool_decide_eq_false_2.
  2:{ intros [_ Hl]%app_eq_nil. by apply logical_lines_ne in Hl. }
  do 2 f_equal. unfold readable_id.
  assert (forall n, sse_retry e = Some n -> forallb is_ascii_digit (to_dec n) = true /\ parse_u64 (to_dec n) = Some n) as Hp.
  { intros n Hn. specialize (Hr n Hn). destruct (to_dec_spec n) as (_ & Hd & _); [lia|].
    split; [by apply forallb_true_Forall|by apply parse_u64_to_dec]. }
  assert (forall r, match sse_retry e with Some n => field r §"retry" (to_dec n) | None => r end
    = mkReader (rd_data r) (rd_event r) (rd_id r) (match sse_retry e with Some n => Some n | None => rd_retry r end)) as ->.
  { intros r. destruct (sse_retry e) as [n|]; [|by destruct r]. destruct (Hp n eq_refl) as [E1 E2].
    unfold field. by rewrite E1, E2. }
  destruct (sse_id e) as [i|], (sse_event e), (sse_retry e); unfold field, id; cbn [mbind option_bind];
    try destruct (contains Byte.x00 i); done.
Qed.

(** A whole stream. *)
Lemma read_events es : forall out, Forall u64_retry es ->
  foldl read_line (fresh, out) (concat (map event_lines es)) = (fresh, out ++ concat (map as_read es)).
Proof.
  induction es as [|e es IH]; intros out; cbn [map concat]; [by rewrite app_nil_r|].
  intros [? ?]%Forall_cons. rewrite foldl_app, read_event, IH by done. by rewrite <- app_assoc.
Qed.

Lemma stream_text es texts : map try_format es = map Ok texts ->
  concat texts = lines_text (concat (map event_lines es)) /\ Forall well_formed es.
Proof.
  revert texts. induction es as [|e es IH]; intros [|t ts]; cbn [map concat]; [done..|].
  intros [= He Hes]. destruct (IH ts Hes) as [-> ?].
  destruct (try_format_spec e) as [[E ?]|[[? E] _]]; rewrite E in He; [|done]. injection He as <-.
  rewrite map_app, concat_app. split; [done|by constructor].
Qed.

(** C32. Server-sent events: [try_format] fails exactly when a comment, an
    identifier or an event name contains a line break, and a client that reads
    a stream of formatted events ([read_stream], the EventSource line rules)
    receives exactly those events, in order: the lines of the data (broken at
    CR LF, CR or LF), the event name, the identifier (dropped when it holds a
    NUL) and the retry time; comments produce nothing. No text can inject a
    field or an event. *)
Theorem sse_roundtrip (es : list SseEvent) (texts : list str) :
  (forall e, is_ok (try_format e) = true <-> well_formed e)
  /\ (Forall u64_retry es -> map try_format es = map Ok texts ->
      read_stream (concat texts) = concat (map as_read es)).
Proof.
  split.
  - intros e. destruct (try_format_spec e) as [[-> ?]|[[? ->] ?]]; by split.
  - intros Hr Ht. destruct (stream_text es texts Ht) as [-> Hw]. unfold read_stream.
    rewrite <- (app_nil_r (lines_text _)), logical_lines_blocks.
    + cbn [logical_lines]. rewrite removelast_last. by rewrite read_events.
    + apply Forall_concat, Forall_map. rewrite Forall_forall in *. intros e He. by apply event_lines_single; [apply Hw|apply Hr].
Qed.

Module SseSample.

Definition evil : SseEvent := with_retry (with_id (with_event (SseEvent_new (§"safe" ++ [CR] ++ §"id: injected" ++ [CR; LF])) §"tick") §"7") 3000.

Example evil_text : try_format evil
  = Ok (§"id: 7" ++ [LF] ++ §"event: tick" ++ [LF] ++ §"retry: 3000" ++ [LF] ++ §"data: safe" ++ [LF]
        ++ §"data: id: injected" ++ [LF] ++ §"data: " ++ [LF; LF]).
Proof. vm_compute. reflexivity. Qed.

Lemma sse_roundtrip_witness :
  read_stream (concat [§": ping" ++ [LF; LF];
      §"id: 7" ++ [LF] ++ §"event: tick" ++ [LF] ++ §"retry: 3000" ++ [LF] ++ §"data: safe" ++ [LF]
        ++ §"data: id: injected" ++ [LF] ++ §"data: " ++ [LF; LF]])
  = [mkReader [§"safe"; §"id: injected"; []] (Some §"tick") (Some §"7") (Some 3000%Z)].
Proof.
  apply (sse_roundtrip [SseEvent_comment §"ping"; evil] [_; _]); [|vm_compute; reflexivity].
  constructor; [|constructor; [|constructor]]; intros n [= <-]; unfold u64_max; lia.
Defined.

End SseSample.
