(* ===== verification/Body.v ===== *)
(** * Request bodies ([src/app/body.rs], the readers of [src/app/request.rs])

    A body is read once: [collect] buffers it under a limit and caches it,
    [take_stream] hands out a stream that is cut at the limit. The source of
    chunks (hyper or an application stream) is what it yields when it is polled.
    Proved: [collect] returns exactly the bytes of the source, or the error its
    first excess or failure asks for, and a stream handed out by [take_stream]
    shows its reader the same bytes or the same error. *)
From S2P Require Import Prelude Strs Percent Request Headers Response.

(** What a source yields; [Stalled]: it is never ready again. *)
Inductive Chunks := Ended | Stalled | Yields (chunk : result str BoxError) (rest : Chunks).

Record SizeHint := mkSizeHint { lower : Z; upper : option Z }.
Definition SizeHint_default : SizeHint := mkSizeHint 0 None.

(** [BodyIncoming] carries the hint of the transport. *)
Inductive BodyState :=
| BodyIncoming (hint : SizeHint) (body : Chunks)
| Buffered (bytes : str)
| BodyStream (stream : Chunks)
| Taken.

Record RequestBody := mkRequestBody { body_state : BodyState; default_limit : Z }.

Definition body_incoming (hint : SizeHint) (body : Chunks) (limit : Z) : RequestBody := mkRequestBody (BodyIncoming hint body) limit.
Definition body_buffered (bytes : str) (limit : Z) : RequestBody := mkRequestBody (Buffered bytes) limit.
(** The errors of the stream are boxed as [OtherSource] at the most. *)
Definition body_from_stream (stream : Chunks) (limit : Z) : RequestBody := mkRequestBody (BodyStream stream) limit.

Definition size_hint (b : RequestBody) : SizeHint :=
  match body_state b with
  | BodyIncoming hint _ => hint
  | Buffered bytes => mkSizeHint (Z.of_nat (length bytes)) (Some (Z.of_nat (length bytes)))
  | BodyStream _ | Taken => SizeHint_default
  end.
Definition body_buffered_len (b : RequestBody) : option Z :=
  match body_state b with Buffered bytes => Some (Z.of_nat (length bytes)) | _ => None end.
Definition set_default_limit (b : RequestBody) (limit : Z) : RequestBody := mkRequestBody (body_state b) limit.

(** [checked_add] on [usize], then [filter]. *)
Definition room (limit seen more : Z) : option Z :=
  if (seen + more <=? u64_max)%Z && (seen + more <=? limit)%Z then Some (seen + more)%Z else None.

Section body.
Context `{HeaderMap HM}.
Abbreviation HttpError := (Response.HttpError HM).

(** The state left behind and the stream, or the error. *)
Definition take_raw_stream (b : RequestBody) : RequestBody * result Chunks HttpError :=
  (mkRequestBody Taken (default_limit b),
   match body_state b with
   | BodyIncoming _ body => Ok body
   | Buffered bytes => Ok (Yields (Ok bytes) Ended)
   | BodyStream stream => Ok stream
   | Taken => Err body_already_consumed
   end).

(** The loop of [collect]; [None]: it never completes. *)
Fixpoint collect_loop (limit : Z) (output : str) (stream : Chunks) : option (result str HttpError) :=
  match stream with
  | Ended => Some (Ok output)
  | Stalled => None
  | Yields (Err e) _ => Some (Err (body_read e))
  | Yields (Ok chunk) rest =>
      match room limit (Z.of_nat (length output)) (Z.of_nat (length chunk)) with
      | Some _ => collect_loop limit (output ++ chunk) rest
      | None => Some (Err (payload_too_large_limit limit))
      end
  end.

Definition collect (b : RequestBody) (limit : Z) : RequestBody * option (result str HttpError) :=
  let limit := Z.min limit (default_limit b) in
  match body_state b with
  | Buffered bytes =>
      (b, Some (if (limit <? Z.of_nat (length bytes))%Z then Err (payload_too_large_limit limit) else Ok bytes))
  | _ =>
      let '(taken, stream) := take_raw_stream b in
      match stream with
      | Err e => (taken, Some (Err e))
      | Ok stream =>
          match collect_loop limit [] stream with
          | Some (Ok bytes) => (mkRequestBody (Buffered bytes) (default_limit b), Some (Ok bytes))
          | outcome => (taken, outcome)
          end
      end
  end.

Definition collect_default (b : RequestBody) : RequestBody * option (result str HttpError) := collect b (default_limit b).

(** [scan] with the bytes seen and whether the limit was reported. *)
Fixpoint limit_scan (limit seen : Z) (finished : bool) (stream : Chunks) : Chunks :=
  match stream with
  | Ended => Ended
  | Stalled => Stalled
  | Yields chunk rest =>
      if finished then Ended
      else match chunk with
           | Ok bytes =>
               match room limit seen (Z.of_nat (length bytes)) with
               | Some seen => Yields (Ok bytes) (limit_scan limit seen false rest)
               | None => Yields (Err (BodyLimitExceeded limit)) (limit_scan limit seen true rest)
               end
           | Err e => Yields (Err e) (limit_scan limit seen false rest)
           end
  end.
Definition limit_stream (stream : Chunks) (limit : Z) : Chunks := limit_scan limit 0 false stream.

Definition take_stream (b : RequestBody) : RequestBody * result Chunks HttpError :=
  let '(taken, stream) := take_raw_stream b in
  (taken, let? stream := stream in Ok (limit_stream stream (default_limit b))).

(** [Request::bytes] and [Request::text] on the body of a request. *)
Definition request_bytes (b : RequestBody) (body_limit : Z) : RequestBody * option (result str HttpError) :=
  collect b body_limit.
Definition invalid_utf8 : HttpError := HttpError_new 400 §"invalid_utf8" §"El cuerpo de la solicitud no es UTF-8 valido".
Definition request_text (b : RequestBody) (body_limit : Z) : RequestBody * option (result str HttpError) :=
  let '(b, outcome) := request_bytes b body_limit in
  (b, (fun r => let? bytes := r in if utf8_valid bytes then Ok bytes else Err (with_source invalid_utf8 OtherSource)) <$> outcome).
End body.

(** ** Properties *)

(** The bytes a source delivers before its [tail]: an end, a stall or an error. *)
Inductive flows : Chunks -> list str -> Chunks -> Prop :=
| flows_ended : flows Ended [] Ended
| flows_stalled : flows Stalled [] Stalled
| flows_failed e rest : flows (Yields (Err e) rest) [] (Yields (Err e) rest)
| flows_chunk c rest cs tail : flows rest cs tail -> flows (Yields (Ok c) rest) (c :: cs) tail.

Definition source (b : RequestBody) : option Chunks :=
  match body_state b with
  | BodyIncoming _ s | BodyStream s => Some s
  | Buffered bytes => Some (Yields (Ok bytes) Ended)
  | Taken => None
  end.

(** All that a stream delivers, read past its errors. *)
Fixpoint delivered (s : Chunks) : str :=
  match s with
  | Yields (Ok c) rest => c ++ delivered rest
  | Yields (Err _) rest => delivered rest
  | Ended | Stalled => []
  end.

Section exact.
Context `{HeaderMap HM}.
Abbreviation HttpError := (Response.HttpError HM).

(** What reading [cs] and then [tail] under the limit [L] comes to. *)
Definition verdict (L : Z) (cs : list str) (tail : Chunks) : option (result str HttpError) :=
  if (L <? Z.of_nat (length (concat cs)))%Z then Some (Err (payload_too_large_limit L))
  else match tail with
       | Ended => Some (Ok (concat cs))
       | Yields (Err e) _ => Some (Err (body_read e))
       | Stalled | Yields (Ok _) _ => None
       end.

(** A reader of a stream that stops at its first error. *)
Fixpoint consume (acc : str) (s : Chunks) : option (result str HttpError) :=
  match s with
  | Ended => Some (Ok acc)
  | Stalled => None
  | Yields (Err e) _ => Some (Err (body_read e))
  | Yields (Ok c) rest => consume (acc ++ c) rest
  end.

(** An outcome without the private source of its error. *)
Definition public (r : result str HttpError) : result str (Z * str * str * HM) :=
  match r with Ok p => Ok p | Err e => Err (err_status e, code e, public_message e, err_headers e) end.

Lemma flows_total s : exists cs tail, flows s cs tail.
Proof.
  induction s as [| |[c|e] rest (cs & tail & IH)]; [by eexists _, _; constructor..| |]; eexists _, _; constructor; eauto.
Qed.

Lemma room_spec limit seen more : (limit <= u64_max)%Z ->
  room limit seen more = if (limit <? seen + more)%Z then None else Some (seen + more)%Z.
Proof. intros. unfold room. destruct (Z.ltb_spec limit (seen + more)), (Z.leb_spec (seen + more) u64_max), (Z.leb_spec (seen + more) limit); cbn; done || lia. Qed.

Lemma verdict_excess (L : Z) (acc c : str) (cs : list str) tail :
  (L < Z.of_nat (length acc) + Z.of_nat (length c))%Z -> verdict L (acc :: c :: cs) tail = Some (Err (payload_too_large_limit L)).
Proof. intros. unfold verdict. cbn [concat]. rewrite !length_app. by rewrite (proj2 (Z.ltb_lt _ _)) by lia. Qed.

Lemma verdict_merge L acc c cs tail : verdict L ((acc ++ c) :: cs) tail = verdict L (acc :: c :: cs) tail.
Proof. unfold verdict. cbn [concat]. by rewrite <- app_assoc. Qed.

Lemma collect_loop_verdict L s cs tail : (L <= u64_max)%Z -> flows s cs tail -> forall acc,
  (Z.of_nat (length acc) <= L)%Z -> collect_loop L acc s = verdict L (acc :: cs) tail.
Proof.
  intros HL. induction 1 as [| | |c rest cs tail Hf IH]; intros acc Hacc; cbn [collect_loop].
  1-3: unfold verdict; cbn [concat]; rewrite app_nil_r; by rewrite (proj2 (Z.ltb_ge _ _)) by lia.
  rewrite room_spec by done. destruct (Z.ltb_spec L (Z.of_nat (length acc) + Z.of_nat (length c))).
  - by rewrite verdict_excess.
  - rewrite IH by (rewrite length_app; lia). apply verdict_merge.
Qed.

Lemma consume_limited L s cs tail : (L <= u64_max)%Z -> flows s cs tail -> forall acc,
  (Z.of_nat (length acc) <= L)%Z ->
  public <$> consume acc (limit_scan L (Z.of_nat (length acc)) false s) = public <$> verdict L (acc :: cs) tail.
Proof.
  intros HL. induction 1 as [| | |c rest cs tail Hf IH]; intros acc Hacc; cbn [limit_scan].
  1-3: unfold verdict; cbn [concat]; rewrite app_nil_r; by rewrite (proj2 (Z.ltb_ge _ _)) by lia.
  rewrite room_spec by done. destruct (Z.ltb_spec L (Z.of_nat (length acc) + Z.of_nat (length c))); cbn [consume].
  - by rewrite verdict_excess.
  - rewrite <- Nat2Z.inj_add, <- length_app. rewrite IH by (rewrite length_app; lia). by rewrite verdict_merge.
Qed.

Lemma limited_bound L s : (L <= u64_max)%Z -> forall seen finished,
  (0 <= seen <= L)%Z -> (seen + Z.of_nat (length (delivered (limit_scan L seen finished s))) <= L)%Z.
Proof.
  intros HL. induction s as [| |[c|e] rest IH]; intros seen finished Hs; cbn [limit_scan]; [cbn; lia..| |].
  - destruct finished; [cbn; lia|]. rewrite room_spec by done.
    destruct (Z.ltb_spec L (seen + Z.of_nat (length c))); cbn [delivered]; [by apply IH|].
    rewrite length_app. specialize (IH (seen + Z.of_nat (length c))%Z false). lia.
  - destruct finished; [cbn; lia|]. by apply IH.
Qed.

Lemma verdict_start L cs tail : verdict L ([] :: cs) tail = verdict L cs tail.
Proof. done. Qed.

Definition is_buffered (b : RequestBody) : bool := match body_state b with Buffered _ => true | _ => false end.

Lemma collect_unbuffered b limit s : is_buffered b = false -> source b = Some s ->
  collect b limit =
    (mkRequestBody (match collect_loop (HM := HM) (Z.min limit (default_limit b)) [] s with Some (Ok p) => Buffered p | _ => Taken end)
       (default_limit b),
     collect_loop (Z.min limit (default_limit b)) [] s).
Proof.
  unfold collect, source, is_buffered, take_raw_stream. destruct (body_state b) as [? ?| | |]; try done; intros _ [= <-];
    by destruct (collect_loop _ _ _) as [[]|].
Qed.

Lemma collect_outcome b limit s cs tail : (0 <= limit)%Z -> (0 <= default_limit b <= u64_max)%Z ->
  source b = Some s -> flows s cs tail -> (collect b limit).2 = verdict (Z.min limit (default_limit b)) cs tail.
Proof.
  intros Hl Hd Hs Hf. destruct (is_buffered b) eqn:Hb.
  - unfold source, is_buffered, collect in *. destruct (body_state b) as [|p| |]; try done. injection Hs as <-.
    inversion Hf as [| | |? ? ? ? Hend]; subst. inversion Hend; subst. unfold verdict. cbn [concat snd]. rewrite app_nil_r.
    by destruct (_ <? _)%Z.
  - rewrite (collect_unbuffered b limit s) by done. cbn [snd]. by rewrite (collect_loop_verdict _ s cs tail) by (done || cbn; lia).
Qed.

Lemma take_stream_source b s : source b = Some s ->
  take_stream (HM := HM) b = (mkRequestBody Taken (default_limit b), Ok (limit_stream s (default_limit b))).
Proof. unfold take_stream, take_raw_stream, source. destruct (body_state b); by intros [= <-]. Qed.

(** C33. Request bodies: for limits that fit in [usize], [collect] returns exactly
    the bytes of the body when it ends within the smaller of the two limits, a
    413 when the bytes before its end or first failure exceed it, the failure
    itself otherwise, and never completes only when the source stalls within
    the limit. A collected body is cached and collects again to the same bytes;
    any other outcome leaves an unbuffered body consumed, and a consumed body is
    an error. A reader of [take_stream] sees the outcome [collect_default] gives,
    and even past errors never more bytes than the limit. *)
Theorem body_read_exactly b limit :
  (0 <= limit)%Z -> (0 <= default_limit b <= u64_max)%Z ->
  match source b with
  | None =>
      collect b limit = (b, Some (Err (body_already_consumed (HM := HM)))) /\ take_stream b = (b, Err (body_already_consumed (HM := HM)))
  | Some s => forall cs tail, flows s cs tail ->
      let '(b', outcome) := collect b limit in
      outcome = verdict (Z.min limit (default_limit b)) cs tail
      /\ default_limit b' = default_limit b
      /\ body_state b' = match outcome, body_state b with
                         | _, Buffered p | Some (Ok p), _ => Buffered p
                         | _, _ => Taken
                         end
      /\ exists st, take_stream (HM := HM) b = (mkRequestBody Taken (default_limit b), Ok st)
           /\ public <$> consume [] st = public <$> (collect_default b).2
           /\ (Z.of_nat (length (delivered st)) <= default_limit b)%Z
  end.
Proof.
  intros Hl Hd. destruct (source b) as [s|] eqn:Hs.
  2:{ destruct b as [[] d]; done. }
  intros cs tail Hf. pose proof (collect_outcome b limit s cs tail Hl Hd Hs Hf) as Ho.
  destruct (collect b limit) as [b' outcome] eqn:Hc. cbn [snd] in Ho. split; [done|].
  split; [|split].
  1-2: destruct (is_buffered b) eqn:Hb.
  1,3: unfold collect, is_buffered in *; destruct (body_state b) eqn:E; try done; injection Hc as <- <-; rewrite ?E; by destruct (_ <? _)%Z.
  1,2: rewrite (collect_unbuffered b limit s) in Hc by done; injection Hc as <- <-; cbn; try done.
  1: unfold is_buffered in Hb; destruct (body_state b); try done; by destruct (collect_loop _ _ _) as [[]|].
  exists (limit_stream s (default_limit b)). split_and!; [by apply take_stream_source| |].
  - unfold collect_default. rewrite (collect_outcome b _ s cs tail) by (done || lia). rewrite Z.min_id.
    apply (consume_limited _ s cs tail (proj2 Hd) Hf []). cbn. lia.
  - pose proof (limited_bound (default_limit b) s (proj2 Hd) 0 false). unfold limit_stream. lia.
Qed.
End exact.

Module BodySample.
#[local] Existing Instance assoc_header_map.

Definition upload : RequestBody :=
  body_from_stream (Yields (Ok §"hello ") (Yields (Ok §"world") Ended)) 64.

Lemma body_read_exactly_witness :
  collect (HM := AssocHeaders) upload 11 = (mkRequestBody (Buffered §"hello world") 64, Some (Ok §"hello world"))
  /\ (collect upload 10).2 = Some (Err (payload_too_large_limit (HM := AssocHeaders) 10)).
Proof.
  assert (flows (Yields (Ok §"hello ") (Yields (Ok §"world") Ended)) [§"hello "; §"world"] Ended) as Hf by repeat constructor.
  pose proof (body_read_exactly (HM := AssocHeaders) upload 11 ltac:(lia) ltac:(cbn; unfold u64_max; lia) _ _ Hf) as H11.
  pose proof (body_read_exactly (HM := AssocHeaders) upload 10 ltac:(lia) ltac:(cbn; unfold u64_max; lia) _ _ Hf) as H10.
  split; [|exact (proj1 H10)].
  destruct (collect (HM := AssocHeaders) upload 11) as [[st d] o]. destruct H11 as (-> & Hd & Hst & _). cbn in Hd, Hst. by subst.
Defined.

End BodySample.
