(* ===== verification/Form.v ===== *)
(** * Multipart forms ([src/app/form.rs])

    The parser of [multipart/form-data] bodies: delimiters, part headers,
    parameterized header values, and the limits. Positions are offsets into the
    body, as in the code. [deserialize_form] is serde and is not modelled. *)
From S2P Require Import Prelude Strs Percent Request Headers Response Body.

Abbreviation CR := Byte.x0d.
Abbreviation LF := Byte.x0a.
Abbreviation SP := Byte.x20.
Abbreviation TAB := Byte.x09.
Abbreviation colon := Byte.x3a.
Abbreviation dquote := Byte.x22.
Abbreviation backslash := Byte.x5c.
Definition CRLF : str := [CR; LF].

Definition MAX_BOUNDARY_BYTES : nat := 70.

Record MultipartLimits := mkLimits {
  max_parts : Z;
  max_headers_per_part : Z;
  max_header_bytes : Z;
  max_part_bytes : Z
}.
Definition MultipartLimits_new : MultipartLimits := mkLimits 128 32 (16 * 1024) (8 * 1024 * 1024).
Definition limits_max_parts (l : MultipartLimits) (n : Z) : MultipartLimits :=
  mkLimits n (max_headers_per_part l) (max_header_bytes l) (max_part_bytes l).
Definition limits_max_headers_per_part (l : MultipartLimits) (n : Z) : MultipartLimits :=
  mkLimits (max_parts l) n (max_header_bytes l) (max_part_bytes l).
Definition limits_max_header_bytes (l : MultipartLimits) (n : Z) : MultipartLimits :=
  mkLimits (max_parts l) (max_headers_per_part l) n (max_part_bytes l).
Definition limits_max_part_bytes (l : MultipartLimits) (n : Z) : MultipartLimits :=
  mkLimits (max_parts l) (max_headers_per_part l) (max_header_bytes l) n.

Record MultipartPart := mkPart { name : str; filename : option str; part_content_type : option str; data : str }.

(** ** Bytes *)

(** [slice.get(a..b)]. *)
Definition get_range (body : str) (a b : nat) : option str :=
  if (a <=? b)%nat && (b <=? length body)%nat then Some (take (b - a) (drop a body)) else None.

(** The first window equal to the needle. *)
Fixpoint find_window (haystack needle : str) : option nat :=
  if starts_with needle haystack then Some 0
  else match haystack with [] => None | _ :: haystack => S <$> find_window haystack needle end.
Definition find (haystack needle : str) : option nat :=
  if bool_decide (needle = []) then Some 0 else find_window haystack needle.

Definition is_blank (b : byte) : bool := bool_decide (b = SP) || bool_decide (b = TAB).
(** How far a [while] over blanks moves the cursor, and what it leaves. *)
Fixpoint blanks (s : str) : nat :=
  match s with b :: s => if is_blank b then S (blanks s) else 0 | [] => 0 end.
Fixpoint skip_optional_whitespace (s : str) : str :=
  match s with b :: s' => if is_blank b then skip_optional_whitespace s' else s | [] => [] end.

(** [s.split("\r\n")]; [line] is what was read of the current piece. *)
Fixpoint split_crlf (line s : str) : list str :=
  match s with
  | [] => [line]
  | a :: s1 =>
      match s1 with
      | b :: s2 => if bool_decide (a = CR) && bool_decide (b = LF) then line :: split_crlf [] s2 else split_crlf (line ++ [a]) s1
      | [] => [line ++ [a]]
      end
  end.

(** The longest prefix whose bytes satisfy [p], and the rest. *)
Fixpoint span (p : byte -> bool) (s : str) : str * str :=
  match s with
  | b :: s' => if p b then let '(a, r) := span p s' in (b :: a, r) else ([], s)
  | [] => ([], [])
  end.

(** ** Parameterized values *)

Definition is_quoted_text_byte (b : byte) : bool :=
  bool_decide (b = TAB) || ((32 <=? bval b)%Z && negb (bval b =? 127)%Z).

(** The loop of a quoted string, after its opening quote: the decoded bytes and
    what follows the closing quote. *)
Fixpoint quoted_string (decoded s : str) : option (str * str) :=
  match s with
  | [] => None
  | b :: s1 =>
      if bool_decide (b = dquote) then Some (decoded, s1)
      else if bool_decide (b = backslash) then
        match s1 with
        | e :: s2 => if is_quoted_text_byte e then quoted_string (decoded ++ [e]) s2 else None
        | [] => None
        end
      else if is_quoted_text_byte b then quoted_string (decoded ++ [b]) s1
      else None
  end.

Definition parameter_value (rest : str) : option (str * str) :=
  match rest with
  | b :: rest1 =>
      if bool_decide (b = dquote) then
        match quoted_string [] rest1 with
        | None => None
        | Some (decoded, rest) => if utf8_valid decoded then Some (decoded, skip_optional_whitespace rest) else None
        end
      else
        let '(raw, rest) := span (fun b => negb (bool_decide (b = semicolon))) rest in
        let unquoted := trim raw in
        if bool_decide (unquoted = []) || negb (forallb is_token_byte unquoted) then None else Some (unquoted, rest)
  | [] => None
  end.

(** The loop over the parameters; [rest] starts with the semicolon. Every round
    drops it, so the length is fuel enough. *)
Fixpoint parameters_loop (fuel : nat) (rest : str) (parameters : list (str * str)) : option (list (str * str)) :=
  match rest, fuel with
  | [], _ => Some parameters
  | _, O => None
  | _ :: rest, S fuel =>
      match skip_optional_whitespace rest with
      | [] => Some parameters
      | rest =>
          let '(key, rest) := span is_token_byte rest in
          if bool_decide (key = []) then None
          else match skip_optional_whitespace rest with
               | b :: rest =>
                   if bool_decide (b = equals) then
                     match parameter_value (skip_optional_whitespace rest) with
                     | None => None
                     | Some (value, rest) =>
                         match rest with
                         | b :: _ =>
                             if bool_decide (b = semicolon)
                             then parameters_loop fuel rest (parameters ++ [(to_ascii_lowercase key, value)])
                             else None
                         | [] => parameters_loop fuel rest (parameters ++ [(to_ascii_lowercase key, value)])
                         end
                     end
                   else None
               | [] => None
               end
      end
  end.

Definition parse_parameterized_value (value : str) : option (str * list (str * str)) :=
  let '(base, rest) := span (fun b => negb (bool_decide (b = semicolon))) value in
  let base := trim base in
  if bool_decide (base = []) then None
  else pair base <$> parameters_loop (length rest) rest [].

Definition unique_parameter (params : list (str * str)) (key : str) : option str :=
  match List.filter (fun p : str * str => eq_ignore_ascii_case p.1 key) params with
  | [(_, value)] => Some value
  | _ => None
  end.

Definition is_valid_boundary (boundary : str) : bool :=
  negb (bool_decide (boundary = [])) && (length boundary <=? MAX_BOUNDARY_BYTES)%nat
  && forallb (fun b => is_ascii_alphanumeric b || existsb (fun c => bool_decide (c = b)) §"'()+_,-./:=? ") boundary
  && negb (bool_decide (last boundary = Some SP)).

(** The boundary of a content type. *)
Definition multipart_boundary (content_type : str) : option str :=
  match parse_parameterized_value content_type with
  | None => None
  | Some (kind, params) =>
      if negb (eq_ignore_ascii_case kind §"multipart/form-data") then None
      else match unique_parameter params §"boundary" with
           | Some boundary => if is_valid_boundary boundary then Some boundary else None
           | None => None
           end
  end.

(** ** Delimiters *)

Record Delimiter := mkDelimiter { closing : bool; next : nat }.

Definition parse_delimiter_line (body : str) (position : nat) (delimiter : str) : option Delimiter :=
  match get_range body position (position + length delimiter) with
  | None => None
  | Some text =>
      if negb (bool_decide (text = delimiter)) then None
      else
        let cursor := position + length delimiter in
        let closing := bool_decide (get_range body cursor (cursor + 2) = Some §"--") in
        let cursor := if closing then cursor + 2 else cursor in
        let cursor := cursor + blanks (drop cursor body) in
        if bool_decide (get_range body cursor (cursor + 2) = Some CRLF) then Some (mkDelimiter closing (cursor + 2))
        else if closing && (cursor =? length body)%nat then Some (mkDelimiter closing cursor)
        else None
  end.

Definition after_crlf (body : str) (position : nat) : bool :=
  (2 <=? position)%nat && bool_decide (get_range body (position - 2) position = Some CRLF).

(** The search of [find_initial_delimiter] and [find_next_delimiter], which
    differ in what they take as the start of a line; the offset grows in every
    round, so the length of the body is fuel enough. *)
Fixpoint delimiter_loop (line_start : nat -> bool) (fuel : nat) (body delimiter : str) (offset : nat) : option (nat * Delimiter) :=
  match fuel with
  | O => None
  | S fuel =>
      if (offset <=? length body - length delimiter)%nat then
        match find (drop offset body) delimiter with
        | None => None
        | Some relative =>
            let position := offset + relative in
            match (if line_start position then parse_delimiter_line body position delimiter else None) with
            | Some parsed => Some (position, parsed)
            | None => delimiter_loop line_start fuel body delimiter (position + 1)
            end
        end
      else None
  end.
Definition find_initial_delimiter (body delimiter : str) : option Delimiter :=
  snd <$> delimiter_loop (fun position => (position =? 0)%nat || after_crlf body position) (S (length body)) body delimiter 0.
Definition find_next_delimiter (body : str) (data_start : nat) (delimiter : str) : option (nat * Delimiter) :=
  delimiter_loop (after_crlf body) (S (length body)) body delimiter data_start.

(** ** Parts *)

(** A control character other than a tab. *)
Fixpoint has_field_control (s : str) : bool :=
  match s with
  | [] => false
  | a :: s1 =>
      (in_range 0 31 a && negb (bool_decide (a = TAB))) || (bval a =? 127)%Z
      || ((bval a =? 194)%Z && match s1 with b :: _ => in_range 128 159 b | [] => false end)
      || has_field_control s1
  end.

Section multipart.
Context `{HeaderMap HM}.
Abbreviation HttpError := (Response.HttpError HM).

Definition invalid_body : HttpError := bad_request_error §"Malformed multipart body".
Definition invalid_headers : HttpError := bad_request_error §"Malformed multipart headers".
Definition multipart_limit (message : str) : HttpError := payload_too_large message.

(** One header line; [(disposition, content_type)] so far. *)
Definition part_header (found : option str * option str) (line : str) : result (option str * option str) HttpError :=
  let '(disposition, content_type) := found in
  if match line with b :: _ => is_blank b | [] => false end then Err invalid_headers
  else match split_once colon line with
  | None => Err invalid_headers
  | Some (name, value) =>
      if bool_decide (name = []) || negb (forallb is_token_byte name) then Err invalid_headers
      else
        let value := trim value in
        if has_field_control value then Err invalid_headers
        else if eq_ignore_ascii_case name §"content-disposition" then
          if bool_decide (is_Some disposition) then Err invalid_headers else Ok (Some value, content_type)
        else if eq_ignore_ascii_case name §"content-type" then
          if bool_decide (value = []) || bool_decide (is_Some content_type) then Err invalid_headers
          else Ok (disposition, Some value)
        else Ok (disposition, content_type)
  end.

Fixpoint part_header_lines (max_headers count : Z) (found : option str * option str) (lines : list str)
  : result (option str * option str) HttpError :=
  match lines with
  | [] => Ok found
  | line :: lines =>
      let count := (count + 1)%Z in
      if (max_headers <? count)%Z then Err (multipart_limit §"Una parte multipart contiene demasiadas cabeceras")
      else let? found := part_header found line in part_header_lines max_headers count found lines
  end.

Definition parse_part_headers (raw_headers : str) (max_headers : Z) : result (str * option str * option str) HttpError :=
  if negb (utf8_valid raw_headers) then Err invalid_headers
  else
    let? found := part_header_lines max_headers 0 (None, None) (split_crlf [] raw_headers) in
    let '(disposition, content_type) := found in
    match disposition with
    | None => Err invalid_headers
    | Some disposition =>
        match parse_parameterized_value disposition with
        | None => Err invalid_headers
        | Some (kind, params) =>
            if negb (eq_ignore_ascii_case kind §"form-data") then Err invalid_headers
            else match unique_parameter params §"name" with
                 | None => Err invalid_headers
                 | Some name =>
                     if bool_decide (name = []) then Err invalid_headers
                     else Ok (name, unique_parameter params §"filename", content_type)
                 end
        end
    end.

(** The loop of [parse_multipart]; every round moves past a delimiter, so the
    length of the body is fuel enough. *)
Fixpoint parts_loop (fuel : nat) (body delimiter : str) (limits : MultipartLimits) (pos : nat) (parts : list MultipartPart)
  : option (result (list MultipartPart) HttpError) :=
  match fuel with
  | O => None
  | S fuel =>
      if (max_parts limits <=? Z.of_nat (length parts))%Z then Some (Err (multipart_limit §"Demasiadas partes multipart"))
      else match find (drop pos body) (CRLF ++ CRLF) with
      | None => Some (Err invalid_body)
      | Some relative_headers_end =>
          if (max_header_bytes limits <? Z.of_nat relative_headers_end)%Z then
            Some (Err (multipart_limit §"Las cabeceras de una parte multipart son demasiado grandes"))
          else
            let headers_end := pos + relative_headers_end in
            let data_start := headers_end + 4 in
            match find_next_delimiter body data_start delimiter with
            | None => Some (Err invalid_body)
            | Some (delimiter_start, following) =>
                if negb ((2 <=? delimiter_start)%nat && (data_start <=? delimiter_start - 2)%nat) then Some (Err invalid_body)
                else
                  let data_end := delimiter_start - 2 in
                  if (max_part_bytes limits <? Z.of_nat (data_end - data_start))%Z then
                    Some (Err (multipart_limit §"Una parte multipart es demasiado grande"))
                  else match parse_part_headers (take (headers_end - pos) (drop pos body)) (max_headers_per_part limits) with
                  | Err e => Some (Err e)
                  | Ok (name, filename, content_type) =>
                      let parts := parts ++ [mkPart name filename content_type (take (data_end - data_start) (drop data_start body))] in
                      if closing following then Some (Ok parts)
                      else parts_loop fuel body delimiter limits (next following) parts
                  end
            end
      end
  end.

Definition parse_multipart (body boundary : str) (limits : MultipartLimits) : option (result (list MultipartPart) HttpError) :=
  let delimiter := §"--" ++ boundary in
  match find_initial_delimiter body delimiter with
  | None => Some (Err invalid_body)
  | Some first => if closing first then Some (Ok []) else parts_loop (S (length body)) body delimiter limits (next first) []
  end.

(** [Request::multipart_with_limits]: the body left behind, and the outcome
    ([None]: the body never completes). *)
Definition multipart_with_limits (req : Request) (b : RequestBody) (limits : MultipartLimits)
  : RequestBody * option (result (list MultipartPart) HttpError) :=
  match request_singleton_header req §"content-type" with
  | Err _ => (b, Some (Err (duplicate_header §"content-type")))
  | Ok None => (b, Some (Err (bad_request_error §"Expected multipart/form-data")))
  | Ok (Some content_type) =>
      match multipart_boundary content_type with
      | None => (b, Some (Err (bad_request_error §"Missing multipart boundary")))
      | Some boundary =>
          let '(b, bytes) := request_bytes b (body_limit req) in
          (b, match bytes with
              | None => None
              | Some (Err e) => Some (Err e)
              | Some (Ok bytes) => parse_multipart bytes boundary limits
              end)
      end
  end.
Definition multipart (req : Request) (b : RequestBody) := multipart_with_limits req b MultipartLimits_new.
End multipart.

(** ** Searching *)

Lemma starts_with_app p s : starts_with p (p ++ s) = true.
Proof. apply starts_with_iff. eauto. Qed.

Lemma find_window_spec needle h :
  match find_window h needle with
  | Some i => starts_with needle (drop i h) = true /\ forall j, j < i -> starts_with needle (drop j h) = false
  | None => forall j, starts_with needle (drop j h) = false
  end.
Proof.
  induction h as [|b h IH]; cbn [find_window].
  - destruct (starts_with needle []) eqn:E; [|intros j; by rewrite drop_nil]. split; [done|lia].
  - destruct (starts_with needle (b :: h)) eqn:E; [split; [done|lia]|]. destruct (find_window h needle) as [i|]; cbn.
    + destruct IH as [Hi Hlt]. split; [done|]. intros [|j] Hj; [done|]. apply Hlt. lia.
    + intros [|j]; [done|]. apply IH.
Qed.

(** The first occurrence, when it is known. *)
Lemma find_first needle h i : needle <> [] -> starts_with needle (drop i h) = true ->
  (forall j, j < i -> starts_with needle (drop j h) = false) -> find h needle = Some i.
Proof.
  intros Hn Hi Hlt. unfold find. rewrite bool_decide_eq_false_2 by done. pose proof (find_window_spec needle h) as Hs.
  destruct (find_window h needle) as [k|]; [|by rewrite Hs in Hi]. destruct Hs as [Hk Hlt'].
  destruct (Nat.lt_trichotomy i k) as [?|[-> |?]]; [|done|].
  - by rewrite Hlt' in Hi.
  - by rewrite Hlt in Hk.
Qed.

Lemma get_range_Some body a b text : get_range body a b = Some text <->
  a <= b /\ b <= length body /\ text = take (b - a) (drop a body).
Proof.
  unfold get_range. destruct (Nat.leb_spec a b), (Nat.leb_spec b (length body)); cbn; naive_solver lia.
Qed.

(** A range of a body that is written as a concatenation. *)
Lemma get_range_app pre text rest :
  get_range (pre ++ text ++ rest) (length pre) (length pre + length text) = Some text.
Proof.
  apply get_range_Some. rewrite !length_app. split; [lia|]. split; [lia|].
  rewrite drop_app_length, Nat.add_comm, Nat.add_sub, take_app_length. done.
Qed.

Lemma get_range_starts body a text : get_range body a (a + length text) = Some text -> starts_with text (drop a body) = true.
Proof.
  intros (_ & _ & E)%get_range_Some. rewrite Nat.add_comm, Nat.add_sub in E. rewrite E at 1.
  apply starts_with_iff. exists (drop (length text) (drop a body)). by rewrite take_drop.
Qed.

(** A delimiter line: the text is there and the line ends in the body. *)
Lemma delimiter_line_starts body delimiter p d : parse_delimiter_line body p delimiter = Some d ->
  starts_with delimiter (drop p body) = true /\ p + length delimiter <= next d <= length body.
Proof.
  unfold parse_delimiter_line. destruct (get_range body p _) as [text|] eqn:Et; [|done]. destruct (negb _) eqn:En; [done|].
  apply negb_false_iff, bool_decide_eq_true in En. subst text. intros Hd. split; [by apply get_range_starts|].
  apply get_range_Some in Et as (_ & Hlen & _).
  cbv zeta in Hd. destruct (bool_decide (get_range body _ _ = Some §"--")); case_bool_decide as Hcr.
  1,3: injection Hd as <-; cbn [next]; apply get_range_Some in Hcr as (_ & ? & _); lia.
  all: destruct (_ && _) eqn:E; [|done]; apply andb_true_iff in E as [_ E%Nat.eqb_eq]; injection Hd as <-; cbn [next]; lia.
Qed.

(** A delimiter line at a position that starts a line. *)
Definition line_at (line_start : nat -> bool) (body delimiter : str) (p : nat) : option Delimiter :=
  if line_start p then parse_delimiter_line body p delimiter else None.

Lemma line_at_starts line_start body delimiter p d : line_at line_start body delimiter p = Some d ->
  starts_with delimiter (drop p body) = true /\ p + length delimiter <= next d <= length body.
Proof. unfold line_at. destruct (line_start p); [|done]. apply delimiter_line_starts. Qed.

(** The search finds the first delimiter line, and misses none. *)
Lemma delimiter_loop_spec line_start body delimiter : delimiter <> [] -> forall fuel offset, length body < offset + fuel ->
  match delimiter_loop line_start fuel body delimiter offset with
  | Some (p, d) => offset <= p /\ line_at line_start body delimiter p = Some d
                   /\ forall q, offset <= q < p -> line_at line_start body delimiter q = None
  | None => forall q, offset <= q -> line_at line_start body delimiter q = None
  end.
Proof.
  intros Hd. induction fuel as [|fuel IH]; intros offset Hfuel; cbn [delimiter_loop].
  { intros q Hq. destruct (line_at line_start body delimiter q) eqn:E; [|done]. apply line_at_starts in E. lia. }
  destruct (Nat.leb_spec offset (length body - length delimiter)).
  2:{ intros q Hq. destruct (line_at line_start body delimiter q) eqn:E; [|done]. apply line_at_starts in E. lia. }
  unfold find. rewrite bool_decide_eq_false_2 by done. pose proof (find_window_spec delimiter (drop offset body)) as Hw.
  assert (forall q, offset <= q -> starts_with delimiter (drop (q - offset) (drop offset body)) = false
    -> line_at line_start body delimiter q = None) as Hno.
  { intros q Hq. rewrite drop_drop, Nat.add_sub_assoc, Nat.add_comm, Nat.add_sub by done. intros Hs.
    destruct (line_at line_start body delimiter q) eqn:E; [|done]. apply line_at_starts in E as (E & _). by rewrite Hs in E. }
  destruct (find_window _ _) as [i|]; [|by intros q Hq; apply Hno].
  destruct Hw as [_ Hlt]. assert (forall q, offset <= q < offset + i -> line_at line_start body delimiter q = None) as Hbefore.
  { intros q Hq. apply Hno; [lia|]. apply Hlt. lia. }
  fold (line_at line_start body delimiter (offset + i)).
  destruct (line_at line_start body delimiter (offset + i)) as [d|] eqn:E; [by split_and!; [lia|..]|].
  specialize (IH (offset + i + 1) ltac:(lia)).
  assert (forall q, offset <= q -> q < offset + i + 1 -> line_at line_start body delimiter q = None) as Hupto.
  { intros q ? ?. destruct (decide (q = offset + i)) as [-> |]; [done|]. apply Hbefore. lia. }
  destruct (delimiter_loop _ _ _ _ _) as [[p d]|].
  - destruct IH as (? & ? & Hq). split_and!; [lia|done|]. intros q ?. destruct (decide (q < offset + i + 1)); [apply Hupto|apply Hq]; lia.
  - intros q ?. destruct (decide (q < offset + i + 1)); [apply Hupto|apply IH]; lia.
Qed.

Lemma find_next_first body start delimiter p d : delimiter <> [] -> start <= p ->
  line_at (after_crlf body) body delimiter p = Some d ->
  (forall q, start <= q < p -> line_at (after_crlf body) body delimiter q = None) ->
  find_next_delimiter body start delimiter = Some (p, d).
Proof.
  intros Hd Hp Hl Hbefore. unfold find_next_delimiter.
  pose proof (delimiter_loop_spec (after_crlf body) body delimiter Hd (S (length body)) start ltac:(lia)) as Hs.
  destruct (delimiter_loop _ _ _ _ _) as [[p' d']|]; [|by rewrite Hs in Hl].
  destruct Hs as (? & Hl' & Hq). destruct (Nat.lt_trichotomy p p') as [?|[-> |?]].
  - by rewrite Hq in Hl by lia.
  - congruence.
  - by rewrite Hbefore in Hl' by lia.
Qed.

(** ** Totality and limits *)

Section limits.
Context `{HeaderMap HM}.
Abbreviation HttpError := (Response.HttpError HM).

Definition fits (limits : MultipartLimits) (p : MultipartPart) : Prop :=
  name p <> [] /\ (Z.of_nat (length (data p)) <= max_part_bytes limits)%Z.
Definition within (limits : MultipartLimits) (ps : list MultipartPart) : Prop :=
  (Z.of_nat (length ps) <= max_parts limits)%Z /\ Forall (fits limits) ps.

Lemma parse_part_headers_named raw max n f c : parse_part_headers (HM := HM) raw max = Ok (n, f, c) -> n <> [].
Proof.
  unfold parse_part_headers. destruct (negb _); [done|]. destruct (part_header_lines _ _ _ _) as [[[d|] ct]|]; [|done..].
  destruct (parse_parameterized_value d) as [[kind params]|]; [|done]. destruct (negb _); [done|].
  destruct (unique_parameter params §"name") as [n'|]; [|done]. case_bool_decide; [done|]. by intros [= <- _ _].
Qed.

Lemma parts_loop_total body delimiter limits : delimiter <> [] -> forall fuel pos acc,
  pos <= length body < pos + fuel -> within limits acc ->
  exists r, parts_loop (HM := HM) fuel body delimiter limits pos acc = Some r /\ forall ps, r = Ok ps -> within limits ps.
Proof.
  intros Hd. induction fuel as [|fuel IH]; intros pos acc Hfuel [Hcount Hall]; cbn [parts_loop]; [lia|].
  destruct (Z.leb_spec (max_parts limits) (Z.of_nat (length acc))); [by eexists|].
  destruct (find _ _) as [rel|]; [|by eexists]. destruct (_ <? _)%Z; [by eexists|].
  pose proof (delimiter_loop_spec (after_crlf body) body delimiter Hd (S (length body)) (pos + rel + 4) ltac:(lia)) as Hs.
  unfold find_next_delimiter. destruct (delimiter_loop _ _ _ _ _) as [[p d]|]; [|by eexists].
  destruct Hs as (Hp & Hl & _). apply line_at_starts in Hl as [_ Hnext].
  destruct (negb _); [by eexists|]. destruct (Z.ltb_spec (max_part_bytes limits) (Z.of_nat (p - 2 - (pos + rel + 4)))); [by eexists|].
  destruct (parse_part_headers _ _) as [[[n f] c]|e] eqn:Eh; [|by eexists]. apply parse_part_headers_named in Eh.
  assert (within limits (acc ++ [mkPart n f c (take (p - 2 - (pos + rel + 4)) (drop (pos + rel + 4) body))])) as Hw.
  { split; [rewrite length_app; cbn; lia|]. apply Forall_app. split; [done|]. constructor; [|constructor].
    split; [done|]. cbn. rewrite length_take. lia. }
  destruct (closing d); [eexists; split; [done|]; by intros ? [= <-]|]. apply IH; [lia|done].
Qed.

Lemma parse_multipart_total body boundary limits : (0 <= max_parts limits)%Z ->
  exists r, parse_multipart (HM := HM) body boundary limits = Some r /\ forall ps, r = Ok ps -> within limits ps.
Proof.
  intros Hmax. unfold parse_multipart, find_initial_delimiter.
  pose proof (delimiter_loop_spec (fun position => (position =? 0)%nat || after_crlf body position) body (§"--" ++ boundary)
                ltac:(done) (S (length body)) 0 ltac:(lia)) as Hs.
  destruct (delimiter_loop _ _ _ _ _) as [[p d]|]; cbn [fmap option_fmap option_map snd]; [|by eexists].
  destruct Hs as (_ & Hl & _). apply line_at_starts in Hl as [_ Hnext].
  assert (within limits []) as Hw by (split; [done|constructor]).
  destruct (closing d); [eexists; split; [done|]; by intros ? [= <-]|]. apply parts_loop_total; [done|lia|done].
Qed.
End limits.

(** ** Texts *)

(** Induction along the characters of valid UTF-8; the bytes of a longer
    character are not ASCII. *)
Lemma utf8_ind (P : str -> Prop) :
  P [] ->
  (forall a s, in_range 0 127 a = true -> utf8_valid s = true -> P s -> P (a :: s)) ->
  (forall a b s, in_range 194 223 a = true -> utf8_cont b = true -> utf8_valid s = true -> P s -> P (a :: b :: s)) ->
  (forall a b c s, utf8_lead3 a b = true -> utf8_cont c = true -> utf8_valid s = true -> P s -> P (a :: b :: c :: s)) ->
  (forall a b c d s, utf8_lead4 a b = true -> utf8_cont c = true -> utf8_cont d = true -> utf8_valid s = true -> P s
     -> P (a :: b :: c :: d :: s)) ->
  forall s, utf8_valid s = true -> P s.
Proof.
  intros H0 H1 H2 H3 H4 s. induction s as [s IH] using (induction_ltof1 _ (@length _)); unfold ltof in IH.
  destruct s as [|a s1]; [done|]. cbn [utf8_valid]. destruct (in_range 0 127 a) eqn:E1.
  { intros Hv. apply H1; [done..|]. apply IH; [cbn; lia|done]. }
  destruct s1 as [|b s2]; [done|]. destruct (in_range 194 223 a) eqn:E2.
  { intros [? ?]%andb_true_iff. apply H2; [done..|]. apply IH; [cbn; lia|done]. }
  destruct s2 as [|c s3]; [done|]. destruct (utf8_lead3 a b) eqn:E3.
  { intros [? ?]%andb_true_iff. apply H3; [done..|]. apply IH; [cbn; lia|done]. }
  destruct s3 as [|d s4]; [done|]. intros [[[? ?]%andb_true_iff ?]%andb_true_iff ?]%andb_true_iff.
  apply H4; [done..|]. apply IH; [cbn; lia|done].
Qed.

(** The bytes of the longer characters, and how they read. *)
Lemma lead2_bytes a : in_range 194 223 a = true -> (194 <= bval a <= 223)%Z.
Proof. unfold in_range. lia. Qed.
Lemma cont_bytes b : utf8_cont b = true -> (128 <= bval b <= 191)%Z.
Proof. unfold utf8_cont, in_range. lia. Qed.
Lemma lead3_bytes a b : utf8_lead3 a b = true -> (224 <= bval a <= 239 /\ 128 <= bval b <= 191)%Z.
Proof. unfold utf8_lead3, utf8_cont, in_range. lia. Qed.
Lemma lead4_bytes a b : utf8_lead4 a b = true -> (240 <= bval a <= 244 /\ 128 <= bval b <= 191)%Z.
Proof. unfold utf8_lead4, utf8_cont, in_range. lia. Qed.

Lemma utf8_valid_app s t : utf8_valid s = true -> utf8_valid t = true -> utf8_valid (s ++ t) = true.
Proof.
  intros Hs Ht. revert s Hs. apply utf8_ind; cbn [app utf8_valid]; [done|..].
  - intros a s -> _ IH. done.
  - intros a b s Ha Hb _ IH. pose proof (lead2_bytes a Ha). replace (in_range 0 127 a) with false by (unfold in_range; lia).
    by rewrite Ha, Hb, IH.
  - intros a b c s Ha Hc _ IH. pose proof (lead3_bytes a b Ha). replace (in_range 0 127 a) with false by (unfold in_range; lia).
    replace (in_range 194 223 a) with false by (unfold in_range; lia). by rewrite Ha, Hc, IH.
  - intros a b c d s Ha Hc Hd _ IH. pose proof (lead4_bytes a b Ha). replace (in_range 0 127 a) with false by (unfold in_range; lia).
    replace (in_range 194 223 a) with false by (unfold in_range; lia).
    replace (utf8_lead3 a b) with false by (unfold utf8_lead3, utf8_cont, in_range; lia). by rewrite Ha, Hc, Hd, IH.
Qed.

(** A text that can stand in a header value: valid UTF-8 and no control character but tabs. *)
Definition text_ok (s : str) : Prop := utf8_valid s = true /\ has_field_control s = false.

Lemma field_control_ascii a s : (bval a <= 127)%Z ->
  has_field_control (a :: s) = has_field_control [a] || has_field_control s.
Proof. intros. cbn [has_field_control]. replace (bval a =? 194)%Z with false by lia. cbn. by rewrite !orb_false_r. Qed.
Lemma field_control_high a s : (128 <= bval a)%Z -> bval a <> 194%Z -> has_field_control (a :: s) = has_field_control s.
Proof.
  intros. cbn [has_field_control]. replace (bval a =? 194)%Z with false by lia. replace (bval a =? 127)%Z with false by lia.
  replace (in_range 0 31 a) with false by (unfold in_range; lia). done.
Qed.
Lemma field_control_two a b s : (128 <= bval a)%Z -> (128 <= bval b <= 191)%Z ->
  has_field_control (a :: b :: s) = has_field_control [a; b] || has_field_control s.
Proof.
  intros. destruct (Z.eq_dec (bval a) 194%Z) as [E|].
  - cbn [has_field_control]. rewrite E. replace (in_range 0 31 a) with false by (unfold in_range; lia).
    replace (in_range 0 31 b) with false by (unfold in_range; lia).
    replace (bval b =? 127)%Z with false by lia. replace (bval b =? 194)%Z with false by lia. cbn. by rewrite !orb_false_r.
  - rewrite !field_control_high by lia. done.
Qed.

Lemma field_control_app s t : utf8_valid s = true -> has_field_control (s ++ t) = has_field_control s || has_field_control t.
Proof.
  revert s. apply utf8_ind; cbn [app]; [done|..].
  - intros a s Ha _ IH. assert (bval a <= 127)%Z by (unfold in_range in Ha; lia).
    rewrite (field_control_ascii a (s ++ t)), (field_control_ascii a s), IH by done. by rewrite orb_assoc.
  - intros a b s Ha%lead2_bytes Hb%cont_bytes _ IH.
    rewrite (field_control_two a b (s ++ t)), (field_control_two a b s), IH by lia. by rewrite orb_assoc.
  - intros a b c s Ha%lead3_bytes Hc%cont_bytes _ IH. rewrite !field_control_high by lia. done.
  - intros a b c d s Ha%lead4_bytes Hc%cont_bytes Hd%cont_bytes _ IH. rewrite !field_control_high by lia. done.
Qed.

Lemma text_app s t : text_ok s -> text_ok t -> text_ok (s ++ t).
Proof.
  intros [Hs Cs] [Ht Ct]. split; [by apply utf8_valid_app|]. by rewrite field_control_app, Cs, Ct.
Qed.

(** Quoted strings, as a sender writes them. *)
Definition escape_byte (b : byte) : str := if bool_decide (b = dquote) || bool_decide (b = backslash) then [backslash; b] else [b].
Definition escape (s : str) : str := concat (map escape_byte s).
Definition quote (s : str) : str := dquote :: escape s ++ [dquote].

Lemma escape_high b : (128 <= bval b)%Z -> escape_byte b = [b].
Proof. intros. unfold escape_byte. rewrite !bool_decide_eq_false_2; [done|intros ->; vm_compute in H; by apply H..]. Qed.

Lemma escape_text s : text_ok s -> text_ok (escape s).
Proof.
  intros [Hu Hc]. cut (utf8_valid (escape s) = true /\ has_field_control (escape s) = has_field_control s).
  { intros [? E]. split; [done|]. by rewrite E. }
  clear Hc. revert s Hu. apply utf8_ind; unfold escape; cbn [map concat]; [done|..].
  - intros a s Ha _ [IH1 IH2]. assert (bval a <= 127)%Z by (unfold in_range in Ha; lia).
    unfold escape_byte at 1 3. destruct (_ || _); cbn [app utf8_valid]; rewrite ?Ha, IH1.
    + split; [done|]. rewrite (field_control_ascii backslash) by (vm_compute; discriminate).
      rewrite (field_control_ascii a (concat _)), (field_control_ascii a s), IH2 by done. done.
    + split; [done|]. by rewrite (field_control_ascii a (concat _)), (field_control_ascii a s), IH2 by done.
  - intros a b s Ha Hb Hs [IH1 IH2]. pose proof (lead2_bytes a Ha). pose proof (cont_bytes b Hb).
    rewrite !escape_high by lia. cbn [app]. split.
    + by apply (utf8_valid_app [a; b]); [cbn; rewrite Ha, Hb; replace (in_range 0 127 a) with false by (unfold in_range; lia)|].
    + rewrite (field_control_two a b (concat _)), (field_control_two a b s), IH2 by lia. done.
  - intros a b c s Ha Hc Hs [IH1 IH2]. pose proof (lead3_bytes a b Ha). pose proof (cont_bytes c Hc).
    rewrite !escape_high by lia. cbn [app]. split.
    + apply (utf8_valid_app [a; b; c]); [|done]. cbn. replace (in_range 0 127 a) with false by (unfold in_range; lia).
      replace (in_range 194 223 a) with false by (unfold in_range; lia). by rewrite Ha, Hc.
    + by rewrite !field_control_high by lia.
  - intros a b c d s Ha Hc Hd Hs [IH1 IH2]. pose proof (lead4_bytes a b Ha). pose proof (cont_bytes c Hc). pose proof (cont_bytes d Hd).
    rewrite !escape_high by lia. cbn [app]. split.
    + apply (utf8_valid_app [a; b; c; d]); [|done]. cbn. replace (in_range 0 127 a) with false by (unfold in_range; lia).
      replace (in_range 194 223 a) with false by (unfold in_range; lia).
      replace (utf8_lead3 a b) with false by (unfold utf8_lead3, utf8_cont, in_range; lia). by rewrite Ha, Hc, Hd.
    + by rewrite !field_control_high by lia.
Qed.

Lemma text_bytes s : has_field_control s = false -> Forall (fun b => is_quoted_text_byte b = true) s.
Proof.
  induction s as [|b s IH]; cbn [has_field_control]; [by constructor|].
  rewrite !orb_false_iff. intros [[[Hc Hd] _] Hs]. constructor; [|by apply IH].
  unfold is_quoted_text_byte. case_bool_decide; [done|]. cbn in Hc |- *. rewrite andb_true_r in Hc.
  pose proof (bval_range b). unfold in_range in Hc. lia.
Qed.

Lemma quoted_string_escape s rest : Forall (fun b => is_quoted_text_byte b = true) s -> forall acc,
  quoted_string acc (escape s ++ dquote :: rest) = Some (acc ++ s, rest).
Proof.
  induction 1 as [|b s Hb _ IH]; intros acc; unfold escape; cbn [map concat app quoted_string]; [by rewrite app_nil_r|].
  rewrite <- app_assoc. fold (escape s). unfold escape_byte. destruct (bool_decide (b = dquote)) eqn:E1; cbn [orb].
  - apply bool_decide_eq_true in E1 as ->. cbn [app quoted_string]. rewrite bool_decide_eq_false_2, bool_decide_eq_true_2, Hb by done.
    rewrite IH. by rewrite <- app_assoc.
  - destruct (bool_decide (b = backslash)) eqn:E2; cbn [app quoted_string].
    + apply bool_decide_eq_true in E2 as ->. rewrite bool_decide_eq_false_2, bool_decide_eq_true_2, Hb by done.
      rewrite IH. by rewrite <- app_assoc.
    + rewrite E1, E2, Hb, IH. by rewrite <- app_assoc.
Qed.

(** ** Parameters *)

Lemma skip_ows_id b s : is_blank b = false -> skip_optional_whitespace (b :: s) = b :: s.
Proof. intros Hb. cbn. by rewrite Hb. Qed.

Lemma span_app p a b s : Forall (fun c => p c = true) a -> p b = false -> span p (a ++ b :: s) = (a, b :: s).
Proof. intros Ha Hb. induction Ha as [|c a Hc _ IH]; cbn; [by rewrite Hb|]. by rewrite Hc, IH. Qed.
Lemma span_all p a : Forall (fun c => p c = true) a -> span p a = (a, []).
Proof. induction 1 as [|c a Hc _ IH]; cbn; [done|]. by rewrite Hc, IH. Qed.

Lemma token_not_blank b : is_token_byte b = true -> is_blank b = false.
Proof. by destruct b. Qed.

Definition params_text (ps : list (str * str)) : str :=
  concat (map (fun p : str * str => §"; " ++ p.1 ++ §"=" ++ quote p.2) ps).
Definition param_ok (p : str * str) : Prop :=
  p.1 <> [] /\ Forall (fun b => is_token_byte b = true) p.1 /\ to_ascii_lowercase p.1 = p.1 /\ text_ok p.2.

Lemma parameter_value_quote s rest : text_ok s -> parameter_value (quote s ++ rest) = Some (s, skip_optional_whitespace rest).
Proof.
  intros [Hu Hc]. unfold quote. cbn [app parameter_value]. rewrite <- app_assoc. cbn [app].
  rewrite bool_decide_eq_true_2 by done. rewrite (quoted_string_escape s rest (text_bytes s Hc) []). cbn [app]. by rewrite Hu.
Qed.

Lemma params_text_start ps : params_text ps = [] \/ exists s, params_text ps = semicolon :: s.
Proof. destruct ps as [|p ps]; [by left|]. right. unfold params_text. cbn [map concat]. by eexists. Qed.

Lemma parameters_loop_text ps : Forall param_ok ps -> forall fuel acc, length ps <= fuel ->
  parameters_loop fuel (params_text ps) acc = Some (acc ++ ps).
Proof.
  induction 1 as [|[k v] ps (Hk & Ht & Hl & Hv) _ IH]; intros fuel acc Hfuel; cbn [length] in Hfuel.
  { rewrite app_nil_r. by destruct fuel. }
  destruct fuel as [|fuel]; [lia|]. cbn [fst snd] in *.
  assert (params_text ((k, v) :: ps) = semicolon :: SP :: k ++ equals :: quote v ++ params_text ps) as ->.
  { unfold params_text at 1. cbn [map concat fst snd app]. fold (params_text ps). rewrite <- !app_assoc. done. }
  destruct k as [|c k]; [done|]. pose proof Ht as [Hc _]%Forall_cons.
  cbn [parameters_loop]. change (skip_optional_whitespace (SP :: ?x)) with (skip_optional_whitespace x).
  cbn [app]. rewrite skip_ows_id by (by apply token_not_blank).
  change (c :: k ++ equals :: quote v ++ params_text ps) with ((c :: k) ++ equals :: quote v ++ params_text ps).
  rewrite span_app by done. cbv beta iota. rewrite bool_decide_eq_false_2 by done. rewrite skip_ows_id by done. cbv beta iota.
  rewrite bool_decide_eq_true_2 by done. unfold quote at 1. cbn [app]. rewrite skip_ows_id by done.
  change (dquote :: (escape v ++ [dquote]) ++ params_text ps) with (quote v ++ params_text ps).
  rewrite parameter_value_quote, Hl by done.
  replace (acc ++ (c :: k, v) :: ps) with ((acc ++ [(c :: k, v)]) ++ ps) by (by rewrite <- app_assoc).
  specialize (IH fuel (acc ++ [(c :: k, v)]) ltac:(lia)).
  destruct (params_text_start ps) as [E|[s E]]; rewrite E in *; [done|]. rewrite skip_ows_id by done. cbv beta iota.
  by rewrite bool_decide_eq_true_2 by done.
Qed.

(** A value written with quoted parameters reads back. *)
Lemma parse_parameterized_text base ps : base <> [] -> semicolon ∉ base -> trimmed base -> Forall param_ok ps ->
  parse_parameterized_value (base ++ params_text ps) = Some (base, ps).
Proof.
  intros Hb Hs Ht Hp. unfold parse_parameterized_value.
  assert (span (fun b => negb (bool_decide (b = semicolon))) (base ++ params_text ps) = (base, params_text ps)) as ->.
  { assert (Forall (fun b => negb (bool_decide (b = semicolon)) = true) base) as Hf.
    { apply Forall_forall. intros b Hin. apply negb_true_iff, bool_decide_eq_false. by intros ->. }
    destruct (params_text_start ps) as [-> |[s ->]]; [rewrite app_nil_r; by apply span_all|by apply span_app]. }
  rewrite trim_id by done. rewrite bool_decide_eq_false_2 by done. rewrite parameters_loop_text; [done..|].
  clear. unfold params_text. induction ps as [|p ps IH]; cbn [map concat length]; [done|]. rewrite length_app.
  assert (1 <= length (§"; " ++ p.1 ++ §"=" ++ quote p.2)) by (cbn; lia). lia.
Qed.

(** ** Lines *)

Lemma text_no_CR s : text_ok s -> CR ∉ s.
Proof. intros [_ Hc] Hin. pose proof (text_bytes s Hc) as Hf. rewrite Forall_forall in Hf. by apply Hf in Hin. Qed.

Lemma split_crlf_line l rest : CR ∉ l -> forall acc, split_crlf acc (l ++ CR :: LF :: rest) = (acc ++ l) :: split_crlf [] rest.
Proof.
  induction l as [|b l IH]; intros Hc acc; [by cbn; rewrite app_nil_r|]. apply not_elem_of_cons in Hc as [Hb Hc].
  cbn [app split_crlf]. destruct (l ++ CR :: LF :: rest) as [|c t] eqn:E; [by destruct l|].
  rewrite (bool_decide_eq_false_2 (b = CR)) by congruence. cbn [andb]. rewrite IH by done. by rewrite <- app_assoc.
Qed.
Lemma split_crlf_last l : CR ∉ l -> forall acc, split_crlf acc l = [acc ++ l].
Proof.
  induction l as [|b l IH]; intros Hc acc; [by cbn; rewrite app_nil_r|]. apply not_elem_of_cons in Hc as [Hb Hc].
  cbn [split_crlf]. destruct l as [|c t]; [done|].
  rewrite (bool_decide_eq_false_2 (b = CR)) by congruence. cbn [andb]. rewrite IH by done. by rewrite <- app_assoc.
Qed.

(** Bytes before the first byte of the needle are passed over. *)
Lemma starts_with_cons_ne a p b s : a <> b -> starts_with (a :: p) (b :: s) = false.
Proof. intros. apply not_true_iff_false. rewrite starts_with_iff. intros [q [=]]. congruence. Qed.
Lemma find_window_step n b t : starts_with n (b :: t) = false -> find_window (b :: t) n = S <$> find_window t n.
Proof. intros E. cbn [find_window]. by rewrite E. Qed.
Lemma find_window_skip c n l t : c ∉ l -> find_window (l ++ t) (c :: n) = (fun k => length l + k) <$> find_window t (c :: n).
Proof.
  induction l as [|b l IH]; intros Hc; cbn [app length]; [by destruct (find_window t _)|].
  apply not_elem_of_cons in Hc as [Hb Hc]. cbn [find_window]. rewrite starts_with_cons_ne by done. rewrite IH by done.
  by destruct (find_window t _).
Qed.

(** ** Forms as a sender writes them *)

Definition part_params (p : MultipartPart) : list (str * str) :=
  (§"name", name p) :: match filename p with Some f => [(§"filename", f)] | None => [] end.
Definition disposition (p : MultipartPart) : str := §"form-data" ++ params_text (part_params p).
Definition disposition_line (p : MultipartPart) : str := §"Content-Disposition" ++ colon :: SP :: disposition p.
Definition content_type_line (t : str) : str := §"Content-Type" ++ colon :: SP :: t.
Definition headers_text (p : MultipartPart) : str :=
  disposition_line p ++ match part_content_type p with Some t => CR :: LF :: content_type_line t | None => [] end.
Definition part_text (p : MultipartPart) : str := headers_text p ++ CR :: LF :: CR :: LF :: data p.

(** The rest of a body at a delimiter. *)
Fixpoint form_text (boundary : str) (ps : list MultipartPart) (epilogue : str) : str :=
  §"--" ++ boundary ++
  match ps with
  | [] => §"--" ++ epilogue
  | p :: ps => CR :: LF :: part_text p ++ CR :: LF :: form_text boundary ps epilogue
  end.

(** A part a form can carry: header texts without control characters, and data
    that does not contain the delimiter at the start of a line. *)
Record part_ok (boundary : str) (p : MultipartPart) : Prop := {
  ok_name : name p <> [] /\ text_ok (name p);
  ok_filename f : filename p = Some f -> text_ok f;
  ok_content_type t : part_content_type p = Some t -> t <> [] /\ trimmed t /\ text_ok t;
  ok_data : find (CR :: LF :: data p) (CR :: LF :: §"--" ++ boundary) = None
}.

Lemma params_ok boundary p : part_ok boundary p -> Forall param_ok (part_params p).
Proof.
  intros Hp. unfold part_params. constructor.
  - split; [done|]. split; [by apply forallb_true_Forall|]. split; [done|]. apply (ok_name _ _ Hp).
  - destruct (filename p) as [f|] eqn:E; [|constructor]. constructor; [|constructor].
    split; [done|]. split; [by apply forallb_true_Forall|]. split; [done|]. by apply (ok_filename _ _ Hp).
Qed.

Lemma params_text_ok ps : Forall param_ok ps -> text_ok (params_text ps).
Proof.
  induction 1 as [|[k v] ps (_ & Hk & _ & Hv) _ IH]; [by split|]. unfold params_text. cbn [map concat fst snd]. fold (params_text ps).
  apply text_app; [|done]. apply text_app; [by split|]. apply text_app.
  - cbn [fst] in Hk. clear -Hk. induction Hk as [|b k Hb _ IH]; [by split|]. apply (text_app [b] k); [|done]. by destruct b.
  - apply text_app; [by split|]. apply (text_app [dquote]); [by split|]. apply text_app; [|by split].
    by apply escape_text.
Qed.

Lemma params_text_last ps : ps <> [] -> exists m, params_text ps = semicolon :: m ++ [dquote].
Proof.
  induction ps as [|[k v] ps IH]; [done|]. intros _. unfold params_text. cbn [map concat fst snd]. fold (params_text ps).
  destruct ps as [|q ps].
  - exists (SP :: k ++ §"=" ++ dquote :: escape v). cbn. rewrite <- !app_assoc. cbn. by rewrite app_nil_r.
  - destruct (IH ltac:(done)) as [m ->]. exists (SP :: k ++ §"=" ++ quote v ++ semicolon :: m). cbn. rewrite <- !app_assoc. cbn. by rewrite <- !app_assoc.
Qed.

Lemma disposition_trimmed p : trimmed (disposition p).
Proof.
  unfold disposition. destruct (params_text_last (part_params p)) as [m ->]; [done|].
  change (§"form-data" ++ semicolon :: m ++ [dquote]) with (Byte.x66 :: (§"orm-data" ++ semicolon :: m) ++ [dquote]).
  by apply trimmed_ends.
Qed.

Lemma header_lines_ok boundary p : part_ok boundary p ->
  text_ok (disposition_line p) /\ text_ok (disposition p)
  /\ forall t, part_content_type p = Some t -> text_ok (content_type_line t).
Proof.
  intros Hp. assert (text_ok (disposition p)) as Hd.
  { apply (text_app §"form-data"); [by split|]. by eapply params_text_ok, params_ok. }
  split; [|split; [done|]].
  - by apply (text_app §"Content-Disposition: "); [split|].
  - intros t Ht. apply (text_app §"Content-Type: "); [by split|]. by apply (ok_content_type _ _ Hp).
Qed.

(** ** Delimiter lines *)

Lemma get_two pre a b rest : get_range (pre ++ a :: b :: rest) (length pre) (length pre + 2) = Some [a; b].
Proof. apply (get_range_app pre [a; b] rest). Qed.

Lemma delimiter_text pre delimiter rest :
  get_range (pre ++ delimiter ++ rest) (length pre) (length pre + length delimiter) = Some delimiter
  /\ pre ++ delimiter ++ rest = (pre ++ delimiter) ++ rest /\ length pre + length delimiter = length (pre ++ delimiter).
Proof. split; [apply get_range_app|]. by rewrite <- app_assoc, length_app. Qed.

Lemma delimiter_line_open pre delimiter rest :
  parse_delimiter_line (pre ++ delimiter ++ CR :: LF :: rest) (length pre) delimiter
  = Some (mkDelimiter false (length pre + length delimiter + 2)).
Proof.
  unfold parse_delimiter_line. destruct (delimiter_text pre delimiter (CR :: LF :: rest)) as (-> & -> & ->).
  rewrite bool_decide_eq_true_2 by done. cbn [negb]. cbv zeta. rewrite get_two.
  change (bool_decide (Some [CR; LF] = Some §"--")) with false. cbv beta iota.
  rewrite drop_app_length. change (blanks (CR :: LF :: rest)) with 0. rewrite Nat.add_0_r, get_two. by rewrite bool_decide_eq_true_2.
Qed.

Lemma delimiter_line_close pre delimiter epilogue : epilogue = [] \/ (exists e, epilogue = CR :: LF :: e) ->
  exists n, parse_delimiter_line (pre ++ delimiter ++ §"--" ++ epilogue) (length pre) delimiter = Some (mkDelimiter true n).
Proof.
  intros He. unfold parse_delimiter_line. destruct (delimiter_text pre delimiter (§"--" ++ epilogue)) as (-> & -> & ->).
  rewrite bool_decide_eq_true_2 by done. cbn [negb]. cbv zeta. change (§"--" ++ epilogue) with (Byte.x2d :: Byte.x2d :: epilogue).
  rewrite get_two. change (bool_decide (Some [Byte.x2d; Byte.x2d] = Some §"--")) with true. cbv beta iota.
  change (Byte.x2d :: Byte.x2d :: epilogue) with (§"--" ++ epilogue). rewrite app_assoc.
  replace (length (pre ++ delimiter) + 2) with (length ((pre ++ delimiter) ++ §"--")) by (by rewrite (length_app _ §"--")).
  rewrite drop_app_length. destruct He as [-> |[e ->]].
  - cbn [blanks]. rewrite app_nil_r, Nat.add_0_r. case_bool_decide; [by eexists|]. rewrite Nat.eqb_refl. by eexists.
  - change (blanks (CR :: LF :: e)) with 0. rewrite Nat.add_0_r, get_two. rewrite bool_decide_eq_true_2 by done. by eexists.
Qed.

(** A delimiter line follows a line end. *)
Lemma line_after_crlf body delimiter q d : line_at (after_crlf body) body delimiter q = Some d ->
  2 <= q /\ starts_with (CR :: LF :: delimiter) (drop (q - 2) body) = true.
Proof.
  intros Hl. pose proof (line_at_starts _ _ _ _ _ Hl) as [Hs _]. unfold line_at in Hl.
  destruct (after_crlf body q) eqn:E; [|done]. unfold after_crlf in E.
  apply andb_true_iff in E as [Hp%Nat.leb_le Hc%bool_decide_eq_true]. split; [done|].
  apply get_range_Some in Hc as (_ & _ & Hc). apply starts_with_iff in Hs as [rest Hs]. apply starts_with_iff. exists rest.
  change (CR :: LF :: delimiter) with (CRLF ++ delimiter). rewrite <- app_assoc, <- Hs, Hc.
  replace (drop q body) with (drop 2 (drop (q - 2) body)) by (rewrite drop_drop; f_equal; lia).
  replace (q - (q - 2)) with 2 by lia. by rewrite take_drop.
Qed.

(** An occurrence that starts in [u] cannot reach into what follows, because
    its first byte does not occur in it again. *)
Lemma occurrence_inside c n u t i : c ∉ n -> i < length u ->
  starts_with (c :: n) (drop i (u ++ c :: t)) = true -> starts_with (c :: n) (drop i u) = true.
Proof.
  intros Hc Hi. rewrite drop_app_le by lia. rewrite !starts_with_iff. intros [q Hq].
  apply app_eq_inv in Hq as [(k & Ek & _)|(k & Ek & Eq)]; [by exists k|].
  destruct k as [|x k]; [exists []; by rewrite app_nil_r in *|]. injection Eq as -> _.
  destruct (drop i u) as [|y w] eqn:Ed; [apply (f_equal length) in Ed; rewrite length_drop in Ed; cbn in Ed; lia|].
  injection Ek as -> ->. exfalso. apply Hc, elem_of_app. right. by left.
Qed.

Lemma clean_data body pre d delimiter tail : CR ∉ delimiter ->
  find (CR :: LF :: d) (CR :: LF :: delimiter) = None -> body = pre ++ (CR :: LF :: d) ++ CR :: LF :: tail ->
  forall q, length pre + 2 <= q < length pre + 2 + length d + 2 -> line_at (after_crlf body) body delimiter q = None.
Proof.
  intros Hd Hf Hb q Hq. destruct (line_at _ body delimiter q) eqn:E; [|done]. exfalso.
  apply line_after_crlf in E as [_ E]. subst body.
  replace (q - 2) with (length pre + (q - 2 - length pre)) in E by lia. rewrite <- drop_drop, drop_app_length in E.
  apply occurrence_inside in E; [|by apply not_elem_of_cons|cbn; lia].
  unfold find in Hf. rewrite bool_decide_eq_false_2 in Hf by done.
  pose proof (find_window_spec (CR :: LF :: delimiter) (CR :: LF :: d)) as Hs. rewrite Hf in Hs. by rewrite Hs in E.
Qed.

(** The delimiter that follows the data of a part. *)
Lemma next_delimiter body pre d delimiter tail line : CR ∉ delimiter -> delimiter <> [] ->
  find (CR :: LF :: d) (CR :: LF :: delimiter) = None -> body = pre ++ (CR :: LF :: d) ++ CR :: LF :: delimiter ++ tail ->
  parse_delimiter_line body (length pre + 2 + length d + 2) delimiter = Some line ->
  find_next_delimiter body (length pre + 2) delimiter = Some (length pre + 2 + length d + 2, line).
Proof.
  intros Hc Hne Hf Hb Hl. apply find_next_first; [done|lia| |by eapply clean_data].
  unfold line_at, after_crlf. rewrite (proj2 (Nat.leb_le _ _)) by lia. cbn [andb].
  replace (length pre + 2 + length d + 2 - 2) with (length (pre ++ CR :: LF :: d)) by (rewrite length_app; cbn; lia).
  rewrite bool_decide_eq_true_2; [done|]. rewrite Hb, app_assoc.
  replace (length pre + 2 + length d + 2) with (length (pre ++ CR :: LF :: d) + 2) by (rewrite length_app; cbn; lia).
  apply get_two.
Qed.

Section roundtrip.
Context `{HeaderMap HM}.

(** One well-formed header line. *)
Lemma part_header_line (found : option str * option str) n v : n <> [] -> Forall (fun b => is_token_byte b = true) n ->
  trimmed v -> has_field_control v = false ->
  part_header (HM := HM) found (n ++ colon :: SP :: v) =
    if eq_ignore_ascii_case n §"content-disposition" then
      if bool_decide (is_Some found.1) then Err invalid_headers else Ok (Some v, found.2)
    else if eq_ignore_ascii_case n §"content-type" then
      if bool_decide (v = []) || bool_decide (is_Some found.2) then Err invalid_headers else Ok (found.1, Some v)
    else Ok found.
Proof.
  intros Hn Ht Hv Hc. destruct found as [d ct]. unfold part_header. destruct n as [|b n]; [done|]. cbn [app].
  apply Forall_cons in Ht as Ht'. rewrite token_not_blank by apply Ht'.
  change (b :: n ++ colon :: SP :: v) with ((b :: n) ++ colon :: SP :: v). rewrite split_once_app.
  2:{ intros Hin. rewrite Forall_forall in Ht. by apply Ht in Hin. }
  rewrite bool_decide_eq_false_2 by done. rewrite (proj2 (forallb_true_Forall _ _) Ht). cbn [orb negb].
  by rewrite trim_space, trim_id, Hc by done.
Qed.

Lemma parse_part_headers_text boundary p max : part_ok boundary p -> (2 <= max)%Z ->
  parse_part_headers (HM := HM) (headers_text p) max = Ok (name p, filename p, part_content_type p).
Proof.
  intros Hp Hmax. destruct (header_lines_ok boundary p Hp) as (Hd & [_ Hdc] & Ht).
  assert (utf8_valid (headers_text p) = true) as Hu.
  { unfold headers_text. apply utf8_valid_app; [apply Hd|]. destruct (part_content_type p) as [t|]; [|done].
    apply (utf8_valid_app [CR; LF]); [done|]. by apply Ht. }
  assert (part_header_lines (HM := HM) max 0 (None, None) (split_crlf [] (headers_text p)) = Ok (Some (disposition p), part_content_type p)) as Hlines.
  { assert (forall found, part_header (HM := HM) (None, found) (disposition_line p) = Ok (Some (disposition p), found)) as H1.
    { intros found. unfold disposition_line. rewrite part_header_line;
        [done..|by apply forallb_true_Forall|apply disposition_trimmed|done]. }
    unfold headers_text. destruct (part_content_type p) as [t|] eqn:E.
    - rewrite split_crlf_line by (by apply text_no_CR). rewrite split_crlf_last by (by apply text_no_CR, Ht). cbn [app part_header_lines].
      rewrite (proj2 (Z.ltb_ge max _)) by lia. rewrite H1. cbv beta iota. rewrite (proj2 (Z.ltb_ge max _)) by lia.
      destruct (ok_content_type _ _ Hp t E) as (Hne & Htr & _ & Hc). unfold content_type_line. rewrite part_header_line;
        [|done|by apply forallb_true_Forall|done..].
      cbn [fst snd]. change (eq_ignore_ascii_case §"Content-Type" §"content-disposition") with false.
      by rewrite (bool_decide_eq_false_2 (t = [])).
    - rewrite app_nil_r, split_crlf_last by (by apply text_no_CR). cbn [app part_header_lines].
      rewrite (proj2 (Z.ltb_ge max _)) by lia. by rewrite H1. }
  unfold parse_part_headers. rewrite Hu, Hlines. cbn [negb]. cbv beta iota. unfold disposition.
  rewrite parse_parameterized_text;
    [|done|by apply contains_false|apply solid_trimmed; by apply forallb_true_Forall|by eapply params_ok].
  cbv beta iota. change (negb (eq_ignore_ascii_case _ _)) with false. cbv beta iota.
  unfold part_params. destruct (filename p) as [f|]; change (unique_parameter _ §"name") with (Some (name p)); cbv beta iota;
    by rewrite bool_decide_eq_false_2 by apply (ok_name _ _ Hp).
Qed.

(** The header block of a part ends where it should. *)
Lemma headers_end boundary p rest : part_ok boundary p ->
  find (headers_text p ++ CR :: LF :: CR :: LF :: rest) (CRLF ++ CRLF) = Some (length (headers_text p)).
Proof.
  intros Hp. destruct (header_lines_ok boundary p Hp) as (Hd & _ & Ht). unfold find. rewrite bool_decide_eq_false_2 by done.
  unfold CRLF, headers_text. cbn [app]. rewrite <- app_assoc, find_window_skip by (by apply text_no_CR). rewrite length_app.
  destruct (part_content_type p) as [t|] eqn:E; cbn [app].
  - specialize (Ht t eq_refl). assert (CR ∉ content_type_line t) as Hcr by (by apply text_no_CR).
    change (CR :: LF :: content_type_line t ++ ?x) with (CR :: LF :: Byte.x43 :: (§"ontent-Type: " ++ t) ++ x).
    assert (forall x, find_window (CR :: LF :: Byte.x43 :: x) [CR; LF; CR; LF] = (fun k => 2 + k) <$> find_window (Byte.x43 :: x) [CR; LF; CR; LF]) as Hskip.
    { intros x. rewrite 2!find_window_step by done. by destruct (find_window (Byte.x43 :: x) [CR; LF; CR; LF]). }
    rewrite Hskip. change (Byte.x43 :: (§"ontent-Type: " ++ t) ++ ?x) with (content_type_line t ++ x).
    rewrite find_window_skip by done. change (find_window (CR :: LF :: CR :: LF :: rest) [CR; LF; CR; LF]) with (Some 0).
    cbn [fmap option_fmap option_map length]. f_equal. lia.
  - by change (find_window (CR :: LF :: CR :: LF :: rest) [CR; LF; CR; LF]) with (Some 0).
Qed.

(** The sizes of a part are within the limits. *)
Definition part_fits (limits : MultipartLimits) (p : MultipartPart) : Prop :=
  (Z.of_nat (length (headers_text p)) <= max_header_bytes limits)%Z /\ (Z.of_nat (length (data p)) <= max_part_bytes limits)%Z.

Lemma part_eta p : mkPart (name p) (filename p) (part_content_type p) (data p) = p.
Proof. by destruct p. Qed.

(** One round of the loop reads one part. *)
Lemma parts_loop_step fuel pre p boundary tail limits acc line :
  part_ok boundary p -> CR ∉ boundary -> part_fits limits p -> (2 <= max_headers_per_part limits)%Z ->
  (Z.of_nat (length acc) < max_parts limits)%Z ->
  let delimiter := §"--" ++ boundary in
  let body := pre ++ part_text p ++ CR :: LF :: delimiter ++ tail in
  parse_delimiter_line body (length (pre ++ part_text p) + 2) delimiter = Some line ->
  parts_loop (HM := HM) (S fuel) body delimiter limits (length pre) acc
  = if closing line then Some (Ok (acc ++ [p])) else parts_loop fuel body delimiter limits (next line) (acc ++ [p]).
Proof.
  intros Hp Hcr [Hh Hd] Hmax Hcount delimiter body Hline. cbn [parts_loop].
  rewrite (proj2 (Z.leb_gt _ _)) by lia.
  assert (drop (length pre) body = headers_text p ++ CR :: LF :: CR :: LF :: data p ++ CR :: LF :: delimiter ++ tail) as Hdrop.
  { unfold body. rewrite drop_app_length. unfold part_text. by rewrite <- app_assoc. }
  rewrite Hdrop, (headers_end boundary) by done. rewrite (proj2 (Z.ltb_ge _ _)) by lia. cbv zeta.
  set (pre' := pre ++ headers_text p ++ [CR; LF]).
  assert (length pre + length (headers_text p) + 4 = length pre' + 2) as -> by (unfold pre'; rewrite !length_app; cbn; lia).
  assert (length (pre ++ part_text p) + 2 = length pre' + 2 + length (data p) + 2) as El.
  { unfold pre', part_text. rewrite !length_app. cbn. lia. }
  assert (body = pre' ++ (CR :: LF :: data p) ++ CR :: LF :: delimiter ++ tail) as Hbody.
  { unfold body, pre', part_text. by rewrite <- !app_assoc. }
  rewrite El in Hline. rewrite (next_delimiter body pre' (data p) delimiter tail line); [|..|done].
  2:{ by apply not_elem_of_cons; split; [|apply not_elem_of_cons]. }
  2: done. 2: apply (ok_data _ _ Hp). 2: done.
  cbv beta iota. replace (length pre' + 2 + length (data p) + 2 - 2) with (length pre' + 2 + length (data p)) by lia.
  rewrite (proj2 (Nat.leb_le 2 _)), (proj2 (Nat.leb_le _ (length pre' + 2 + length (data p)))) by lia. cbn [andb negb].
  rewrite Nat.add_comm, Nat.add_sub, (proj2 (Z.ltb_ge _ _)) by lia.
  rewrite (Nat.add_comm (length pre)), Nat.add_sub, take_app_length, (parse_part_headers_text boundary) by done.
  assert (take (length (data p)) (drop (length pre' + 2) body) = data p) as ->; [|by rewrite part_eta].
  rewrite Hbody, <- drop_drop, drop_app_length. cbn [drop app]. apply take_app_length.
Qed.

(** [form_text] starts with its delimiter. *)
Definition after_delimiter (boundary : str) (ps : list MultipartPart) (epilogue : str) : str :=
  match ps with
  | [] => §"--" ++ epilogue
  | p :: ps => CR :: LF :: part_text p ++ CR :: LF :: form_text boundary ps epilogue
  end.
Lemma form_text_delimiter boundary ps epilogue :
  form_text boundary ps epilogue = (§"--" ++ boundary) ++ after_delimiter boundary ps epilogue.
Proof. destruct ps; cbn [form_text after_delimiter]; by rewrite <- app_assoc. Qed.

Definition epilogue_ok (epilogue : str) : Prop := epilogue = [] \/ exists e, epilogue = CR :: LF :: e.

Lemma parts_loop_form boundary limits epilogue : CR ∉ boundary -> epilogue_ok epilogue -> (2 <= max_headers_per_part limits)%Z ->
  forall ps p fuel pre acc, Forall (part_ok boundary) (p :: ps) -> Forall (part_fits limits) (p :: ps) ->
  (Z.of_nat (length acc + length (p :: ps)) <= max_parts limits)%Z -> length ps < fuel ->
  parts_loop (HM := HM) fuel (pre ++ part_text p ++ CR :: LF :: form_text boundary ps epilogue) (§"--" ++ boundary) limits (length pre) acc
  = Some (Ok (acc ++ p :: ps)).
Proof.
  intros Hcr He Hmax. induction ps as [|p' ps IH]; intros p fuel pre acc [Hp Hps]%Forall_cons [Hf Hfs]%Forall_cons Hcount Hfuel;
    cbn [length] in *; (destruct fuel as [|fuel]; [lia|]); rewrite form_text_delimiter; cbn [after_delimiter].
  - destruct (delimiter_line_close (pre ++ part_text p ++ [CR; LF]) (§"--" ++ boundary) epilogue He) as [n Hline].
    rewrite (parts_loop_step fuel pre p boundary _ limits acc (mkDelimiter true n)); [done..| |]; [lia|].
    replace (length (pre ++ part_text p) + 2) with (length (pre ++ part_text p ++ [CR; LF])) by (rewrite !length_app; cbn; lia).
    rewrite <- Hline. f_equal. by rewrite <- !app_assoc.
  - pose proof (delimiter_line_open (pre ++ part_text p ++ [CR; LF]) (§"--" ++ boundary) (part_text p' ++ CR :: LF :: form_text boundary ps epilogue)) as Hline.
    set (line := mkDelimiter _ _) in Hline.
    rewrite (parts_loop_step fuel pre p boundary _ limits acc line); [|done..|lia|].
    2:{ replace (length (pre ++ part_text p) + 2) with (length (pre ++ part_text p ++ [CR; LF])) by (rewrite !length_app; cbn; lia).
        rewrite <- Hline. f_equal. by rewrite <- !app_assoc. }
    cbn [closing line]. set (pre' := pre ++ part_text p ++ [CR; LF] ++ (§"--" ++ boundary) ++ [CR; LF]).
    replace (next line) with (length pre') by (unfold pre', line; cbn [next]; rewrite !length_app; cbn; lia).
    replace (pre ++ part_text p ++ _) with (pre' ++ part_text p' ++ CR :: LF :: form_text boundary ps epilogue)
      by (unfold pre'; by rewrite <- !app_assoc).
    rewrite IH; [by rewrite <- app_assoc|done..| |lia]. rewrite length_app. cbn. lia.
Qed.

Lemma form_text_length boundary ps epilogue : length ps <= length (form_text boundary ps epilogue).
Proof.
  induction ps as [|p ps IH]; [cbn; lia|]. rewrite form_text_delimiter. cbn [after_delimiter]. rewrite !length_app. cbn.
  rewrite !length_app. cbn. lia.
Qed.

Lemma find_initial_zero body delimiter d : delimiter <> [] -> parse_delimiter_line body 0 delimiter = Some d ->
  find_initial_delimiter body delimiter = Some d.
Proof.
  intros Hd Hl. unfold find_initial_delimiter.
  pose proof (delimiter_loop_spec (fun position => (position =? 0)%nat || after_crlf body position) body delimiter Hd (S (length body)) 0 ltac:(lia)) as Hs.
  destruct (delimiter_loop _ _ _ _ _) as [[q d']|].
  - destruct Hs as (_ & Hq & Hbefore). destruct q as [|q]; [unfold line_at in Hq; cbn in Hq; cbn; congruence|].
    specialize (Hbefore 0 ltac:(lia)). unfold line_at in Hbefore. cbn in Hbefore. congruence.
  - specialize (Hs 0 ltac:(lia)). unfold line_at in Hs. cbn in Hs. congruence.
Qed.

Lemma boundary_bytes boundary : is_valid_boundary boundary = true ->
  text_ok boundary /\ CR ∉ boundary /\ escape boundary = boundary.
Proof.
  unfold is_valid_boundary. intros [[[_ _]%andb_true_iff Hall]%andb_true_iff _]%andb_true_iff. apply forallb_true_Forall in Hall.
  assert (text_ok boundary /\ escape boundary = boundary) as [Ht E]; [|split; [done|]; split; [by apply text_no_CR|done]].
  induction Hall as [|b s Hb _ [IHt IHe]]; [by split|]. split.
  - apply (text_app [b] s); [|done]. by destruct b.
  - unfold escape in *. cbn [map concat]. rewrite IHe. by destruct b.
Qed.

(** C35. Multipart forms: the parser always ends, and what it accepts respects
    the limits on the number and the size of parts. A form that is written
    with a valid boundary (header texts without control characters, any data that
    does not contain the delimiter at the start of a line, quotes and
    backslashes escaped, no epilogue or any that follows a line end) and fits the limits is read back part by
    part, byte by byte; and the boundary is read back from the content type that
    announces it. *)
Theorem multipart_roundtrip boundary limits :
  (forall body, (0 <= max_parts limits)%Z ->
     exists r, parse_multipart (HM := HM) body boundary limits = Some r /\ forall ps, r = Ok ps -> within limits ps)
  /\ (is_valid_boundary boundary = true ->
      multipart_boundary (§"multipart/form-data; boundary=" ++ quote boundary) = Some boundary
      /\ forall ps epilogue, Forall (part_ok boundary) ps -> epilogue_ok epilogue ->
           Forall (part_fits limits) ps -> (Z.of_nat (length ps) <= max_parts limits)%Z -> (2 <= max_headers_per_part limits)%Z ->
           parse_multipart (HM := HM) (form_text boundary ps epilogue) boundary limits = Some (Ok ps)).
Proof.
  split; [intros; by apply parse_multipart_total|]. intros Hb. destruct (boundary_bytes boundary Hb) as (Ht & Hcr & Hesc). split.
  - unfold multipart_boundary. rewrite <- (app_nil_r (quote boundary)).
    change (§"multipart/form-data; boundary=" ++ quote boundary ++ []) with (§"multipart/form-data" ++ params_text [(§"boundary", boundary)]).
    rewrite parse_parameterized_text;
      [|done|by apply contains_false|apply solid_trimmed; by apply forallb_true_Forall|].
    + change (negb (eq_ignore_ascii_case _ _)) with false. change (unique_parameter _ _) with (Some boundary).
      cbv beta iota. by rewrite Hb.
    + constructor; [|constructor]. split; [done|]. split; [by apply forallb_true_Forall|done].
  - intros ps epilogue Hps He Hfit Hcount Hmax. unfold parse_multipart. rewrite form_text_delimiter.
    assert (§"--" ++ boundary <> []) as Hne by done.
    destruct ps as [|p ps]; cbn [after_delimiter].
    + destruct (delimiter_line_close [] (§"--" ++ boundary) epilogue He) as [n Hline].
      change ([] ++ ?x) with x in Hline. by rewrite (find_initial_zero _ _ _ Hne Hline).
    + pose proof (delimiter_line_open [] (§"--" ++ boundary) (part_text p ++ CR :: LF :: form_text boundary ps epilogue)) as Hline.
      change ([] ++ ?x) with x in Hline. rewrite (find_initial_zero _ _ _ Hne Hline). cbn [closing next length].
      set (delimiter := §"--" ++ boundary) in *. set (rest := form_text boundary ps epilogue).
      set (fuel := S (length _)). assert (length ps < fuel) as Hfuel.
      { subst fuel. pose proof (form_text_length boundary ps epilogue) as Hlen. fold rest in Hlen.
        rewrite length_app. cbn [length]. rewrite length_app. cbn [length]. lia. }
      replace (0 + length delimiter + 2) with (length (delimiter ++ [CR; LF])) by (rewrite length_app; cbn [length]; lia).
      replace (delimiter ++ CR :: LF :: part_text p ++ CR :: LF :: rest)
        with ((delimiter ++ [CR; LF]) ++ part_text p ++ CR :: LF :: rest) by (by rewrite <- app_assoc).
      by apply parts_loop_form.
Qed.
End roundtrip.

Module FormSample.
#[local] Existing Instance assoc_header_map.

Definition boundary : str := §"xYz-42".
Definition upload : list MultipartPart :=
  [mkPart (§"ti" ++ [dquote] ++ §"tle") None None §"--xYz-4 is no delimiter";
   mkPart §"file" (Some §"a b.bin") (Some §"application/octet-stream") (CR :: LF :: §"--" ++ [CR; LF; LF])].

Lemma upload_ok : Forall (part_ok boundary) upload.
Proof.
  unfold upload. apply Forall_cons. split; [|apply Forall_cons; split; [|apply Forall_nil; done]]; split.
  all: try (intros t [= <-]); vm_compute; done.
Qed.

Lemma multipart_roundtrip_witness :
  multipart_boundary (§"multipart/form-data; boundary=" ++ quote boundary) = Some boundary
  /\ parse_multipart (HM := AssocHeaders) (form_text boundary upload CRLF) boundary MultipartLimits_new = Some (Ok upload).
Proof.
  destruct (multipart_roundtrip (HM := AssocHeaders) boundary MultipartLimits_new) as [_ Hr].
  destruct (Hr eq_refl) as [Hb Hp]. split; [exact Hb|]. apply Hp.
  - exact upload_ok.
  - right. by exists [].
  - constructor; [|constructor; [|constructor]]; split; vm_compute; discriminate.
  - vm_compute. discriminate.
  - vm_compute. discriminate.
Defined.

End FormSample.
