(* ===== verification/Conditional.v ===== *)
(** * Conditional requests ([src/app/middleware/conditional.rs])

    The precondition evaluator shared by the static file handler and the
    [etag] middleware, and that middleware. [httpdate] and SHA-256 are
    parameters, the hand-over to the blocking pool is an input. *)
From S2P Require Import Prelude Strs Percent Request Headers Response.

Definition BLOCKING_HASH_THRESHOLD : Z := 65536.

Inductive PreconditionResult := Proceed | NotModified | Failed | IgnoreRange.
#[export] Instance PreconditionResult_eq_dec : EqDecision PreconditionResult.
Proof. solve_decision. Defined.

Inductive SingletonRequestHeader := Missing | Value (value : str) | Invalid.
Inductive TagComparison := Strong | Weak.

(** An instant is its nanoseconds from the epoch. *)
Abbreviation SystemTime := Z.
Definition seconds (time : SystemTime) : Z := if (time <? 0)%Z then 0 else time / 1000000000.
Definition modified_after (last_modified since : SystemTime) : bool := (seconds since <? seconds last_modified)%Z.
Definition not_modified_since (last_modified since : SystemTime) : bool :=
  (seconds last_modified <=? seconds since)%Z.

Record ConditionalHeaders := mkConditionalHeaders {
  c_method : str;
  if_match : option str;
  if_none_match : option str;
  if_unmodified_since : option SystemTime;
  if_modified_since : option SystemTime;
  if_range : SingletonRequestHeader;
  has_range : bool
}.

(** ** Entity tags *)

Abbreviation dquote := Byte.x22.

(** The scan of [entity_tag_list]: the piece being read, then the rest. *)
Fixpoint tag_pieces (quoted : bool) (s : str) : str * list str :=
  match s with
  | [] => ([], [])
  | b :: s =>
      if bool_decide (b = dquote) then let '(w, ws) := tag_pieces (negb quoted) s in (b :: w, ws)
      else if bool_decide (b = comma) && negb quoted then let '(w, ws) := tag_pieces quoted s in ([], w :: ws)
      else let '(w, ws) := tag_pieces quoted s in (b :: w, ws)
  end.
Definition entity_tag_list (raw : str) : list str := let '(w, ws) := tag_pieces false raw in w :: ws.

Definition opaque_byte (b : byte) : bool := (bval b =? 33)%Z || in_range 35 126 b || (128 <=? bval b)%Z.
Definition parse_entity_tag (raw : str) : option (bool * str) :=
  let raw := trim raw in
  let '(weak, tag) := match strip_prefix §"W/" raw with Some tag => (true, tag) | None => (false, raw) end in
  match strip_prefix [dquote] tag with
  | None => None
  | Some tag =>
      match strip_suffix [dquote] tag with
      | None => None
      | Some opaque => if forallb opaque_byte opaque then Some (weak, opaque) else None
      end
  end.

Definition strong_tag_matches (left right : str) : bool :=
  match parse_entity_tag left, parse_entity_tag right with
  | Some (false, l), Some (false, r) => bool_decide (l = r)
  | _, _ => false
  end.
Definition weak_tag_matches (left right : str) : bool :=
  match parse_entity_tag left, parse_entity_tag right with
  | Some (_, l), Some (_, r) => bool_decide (l = r)
  | _, _ => false
  end.
Definition tag_matches (comparison : TagComparison) : str -> str -> bool :=
  match comparison with Strong => strong_tag_matches | Weak => weak_tag_matches end.

Definition entity_tag_list_matches (raw : str) (current : option str) (current_is_unambiguous : bool)
    (comparison : TagComparison) : option bool :=
  let candidates := entity_tag_list raw in
  if existsb (fun candidate => bool_decide (trim candidate = §"*")) candidates then Some true
  else if negb current_is_unambiguous then None
  else Some (existsb (fun candidate => match current with
                                       | Some current => tag_matches comparison (trim candidate) current
                                       | None => false
                                       end) candidates).

(** ** The request's conditions *)

Definition combined_request_header (r : Request) (name : str) : option str :=
  match headers_all r name with
  | [] => header r name
  | values => Some (join [comma] values)
  end.
Definition singleton_request_header (r : Request) (name : str) : option str :=
  match headers_all r name with
  | [] => header r name
  | [value] => Some value
  | _ => None
  end.
Definition singleton_request_header_state (r : Request) (name : str) : SingletonRequestHeader :=
  match headers_all r name with
  | [] => match header r name with Some value => Value value | None => Missing end
  | [value] => Value value
  | _ => Invalid
  end.

Section conditions.
Context (parse_http_date : str -> option SystemTime).

Definition if_range_matches (raw : str) (current_etag : option str) (last_modified : option SystemTime) : bool :=
  let raw := trim raw in
  if starts_with [dquote] raw || starts_with §"W/" raw then
    match current_etag with Some etag => strong_tag_matches raw etag | None => false end
  else match parse_http_date raw, last_modified with
       | Some if_range, Some last_modified => (seconds last_modified =? seconds if_range)%Z
       | _, _ => false
       end.

Definition from_request (r : Request) : ConditionalHeaders :=
  mkConditionalHeaders (method r)
    (combined_request_header r §"if-match")
    (combined_request_header r §"if-none-match")
    (singleton_request_header r §"if-unmodified-since" ≫= parse_http_date)
    (singleton_request_header r §"if-modified-since" ≫= parse_http_date)
    (singleton_request_header_state r §"if-range")
    (bool_decide (is_Some (header r §"range"))).

Definition is_safe (c : ConditionalHeaders) : bool :=
  bool_decide (c_method c = §"GET") || bool_decide (c_method c = §"HEAD").

(** The two [If-Match]/[If-Unmodified-Since] guards. *)
Definition first_guard_fails (c : ConditionalHeaders) (etag : option str) (unambiguous : bool)
    (last_modified : option SystemTime) : bool :=
  match if_match c with
  | Some raw => bool_decide (entity_tag_list_matches raw etag unambiguous Strong = Some false)
  | None =>
      match if_unmodified_since c, last_modified with
      | Some since, Some last_modified => modified_after last_modified since
      | _, _ => false
      end
  end.
Definition second_guard (c : ConditionalHeaders) (etag : option str) (unambiguous : bool)
    (last_modified : option SystemTime) : option PreconditionResult :=
  match if_none_match c with
  | Some raw =>
      if bool_decide (entity_tag_list_matches raw etag unambiguous Weak = Some true)
      then Some (if is_safe c then NotModified else Failed) else None
  | None =>
      if is_safe c then
        match if_modified_since c, last_modified with
        | Some since, Some last_modified => if not_modified_since last_modified since then Some NotModified else None
        | _, _ => None
        end
      else None
  end.
Definition range_guard (c : ConditionalHeaders) (etag : option str) (last_modified : option SystemTime)
    (range_requested : bool) : PreconditionResult :=
  if range_requested && has_range c then
    match if_range c with
    | Invalid => IgnoreRange
    | Value raw => if if_range_matches raw etag last_modified then Proceed else IgnoreRange
    | Missing => Proceed
    end
  else Proceed.

Definition evaluate_with_response_validators (c : ConditionalHeaders) (etag : option str) (unambiguous : bool)
    (last_modified : option SystemTime) (range_requested : bool) : PreconditionResult :=
  if first_guard_fails c etag unambiguous last_modified then Failed
  else match second_guard c etag unambiguous last_modified with
       | Some result => result
       | None => range_guard c etag last_modified range_requested
       end.
Definition evaluate (c : ConditionalHeaders) (etag : option str) (last_modified : option SystemTime)
    (range_requested : bool) : PreconditionResult :=
  evaluate_with_response_validators c etag true last_modified range_requested.
Definition evaluate_preconditions (r : Request) (etag : option str) (last_modified : option SystemTime)
    (range_requested : bool) : PreconditionResult :=
  evaluate (from_request r) etag last_modified range_requested.
End conditions.

(** ** The [etag] middleware *)

Definition ETAG : str := §"etag".
Definition LAST_MODIFIED : str := §"last-modified".
Arguments ETAG : simpl never.
Arguments LAST_MODIFIED : simpl never.

Inductive SingletonResponseHeader (T : Type) := RMissing | RValid (value : T) | RInvalid.
Arguments RMissing {T}.
Arguments RValid {T} _.
Arguments RInvalid {T}.

(** What the blocking pool answers for a large body. *)
Inductive Offload := Offloaded | NotAdmitted | TaskFailed.

Definition lower_hex_digit (n : Z) : byte := byte_of (if (n <? 10)%Z then 48 + n else 87 + n).

Section middleware.
Context `{HeaderMap HM, HttpTypes}.
Context (parse_http_date : str -> option SystemTime) (sha256 : str -> str)
  (problem_json : str -> str -> Z -> str -> str -> str).
Implicit Types (r : Response HM).

Definition sha256_hex (data : str) : str :=
  concat (map (fun b => [lower_hex_digit (bval b / 16); lower_hex_digit (bval b mod 16)]) (sha256 data)).

Definition singleton_response_header {T} (m : HM) (name : str) (parse : str -> option T)
  : SingletonResponseHeader T :=
  match get_all m name with
  | [] => RMissing
  | [value] =>
      if value_to_str value then match parse value with Some v => RValid v | None => RInvalid end else RInvalid
  | _ => RInvalid
  end.

Definition remove_failed_representation_headers r : Response HM :=
  set_headers r
    (foldl hm_remove (res_headers r)
       [CONTENT_LENGTH; §"content-encoding"; §"accept-ranges"; §"content-range"; §"content-md5"; §"digest";
        §"content-digest"; §"repr-digest"]).

(** The tag, whether it is unambiguous, and the response that carries it; [inr]
    is a response returned early. *)
Definition response_tag (offload : Offload) r : (Response HM * option str * bool) + Response HM :=
  match singleton_response_header (res_headers r) ETAG
          (fun value => match parse_entity_tag value with Some _ => Some value | None => None end) with
  | RValid existing => inl (r, Some existing, true)
  | RInvalid => inl (r, None, false)
  | RMissing =>
      match body_bytes r with
      | None => inr r
      | Some body =>
          let digest := if (BLOCKING_HASH_THRESHOLD <=? body_len body)%Z then
                          match offload with
                          | Offloaded => Ok (sha256_hex body)
                          | NotAdmitted => Err §"No se pudo programar el validador de la respuesta"
                          | TaskFailed => Err §"No se pudo calcular el validador de la respuesta"
                          end
                        else Ok (sha256_hex body) in
          match digest with
          | Err message => inr (from_error problem_json (with_source (internal_server_error message) OtherSource))
          | Ok digest =>
              let tag := [dquote] ++ digest ++ [dquote] in
              inl (with_header r ETAG tag, Some tag, true)
          end
      end
  end.

Definition etag_middleware (req : Request) (offload : Offload) r : Response HM :=
  let conditions := if bool_decide (method req = §"GET") || bool_decide (method req = §"HEAD")
                    then Some (from_request parse_http_date req) else None in
  if negb (status r =? 200)%Z then r
  else match response_tag offload r with
  | inr early => early
  | inl (tagged, tag, etag_is_unambiguous) =>
      let '(last_modified, last_modified_is_unambiguous) :=
        match singleton_response_header (res_headers tagged) LAST_MODIFIED parse_http_date with
        | RValid lm => (Some lm, true)
        | RMissing => (None, true)
        | RInvalid => (None, false)
        end in
      match conditions with
      | None => tagged
      | Some conditions =>
          match evaluate_with_response_validators parse_http_date conditions tag etag_is_unambiguous last_modified false with
          | Proceed | IgnoreRange => tagged
          | NotModified =>
              let m := if etag_is_unambiguous then res_headers tagged else hm_remove (res_headers tagged) ETAG in
              let m := if last_modified_is_unambiguous then m else hm_remove m LAST_MODIFIED in
              with_status (prepare_for_not_modified (set_headers tagged m)) 304
          | Failed => with_status (remove_failed_representation_headers (clear_body_and_trailers tagged)) 412
          end
      end
  end.
End middleware.

(** ** Lists of entity tags *)

(** The quoting state after a piece; [None] when a comma of it would split. *)
Fixpoint scan (quoted : bool) (s : str) : option bool :=
  match s with
  | [] => Some quoted
  | b :: s =>
      if bool_decide (b = dquote) then scan (negb quoted) s
      else if bool_decide (b = comma) && negb quoted then None
      else scan quoted s
  end.
Definition closed (s : str) : Prop := scan false s = Some false.

Lemma scan_app q s t : scan q (s ++ t) = scan q s ≫= fun q => scan q t.
Proof.
  revert q. induction s as [|b s IH]; intros q; cbn; [done|].
  case_bool_decide; [apply IH|]. destruct (bool_decide (b = comma) && negb q); [done|apply IH].
Qed.

Lemma tag_pieces_app q q' s t : scan q s = Some q' ->
  tag_pieces q (s ++ t) = let '(w, ws) := tag_pieces q' t in (s ++ w, ws).
Proof.
  revert q. induction s as [|b s IH]; intros q; cbn.
  - intros [= ->]. by destruct (tag_pieces q' t).
  - case_bool_decide; [|destruct (bool_decide (b = comma) && negb q); [done|]]; intros E; rewrite (IH _ E);
      by destruct (tag_pieces q' t).
Qed.

Lemma entity_tag_list_join ws : ws <> [] -> Forall closed ws -> entity_tag_list (join [comma] ws) = ws.
Proof.
  intros Hne Hws. induction Hws as [|w ws Hw Hws IH]; [done|]. unfold entity_tag_list in *.
  destruct ws as [|v ws].
  - cbn [join]. rewrite <- (app_nil_r w) at 1. rewrite (tag_pieces_app _ _ _ _ Hw). cbn. by rewrite app_nil_r.
  - rewrite join_app_sep, (tag_pieces_app _ _ _ _ Hw) by done. cbn [app tag_pieces].
    rewrite bool_decide_eq_false_2, bool_decide_eq_true_2 by done. cbn [andb negb].
    specialize (IH ltac:(done)). destruct (tag_pieces false _) as [v' vs]. cbn. by rewrite app_nil_r, IH.
Qed.

Lemma join_space (w : str) ws :
  join §", " (w :: ws) = join [comma] (w :: map (cons Byte.x20) ws).
Proof.
  revert w. induction ws as [|v ws IH]; intros w; [done|]. rewrite join_app_sep, IH by done. cbn [map].
  rewrite (join_app_sep [comma] w) by done. f_equal. by destruct ws.
Qed.

Lemma join_concat (wss : list (list str)) : Forall (fun ws => ws <> []) wss ->
  join [comma] (map (join [comma]) wss) = join [comma] (concat wss).
Proof.
  induction 1 as [|ws wss Hws Hall IH]; [done|]. destruct wss as [|vs wss]; [cbn; by rewrite app_nil_r|].
  cbn [map concat]. rewrite (join_app_sep [comma] (join [comma] ws)) by done. cbn [map concat] in IH. rewrite IH.
  assert (Hne : concat (vs :: wss) <> []).
  { apply Forall_cons in Hall as [Hvs _]. by destruct vs. }
  cbn [concat] in *. revert Hne. generalize (vs ++ concat wss) as us. intros us Hne.
  clear -Hws Hne. induction ws as [|w ws IH]; [done|]. destruct ws as [|w' ws].
  - cbn [app]. by rewrite (join_app_sep [comma] w us).
  - specialize (IH ltac:(done)). change ((w :: w' :: ws) ++ us) with (w :: (w' :: ws) ++ us).
    rewrite (join_app_sep [comma] w (w' :: ws)), (join_app_sep [comma] w ((w' :: ws) ++ us)) by done.
    by rewrite <- IH, <- !app_assoc.
Qed.

(** ** Tags *)

Record Tag := mkTag { tag_weak : bool; tag_opaque : str }.
Definition valid_tag (t : Tag) : Prop := forallb opaque_byte (tag_opaque t) = true.
Definition render_tag (t : Tag) : str :=
  (if tag_weak t then §"W/" else []) ++ [dquote] ++ tag_opaque t ++ [dquote].

Lemma opaque_plain s q : forallb opaque_byte s = true -> scan true (s ++ q) = scan true q.
Proof.
  induction s as [|b s IH]; [done|]. cbn [forallb app scan]. intros [Hb Hs]%andb_true_iff.
  rewrite bool_decide_eq_false_2 by by intros ->. rewrite andb_false_r. by apply IH.
Qed.

Lemma render_tag_closed t : valid_tag t -> closed (render_tag t) /\ closed (Byte.x20 :: render_tag t).
Proof.
  unfold valid_tag, closed. intros Ht.
  assert (Hq : scan false ([dquote] ++ tag_opaque t ++ [dquote]) = Some false).
  { rewrite scan_app. change (scan false [dquote]) with (Some true). cbn [mbind option_bind]. by rewrite opaque_plain. }
  assert (Hr : scan false (render_tag t) = Some false).
  { unfold render_tag. destruct (tag_weak t); [|done]. rewrite scan_app.
    change (scan false §"W/") with (Some false). done. }
  split; [done|]. change (Byte.x20 :: render_tag t) with ([Byte.x20] ++ render_tag t). by rewrite scan_app.
Qed.

Lemma render_tag_trimmed t : trimmed (render_tag t).
Proof.
  unfold render_tag. destruct (tag_weak t).
  - apply (trimmed_ends Byte.x57 ([Byte.x2f; dquote] ++ tag_opaque t) dquote); done.
  - by apply (trimmed_ends dquote (tag_opaque t) dquote).
Qed.

Lemma parse_render_tag t : valid_tag t -> parse_entity_tag (render_tag t) = Some (tag_weak t, tag_opaque t).
Proof.
  intros Ht. unfold parse_entity_tag. rewrite trim_id by apply render_tag_trimmed.
  destruct t as [w o]. unfold render_tag, valid_tag in *. cbn [tag_weak tag_opaque] in *.
  assert (Hs : strip_suffix [dquote] (o ++ [dquote]) = Some o).
  { unfold strip_suffix. rewrite (proj2 (ends_with_iff _ _)) by eauto. rewrite length_app, Nat.add_sub.
    by rewrite take_app_length. }
  assert (Hp : forall s, strip_prefix [dquote] (dquote :: s) = Some s) by (intros; apply (strip_prefix_app [dquote])).
  destruct w.
  - rewrite strip_prefix_app. cbn [app]. by rewrite Hp, Hs, Ht.
  - cbn [app]. change (strip_prefix §"W/" (dquote :: o ++ [dquote])) with (@None str). cbn iota. by rewrite Hp, Hs, Ht.
Qed.

(** ** The [httpdate] crate *)

Definition weekdays : list str := [§"Mon"; §"Tue"; §"Wed"; §"Thu"; §"Fri"; §"Sat"; §"Sun"].
(** The years a fixdate can name end with 9999. *)
Definition date_limit : Z := 253402300800 * 1000000000.

Class HttpDate := {
  fmt_http_date : SystemTime -> str;
  parse_http_date : str -> option SystemTime;
  fmt_shape t : (0 <= t < date_limit)%Z ->
    exists day middle, day ∈ weekdays /\ fmt_http_date t = day ++ §", " ++ middle ++ §" GMT";
  fmt_visible t : (0 <= t < date_limit)%Z -> forallb visible_ascii (fmt_http_date t) = true;
  parse_fmt t : (0 <= t < date_limit)%Z ->
    parse_http_date (fmt_http_date t) = Some (t / 1000000000 * 1000000000)%Z
}.

Lemma fmt_facts `{HttpDate} t : (0 <= t < date_limit)%Z ->
  trimmed (fmt_http_date t) /\ starts_with [dquote] (fmt_http_date t) = false
  /\ starts_with §"W/" (fmt_http_date t) = false.
Proof.
  intros Ht. destruct (fmt_shape t Ht) as (day & middle & Hday & ->).
  assert (E : exists a b c, day = [a; b; c] /\ ascii_solid a = true /\ a <> dquote /\ b <> slash).
  { unfold weekdays in Hday. repeat (apply elem_of_cons in Hday as [->|Hday]; [by do 3 eexists|]).
    by apply elem_of_nil in Hday. }
  destruct E as (a & b & c & -> & Ha & Hq & Hs). split_and!.
  - assert (Em : [a; b; c] ++ §", " ++ middle ++ §" GMT"
                = a :: ([b; c] ++ §", " ++ middle ++ §" GM") ++ [Byte.x54]).
    { change §" GMT" with (§" GM" ++ [Byte.x54]). by rewrite <- !app_assoc. }
    rewrite Em. by apply trimmed_ends.
  - unfold starts_with. apply bool_decide_eq_false_2. cbn [app strip_prefix].
    rewrite bool_decide_eq_false_2 by congruence. by intros [].
  - unfold starts_with. apply bool_decide_eq_false_2. change §"W/" with [Byte.x57; slash]. cbn [app strip_prefix].
    case_bool_decide; [|by intros []]. rewrite bool_decide_eq_false_2 by congruence. by intros [].
Qed.

Lemma seconds_trunc t : (0 <= t)%Z -> seconds (t / 1000000000 * 1000000000) = seconds t.
Proof.
  intros Ht. unfold seconds. pose proof (Z.div_pos t 1000000000 Ht ltac:(lia)).
  rewrite !(proj2 (Z.ltb_ge _ _)) by lia. apply Z.div_mul. lia.
Qed.

(** ** The specification: RFC 9110, section 13.2.2 *)

(** A list field may be spread over several lines. *)
Inductive TagCondition := AnyTag | TagLines (lines : list (list Tag)).
Inductive RangeCondition := RangeTag (t : Tag) | RangeDate (date : SystemTime).
Record Preconditions := mkPreconditions {
  pc_match : option TagCondition;
  pc_none_match : option TagCondition;
  pc_unmodified : option SystemTime;
  pc_modified : option SystemTime;
  pc_range : option RangeCondition
}.

Definition same_tag (comparison : TagComparison) (a b : Tag) : bool :=
  bool_decide (tag_opaque a = tag_opaque b)
  && match comparison with Strong => negb (tag_weak a) && negb (tag_weak b) | Weak => true end.
Definition selects (comparison : TagComparison) (c : TagCondition) (current : option Tag) : bool :=
  match c with
  | AnyTag => true
  | TagLines lines =>
      match current with
      | Some t => existsb (fun a => same_tag comparison a t) (concat lines)
      | None => false
      end
  end.
Definition unmodified_holds (since lm : option SystemTime) : bool :=
  match since, lm with Some since, Some lm => (seconds lm <=? seconds since)%Z | _, _ => true end.
Definition modified_holds (since lm : option SystemTime) : bool :=
  match since, lm with Some since, Some lm => (seconds since <? seconds lm)%Z | _, _ => true end.
Definition range_holds (c : option RangeCondition) (current : option Tag) (lm : option SystemTime) : bool :=
  match c with
  | None => true
  | Some (RangeTag t) => match current with Some current => same_tag Strong t current | None => false end
  | Some (RangeDate d) => match lm with Some lm => (seconds lm =? seconds d)%Z | None => false end
  end.

Definition rfc_evaluate (safe : bool) (p : Preconditions) (current : option Tag) (lm : option SystemTime)
    (ranged : bool) : PreconditionResult :=
  let precondition := match pc_match p with
                      | Some c => selects Strong c current
                      | None => unmodified_holds (pc_unmodified p) lm
                      end in
  let changed := match pc_none_match p with
                 | Some c => negb (selects Weak c current)
                 | None => negb safe || modified_holds (pc_modified p) lm
                 end in
  if negb precondition then Failed
  else if negb changed then (if safe then NotModified else Failed)
  else if ranged && negb (range_holds (pc_range p) current lm) then IgnoreRange
  else Proceed.

(** ** The request's fields carry the preconditions *)

Definition condition_lines (c : TagCondition) : list str :=
  match c with AnyTag => [§"*"] | TagLines lines => map (fun l => join §", " (map render_tag l)) lines end.
Definition valid_condition (c : TagCondition) : Prop :=
  match c with
  | AnyTag => True
  | TagLines lines => lines <> [] /\ Forall (fun l => l <> [] /\ Forall valid_tag l) lines
  end.
Definition in_date_range (t : SystemTime) : Prop := (0 <= t < date_limit)%Z.
Definition valid_range (c : RangeCondition) : Prop :=
  match c with RangeTag t => valid_tag t | RangeDate d => in_date_range d end.
Definition on_some {A} (P : A -> Prop) (o : option A) : Prop := match o with Some a => P a | None => True end.

Definition range_value `{HttpDate} (c : RangeCondition) : str :=
  match c with RangeTag t => render_tag t | RangeDate d => fmt_http_date d end.

Definition field_is (r : Request) (name : str) (lines : list str) : Prop :=
  headers_all r name = lines /\ (lines = [] -> header r name = None).

Record presents `{HttpDate} (r : Request) (p : Preconditions) : Prop := {
  pr_match : field_is r §"if-match" (from_option condition_lines [] (pc_match p));
  pr_none_match : field_is r §"if-none-match" (from_option condition_lines [] (pc_none_match p));
  pr_unmodified : field_is r §"if-unmodified-since" (option_list (fmt_http_date <$> pc_unmodified p));
  pr_modified : field_is r §"if-modified-since" (option_list (fmt_http_date <$> pc_modified p));
  pr_range : field_is r §"if-range" (option_list (range_value <$> pc_range p));
  pr_valid_match : on_some valid_condition (pc_match p);
  pr_valid_none_match : on_some valid_condition (pc_none_match p);
  pr_valid_unmodified : on_some in_date_range (pc_unmodified p);
  pr_valid_modified : on_some in_date_range (pc_modified p);
  pr_valid_range : on_some valid_range (pc_range p)
}.

Lemma tag_matches_render comparison a b : valid_tag a -> valid_tag b ->
  tag_matches comparison (render_tag a) (render_tag b) = same_tag comparison a b.
Proof.
  intros Ha Hb. unfold tag_matches, strong_tag_matches, weak_tag_matches, same_tag.
  destruct comparison; rewrite !parse_render_tag by done.
  - destruct (tag_weak a), (tag_weak b); cbn; by rewrite ?andb_false_r, ?andb_true_r.
  - by rewrite andb_true_r.
Qed.

(** The candidates of a rendered list are the rendered tags, up to one space. *)
Lemma tag_lines_candidates lines : valid_condition (TagLines lines) ->
  map trim (entity_tag_list (join [comma] (condition_lines (TagLines lines)))) = map render_tag (concat lines).
Proof.
  intros [Hne Hl].
  assert (E : condition_lines (TagLines lines)
              = map (join [comma]) (map (fun l => match l with
                  | t :: ts => render_tag t :: map (cons Byte.x20) (map render_tag ts) | [] => [] end) lines)).
  { cbn [condition_lines]. rewrite map_map. apply map_ext_in. intros l Hin.
    rewrite <- list_elem_of_In in Hin. rewrite Forall_forall in Hl. destruct (Hl l Hin) as [Hn _].
    destruct l as [|t ts]; [done|]. apply join_space. }
  rewrite E, join_concat.
  2:{ apply Forall_map, Forall_forall. intros l Hin. rewrite Forall_forall in Hl. destruct (Hl l Hin) as [Hn _].
      by destruct l. }
  rewrite entity_tag_list_join.
  - clear E Hne. induction Hl as [|l lines [Hn Hv] Hl IH]; [done|]. cbn [map concat].
    rewrite !map_app, IH. f_equal. destruct l as [|t ts]; [done|]. cbn [map].
    rewrite trim_id by apply render_tag_trimmed. f_equal. rewrite map_map, map_map.
    apply map_ext. intros s. rewrite trim_space. apply trim_id, render_tag_trimmed.
  - destruct lines as [|l lines]; [done|]. apply Forall_cons in Hl as [[Hn _] _]. by destruct l.
  - clear E Hne. induction Hl as [|l lines [Hn Hv] Hl IH]; [constructor|]. cbn [map concat].
    apply Forall_app. split; [|done]. destruct l as [|t ts]; [done|]. apply Forall_cons in Hv as [Ht Hts].
    constructor; [by apply render_tag_closed|]. rewrite !Forall_map. eapply Forall_impl; [exact Hts|].
    intros s Hs. by apply render_tag_closed.
Qed.

Lemma render_tag_not_star t : render_tag t <> §"*".
Proof. unfold render_tag. by destruct (tag_weak t). Qed.

Lemma existsb_map {A B} (f : B -> bool) (g : A -> B) l : existsb f (map g l) = existsb (fun a => f (g a)) l.
Proof. induction l as [|a l IH]; [done|]. cbn. by rewrite IH. Qed.

Lemma existsb_ext_in {A} (f g : A -> bool) l : (forall a, a ∈ l -> f a = g a) -> existsb f l = existsb g l.
Proof.
  induction l as [|a l IH]; intros Hl; [done|]. cbn. rewrite Hl by left. f_equal. apply IH. intros. apply Hl. by right.
Qed.

Lemma condition_matches comparison c current : valid_condition c -> on_some valid_tag current ->
  entity_tag_list_matches (join [comma] (condition_lines c)) (render_tag <$> current) true comparison
  = Some (selects comparison c current).
Proof.
  intros Hc Hcur. unfold entity_tag_list_matches. destruct c as [|lines]; [done|].
  pose proof (tag_lines_candidates lines Hc) as Hws.
  set (ws := entity_tag_list _) in *. clearbody ws. cbn zeta.
  assert (Hn : Forall (fun w => bool_decide (trim w = §"*") = false) ws).
  { apply Forall_forall. intros w Hw. apply bool_decide_eq_false_2. intros E.
    assert (Hin : trim w ∈ map trim ws) by by apply list_elem_of_fmap_2.
    rewrite Hws in Hin. apply list_elem_of_fmap_1 in Hin as (t & Et & _). rewrite E in Et. by apply (render_tag_not_star t). }
  apply existsb_false_Forall in Hn.
  rewrite Hn. cbn [negb]. f_equal. cbn [selects]. destruct current as [t|]; cbn [fmap option_fmap option_map].
  - rewrite <- (existsb_map (fun w => tag_matches comparison w (render_tag t)) trim ws), Hws, existsb_map.
    apply existsb_ext_in. intros a Ha. apply tag_matches_render; [|done]. destruct Hc as [_ Hl].
    rewrite list_elem_of_In, List.in_concat in Ha. destruct Ha as (l & Hin & Ha).
    rewrite <- list_elem_of_In in Hin. rewrite <- list_elem_of_In in Ha. rewrite Forall_forall in Hl. destruct (Hl l Hin) as [_ Hv].
    rewrite Forall_forall in Hv. by apply Hv.
  - clear. by induction ws.
Qed.

Lemma bool_decide_Some_eq (a b : bool) : bool_decide (Some a = Some b) = Bool.eqb a b.
Proof. by destruct a, b. Qed.

Section refinement.
Context `{HttpDate} (r : Request) (p : Preconditions) (Hp : presents r p).

Lemma combined_field name lines : field_is r name lines ->
  combined_request_header r name = match lines with [] => None | _ => Some (join [comma] lines) end.
Proof. intros [E Hn]. unfold combined_request_header. rewrite E. destruct lines; [by apply Hn|done]. Qed.

Lemma date_field name d : field_is r name (option_list (fmt_http_date <$> d)) -> on_some in_date_range d ->
  singleton_request_header r name ≫= parse_http_date = (fun t => t / 1000000000 * 1000000000)%Z <$> d.
Proof.
  intros [E Hn] Hd. unfold singleton_request_header. rewrite E. destruct d as [d|]; cbn in *.
  - by rewrite parse_fmt.
  - by rewrite Hn.
Qed.

Lemma tag_field name c comparison current : field_is r name (from_option condition_lines [] c) ->
  on_some valid_condition c -> on_some valid_tag current ->
  match combined_request_header r name with
  | Some raw => exists c', c = Some c'
      /\ entity_tag_list_matches raw (render_tag <$> current) true comparison = Some (selects comparison c' current)
  | None => c = None
  end.
Proof.
  intros Hf Hc Hcur. rewrite (combined_field _ _ Hf). destruct c as [c|]; [|done]. cbn [from_option] in *.
  destruct (condition_lines c) eqn:E.
  { destruct c as [|[|l lines]]; [done| |done]. by destruct Hc. }
  exists c. split; [done|]. rewrite <- E. by apply condition_matches.
Qed.

Lemma if_range_value current lm c : valid_range c -> on_some valid_tag current ->
  if_range_matches parse_http_date (range_value c) (render_tag <$> current) lm = range_holds (Some c) current lm.
Proof.
  intros Hc Hcur. unfold if_range_matches. destruct c as [t|d]; cbn [range_value valid_range range_holds] in *.
  - rewrite trim_id by apply render_tag_trimmed.
    assert (E : starts_with [dquote] (render_tag t) || starts_with §"W/" (render_tag t) = true).
    { unfold render_tag. destruct (tag_weak t); [apply orb_true_r|done]. }
    rewrite E. destruct current as [cur|]; [|done]. cbn. by apply (tag_matches_render Strong).
  - destruct (fmt_facts d Hc) as (Ht & E1 & E2). rewrite trim_id, E1, E2 by done. cbn [orb].
    rewrite parse_fmt by done. destruct lm as [lm|]; [|done]. rewrite seconds_trunc by apply Hc. done.
Qed.
End refinement.

Lemma first_guard_spec `{HttpDate} r p current lm : presents r p -> on_some valid_tag current ->
  first_guard_fails (from_request parse_http_date r) (render_tag <$> current) true lm
  = negb (match pc_match p with
          | Some c => selects Strong c current
          | None => unmodified_holds (pc_unmodified p) lm end).
Proof.
  intros Hp Hcur. unfold first_guard_fails. cbn [if_match if_unmodified_since from_request].
  pose proof (tag_field r _ _ Strong current (pr_match _ _ Hp) (pr_valid_match _ _ Hp) Hcur) as Hm.
  rewrite (date_field r _ _ (pr_unmodified _ _ Hp) (pr_valid_unmodified _ _ Hp)).
  destruct (combined_request_header r §"if-match") as [raw|].
  - destruct Hm as (c & -> & ->). rewrite bool_decide_Some_eq. by destruct (selects Strong c current).
  - rewrite Hm. pose proof (pr_valid_unmodified _ _ Hp) as Hv.
    destruct (pc_unmodified p) as [d|], lm as [lm|]; try done. cbn in *. unfold modified_after.
    rewrite seconds_trunc by apply Hv. apply Z.ltb_antisym.
Qed.

Lemma second_guard_spec `{HttpDate} r p current lm : presents r p -> on_some valid_tag current ->
  let safe := is_safe (from_request parse_http_date r) in
  second_guard (from_request parse_http_date r) (render_tag <$> current) true lm
  = if match pc_none_match p with
       | Some c => negb (selects Weak c current)
       | None => negb safe || modified_holds (pc_modified p) lm end
    then None else Some (if safe then NotModified else Failed).
Proof.
  intros Hp Hcur safe. unfold second_guard. fold safe. clearbody safe.
  cbn [if_none_match if_modified_since from_request].
  pose proof (tag_field r _ _ Weak current (pr_none_match _ _ Hp) (pr_valid_none_match _ _ Hp) Hcur) as Hm.
  rewrite (date_field r _ _ (pr_modified _ _ Hp) (pr_valid_modified _ _ Hp)).
  destruct (combined_request_header r §"if-none-match") as [raw|].
  - destruct Hm as (c & -> & ->). rewrite bool_decide_Some_eq. by destruct (selects Weak c current).
  - rewrite Hm. pose proof (pr_valid_modified _ _ Hp) as Hv. destruct safe; [|done]. cbn [negb orb].
    destruct (pc_modified p) as [d|], lm as [lm|]; try done. cbn in *. unfold not_modified_since.
    rewrite seconds_trunc by apply Hv. rewrite Z.leb_antisym. by destruct (seconds d <? seconds lm)%Z.
Qed.

Lemma range_guard_spec `{HttpDate} r p current lm requested : presents r p -> on_some valid_tag current ->
  range_guard parse_http_date (from_request parse_http_date r) (render_tag <$> current) lm requested
  = if (requested && bool_decide (is_Some (header r §"range"))) && negb (range_holds (pc_range p) current lm)
    then IgnoreRange else Proceed.
Proof.
  intros Hp Hcur. unfold range_guard. cbn [has_range if_range from_request].
  destruct (requested && _); [|done]. cbn [andb]. unfold singleton_request_header_state.
  destruct (pr_range _ _ Hp) as [-> Hn]. pose proof (pr_valid_range _ _ Hp) as Hv.
  destruct (pc_range p) as [c|].
  - change (option_list (range_value <$> Some c)) with [range_value c]. cbn iota. rewrite if_range_value by done. by destruct (range_holds (Some c) current lm).
  - cbn in *. by rewrite Hn.
Qed.

Lemma evaluate_rfc `{HttpDate} r p current lm requested :
  presents r p -> on_some valid_tag current ->
  evaluate_preconditions parse_http_date r (render_tag <$> current) lm requested
  = rfc_evaluate (bool_decide (method r = §"GET") || bool_decide (method r = §"HEAD")) p current lm
      (requested && bool_decide (is_Some (header r §"range"))).
Proof.
  intros Hp Hcur. unfold evaluate_preconditions, evaluate, evaluate_with_response_validators, rfc_evaluate.
  rewrite (first_guard_spec r p), (second_guard_spec r p), (range_guard_spec r p) by done.
  cbn zeta. unfold is_safe. cbn [c_method from_request]. set (safe := _ || _).
  repeat match goal with |- context [if negb ?b then _ else _] => destruct b; cbn [negb]; try done end.
Qed.

(** C26. Conditional requests are decided as RFC 9110 (13.2.2) prescribes: for a
    request whose fields carry well-formed preconditions, on one line or on
    several, the evaluator gives the outcome of the specification on the
    entity tags themselves: If-Match (strong comparison) or else
    If-Unmodified-Since fails with 412, then If-None-Match (weak
    comparison) or else, on GET and HEAD, If-Modified-Since gives 304, then If-Range
    (strong, or the exact second) decides whether the range is honoured. *)
Theorem preconditions_follow_rfc `{HttpDate} r p current lm requested :
  presents r p -> on_some valid_tag current ->
  evaluate_preconditions parse_http_date r (render_tag <$> current) lm requested
  = rfc_evaluate (bool_decide (method r = §"GET") || bool_decide (method r = §"HEAD")) p current lm
      (requested && bool_decide (is_Some (header r §"range"))).
Proof. apply evaluate_rfc. Qed.

(** ** Revalidation through the middleware *)

Section revalidation.
Context `{HeaderMap HM, HttpTypes, HttpDate}.
Context (sha256 : str -> str) (problem_json : str -> str -> Z -> str -> str -> str).

(** The strong tag of a body. *)
Definition body_tag (body : str) : Tag := mkTag false (sha256_hex sha256 body).

Lemma hex_opaque b : forallb opaque_byte [lower_hex_digit (bval b / 16); lower_hex_digit (bval b mod 16)] = true
  /\ forallb visible_ascii [lower_hex_digit (bval b / 16); lower_hex_digit (bval b mod 16)] = true.
Proof. byte_cases b. Qed.

Lemma sha256_hex_bytes body :
  forallb opaque_byte (sha256_hex sha256 body) = true /\ forallb visible_ascii (sha256_hex sha256 body) = true.
Proof.
  unfold sha256_hex. induction (sha256 body) as [|b l IH]; [done|]. cbn [map concat]. rewrite !forallb_app.
  destruct (hex_opaque b) as [-> ->]. done.
Qed.

Lemma body_tag_valid body : valid_tag (body_tag body).
Proof. apply sha256_hex_bytes. Qed.
Lemma body_tag_value body : header_value (render_tag (body_tag body)) = true.
Proof.
  apply header_value_visible. unfold render_tag, body_tag. cbn [tag_weak tag_opaque app].
  cbn [forallb]. rewrite forallb_app. destruct (sha256_hex_bytes body) as [_ ->]. done.
Qed.

(** A 304 keeps every field but the length and the trailer announcement. *)
Lemma record_build_error_fields (r : Response HM) e :
  let r' := record_build_error r e in
  status r' = status r /\ res_headers r' = res_headers r /\ body_kind r' = body_kind r /\ trailers r' = trailers r.
Proof. unfold record_build_error. by destruct (build_error r). Qed.

Lemma not_modified_headers (r : Response HM) n : n <> CONTENT_LENGTH -> n <> TRAILER ->
  get_all (res_headers (prepare_for_not_modified r)) n = get_all (res_headers r) n.
Proof.
  intros Hn Ht. unfold prepare_for_not_modified, clear_body_and_trailers, clear_body.
  cbn [set_body set_trailers set_headers res_headers]. rewrite get_all_remove_ne by done.
  unfold validate_selected_representation_before_discard, record_result.
  assert (Hrec : forall (r : Response HM) e, res_headers (record_build_error r e) = res_headers r)
    by (intros; apply record_build_error_fields).
  assert (Hp : forall m m' d, parse_content_length (HM := HM) m = Ok (m', d) -> get_all m' n = get_all m n).
  { intros m m' d [(_ & -> & _)|(k & _ & _ & ->)]%parse_content_length_cases; [done|]. by apply get_all_insert_ne. }
  set (r1 := match trailers r with Some _ => _ | None => _ end).
  assert (E1 : res_headers r1 = res_headers r) by (unfold r1; repeat case_match; by rewrite ?Hrec).
  clearbody r1. set (r2 := if contains_key (res_headers r1) TRANSFER_ENCODING then _ else r1).
  assert (E2 : res_headers r2 = res_headers r) by (unfold r2; case_match; by rewrite ?Hrec).
  clearbody r2. destruct (match parse_content_length (res_headers r2) with Ok _ => _ | Err _ => _ end) as [r3 d] eqn:E3.
  assert (H3 : get_all (res_headers r3) n = get_all (res_headers r) n).
  { rewrite <- E2. destruct (parse_content_length (res_headers r2)) as [[m d']|e] eqn:Ep; injection E3 as <- <-.
    - by eapply Hp.
    - by rewrite Hrec. }
  set (r4 := if bool_decide (is_Some d) && _ then _ else r3).
  assert (H4 : get_all (res_headers r4) n = get_all (res_headers r) n) by (unfold r4; destruct (_ && _); by rewrite ?Hrec).
  clearbody r4. set (r5 := match body_kind r4 with Bytes _ => _ | _ => _ end).
  assert (H5 : get_all (res_headers r5) n = get_all (res_headers r) n).
  { unfold r5. destruct (body_kind r4); [|done..]. destruct d as [k|]; [destruct (k =? _)%Z; by rewrite ?Hrec|].
    cbn [set_headers res_headers]. by rewrite get_all_insert_ne. }
  clearbody r5. destruct (_ && _); by rewrite ?Hrec.
Qed.

Lemma not_modified_shape (r : Response HM) :
  body_kind (prepare_for_not_modified r) = Empty /\ trailers (prepare_for_not_modified r) = None.
Proof. done. Qed.

Lemma tag_of_plain (r : Response HM) body :
  body_kind r = Bytes body -> get_all (res_headers r) ETAG = [] ->
  response_tag sha256 problem_json Offloaded r
  = inl (set_headers r (hm_insert (res_headers r) ETAG (render_tag (body_tag body))), Some (render_tag (body_tag body)), true).
Proof.
  intros Hb He. unfold response_tag, singleton_response_header. rewrite He. unfold body_bytes. rewrite Hb.
  assert (E : (if (BLOCKING_HASH_THRESHOLD <=? body_len body)%Z then Ok (sha256_hex sha256 body)
               else Ok (sha256_hex sha256 body)) = @Ok str str (sha256_hex sha256 body)) by by case_match.
  rewrite E. pose proof (body_tag_value body) as Hv. unfold render_tag, body_tag in *. cbn [tag_weak tag_opaque app] in *.
  unfold with_header, try_set_header. rewrite header_name_plain by done. by rewrite Hv.
Qed.

(** What a client that holds the tag of [held] asks for. *)
Definition revalidation (held : option str) : Preconditions :=
  mkPreconditions None ((fun b => TagLines [[body_tag b]]) <$> held) None None None.

(** The [etag] middleware and If-None-Match form a cache round trip: a GET
    without conditions gets the body and its strong tag; sending that tag
    back is answered 304 with the same tag and no body exactly when the
    body it was computed from has the digest of the current one, and with the full
    tagged response otherwise. *)
Theorem etag_revalidates (req : Request) (r : Response HM) body held :
  method req = §"GET" -> presents req (revalidation held) ->
  status r = 200%Z -> body_kind r = Bytes body ->
  get_all (res_headers r) ETAG = [] -> get_all (res_headers r) LAST_MODIFIED = [] ->
  let tag := render_tag (body_tag body) in
  let out := etag_middleware parse_http_date sha256 problem_json req Offloaded r in
  get_all (res_headers out) ETAG = [tag]
  /\ if bool_decide (sha256_hex sha256 <$> held = Some (sha256_hex sha256 body))
     then status out = 304%Z /\ body_kind out = Empty /\ trailers out = None
     else status out = 200%Z /\ body_kind out = Bytes body.
Proof.
  intros Hm Hp Hs Hb He Hl tag out. subst out. unfold etag_middleware. rewrite Hs. cbn [negb Z.eqb Pos.eqb].
  rewrite (tag_of_plain r body) by done. fold tag. unfold singleton_response_header.
  cbn [set_headers res_headers]. rewrite get_all_insert_ne by (by vm_compute). rewrite Hl, Hm.
  change (bool_decide (§"GET" = §"GET") || _) with true. cbn iota.
  change (evaluate_with_response_validators parse_http_date (from_request parse_http_date req) (Some tag) true None false)
    with (evaluate_preconditions parse_http_date req (render_tag <$> Some (body_tag body)) None false).
  rewrite (evaluate_rfc req (revalidation held)), Hm by (done || apply body_tag_valid).
  assert (E : forall ranged, rfc_evaluate true (revalidation held) (Some (body_tag body)) None ranged
              = match held with
                | Some h => if decide (sha256_hex sha256 h = sha256_hex sha256 body) then NotModified else Proceed
                | None => Proceed
                end).
  { intros ranged. unfold rfc_evaluate, revalidation. destruct held as [h|]; cbn; [|by rewrite andb_false_r].
    unfold same_tag. cbn [body_tag tag_opaque]. rewrite andb_true_r, orb_false_r, andb_false_r.
    by repeat case_decide || case_bool_decide. }
  change (bool_decide (§"GET" = §"GET") || _) with true. rewrite E.
  destruct held as [h|]; [destruct (decide (sha256_hex sha256 h = sha256_hex sha256 body)) as [Eh|Eh]|].
  - rewrite bool_decide_eq_true_2 by (cbn; by f_equal). unfold with_status.
    rewrite (proj2 (status_code_range 304)) by done.
    split_and!; [|done|done|done]. cbn [set_status res_headers].
    rewrite not_modified_headers by (by vm_compute). apply get_all_insert_eq.
  - rewrite bool_decide_eq_false_2 by (cbn; congruence). cbn [res_headers set_headers]. by rewrite get_all_insert_eq.
  - rewrite bool_decide_eq_false_2 by done. cbn [res_headers set_headers]. by rewrite get_all_insert_eq.
Qed.
End revalidation.

(** ** Instances *)

(** A date format with the stated properties: the seconds in decimal. *)
Definition sample_fmt (t : SystemTime) : str := §"Mon" ++ §", " ++ to_dec (t / 1000000000) ++ §" GMT".
Definition sample_parse (s : str) : option SystemTime :=
  match strip_prefix §"Mon, " s with
  | Some s => match strip_suffix §" GMT" s with
              | Some digits => (fun n => n * 1000000000)%Z <$> parse_u64 digits
              | None => None
              end
  | None => None
  end.

#[export] Program Instance sample_http_date : HttpDate :=
  {| fmt_http_date := sample_fmt; parse_http_date := sample_parse |}.
Next Obligation.
  intros t _. exists §"Mon", (to_dec (t / 1000000000)). split; [|done]. unfold weekdays. set_solver.
Qed.
Next Obligation.
  intros t Ht. unfold sample_fmt. rewrite !forallb_app. apply andb_true_iff; split; [done|].
  apply andb_true_iff; split; [done|]. apply andb_true_iff; split; [|done].
  apply forallb_digits_visible, forallb_true_Forall, to_dec_spec. apply Z.div_pos; lia.
Qed.
Next Obligation.
  intros t Ht. unfold sample_parse, sample_fmt. rewrite (app_assoc §"Mon" §", ").
  change (§"Mon" ++ §", ") with §"Mon, ". rewrite strip_prefix_app. unfold strip_suffix.
  rewrite (proj2 (ends_with_iff _ _)) by eauto. rewrite length_app, Nat.add_sub, take_app_length.
  rewrite parse_u64_to_dec; [done|]. unfold date_limit, u64_max in *.
  split; [apply Z.div_pos; lia|]. apply Z.div_le_upper_bound; lia.
Qed.
#[export] Remove Hints sample_http_date : typeclass_instances.

Module Conditions.
#[local] Existing Instance assoc_header_map.
#[local] Existing Instance reference_http_types.
#[local] Existing Instance sample_http_date.

Definition tag_a : Tag := mkTag true §"a,1".
Definition tag_b : Tag := mkTag false §"b".
Definition request : Request :=
  build (build_header (build_header RequestBuilder_new §"If-None-Match" (join §", " (map render_tag [tag_a; tag_b])))
           §"Range" §"bytes=0-").
Definition conditions : Preconditions :=
  mkPreconditions None (Some (TagLines [[tag_a; tag_b]])) None None None.

Lemma request_presents : presents request conditions.
Proof. split; try (by vm_compute). cbn. split; [done|]. by repeat constructor. Qed.

(** A comma inside a tag does not split it, and the weak comparison selects. *)
Lemma preconditions_follow_rfc_witness :
  evaluate_preconditions parse_http_date request (render_tag <$> Some (mkTag false §"a,1")) (Some 0%Z) true = NotModified.
Proof.
  rewrite (preconditions_follow_rfc request conditions (Some (mkTag false §"a,1")) (Some 0%Z) true);
    [by vm_compute|apply request_presents|by vm_compute].
Defined.

Definition digest (s : str) : str := s.
Definition problem (_ _ : str) (_ : Z) (detail _ : str) : str := detail.
Definition again : Request :=
  build (build_header RequestBuilder_new §"If-None-Match" (render_tag (body_tag digest §"hola"))).
Lemma again_presents : presents again (revalidation digest (Some §"hola")).
Proof. split; try (by vm_compute). cbn. split; [done|]. by repeat constructor. Qed.

Lemma etag_revalidates_witness :
  let out := etag_middleware (HM := AssocHeaders) parse_http_date digest problem again Offloaded (response_send §"hola") in
  get_all (res_headers out) ETAG = [render_tag (body_tag digest §"hola")] /\ status out = 304%Z.
Proof.
  pose proof (etag_revalidates digest problem again (response_send (HM := AssocHeaders) §"hola") §"hola" (Some §"hola")
                eq_refl again_presents eq_refl eq_refl eq_refl eq_refl) as [Ht Hs].
  rewrite bool_decide_eq_true_2 in Hs by done. split; [exact Ht|apply Hs].
Defined.
End Conditions.
