(* ===== verification/Compression.v ===== *)
(** * Response compression ([src/app/middleware/compression.rs])

    Negotiation of a content coding from Accept-Encoding, and what the
    middleware does to a response: the coded body, the Content-Encoding and Vary
    fields, the removal of the fields that described the other bytes, and 406
    when nothing is acceptable. The encoders (flate2, brotli) are a parameter.
    Proved: the coding sent is one the client prefers most, identity is sent
    only when acceptable, 406 only when nothing else is, and every answer is
    keyed by Accept-Encoding for caches. *)
From S2P Require Import Prelude Strs Percent Request Headers Response Conditional.

Abbreviation dot := Byte.x2e.

Definition COMPRESSION_MIN_BYTES : Z := 1024.
Definition BLOCKING_COMPRESSION_THRESHOLD : Z := 64 * 1024.

Inductive Encoding := Gzip | Brotli | Deflate.
#[export] Instance Encoding_eq_dec : EqDecision Encoding.
Proof. solve_decision. Defined.

Definition encoding_name (e : Encoding) : str :=
  match e with Gzip => §"gzip" | Brotli => §"br" | Deflate => §"deflate" end.
Definition server_preference (e : Encoding) : Z :=
  match e with Gzip => 0 | Brotli => 1 | Deflate => 2 end.
(** With and without the [brotli] feature. *)
Definition supported_encodings (brotli : bool) : list Encoding :=
  [Gzip] ++ (if brotli then [Brotli] else []) ++ [Deflate].

Record CodingPreference := mkPreference { coding : Encoding; quality : Z; client_order : Z }.
Inductive Negotiation := Encode (encoding : Encoding) (identity_acceptable : bool) | Identity | NotAcceptable.

(** ** Accept-Encoding *)

Record AcceptEncodingToken := mkToken { tok_name : str; tok_quality : Z; tok_order : Z }.

Definition parse_quality (raw : str) : option Z :=
  let '(whole, fraction) := default (raw, []) (split_once dot raw) in
  if bool_decide (whole = §"0") then
    if (3 <? length fraction)%nat || negb (forallb is_ascii_digit fraction) then None
    else parse_uint 65535 (fraction ++ repeat Byte.x30 (3 - length fraction))
  else if bool_decide (whole = §"1") then
    if existsb (fun b => negb (bool_decide (b = Byte.x30))) fraction || (3 <? length fraction)%nat then None else Some 1000%Z
  else None.

Definition token_param (quality : Z) (param : str) : Z :=
  match split_once equals (trim param) with
  | None => quality
  | Some (key, value) =>
      if eq_ignore_ascii_case (trim key) §"q" then default 0%Z (parse_quality (trim value)) else quality
  end.

Definition parse_accept_encoding_token (client_order : nat) (raw : str) : option AcceptEncodingToken :=
  let raw := trim raw in
  if bool_decide (raw = []) then None
  else match split_on semicolon raw with
       | [] => None
       | name :: params =>
           let name := to_ascii_lowercase (trim name) in
           if bool_decide (name = []) then None
           else Some (mkToken name (foldl token_param 1000%Z params) (Z.of_nat client_order))
       end.

(** [split(',').enumerate().filter_map(parse_accept_encoding_token)]. *)
Definition accept_tokens (header : str) : list AcceptEncodingToken :=
  omap id (imap parse_accept_encoding_token (split_on comma header)).
Definition find_token (name : str) (tokens : list AcceptEncodingToken) : option AcceptEncodingToken :=
  List.find (fun t => bool_decide (tok_name t = name)) tokens.
Definition token_quality (name : str) (tokens : list AcceptEncodingToken) : option Z := tok_quality <$> find_token name tokens.

Definition option_or {A} (a b : option A) : option A := match a with Some _ => a | None => b end.

(** The default of identity: acceptable unless the wildcard excludes it. *)
Definition identity_default (wildcard : option Z) : Z := if bool_decide (wildcard = Some 0%Z) then 0 else 1000.

(** The comparison of [max_by]: quality, then the server's order, then the client's. *)
Definition prefer (left right : CodingPreference) : comparison :=
  match (quality left ?= quality right)%Z with
  | Eq => match (server_preference (coding right) ?= server_preference (coding left))%Z with
          | Eq => (client_order right ?= client_order left)%Z
          | c => c
          end
  | c => c
  end.
(** [Iterator::max_by]: of equal elements the last. *)
Definition max_by {A} (compare : A -> A -> comparison) (l : list A) : option A :=
  foldl (fun best x => match best with
                       | None => Some x
                       | Some best => Some (match compare best x with Gt => best | _ => x end)
                       end) None l.

Definition preference_for (tokens : list AcceptEncodingToken) (coding : Encoding) : option CodingPreference :=
  let explicit := find_token (encoding_name coding) tokens in
  let wildcard := find_token §"*" tokens in
  let quality := default 0%Z (option_or (tok_quality <$> explicit) (tok_quality <$> wildcard)) in
  let client_order := default u64_max (option_or (tok_order <$> explicit) (tok_order <$> wildcard)) in
  if (0 <? quality)%Z then Some (mkPreference coding quality client_order) else None.

Definition negotiate_encoding (header : str) (supported : list Encoding) : Negotiation :=
  let tokens := accept_tokens header in
  let explicit_identity := token_quality §"identity" tokens in
  let identity_quality := default (identity_default (token_quality §"*" tokens)) explicit_identity in
  match max_by prefer (omap (preference_for tokens) supported) with
  | None => if (identity_quality =? 0)%Z then NotAcceptable else Identity
  | Some best =>
      if match explicit_identity with Some q => (quality best <? q)%Z | None => false end then Identity
      else Encode (coding best) (0 <? identity_quality)%Z
  end.

(** The codings of a Content-Encoding field, and whether a client takes them. *)
Definition codings (content_encoding : str) : list str :=
  List.filter (fun c => negb (bool_decide (c = []))) (map trim (split_on comma content_encoding)).
Definition coding_accepted (tokens : list AcceptEncodingToken) (coding : str) : bool :=
  let wildcard := token_quality §"*" tokens in
  if eq_ignore_ascii_case coding §"identity" then
    (0 <? default (identity_default wildcard) (token_quality §"identity" tokens))%Z
  else
    (0 <? default 0 (option_or (tok_quality <$> List.find (fun t => eq_ignore_ascii_case (tok_name t) coding) tokens) wildcard))%Z.
Definition preencoded_is_acceptable (accept_encoding content_encoding : option str) : bool :=
  match content_encoding with
  | None => false
  | Some content_encoding =>
      if bool_decide (codings content_encoding = []) then false
      else match accept_encoding with
           | None => true
           | Some accept_encoding => forallb (coding_accepted (accept_tokens accept_encoding)) (codings content_encoding)
           end
  end.

(** ** The response *)

Definition VARY : str := §"vary".
Definition CONTENT_ENCODING : str := §"content-encoding".
Definition CACHE_CONTROL : str := §"cache-control".

Definition status_has_no_representation (status : Z) : bool :=
  ((100 <=? status) && (status <? 200) || (status =? 204) || (status =? 205) || (status =? 304))%Z.
Definition has_no_transform (cache_control : str) : bool :=
  existsb (fun token => eq_ignore_ascii_case (trim token) §"no-transform") (split_on comma cache_control).

(** The fields of the Vary values but for the wildcard, each once. *)
Definition canonical_field (field : str) : str :=
  if eq_ignore_ascii_case field §"accept-encoding" then §"Accept-Encoding" else field.
Definition add_vary_field (fields : list str) (field : str) : list str :=
  if existsb (fun existing => eq_ignore_ascii_case existing (canonical_field field)) fields then fields
  else fields ++ [canonical_field field].
Definition vary_pieces (values : list str) : list str :=
  List.filter (fun f => negb (bool_decide (f = []))) (concat (map (fun v => map trim (split_on comma v)) values)).

Section middleware.
Context `{HeaderMap HM, HttpTypes}.
Context (problem_json : str -> str -> Z -> str -> str -> str) (encode : Encoding -> str -> option str).
Implicit Types r : Response HM.
Abbreviation from_error := (from_error problem_json).

(** [None]: absent; [Some None]: a value that is no text. *)
Definition combined_content_encoding r : option (option str) :=
  match get_all (res_headers r) CONTENT_ENCODING with
  | [] => None
  | values =>
      Some (if forallb value_to_str values
            then Some (foldl (fun combined v => (if bool_decide (combined = []) then [] else combined ++ [comma]) ++ v) [] values)
            else None)
  end.

Definition stale_fields : list str :=
  [CONTENT_LENGTH; §"accept-ranges"; §"content-range"; ETAG; §"content-md5"; §"digest"; §"content-digest"; §"repr-digest"].
Definition remove_stale_representation_headers r : Response HM :=
  set_headers r (foldl hm_remove (res_headers r) stale_fields).

Definition should_skip_transform r (min_size : Z) : bool :=
  (status r =? 206)%Z
  || bool_decide (is_Some (trailers r))
  || existsb (fun v => if value_to_str v then has_no_transform v else true) (get_all (res_headers r) CACHE_CONTROL)
  || starts_with §"image/"
       (to_ascii_lowercase
          (match hm_get (res_headers r) CONTENT_TYPE with
           | Some v => if value_to_str v then v else content_type r
           | None => content_type r
           end))
  || match body_bytes r with Some b => (Z.of_nat (length b) <? min_size)%Z | None => true end.

Definition ensure_accept_encoding_vary r : Response HM :=
  let m := res_headers r in
  let existing := get_all m VARY in
  set_headers r
    (if negb (forallb value_to_str existing) then hm_insert (hm_remove m VARY) VARY §"*"
     else
       let pieces := vary_pieces existing in
       let fields := foldl add_vary_field [] (List.filter (fun f => negb (bool_decide (f = §"*"))) pieces) in
       if existsb (fun f => bool_decide (f = §"*")) pieces then hm_insert m VARY §"*"
       else
         let fields := if existsb (fun f => eq_ignore_ascii_case f §"accept-encoding") fields then fields
                       else fields ++ [§"Accept-Encoding"] in
         let combined := join §", " fields in
         if header_value combined then hm_insert m VARY combined else hm_insert m VARY §"*").

Definition not_acceptable_response : Response HM :=
  from_error (error_header (HttpError_new 406 §"not_acceptable" §"No hay una codificacion de respuesta aceptable")
                VARY §"Accept-Encoding").

(** [Encoding::encode] and [encode_response_body]; a body of at least the
    threshold is encoded by a blocking task, which [offload] admits. *)
Definition encoding_encode (e : Encoding) (body : str) : result str (HttpError HM) :=
  match encode e body with
  | Some coded => Ok coded
  | None => Err (with_source (internal_server_error §"No se pudo comprimir la respuesta") OtherSource)
  end.
Definition encode_response_body (offload : Offload) (body : str) (e : Encoding) : result str (HttpError HM) :=
  if (Z.of_nat (length body) <? BLOCKING_COMPRESSION_THRESHOLD)%Z then encoding_encode e body
  else match offload with
       | NotAdmitted => Err (with_source (internal_server_error §"No se pudo programar la compresion") OtherSource)
       | TaskFailed => Err (with_source (internal_server_error §"No se pudo completar la compresion") OtherSource)
       | Offloaded => encoding_encode e body
       end.

(** The middleware on the response [r] of the inner layers. A transform is only
    tried on a buffered body ([should_skip_transform]). *)
Definition compression_middleware (min_size : Z) (supported : list Encoding) (req : Request) (offload : Offload) r : Response HM :=
  let accept_encoding := combined_request_header req §"accept-encoding" in
  let negotiation := (fun header => negotiate_encoding header supported) <$> accept_encoding in
  if status_has_no_representation (status r) then
    if (status r =? 304)%Z then ensure_accept_encoding_vary r else r
  else match combined_content_encoding r with
  | Some content_encoding =>
      let r := ensure_accept_encoding_vary r in
      if preencoded_is_acceptable accept_encoding content_encoding then r else not_acceptable_response
  | None =>
      let transform_skipped := should_skip_transform r min_size in
      let r := ensure_accept_encoding_vary r in
      match negotiation with
      | Some (Encode encoding identity_acceptable) =>
          if transform_skipped then if identity_acceptable then r else not_acceptable_response
          else
            match encode_response_body offload (default [] (body_bytes r)) encoding with
            | Ok body =>
                let r := (replace_body_bytes r body).1 in
                with_header (remove_stale_representation_headers r) CONTENT_ENCODING (encoding_name encoding)
            | Err e => from_error e
            end
      | Some NotAcceptable => not_acceptable_response
      | Some Identity | None => r
      end
  end.
Definition gzip_middleware := compression_middleware 0 [Gzip].
Definition compression_with_min_size (brotli : bool) (min_size : Z) := compression_middleware min_size (supported_encodings brotli).
Definition compression (brotli : bool) := compression_with_min_size brotli COMPRESSION_MIN_BYTES.
End middleware.

(** ** Negotiation *)

(** What the client asks of a coding: its own weight or else the wildcard's. *)
Definition weight (tokens : list AcceptEncodingToken) (e : Encoding) : Z :=
  default 0%Z (option_or (token_quality (encoding_name e) tokens) (token_quality §"*" tokens)).
Definition identity_weight (tokens : list AcceptEncodingToken) : Z :=
  default (identity_default (token_quality §"*" tokens)) (token_quality §"identity" tokens).

Lemma parse_digits_nonneg max s : forall acc n, (0 <= acc)%Z -> parse_digits max acc s = Some n -> (0 <= n)%Z.
Proof.
  induction s as [|c s IH]; intros acc n Hacc; cbn; [by intros [= <-]|].
  destruct (is_ascii_digit c) eqn:Hc; [|done]. destruct (_ <=? max)%Z; [|done].
  apply IH. pose proof (digit_bval c Hc). lia.
Qed.

Lemma parse_quality_nonneg raw : (0 <= default 0 (parse_quality raw))%Z.
Proof.
  unfold parse_quality. destruct (default (raw, []) _) as [whole fraction]. case_bool_decide.
  - destruct (_ || _); [done|]. destruct (parse_uint _ _) as [n|] eqn:E; [|done].
    unfold parse_uint in E. destruct (_ ++ _) as [|c t]; [done|]. case_bool_decide; [destruct t; [done|]|];
      eapply parse_digits_nonneg in E; cbn; lia.
  - case_bool_decide; [|done]. by destruct (_ || _).
Qed.

Lemma token_nonneg i raw t : parse_accept_encoding_token i raw = Some t -> (0 <= tok_quality t)%Z.
Proof.
  unfold parse_accept_encoding_token. case_bool_decide; [done|]. destruct (split_on _ _) as [|name params]; [done|].
  case_bool_decide; [done|]. intros [= <-]. cbn [tok_quality].
  assert (0 <= 1000)%Z as Hq by lia. revert Hq. generalize 1000%Z. induction params as [|p params IH]; intros q Hq; cbn [foldl]; [done|].
  apply IH. unfold token_param. destruct (split_once _ _) as [[k v]|]; [|done].
  destruct (eq_ignore_ascii_case _ _); [apply parse_quality_nonneg|done].
Qed.

Lemma accept_tokens_nonneg header t : t ∈ accept_tokens header -> (0 <= tok_quality t)%Z.
Proof.
  unfold accept_tokens. rewrite list_elem_of_omap. intros (o & Ho & E). cbn in E. subst o.
  apply elem_of_lookup_imap in Ho as (i & raw & E & _). by eapply token_nonneg.
Qed.

Lemma token_quality_nonneg header name q : token_quality name (accept_tokens header) = Some q -> (0 <= q)%Z.
Proof.
  unfold token_quality, find_token. destruct (List.find _ _) as [t|] eqn:E; [|done]. intros [= <-].
  apply find_Some_elem in E as [E _]. by eapply accept_tokens_nonneg.
Qed.

Lemma weight_nonneg header e : (0 <= weight (accept_tokens header) e)%Z.
Proof.
  unfold weight, option_or. destruct (token_quality (encoding_name e) _) as [q|] eqn:E; [by apply token_quality_nonneg in E|].
  destruct (token_quality §"*" _) as [q|] eqn:E'; [by apply token_quality_nonneg in E'|done].
Qed.

Lemma identity_weight_nonneg header : (0 <= identity_weight (accept_tokens header))%Z.
Proof.
  unfold identity_weight. destruct (token_quality §"identity" _) as [q|] eqn:E; [by apply token_quality_nonneg in E|].
  cbn. unfold identity_default. by case_bool_decide.
Qed.

Lemma preference_for_spec tokens e :
  preference_for tokens e =
    if (0 <? weight tokens e)%Z
    then Some (mkPreference e (weight tokens e)
                (default u64_max (option_or (tok_order <$> find_token (encoding_name e) tokens) (tok_order <$> find_token §"*" tokens))))
    else None.
Proof. done. Qed.

(** [max_by] of a total preorder. *)
Lemma max_by_spec {A} (compare : A -> A -> comparison) (l : list A) :
  (forall x, compare x x <> Lt) ->
  (forall x y, compare x y <> Gt -> compare y x <> Lt) ->
  (forall x y z, compare x y <> Lt -> compare y z <> Lt -> compare x z <> Lt) ->
  match max_by compare l with
  | None => l = []
  | Some best => best ∈ l /\ forall x, x ∈ l -> compare best x <> Lt
  end.
Proof.
  intros Hrefl Htot Htrans. unfold max_by. induction l as [|x l IH] using rev_ind; [done|].
  rewrite foldl_snoc. destruct (foldl _ None l) as [best|]; cbn.
  - destruct IH as [Hin Hbest]. destruct (compare best x) eqn:E; (split; [set_solver|]);
      intros y [Hy| ->%list_elem_of_singleton]%elem_of_app; auto; try congruence;
      (eapply Htrans; [|by apply Hbest]); apply Htot; congruence.
  - subst l. split; [by left|]. by intros y ->%list_elem_of_singleton.
Qed.

Lemma prefer_ge a b : prefer a b <> Lt <->
  (quality b < quality a)%Z \/ quality a = quality b /\
    ((server_preference (coding a) < server_preference (coding b))%Z
     \/ server_preference (coding a) = server_preference (coding b) /\ (client_order a <= client_order b)%Z).
Proof.
  unfold prefer. destruct (Z.compare_spec (quality a) (quality b)); [|split; [done|lia]|split; [lia|done]].
  destruct (Z.compare_spec (server_preference (coding b)) (server_preference (coding a))); [|split; [done|lia]|split; [lia|done]].
  destruct (Z.compare_spec (client_order b) (client_order a)); split; done || lia.
Qed.

Lemma prefer_total a b : prefer a b <> Gt -> prefer b a <> Lt.
Proof.
  rewrite prefer_ge. unfold prefer. destruct (Z.compare_spec (quality a) (quality b)); [|lia|done].
  destruct (Z.compare_spec (server_preference (coding b)) (server_preference (coding a))); [|lia|done].
  destruct (Z.compare_spec (client_order b) (client_order a)); done || lia.
Qed.

(** No supported coding is preferred to [e]. *)
Definition best_coding (tokens : list AcceptEncodingToken) (supported : list Encoding) (e : Encoding) : Prop :=
  e ∈ supported /\ (0 < weight tokens e)%Z
  /\ forall e', e' ∈ supported ->
       (weight tokens e' < weight tokens e)%Z
       \/ weight tokens e' = weight tokens e /\ (server_preference e <= server_preference e')%Z.

Lemma negotiate_spec header supported :
  let tokens := accept_tokens header in
  match negotiate_encoding header supported with
  | Encode e identity_acceptable =>
      best_coding tokens supported e /\ identity_acceptable = (0 <? identity_weight tokens)%Z
      /\ forall q, token_quality §"identity" tokens = Some q -> (q <= weight tokens e)%Z
  | Identity =>
      (0 < identity_weight tokens)%Z
      /\ ((forall e, e ∈ supported -> weight tokens e = 0%Z)
          \/ exists q, token_quality §"identity" tokens = Some q /\ forall e, e ∈ supported -> (weight tokens e < q)%Z)
  | NotAcceptable => identity_weight tokens = 0%Z /\ forall e, e ∈ supported -> weight tokens e = 0%Z
  end.
Proof.
  cbv zeta. unfold negotiate_encoding. set (tokens := accept_tokens header).
  assert (forall e, 0 <= weight tokens e)%Z as Hw by (intros; apply weight_nonneg).
  pose proof (identity_weight_nonneg header) as Hi. fold tokens in Hi. fold (identity_weight tokens).
  pose proof (max_by_spec prefer (omap (preference_for tokens) supported)) as Hmax.
  assert (forall x e, preference_for tokens e = Some x -> coding x = e /\ quality x = weight tokens e /\ (0 < weight tokens e)%Z) as Hp.
  { intros x e. rewrite preference_for_spec. destruct (Z.ltb_spec 0 (weight tokens e)); [|done]. by intros [= <-]. }
  destruct (max_by _ _) as [best|].
  - destruct Hmax as [Hin Hbest]; [intros x; rewrite prefer_ge; lia|apply prefer_total|intros x y z; rewrite !prefer_ge; lia|].
    apply list_elem_of_omap in Hin as (e & He & Hpe). apply Hp in Hpe as (Hc & Hq & Hpos).
    assert (forall e', e' ∈ supported -> (weight tokens e' < weight tokens e)%Z
       \/ weight tokens e' = weight tokens e /\ (server_preference e <= server_preference e')%Z) as Hle.
    { intros e' He'. destruct (preference_for tokens e') as [x|] eqn:E.
      - assert (prefer best x <> Lt) as Hge by (apply Hbest, list_elem_of_omap; eauto).
        apply Hp in E as (? & ? & ?). apply prefer_ge in Hge. subst e. rewrite <- Hq. subst e'. lia.
      - rewrite preference_for_spec in E. destruct (Z.ltb_spec 0 (weight tokens e')); [done|]. specialize (Hw e'). lia. }
    rewrite Hq, Hc. destruct (token_quality §"identity" tokens) as [q|] eqn:Eq.
    + destruct (Z.ltb_spec (weight tokens e) q).
      * split; [unfold identity_weight; rewrite Eq; cbn; lia|]. right. exists q. split; [done|]. intros e' He'.
        specialize (Hle e' He'). lia.
      * split; [done|]. split; [done|]. intros ? [= <-]. done.
    + done.
  - assert (forall e, e ∈ supported -> weight tokens e = 0%Z) as H0.
    { intros e He. destruct (preference_for tokens e) as [x|] eqn:E.
      - assert (x ∈ omap (preference_for tokens) supported) as Hx by (apply list_elem_of_omap; eauto).
        rewrite Hmax in Hx; [by apply not_elem_of_nil in Hx|..]; [intros y; rewrite prefer_ge; lia|apply prefer_total|intros ? ? ?; rewrite !prefer_ge; lia].
      - rewrite preference_for_spec in E. destruct (Z.ltb_spec 0 (weight tokens e)); [done|]. specialize (Hw e). lia. }
    destruct (Z.eqb_spec (identity_weight tokens) 0); [done|]. split; [lia|by left].
Qed.

(** ** Vary *)

(** A Vary value covers a request field. *)
Definition covers (value field : str) : Prop :=
  value = §"*" \/ exists f, f ∈ map trim (split_on comma value) /\ eq_ignore_ascii_case f field = true.

Lemma eq_ignore_iff s t : eq_ignore_ascii_case s t = true <-> to_ascii_lowercase s = to_ascii_lowercase t.
Proof. unfold eq_ignore_ascii_case. apply bool_decide_eq_true. Qed.

(** The pieces of a list field: no comma, trimmed. *)
Definition piece (f : str) : Prop := comma ∉ f /\ trimmed f.

Lemma vary_pieces_ok values : Forall piece (vary_pieces values).
Proof.
  unfold vary_pieces. apply Forall_forall. intros f Hf. apply elem_of_filter_bool in Hf as [Hf _].
  apply list_elem_of_In, in_concat in Hf as (l & Hl & Hf). apply in_map_iff in Hl as (v & <- & _).
  apply in_map_iff in Hf as (w & <- & Hw). apply list_elem_of_In, split_on_infix in Hw as [Hw _].
  split; [|apply trim_trimmed]. intros Hc. by apply Hw, trim_elem.
Qed.

Lemma canonical_piece f : piece f -> piece (canonical_field f).
Proof.
  unfold canonical_field. destruct (eq_ignore_ascii_case _ _); [|done]. intros _.
  split; [by apply contains_false|]. apply solid_trimmed. by apply forallb_true_Forall.
Qed.

Lemma canonical_same f : to_ascii_lowercase (canonical_field f) = to_ascii_lowercase f.
Proof. unfold canonical_field. destruct (eq_ignore_ascii_case _ _) eqn:E; [|done]. by apply eq_ignore_iff in E. Qed.

Lemma add_vary_fields pieces : Forall piece pieces -> forall fields, Forall piece fields ->
  Forall piece (foldl add_vary_field fields pieces)
  /\ forall f, (f ∈ fields \/ f ∈ pieces) ->
       exists f', f' ∈ foldl add_vary_field fields pieces /\ to_ascii_lowercase f' = to_ascii_lowercase f.
Proof.
  induction 1 as [|p pieces Hp _ IH]; intros fields Hfields; cbn [foldl].
  { split; [done|]. intros f [Hf|Hf]; [eauto|by apply not_elem_of_nil in Hf]. }
  destruct (IH (add_vary_field fields p)) as [Hall Hin].
  { unfold add_vary_field. destruct (existsb _ _); [done|]. apply Forall_app. split; [done|].
    constructor; [by apply canonical_piece|constructor]. }
  split; [done|]. assert (exists f', f' ∈ add_vary_field fields p /\ to_ascii_lowercase f' = to_ascii_lowercase p) as (p' & Hp' & Ep).
  { unfold add_vary_field. destruct (existsb _ _) eqn:E.
    - apply existsb_exists in E as (f' & Hf' & E). apply list_elem_of_In in Hf'. apply eq_ignore_iff in E.
      exists f'. by rewrite E, canonical_same.
    - exists (canonical_field p). split; [|apply canonical_same]. apply elem_of_app. right. by left. }
  intros f [Hf|[-> |Hf]%elem_of_cons].
  - apply Hin. left. unfold add_vary_field. destruct (existsb _ _); [done|]. apply elem_of_app. by left.
  - destruct (Hin p') as (f' & ? & E); [by left|]. exists f'. by rewrite E, Ep.
  - apply Hin. by right.
Qed.

Lemma join_covers fields f field : Forall piece fields -> f ∈ fields -> to_ascii_lowercase f = to_ascii_lowercase field ->
  covers (join §", " fields) field.
Proof.
  intros Hp Hf E. right. exists f. split; [|by apply eq_ignore_iff]. destruct fields as [|w ws]; [by apply not_elem_of_nil in Hf|].
  change (§", ") with [comma; Byte.x20]. rewrite split_on_join_space; [|done|].
  2:{ eapply Forall_impl; [exact Hp|]. by intros ? []. }
  cbn [map]. apply Forall_cons in Hp as [Hw Hws]. apply elem_of_cons in Hf as [-> |Hf].
  - rewrite trim_id by apply Hw. by left.
  - right. apply list_elem_of_In. rewrite map_map. apply in_map_iff. exists f. split; [|by apply list_elem_of_In].
    rewrite trim_space. apply trim_id. rewrite Forall_forall in Hws. by apply Hws.
Qed.

(** Accept-Encoding is among the fields that are sent. *)
Lemma accept_encoding_field fields : Forall piece fields ->
  let all := if existsb (fun f => eq_ignore_ascii_case f §"accept-encoding") fields then fields
             else fields ++ [§"Accept-Encoding"] in
  Forall piece all /\ (forall f, f ∈ fields -> f ∈ all)
  /\ exists f, f ∈ all /\ to_ascii_lowercase f = to_ascii_lowercase §"accept-encoding".
Proof.
  intros Hp. cbv zeta. destruct (existsb _ fields) eqn:E.
  - apply existsb_exists in E as (f & Hf & E). apply eq_ignore_iff in E. apply list_elem_of_In in Hf. eauto 6.
  - split_and!.
    + apply Forall_app. split; [done|]. constructor; [|constructor].
      split; [by apply contains_false|]. apply solid_trimmed. by apply forallb_true_Forall.
    + intros f Hf. apply elem_of_app. by left.
    + exists §"Accept-Encoding". split; [|done]. apply elem_of_app. right. by left.
Qed.

Section vary.
Context `{HeaderMap HM, HttpTypes}.
Implicit Types r : Response HM.

(** The response has one Vary value, which covers Accept-Encoding. *)
Definition keyed r : Prop := exists v, get_all (res_headers r) VARY = [v] /\ covers v §"accept-encoding".

Lemma starred (m : HM) (fs : list str) : exists v, get_all (hm_insert m VARY §"*") VARY = [v]
  /\ covers v §"accept-encoding" /\ forall f, f ∈ fs -> f <> §"*" -> covers v f.
Proof. exists §"*". split; [apply get_all_insert_eq|]. split; [by left|]. intros. by left. Qed.

Lemma ensure_vary_spec r :
  let r' := ensure_accept_encoding_vary r in
  r' = set_headers r (res_headers r')
  /\ (forall n, n <> VARY -> get_all (res_headers r') n = get_all (res_headers r) n)
  /\ exists v, get_all (res_headers r') VARY = [v] /\ covers v §"accept-encoding"
       /\ forall f, f ∈ vary_pieces (get_all (res_headers r) VARY) -> f <> §"*" -> covers v f.
Proof.
  cbv zeta. split; [done|]. unfold ensure_accept_encoding_vary. cbn [set_headers res_headers].
  set (m := res_headers r). set (existing := get_all m VARY).
  assert (forall v, (forall n, n <> VARY -> get_all (hm_insert m VARY v) n = get_all m n)) as Hother.
  { intros. by apply get_all_insert_ne. }
  destruct (negb _).
  { split; [intros n Hn; by rewrite get_all_insert_ne, get_all_remove_ne|apply starred]. }
  destruct (existsb _ (vary_pieces existing)) eqn:Ew; [split; [apply Hother|apply starred]|].
  set (named := List.filter _ (vary_pieces existing)).
  assert (Forall piece named) as Hnamed.
  { pose proof (vary_pieces_ok existing) as Hp. rewrite Forall_forall in *. intros f Hf. apply elem_of_filter_bool in Hf as [Hf _]. by apply Hp. }
  destruct (add_vary_fields named Hnamed [] ltac:(constructor)) as [Hpieces Hin].
  set (fields := foldl add_vary_field [] named) in *.
  destruct (accept_encoding_field fields Hpieces) as (Hall & Hsub & fa & Hfa & Ea).
  set (all := if existsb _ fields then fields else fields ++ [§"Accept-Encoding"]) in *.
  destruct (header_value _); [|split; [apply Hother|apply starred]].
  split; [apply Hother|]. exists (join §", " all). split; [apply get_all_insert_eq|]. split; [by eapply join_covers|].
  intros f Hf Hne. destruct (Hin f) as (f' & Hf' & E).
  { right. apply elem_of_filter_bool. split; [done|]. by rewrite bool_decide_eq_false_2. }
  eapply join_covers; [done|by apply Hsub|done].
Qed.
End vary.

(** ** The middleware *)

Section respects.
Context `{HeaderMap HM, HttpTypes}.
Context (problem_json : str -> str -> Z -> str -> str -> str) (encode : Encoding -> str -> option str).
Implicit Types r : Response HM.
Abbreviation compression_middleware := (compression_middleware problem_json encode).
Abbreviation not_acceptable_response := (not_acceptable_response problem_json).
Abbreviation encode_response_body := (encode_response_body encode).

(** [out] is [r] with its Vary field completed. *)
Definition completes r out : Prop :=
  out = set_headers r (res_headers out)
  /\ (forall n, n <> VARY -> get_all (res_headers out) n = get_all (res_headers r) n)
  /\ keyed out.

(** [out] is [r] with its body coded. *)
Definition coded r out (e : Encoding) : Prop :=
  exists body coded_body, body_kind r = Bytes body /\ encode e body = Some coded_body
  /\ status out = status r /\ body_kind out = Bytes coded_body /\ trailers out = None
  /\ get_all (res_headers out) CONTENT_ENCODING = [encoding_name e]
  /\ (forall n, n ∈ stale_fields -> get_all (res_headers out) n = [])
  /\ (forall n, n ∉ stale_fields -> n <> CONTENT_ENCODING -> n <> VARY -> get_all (res_headers out) n = get_all (res_headers r) n)
  /\ keyed out.

Lemma completes_vary r : completes r (ensure_accept_encoding_vary r).
Proof.
  destruct (ensure_vary_spec r) as (E & Hother & v & Hv & Hc & _). split; [done|]. split; [done|]. by exists v.
Qed.

Lemma removed_all (names : list str) (m : HM) n :
  get_all (foldl hm_remove m names) n = if decide (n ∈ names) then [] else get_all m n.
Proof.
  revert m. induction names as [|k names IH]; intros m; cbn [foldl].
  - by rewrite decide_False by apply not_elem_of_nil.
  - rewrite IH, get_all_remove. repeat case_decide; set_solver.
Qed.

Lemma unskipped_body r min_size : should_skip_transform r min_size = false ->
  exists body, body_kind r = Bytes body /\ trailers r = None.
Proof.
  unfold should_skip_transform, body_bytes. rewrite !orb_false_iff, bool_decide_eq_false. intros [[[[_ Ht] _] _] Hb].
  destruct (body_kind r) as [b| |]; [|done..]. exists b. split; [done|]. destruct (trailers r); [|done]. destruct Ht. eauto.
Qed.

Lemma encode_response_body_cases offload body e :
  (exists coded_body, encode e body = Some coded_body /\ encode_response_body offload body e = Ok coded_body)
  \/ (exists err, encode_response_body offload body e = Err err /\ err_status err = 500%Z
        /\ (encode e body = None \/ offload <> Offloaded)).
Proof.
  assert ((exists coded_body, encode e body = Some coded_body /\ encoding_encode encode e body = Ok coded_body)
    \/ (exists err : HttpError HM, encoding_encode encode e body = Err err /\ err_status err = 500%Z /\ encode e body = None)) as Hc.
  { unfold encoding_encode. destruct (encode e body); [left|right]; eauto. }
  unfold Compression.encode_response_body. destruct (_ <? _)%Z; [|destruct offload]; [| |right; eauto..]; naive_solver.
Qed.

Lemma not_acceptable_keyed : status not_acceptable_response = 406%Z /\ keyed not_acceptable_response.
Proof.
  unfold Compression.not_acceptable_response, Response.from_error, with_status.
  rewrite (proj2 (status_code_range 406)) by lia. split; [done|].
  exists §"Accept-Encoding". split; [apply get_all_insert_eq|]. right. exists §"Accept-Encoding". by split; [left|].
Qed.

Lemma failed_encoding_status (e : HttpError HM) : (100 <= err_status e <= 999)%Z -> status (from_error problem_json e) = err_status e.
Proof. intros. unfold from_error, with_status. by rewrite (proj2 (status_code_range _)). Qed.

Lemma not_stale : CONTENT_ENCODING ∉ stale_fields /\ VARY ∉ stale_fields.
Proof. split; by intros H'%(bool_decide_eq_true_2 (_ ∈ stale_fields)). Qed.

Lemma coded_response r e body coded_body : body_kind r = Bytes body -> trailers r = None -> encode e body = Some coded_body ->
  coded r (with_header (remove_stale_representation_headers (replace_body_bytes (ensure_accept_encoding_vary r) coded_body).1)
             CONTENT_ENCODING (encoding_name e)) e.
Proof.
  intros Hb Ht He. destruct (completes_vary r) as (E & Hother & v & Hv & Hc).
  set (r1 := ensure_accept_encoding_vary r) in *.
  assert (body_kind r1 = Bytes body /\ status r1 = status r /\ trailers r1 = None) as (Hb1 & Hs1 & Ht1) by (by rewrite E).
  rewrite with_header_plain by (done || by destruct e; apply header_value_visible). unfold replace_body_bytes. rewrite Hb1.
  exists body, coded_body. cbn [fst remove_stale_representation_headers set_headers set_body res_headers status body_kind trailers].
  split_and!; try done.
  - apply get_all_insert_eq.
  - intros n Hn. rewrite get_all_insert_ne, removed_all, decide_True by (done || intros ->; by destruct not_stale). done.
  - intros n Hn Hce Hva. rewrite get_all_insert_ne, removed_all, decide_False by done. by apply Hother.
  - exists v. split; [|done]. cbn [set_headers res_headers]. rewrite get_all_insert_ne, removed_all, decide_False; done || apply not_stale.
Qed.

(** C34. Compression serves the client: for a response with a representation and
    no coding of its own, the middleware (a) passes it on with Vary completed,
    when the client sent no Accept-Encoding, or accepts identity and either the
    response must not be transformed, no supported coding is acceptable or
    identity is preferred; (b) sends it coded by the supported coding that the
    client, and among equals the server, prefers, with Content-Encoding set
    and every field about the uncoded bytes removed; (c) answers 406, when the
    client refuses identity and every supported coding, or the response must
    not be transformed; or (d) answers 500, when the encoder fails. In the first
    three cases the answer is keyed by Accept-Encoding for caches. *)
Theorem compression_respects_client min_size supported req offload r :
  status_has_no_representation (status r) = false -> get_all (res_headers r) CONTENT_ENCODING = [] ->
  let accept := combined_request_header req §"accept-encoding" in
  let tokens := default [] (accept_tokens <$> accept) in
  let skipped := should_skip_transform r min_size in
  let out := compression_middleware min_size supported req offload r in
  (completes r out
     /\ (accept = None
         \/ (0 < identity_weight tokens)%Z
            /\ (skipped = true \/ (forall e, e ∈ supported -> weight tokens e = 0%Z)
                \/ exists q, token_quality §"identity" tokens = Some q /\ forall e, e ∈ supported -> (weight tokens e < q)%Z)))
  \/ (exists e, coded r out e /\ skipped = false /\ best_coding tokens supported e
        /\ forall q, token_quality §"identity" tokens = Some q -> (q <= weight tokens e)%Z)
  \/ (status out = 406%Z /\ keyed out /\ accept <> None /\ identity_weight tokens = 0%Z
        /\ (skipped = true \/ forall e, e ∈ supported -> weight tokens e = 0%Z))
  \/ (status out = 500%Z /\ exists e body, body_kind r = Bytes body /\ best_coding tokens supported e
        /\ (encode e body = None \/ offload <> Offloaded)).
Proof.
  intros Hst Hce. cbv zeta. unfold Compression.compression_middleware, combined_content_encoding. rewrite Hst, Hce.
  destruct (combined_request_header req §"accept-encoding") as [header|];
    cbn [fmap option_fmap option_map]; [|left; split; [apply completes_vary|by left]].
  change (default [] (Some (accept_tokens header))) with (accept_tokens header).
  pose proof (negotiate_spec header supported) as Hn. cbv zeta in Hn.
  destruct (negotiate_encoding header supported) as [e idok| |].
  - destruct Hn as (Hbest & -> & Hid). destruct (should_skip_transform r min_size) eqn:Hskip.
    + pose proof (identity_weight_nonneg header). destruct (Z.ltb_spec 0 (identity_weight (accept_tokens header))).
      * left. split; [apply completes_vary|]. right. split; [done|by left].
      * right. right. left. destruct not_acceptable_keyed. split_and!; [done..|lia|by left].
    + destruct (unskipped_body r min_size Hskip) as (body & Hb & Ht).
      assert (body_bytes (ensure_accept_encoding_vary r) = Some body) as ->.
      { unfold body_bytes, ensure_accept_encoding_vary. cbn [set_headers body_kind]. by rewrite Hb. }
      change (default [] (Some body)) with body. destruct (encode_response_body_cases offload body e) as [(c & He & ->)|(err & -> & Hs & Hf)].
      * right. left. exists e. split; [by eapply coded_response|done].
      * do 3 right. rewrite failed_encoding_status by lia. split; [done|]. by exists e, body.
  - left. split; [apply completes_vary|]. right. split; [apply Hn|]. right. apply Hn.
  - right. right. left. destruct not_acceptable_keyed. destruct Hn. split_and!; [done..|by right].
Qed.
End respects.

Module CompressionSample.
#[local] Existing Instance assoc_header_map.
#[local] Existing Instance reference_http_types.

Definition problem (_ _ : str) (_ : Z) (detail _ : str) : str := detail.
(** Stands for the encoders: the name of the coding and the length. *)
Definition encode (e : Encoding) (body : str) : option str := Some (encoding_name e ++ to_dec (Z.of_nat (length body))).
Definition accepts (value : str) : Request :=
  mkRequest HTTP_11 §"GET" §"/" None ∅ (<[§"accept-encoding" := value]> ∅) ∅ None 0 false [(§"accept-encoding", value)].
Definition page : Response AssocHeaders := with_header (with_header (response_send (repeat Byte.x61 2000)) §"etag" §"x") §"vary" §"Origin".
Definition serve (value : str) := Compression.compression problem encode true (accepts value) Offloaded page.

(** The client's weights decide; ties go to the server's order. *)
Example negotiated :
  map (fun v => get_all (res_headers (serve v)) CONTENT_ENCODING)
    [§"gzip;q=0.5, br"; §"deflate, gzip"; §"*;q=0.2, gzip;q=0"; §"identity"; §"identity;q=0.4, gzip;q=0.5"]
  = [[§"br"]; [§"gzip"]; [§"br"]; []; [§"gzip"]]
  /\ status (serve §"*;q=0") = 406%Z
  /\ get_all (res_headers (serve §"gzip")) VARY = [§"Origin, Accept-Encoding"].
Proof. vm_compute. done. Qed.

Lemma compression_respects_client_witness :
  let out := serve §"gzip;q=0.5, br" in
  exists e, coded encode page out e /\ best_coding (accept_tokens §"gzip;q=0.5, br") [Gzip; Brotli; Deflate] e.
Proof.
  pose proof (compression_respects_client problem encode 1024 (supported_encodings true) (accepts §"gzip;q=0.5, br")
                Offloaded page eq_refl eq_refl) as Hc. cbv zeta in Hc |- *.
  destruct Hc as [[[_ [Hc _]] _]|[(e & Hc & _ & Hb & _)|[[Hs _]|[Hs _]]]].
  - specialize (Hc CONTENT_ENCODING ltac:(discriminate)). vm_compute in Hc. discriminate Hc.
  - exists e. exact (conj Hc Hb).
  - vm_compute in Hs. discriminate Hs.
  - vm_compute in Hs. discriminate Hs.
Defined.

End CompressionSample.
