(* ===== verification/StaticFiles.v ===== *)
(** * Static files (the static handler of [src/app/router.rs])

    Path confinement, content types, byte ranges, the whole
    [serve_static_file] handler and the streaming of the file through a
    bounded channel. The capability directory, the admission semaphore, the
    blocking pool, the clock and the answers of the channel are inputs. Paths
    follow the Unix rules of [std::path]. *)
From S2P Require Import Prelude Strs Percent Request Headers Response Conditional.

Inductive Dotfiles := Deny | Allow.
#[export] Instance Dotfiles_eq_dec : EqDecision Dotfiles.
Proof. solve_decision. Defined.

(** ** Paths ([std::path]) *)

Inductive Component := Prefix (p : str) | RootDir | CurDir | ParentDir | Normal (part : str).

Definition dot : byte := Byte.x2e.
(** Empty parts and inner [.] are normalised away. *)
Definition part_component (part : str) : option Component :=
  if bool_decide (part = []) || bool_decide (part = [dot]) then None
  else if bool_decide (part = [dot; dot]) then Some ParentDir else Some (Normal part).
Definition path_components (path : str) : list Component :=
  let parts := split_on slash path in
  let lead := if starts_with [slash] path then [RootDir]
              else match parts with p :: _ => if bool_decide (p = [dot]) then [CurDir] else [] | [] => [] end in
  lead ++ omap part_component parts.

(** [PathBuf::push] of a relative part. *)
Definition path_push (path part : str) : str :=
  if bool_decide (path = []) then part
  else if ends_with [slash] path then path ++ part else path ++ [slash] ++ part.

(** [Path::extension]: what follows the last dot of the file name, unless it starts there. *)
Definition file_name (path : str) : option str :=
  match last (path_components path) with Some (Normal part) => Some part | _ => None end.
Definition extension (path : str) : option str :=
  match file_name path with
  | Some name => match rsplit_once dot name with
                 | Some (before, after) => if bool_decide (before = []) then None else Some after
                 | None => None
                 end
  | None => None
  end.

Inductive StaticPathRejection := Hidden | InvalidPath.

Fixpoint safe_components (dotfiles : Dotfiles) (path : str) (components : list Component)
  : result str StaticPathRejection :=
  match components with
  | [] => Ok path
  | Normal part :: rest =>
      if bool_decide (dotfiles = Deny) && starts_with [dot] part then Err Hidden
      else safe_components dotfiles (path_push path part) rest
  | CurDir :: rest =>
      if bool_decide (dotfiles = Deny) then Err Hidden else safe_components dotfiles path rest
  | (Prefix _ | RootDir | ParentDir) :: _ => Err InvalidPath
  end.
Definition safe_static_relative (requested : str) (dotfiles : Dotfiles) : result str StaticPathRejection :=
  let relative := if bool_decide (requested = []) then §"index.html" else requested in
  safe_components dotfiles [] (path_components relative).

Definition content_types : list (list str * str) :=
  [([§"html"; §"htm"], §"text/html; charset=utf-8"); ([§"css"], §"text/css; charset=utf-8");
   ([§"js"; §"mjs"], §"text/javascript; charset=utf-8"); ([§"json"], §"application/json");
   ([§"txt"], §"text/plain; charset=utf-8"); ([§"csv"], §"text/csv; charset=utf-8");
   ([§"svg"], §"image/svg+xml"); ([§"png"], §"image/png"); ([§"jpg"; §"jpeg"], §"image/jpeg");
   ([§"gif"], §"image/gif"); ([§"webp"], §"image/webp"); ([§"ico"], §"image/x-icon");
   ([§"wasm"], §"application/wasm"); ([§"pdf"], §"application/pdf")].
Definition content_type_for_path (path : str) : str :=
  let ext := default [] (extension path) in
  match List.find (fun entry => bool_decide (ext ∈ entry.1)) content_types with
  | Some entry => entry.2
  | None => §"application/octet-stream"
  end.

(** ** Byte ranges *)

Inductive RangeParse := Satisfiable (first last : Z) | Unsatisfiable | Ignored.

Definition parse_byte_range (raw : str) (total_len : Z) : RangeParse :=
  match split_once equals (trim raw) with
  | None => Ignored
  | Some (unit, spec) =>
      if negb (eq_ignore_ascii_case (trim unit) §"bytes") then Ignored
      else
        let spec := trim spec in
        if contains comma spec then Ignored
        else match split_once Byte.x2d spec with
        | None => Ignored
        | Some (start_raw, end_raw) =>
            let start_raw := trim start_raw in
            let end_raw := trim end_raw in
            if bool_decide (start_raw = []) then
              match parse_u64 end_raw with
              | None => Ignored
              | Some suffix =>
                  if (suffix =? 0)%Z || (total_len =? 0)%Z then Unsatisfiable
                  else Satisfiable (Z.max 0 (total_len - suffix)) (total_len - 1)
              end
            else match parse_u64 start_raw with
            | None => Ignored
            | Some start =>
                if (total_len <=? start)%Z then Unsatisfiable
                else
                  let finish := if bool_decide (end_raw = []) then Some (total_len - 1)%Z
                                else (fun e => Z.min e (total_len - 1)) <$> parse_u64 end_raw in
                  match finish with
                  | None => Ignored
                  | Some finish => if (finish <? start)%Z then Ignored else Satisfiable start finish
                  end
            end
        end
  end.

(** ** Opening the file *)

Inductive ErrorKind := NotFoundKind | PermissionDenied | OtherKind.
#[export] Instance ErrorKind_eq_dec : EqDecision ErrorKind.
Proof. solve_decision. Defined.
Record IoError := mkIoError { kind : ErrorKind; text : str }.
Definition static_error_is_not_found (e : IoError) : bool :=
  bool_decide (kind e = NotFoundKind)
  || bool_decide (kind e = PermissionDenied) && bool_decide (text e = §"a path led outside of the filesystem").

Record Metadata := mkMetadata { is_dir : bool; is_file : bool; len : Z; modified : option SystemTime }.
Record OpenedStaticFile := mkOpened { relative_path : str; total_len : Z; opened_modified : option SystemTime }.

Section opening.
Context {Handle : Type} (open : str -> result Handle IoError) (metadata : Handle -> result Metadata IoError).
Definition open_static_file (relative_path : str) : result OpenedStaticFile IoError :=
  let? file := open relative_path in
  let? meta := metadata file in
  let? opened := (if is_dir meta then
                    let relative_path := path_push relative_path §"index.html" in
                    let? file := open relative_path in
                    let? meta := metadata file in Ok (relative_path, meta)
                  else Ok (relative_path, meta)) in
  let '(relative_path, meta) := opened in
  if negb (is_file meta) then Err (mkIoError NotFoundKind §"la ruta estatica no es un archivo regular")
  else Ok (mkOpened relative_path (len meta) (modified meta)).
End opening.

(** ** The handler *)

(** [format!("{:x}")]. *)
Fixpoint hex_digits (fuel : nat) (n : Z) (acc : str) : str :=
  match fuel with
  | O => acc
  | S fuel =>
      let acc := lower_hex_digit (n mod 16) :: acc in
      if (n <? 16)%Z then acc else hex_digits fuel (n / 16) acc
  end.
Definition to_hex (n : Z) : str := hex_digits (S (Z.to_nat (Z.log2 n))) n [].

(** The weak validator: [W/"<length>-<nanoseconds>"]; an instant before the epoch counts as it. *)
Definition static_tag (total_len : Z) (time : SystemTime) : Tag :=
  mkTag true (to_hex total_len ++ [Byte.x2d] ++ to_hex (Z.max 0 time)).

(** The outcomes of the admission wait, of the opening task, and of the seek. *)
Inductive Admission := Granted | SemaphoreClosed | AdmissionTimedOut.
Inductive Opening := OpeningFailed | Opened (result : result OpenedStaticFile IoError).

Section handler.
Context `{HeaderMap HM, HttpTypes, HttpDate}.
Context (problem_json : str -> str -> Z -> str -> str -> str).

Definition acquire_static_permit (a : Admission) : result unit (Response HM) :=
  match a with
  | Granted => Ok tt
  | SemaphoreClosed => Err (from_error problem_json (internal_server_error §"Internal Server Error"))
  | AdmissionTimedOut =>
      Err (from_error problem_json
             (error_header (HttpError_new 503 §"static_files_busy" §"El servidor de archivos estaticos esta ocupado")
                §"retry-after" §"1"))
  end.

Definition validators (etag : option str) (modified : option SystemTime) (r : Response HM) : Response HM :=
  let r := with_header r §"accept-ranges" §"bytes" in
  let r := match etag with Some etag => with_header r §"etag" etag | None => r end in
  match modified with Some t => with_header r §"last-modified" (fmt_http_date t) | None => r end.

Definition internal_error (message : str) : Response HM :=
  from_error problem_json (with_source (internal_server_error message) OtherSource).

(** The Range field, on GET only. *)
Definition range_field (req : Request) : option str :=
  if eq_ignore_ascii_case (method req) §"GET" then combined_request_header req §"range" else None.

(** After the preconditions: what the file, the range and the method give.
    [seek] tells whether positioning succeeds, [stream] is what the stream of
    [len] bytes yields. *)
Definition send_file (req : Request) (f : OpenedStaticFile) (etag : option str) (range : option (Z * Z))
    (seek : bool) (stream : Z -> Z -> list (result str BoxError)) : Response HM :=
  let validate := validators etag (opened_modified f) in
  if eq_ignore_ascii_case (method req) §"HEAD" then
    validate (with_header (with_content_type (response_stream []) (content_type_for_path (relative_path f)))
                §"content-length" (to_dec (total_len f)))
  else
    let '(start, len, response_status) :=
      match range with Some (s, e) => (s, e - s + 1, 206)%Z | None => (0, total_len f, 200)%Z end in
    if (len =? 0)%Z then
      validate (with_header (with_content_type (with_status (response_stream []) 200)
                               (content_type_for_path (relative_path f))) §"content-length" §"0")
    else if (0 <? start)%Z && negb seek then internal_error §"No se pudo posicionar el archivo estatico"
    else
      let r := with_header (with_content_type (with_status (response_stream (stream start len)) response_status)
                              (content_type_for_path (relative_path f))) §"content-length" (to_dec len) in
      validate (match range with
                | Some (s, e) => with_header r §"content-range"
                                   (§"bytes " ++ to_dec s ++ §"-" ++ to_dec e ++ §"/" ++ to_dec (total_len f))
                | None => r
                end).

Definition serve_static_file (req : Request) (param_path : option str) (dotfiles : Dotfiles)
    (admission : Admission) (opening : str -> Opening) (seek : bool)
    (stream : Z -> Z -> list (result str BoxError)) : Response HM :=
  match safe_static_relative (default [] param_path) dotfiles with
  | Err Hidden => not_found problem_json
  | Err InvalidPath => bad_request problem_json
  | Ok relative =>
      match acquire_static_permit admission with
      | Err response => response
      | Ok _ =>
          match opening relative with
          | OpeningFailed => internal_error §"No se pudo abrir el archivo estatico"
          | Opened (Err e) =>
              if static_error_is_not_found e then not_found problem_json
              else internal_error §"No se pudo abrir el archivo estatico"
          | Opened (Ok f) =>
              let etag := (fun t => render_tag (static_tag (total_len f) t)) <$> opened_modified f in
              let validate := validators etag (opened_modified f) in
              let range_header := range_field req in
              match evaluate_preconditions parse_http_date req etag (opened_modified f)
                      (bool_decide (is_Some range_header)) with
              | Failed => validate (with_status (response_send []) 412)
              | NotModified => validate (with_status (response_send []) 304)
              | outcome =>
                  let parsed := if bool_decide (outcome = IgnoreRange) then None
                                else (fun raw => parse_byte_range raw (total_len f)) <$> range_header in
                  match parsed with
                  | Some Unsatisfiable =>
                      validate (with_header (with_status (response_send []) 416) §"content-range"
                                  (§"bytes */" ++ to_dec (total_len f)))
                  | Some (Satisfiable s e) => send_file req f etag (Some (s, e)) seek stream
                  | Some Ignored | None => send_file req f etag None seek stream
                  end
              end
          end
      end
  end.
End handler.

(** ** Streaming *)

Definition CHUNK : Z := 65536.

Inductive StreamError := StartDeadline | EndedEarly | FileTruncated | ReadFailed.
Abbreviation Item := (result str StreamError).

Definition deadline_remaining (deadline : option Z) (now : Z) : option Z :=
  (fun d => Z.max 0 (d - now)) <$> deadline.
Definition expired (deadline : option Z) (now : Z) : bool :=
  match deadline with Some d => (d <=? now)%Z | None => false end.

(** The channel takes the item after [accepted] nanoseconds, or never
    ([None]: the receiver is gone). *)
Definition send_static_chunk (stall deadline : option Z) (now : Z) (accepted : option Z) : bool :=
  if expired deadline now then false
  else
    let timeout := match stall, deadline_remaining deadline now with
                   | Some stall, Some lifetime => Some (Z.min stall lifetime)
                   | Some stall, None => Some stall
                   | None, Some lifetime => Some lifetime
                   | None, None => None
                   end in
    match accepted, timeout with
    | None, _ => false
    | Some after, Some timeout => (after <=? timeout)%Z
    | Some _, None => true
    end.

(** What the operating system answers to a read of at most [chunk] bytes. *)
Inductive ReadOutcome := Read (count : nat) | ReadErr | ReadLost.
Record Turn := mkTurn { turn_at : Z; read : ReadOutcome; send_at : Z; accepted : option Z }.

(** The loop of the producer over the bytes [file] from its position on; the
    items it sends, and whether it has ended and so closed the channel. *)
Fixpoint producer (stall deadline : option Z) (remaining : Z) (file : str) (turns : list Turn)
  : list Item * bool :=
  if (remaining <=? 0)%Z then ([], true)
  else match turns with
  | [] => ([], false)
  | turn :: turns =>
      if expired deadline (turn_at turn) then ([], true)
      else
        let chunk := Z.to_nat (Z.min remaining CHUNK) in
        match read turn with
        | ReadLost => ([], true)
        | outcome =>
            let item := match outcome with
                        | Read count =>
                            let bytes := take (Nat.min count chunk) file in
                            if bool_decide (bytes = []) then Err FileTruncated else Ok bytes
                        | _ => Err ReadFailed
                        end in
            if send_static_chunk stall deadline (send_at turn) (accepted turn) then
              match item with
              | Err e => ([Err e], true)
              | Ok bytes =>
                  let '(items, closed) := producer stall deadline (remaining - Z.of_nat (length bytes))
                                            (drop (length bytes) file) turns in
                  (Ok bytes :: items, closed)
              end
            else ([], true)
        end
  end.
Definition spawn_static_file_producer (len : Z) (stall max_duration : option Z) (now : Z)
    (representable : Z -> bool) (file : str) (turns : list Turn) : list Item * bool :=
  let deadline := match max_duration with
                  | Some d => if representable (now + d)%Z then Some (now + d)%Z else None
                  | None => None
                  end in
  producer stall deadline len file turns.

Inductive StaticStreamState := Pending (source : bool) (len : Z) | Active (remaining : Z) | Finished.
Inductive Received := Got (item : Item) | ChannelClosed.

(** One poll of the body: an item and the next state, or the end. *)
Definition active_step (remaining : Z) (received : Received) : option (Item * StaticStreamState) :=
  match received with
  | Got (Ok bytes) => Some (Ok bytes, Active (Z.max 0 (remaining - Z.of_nat (length bytes))))
  | Got (Err e) => Some (Err e, Finished)
  | ChannelClosed => if (0 <? remaining)%Z then Some (Err EndedEarly, Finished) else None
  end.
Definition stream_step (state : StaticStreamState) (received : Received) : option (Item * StaticStreamState) :=
  match state with
  | Pending false _ => Some (Err StartDeadline, Finished)
  | Pending true len => active_step len received
  | Active remaining => active_step remaining received
  | Finished => None
  end.

(** The body polled against a channel: what it yields, and whether it ended. *)
Fixpoint stream_run (state : StaticStreamState) (items : list Item) (closed : bool) : list Item * bool :=
  match items with
  | i :: items =>
      match stream_step state (Got i) with
      | Some (out, state) => let '(rest, ended) := stream_run state items closed in (out :: rest, ended)
      | None => ([], true)
      end
  | [] =>
      if closed then
        match stream_step state ChannelClosed with
        | Some (out, state) => ([out], match stream_step state ChannelClosed with None => true | Some _ => false end)
        | None => ([], true)
        end
      else ([], false)
  end.

(** [file_stream]: [taken] tells whether the body is polled before the start lease ends. *)
Definition file_stream (len : Z) (taken : bool) (stall max_duration : option Z) (now : Z)
    (representable : Z -> bool) (file : str) (turns : list Turn) : list Item * bool :=
  let '(items, closed) := spawn_static_file_producer len stall max_duration now representable file turns in
  if taken then stream_run (Pending true len) items closed else stream_run (Pending false len) [] true.

(** ** Options *)

Record StaticFilesOptions := mkStaticFilesOptions {
  dotfiles : Dotfiles;
  stream_start_timeout : option Z;
  stream_stall_timeout : option Z;
  stream_max_duration : option Z
}.
Definition StaticFilesOptions_new : StaticFilesOptions :=
  mkStaticFilesOptions Deny (Some 60000000000%Z) (Some 15000000000%Z) (Some 300000000000%Z).

(** The name of the first option that is zero or not representable from [now]. *)
Definition validate_static_options (representable : Z -> bool) (now : Z) (o : StaticFilesOptions)
  : result unit str :=
  let bad timeout := match timeout with Some t => (t =? 0)%Z || negb (representable (now + t)%Z) | None => false end in
  match List.find (fun entry => bad entry.2)
          [(§"stream_start_timeout", stream_start_timeout o); (§"stream_stall_timeout", stream_stall_timeout o);
           (§"stream_max_duration", stream_max_duration o)] with
  | Some (name, _) => Err (name ++ §" debe ser positivo y representable")
  | None => Ok tt
  end.

(** ** Confinement *)

(** A part that names an entry of its directory. *)
Definition entry_name (part : str) : Prop :=
  part <> [] /\ part <> [dot] /\ part <> [dot; dot] /\ slash ∉ part.
Definition normal_part (c : Component) : option str := match c with Normal p => Some p | _ => None end.

Lemma entry_component part : entry_name part -> part_component part = Some (Normal part).
Proof.
  intros (H1 & H2 & H3 & _). unfold part_component. by rewrite !bool_decide_eq_false_2.
Qed.

Lemma split_part_component part p : slash ∉ part -> part_component part = Some (Normal p) -> p = part /\ entry_name part.
Proof.
  unfold part_component, entry_name. intros Hs. repeat case_bool_decide; cbn; try done. intros [= <-]. done.
Qed.

Lemma components_normal path part : Normal part ∈ path_components path -> entry_name part.
Proof.
  unfold path_components. rewrite elem_of_app. intros [Hin|Hin].
  - exfalso. destruct (starts_with [slash] path); [set_solver|].
    destruct (split_on slash path); [set_solver|]. case_bool_decide; set_solver.
  - apply list_elem_of_omap in Hin as (w & Hw & E). apply split_on_infix in Hw as [Hs _].
    by apply split_part_component in E as [-> ?].
Qed.

Lemma join_entries_head part parts : entry_name part -> Forall entry_name parts ->
  exists c rest, join [slash] (part :: parts) = c :: rest /\ c <> slash.
Proof.
  intros (Hne & _ & _ & Hs) _. destruct part as [|c part]; [done|]. assert (c <> slash) by set_solver.
  destruct parts; cbn; eauto.
Qed.

(** Joining entry names gives a relative path with exactly these components. *)
Lemma components_join parts : Forall entry_name parts ->
  path_components (join [slash] parts) = map Normal parts.
Proof.
  intros Hp. destruct parts as [|part parts]; [done|].
  pose proof Hp as [Hpart Hparts]%Forall_cons. destruct (join_entries_head part parts Hpart Hparts) as (c & rest & E & Hc).
  unfold path_components. assert (Hst : starts_with [slash] (join [slash] (part :: parts)) = false).
  { rewrite E. unfold starts_with. apply bool_decide_eq_false_2. cbn. rewrite bool_decide_eq_false_2 by done. by intros []. }
  rewrite Hst, split_on_join; [|done|].
  2:{ eapply Forall_impl; [exact Hp|]. by intros ? (_ & _ & _ & ?). }
  rewrite bool_decide_eq_false_2 by apply Hpart. cbn [app].
  clear -Hp. induction Hp as [|p ps H _ IH]; [done|]. cbn [omap list_omap map]. rewrite entry_component by done.
  by rewrite IH.
Qed.

Lemma join_snoc parts part : parts <> [] -> join [slash] (parts ++ [part]) = join [slash] parts ++ [slash] ++ part.
Proof.
  induction parts as [|p parts IH]; [done|]. intros _. destruct parts as [|q parts]; [done|].
  change ((p :: q :: parts) ++ [part]) with (p :: ((q :: parts) ++ [part])).
  rewrite (join_app_sep [slash] p ((q :: parts) ++ [part])), (join_app_sep [slash] p (q :: parts)) by done.
  rewrite IH by done. by rewrite <- !app_assoc.
Qed.

Lemma join_entries_last parts : Forall entry_name parts -> ends_with [slash] (join [slash] parts) = false.
Proof.
  intros Hp. destruct (ends_with _ _) eqn:E; [|done]. apply ends_with_iff in E as [p E]. exfalso.
  destruct parts as [|part parts _] using rev_ind; [by destruct p|].
  apply Forall_app in Hp as [_ Hp]. apply Forall_cons in Hp as [(Hne & _ & _ & Hs) _].
  assert (Hj : exists q, join [slash] (parts ++ [part]) = q ++ part).
  { destruct parts as [|a parts]; [by exists []|]. rewrite join_snoc by done. rewrite app_assoc. by eexists. }
  destruct Hj as [q Hj]. rewrite Hj in E. destruct part as [|c part _] using rev_ind; [done|].
  rewrite app_assoc in E. apply app_inj_tail in E as [_ ->]. set_solver.
Qed.

Lemma push_entry parts part : Forall entry_name parts -> entry_name part ->
  path_push (join [slash] parts) part = join [slash] (parts ++ [part]).
Proof.
  intros Hp Hpart. unfold path_push. destruct parts as [|q parts]; [done|].
  pose proof Hp as [Hq Hqs]%Forall_cons. destruct (join_entries_head q parts Hq Hqs) as (c & rest & E & _).
  rewrite bool_decide_eq_false_2 by by rewrite E. rewrite join_entries_last by done. by rewrite join_snoc.
Qed.

Definition hidden_component (c : Component) : bool :=
  match c with CurDir => true | Normal part => starts_with [dot] part | _ => false end.
Definition escaping_component (c : Component) : bool :=
  match c with Prefix _ | RootDir | ParentDir => true | _ => false end.

Lemma safe_components_spec dotfiles comps : forall parts,
  Forall entry_name parts -> (forall p, Normal p ∈ comps -> entry_name p) ->
  match safe_components dotfiles (join [slash] parts) comps with
  | Ok path => path = join [slash] (parts ++ omap normal_part comps)
      /\ Forall (fun c => escaping_component c = false /\ (dotfiles = Deny -> hidden_component c = false)) comps
  | Err Hidden => dotfiles = Deny /\ Exists (fun c => hidden_component c = true) comps
  | Err InvalidPath => Exists (fun c => escaping_component c = true) comps
  end.
Proof.
  induction comps as [|c comps IH]; intros parts Hp Hc; cbn [safe_components omap list_omap].
  { rewrite app_nil_r. by split. }
  assert (Hc' : forall p, Normal p ∈ comps -> entry_name p) by (intros; apply Hc; by right).
  destruct c as [p| | | |part]; try (by left).
  - destruct dotfiles; cbn; [split; [done|by left]|]. specialize (IH parts Hp Hc').
    destruct (safe_components Allow _ comps) as [path|[]].
    + destruct IH as [-> IH]. split; [done|]. by constructor.
    + destruct IH as [? ?]. split; [done|by right].
    + by right.
  - assert (Hpart : entry_name part) by (apply Hc; left).
    destruct (bool_decide (dotfiles = Deny) && starts_with [dot] part) eqn:E.
    { bsplit. split; [done|by left]. }
    rewrite push_entry by done. specialize (IH (parts ++ [part]) ltac:(apply Forall_app; split; [done|by apply Forall_singleton]) Hc').
    destruct (safe_components dotfiles _ comps) as [path|[]].
    + destruct IH as [-> IH]. cbn [normal_part]. rewrite <- app_assoc. split; [done|]. constructor; [|done].
      split; [done|]. intros ->. by cbn in E.
    + destruct IH as [? ?]. split; [done|by right].
    + by right.
Qed.

(** C27. Requested paths stay inside the served directory: a path the handler
    opens consists of the requested entry names only, joined again, so that
    it has no root, no parent and no current directory component, and under the
    [Deny] policy no component starts with a dot. A refusal has its cause in
    the request: [Hidden] (which the handler answers with 404) a hidden
    component under [Deny], [InvalidPath] (400) a component that leaves the
    directory. *)
Theorem static_path_confined requested dotfiles :
  let requested' := if bool_decide (requested = []) then §"index.html" else requested in
  let comps := path_components requested' in
  match safe_static_relative requested dotfiles with
  | Ok path =>
      exists parts, path = join [slash] parts /\ path_components path = map Normal parts
        /\ parts = omap normal_part comps
        /\ Forall (fun p => entry_name p /\ (dotfiles = Deny -> starts_with [dot] p = false)) parts
  | Err Hidden => dotfiles = Deny /\ Exists (fun c => hidden_component c = true) comps
  | Err InvalidPath => Exists (fun c => escaping_component c = true) comps
  end.
Proof.
  intros requested' comps. unfold safe_static_relative. fold requested'. fold comps.
  assert (Hc : forall p, Normal p ∈ comps -> entry_name p) by (intros; by eapply components_normal).
  pose proof (safe_components_spec dotfiles comps [] (List.Forall_nil _) Hc) as Hs. cbn [join] in Hs.
  destruct (safe_components dotfiles [] comps) as [path|[]]; [|done..].
  destruct Hs as [-> Hall]. cbn [app]. exists (omap normal_part comps).
  assert (Hparts : Forall (fun p => entry_name p /\ (dotfiles = Deny -> starts_with [dot] p = false)) (omap normal_part comps)).
  { apply Forall_forall. intros p (c & Hin & E)%list_elem_of_omap. destruct c; try done. injection E as ->.
    split; [by apply Hc|]. rewrite Forall_forall in Hall. by apply (Hall _ Hin). }
  split_and!; [done| |done|done]. apply components_join. eapply Forall_impl; [exact Hparts|]. by intros ? [? _].
Qed.

(** ** Ranges *)

Lemma parse_u64_nonneg s n : parse_u64 s = Some n -> (0 <= n)%Z.
Proof.
  assert (Hd : forall s acc, (0 <= acc)%Z -> forall n, parse_digits u64_max acc s = Some n -> (0 <= n)%Z).
  { clear. induction s as [|c s IH]; intros acc Ha n; cbn; [by intros [= <-]|].
    destruct (is_ascii_digit c) eqn:E; [|done]. apply digit_bval in E. case_match; [|done]. apply IH. lia. }
  unfold parse_u64, parse_uint. destruct s as [|c s]; [done|].
  case_bool_decide; [destruct s; [done|]|]; apply Hd; lia.
Qed.

(** A range the handler serves lies inside the file. *)
Lemma byte_range_inside raw total first last :
  (0 <= total)%Z -> parse_byte_range raw total = Satisfiable first last -> (0 <= first <= last /\ last < total)%Z.
Proof.
  intros Ht. unfold parse_byte_range. destruct (split_once equals (trim raw)) as [[unit spec]|]; [|done].
  destruct (negb _); [done|]. cbn zeta. destruct (contains comma (trim spec)); [done|].
  destruct (split_once Byte.x2d (trim spec)) as [[a b]|]; [|done]. case_bool_decide.
  - destruct (parse_u64 (trim b)) as [n|] eqn:E; [|done]. apply parse_u64_nonneg in E.
    destruct (_ || _) eqn:Ez; [done|]. bsplit. intros [= <- <-]. lia.
  - destruct (parse_u64 (trim a)) as [n|] eqn:E; [|done]. apply parse_u64_nonneg in E.
    destruct (Z.leb_spec total n); [done|]. case_bool_decide.
    + destruct (Z.ltb_spec (total - 1) n); [done|]. intros [= <- <-]. lia.
    + destruct (parse_u64 (trim b)) as [e|]; cbn; [|done].
      destruct (Z.ltb_spec (Z.min e (total - 1)) n); [done|]. intros [= <- <-]. lia.
Qed.

(** What stands for the last position of a range: nothing, a number, or
    something else. *)
Inductive LastPosition := ToTheEnd | At (n : Z) | NotANumber.

Definition first_position (text : str) (first : option Z) : Prop :=
  match first with None => text = [] | Some n => text <> [] /\ parse_u64 text = Some n end.
Definition last_position (text : str) (last : LastPosition) : Prop :=
  match last with
  | ToTheEnd => text = []
  | At n => text <> [] /\ parse_u64 text = Some n
  | NotANumber => text <> [] /\ parse_u64 text = None
  end.

(** A Range value with one range of bytes: [bytes=first-last], in any letter
    case, with white space around its parts and no comma. *)
Definition single_range (raw : str) (first : option Z) (last : LastPosition) : Prop :=
  exists unit spec a b, trim raw = unit ++ equals :: spec /\ equals ∉ unit
    /\ eq_ignore_ascii_case (trim unit) §"bytes" = true /\ comma ∉ trim spec
    /\ trim spec = a ++ Byte.x2d :: b /\ Byte.x2d ∉ a
    /\ first_position (trim a) first /\ last_position (trim b) last.

(** What such a range asks of a file of [total] bytes. *)
Definition range_outcome (first : option Z) (last : LastPosition) (total : Z) : RangeParse :=
  match first, last with
  | None, At n =>
      if (n =? 0)%Z || (total =? 0)%Z then Unsatisfiable else Satisfiable (Z.max 0 (total - n)) (total - 1)
  | None, _ => Ignored
  | Some a, _ =>
      if (total <=? a)%Z then Unsatisfiable
      else match last with
           | ToTheEnd => Satisfiable a (total - 1)
           | At b => if (Z.min b (total - 1) <? a)%Z then Ignored else Satisfiable a (Z.min b (total - 1))
           | NotANumber => Ignored
           end
  end.

Lemma parse_single_range raw first last total : (0 <= total)%Z -> single_range raw first last ->
  parse_byte_range raw total = range_outcome first last total.
Proof.
  intros Ht (unit & spec & a & b & E & Hu & Hb & Hc & Es & Ha & Hf & Hl). unfold parse_byte_range.
  rewrite E, split_once_app, Hb by done. cbn [negb]. cbn zeta.
  assert (contains comma (trim spec) = false) as ->.
  { unfold contains. apply existsb_false_Forall, Forall_forall. intros c Hin. apply bool_decide_eq_false_2. by intros ->. }
  rewrite Es, split_once_app by done. unfold range_outcome. destruct first as [n|]; cbn [first_position] in Hf.
  - destruct Hf as [Hne ->]. rewrite bool_decide_eq_false_2 by done. destruct (Z.leb_spec total n); [done|].
    destruct last as [|e|]; cbn [last_position] in Hl.
    + rewrite bool_decide_eq_true_2 by done. destruct (Z.ltb_spec (total - 1) n); [lia|done].
    + destruct Hl as [Hne' ->]. by rewrite bool_decide_eq_false_2.
    + destruct Hl as [Hne' ->]. by rewrite bool_decide_eq_false_2.
  - rewrite Hf. cbn [bool_decide decide]. rewrite bool_decide_eq_true_2 by done.
    destruct last as [|e|]; cbn [last_position] in Hl; [by rewrite Hl|by destruct Hl as [_ ->]..].
Qed.

Lemma last_position_total text : exists last, last_position text last.
Proof.
  destruct (decide (text = [])) as [|Hne]; [by exists ToTheEnd|].
  destruct (parse_u64 text) as [k|] eqn:E; [by exists (At k)|by exists NotANumber].
Qed.

(** Every other value is ignored. *)
Lemma parse_other_range raw total : (forall first last, ~ single_range raw first last) ->
  parse_byte_range raw total = Ignored.
Proof.
  intros Hno. unfold parse_byte_range. destruct (split_once equals (trim raw)) as [[unit spec]|] eqn:E; [|done].
  apply split_once_Some in E as [E Hu]. destruct (eq_ignore_ascii_case (trim unit) §"bytes") eqn:Hb; [|done].
  cbn [negb]. cbn zeta. destruct (contains comma (trim spec)) eqn:Hc; [done|].
  assert (comma ∉ trim spec) as Hc'.
  { unfold contains in Hc. apply existsb_false_Forall in Hc. rewrite Forall_forall in Hc. intros Hin%Hc.
    by rewrite bool_decide_eq_true_2 in Hin. }
  destruct (split_once Byte.x2d (trim spec)) as [[a b]|] eqn:Es; [|done]. apply split_once_Some in Es as [Es Ha].
  destruct (last_position_total (trim b)) as [last Hl]. case_bool_decide as Hne.
  - destruct (Hno None last). exists unit, spec, a, b. by split_and!.
  - destruct (parse_u64 (trim a)) as [n|] eqn:Hn; [|done].
    destruct (Hno (Some n) last). exists unit, spec, a, b. by split_and!.
Qed.

(** ** The stream delivers the file or fails visibly *)

Definition chunk_ok (c : str) : Prop := c <> [] /\ (Z.of_nat (length c) <= CHUNK)%Z.

(** What the producer sends: chunks of the file in order, then perhaps one error. *)
Record produced (remaining : Z) (file : str) (items : list Item) (closed : bool) (chunks : list str)
    (tail : list Item) : Prop := {
  pd_items : items = map Ok chunks ++ tail;
  pd_tail : tail = [] \/ (exists e, tail = [Err e]) /\ closed = true;
  pd_chunks : Forall chunk_ok chunks;
  pd_prefix : concat chunks = take (length (concat chunks)) file;
  pd_length : (Z.of_nat (length (concat chunks)) <= remaining)%Z
}.

Lemma produced_nil remaining file closed : (0 <= remaining)%Z -> produced remaining file [] closed [] [].
Proof. split; [done|by left|constructor|done|cbn; lia]. Qed.

Lemma take_length_take {A} n (l : list A) : take (length (take n l)) l = take n l.
Proof.
  rewrite length_take. destruct (Nat.le_ge_cases n (length l)).
  - by rewrite Nat.min_l.
  - by rewrite Nat.min_r, !take_ge by lia.
Qed.

Lemma producer_spec stall deadline turns : forall remaining file, (0 <= remaining)%Z ->
  let '(items, closed) := producer stall deadline remaining file turns in
  exists chunks tail, produced remaining file items closed chunks tail.
Proof.
  induction turns as [|turn turns IH]; intros remaining file Hr; cbn [producer].
  { destruct (remaining <=? 0)%Z; exists [], []; by apply produced_nil. }
  destruct (Z.leb_spec remaining 0); [exists [], []; by apply produced_nil|].
  destruct (expired deadline (turn_at turn)); [exists [], []; by apply produced_nil|].
  set (sent := send_static_chunk _ _ _ _). clearbody sent.
  assert (Hnil : exists chunks tail, produced remaining file [] true chunks tail) by (exists [], []; by apply produced_nil).
  assert (Herr : forall e, exists chunks tail, produced remaining file [Err e] true chunks tail).
  { intros e. exists [], [Err e]. split; [done|right; eauto|constructor|done|cbn; lia]. }
  destruct (read turn) as [count| |]; cbn zeta; [|by destruct sent|done].
  set (bytes := take _ file). case_bool_decide as Hb; [by destruct sent|]. destruct sent; [|done].
  assert (Hlen : (Z.of_nat (length bytes) <= Z.min remaining CHUNK)%Z).
  { unfold bytes. rewrite length_take. unfold CHUNK. lia. }
  specialize (IH (remaining - Z.of_nat (length bytes))%Z (drop (length bytes) file) ltac:(lia)).
  destruct (producer _ _ _ _ turns) as [items closed]. destruct IH as (chunks & tail & [-> Ht Hc Hp Hl]).
  exists (bytes :: chunks), tail. split; [done|done|constructor; [split; [done|lia]|done]| |].
  - cbn [concat]. rewrite length_app. rewrite <- take_take_drop. f_equal; [|done].
    symmetry. apply take_length_take.
  - cbn [concat]. rewrite length_app. lia.
Qed.

Lemma stream_run_active chunks : forall remaining tail closed,
  (tail = [] \/ (exists e, tail = [Err e]) /\ closed = true) ->
  (Z.of_nat (length (concat chunks)) <= remaining)%Z ->
  stream_run (Active remaining) (map Ok chunks ++ tail) closed
  = (map Ok chunks
       ++ match tail with
          | [] => if closed && (Z.of_nat (length (concat chunks)) <? remaining)%Z then [Err EndedEarly] else []
          | _ => tail
          end,
     closed).
Proof.
  induction chunks as [|c chunks IH]; intros remaining tail closed Ht Hl.
  - destruct Ht as [->|[[e ->] ->]]; [|done]. cbn [map app stream_run stream_step active_step concat length].
    change (Z.of_nat 0) with 0%Z. destruct closed; [|done]. by destruct (0 <? remaining)%Z.
  - cbn [map app stream_run stream_step active_step]. cbn [concat] in *. rewrite length_app in *.
    rewrite IH by (done || lia). rewrite Z.max_r by lia. do 3 f_equal.
    destruct tail; [|done].
    by destruct (Z.ltb_spec (Z.of_nat (length (concat chunks))) (remaining - Z.of_nat (length c))),
      (Z.ltb_spec (Z.of_nat (length c + length (concat chunks))) remaining); try lia.
Qed.

Lemma stream_run_pending len items closed :
  stream_run (Pending true len) items closed = stream_run (Active len) items closed.
Proof. by destruct items. Qed.

(** A static body never ends short in silence: whatever the file system, the
    clock, the channel and the consumer do, the stream yields consecutive
    chunks of at most 64 KiB that are a prefix of the requested bytes, then at
    most one error, and it ends without an error only after exactly the bytes
    that Content-Length announced. *)
Theorem static_stream_complete_or_error len taken stall max_duration now representable file turns :
  (0 <= len)%Z ->
  let '(out, ended) := file_stream len taken stall max_duration now representable file turns in
  exists chunks tail, out = map Ok chunks ++ tail
    /\ concat chunks `prefix_of` take (Z.to_nat len) file /\ Forall chunk_ok chunks
    /\ (tail = [] \/ (exists e, tail = [Err e]) /\ ended = true)
    /\ (ended = true -> tail = [] -> concat chunks = take (Z.to_nat len) file /\ Z.of_nat (length (concat chunks)) = len).
Proof.
  intros Hlen. unfold file_stream, spawn_static_file_producer. set (deadline := match max_duration with Some _ => _ | None => _ end).
  pose proof (producer_spec stall deadline turns len file Hlen) as Hp.
  destruct (producer stall deadline len file turns) as [items closed]. destruct Hp as (chunks & tail & [-> Ht Hc Hp Hl]).
  destruct taken.
  2:{ cbn. exists [], [Err StartDeadline]. split_and!; [done|apply prefix_nil|constructor|right; eauto|done]. }
  rewrite stream_run_pending, stream_run_active by done.
  assert (Hpre : concat chunks `prefix_of` take (Z.to_nat len) file).
  { rewrite Hp. exists (drop (length (concat chunks)) (take (Z.to_nat len) file)).
    rewrite <- (take_drop (length (concat chunks)) (take (Z.to_nat len) file)) at 1.
    rewrite take_take, Nat.min_l by lia. rewrite Hp at 2. by rewrite <- Hp. }
  eexists chunks, _. split_and!; [done|done|done|..].
  - destruct Ht as [->|[[e ->] ->]]; [|right; eauto]. destruct closed; [|by left]. cbn.
    destruct (_ <? _)%Z; [right; eauto|by left].
  - intros -> Hnil. destruct Ht as [->|[[e ->] _]]; [|done]. cbn in Hnil.
    destruct (Z.ltb_spec (Z.of_nat (length (concat chunks))) len); [done|].
    split; [|lia]. rewrite Hp. f_equal. lia.
Qed.

(** ** The handler *)

Lemma lower_hex_bytes d : (0 <= d < 16)%Z ->
  opaque_byte (lower_hex_digit d) = true /\ visible_ascii (lower_hex_digit d) = true.
Proof.
  intros Hd. assert (exists i, i < 16 /\ d = Z.of_nat i) as (i & Hi & ->) by (exists (Z.to_nat d); lia).
  do 16 (destruct i as [|i]; [by split|]). lia.
Qed.
Lemma hex_digits_bytes fuel : forall n acc,
  forallb opaque_byte acc = true -> forallb visible_ascii acc = true ->
  forallb opaque_byte (hex_digits fuel n acc) = true /\ forallb visible_ascii (hex_digits fuel n acc) = true.
Proof.
  induction fuel as [|fuel IH]; intros n acc Ho Hv; cbn [hex_digits]; [done|].
  destruct (lower_hex_bytes (n mod 16)) as [H1 H2]; [by apply Z.mod_pos_bound|].
  assert (forallb opaque_byte (lower_hex_digit (n mod 16) :: acc) = true) by (cbn [forallb]; by rewrite H1).
  assert (forallb visible_ascii (lower_hex_digit (n mod 16) :: acc) = true) by (cbn [forallb]; by rewrite H2).
  destruct (n <? 16)%Z; [done|by apply IH].
Qed.
Lemma static_tag_valid total t :
  valid_tag (static_tag total t) /\ forallb visible_ascii (render_tag (static_tag total t)) = true.
Proof.
  unfold valid_tag, render_tag, static_tag, to_hex. cbn [tag_weak tag_opaque].
  destruct (hex_digits_bytes (S (Z.to_nat (Z.log2 total))) total [] eq_refl eq_refl) as [O1 V1].
  destruct (hex_digits_bytes (S (Z.to_nat (Z.log2 (Z.max 0 t)))) (Z.max 0 t) [] eq_refl eq_refl) as [O2 V2].
  by rewrite !forallb_app, O1, V1, O2, V2.
Qed.

(** What the request's Range field asks for: nothing without the field or when
    the preconditions say so, a single range, and nothing for any other value
    (several ranges or fields, another unit, no range at all). *)
Definition asks_range (range : option str) (outcome : PreconditionResult) (total : Z) (r : RangeParse) : Prop :=
  match range with
  | Some raw =>
      if bool_decide (outcome = IgnoreRange) then r = Ignored
      else (forall first last, single_range raw first last -> r = range_outcome first last total)
           /\ ((forall first last, ~ single_range raw first last) -> r = Ignored)
  | None => r = Ignored
  end.

Section serving.
Context `{HeaderMap HM, HttpTypes, HttpDate}.
Context (problem_json : str -> str -> Z -> str -> str -> str).

Definition data_frames (l : list (result str BoxError)) : list (result (Frame HM) BoxError) :=
  map (fun c => match c with Ok b => Ok (Data b) | Err e => Err e end) l.

Lemma validators_spec total t (r : Response HM) : in_date_range t ->
  validators (Some (render_tag (static_tag total t))) (Some t) r
  = set_headers r (hm_insert (hm_insert (hm_insert (res_headers r) §"accept-ranges" §"bytes")
      §"etag" (render_tag (static_tag total t))) §"last-modified" (fmt_http_date t)).
Proof.
  intros Ht. unfold validators. rewrite !with_header_plain; try done;
    apply header_value_visible; [done|apply static_tag_valid|by apply fmt_visible].
Qed.

(** The part of the handler after the preconditions, for GET. *)
Lemma send_file_get req f t range stream :
  method req = §"GET" -> opened_modified f = Some t -> in_date_range t -> (0 <= total_len f)%Z ->
  (forall a b, range = Some (a, b) -> 0 <= a <= b)%Z ->
  let tag := render_tag (static_tag (total_len f) t) in
  let out := send_file (HM := HM) problem_json req f (Some tag) range true stream in
  let m := res_headers out in
  build_error out = None /\ trailers out = None
  /\ get_all m §"etag" = [tag] /\ get_all m §"last-modified" = [fmt_http_date t]
  /\ get_all m §"accept-ranges" = [§"bytes"]
  /\ match range with
     | Some (a, b) =>
         status out = 206%Z /\ body_kind out = Stream (data_frames (stream a (b - a + 1)%Z))
         /\ get_all m CONTENT_LENGTH = [to_dec (b - a + 1)]
         /\ get_all m §"content-range" = [§"bytes " ++ to_dec a ++ §"-" ++ to_dec b ++ §"/" ++ to_dec (total_len f)]
     | None =>
         status out = 200%Z
         /\ body_kind out = Stream (data_frames (if (total_len f =? 0)%Z then [] else stream 0%Z (total_len f)))
         /\ get_all m CONTENT_LENGTH = [to_dec (total_len f)] /\ get_all m §"content-range" = []
     end.
Proof.
  intros Hm Hmod Ht Hlen Hr tag out m. subst m. subst out. unfold send_file. rewrite Hm, Hmod.
  change (eq_ignore_ascii_case §"GET" §"HEAD") with false. cbn iota zeta.
  assert (H2 : forall s, (100 <= s <= 999)%Z -> forall r : Response HM, with_status r s = set_status r s).
  { intros s Hs r. unfold with_status. by rewrite (proj2 (status_code_range s)). }
  assert (Hd : forall n, (0 <= n)%Z -> forallb visible_ascii (to_dec n) = true).
  { intros n Hn. by apply forallb_digits_visible, forallb_true_Forall, to_dec_spec. }
  destruct range as [[a b]|].
  - specialize (Hr a b eq_refl). rewrite (proj2 (Z.eqb_neq (b - a + 1) 0)) by lia. rewrite andb_false_r.
    rewrite H2 by lia. rewrite !with_header_plain; try done; [|apply dec_header_value; lia|].
    2:{ apply header_value_visible. by rewrite !forallb_app, !Hd by lia. }
    subst tag. rewrite validators_spec by done.
    split_and!; [done|done|..]; try done; cbn [res_headers set_headers]; header_ne; apply get_all_insert_eq.
  - rewrite H2 by lia. destruct (Z.eqb_spec (total_len f) 0) as [E0|Hne].
    + rewrite with_header_plain by (done || by apply header_value_visible). subst tag. rewrite validators_spec by done.
      rewrite E0. split_and!; [done|done|..]; try done; cbn [res_headers set_headers]; header_ne; try apply get_all_insert_eq.
      apply get_all_empty.
    + change (0 <? 0)%Z with false. cbn [andb]. rewrite H2 by lia.
      rewrite with_header_plain by (done || by apply dec_header_value). subst tag. rewrite validators_spec by done.
      split_and!; [done|done|..]; try done; cbn [res_headers set_headers]; header_ne; try apply get_all_insert_eq.
      apply get_all_empty.
Qed.

Lemma validated total t (r : Response HM) : in_date_range t ->
  let tag := render_tag (static_tag total t) in
  let out := validators (Some tag) (Some t) r in
  get_all (res_headers out) §"etag" = [tag] /\ get_all (res_headers out) §"last-modified" = [fmt_http_date t]
  /\ get_all (res_headers out) §"accept-ranges" = [§"bytes"]
  /\ build_error out = build_error r /\ trailers out = trailers r /\ status out = status r /\ body_kind out = body_kind r
  /\ get_all (res_headers out) §"content-range" = get_all (res_headers r) §"content-range".
Proof.
  intros Ht tag out. subst out tag. rewrite validators_spec by done.
  split_and!; try done; cbn [res_headers set_headers]; header_ne; done || apply get_all_insert_eq.
Qed.

(** C28. A GET of a file answers exactly what its preconditions and its range ask
    for. With the file open and its modification time known, and for a request
    whose header views agree, the validators (weak tag, date, accepted ranges)
    are always sent, and the outcome of the RFC decision gives 412, 304, or the
    file: a satisfiable range gives 206 with the length and the Content-Range of bytes that lie inside the file, a
    range that starts beyond the end (or an empty suffix) gives 416 with the
    size, and without a Range field, with a failed If-Range, and with several
    ranges, another unit or a value that is no range, the answer is 200 with
    the whole file. A range whose last position is no number is ignored too,
    unless it starts beyond the end of the file. *)
Theorem static_get_exact req param dotfiles relative f t p opening stream :
  method req = §"GET" -> safe_static_relative (default [] param) dotfiles = Ok relative ->
  opening relative = Opened (Ok f) -> opened_modified f = Some t -> in_date_range t -> (0 <= total_len f)%Z ->
  presents req p -> (is_Some (header req §"range") <-> headers_all req §"range" <> []) ->
  let range := match headers_all req §"range" with [] => None | values => Some (join [comma] values) end in
  let total := total_len f in
  let out := serve_static_file (HM := HM) problem_json req param dotfiles Granted opening true stream in
  let m := res_headers out in
  build_error out = None /\ trailers out = None
  /\ get_all m §"etag" = [render_tag (static_tag total t)] /\ get_all m §"last-modified" = [fmt_http_date t]
  /\ get_all m §"accept-ranges" = [§"bytes"]
  /\ match rfc_evaluate true p (Some (static_tag total t)) (Some t) (bool_decide (is_Some range)) with
     | Failed => status out = 412%Z /\ body_kind out = Bytes []
     | NotModified => status out = 304%Z /\ body_kind out = Bytes []
     | outcome =>
         exists r, asks_range range outcome total r /\
         match r with
         | Satisfiable a b =>
             (0 <= a <= b /\ b < total)%Z /\ status out = 206%Z
             /\ body_kind out = Stream (data_frames (stream a (b - a + 1)%Z))
             /\ get_all m CONTENT_LENGTH = [to_dec (b - a + 1)]
             /\ get_all m §"content-range" = [§"bytes " ++ to_dec a ++ §"-" ++ to_dec b ++ §"/" ++ to_dec total]
         | Unsatisfiable =>
             status out = 416%Z /\ body_kind out = Bytes []
             /\ get_all m §"content-range" = [§"bytes */" ++ to_dec total]
         | Ignored =>
             status out = 200%Z
             /\ body_kind out = Stream (data_frames (if (total =? 0)%Z then [] else stream 0%Z total))
             /\ get_all m CONTENT_LENGTH = [to_dec total] /\ get_all m §"content-range" = []
         end
     end.
Proof.
  intros Hm Hsafe Hop Hmod Ht Hlen Hp Hviews range total out. subst out. unfold serve_static_file.
  rewrite Hsafe. cbn [acquire_static_permit]. rewrite Hop, Hmod.
  assert (range_field req = range) as ->.
  { unfold range_field, combined_request_header, range. rewrite Hm. change (eq_ignore_ascii_case §"GET" §"GET") with true.
    cbn iota. destruct (headers_all req §"range"); [|done]. destruct (header req §"range") as [v|]; [|done].
    exfalso. by apply Hviews. }
  cbn [fmap option_fmap option_map]. fold total.
  change (Some (render_tag (static_tag total t))) with (render_tag <$> Some (static_tag total t)).
  rewrite (evaluate_rfc req p) by (done || apply static_tag_valid). rewrite Hm.
  change (bool_decide (§"GET" = §"GET") || _) with true.
  assert (bool_decide (is_Some (header req §"range")) = bool_decide (is_Some range)) as ->.
  { apply bool_decide_ext. rewrite Hviews. unfold range. destruct (headers_all req §"range"); split; done. }
  rewrite andb_diag. cbn [fmap option_fmap option_map].
  assert (Hstatus : forall s, (100 <= s <= 999)%Z -> with_status (response_send (HM := HM) []) s = set_status (response_send []) s).
  { intros s Hs. unfold with_status. by rewrite (proj2 (status_code_range s)). }
  pose proof (fun r Hr => send_file_get req f t r stream Hm Hmod Ht Hlen Hr) as Hsend. cbn zeta in Hsend. fold total in Hsend.
  destruct (rfc_evaluate true p _ _ _).
  - rewrite !(bool_decide_eq_false_2 (Proceed = IgnoreRange)) by done.
    destruct range as [raw|]; cbn [fmap option_fmap option_map]; [|destruct (Hsend None) as (? & ? & ? & ? & ? & ?); [done|];
      split_and!; try done; exists Ignored; by split].
    assert (asks_range (Some raw) Proceed total (parse_byte_range raw total)) as Hask.
    { unfold asks_range. rewrite bool_decide_eq_false_2 by done. split; intros; [by apply parse_single_range|by apply parse_other_range]. }
    destruct (parse_byte_range raw total) as [a b| |] eqn:Eo.
    + apply byte_range_inside in Eo; [|done]. destruct (Hsend (Some (a, b))) as (? & ? & ? & ? & ? & ? & ? & ? & ?);
        [intros ? ? [= <- <-]; lia|]. destruct Eo as [[? ?] ?]. split_and!; try done.
      exists (Satisfiable a b). by split_and!.
    + rewrite Hstatus, with_header_plain by (done || lia || (apply header_value_visible; rewrite forallb_app;
        apply andb_true_iff; split; [done|]; by apply forallb_digits_visible, forallb_true_Forall, to_dec_spec)).
      destruct (validated total t (set_headers (set_status (response_send (HM := HM) []) 416)
        (hm_insert (res_headers (set_status (response_send (HM := HM) []) 416)) §"content-range" (§"bytes */" ++ to_dec total))) Ht)
        as (? & ? & ? & -> & -> & -> & -> & ->).
      split_and!; try done. exists Unsatisfiable. split_and!; try done. cbn. apply get_all_insert_eq.
    + destruct (Hsend None) as (? & ? & ? & ? & ? & ?); [done|]. split_and!; try done. exists Ignored. by split.
  - rewrite Hstatus by lia. destruct (validated total t (set_status (response_send (HM := HM) []) 304) Ht)
      as (? & ? & ? & -> & -> & -> & -> & _). by split_and!.
  - rewrite Hstatus by lia. destruct (validated total t (set_status (response_send (HM := HM) []) 412) Ht)
      as (? & ? & ? & -> & -> & -> & -> & _). by split_and!.
  - rewrite !(bool_decide_eq_true_2 (IgnoreRange = IgnoreRange)) by done.
    destruct (Hsend None) as (? & ? & ? & ? & ? & ?); [done|]. split_and!; try done. exists Ignored. split; [|done].
    unfold asks_range. destruct range; [|done]. by rewrite bool_decide_eq_true_2.
Qed.

(** A value the comment on [parse_byte_range] calls malformed is refused, not
    ignored, when its first position lies beyond the end of the file. *)
Lemma garbage_end_beyond_file raw first total : (0 <= total)%Z -> single_range raw (Some first) NotANumber ->
  (total <= first)%Z -> parse_byte_range raw total = Unsatisfiable.
Proof.
  intros Ht Hr Hle. rewrite (parse_single_range raw (Some first) NotANumber) by done. cbn.
  by rewrite (proj2 (Z.leb_le _ _) Hle).
Qed.
End serving.

(** ** Instances *)

Module Files.
#[local] Existing Instance assoc_header_map.
#[local] Existing Instance reference_http_types.
#[local] Existing Instance sample_http_date.

Definition problem (_ _ : str) (_ : Z) (detail _ : str) : str := detail.
Definition file : OpenedStaticFile := mkOpened §"a.txt" 10 (Some 5000000000%Z).
Definition no_conditions : Preconditions := mkPreconditions None None None None None.
Definition request : Request := build (build_header RequestBuilder_new §"Range" §"Bytes=7-99").
Definition opening (_ : str) : Opening := Opened (Ok file).
Definition stream (start len : Z) : list (result str BoxError) := [Ok (take (Z.to_nat len) (drop (Z.to_nat start) §"0123456789"))].

Lemma range_request_presents : presents request no_conditions.
Proof. split; by vm_compute. Qed.

(** The last three bytes of a file of ten, asked for as [7-99]. *)
Lemma static_get_exact_witness :
  let out := serve_static_file (HM := AssocHeaders) problem request (Some §"a.txt") Deny Granted opening true stream in
  status out = 206%Z /\ body_kind out = Stream [Ok (Data §"789")]
  /\ get_all (res_headers out) §"content-range" = [§"bytes 7-9/10"].
Proof.
  pose proof (static_get_exact (HM := AssocHeaders) problem request (Some §"a.txt") Deny §"a.txt" file 5000000000
    no_conditions opening stream eq_refl eq_refl eq_refl eq_refl ltac:(split; done) ltac:(done)
    range_request_presents ltac:(split; [by vm_compute|by eexists])) as (_ & _ & _ & _ & _ & Hout).
  change (rfc_evaluate true no_conditions _ _ _) with Proceed in Hout. cbn iota in Hout.
  destruct Hout as (r & Hask & Hr). change (headers_all request §"range") with [§"Bytes=7-99"] in Hask.
  unfold asks_range in Hask. rewrite bool_decide_eq_false_2 in Hask by done. destruct Hask as [Hask _].
  specialize (Hask (Some 7%Z) (At 99)). rewrite Hask in Hr.
  - destruct Hr as (_ & Hs & Hb & _ & Hc). split_and!; [exact Hs|exact Hb|exact Hc].
  - exists §"Bytes", §"7-99", §"7", §"99". split_and!; try (by vm_compute); apply (bool_decide_unpack _); by vm_compute.
Defined.

Definition turns : list Turn := [mkTurn 0 (Read 2) 0 (Some 0%Z); mkTurn 1 (Read 9) 1 (Some 0%Z)].
Lemma static_stream_complete_or_error_witness :
  exists chunks tail,
    (file_stream 4 true None None 0 (fun _ => true) §"abcdef" turns).1 = map Ok chunks ++ tail
    /\ (tail = [] -> concat chunks = §"abcd").
Proof.
  pose proof (static_stream_complete_or_error 4 true None None 0 (fun _ => true) §"abcdef" turns ltac:(done)) as Hs.
  destruct (file_stream 4 true None None 0 (fun _ => true) §"abcdef" turns) as [out ended] eqn:E.
  destruct Hs as (chunks & tail & Ho & _ & _ & _ & Hend). exists chunks, tail. split; [exact Ho|].
  intros Hn. assert (ended = true) by (vm_compute in E; congruence). by destruct (Hend H Hn) as [-> _].
Defined.

Example stream_ex : file_stream 4 true None None 0 (fun _ => true) §"abcdef" turns = ([Ok §"ab"; Ok §"cd"], true).
Proof. reflexivity. Qed.
Example short_file_ex : file_stream 9 true None None 0 (fun _ => true) §"abc" turns = ([Ok §"ab"; Ok §"c"], false).
Proof. reflexivity. Qed.
Example path_ex :
  safe_static_relative §"a/../../etc/passwd" Allow = Err InvalidPath
  /\ safe_static_relative §".git/config" Deny = Err Hidden
  /\ safe_static_relative §"css//site.css" Deny = Ok §"css/site.css"
  /\ content_type_for_path §"css/site.css" = §"text/css; charset=utf-8".
Proof. by vm_compute. Qed.
End Files.
