(* ===== verification/Middleware.v ===== *)
(** * Middleware ([src/app/middleware/mod.rs])

    The bounded fixed-window rate limiter as a state machine over explicit
    instants, the CORS policy and the request identifiers. A middleware takes
    the request and the rest of the chain [next]; IP addresses are an
    arbitrary countable type. *)
From S2P Require Import Prelude Strs Percent Request Headers Response.

(** ** Rate limiting *)

Definition DEFAULT_RATE_LIMIT_CLIENTS : nat := Z.to_nat 10000.
Definition MAX_RATE_LIMIT_CLEANUP_INTERVAL : Z := 60 * 1000000000.
Definition u32_max : Z := 4294967295.

Record RateBucket := mkRateBucket { start : Z; count : Z }.

(** [duration_since], which saturates at zero. *)
Definition duration_since (now earlier : Z) : Z := Z.max 0 (now - earlier).

Section rate.
Context `{Countable Ip}.

Record RateState := mkRateState {
  buckets : gmap (option Ip) RateBucket;
  overflow : option RateBucket;
  next_cleanup : Z
}.
Record RateLimit := mkRateLimit { max_requests : Z; window : Z; max_clients : nat }.

(** The constructors, with their assertions ([None] is a panic). *)
Definition RateLimit_new (max_requests window : Z) : option RateLimit :=
  if (window =? 0)%Z then None else Some (mkRateLimit max_requests window DEFAULT_RATE_LIMIT_CLIENTS).
Definition with_max_clients (l : RateLimit) (n : nat) : option RateLimit :=
  if (n =? 0)%nat then None else Some (mkRateLimit (max_requests l) (window l) n).

Context (checked_add : Z -> Z -> option Z).

Definition check_rate_bucket (bucket : RateBucket) (now window max_requests : Z) : RateBucket * option Z :=
  let elapsed := duration_since now (start bucket) in
  let bucket := if (window <=? elapsed)%Z then mkRateBucket now 0 else bucket in
  let bucket := mkRateBucket (start bucket) (Z.min (count bucket + 1) u32_max) in
  (bucket,
   if (max_requests <? count bucket)%Z
   then Some (Z.max 0 (window - duration_since now (start bucket))) else None).

Definition live (now window : Z) (bucket : RateBucket) : bool :=
  (duration_since now (start bucket) <? window)%Z.
Definition remove_expired_rate_buckets (s : RateState) (now window : Z) : RateState :=
  mkRateState (filter (fun kv => live now window kv.2 = true) (buckets s))
    (match overflow s with
     | Some bucket => if live now window bucket then Some bucket else None
     | None => None
     end)
    (next_cleanup s).

Definition sweep (s : RateState) (now cleanup_interval window : Z) : RateState :=
  if (next_cleanup s <=? now)%Z then
    let s := remove_expired_rate_buckets s now window in
    mkRateState (buckets s) (overflow s) (default now (checked_add now cleanup_interval))
  else s.

(** Which bucket counts the request. *)
Inductive Slot := Own | Shared.
#[global] Instance Slot_eq_dec : EqDecision Slot.
Proof. solve_decision. Defined.
Definition slot_for (s : RateState) (key : option Ip) (max_clients : nat) : Slot :=
  match buckets s !! key with
  | Some _ => Own
  | None => if (size (buckets s) <? max_clients)%nat then Own else Shared
  end.

Definition check_rate_limit_state (s : RateState) (key : option Ip) (now cleanup_interval window : Z)
    (max_clients : nat) (max_requests : Z) : RateState * option Z :=
  let s := sweep s now cleanup_interval window in
  match slot_for s key max_clients with
  | Own =>
      let '(bucket, verdict) := check_rate_bucket (default (mkRateBucket now 0) (buckets s !! key)) now window max_requests in
      (mkRateState (<[key := bucket]> (buckets s)) (overflow s) (next_cleanup s), verdict)
  | Shared =>
      let '(bucket, verdict) := check_rate_bucket (default (mkRateBucket now 0) (overflow s)) now window max_requests in
      (mkRateState (buckets s) (Some bucket) (next_cleanup s), verdict)
  end.

(** The seconds of the Retry-After field, rounded up. *)
Definition retry_after_seconds (remaining : Z) : Z :=
  Z.max 1 (Z.min u64_max (remaining / 1000000000 + (if (remaining mod 1000000000 =? 0)%Z then 0 else 1))).

Definition cleanup_interval (l : RateLimit) : Z := Z.min (window l) MAX_RATE_LIMIT_CLEANUP_INTERVAL.
Definition RateState_new (l : RateLimit) (now : Z) : RateState :=
  mkRateState ∅ None (default now (checked_add now (cleanup_interval l))).

(** The handler of [RateLimit::into_middleware]. *)
Definition rate_limit_middleware `{HeaderMap HM, HttpTypes} (problem_json : str -> str -> Z -> str -> str -> str)
    (l : RateLimit) (s : RateState) (remote : option Ip) (now : Z) (next : unit -> Response HM)
  : RateState * Response HM :=
  let '(s, over_limit) := check_rate_limit_state s remote now (cleanup_interval l) (window l) (max_clients l) (max_requests l) in
  (s, match over_limit with
      | Some remaining =>
          from_error problem_json (error_header (too_many_requests §"Too Many Requests") §"retry-after"
                                     (to_dec (retry_after_seconds remaining)))
      | None => next tt
      end).
End rate.
Arguments RateState Ip {_ _}.

(** ** CORS *)

Record Cors := mkCors {
  any_origin : bool;
  origins : list str;
  methods : str;
  cors_headers : option str;
  credentials : bool;
  max_age_secs : option Z
}.
Definition Cors_new : Cors := mkCors false [] §"GET, POST, PUT, PATCH, DELETE, OPTIONS, HEAD" None false None.

Definition grant_for (c : Cors) (origin : str) : option str :=
  if any_origin c then
    if credentials c then (if bool_decide (origin = §"null") then None else Some origin) else Some §"*"
  else if existsb (fun allowed => bool_decide (allowed = origin)) (origins c) then Some origin
  else None.
Definition varies_by_origin (c : Cors) : bool := negb (any_origin c) || credentials c.

Definition ALLOW_ORIGIN : str := §"access-control-allow-origin".
Definition ALLOW_CREDENTIALS : str := §"access-control-allow-credentials".
Arguments ALLOW_ORIGIN : simpl never.
Arguments ALLOW_CREDENTIALS : simpl never.

Section cors.
Context `{HeaderMap HM, HttpTypes}.
Context (problem_json : str -> str -> Z -> str -> str -> str).

Definition apply_grant (c : Cors) (r : Response HM) (allowed : str) : Response HM :=
  let r := with_header r ALLOW_ORIGIN allowed in
  if credentials c then with_header r ALLOW_CREDENTIALS §"true" else r.

(** The only error of [singleton_header] is a repeated field. *)
Definition header_error (e : Request.HttpError) (name : str) : HttpError HM :=
  match e with DuplicateHeader name => duplicate_header name | _ => duplicate_header name end.

Definition preflight (c : Cors) (req : Request) (grant : option str) : Response HM :=
  let requested_headers := match headers_all req §"access-control-request-headers" with
                           | [] => header req §"access-control-request-headers"
                           | values => Some (join §", " values)
                           end in
  let r := with_header (with_status (response_send []) 204) §"vary"
             §"Origin, Access-Control-Request-Method, Access-Control-Request-Headers" in
  match grant with
  | None => r
  | Some allowed =>
      let r := with_header r §"access-control-allow-methods" (methods c) in
      let r := match (match cors_headers c with Some h => Some h | None => requested_headers end) with
               | Some h => with_header r §"access-control-allow-headers" h
               | None => r
               end in
      let r := match max_age_secs c with
               | Some age => with_header r §"access-control-max-age" (to_dec age)
               | None => r
               end in
      apply_grant c r allowed
  end.

Definition cors_middleware (c : Cors) (req : Request) (next : Request -> Response HM) : Response HM :=
  match request_singleton_header req §"origin" with
  | Err e => from_error problem_json (header_error e §"origin")
  | Ok None => next req
  | Ok (Some origin) =>
      match request_singleton_header req §"access-control-request-method" with
      | Err e => from_error problem_json (header_error e §"access-control-request-method")
      | Ok requested_method =>
          let grant := grant_for c origin in
          if bool_decide (method req = §"OPTIONS") && bool_decide (is_Some requested_method)
          then preflight c req grant
          else
            let r := next req in
            let r := if varies_by_origin c then response_append_header r §"vary" §"Origin" else r in
            match grant with Some allowed => apply_grant c r allowed | None => r end
      end
  end.
End cors.

(** ** Request identifiers *)

Definition MAX_REQUEST_ID_BYTES : nat := 128.
Definition valid_request_id (value : str) : bool :=
  negb (bool_decide (value = [])) && (length value <=? MAX_REQUEST_ID_BYTES)%nat && forallb (in_range 33 126) value.
Definition generate_request_id (nanos count : Z) : str := §"req-" ++ to_dec nanos ++ §"-" ++ to_dec count.

Definition chosen_request_id (req : Request) (nanos count : Z) : str :=
  match headers_all req §"x-request-id" with
  | [value] => if valid_request_id value then value else generate_request_id nanos count
  | [] => match header req §"x-request-id" with
          | Some value => if valid_request_id value then value else generate_request_id nanos count
          | None => generate_request_id nanos count
          end
  | _ => generate_request_id nanos count
  end.
(** [None]: the [expect] on [set_header] fails. *)
Definition request_id_middleware `{HeaderMap HM, HttpTypes} (nanos count : Z) (req : Request)
    (next : Request -> Response HM) : option (Response HM) :=
  let id := chosen_request_id req nanos count in
  match set_header header_name header_value req §"x-request-id" id with
  | Ok req => Some (with_header (next req) §"x-request-id" id)
  | Err _ => None
  end.

(** ** The limiter is bounded and honest *)

Arguments check_rate_bucket : simpl never.

Section rate_theorems.
Context `{Countable Ip} (checked_add : Z -> Z -> option Z).
Context (l : RateLimit).
Implicit Types (s : RateState Ip) (k : option Ip).

Abbreviation check s k now :=
  (check_rate_limit_state checked_add s k now (cleanup_interval l) (window l) (max_clients l) (max_requests l)).

(** Requests as they come; the accepted ones with the bucket that counted them. *)
Fixpoint rate_run s (reqs : list (option Ip * Z)) : RateState Ip * list (option Ip * Slot) :=
  match reqs with
  | [] => (s, [])
  | (k, now) :: reqs =>
      let slot := slot_for (sweep checked_add s now (cleanup_interval l) (window l)) k (max_clients l) in
      let '(s, verdict) := check s k now in
      let '(s, accepted) := rate_run s reqs in
      (s, match verdict with Some _ => accepted | None => (k, slot) :: accepted end)
  end.

Record rate_ok s : Prop := {
  ro_size : size (buckets s) <= max_clients l;
  ro_counts : map_Forall (fun _ b => 0 <= count b)%Z (buckets s);
  ro_overflow : match overflow s with Some b => (0 <= count b)%Z | None => True end
}.

Lemma sweep_lookup s now k :
  buckets (sweep checked_add s now (cleanup_interval l) (window l)) !! k
  = match buckets s !! k with
    | Some b => if (next_cleanup s <=? now)%Z && negb (live now (window l) b) then None else Some b
    | None => None
    end.
Proof.
  unfold sweep. destruct (next_cleanup s <=? now)%Z; cbn; [|by destruct (buckets s !! k)].
  rewrite map_lookup_filter. destruct (buckets s !! k) as [b|]; cbn; [|done].
  destruct (live now (window l) b) eqn:E; case_guard; cbn; congruence.
Qed.
Lemma sweep_overflow s now :
  overflow (sweep checked_add s now (cleanup_interval l) (window l))
  = match overflow s with
    | Some b => if (next_cleanup s <=? now)%Z && negb (live now (window l) b) then None else Some b
    | None => None
    end.
Proof.
  unfold sweep. destruct (next_cleanup s <=? now)%Z; cbn; destruct (overflow s) as [b|]; cbn; try done.
  by destruct (live now (window l) b).
Qed.
Lemma sweep_size s now : size (buckets (sweep checked_add s now (cleanup_interval l) (window l))) <= size (buckets s).
Proof.
  unfold sweep. destruct (next_cleanup s <=? now)%Z; cbn; [|done].
  apply map_subseteq_size, map_filter_subseteq.
Qed.
Lemma sweep_ok s now : rate_ok s -> rate_ok (sweep checked_add s now (cleanup_interval l) (window l)).
Proof.
  intros [Hs Hc Ho]. split.
  - etrans; [apply sweep_size|done].
  - intros k b. rewrite sweep_lookup. destruct (buckets s !! k) as [b'|] eqn:E; [|done].
    destruct (_ && _); [done|]. intros [= <-]. by apply (Hc k).
  - rewrite sweep_overflow. destruct (overflow s); [|done]. by destruct (_ && _).
Qed.

Lemma bucket_count b now w m : (0 <= count b)%Z -> (0 <= count (check_rate_bucket b now w m).1)%Z.
Proof. intros Hb. unfold check_rate_bucket. cbn. destruct (_ <=? _)%Z; cbn; unfold u32_max; lia. Qed.

Lemma check_ok s k now : rate_ok s -> rate_ok (check s k now).1.
Proof.
  intros Hs. apply (sweep_ok s now) in Hs. unfold check_rate_limit_state.
  set (s' := sweep _ _ _ _ _) in *. destruct Hs as [Hs Hc Ho]. unfold slot_for.
  destruct (buckets s' !! k) as [b|] eqn:E; [|destruct (Nat.ltb_spec (size (buckets s')) (max_clients l)) as [Hlt|Hge]].
  - cbn. pose proof (bucket_count b now (window l) (max_requests l) (Hc k b E)) as Hb.
    destruct (check_rate_bucket b now _ _) as [b' v]. cbn in *. split; cbn; [|by apply map_Forall_insert_2|done].
    rewrite map_size_insert_Some by eauto. done.
  - cbn. pose proof (bucket_count (mkRateBucket now 0) now (window l) (max_requests l) ltac:(done)) as Hb.
    destruct (check_rate_bucket _ now _ _) as [b' v]. cbn in *. split; cbn; [|by apply map_Forall_insert_2|done].
    rewrite map_size_insert_None by done. lia.
  - assert (H0 : (0 <= count (default (mkRateBucket now 0) (overflow s')))%Z) by by destruct (overflow s').
    pose proof (bucket_count _ now (window l) (max_requests l) H0) as Hb.
    destruct (check_rate_bucket _ now _ _) as [b' v]. cbn in *. by split.
Qed.

(** ** Counting what a bucket accepts in one span *)

Section span.
Context (a : Z) (Hw : (0 < window l)%Z) (Hm : (0 <= max_requests l < u32_max)%Z).

(** [A] requests were accepted by the bucket since [a]: by the window that was
    open at [a], and by at most one that opened after it. *)
Definition within (b : option RateBucket) (A : Z) : Prop :=
  match b with
  | None => (A <= max_requests l)%Z
  | Some b =>
      if (start b <? a)%Z then (A <= Z.min (count b) (max_requests l))%Z
      else (A <= max_requests l + Z.min (count b) (max_requests l))%Z
  end.

Lemma within_start (b : option RateBucket) : match b with Some b => (0 <= count b)%Z | None => True end -> within b 0.
Proof. destruct b as [b|]; cbn; [|lia]. intros. destruct (_ <? _)%Z; lia. Qed.
Lemma within_bound (b : option RateBucket) A : within b A -> (A <= 2 * max_requests l)%Z.
Proof. destruct b as [b|]; cbn; [|lia]. destruct (_ <? _)%Z; lia. Qed.

Lemma within_sweep b A now due : (now < a + window l)%Z -> within (Some b) A ->
  within (if due && negb (live now (window l) b) then None else Some b) A.
Proof.
  intros Hnow HA. destruct due; [|done]. cbn [andb]. unfold live, duration_since. cbn in *.
  destruct (Z.ltb_spec (Z.max 0 (now - start b)) (window l)); cbn; [done|].
  destruct (Z.ltb_spec (start b) a); lia.
Qed.

Lemma within_check (b : option RateBucket) A now : (a <= now < a + window l)%Z ->
  match b with Some b => (0 <= count b)%Z | None => True end -> within b A ->
  let '(b', v) := check_rate_bucket (default (mkRateBucket now 0) b) now (window l) (max_requests l) in
  within (Some b') (A + match v with Some _ => 0 | None => 1 end).
Proof.
  intros Hnow Hc HA.
  assert (Hb : exists b1, within (Some b1) A /\ (0 <= count b1)%Z
            /\ (if (window l <=? duration_since now (start (default (mkRateBucket now 0) b)))%Z
                then mkRateBucket now 0 else default (mkRateBucket now 0) b) = b1).
  { eexists. split_and!; [| |done].
    - destruct b as [b|]; cbn in *.
      + unfold duration_since. destruct (Z.leb_spec (window l) (Z.max 0 (now - start b))); [|done]. cbn.
        rewrite (proj2 (Z.ltb_ge now a)) by lia. destruct (Z.ltb_spec (start b) a); lia.
      + unfold duration_since. rewrite Z.sub_diag, (proj2 (Z.leb_gt _ _)) by lia. cbn.
        rewrite (proj2 (Z.ltb_ge now a)) by lia. lia.
    - destruct b as [b|]; cbn; case_match; cbn; lia. }
  destruct Hb as (b1 & H1 & H2 & E). unfold check_rate_bucket. cbn zeta. rewrite E. cbn in *. unfold u32_max in *.
  destruct (Z.ltb_spec (start b1) a), (Z.ltb_spec (max_requests l) (Z.min (count b1 + 1) 4294967295)); lia.
Qed.

(** The bucket behind a label, and its share of the accepted requests. *)
Definition bucket_of s (slot : option (option Ip)) : option RateBucket :=
  match slot with Some k => buckets s !! k | None => overflow s end.
Definition counted (slot : option (option Ip)) (e : option Ip * Slot) : bool :=
  match slot with
  | Some k => bool_decide (e = (k, Own))
  | None => bool_decide (e.2 = Shared)
  end.
Definition tally (slot : option (option Ip)) (log : list (option Ip * Slot)) : Z :=
  Z.of_nat (length (List.filter (counted slot) log)).

Lemma bucket_of_count s slot : rate_ok s ->
  match bucket_of s slot with Some b => (0 <= count b)%Z | None => True end.
Proof.
  intros [_ Hc Ho]. destruct slot as [k|]; [|done]. cbn. destruct (buckets s !! k) as [b|] eqn:E; [|done]. by apply (Hc k).
Qed.

Lemma within_swept s slot now A : (now < a + window l)%Z -> within (bucket_of s slot) A ->
  within (bucket_of (sweep checked_add s now (cleanup_interval l) (window l)) slot) A.
Proof.
  intros Hnow HA. destruct slot as [k|]; cbn in *.
  - rewrite sweep_lookup. destruct (buckets s !! k); [|done]. by apply within_sweep.
  - rewrite sweep_overflow. destruct (overflow s); [|done]. by apply within_sweep.
Qed.

Lemma within_step s slot k now A : (a <= now < a + window l)%Z -> rate_ok s -> within (bucket_of s slot) A ->
  let s1 := sweep checked_add s now (cleanup_interval l) (window l) in
  let '(s', v) := check s k now in
  within (bucket_of s' slot)
    (A + match v with
         | Some _ => 0
         | None => if counted slot (k, slot_for s1 k (max_clients l)) then 1 else 0 end).
Proof.
  intros Hnow Hok HA s1. pose proof (sweep_ok s now Hok) as Hok1. fold s1 in Hok1.
  assert (HA1 : within (bucket_of s1 slot) A) by (apply within_swept; [lia|done]).
  unfold check_rate_limit_state. fold s1. clearbody s1. destruct (slot_for s1 k (max_clients l)).
  - pose proof (within_check (buckets s1 !! k) A now Hnow (bucket_of_count s1 (Some k) Hok1)) as Hc.
    destruct (check_rate_bucket _ _ _ _) as [b v]. destruct slot as [k'|]; cbn in *.
    + destruct (decide (k = k')) as [->|Hne].
      * rewrite lookup_insert_eq, bool_decide_eq_true_2 by done. by apply Hc.
      * rewrite lookup_insert_ne, bool_decide_eq_false_2 by congruence. by destruct v; rewrite Z.add_0_r.
    + by destruct v; rewrite Z.add_0_r.
  - pose proof (within_check (overflow s1) A now Hnow (bucket_of_count s1 None Hok1)) as Hc.
    destruct (check_rate_bucket _ _ _ _) as [b v]. destruct slot as [k'|]; cbn in *.
    + rewrite bool_decide_eq_false_2 by congruence. by destruct v; rewrite Z.add_0_r.
    + by apply Hc.
Qed.

Lemma rate_run_within reqs slot : forall s A, rate_ok s -> within (bucket_of s slot) A ->
  Forall (fun r => a <= r.2 < a + window l)%Z reqs ->
  (A + tally slot (rate_run s reqs).2 <= 2 * max_requests l)%Z.
Proof.
  induction reqs as [|[k now] reqs IH]; intros s A Hok HA Hr; cbn [rate_run].
  { cbn. rewrite Z.add_0_r. by eapply within_bound. }
  apply Forall_cons in Hr as [Hnow Hr]. pose proof (within_step s slot k now A Hnow Hok HA) as Hs. cbn zeta in Hs.
  pose proof (check_ok s k now Hok) as Hok'. destruct (check s k now) as [s' v]. cbn [fst] in Hok'.
  specialize (IH s' _ Hok' Hs Hr). destruct (rate_run s' reqs) as [s'' log]. cbn [snd] in *.
  destruct v; cbn [fst snd]; [lia|]. unfold tally in *. cbn [List.filter]. destruct (counted slot _); cbn [length]; lia.
Qed.
End span.

(** ** Waiting as told *)

Definition starts_before s (now : Z) : Prop :=
  map_Forall (fun _ b => start b <= now)%Z (buckets s)
  /\ match overflow s with Some b => (start b <= now)%Z | None => True end.

Lemma bucket_rejects b now w m b' d : (0 < w)%Z -> (start b <= now)%Z ->
  check_rate_bucket b now w m = (b', Some d) -> (0 < d <= w)%Z /\ (start b' + w = now + d)%Z.
Proof.
  intros Hw Hs. unfold check_rate_bucket, duration_since. cbn zeta.
  destruct (Z.leb_spec w (Z.max 0 (now - start b))); cbn; (destruct (_ <? _)%Z; [|done]); intros [= <- <-]; cbn; lia.
Qed.
Lemma bucket_accepts b now w m : (1 <= m)%Z -> (w <= now - start b)%Z \/ count b = 0%Z -> (0 < w)%Z ->
  (check_rate_bucket b now w m).2 = None.
Proof.
  intros Hm Hb Hw. unfold check_rate_bucket, duration_since, u32_max. cbn zeta.
  destruct (Z.leb_spec w (Z.max 0 (now - start b))); cbn;
    (match goal with |- context [(m <? ?x)%Z] => destruct (Z.ltb_spec m x) end; [|done]); lia.
Qed.

Lemma check_accepts s k later : (0 < window l)%Z -> (1 <= max_requests l)%Z -> rate_ok s ->
  (forall b, (match slot_for s k (max_clients l) with Own => buckets s !! k | Shared => overflow s end) = Some b ->
     (start b + window l <= later)%Z) ->
  (check s k later).2 = None.
Proof.
  intros Hw Hm Hok Hexp. set (s1 := sweep checked_add s later (cleanup_interval l) (window l)).
  assert (Hnew : (check_rate_bucket (mkRateBucket later 0) later (window l) (max_requests l)).2 = None).
  { apply bucket_accepts; [done|by right|done]. }
  assert (Hown : slot_for s1 k (max_clients l) = Own ->
            (check_rate_bucket (default (mkRateBucket later 0) (buckets s1 !! k)) later (window l) (max_requests l)).2 = None).
  { intros _. unfold s1. rewrite sweep_lookup. unfold slot_for in Hexp.
    destruct (buckets s !! k) as [b|]; [|done]. destruct (_ && _); [done|]. cbn.
    apply bucket_accepts; [done| |done]. left. specialize (Hexp b eq_refl). lia. }
  assert (Hshared : slot_for s1 k (max_clients l) = Shared ->
            (check_rate_bucket (default (mkRateBucket later 0) (overflow s1)) later (window l) (max_requests l)).2 = None).
  { intros Hsh. unfold s1 in *. rewrite sweep_overflow. unfold slot_for in *. rewrite sweep_lookup in Hsh.
    assert (Hfull : size (buckets s) <= max_clients l) by apply Hok.
    pose proof (sweep_size s later) as Hsz. destruct (buckets s !! k) as [b|] eqn:Ek.
    - exfalso. destruct (_ && _) eqn:Edrop; [|done].
      assert (Hlt : size (buckets (sweep checked_add s later (cleanup_interval l) (window l))) < size (buckets s)).
      { apply map_subset_size. apply map_subset_alt. split.
        - apply map_subseteq_spec. intros k' b'. rewrite sweep_lookup. intros E.
          destruct (buckets s !! k') as [r|]; [|done]. by destruct ((next_cleanup s <=? later)%Z && negb (live later (window l) r)).
        - exists k. rewrite sweep_lookup, Ek, Edrop. eauto. }
      rewrite (proj2 (Nat.ltb_lt _ _)) in Hsh by lia. done.
    - destruct (overflow s) as [b|]; [|done]. destruct (_ && _); [done|]. cbn.
      apply bucket_accepts; [done| |done]. left.
      destruct (Nat.ltb_spec (size (buckets (sweep checked_add s later (cleanup_interval l) (window l)))) (max_clients l)); [done|].
      rewrite (proj2 (Nat.ltb_ge _ _)) in Hexp by lia. specialize (Hexp b eq_refl). lia. }
  unfold check_rate_limit_state. fold s1. destruct (slot_for s1 k (max_clients l)).
  - specialize (Hown eq_refl). by destruct (check_rate_bucket _ _ _ _).
  - specialize (Hshared eq_refl). by destruct (check_rate_bucket _ _ _ _).
Qed.

Lemma starts_before_sweep s now t : starts_before s t ->
  starts_before (sweep checked_add s now (cleanup_interval l) (window l)) t.
Proof.
  intros [H1 H2]. split.
  - intros k b. rewrite sweep_lookup. destruct (buckets s !! k) as [b'|] eqn:E; [|done].
    destruct (_ && _); [done|]. intros [= <-]. by apply (H1 k).
  - rewrite sweep_overflow. destruct (overflow s) as [b|]; [|done]. by destruct (_ && _).
Qed.

(** A refusal names a wait within the window, after which the client is served. *)
Lemma retry_honest s k now s' d : (0 < window l)%Z -> rate_ok s -> starts_before s now -> check s k now = (s', Some d) ->
  (0 < d <= window l)%Z
  /\ ((1 <= max_requests l)%Z -> forall later, (now + d <= later)%Z -> (check s' k later).2 = None).
Proof.
  intros Hw Hok Hst E. pose proof (check_ok s k now Hok) as Hok'. rewrite E in Hok'. cbn in Hok'.
  apply (starts_before_sweep s now now) in Hst as [Hs1 Hs2]. unfold check_rate_limit_state in E.
  set (s1 := sweep _ _ _ _ _) in *. clearbody s1. destruct (slot_for s1 k (max_clients l)) eqn:Eslot.
  - destruct (check_rate_bucket _ _ _ _) as [b v] eqn:Eb. injection E as <- ->.
    apply bucket_rejects in Eb as [Hd Hstart]; [|done|].
    2:{ destruct (buckets s1 !! k) as [b0|] eqn:E0; cbn; [by apply (Hs1 k)|lia]. }
    split; [done|]. intros Hm later Hl. apply check_accepts; try done. unfold slot_for. cbn.
    rewrite lookup_insert_eq. intros b' [= <-]. lia.
  - destruct (check_rate_bucket _ _ _ _) as [b v] eqn:Eb. injection E as <- ->.
    apply bucket_rejects in Eb as [Hd Hstart]; [|done|].
    2:{ destruct (overflow s1) as [b0|]; cbn; [done|lia]. }
    split; [done|]. intros Hm later Hl. apply check_accepts; try done.
    intros b'. change (slot_for _ k (max_clients l)) with (slot_for s1 k (max_clients l)). rewrite Eslot.
    intros [= <-]. lia.
Qed.

Lemma rate_run_ok reqs : forall s, rate_ok s -> rate_ok (rate_run s reqs).1.
Proof.
  induction reqs as [|[k now] reqs IH]; intros s Hs; cbn; [done|].
  pose proof (check_ok s k now Hs) as Hok. destruct (check s k now) as [s' v]. specialize (IH s' Hok).
  by destruct (rate_run s' reqs).
Qed.

End rate_theorems.

(** ** CORS grants *)

Section cors_theorems.
Context `{HeaderMap HM, HttpTypes}.
Context (problem_json : str -> str -> Z -> str -> str -> str).

Lemma apply_grant_headers (c : Cors) (r : Response HM) allowed : header_value allowed = true ->
  get_all (res_headers (apply_grant c r allowed)) ALLOW_ORIGIN = [allowed]
  /\ get_all (res_headers (apply_grant c r allowed)) ALLOW_CREDENTIALS
     = if credentials c then [§"true"] else get_all (res_headers r) ALLOW_CREDENTIALS.
Proof.
  intros Hv. unfold apply_grant. rewrite (with_header_plain r ALLOW_ORIGIN) by done. destruct (credentials c).
  - rewrite with_header_plain by (done || by apply header_value_visible). cbn. split; [|apply get_all_insert_eq].
    header_ne. apply get_all_insert_eq.
  - cbn. split; [apply get_all_insert_eq|]. by header_ne.
Qed.

(** The origins a policy lets in. *)
Definition origin_allowed (c : Cors) (origin : str) : Prop :=
  (any_origin c = true /\ (credentials c = true -> origin <> §"null")) \/ (any_origin c = false /\ origin ∈ origins c).

Lemma grant_for_spec c origin :
  match grant_for c origin with
  | Some allowed => origin_allowed c origin
      /\ allowed = (if any_origin c && negb (credentials c) then §"*" else origin)
  | None => ~ origin_allowed c origin
  end.
Proof.
  unfold grant_for, origin_allowed. destruct (any_origin c), (credentials c); cbn [andb negb].
  - case_bool_decide; naive_solver.
  - naive_solver.
  - destruct (existsb _ _) eqn:E.
    + apply existsb_true_Exists, Exists_exists in E as (o & Ho & Hb). bsplit. subst. naive_solver.
    + apply existsb_false_Forall in E. rewrite Forall_forall in E. intros [?|[_ Hin]]; [naive_solver|].
      apply E in Hin. by bsplit.
  - destruct (existsb _ _) eqn:E.
    + apply existsb_true_Exists, Exists_exists in E as (o & Ho & Hb). bsplit. subst. naive_solver.
    + apply existsb_false_Forall in E. rewrite Forall_forall in E. intros [?|[_ Hin]]; [naive_solver|].
      apply E in Hin. by bsplit.
Qed.

(** Whatever its value, a field with a fixed name changes only that field. *)
Lemma with_header_other (r : Response HM) n v n' : plain_name n = true -> n' <> n ->
  get_all (res_headers (with_header r n v)) n' = get_all (res_headers r) n'
  /\ status (with_header r n v) = status r.
Proof.
  intros Hn Hne. unfold with_header, try_set_header. rewrite header_name_plain by done.
  destruct (header_value v).
  - cbn. by rewrite get_all_insert_ne.
  - unfold record_build_error. by destruct (build_error r).
Qed.
Lemma append_header_other (r : Response HM) n v n' : plain_name n = true -> n' <> n ->
  get_all (res_headers (response_append_header r n v)) n' = get_all (res_headers r) n'.
Proof.
  intros Hn Hne. unfold response_append_header, try_add_header. rewrite header_name_plain by done.
  destruct (header_value v).
  - cbn. by rewrite get_all_append, decide_False.
  - unfold record_build_error. by destruct (build_error r).
Qed.

Lemma apply_grant_status (c : Cors) (r : Response HM) allowed : status (apply_grant c r allowed) = status r.
Proof.
  unfold apply_grant. destruct (credentials c).
  - destruct (with_header_other (with_header r ALLOW_ORIGIN allowed) ALLOW_CREDENTIALS §"true" §"x") as [_ ->]; [done|by vm_compute|].
    by apply (with_header_other r ALLOW_ORIGIN allowed §"x").
  - by apply (with_header_other r ALLOW_ORIGIN allowed §"x").
Qed.

Lemma preflight_headers (c : Cors) req grant :
  match grant with Some allowed => header_value allowed = true | None => True end ->
  let out := preflight (HM := HM) c req grant in
  status out = 204%Z /\ get_all (res_headers out) ALLOW_ORIGIN = option_list grant
  /\ (is_Some grant -> credentials c = true -> get_all (res_headers out) ALLOW_CREDENTIALS = [§"true"]).
Proof.
  intros Hg out. subst out. unfold preflight. cbn zeta.
  set (r0 := with_header _ §"vary" _).
  assert (HS0 : status r0 = 204%Z /\ get_all (res_headers r0) ALLOW_ORIGIN = []).
  { unfold r0, with_status. rewrite (proj2 (status_code_range 204)) by done.
    destruct (with_header_other (set_status (response_send (HM := HM) []) 204) §"vary"
      §"Origin, Access-Control-Request-Method, Access-Control-Request-Headers" ALLOW_ORIGIN) as [-> ->]; [done|by vm_compute|].
    split; [done|]. apply get_all_empty. }
  clearbody r0. destruct grant as [allowed|]; [|destruct HS0 as [-> ->]; split_and!; [done|done|by intros []]].
  set (r1 := with_header r0 §"access-control-allow-methods" (methods c)).
  assert (HS1 : status r1 = 204%Z) by (rewrite <- (proj1 HS0); by apply (with_header_other r0 _ _ §"x")).
  clearbody r1. set (r2 := match _ with Some h => with_header r1 _ h | None => r1 end).
  assert (HS2 : status r2 = 204%Z).
  { unfold r2. case_match; [|done]. rewrite <- HS1. by apply (with_header_other r1 _ _ §"x"). }
  clearbody r2. set (r3 := match max_age_secs c with Some _ => _ | None => _ end).
  assert (HS3 : status r3 = 204%Z).
  { unfold r3. case_match; [|done]. rewrite <- HS2. by apply (with_header_other r2 _ _ §"x"). }
  clearbody r3. destruct (apply_grant_headers c r3 allowed Hg) as [-> Hc]. rewrite apply_grant_status, Hc.
  split_and!; [done|done|]. by intros _ ->.
Qed.

(** CORS grants exactly what the policy allows. Without an Origin the
    request passes untouched. With one, the response names the origin (or [*] for an
    uncredentialed open policy, never together with credentials) exactly
    when the policy admits it, and credentials are announced only then; the
    opaque origin is never granted credentials. A preflight is answered 204
    without calling the handler. *)
Theorem cors_grants_exactly (c : Cors) req (next : Request -> Response HM) rm :
  request_singleton_header req §"access-control-request-method" = Ok rm ->
  match request_singleton_header req §"origin" with
  | Err _ => exists e, cors_middleware problem_json c req next = from_error problem_json e /\ err_status e = 400%Z
  | Ok None => cors_middleware problem_json c req next = next req
  | Ok (Some origin) =>
      header_value origin = true ->
      let out := cors_middleware problem_json c req next in
      let is_preflight := method req = §"OPTIONS" /\ is_Some rm in
      (origin_allowed c origin ->
         get_all (res_headers out) ALLOW_ORIGIN = [if any_origin c && negb (credentials c) then §"*" else origin]
         /\ (credentials c = true -> get_all (res_headers out) ALLOW_CREDENTIALS = [§"true"]))
      /\ (~ origin_allowed c origin -> is_preflight -> get_all (res_headers out) ALLOW_ORIGIN = [])
      /\ (~ origin_allowed c origin -> ~ is_preflight ->
          get_all (res_headers out) ALLOW_ORIGIN = get_all (res_headers (next req)) ALLOW_ORIGIN)
      /\ (is_preflight -> status out = 204%Z /\ forall next', cors_middleware problem_json c req next' = out)
  end.
Proof.
  intros Hrm. destruct (request_singleton_header req §"origin") as [[origin|]|e] eqn:Eo.
  2:{ unfold cors_middleware. by rewrite Eo. }
  2:{ unfold cors_middleware. rewrite Eo. eexists. split; [done|]. by destruct e. }
  intros Hv out is_preflight. pose proof (grant_for_spec c origin) as Hg.
  assert (Hgv : match grant_for c origin with Some allowed => header_value allowed = true | None => True end).
  { destruct (grant_for c origin) as [g|]; [|done]. destruct Hg as [_ ->]. case_match; [by apply header_value_visible|done]. }
  destruct (decide (is_preflight)) as [Hp|Hp].
  - assert (Hout : forall next', cors_middleware problem_json c req next' = preflight c req (grant_for c origin)).
    { intros next'. unfold cors_middleware. rewrite Eo, Hrm. destruct Hp as [Hm Hs].
      by rewrite !bool_decide_eq_true_2. }
    unfold out. setoid_rewrite Hout. destruct (preflight_headers c req _ Hgv) as (Hst & Ho & Hc). cbn zeta in *.
    rewrite Ho. destruct (grant_for c origin) as [g|].
    + destruct Hg as [Ha ->]. split_and!; [intros _; split; [done|intros; by apply Hc]|done|done|done].
    + split_and!; [done|done|done|done].
  - assert (Hout : out = match grant_for c origin with
        | Some allowed => apply_grant c (if varies_by_origin c then response_append_header (next req) §"vary" §"Origin" else next req) allowed
        | None => if varies_by_origin c then response_append_header (next req) §"vary" §"Origin" else next req end).
    { unfold out, cors_middleware. rewrite Eo, Hrm.
      assert (Hb : bool_decide (method req = §"OPTIONS") && bool_decide (is_Some rm) = false).
      { repeat case_bool_decide; try done. exfalso. by apply Hp. }
      by rewrite Hb. }
    rewrite Hout. destruct (grant_for c origin) as [g|].
    + destruct Hg as [Ha ->]. split_and!; [|done|done|done]. intros _.
      match goal with |- context [apply_grant c ?r _] => destruct (apply_grant_headers c r _ Hgv) as [-> ->] end.
      split; [done|]. by intros ->.
    + split_and!; [done|done| |done]. intros _ _. case_match; [|done]. by apply append_header_other.
Qed.
End cors_theorems.

(** ** Request identifiers reach both sides *)

Lemma in_range_mono lo hi lo' hi' b : (lo' <= lo)%Z -> (hi <= hi')%Z -> in_range lo hi b = true -> in_range lo' hi' b = true.
Proof. unfold in_range. intros ? ? ?. bsplit. bgoal; lia. Qed.

Lemma chosen_id_visible req nanos n : (0 <= nanos)%Z -> (0 <= n)%Z ->
  forallb visible_ascii (chosen_request_id req nanos n) = true.
Proof.
  intros Hn Hc. assert (Hg : forallb visible_ascii (generate_request_id nanos n) = true).
  { unfold generate_request_id. rewrite !forallb_app.
    rewrite !(fun k Hk => forallb_digits_visible (to_dec k) (proj2 (forallb_true_Forall _ _) (proj1 (proj2 (to_dec_spec k Hk))))) by done.
    done. }
  assert (Hv : forall v, valid_request_id v = true -> forallb visible_ascii v = true).
  { unfold valid_request_id. intros v Hv. bsplit. rewrite forallb_true_Forall in *. eapply Forall_impl; [eassumption|].
    intros b. apply in_range_mono; lia. }
  unfold chosen_request_id. repeat case_match; auto.
Qed.

(** The handler sees exactly the identifier the client is told: the one the
    client sent when it is a single visible token of at most 128 bytes, a
    generated one otherwise; the [expect] never fails. *)
Lemma request_id_shared `{HeaderMap HM, HttpTypes} nanos n req (next : Request -> Response HM) :
  (0 <= nanos)%Z -> (0 <= n)%Z ->
  exists req', request_id_middleware nanos n req next
    = Some (with_header (next req') §"x-request-id" (chosen_request_id req nanos n))
    /\ headers_all req' §"x-request-id" = [chosen_request_id req nanos n].
Proof.
  intros Hn Hc. unfold request_id_middleware, set_header.
  rewrite header_name_plain, header_value_visible by (done || by apply chosen_id_visible). cbn [negb].
  rewrite bool_decide_eq_false_2 by (by vm_compute). eexists. split; [done|].
  unfold headers_all. cbn [header_pairs set_views]. rewrite List.filter_app, map_app.
  assert (E : List.filter (fun pair : str * str => eq_ignore_ascii_case pair.1 §"x-request-id")
                (List.filter (is_not_named §"x-request-id") (header_pairs req)) = []).
  { induction (header_pairs req) as [|p ps IH]; [done|]. cbn [List.filter]. unfold is_not_named at 1.
    destruct (eq_ignore_ascii_case p.1 §"x-request-id") eqn:Ep; cbn [negb]; [done|].
    cbn [List.filter]. by rewrite Ep. }
  by rewrite E.
Qed.

(** ** Instances *)

Module Limits.
#[local] Existing Instance assoc_header_map.
#[local] Existing Instance reference_http_types.

Definition add (t d : Z) : option Z := Some (t + d)%Z.
Definition limit : RateLimit := mkRateLimit 2 10 1.
Definition calls : list (option Z * Z) := [(Some 1%Z, 0%Z); (Some 1%Z, 1%Z); (Some 1%Z, 2%Z); (Some 2%Z, 3%Z)].

Lemma limit_ok : rate_ok limit (RateState_new add limit 0 : RateState Z).
Proof. split; [vm_compute; lia|apply map_Forall_empty|done]. Qed.

Example third_call_refused :
  (rate_run add limit (RateState_new add limit 0 : RateState Z) calls).2
  = [(Some 1%Z, Own); (Some 1%Z, Own); (Some 2%Z, Shared)].
Proof. by vm_compute. Qed.

Definition problem (_ _ : str) (_ : Z) (detail _ : str) : str := detail.
Definition policy : Cors := mkCors false [§"https://a.example"] §"GET" None true None.
Definition cross : Request := build (build_header RequestBuilder_new §"Origin" §"https://a.example").
Lemma cors_grants_exactly_witness :
  let out := cors_middleware (HM := AssocHeaders) problem policy cross (fun _ => response_send §"hola") in
  get_all (res_headers out) ALLOW_ORIGIN = [§"https://a.example"]
  /\ get_all (res_headers out) ALLOW_CREDENTIALS = [§"true"].
Proof.
  pose proof (cors_grants_exactly (HM := AssocHeaders) problem policy cross (fun _ => response_send §"hola") None eq_refl) as Hc.
  change (request_singleton_header cross §"origin") with (@Ok (option str) Request.HttpError (Some §"https://a.example")) in Hc.
  destruct (Hc eq_refl) as (Ha & _). destruct Ha as [Ho Hcr]; [by right; split; [|left]|]. split; [exact Ho|by apply Hcr].
Defined.
End Limits.
