(* ===== verification/Preflight.v ===== *)
(** * Protocol detection on a new connection ([src/app/server.rs])

    [inspect_http2_client_preface], the read loop of [inspect_connection],
    [preflight_connection] with its deadline, and [PrefixedIo], which replays
    the bytes the detection consumed. A transport is the sequence of segments
    its peer delivers, each with its arrival time, and how the sequence ends.
    The theorems: the detection always ends, its verdict is a function of the
    byte stream and not of how it was cut into reads, and no byte is lost. *)
From S2P Require Import Prelude Strs.

(** ** Data *)

Definition CRLF : str := [Byte.x0d; Byte.x0a].
Definition HTTP2_PREFACE : str := §"PRI * HTTP/2.0" ++ CRLF ++ CRLF ++ §"SM" ++ CRLF ++ CRLF.
Definition HTTP2_FRAME_HEADER_BYTES : nat := 9.
Definition HTTP2_SETTINGS_FRAME : Z := 4.
Definition HTTP2_SETTINGS_ACK : Z := 1.
Definition HTTP2_MAX_INITIAL_SETTINGS_BYTES : Z := 16 * 1024.
Definition MAX_PREFACE_BYTES : nat :=
  length HTTP2_PREFACE + HTTP2_FRAME_HEADER_BYTES + Z.to_nat HTTP2_MAX_INITIAL_SETTINGS_BYTES.
(** The size of [chunk]. *)
Definition CHUNK_BYTES : nat := Z.to_nat 4096.
Arguments HTTP2_PREFACE : simpl never.
Arguments MAX_PREFACE_BYTES : simpl never.
Arguments CHUNK_BYTES : simpl never.

Inductive ExpectedProtocol := ExpectAuto | ExpectHttp1 | ExpectHttp2.
Inductive DetectedProtocol := Http1 | Http2.
Inductive Http2PrefaceState := Pending | Complete | NotHttp2.
Inductive IoError :=
| InvalidSettings
| SettingsTooLarge
| ProtocolMismatch (received negotiated : str)
| IncompletePreface
| PreflightTimedOut
| ReadFailed.

#[export] Instance ExpectedProtocol_eq_dec : EqDecision ExpectedProtocol.
Proof. solve_decision. Defined.
#[export] Instance DetectedProtocol_eq_dec : EqDecision DetectedProtocol.
Proof. solve_decision. Defined.
#[export] Instance Http2PrefaceState_eq_dec : EqDecision Http2PrefaceState.
Proof. solve_decision. Defined.

(** ** The preface *)

(** [usize::from(b0) << 16 | usize::from(b1) << 8 | usize::from(b2)]. *)
Definition be24 (b0 b1 b2 : byte) : Z :=
  Z.lor (Z.lor (Z.shiftl (bval b0) 16) (Z.shiftl (bval b1) 8)) (bval b2).
(** [u32::from_be_bytes]. *)
Definition be32 (b0 b1 b2 b3 : byte) : Z :=
  (bval b0 * 16777216 + bval b1 * 65536 + bval b2 * 256 + bval b3)%Z.

Definition inspect_http2_client_preface (bytes : str) : result Http2PrefaceState IoError :=
  if (length bytes <? length HTTP2_PREFACE)%nat then
    Ok (if starts_with bytes HTTP2_PREFACE then Pending else NotHttp2)
  else if negb (starts_with HTTP2_PREFACE bytes) then Ok NotHttp2
  else
    match drop (length HTTP2_PREFACE) bytes with
    | l0 :: l1 :: l2 :: frame_type :: flags :: s0 :: s1 :: s2 :: s3 :: payload =>
        let payload_length := be24 l0 l1 l2 in
        let stream_id := Z.land (be32 s0 s1 s2 s3) 2147483647 in
        if negb (bval frame_type =? HTTP2_SETTINGS_FRAME)%Z
           || negb (Z.land (bval flags) HTTP2_SETTINGS_ACK =? 0)%Z
           || negb (stream_id =? 0)%Z
           || negb (payload_length mod 6 =? 0)%Z
           || (HTTP2_MAX_INITIAL_SETTINGS_BYTES <? payload_length)%Z
        then Err InvalidSettings
        else
          let total := (Z.of_nat (length HTTP2_PREFACE + HTTP2_FRAME_HEADER_BYTES) + payload_length)%Z in
          Ok (if (total <=? Z.of_nat (length bytes))%Z then Complete else Pending)
    | _ => Ok Pending
    end.

Definition protocol_mismatch (received negotiated : str) : IoError := ProtocolMismatch received negotiated.

(** ** Transports *)

(** What the peer sends: bytes that become readable at a time, then the end of
    the stream, a failed read, or silence for ever. *)
Inductive Transport :=
| Closed (at_ : Z)
| Failed (at_ : Z)
| Silent
| Segment (at_ : Z) (first : byte) (bytes : str) (rest : Transport).

(** [io.read] into a buffer of [n > 0] bytes: when it completes and what it
    returns; [None] when it never completes. An empty read is the end of the
    stream. *)
Definition io_read (n : nat) (io : Transport) (now : Z) : option (Z * result (str * Transport) IoError) :=
  match io with
  | Closed t => Some (Z.max now t, Ok ([], io))
  | Failed t => Some (Z.max now t, Err ReadFailed)
  | Silent => None
  | Segment t first bytes rest =>
      let got := take n (first :: bytes) in
      Some (Z.max now t, Ok (got, match drop n (first :: bytes) with
                                  | [] => rest
                                  | b :: more => Segment t b more rest
                                  end))
  end.

Record PrefixedIo := mkPrefixedIo {
  inner : Transport;
  prefix : str;
  position : nat;
  protocol : DetectedProtocol
}.
Definition PrefixedIo_new (inner : Transport) (prefix : str) (protocol : DetectedProtocol) : PrefixedIo :=
  mkPrefixedIo inner prefix 0 protocol.

(** [poll_read] of [PrefixedIo] with room for [n] bytes. *)
Definition prefixed_read (n : nat) (io : PrefixedIo) (now : Z)
  : option (Z * result (str * PrefixedIo) IoError) :=
  if (position io <? length (prefix io))%nat then
    let remaining := drop (position io) (prefix io) in
    let length := Nat.min (length remaining) n in
    Some (now, Ok (take length remaining,
                   mkPrefixedIo (inner io) (prefix io) (position io + length) (protocol io)))
  else
    match io_read n (inner io) now with
    | Some (t, Ok (got, rest)) => Some (t, Ok (got, mkPrefixedIo rest (prefix io) (position io) (protocol io)))
    | Some (t, Err e) => Some (t, Err e)
    | None => None
    end.

(** ** Detection *)

Inductive Detection :=
| Detected (t : Z) (io : result PrefixedIo IoError)
| NeverDetected
| OutOfFuel.

(** The loop of [inspect_connection]. *)
Fixpoint inspect_loop (fuel : nat) (expected : ExpectedProtocol) (io : Transport) (prefix : str) (now : Z)
  : Detection :=
  match fuel with
  | O => OutOfFuel
  | S fuel =>
      let read_more :=
        let chunk_length := Nat.min (MAX_PREFACE_BYTES - length prefix) CHUNK_BYTES in
        match io_read chunk_length io now with
        | None => NeverDetected
        | Some (t, Err e) => Detected t (Err e)
        | Some (t, Ok (got, io)) =>
            if (length got =? 0)%nat then
              if bool_decide (expected = ExpectHttp2)
                 || (negb (bool_decide (prefix = [])) && starts_with prefix HTTP2_PREFACE)
              then Detected t (Err IncompletePreface)
              else Detected t (Ok (PrefixedIo_new io prefix Http1))
            else inspect_loop fuel expected io (prefix ++ got) t
        end in
      match inspect_http2_client_preface prefix with
      | Err e => Detected now (Err e)
      | Ok Complete =>
          if bool_decide (expected = ExpectHttp1)
          then Detected now (Err (protocol_mismatch §"HTTP/2" §"HTTP/1.1"))
          else Detected now (Ok (PrefixedIo_new io prefix Http2))
      | Ok Pending =>
          if (MAX_PREFACE_BYTES <=? length prefix)%nat then Detected now (Err SettingsTooLarge) else read_more
      | Ok NotHttp2 =>
          if bool_decide (expected = ExpectHttp2)
          then Detected now (Err (protocol_mismatch §"HTTP/1.1" §"HTTP/2"))
          else Detected now (Ok (PrefixedIo_new io prefix Http1))
      end
  end.

(** Every round reads at least a byte, and none starts with the maximum read. *)
Definition inspect_connection (io : Transport) (expected : ExpectedProtocol) (now : Z) : Detection :=
  inspect_loop (S MAX_PREFACE_BYTES) expected io [] now.

(** [tokio::time::timeout] around the inspection. *)
Definition preflight_connection (io : Transport) (timeout : option Z) (expected : ExpectedProtocol) (now : Z)
  : Detection :=
  match timeout with
  | None => inspect_connection io expected now
  | Some d =>
      match inspect_connection io expected now with
      | Detected t r => if (t <=? now + d)%Z then Detected t r else Detected (now + d) (Err PreflightTimedOut)
      | NeverDetected => Detected (now + d) (Err PreflightTimedOut)
      | OutOfFuel => OutOfFuel
      end
  end.

(** ** The verdict of a byte stream *)

(** Everything the peer sends, and how it ends. *)
Fixpoint sent (io : Transport) : str :=
  match io with Segment _ first bytes rest => first :: bytes ++ sent rest | _ => [] end.
Inductive Ending := Eof | Broken | Endless.
Fixpoint ending (io : Transport) : Ending :=
  match io with Closed _ => Eof | Failed _ => Broken | Silent => Endless | Segment _ _ _ rest => ending rest end.

(** The reference: the verdict on the whole stream at once; [None] when the
    peer stays silent before it is reached. *)
Definition stream_verdict (expected : ExpectedProtocol) (bytes : str) (e : Ending)
  : option (result DetectedProtocol IoError) :=
  match inspect_http2_client_preface bytes with
  | Err e => Some (Err e)
  | Ok Complete =>
      Some (if bool_decide (expected = ExpectHttp1)
            then Err (ProtocolMismatch §"HTTP/2" §"HTTP/1.1") else Ok Http2)
  | Ok NotHttp2 =>
      Some (if bool_decide (expected = ExpectHttp2)
            then Err (ProtocolMismatch §"HTTP/1.1" §"HTTP/2") else Ok Http1)
  | Ok Pending =>
      match e with
      | Endless => None
      | Broken => Some (Err ReadFailed)
      | Eof =>
          Some (if bool_decide (expected = ExpectHttp2)
                   || (negb (bool_decide (bytes = [])) && starts_with bytes HTTP2_PREFACE)
                then Err IncompletePreface else Ok Http1)
      end
  end.

Lemma starts_with_false_app p q s : starts_with p s = false -> length p <= length s -> starts_with p (s ++ q) = false.
Proof.
  intros Hf Hl. apply not_true_is_false. intros [t Ht]%starts_with_iff. apply not_true_iff_false in Hf. apply Hf.
  apply starts_with_iff. exists (drop (length p) s).
  rewrite <- (take_drop (length p) s) at 1. f_equal.
  apply (f_equal (take (length p))) in Ht. by rewrite take_app_le, take_app_length in Ht by done.
Qed.

Lemma starts_with_app_false p q s : starts_with p s = false -> starts_with (p ++ q) s = false.
Proof.
  intros Hf. apply not_true_is_false. intros [t Ht]%starts_with_iff. apply not_true_iff_false in Hf. apply Hf.
  apply starts_with_iff. exists (q ++ t). by rewrite Ht, <- app_assoc.
Qed.

Lemma be24_bounds b0 b1 b2 : (0 <= be24 b0 b1 b2)%Z.
Proof.
  unfold be24. rewrite !Z.lor_nonneg. pose proof (bval_range b0). pose proof (bval_range b1).
  pose proof (bval_range b2). rewrite !Z.shiftl_nonneg. lia.
Qed.

(** A decided prefix decides every extension in the same way. *)
Lemma inspect_decided p q s : inspect_http2_client_preface p = s -> s <> Ok Pending ->
  inspect_http2_client_preface (p ++ q) = s.
Proof.
  intros <- Hs. unfold inspect_http2_client_preface in *. rewrite length_app.
  destruct (Nat.ltb_spec (length p) (length HTTP2_PREFACE)) as [Hlt|Hge].
  - destruct (starts_with p HTTP2_PREFACE) eqn:Hp; [done|]. case_match.
    + by rewrite starts_with_app_false.
    + enough (starts_with HTTP2_PREFACE (p ++ q) = false) as -> by done.
      apply not_true_is_false. intros [t Ht]%starts_with_iff. apply not_true_iff_false in Hp. apply Hp.
      apply starts_with_iff. exists (drop (length p) HTTP2_PREFACE).
      apply (f_equal (take (length p))) in Ht. rewrite take_app_length, take_app_le in Ht by lia.
      rewrite Ht at 1. by rewrite take_drop.
  - destruct (Nat.ltb_spec (length p + length q) (length HTTP2_PREFACE)); [lia|].
    destruct (starts_with HTTP2_PREFACE p) eqn:Hp; cbn [negb] in *.
    + apply starts_with_iff in Hp as [t ->]. rewrite <- app_assoc.
      assert (starts_with HTTP2_PREFACE (HTTP2_PREFACE ++ t ++ q) = true) as -> by (apply starts_with_iff; eauto).
      cbn [negb]. rewrite !drop_app_length in *.
      do 9 (destruct t as [|? t]; [done|]). cbn [app] in *.
      case_match; [done|]. f_equal. rewrite !length_app in *. cbn [length] in *.
      destruct (Z.leb_spec (Z.of_nat (length HTTP2_PREFACE + HTTP2_FRAME_HEADER_BYTES) + be24 b b0 b1)
                  (Z.of_nat (length HTTP2_PREFACE + S (S (S (S (S (S (S (S (S (length t))))))))))))%Z; [|done].
      destruct (Z.leb_spec (Z.of_nat (length HTTP2_PREFACE + HTTP2_FRAME_HEADER_BYTES) + be24 b b0 b1)
                  (Z.of_nat (length HTTP2_PREFACE + S (S (S (S (S (S (S (S (S (length t)))))))))
                             + length q)))%Z; [done|lia].
    + by rewrite starts_with_false_app by done.
Qed.

(** An undecided prefix is shorter than the largest preface: the "too large"
    branch of the loop is never taken. *)
Lemma inspect_pending_short p : inspect_http2_client_preface p = Ok Pending -> length p < MAX_PREFACE_BYTES.
Proof.
  unfold inspect_http2_client_preface, MAX_PREFACE_BYTES.
  destruct (Nat.ltb_spec (length p) (length HTTP2_PREFACE)) as [Hlt|Hge]; [unfold HTTP2_FRAME_HEADER_BYTES; lia|].
  destruct (starts_with HTTP2_PREFACE p) eqn:Hp; [|done]. cbn [negb].
  apply starts_with_iff in Hp as [t ->]. rewrite drop_app_length, length_app.
  unfold HTTP2_FRAME_HEADER_BYTES.
  do 9 (destruct t as [|? t]; [cbn [length]; intros _; lia|]). cbn [length].
  destruct (_ || (HTTP2_MAX_INITIAL_SETTINGS_BYTES <? be24 b b0 b1)%Z) eqn:Hbad; [done|].
  bsplit. destruct (Z.leb_spec (Z.of_nat (length HTTP2_PREFACE + 9) + be24 b b0 b1)
            (Z.of_nat (length HTTP2_PREFACE + S (S (S (S (S (S (S (S (S (length t))))))))))))%Z; [done|].
  intros _. lia.
Qed.

Lemma io_read_got n io now t got io' : n <> 0 -> io_read n io now = Some (t, Ok (got, io')) ->
  sent io = got ++ sent io' /\ ending io = ending io' /\ length got <= n
  /\ (got = [] -> sent io = [] /\ ending io = Eof).
Proof.
  destruct io as [t'|t'| |t' first bytes rest]; cbn [io_read]; intros Hn Hr; simplify_eq.
  - cbn. split_and!; [done|done|lia|done].
  - pose proof (take_drop n (first :: bytes)) as Htd.
    split_and!.
    + cbn [sent]. rewrite app_comm_cons. rewrite <- Htd at 1. rewrite <- app_assoc. f_equal.
      destruct (drop n (first :: bytes)); done.
    + by destruct (drop n (first :: bytes)).
    + rewrite length_take. lia.
    + by destruct n.
Qed.

(** The deadline-free loop ends with the verdict of the whole stream, and on
    success the transport it hands over still holds every byte. *)
Definition agrees (expected : ExpectedProtocol) (bytes : str) (e : Ending) (now : Z) (d : Detection) : Prop :=
  match d with
  | Detected t r =>
      (now <= t)%Z
      /\ stream_verdict expected bytes e = Some (match r with Ok io => Ok (protocol io) | Err err => Err err end)
      /\ match r with Ok io => position io = 0 /\ prefix io ++ sent (inner io) = bytes | Err _ => True end
  | NeverDetected => stream_verdict expected bytes e = None
  | OutOfFuel => False
  end.

Lemma agrees_later expected bytes e now t d : (now <= t)%Z -> agrees expected bytes e t d -> agrees expected bytes e now d.
Proof. intros Ht. destruct d; cbn; [|done|done]. intros (? & ? & ?). split_and!; [lia|done|done]. Qed.

Lemma CHUNK_pos : CHUNK_BYTES <> 0.
Proof. by vm_compute. Qed.

(** A verdict the read prefix already has is the verdict of the stream. *)
Lemma decided_verdict expected p q e s : inspect_http2_client_preface p = s -> s <> Ok Pending ->
  stream_verdict expected (p ++ q) e = stream_verdict expected p Endless.
Proof. intros Hs Hd. unfold stream_verdict. rewrite (inspect_decided p q s), Hs by done. by destruct s as [[]|]. Qed.

Lemma inspect_loop_agrees fuel : forall expected io p now,
  length p <= MAX_PREFACE_BYTES < length p + fuel ->
  agrees expected (p ++ sent io) (ending io) now (inspect_loop fuel expected io p now).
Proof.
  induction fuel as [|fuel IH]; intros expected io p now Hfuel; cbn [inspect_loop]; [lia|].
  pose proof (decided_verdict expected p (sent io) (ending io)) as Hdec.
  pose proof (inspect_pending_short p) as Hshort.
  destruct (inspect_http2_client_preface p) as [[]|err] eqn:Hp.
  2-4: specialize (Hdec _ eq_refl ltac:(done)); unfold stream_verdict in Hdec at 2; rewrite Hp in Hdec.
  - specialize (Hshort eq_refl). destruct (Nat.leb_spec MAX_PREFACE_BYTES (length p)); [lia|].
    set (n := Nat.min _ _). assert (n <> 0 /\ n <= MAX_PREFACE_BYTES - length p) as [Hn Hle].
    { pose proof CHUNK_pos. subst n. lia. }
    destruct (io_read n io now) as [[t [[got io']|e]]|] eqn:Hr.
    + destruct (io_read_got _ _ _ _ _ _ Hn Hr) as (Hsent & Hend & Hgot & Hnil).
      assert (now <= t)%Z by (destruct io; simplify_eq/=; lia).
      destruct (Nat.eqb_spec (length got) 0) as [Hz|Hz].
      * apply nil_length_inv in Hz as ->. destruct (Hnil eq_refl) as [Hs He].
        rewrite Hs, He, app_nil_r. unfold agrees, stream_verdict. rewrite Hp.
        destruct (bool_decide (expected = ExpectHttp2) || _); (split; [done|]); (split; [done|]); [done|].
        cbn. rewrite Hs in Hsent. cbn in Hsent. by rewrite <- Hsent, app_nil_r.
      * rewrite Hsent, Hend, app_assoc. apply agrees_later with t; [done|]. apply IH. rewrite length_app. lia.
    + destruct io; simplify_eq/=. rewrite app_nil_r. unfold stream_verdict. rewrite Hp. split_and!; [lia|done|done].
    + destruct io; simplify_eq/=. rewrite app_nil_r. unfold stream_verdict. by rewrite Hp.
  - revert Hdec. unfold protocol_mismatch. by case_bool_decide; cbn; intros ->.
  - revert Hdec. unfold protocol_mismatch. by case_bool_decide; cbn; intros ->.
  - cbn. by rewrite Hdec.
Qed.

Lemma inspect_connection_agrees expected io now :
  agrees expected (sent io) (ending io) now (inspect_connection io expected now).
Proof. apply (inspect_loop_agrees _ _ _ []). cbn [length]. lia. Qed.

(** ** Replay *)

(** The bytes a reader of the prefixed transport has still to see. *)
Definition unread (io : PrefixedIo) : str := drop (position io) (prefix io) ++ sent (inner io).

(** Consecutive reads with the given buffer sizes, until one fails or ends. *)
Fixpoint reads (io : PrefixedIo) (now : Z) (sizes : list nat) : str * PrefixedIo :=
  match sizes with
  | [] => ([], io)
  | n :: sizes =>
      match prefixed_read n io now with
      | Some (t, Ok (got, io)) => let '(more, io) := reads io t sizes in (got ++ more, io)
      | _ => ([], io)
      end
  end.

Lemma prefixed_read_got n io now t got io' : n <> 0 -> prefixed_read n io now = Some (t, Ok (got, io')) ->
  unread io = got ++ unread io' /\ (got = [] -> unread io = [] /\ ending (inner io) = Eof).
Proof.
  unfold prefixed_read, unread. intros Hn. destruct (Nat.ltb_spec (position io) (length (prefix io))) as [Hl|Hl].
  - intros [= _ <- <-]. cbn. rewrite <- drop_drop, app_assoc.
    set (rest := drop (position io) (prefix io)). assert (length rest <> 0).
    { subst rest. rewrite length_drop. lia. }
    split.
    + f_equal. destruct (Nat.min_spec (length rest) n) as [[? ->]|[? ->]].
      * by rewrite firstn_all, skipn_all, app_nil_r.
      * by rewrite take_drop.
    + intros Hnil%(f_equal length). rewrite length_take in Hnil. cbn in Hnil. lia.
  - rewrite drop_ge by lia. destruct (io_read n (inner io) now) as [[t' [[g rest]|e]]|] eqn:Hr; intros; simplify_eq.
    destruct (io_read_got _ _ _ _ _ _ Hn Hr) as (-> & ? & ? & Hnil). cbn. rewrite drop_ge by lia. cbn.
    split; [done|]. intros ->. by destruct (Hnil eq_refl).
Qed.

Lemma reads_replay sizes : Forall (fun n => n <> 0) sizes -> forall io now,
  let '(got, io') := reads io now sizes in unread io = got ++ unread io'.
Proof.
  induction 1 as [|n sizes Hn _ IH]; intros io now; cbn; [done|].
  destruct (prefixed_read n io now) as [[t [[got io']|e]]|] eqn:Hr; [|done|done].
  destruct (prefixed_read_got _ _ _ _ _ _ Hn Hr) as [-> _]. specialize (IH io' t).
  destruct (reads io' t sizes) as [more io'']. by rewrite IH, app_assoc.
Qed.

(** A transport that replays every byte of [bytes], whatever the read sizes. *)
Definition replays (io : PrefixedIo) (bytes : str) : Prop :=
  forall sizes now, Forall (fun n => n <> 0) sizes ->
    let '(got, rest) := reads io now sizes in got ++ unread rest = bytes.

Lemma inspect_no_timeout p : inspect_http2_client_preface p <> Err PreflightTimedOut.
Proof. unfold inspect_http2_client_preface. by repeat case_match. Qed.

Lemma stream_verdict_no_timeout expected bytes e : stream_verdict expected bytes e <> Some (Err PreflightTimedOut).
Proof.
  unfold stream_verdict. pose proof (inspect_no_timeout bytes).
  destruct (inspect_http2_client_preface bytes) as [[]|]; [destruct e| | |congruence]; repeat case_match; congruence.
Qed.

Lemma agrees_replays expected bytes e now t io :
  agrees expected bytes e now (Detected t (Ok io)) -> replays io bytes.
Proof.
  intros (_ & _ & Hpos & Hall) sizes later Hs. pose proof (reads_replay sizes Hs io later) as Hr.
  destruct (reads io later sizes) as [got rest]. rewrite <- Hr. unfold unread. by rewrite Hpos.
Qed.

(** C7. Protocol detection on a new connection always comes to an end when a
    deadline is set, and at the latest at that single deadline however slowly
    the bytes trickle in. When it is not cut off, its verdict (HTTP/1, HTTP/2
    or the error) is the one the whole byte stream has, whatever the sizes and
    times of the segments it arrived in; and the transport handed to the
    server replays, through reads of any sizes, exactly the bytes the peer
    sent. *)
Theorem detection_chunking_invariant io timeout expected now :
  match preflight_connection io timeout expected now with
  | OutOfFuel => False
  | NeverDetected => timeout = None /\ stream_verdict expected (sent io) (ending io) = None
  | Detected t (Err PreflightTimedOut) => exists d, timeout = Some d /\ t = (now + d)%Z
  | Detected t (Err e) =>
      stream_verdict expected (sent io) (ending io) = Some (Err e)
      /\ forall d, timeout = Some d -> (t <= now + d)%Z
  | Detected t (Ok io') =>
      stream_verdict expected (sent io) (ending io) = Some (Ok (protocol io')) /\ replays io' (sent io)
      /\ forall d, timeout = Some d -> (t <= now + d)%Z
  end.
Proof.
  pose proof (inspect_connection_agrees expected io now) as H.
  pose proof (stream_verdict_no_timeout expected (sent io) (ending io)) as Hno.
  unfold preflight_connection. destruct timeout as [d|], (inspect_connection io expected now) as [t r| |];
    try done; [|eauto|].
  - destruct (Z.leb_spec t (now + d)); [|eauto]. destruct r as [io'|e].
    + split_and!; [apply H|by eapply agrees_replays|by intros ? [= <-]].
    + destruct H as (_ & Hv & _). destruct e; try congruence; (split; [done|by intros ? [= <-]]).
  - destruct r as [io'|e].
    + split_and!; [apply H|by eapply agrees_replays|done].
    + destruct H as (_ & Hv & _). by destruct e.
Qed.

(** The end of the stream inside the SETTINGS frame of a complete preface is
    not an incomplete preface: the connection is served as HTTP/1. *)
Lemma truncated_settings_is_http1 :
  stream_verdict ExpectAuto (HTTP2_PREFACE ++ [Byte.x00; Byte.x00; Byte.x06]) Eof = Some (Ok Http1)
  /\ stream_verdict ExpectAuto HTTP2_PREFACE Eof = Some (Err IncompletePreface).
Proof. split; vm_compute; reflexivity. Qed.
