(* ===== verification/Ipv6.v ===== *)
(** * IPv6 addresses as text ([std::net::Ipv6Addr])

    The standard library's parser and printer of IPv6 addresses, which the
    server uses to bring a bracketed authority into one form: [from_str] reads
    up to eight groups of hexadecimal digits, one [::] and an embedded IPv4
    tail; [Display] prints lower-case groups without leading zeros, the first
    longest run of two or more zero groups as [::], and IPv4-mapped addresses
    in dotted form. *)
From S2P Require Import Prelude Strs Host.

(** Eight 16-bit groups. *)
Abbreviation Ipv6Addr := (list Z).

(** ** Parsing *)

(** [char::to_digit(radix)] for the radices 10 and 16. *)
Definition to_digit (radix : Z) (c : byte) : option Z :=
  let d := if is_ascii_digit c then Some (bval c - 48)%Z
           else if in_range 97 102 c then Some (bval c - 87)%Z
           else if in_range 65 70 c then Some (bval c - 55)%Z else None in
  match d with Some v => if (v <? radix)%Z then Some v else None | None => None end.

(** The longest run of digits, and what follows it. *)
Fixpoint read_digits (radix : Z) (s : str) : list Z * str :=
  match s with
  | [] => ([], [])
  | c :: s' =>
      match to_digit radix c with
      | Some d => let '(ds, rest) := read_digits radix s' in (d :: ds, rest)
      | None => ([], s)
      end
  end.

Definition number (radix : Z) (ds : list Z) : Z := foldl (fun acc d => acc * radix + d)%Z 0%Z ds.

(** [Parser::read_number]: [None] leaves the input where it was. *)
Definition read_number (radix : Z) (max_digits : nat) (allow_zero_prefix : bool) (max : Z) (s : str)
  : option (Z * str) :=
  let '(ds, rest) := read_digits radix s in
  if (length ds =? 0)%nat || (max_digits <? length ds)%nat then None
  else if negb allow_zero_prefix && bool_decide (head ds = Some 0%Z) && (1 <? length ds)%nat then None
  else if (number radix ds <=? max)%Z then Some (number radix ds, rest) else None.

(** [Parser::read_separator]: the separator before every item but the first. *)
Definition read_separator {A} (sep : byte) (index : nat) (inner : str -> option (A * str)) (s : str)
  : option (A * str) :=
  if (0 <? index)%nat then
    match s with c :: s => if bool_decide (c = sep) then inner s else None | [] => None end
  else inner s.

Definition read_octet (i : nat) : str -> option (Z * str) := read_separator dot i (read_number 10 3 false 255).
Definition read_ipv4_addr (s : str) : option ((Z * Z * Z * Z) * str) :=
  match read_octet 0 s with
  | None => None
  | Some (a, s) =>
      match read_octet 1 s with
      | None => None
      | Some (b, s) =>
          match read_octet 2 s with
          | None => None
          | Some (c, s) => match read_octet 3 s with Some (d, s) => Some (a, b, c, d, s) | None => None end
          end
      end
  end.

(** [read_groups]: the groups read, whether they end with an embedded IPv4
    address, and the rest of the input; [room] is the number of free slots. *)
Fixpoint read_groups (room index : nat) (s : str) : list Z * bool * str :=
  match room with
  | O => ([], false, s)
  | S room' =>
      let plain :=
        match read_separator colon index (read_number 16 4 true 65535) s with
        | Some (g, s') => let '(gs, v4, rest) := read_groups room' (S index) s' in (g :: gs, v4, rest)
        | None => ([], false, s)
        end in
      match room' with
      | O => plain
      | S _ =>
          match read_separator colon index read_ipv4_addr s with
          | Some (a, b, c, d, rest) => ([(a * 256 + b)%Z; (c * 256 + d)%Z], true, rest)
          | None => plain
          end
      end
  end.

Definition read_ipv6_addr (s : str) : option (Ipv6Addr * str) :=
  let '(front, v4, s1) := read_groups 8 0 s in
  if (length front =? 8)%nat then Some (front, s1)
  else if v4 then None
  else
    match strip_prefix [colon; colon] s1 with
    | None => None
    | Some s2 =>
        let '(back, _, s3) := read_groups (8 - (length front + 1)) 0 s2 in
        Some (front ++ replicate (8 - length front - length back) 0%Z ++ back, s3)
    end.

(** [str::parse::<Ipv6Addr>]: the whole input is consumed. *)
Definition ipv6_parse (s : str) : option Ipv6Addr :=
  match read_ipv6_addr s with Some (a, []) => Some a | _ => None end.

(** ** Printing *)

(** [{:x}] of a 16-bit group. *)
Definition hex_lower (d : Z) : byte := byte_of (if (d <? 10)%Z then 48 + d else 87 + d).
Definition hex_group (n : Z) : str :=
  if (n <? 16)%Z then [hex_lower n]
  else if (n <? 256)%Z then [hex_lower (n / 16); hex_lower (n mod 16)]
  else if (n <? 4096)%Z then [hex_lower (n / 256); hex_lower (n / 16 mod 16); hex_lower (n mod 16)]
  else [hex_lower (n / 4096); hex_lower (n / 256 mod 16); hex_lower (n / 16 mod 16); hex_lower (n mod 16)].
Definition fmt_subslice (groups : list Z) : str := join [colon] (map hex_group groups).

(** The first longest run of zero groups. *)
Record Span := mkSpan { span_start : nat; span_len : nat }.
Fixpoint zero_runs (i : nat) (groups : list Z) (current longest : Span) : Span :=
  match groups with
  | [] => longest
  | g :: groups =>
      if (g =? 0)%Z then
        let current := if (span_len current =? 0)%nat then mkSpan i 1
                       else mkSpan (span_start current) (S (span_len current)) in
        zero_runs (S i) groups current (if (span_len longest <? span_len current)%nat then current else longest)
      else zero_runs (S i) groups (mkSpan 0 0) longest
  end.

Definition ipv4_display (hi lo : Z) : str :=
  to_dec (hi / 256) ++ [dot] ++ to_dec (hi mod 256) ++ [dot] ++ to_dec (lo / 256) ++ [dot] ++ to_dec (lo mod 256).

Definition ipv6_display (a : Ipv6Addr) : str :=
  match a with
  | [0; 0; 0; 0; 0; 65535; hi; lo]%Z => §"::ffff:" ++ ipv4_display hi lo
  | _ =>
      let zeroes := zero_runs 0 a (mkSpan 0 0) (mkSpan 0 0) in
      if (1 <? span_len zeroes)%nat
      then fmt_subslice (take (span_start zeroes) a) ++ [colon; colon]
           ++ fmt_subslice (drop (span_start zeroes + span_len zeroes) a)
      else fmt_subslice a
  end.

Example ipv6_ex1 : ipv6_display <$> ipv6_parse §"2001:DB8:0:0:1::1" = Some §"2001:db8::1:0:0:1".
Proof. vm_compute. reflexivity. Qed.
Example ipv6_ex2 : ipv6_display <$> ipv6_parse §"::FFFF:10.0.0.1" = Some §"::ffff:10.0.0.1".
Proof. vm_compute. reflexivity. Qed.
Example ipv6_ex3 : map ipv6_parse [§"1:2"; §"::1::"; §"12345::"; §"::010.0.0.1"; §"1:2:3:4:5:6:7::"; §"::g"]
  = [None; None; None; None; Some [1;2;3;4;5;6;7;0]%Z; None].
Proof. vm_compute. reflexivity. Qed.

(** ** The characters of a printed address *)

Definition address_byte (b : byte) : bool :=
  is_ascii_digit b || in_range 97 102 b || bool_decide (b = colon) || bool_decide (b = dot).
Definition address_text (s : str) : Prop := Forall (fun b => address_byte b = true) s.

Lemma hex_lower_byte d : (0 <= d < 16)%Z -> address_byte (hex_lower d) = true.
Proof.
  intros Hd. assert (exists i, i < 16 /\ d = Z.of_nat i) as (i & Hi & ->) by (exists (Z.to_nat d); lia).
  do 16 (destruct i as [|i]; [done|]). lia.
Qed.

Lemma hex_group_text n : (0 <= n <= 65535)%Z -> address_text (hex_group n).
Proof.
  intros Hn. unfold hex_group, address_text. destruct (Z.ltb_spec n 16), (Z.ltb_spec n 256), (Z.ltb_spec n 4096);
    repeat constructor; apply hex_lower_byte; try (by apply Z.mod_pos_bound); try lia;
    (split; [apply Z.div_pos; lia|apply Z.div_lt_upper_bound; lia]).
Qed.

Lemma join_text ws : Forall address_text ws -> address_text (join [colon] ws).
Proof.
  induction 1 as [|w ws Hw Hws IH]; [by constructor|]. destruct ws as [|w' ws']; [done|].
  rewrite join_app_sep by done. by repeat apply Forall_app_2; [|repeat constructor|].
Qed.

Lemma fmt_text a : Forall (fun g => 0 <= g <= 65535)%Z a -> address_text (fmt_subslice a).
Proof.
  intros Ha. unfold fmt_subslice. apply join_text. induction Ha as [|g a Hg _ IH]; constructor; [|done].
  by apply hex_group_text.
Qed.

Lemma dec_text n : (0 <= n)%Z -> address_text (to_dec n).
Proof.
  intros Hn. destruct (to_dec_spec n Hn) as (_ & Hd & _). eapply Forall_impl; [exact Hd|].
  unfold address_byte. by intros b ->.
Qed.

Lemma ipv4_text hi lo : (0 <= hi)%Z -> (0 <= lo)%Z -> address_text (ipv4_display hi lo).
Proof.
  intros Hhi Hlo. unfold ipv4_display.
  repeat apply Forall_app_2; try (by repeat constructor); apply dec_text;
    first [by apply Z.div_pos | by apply Z.mod_pos_bound].
Qed.

Lemma ipv6_display_text a : Forall (fun g => 0 <= g <= 65535)%Z a -> address_text (ipv6_display a).
Proof.
  intros Ha.
  assert (address_text (let zeroes := zero_runs 0 a (mkSpan 0 0) (mkSpan 0 0) in
      if (1 <? span_len zeroes)%nat
      then fmt_subslice (take (span_start zeroes) a) ++ [colon; colon]
           ++ fmt_subslice (drop (span_start zeroes + span_len zeroes) a)
      else fmt_subslice a)) as Hplain.
  { cbn zeta. case_match; [|by apply fmt_text].
    repeat apply Forall_app_2; [apply fmt_text; by apply Forall_take|by repeat constructor|].
    apply fmt_text. by apply Forall_drop. }
  unfold ipv6_display. repeat (case_match; try exact Hplain). subst.
  apply Forall_app_2; [by repeat constructor|]. do 6 (apply Forall_cons in Ha as [_ Ha]).
  apply Forall_cons in Ha as [? Ha]. apply Forall_cons in Ha as [? _]. apply ipv4_text; lia.
Qed.

(** The groups of a parsed address are 16 bits wide. *)
Lemma to_digit_range radix c d : to_digit radix c = Some d -> (0 <= d)%Z.
Proof.
  unfold to_digit, is_ascii_digit, in_range. repeat case_match; intros; simplify_eq; bsplit; try done;
    repeat match goal with H : (_ && _) = true |- _ => apply andb_true_iff in H as [??] end; lia.
Qed.

Lemma number_nonneg radix ds : (0 <= radix)%Z -> Forall (fun d => 0 <= d)%Z ds -> (0 <= number radix ds)%Z.
Proof.
  intros Hr. unfold number. enough (forall acc, (0 <= acc)%Z -> Forall (fun d => 0 <= d)%Z ds ->
    (0 <= foldl (fun acc d => acc * radix + d)%Z acc ds)%Z) as Hg by (intros; by apply Hg).
  induction ds as [|d ds IH]; intros acc Ha Hd; cbn; [done|]. apply Forall_cons in Hd as [Hd Hds].
  apply IH; [nia|done].
Qed.

Lemma read_digits_nonneg radix s : Forall (fun d => 0 <= d)%Z (read_digits radix s).1.
Proof.
  induction s as [|c s IH]; cbn; [constructor|]. destruct (to_digit radix c) as [d|] eqn:Hd; [|constructor].
  destruct (read_digits radix s) as [ds rest]. cbn in *. constructor; [by eapply to_digit_range|done].
Qed.

Lemma read_number_range radix k z max s n rest : (0 <= radix)%Z ->
  read_number radix k z max s = Some (n, rest) -> (0 <= n <= max)%Z.
Proof.
  unfold read_number. pose proof (read_digits_nonneg radix s). destruct (read_digits radix s) as [ds r]. cbn in *.
  intros Hr Hn. repeat (case_match; [done|]). destruct (Z.leb_spec (number radix ds) max); [|done]. simplify_eq.
  split; [by apply number_nonneg|done].
Qed.

Lemma read_separator_inner {A} sep i (inner : str -> option (A * str)) s out :
  read_separator sep i inner s = Some out -> exists s', inner s' = Some out.
Proof. unfold read_separator. repeat case_match; naive_solver. Qed.

Lemma read_octet_range i s n rest : read_octet i s = Some (n, rest) -> (0 <= n <= 255)%Z.
Proof. intros [s' Hs]%read_separator_inner. by apply read_number_range in Hs. Qed.

Lemma read_ipv4_range s a b c d rest : read_ipv4_addr s = Some (a, b, c, d, rest) ->
  Forall (fun n => 0 <= n <= 255)%Z [a; b; c; d].
Proof.
  unfold read_ipv4_addr. intros Hs. repeat case_match; simplify_eq.
  repeat match goal with H : read_octet _ _ = Some _ |- _ => apply read_octet_range in H end.
  by do 4 (apply Forall_cons_2; [done|]).
Qed.

Lemma read_groups_range room : forall i s, Forall (fun g => 0 <= g <= 65535)%Z (read_groups room i s).1.1.
Proof.
  induction room as [|room IH]; intros i s; cbn [read_groups]; [constructor|].
  assert (Forall (fun g => 0 <= g <= 65535)%Z
    (match read_separator colon i (read_number 16 4 true 65535) s with
     | Some (g, s') => let '(gs, v4, rest) := read_groups room (S i) s' in (g :: gs, v4, rest)
     | None => ([], false, s)
     end).1.1) as Hplain.
  { destruct (read_separator colon i (read_number 16 4 true 65535) s) as [[g s']|] eqn:Hg; [|constructor].
    apply read_separator_inner in Hg as [s'' Hg]. apply read_number_range in Hg; [|done].
    specialize (IH (S i) s'). destruct (read_groups room (S i) s') as [[gs v4] rest]. by constructor. }
  destruct room; [done|].
  destruct (read_separator colon i read_ipv4_addr s) as [[[[[a b] c] d] rest]|] eqn:H4; [|done].
  apply read_separator_inner in H4 as [s' H4]. apply read_ipv4_range in H4.
  rewrite !Forall_cons in H4. destruct H4 as (? & ? & ? & ? & _).
  cbn. do 2 (apply Forall_cons_2; [lia|]). constructor.
Qed.

Lemma ipv6_parse_range s a : ipv6_parse s = Some a -> Forall (fun g => 0 <= g <= 65535)%Z a.
Proof.
  unfold ipv6_parse, read_ipv6_addr. pose proof (read_groups_range 8 0 s) as Hf.
  destruct (read_groups 8 0 s) as [[front v4] s1]. destruct (length front =? 8)%nat.
  { destruct s1; [by intros [= <-]|done]. }
  destruct v4; [done|]. destruct (strip_prefix [colon; colon] s1) as [s2|]; [|done].
  pose proof (read_groups_range (8 - (length front + 1)) 0 s2) as Hb.
  destruct (read_groups (8 - (length front + 1)) 0 s2) as [[back v4'] s3]. destruct s3; [|done]. intros [= <-].
  repeat apply Forall_app_2; [done|by apply Forall_replicate|done].
Qed.
