(* ===== verification/WsConfig.v ===== *)
(** * WebSocket configuration and handshake
      ([src/app/websocket/config.rs], [src/app/websocket.rs], [error.rs])

    Layered configuration ([from_layers]), its validation, origin policies and
    the handshake checks. The [http] crate's URI parser, the base64 decoder and
    the platform's clock range are parameters. *)
From S2P Require Import Prelude Strs Percent Request.

(** ** Errors *)

Inductive WebSocketErrorCategory := Protocol | Json.
Inductive WebSocketTimeout := TSend | TPong | TIdle | TLifetime | TClose | TShutdown | TBroker.
Inductive WebSocketCapacityError :=
| InboundQueue | OutboundQueue | GlobalConnections | RouteConnections | IpConnections | MessageRate.

Inductive WsError :=
| WsWebSocket (category : WebSocketErrorCategory)
| WsTimeout (timeout : WebSocketTimeout)
| WsCapacity (capacity : WebSocketCapacityError)
| InvalidConfiguration (message : str)
| InvalidClose (code : Z) (reason : str)
| InvalidRoom (room : str)
| RoomLimit
| ConnectionNotFound (id : Z)
| WsShutdown
| HandlerPanic
| WsClosed.

(** ** Configuration *)

Inductive BackpressurePolicy := Wait | Reject | Disconnect.
#[export] Instance BackpressurePolicy_eq_dec : EqDecision BackpressurePolicy.
Proof. solve_decision. Defined.

Inductive OriginPolicy :=
| Any (allow_missing : bool)
| SameHost (allow_missing : bool)
| AllowList (origins : list str) (allow_missing : bool).

Definition with_allow_missing (p : OriginPolicy) (allow_missing : bool) : OriginPolicy :=
  match p with
  | Any _ => Any allow_missing
  | SameHost _ => SameHost allow_missing
  | AllowList origins _ => AllowList origins allow_missing
  end.
Definition allows_missing (p : OriginPolicy) : bool :=
  match p with Any m | SameHost m | AllowList _ m => m end.

Record MessageRateLimit := mkMessageRateLimit { max_messages : Z; interval : Z }.

(** Durations are nanoseconds. *)
Definition secs (n : Z) : Z := n * 1000000000.

(** One layer: unset values inherit. *)
Module Layer.
Record WebSocketConfig := mkWebSocketConfig {
  protocols : option (list str);
  require_protocol : option bool;
  max_message_size : option (option Z);
  max_frame_size : option (option Z);
  write_buffer_size : option Z;
  max_write_buffer_size : option Z;
  inbound_capacity : option nat;
  outbound_capacity : option nat;
  backpressure_policy : option BackpressurePolicy;
  send_timeout : option Z;
  ping_interval : option (option Z);
  pong_timeout : option Z;
  idle_timeout : option (option Z);
  max_connection_lifetime : option (option Z);
  close_timeout : option Z;
  origin_policy : option OriginPolicy;
  max_connections : option (option nat);
  max_connections_per_ip : option (option nat);
  message_rate_limit : option (option MessageRateLimit);
  max_rooms_per_connection : option nat;
  max_room_name_bytes : option nat
}.
Definition default : WebSocketConfig :=
  mkWebSocketConfig None None None None None None None None None None None None None None None None
    None None None None None.
End Layer.
Abbreviation WebSocketConfig := Layer.WebSocketConfig.

Record ResolvedWebSocketConfig := mkResolvedWebSocketConfig {
  protocols : list str;
  require_protocol : bool;
  max_message_size : option Z;
  max_frame_size : option Z;
  write_buffer_size : Z;
  max_write_buffer_size : Z;
  inbound_capacity : nat;
  outbound_capacity : nat;
  backpressure_policy : BackpressurePolicy;
  send_timeout : Z;
  ping_interval : option Z;
  pong_timeout : Z;
  idle_timeout : option Z;
  max_connection_lifetime : option Z;
  cfg_close_timeout : Z;
  origin_policy : OriginPolicy;
  process_max_connections : option nat;
  route_max_connections : option nat;
  max_connections_per_ip : option nat;
  message_rate_limit : option MessageRateLimit;
  cfg_max_rooms_per_connection : nat;
  cfg_max_room_name_bytes : nat
}.

(** [route.field.or(app.field).unwrap_or(default)]. *)
Definition layered {A} (field : WebSocketConfig -> option A) (app route : WebSocketConfig) (default : A) : A :=
  match field route with
  | Some a => a
  | None => match field app with Some a => a | None => default end
  end.

Definition from_layers (app route : WebSocketConfig) : ResolvedWebSocketConfig := {|
  protocols := layered Layer.protocols app route [];
  require_protocol := layered Layer.require_protocol app route false;
  max_message_size := layered Layer.max_message_size app route (Some 1048576%Z);
  max_frame_size := layered Layer.max_frame_size app route (Some 262144%Z);
  write_buffer_size := layered Layer.write_buffer_size app route 131072%Z;
  max_write_buffer_size := layered Layer.max_write_buffer_size app route 1048576%Z;
  inbound_capacity := layered Layer.inbound_capacity app route 16;
  outbound_capacity := layered Layer.outbound_capacity app route 16;
  backpressure_policy := layered Layer.backpressure_policy app route Wait;
  send_timeout := layered Layer.send_timeout app route (secs 5);
  ping_interval := layered Layer.ping_interval app route (Some (secs 30));
  pong_timeout := layered Layer.pong_timeout app route (secs 10);
  idle_timeout := layered Layer.idle_timeout app route (Some (secs 120));
  max_connection_lifetime := layered Layer.max_connection_lifetime app route (Some (secs 86400));
  cfg_close_timeout := layered Layer.close_timeout app route (secs 5);
  origin_policy := layered Layer.origin_policy app route (with_allow_missing (SameHost true) false);
  process_max_connections :=
    match Layer.max_connections app with Some limit => limit | None => Some 2000 end;
  route_max_connections :=
    match Layer.max_connections route with Some limit => limit | None => None end;
  max_connections_per_ip := layered Layer.max_connections_per_ip app route (Some 20);
  message_rate_limit :=
    layered Layer.message_rate_limit app route (Some (mkMessageRateLimit 100 (secs 1)));
  cfg_max_rooms_per_connection := layered Layer.max_rooms_per_connection app route 32;
  cfg_max_room_name_bytes := layered Layer.max_room_name_bytes app route 128
|}.

(** [is_valid_protocol_token] accepts what a cookie name accepts. *)
Definition is_valid_protocol_token (value : str) : bool :=
  negb (bool_decide (value = [])) && forallb is_token_byte value.

(** ** Origins *)

Inductive OriginScheme := Http | Https | Ws | Wss.
#[export] Instance OriginScheme_eq_dec : EqDecision OriginScheme.
Proof. solve_decision. Defined.

Definition scheme_parse (value : str) : option OriginScheme :=
  if eq_ignore_ascii_case value §"http" then Some Http
  else if eq_ignore_ascii_case value §"https" then Some Https
  else if eq_ignore_ascii_case value §"ws" then Some Ws
  else if eq_ignore_ascii_case value §"wss" then Some Wss
  else None.
Definition default_port (s : OriginScheme) : Z := match s with Http | Ws => 80 | Https | Wss => 443 end.
Definition is_secure_scheme (s : OriginScheme) : bool := match s with Https | Wss => true | _ => false end.

(** What [hyper::Uri] exposes of a parsed URI. *)
Record Authority := mkAuthority { authority_str : str; authority_host : str; port_u16 : option Z }.
Record Uri := mkUri { scheme_str : option str; authority : option Authority; path_and_query : option str }.

Record NormalizedOrigin := mkNormalizedOrigin { scheme : OriginScheme; origin_host : str; port : Z }.
#[export] Instance NormalizedOrigin_eq_dec : EqDecision NormalizedOrigin.
Proof. solve_decision. Defined.

Definition effective_port (a : Authority) (default : Z) : option Z :=
  match port_u16 a with
  | Some p => Some p
  | None =>
      let raw := authority_str a in
      let has_explicit_port :=
        if starts_with §"[" raw then
          match split_once Byte.x5d raw with
          | Some (_, after) => negb (bool_decide (after = []))
          | None => false
          end
        else contains Byte.x3a raw in
      if has_explicit_port then None else Some default
  end.

(** The checks [NormalizedOrigin::parse] and [normalize_host] share: no user
    information, no path but [/], a host, a usable port. *)
Definition usable_authority (uri : Uri) (default : Z) : option (str * Z) :=
  a ← authority uri;
  if contains Byte.x40 (authority_str a) then None
  else if match path_and_query uri with Some p => negb (bool_decide (p = §"/")) | None => false end then None
  else if bool_decide (authority_host a = []) then None
  else p ← effective_port a default; Some (to_ascii_lowercase (authority_host a), p).

Section handshake.
(** [str::parse::<Uri>], the base64 STANDARD decoder and
    [Instant::now().checked_add]. *)
Context (parse_uri : str -> option Uri) (base64_decode : str -> option str) (representable : Z -> bool).

Definition origin_parse (value : str) : option NormalizedOrigin :=
  uri ← parse_uri value;
  s ← scheme_str uri;
  s ← scheme_parse s;
  hp ← usable_authority uri (default_port s);
  Some (mkNormalizedOrigin s hp.1 hp.2).

Definition normalize_host (host : str) (default : Z) : option (str * Z) :=
  uri ← parse_uri (§"http://" ++ host);
  usable_authority uri default.

Definition allows_normalized (p : OriginPolicy) (origin : NormalizedOrigin) (host : str)
    (host_default_port : Z) : bool :=
  match p with
  | Any _ => true
  | SameHost _ =>
      match normalize_host host host_default_port with
      | Some (h, p) => bool_decide (h = origin_host origin) && (p =? port origin)%Z
      | None => false
      end
  | AllowList origins _ =>
      existsb (fun allowed => bool_decide (origin_parse allowed = Some origin)) origins
  end.

Definition allows (p : OriginPolicy) (origin : option str) (host : str) : bool :=
  match origin with
  | None => allows_missing p
  | Some o =>
      match origin_parse o with
      | None => false
      | Some o => allows_normalized p o host (default_port (scheme o))
      end
  end.

Definition is_same_host (p : OriginPolicy) : bool := match p with SameHost _ => true | _ => false end.
Definition allows_for_transport (p : OriginPolicy) (origin : option str) (host : str) (secure : bool) : bool :=
  match origin with
  | None => allows_missing p
  | Some o =>
      match origin_parse o with
      | None => false
      | Some o =>
          if is_same_host p && negb (Bool.eqb (is_secure_scheme (scheme o)) secure) then false
          else allows_normalized p o host (if secure then 443 else 80)%Z
      end
  end.

Definition policy_is_valid (p : OriginPolicy) : bool :=
  match p with
  | AllowList origins _ => forallb (fun o => bool_decide (is_Some (origin_parse o))) origins
  | _ => true
  end.

(** ** Validation *)

(** The loop over the subprotocols, with the set of those seen. *)
Fixpoint check_protocols (seen : gset str) (l : list str) : result unit WsError :=
  match l with
  | [] => Ok tt
  | p :: l =>
      if negb (is_valid_protocol_token p) then
        Err (InvalidConfiguration §"los subprotocolos WebSocket deben ser tokens HTTP validos")
      else if bool_decide (p ∈ seen) then
        Err (InvalidConfiguration §"los subprotocolos WebSocket no pueden estar duplicados")
      else check_protocols ({[p]} ∪ seen) l
  end.

Definition bad_deadline (d : option Z) : bool :=
  match d with Some t => (t =? 0)%Z || negb (representable t) | None => false end.

Definition validate (c : ResolvedWebSocketConfig) : result unit WsError :=
  let? _ := check_protocols ∅ (protocols c) in
  if require_protocol c && bool_decide (protocols c = []) then
    Err (InvalidConfiguration §"require_protocol necesita al menos un subprotocolo WebSocket")
  else if bool_decide (max_message_size c = Some 0%Z) || bool_decide (max_frame_size c = Some 0%Z) then
    Err (InvalidConfiguration §"los limites de mensaje y frame WebSocket deben ser mayores que cero")
  else if (inbound_capacity c =? 0)%nat || (outbound_capacity c =? 0)%nat then
    Err (InvalidConfiguration §"las capacidades de los canales WebSocket deben ser mayores que cero")
  else if (max_write_buffer_size c <=? write_buffer_size c)%Z then
    Err (InvalidConfiguration §"max_write_buffer_size debe ser mayor que write_buffer_size")
  else if match ping_interval c with Some i => (i <=? pong_timeout c)%Z | None => false end then
    Err (InvalidConfiguration §"ping_interval debe ser mayor que pong_timeout")
  else if (send_timeout c =? 0)%Z
          || existsb bad_deadline [ping_interval c; Some (pong_timeout c); idle_timeout c;
                                   max_connection_lifetime c; Some (cfg_close_timeout c)] then
    Err (InvalidConfiguration §"los tiempos limite WebSocket deben ser positivos y representables")
  else if (cfg_max_rooms_per_connection c =? 0)%nat || (cfg_max_room_name_bytes c =? 0)%nat then
    Err (InvalidConfiguration §"los limites de rooms WebSocket deben ser mayores que cero")
  else if bool_decide (process_max_connections c = Some 0) || bool_decide (route_max_connections c = Some 0)
          || bool_decide (max_connections_per_ip c = Some 0) then
    Err (InvalidConfiguration §"los limites de conexiones WebSocket deben ser mayores que cero")
  else if match message_rate_limit c with
          | Some l => (max_messages l =? 0)%Z || (interval l =? 0)%Z
          | None => false end then
    Err (InvalidConfiguration
      §"los limites de frecuencia de mensajes WebSocket deben ser mayores que cero")
  else if negb (policy_is_valid (origin_policy c)) then
    Err (InvalidConfiguration §"la politica de origen WebSocket contiene un origen no valido")
  else Ok tt.

(** ** The handshake *)

(** [HandshakeRejection]: the status, and the version header of a 426. *)
Inductive HandshakeRejection :=
| RejectVersion | RejectHost | RejectMethod | RejectUpgrade | RejectConnection
| RejectWsVersionCount | RejectWsVersion | RejectKeyCount | RejectKey
| RejectOriginCount | RejectOrigin
| RejectToken | RejectDuplicateToken | RejectNoToken | RejectRequired.

Definition rejection_status (r : HandshakeRejection) : Z :=
  match r with RejectWsVersion => 426 | RejectOrigin => 403 | _ => 400 end.

Definition header_value_contains_token (value expected : str) : bool :=
  existsb (fun token => eq_ignore_ascii_case (trim token) expected) (split_on comma value).

Definition request_header_contains_token (r : Request) (name expected : str) : bool :=
  existsb (fun value => header_value_contains_token value expected) (headers_all r name)
  || match header r name with Some v => header_value_contains_token v expected | None => false end.

Definition singleton_header (r : Request) (name : str) : option str :=
  match headers_all r name with [value] => Some value | _ => None end.

Definition is_valid_websocket_key (value : str) : bool :=
  match base64_decode value with Some decoded => (length decoded =? 16)%nat | None => false end.

(** The loop state of [negotiate_protocol]. *)
Record Negotiation := mkNegotiation { selected : option str; saw_protocol : bool; seen : gset str }.

Definition offer (supported : list str) (n : Negotiation) (candidate : str)
  : result Negotiation HandshakeRejection :=
  let candidate := trim candidate in
  if bool_decide (candidate = []) then Ok n
  else if negb (is_valid_protocol_token candidate) then Err RejectToken
  else if bool_decide (candidate ∈ seen n) then Err RejectDuplicateToken
  else Ok (mkNegotiation
             (match selected n with
              | None => if bool_decide (candidate ∈ supported) then Some candidate else None
              | s => s end)
             true ({[candidate]} ∪ seen n)).

Definition offered_values (r : Request) : list str :=
  match headers_all r §"sec-websocket-protocol" with
  | [] => option_list (header r §"sec-websocket-protocol")
  | values => values
  end.

Definition negotiate_protocol (r : Request) (supported : list str)
  : result (option str) HandshakeRejection :=
  let values := offered_values r in
  let? n := try_fold (fun n raw => try_fold (offer supported) n (split_on comma raw))
              (mkNegotiation None false ∅) values in
  if negb (bool_decide (values = [])) && negb (saw_protocol n) then Err RejectNoToken
  else Ok (selected n).

Definition validate_handshake (r : Request) (c : ResolvedWebSocketConfig)
  : result (option str) HandshakeRejection :=
  if negb (bool_decide (version r = HTTP_11)) then Err RejectVersion
  else match singleton_header r §"host" with
  | None => Err RejectHost
  | Some host =>
  let host := trim host in
  if bool_decide (host = []) then Err RejectHost
  else if negb (eq_ignore_ascii_case (method r) §"GET") then Err RejectMethod
  else if negb (request_header_contains_token r §"upgrade" §"websocket") then Err RejectUpgrade
  else if negb (request_header_contains_token r §"connection" §"upgrade") then Err RejectConnection
  else match singleton_header r §"sec-websocket-version" with
  | None => Err RejectWsVersionCount
  | Some v =>
  if negb (bool_decide (trim v = §"13")) then Err RejectWsVersion
  else match singleton_header r §"sec-websocket-key" with
  | None => Err RejectKeyCount
  | Some key =>
  if negb (is_valid_websocket_key key) then Err RejectKey
  else
    let origins := headers_all r §"origin" in
    if (1 <? length origins)%nat then Err RejectOriginCount
    else if negb (allows_for_transport (origin_policy c) (head origins) host (secure_transport r)) then
      Err RejectOrigin
    else
      let? protocol := negotiate_protocol r (protocols c) in
      if require_protocol c && negb (bool_decide (is_Some protocol)) then Err RejectRequired
      else Ok protocol
  end end end.

(** [Request::is_websocket_upgrade]. *)
Definition is_websocket_upgrade (r : Request) : bool :=
  match singleton_header r §"host", singleton_header r §"sec-websocket-key",
        singleton_header r §"sec-websocket-version" with
  | Some host, Some key, Some v =>
      bool_decide (version r = HTTP_11) && eq_ignore_ascii_case (method r) §"GET"
      && negb (bool_decide (trim host = []))
      && request_header_contains_token r §"upgrade" §"websocket"
      && request_header_contains_token r §"connection" §"upgrade"
      && is_valid_websocket_key key && bool_decide (trim v = §"13")
  | _, _, _ => false
  end.
End handshake.

(** ** Lemmas *)

Lemma check_protocols_Ok l : forall seen,
  check_protocols seen l = Ok tt <->
  Forall (fun p => is_valid_protocol_token p = true) l /\ NoDup l /\ Forall (fun p => p ∉ seen) l.
Proof.
  induction l as [|p l IH]; intros seen; cbn.
  - split; [intros _; split_and!; constructor|done].
  - rewrite !Forall_cons, NoDup_cons.
    destruct (is_valid_protocol_token p) eqn:Ep; cbn; [|naive_solver].
    case_bool_decide as Hs; [naive_solver|]. rewrite IH, !Forall_forall. split.
    + intros (H1 & H2 & H3). split_and!; [done|done| |done|done|].
      * intros Hp. apply (H3 p Hp). set_solver.
      * intros x Hx Hin. apply (H3 x Hx). set_solver.
    + intros ((_ & H1) & (H2 & H3) & (H4 & H5)). split_and!; [done|done|]. intros x Hx.
      rewrite elem_of_union, elem_of_singleton. intros [->|Hin]; [done|by apply (H5 x)].
Qed.

Definition positive_deadline (representable : Z -> bool) (d : option Z) : Prop :=
  forall t, d = Some t -> t <> 0%Z /\ representable t = true.

Lemma bad_deadline_false representable d :
  bad_deadline representable d = false <-> positive_deadline representable d.
Proof.
  unfold bad_deadline, positive_deadline. destruct d as [t|]; [|naive_solver].
  rewrite orb_false_iff, negb_false_iff, Z.eqb_neq. naive_solver.
Qed.

(** What a usable configuration is. *)
Record valid_config (parse_uri : str -> option Uri) (representable : Z -> bool)
    (c : ResolvedWebSocketConfig) : Prop := {
  vc_tokens : Forall (fun p => is_valid_protocol_token p = true) (protocols c);
  vc_distinct : NoDup (protocols c);
  vc_required : require_protocol c = true -> protocols c <> [];
  vc_sizes : max_message_size c <> Some 0%Z /\ max_frame_size c <> Some 0%Z;
  vc_capacities : inbound_capacity c <> 0 /\ outbound_capacity c <> 0;
  vc_buffers : (write_buffer_size c < max_write_buffer_size c)%Z;
  vc_ping : forall i, ping_interval c = Some i -> (pong_timeout c < i)%Z;
  vc_send : send_timeout c <> 0%Z;
  vc_deadlines : Forall (positive_deadline representable)
    [ping_interval c; Some (pong_timeout c); idle_timeout c; max_connection_lifetime c;
     Some (cfg_close_timeout c)];
  vc_rooms : cfg_max_rooms_per_connection c <> 0 /\ cfg_max_room_name_bytes c <> 0;
  vc_connections : process_max_connections c <> Some 0 /\ route_max_connections c <> Some 0
    /\ max_connections_per_ip c <> Some 0;
  vc_rate : forall l, message_rate_limit c = Some l -> max_messages l <> 0%Z /\ interval l <> 0%Z;
  vc_origins : forall os m, origin_policy c = AllowList os m -> Forall (fun o => is_Some (origin_parse parse_uri o)) os
}.

Lemma err_step {A E} (b : bool) (e : E) (k : result A E) (a : A) :
  (if b then Err e else k) = Ok a <-> b = false /\ k = Ok a.
Proof. destruct b; naive_solver. Qed.

Lemma existsb_false_Forall_or representable b ds :
  b || existsb (bad_deadline representable) ds = false <->
  b = false /\ Forall (positive_deadline representable) ds.
Proof.
  rewrite orb_false_iff, existsb_false_Forall. do 2 f_equiv. intros d. apply bad_deadline_false.
Qed.

Lemma forallb_bool_decide {A} (P : A -> Prop) `{forall x, Decision (P x)} l :
  forallb (fun x => bool_decide (P x)) l = true <-> Forall P l.
Proof. rewrite forallb_true_Forall. f_equiv. intros x. apply bool_decide_eq_true. Qed.

Lemma validate_valid parse_uri representable c :
  validate parse_uri representable c = Ok tt <-> valid_config parse_uri representable c.
Proof.
  unfold validate. destruct (check_protocols ∅ (protocols c)) as [[]|e] eqn:Ep.
  2: { split; [done|]. intros [H1 H2 _ _ _ _ _ _ _ _ _ _ _].
       assert (check_protocols ∅ (protocols c) = Ok tt); [|congruence]. apply check_protocols_Ok.
       split_and!; [done|done|]. apply Forall_forall. set_solver. }
  apply check_protocols_Ok in Ep as (Ht & Hn & _). rewrite !err_step. split.
  - intros (B1 & B2 & B3 & B4 & B5 & B6 & B7 & B8 & B9 & B10 & _).
    apply existsb_false_Forall_or in B6 as [B6 B6']. bsplit. split; try done.
    + intros Hr. rewrite Hr in B1. cbn in B1. by bsplit.
    + intros i Hi. rewrite Hi in B5. by bsplit.
    + intros l Hl. rewrite Hl in B9. by bsplit.
    + intros os m Ho. rewrite Ho in B10. cbn in B10. by apply forallb_bool_decide in B10.
  - intros [H1 H2 H3 [H4 H4'] [H5 H5'] H6 H7 H8 H9 [H10 H10'] (H11 & H11' & H11'') H12 H13].
    split_and!; try (bgoal; done).
    + destruct (require_protocol c); [|done]. cbn [andb]. bgoal. by apply H3.
    + destruct (ping_interval c) as [i|]; [|done]. bgoal. by apply H7.
    + apply existsb_false_Forall_or. split; [by bgoal|done].
    + destruct (message_rate_limit c) as [l|]; [|done]. destruct (H12 l eq_refl). by bgoal.
    + destruct (origin_policy c) as [| |os m] eqn:Eo; [done|done|]. bgoal. apply forallb_bool_decide. by eapply H13.
Qed.

(** The subprotocol tokens a request offers. *)
Definition offers (r : Request) : list str :=
  List.filter (fun t => negb (bool_decide (t = [])))
    (map trim (concat (map (split_on comma) (offered_values r)))).

Lemma offer_run supported l : forall n out,
  try_fold (offer supported) n l = Ok out <->
  let ts := List.filter (fun t => negb (bool_decide (t = []))) (map trim l) in
  Forall (fun t => is_valid_protocol_token t = true /\ t ∉ seen n) ts /\ NoDup ts
  /\ out = mkNegotiation
             (match selected n with None => List.find (fun t => bool_decide (t ∈ supported)) ts | x => x end)
             (saw_protocol n || negb (bool_decide (ts = []))) (list_to_set ts ∪ seen n).
Proof.
  induction l as [|raw l IH]; intros n out; cbn [try_fold map List.filter].
  - cbn. rewrite orb_false_r, (left_id_L ∅ (∪)). destruct n as [[x|] b s]; cbn;
      (split; [intros [= <-]; split_and!; [constructor|constructor|done]|by intros (_ & _ & ->)]).
  - unfold offer at 1. set (t := trim raw). cbn zeta. destruct (bool_decide (t = [])) eqn:Et; cbn [negb].
    { apply IH. }
    apply bool_decide_eq_false in Et. rewrite Forall_cons, NoDup_cons. set (ts := List.filter _ (map trim l)) in *.
    destruct (is_valid_protocol_token t) eqn:Ev; cbn [negb];
      [|split; [done|]; by intros ([[? _] _] & _)].
    case_bool_decide as Hs; [split; [done|]; by intros ([[_ ?] _] & _)|].
    cbv beta iota. rewrite IH. cbn [seen selected saw_protocol]. fold ts.
    rewrite !Forall_forall. split.
    + intros (H1 & H2 & ->). split_and!; try done.
      * intros x Hx. destruct (H1 x Hx). split; [done|]. set_solver.
      * intros Hin. destruct (H1 t Hin). set_solver.
      * f_equal; [|by rewrite orb_true_r|set_solver].
        destruct (selected n); [done|]. cbn. by case_bool_decide.
    + intros ((_ & H1) & (H2 & H3) & ->). split_and!; try done.
      * intros x Hx. destruct (H1 x Hx). split; [done|]. set_solver.
      * f_equal; [|by rewrite orb_true_r|set_solver].
        destruct (selected n); [done|]. cbn. by case_bool_decide.
Qed.

(** Negotiation: every offered token valid and distinct, at least one in a
    present header, and the first supported one is selected. *)
Lemma negotiate_Ok r supported p :
  negotiate_protocol r supported = Ok p <->
  Forall (fun t => is_valid_protocol_token t = true) (offers r) /\ NoDup (offers r)
  /\ (offered_values r <> [] -> offers r <> [])
  /\ p = List.find (fun t => bool_decide (t ∈ supported)) (offers r).
Proof.
  unfold negotiate_protocol.
  rewrite (try_fold_map (fun n parts => try_fold (offer supported) n parts) (split_on comma)), try_fold_concat.
  destruct (try_fold (offer supported) _ _) as [n|e] eqn:E.
  - apply offer_run in E as (H1 & H2 & ->). fold (offers r) in *. cbn [selected saw_protocol orb].
    rewrite err_step, andb_false_iff, negb_false_iff, negb_false_iff, negb_true_iff, bool_decide_eq_true,
      bool_decide_eq_false.
    assert (Forall (fun t => is_valid_protocol_token t = true) (offers r)).
    { eapply Forall_impl; [exact H1|]. by intros t [? _]. }
    split; [intros [Hc [= <-]]|intros (_ & _ & Hc & ->)].
    + split_and!; try done. by destruct Hc.
    + split; [|done]. destruct (decide (offered_values r = [])); [by left|right; by apply Hc].
  - split; [done|]. intros (H1 & H2 & _).
    assert (exists n, try_fold (offer supported) (mkNegotiation None false ∅)
      (concat (map (split_on comma) (offered_values r))) = Ok n) as [n E']; [|congruence].
    eexists. apply offer_run. fold (offers r). split_and!; [|done|done].
    eapply Forall_impl; [exact H1|]. intros t Ht. split; [done|]. cbn. set_solver.
Qed.

Lemma singleton_header_Some r name v : singleton_header r name = Some v <-> headers_all r name = [v].
Proof. unfold singleton_header. destruct (headers_all r name) as [|? [|]]; naive_solver. Qed.

Section theorems.
Context (parse_uri : str -> option Uri) (base64_decode : str -> option str) (representable : Z -> bool).

(** What RFC 6455 and the configuration ask of a handshake request. *)
Record acceptable (r : Request) (c : ResolvedWebSocketConfig) (protocol : option str) : Prop := {
  ac_version : version r = HTTP_11;
  ac_method : eq_ignore_ascii_case (method r) §"GET" = true;
  ac_upgrade : request_header_contains_token r §"upgrade" §"websocket" = true;
  ac_connection : request_header_contains_token r §"connection" §"upgrade" = true;
  ac_ws_version : exists v, headers_all r §"sec-websocket-version" = [v] /\ trim v = §"13";
  ac_key : exists key bytes, headers_all r §"sec-websocket-key" = [key] /\ base64_decode key = Some bytes
           /\ length bytes = 16;
  ac_origin : length (headers_all r §"origin") <= 1
    /\ exists host, headers_all r §"host" = [host] /\ trim host <> []
         /\ allows_for_transport parse_uri (origin_policy c) (head (headers_all r §"origin")) (trim host)
              (secure_transport r) = true;
  ac_tokens : Forall (fun t => is_valid_protocol_token t = true) (offers r) /\ NoDup (offers r)
    /\ (offered_values r <> [] -> offers r <> []);
  ac_protocol : protocol = List.find (fun t => bool_decide (t ∈ protocols c)) (offers r);
  ac_required : require_protocol c = true -> is_Some protocol
}.

Lemma valid_key key : is_valid_websocket_key base64_decode key = true <->
  exists bytes, base64_decode key = Some bytes /\ length bytes = 16.
Proof.
  unfold is_valid_websocket_key. destruct (base64_decode key) as [b|]; [|naive_solver].
  rewrite Nat.eqb_eq. naive_solver.
Qed.

Lemma accepted_acceptable r c p : validate_handshake parse_uri base64_decode r c = Ok p -> acceptable r c p.
Proof.
  unfold validate_handshake. rewrite err_step. intros [H1 H2]. bsplit.
  destruct (singleton_header r §"host") as [host|] eqn:Eh; [|done]. cbn zeta in H2.
  rewrite !err_step in H2. destruct H2 as (H2 & H3 & H4 & H5 & H6). bsplit.
  destruct (singleton_header r §"sec-websocket-version") as [v|] eqn:Ev; [|done].
  rewrite err_step in H6. destruct H6 as [H6 H7]. bsplit.
  destruct (singleton_header r §"sec-websocket-key") as [key|] eqn:Ek; [|done].
  rewrite !err_step in H7. destruct H7 as (H7 & H8 & H9 & H10). bsplit.
  destruct (negotiate_protocol r (protocols c)) as [p'|] eqn:En; [|done].
  rewrite err_step in H10. destruct H10 as [H10 [= ->]].
  apply singleton_header_Some in Eh, Ev, Ek. apply valid_key in H7 as (bytes & ? & ?).
  apply negotiate_Ok in En as (? & ? & ? & ?). split; try done; try (by eauto 10).
  intros Hr. rewrite Hr in H10. cbn in H10. by bsplit.
Qed.

Lemma acceptable_accepted r c p : acceptable r c p -> validate_handshake parse_uri base64_decode r c = Ok p.
Proof.
  intros [H1 H2 H3 H4 (v & Hv & Hv') (key & bytes & Hk & Hd & Hb) (Ho & host & Hh & Hne & Ha) (Ht & Hn & Hs) Hp Hr].
  unfold validate_handshake. rewrite err_step. split; [by bgoal|].
  rewrite (proj2 (singleton_header_Some _ _ _) Hh). cbn zeta. rewrite !err_step. split_and!; try (by bgoal).
  rewrite (proj2 (singleton_header_Some _ _ _) Hv), err_step. split; [by bgoal|].
  rewrite (proj2 (singleton_header_Some _ _ _) Hk), !err_step. split_and!.
  - bgoal. apply valid_key. eauto.
  - by bgoal.
  - by bgoal.
  - rewrite (proj2 (negotiate_Ok r (protocols c) p)) by done. rewrite err_step. split; [|done].
    destruct (require_protocol c); [|done]. cbn [andb]. bgoal. by apply Hr.
Qed.

(** C21. The WebSocket handshake is exact: a request is accepted with a
    subprotocol if and only if it is an HTTP/1.1 GET with the upgrade tokens, one
    usable Host, version 13, one key of 16 bytes, at most one Origin allowed by
    the policy, well-formed distinct subprotocol offers, the subprotocol being
    the first offered one the route supports, and being there when the route
    requires one; and every accepted request is
    recognised by [is_websocket_upgrade]. *)
Theorem handshake_exact r c protocol :
  (validate_handshake parse_uri base64_decode r c = Ok protocol <-> acceptable r c protocol)
  /\ (validate_handshake parse_uri base64_decode r c = Ok protocol ->
      is_websocket_upgrade base64_decode r = true).
Proof.
  split; [split; [apply accepted_acceptable|apply acceptable_accepted]|].
  intros [H1 H2 H3 H4 (v & Hv & Hv') (key & bytes & Hk & Hd & Hb) (_ & host & Hh & Hne & _) _ _ _]%accepted_acceptable.
  unfold is_websocket_upgrade. apply singleton_header_Some in Hv, Hk, Hh. rewrite Hv, Hk, Hh.
  bgoal; try done. apply valid_key. eauto.
Qed.

(** A resolved configuration is accepted exactly when it is usable (tokens
    distinct and valid, positive limits and capacities, representable positive
    deadlines, a ping interval above the pong timeout, parseable allowed
    origins), the built-in defaults are, the process connection limit comes from
    the application layer alone and the route limit from the route layer
    alone. *)
Theorem resolved_config_exact app route :
  (validate parse_uri representable (from_layers app route) = Ok tt <->
   valid_config parse_uri representable (from_layers app route))
  /\ (Forall (fun t => representable (secs t) = true) [30; 10; 120; 86400; 5]%Z ->
      validate parse_uri representable (from_layers Layer.default Layer.default) = Ok tt)
  /\ (forall route', process_max_connections (from_layers app route) =
                     process_max_connections (from_layers app route'))
  /\ (forall app', route_max_connections (from_layers app route) =
                   route_max_connections (from_layers app' route)).
Proof.
  split_and!; [apply validate_valid| |done|done].
  intros Hr. apply validate_valid. repeat (apply Forall_cons in Hr as [? Hr]).
  split; cbn; try done; try (by constructor); try (by repeat split); try naive_solver.
  repeat (apply Forall_cons; split; [intros t [= <-]; split; [by vm_compute|done]|]). constructor.
Qed.
End theorems.
