(* ===== verification/WsRuntimeInv.v ===== *)
(** * Invariants and theorems of the WebSocket registry

    The derived indexes of [WsRuntime.Registry] (per-route and per-address
    counts, room members, the publication window, the counters) against the
    connections they summarise, over every reachable runtime. *)
From S2P Require Import Prelude Strs Percent Request WsConfig WsRuntime.

(** ** Counting the values of a map *)

Section occupancy.
Context {E : Type}.

Definition occ (P : E -> bool) (m : gmap Z E) : nat := size (filter (fun kv => P kv.2 = true) m).

Lemma occ_delete P m i :
  occ P m = (occ P (delete i m) + match m !! i with Some x => if P x then 1 else 0 | None => 0 end)%nat.
Proof.
  unfold occ. rewrite map_filter_delete.
  destruct (m !! i) as [x|] eqn:Hi; [destruct (P x) eqn:Hp|].
  - assert (filter (fun kv => P kv.2 = true) m !! i = Some x) as Hf by (by apply map_lookup_filter_Some).
    rewrite map_size_delete, Hf.
    assert (size (filter (fun kv => P kv.2 = true) m) <> 0); [|lia].
    intros E0. apply map_size_empty_inv in E0. by rewrite E0, lookup_empty in Hf.
  - rewrite delete_id; [lia|]. apply map_lookup_filter_None. right. intros y Hy. cbn.
    rewrite Hi in Hy. injection Hy as <-. by rewrite Hp.
  - rewrite delete_id; [lia|]. apply map_lookup_filter_None. by left.
Qed.

Lemma occ_insert P m i x :
  occ P (<[i := x]> m) = (occ P (delete i m) + if P x then 1 else 0)%nat.
Proof. rewrite (occ_delete P _ i), lookup_insert_eq, delete_insert_eq. done. Qed.

Lemma occ_le_size P m : occ P m <= size m.
Proof. unfold occ. apply map_size_filter. Qed.
End occupancy.

(** ** Counts per key *)

Section counts.
Context {E K : Type} `{Countable K} (f : E -> option K).

Definition has_key (k : K) (e : E) : bool := bool_decide (f e = Some k).

(** [counts] holds the positive occupancies. *)
Definition counts_ok (m : gmap Z E) (counts : gmap K nat) : Prop :=
  forall k, counts !! k = (let n := occ (has_key k) m in if (n =? 0)%nat then None else Some n).

Lemma counts_of m counts k : counts_ok m counts -> count_of counts k = occ (has_key k) m.
Proof.
  intros Hok. unfold count_of. rewrite (Hok k). cbn zeta.
  destruct (Nat.eqb_spec (occ (has_key k) m) 0) as [E0|]; cbn [default]; [by rewrite E0|done].
Qed.

Lemma counts_insert m counts i x :
  counts_ok m counts -> m !! i = None ->
  counts_ok (<[i := x]> m) (match f x with Some k => increment_count counts k | None => counts end).
Proof.
  intros Hok Hi k. cbn zeta. rewrite occ_insert, (delete_id _ _ Hi). unfold has_key at 2 4.
  destruct (f x) as [k'|] eqn:Ef.
  - unfold increment_count. rewrite (counts_of _ _ _ Hok). destruct (decide (k' = k)) as [->|Hne].
    + rewrite lookup_insert_eq, bool_decide_eq_true_2 by done. rewrite Nat.add_1_r. done.
    + rewrite lookup_insert_ne, bool_decide_eq_false_2, Nat.add_0_r by congruence. apply Hok.
  - rewrite bool_decide_eq_false_2, Nat.add_0_r by done. apply Hok.
Qed.

Lemma decrement_count_ne (counts : gmap K nat) k k' :
  k <> k' -> decrement_count counts k !! k' = counts !! k'.
Proof.
  intros Hne. unfold decrement_count. destruct (counts !! k) as [n|]; [|done].
  destruct (_ =? 0)%nat; [by rewrite lookup_delete_ne|by rewrite lookup_insert_ne].
Qed.

Lemma counts_delete m counts i x :
  counts_ok m counts -> m !! i = Some x ->
  counts_ok (delete i m) (match f x with Some k => decrement_count counts k | None => counts end).
Proof.
  intros Hok Hi k. pose proof (occ_delete (has_key k) m i) as Ho. rewrite Hi in Ho. unfold has_key at 3 in Ho.
  cbn zeta. destruct (f x) as [k'|] eqn:Ef.
  - destruct (decide (k' = k)) as [->|Hne].
    + unfold decrement_count. rewrite (Hok k). cbn zeta. rewrite bool_decide_eq_true_2 in Ho by done.
      rewrite (proj2 (Nat.eqb_neq _ _)) by lia.
      replace (occ (has_key k) m - 1)%nat with (occ (has_key k) (delete i m)) by lia.
      destruct (Nat.eqb_spec (occ (has_key k) (delete i m)) 0) as [E0|E0].
      * by rewrite lookup_delete_eq.
      * by rewrite lookup_insert_eq.
    + rewrite bool_decide_eq_false_2, Nat.add_0_r in Ho by congruence. rewrite <- Ho.
      rewrite decrement_count_ne by done. apply Hok.
  - rewrite bool_decide_eq_false_2, Nat.add_0_r in Ho by done. rewrite <- Ho. apply Hok.
Qed.

Lemma occ_update m i x y k :
  m !! i = Some x -> f y = f x -> occ (has_key k) (<[i := y]> m) = occ (has_key k) m.
Proof.
  intros Hi Hf. rewrite occ_insert, (occ_delete _ m i), Hi. unfold has_key at 2 4. by rewrite Hf.
Qed.

Lemma counts_update m counts i x y :
  counts_ok m counts -> m !! i = Some x -> f y = f x -> counts_ok (<[i := y]> m) counts.
Proof. intros Hok Hi Hf k. rewrite (Hok k). cbn zeta. by erewrite occ_update. Qed.

Lemma occ_fmap m (g : E -> E) k :
  (forall e, f (g e) = f e) -> occ (has_key k) (g <$> m) = occ (has_key k) m.
Proof.
  intros Hg. unfold occ. rewrite map_filter_fmap, map_size_fmap. f_equal. apply map_filter_ext.
  intros i x _. cbn. unfold has_key. by rewrite Hg.
Qed.

Lemma counts_fmap m counts (g : E -> E) :
  counts_ok m counts -> (forall e, f (g e) = f e) -> counts_ok (g <$> m) counts.
Proof. intros Hok Hg k. rewrite (Hok k). cbn zeta. by rewrite occ_fmap. Qed.
End counts.

(** ** The room index *)

Lemma ascending_elem (X : gset str) x : x ∈ ascending X <-> x ∈ X.
Proof. unfold ascending. by rewrite merge_sort_Permutation, elem_of_elements. Qed.

Lemma ascending_length (X : gset str) : length (ascending X) = size X.
Proof. unfold ascending. by rewrite merge_sort_Permutation. Qed.

Lemma ascending_set (X : gset str) : list_to_set (ascending X) = X.
Proof. apply set_eq. intros x. by rewrite elem_of_list_to_set, ascending_elem. Qed.

Section rooms.
Context {Ip Sender Abort : Type} `{Countable Ip}.
Abbreviation entry := (@ConnectionEntry Ip Sender Abort).
Abbreviation index := (gmap (str * str) (gset Z)).

Definition members (ix : index) (key : str * str) : gset Z := default ∅ (ix !! key).
Definition no_empty_room (ix : index) : Prop := forall key, ix !! key <> Some ∅.

Lemma remove_membership_spec route' conn ix room key c :
  (no_empty_room ix -> no_empty_room (remove_membership route' conn ix room))
  /\ (c ∈ members (remove_membership route' conn ix room) key
      <-> c ∈ members ix key /\ ~ (c = conn /\ key = (route', room))).
Proof.
  unfold remove_membership, members, no_empty_room. destruct (ix !! (route', room)) as [ms|] eqn:E.
  - case_bool_decide as He; (split; [intros Hn key'|]); destruct (decide (key = (route', room))) as [->|Hne].
    all: try (destruct (decide (key' = (route', room))) as [->|Hne']).
    all: rewrite ?lookup_delete_eq, ?lookup_insert_eq, ?E; rewrite ?lookup_delete_ne, ?lookup_insert_ne by done.
    all: cbn; try done; try apply Hn; try set_solver; try congruence.
  - split; [done|]. destruct (decide (key = (route', room))) as [->|Hne]; [rewrite E; set_solver|set_solver].
Qed.

Lemma remove_room_memberships_spec ix route' conn rs key c :
  (no_empty_room ix -> no_empty_room (remove_room_memberships ix route' conn rs))
  /\ (c ∈ members (remove_room_memberships ix route' conn rs) key
      <-> c ∈ members ix key /\ ~ (c = conn /\ key.1 = route' /\ key.2 ∈ rs)).
Proof.
  unfold remove_room_memberships. revert ix. induction rs as [|room rs IH]; intros ix; cbn [foldl].
  - split; [done|]. set_solver.
  - destruct (IH (remove_membership route' conn ix room)) as [I1 I2].
    destruct (remove_membership_spec route' conn ix room key c) as [R1 R2].
    split; [auto|]. rewrite I2, R2. destruct key as [a b]; cbn. rewrite elem_of_cons. naive_solver.
Qed.

Lemma add_memberships_spec ix route' conn rs key c :
  let ix' := foldl (add_membership route' conn) ix rs in
  (no_empty_room ix -> no_empty_room ix')
  /\ (c ∈ members ix' key <-> c ∈ members ix key \/ (c = conn /\ key.1 = route' /\ key.2 ∈ rs)).
Proof.
  cbn zeta. revert ix. induction rs as [|room rs IH]; intros ix; cbn [foldl].
  - split; [done|]. set_solver.
  - destruct (IH (add_membership route' conn ix room)) as [I1 I2].
    assert (R1 : no_empty_room ix -> no_empty_room (add_membership route' conn ix room)).
    { intros Hn k. unfold add_membership. destruct (decide (k = (route', room))) as [->|Hne].
      - rewrite lookup_insert_eq. intros [= Hx]. set_solver.
      - rewrite lookup_insert_ne by done. apply Hn. }
    assert (R2 : c ∈ members (add_membership route' conn ix room) key
                 <-> c ∈ members ix key \/ (c = conn /\ key = (route', room))).
    { unfold add_membership, members. destruct (decide (key = (route', room))) as [->|Hne].
      - rewrite lookup_insert_eq. cbn. set_solver.
      - rewrite lookup_insert_ne by done. naive_solver. }
    split; [auto|]. rewrite I2, R2. destruct key as [a b]; cbn. rewrite elem_of_cons. naive_solver.
Qed.

(** Connection [c] is in the room [key]. *)
Definition in_room (m : gmap Z entry) (key : str * str) (c : Z) : Prop :=
  exists e, m !! c = Some e /\ route e = key.1 /\ key.2 ∈ entry_rooms e.

Record rooms_ok (m : gmap Z entry) (ix : index) : Prop := {
  rk_nonempty : no_empty_room ix;
  rk_members key c : c ∈ members ix key <-> in_room m key c
}.

Lemma rooms_ok_delete m ix c e :
  rooms_ok m ix -> m !! c = Some e ->
  rooms_ok (delete c m) (remove_room_memberships ix (route e) c (ascending (entry_rooms e))).
Proof.
  intros [Hn Hm] Hc. split.
  - by apply (remove_room_memberships_spec ix (route e) c (ascending (entry_rooms e)) (route e, []) c).
  - intros key c'. rewrite (proj2 (remove_room_memberships_spec _ _ _ _ _ _)), Hm, ascending_elem.
    unfold in_room. destruct (decide (c' = c)) as [->|Hne].
    + rewrite lookup_delete_eq, Hc. naive_solver.
    + rewrite lookup_delete_ne by done. naive_solver.
Qed.

(** An entry whose route stays and whose rooms change as the index does. *)
Lemma rooms_ok_update m ix ix' c e e' :
  rooms_ok m ix -> m !! c = Some e -> route e' = route e ->
  (no_empty_room ix -> no_empty_room ix') ->
  (forall key c', c' ∈ members ix' key <->
     if decide (c' = c /\ key.1 = route e) then key.2 ∈ entry_rooms e' else c' ∈ members ix key) ->
  rooms_ok (<[c := e']> m) ix'.
Proof.
  intros [Hn Hm] Hc Hr Hne Hix. split; [auto|]. intros key c'. rewrite Hix. unfold in_room.
  destruct (decide (c' = c)) as [->|Hd].
  - rewrite lookup_insert_eq. case_decide as Hk.
    + destruct Hk as [_ Hk]. split; [|by intros (e0 & [= <-] & _ & ?)].
      intros Hi. exists e'. by rewrite Hr.
    + rewrite Hm. unfold in_room. rewrite Hc. split.
      * intros (e0 & [= <-] & Hx & _). by destruct Hk.
      * intros (e0 & [= <-] & Hx & _). destruct Hk. by rewrite <- Hr.
  - rewrite lookup_insert_ne by done. rewrite decide_False by naive_solver. rewrite Hm. done.
Qed.

Lemma rooms_ok_same_update m ix c e e' :
  rooms_ok m ix -> m !! c = Some e -> route e' = route e -> entry_rooms e' = entry_rooms e ->
  rooms_ok (<[c := e']> m) ix.
Proof.
  intros Hok Hc Hr He. apply (rooms_ok_update m ix ix c e e' Hok Hc Hr); [done|].
  intros key c'. case_decide as Hk; [|done]. destruct Hk as [-> Hk].
  rewrite (rk_members _ _ Hok). unfold in_room. rewrite Hc, He. naive_solver.
Qed.

Lemma rooms_ok_fmap m ix (g : entry -> entry) :
  rooms_ok m ix -> (forall e, route (g e) = route e /\ entry_rooms (g e) = entry_rooms e) ->
  rooms_ok (g <$> m) ix.
Proof.
  intros [Hn Hm] Hg. split; [done|]. intros key c. rewrite Hm. unfold in_room. rewrite lookup_fmap.
  destruct (m !! c) as [e|]; cbn; [|naive_solver]. destruct (Hg e) as [H1 H2].
  split; intros (e' & [= <-] & Hr & Hi); eexists; (split; [done|]); rewrite ?H1, ?H2 in *; done.
Qed.
End rooms.

(** ** The registry invariant *)

Section registry.
Context {Ip Sender Abort : Type} `{Countable Ip}.
Context (max_rooms_per_connection max_room_name_bytes : nat).
(** The resolved configuration each route is admitted under. *)
Context (policy : str -> ResolvedWebSocketConfig).
Abbreviation entry := (@ConnectionEntry Ip Sender Abort).
Abbreviation runtime := (@Runtime Ip Sender Abort _ _).

Definition ip_of (e : entry) : option Ip := fst <$> remote_addr e.
Definition route_of (e : entry) : option str := Some (route e).

(** What the limits of a connection promise. *)
Definition entry_ok (e : entry) : Prop :=
  size (entry_rooms e) <= entry_max_rooms e /\ entry_max_rooms e <= max_rooms_per_connection
  /\ forall room, room ∈ entry_rooms e -> validate_room room (entry_max_room_name_bytes e) = Ok tt.

(** The part of the invariant over the connections and their indexes. *)
Record connections_ok (r : @Registry Ip Sender Abort _ _) : Prop := {
  co_routes : counts_ok route_of (connections r) (route_counts r);
  co_ips : counts_ok ip_of (connections r) (ip_counts r);
  co_rooms : rooms_ok (connections r) (rooms r);
  co_entries c e : connections r !! c = Some e -> entry_ok e
}.

Record window_ok (r : @Registry Ip Sender Abort _ _) : Prop := {
  wo_set : seen_publications r = list_to_set (seen_publication_order r);
  wo_nodup : NoDup (seen_publication_order r);
  wo_length : length (seen_publication_order r) <= MAX_SEEN_PUBLICATIONS
}.

Record limits_hold (m : gmap Z entry) : Prop := {
  lh_process n : (forall r, process_max_connections (policy r) = Some n) -> size m <= n;
  lh_route r n : route_max_connections (policy r) = Some n -> occ (has_key route_of r) m <= n;
  lh_ip n : (forall r, max_connections_per_ip (policy r) = Some n) ->
    forall ip, occ (has_key ip_of ip) m <= n
}.

Record runtime_ok (rt : runtime) : Prop := {
  rt_connections : connections_ok (registry rt);
  rt_window : window_ok (registry rt);
  rt_limits : limits_hold (connections (registry rt));
  rt_ids c e : connections (registry rt) !! c = Some e -> (0 < c < next_id rt)%Z;
  rt_next : (1 <= next_id rt < u64_modulus)%Z;
  rt_accepted : accepted_connections (counters (registry rt)) = (next_id rt - 1)%Z;
  rt_closed : (0 <= closed_connections (counters (registry rt)))%Z
    /\ (closed_connections (counters (registry rt)) + Z.of_nat (size (connections (registry rt)))
        = next_id rt - 1)%Z
}.

Lemma limits_update m c e e' :
  limits_hold m -> m !! c = Some e -> route e' = route e -> remote_addr e' = remote_addr e ->
  limits_hold (<[c := e']> m).
Proof.
  intros [Hp Hr Hi] Hc E1 E2. split.
  - intros n Hn. rewrite map_size_insert_Some by eauto. auto.
  - intros r n Hn. erewrite occ_update; [auto|done|]. unfold route_of. by rewrite E1.
  - intros n Hn ip. erewrite occ_update; [auto|done|]. unfold ip_of. by rewrite E2.
Qed.

Lemma limits_delete m c : limits_hold m -> limits_hold (delete c m).
Proof.
  assert (Ho : forall P, occ P (delete c m) <= occ P m).
  { intros P. rewrite (occ_delete P m c). lia. }
  intros [Hp Hr Hi]. split.
  - intros n Hn. specialize (Hp n Hn). rewrite map_size_delete. destruct (m !! c); cbn; lia.
  - intros r n Hn. specialize (Hr r n Hn). specialize (Ho (has_key route_of r)). lia.
  - intros n Hn ip. specialize (Hi n Hn ip). specialize (Ho (has_key ip_of ip)). lia.
Qed.

Lemma limits_fmap m (g : entry -> entry) :
  limits_hold m -> (forall e, route (g e) = route e /\ remote_addr (g e) = remote_addr e) ->
  limits_hold (g <$> m).
Proof.
  intros [Hp Hr Hi] Hg. split.
  - intros n Hn. rewrite map_size_fmap. auto.
  - intros r n Hn. rewrite occ_fmap; [auto|]. intros e. unfold route_of. by rewrite (proj1 (Hg e)).
  - intros n Hn ip. rewrite occ_fmap; [auto|]. intros e. unfold ip_of. by rewrite (proj2 (Hg e)).
Qed.

(** Replacing the entry of [c] (same route and address) together with the room
    index and the room counters. *)
Lemma update_ok (rt : runtime) c e e' ix cs :
  runtime_ok rt -> connections (registry rt) !! c = Some e ->
  route e' = route e -> remote_addr e' = remote_addr e -> entry_ok e' ->
  rooms_ok (<[c := e']> (connections (registry rt))) ix ->
  accepted_connections cs = accepted_connections (counters (registry rt)) ->
  closed_connections cs = closed_connections (counters (registry rt)) ->
  runtime_ok (set_registry rt (set_counters (set_rooms (set_connections (registry rt)
    (<[c := e']> (connections (registry rt)))) ix) cs)).
Proof.
  intros [[R I X E] [] L D N A C] Hc E1 E2 He Hix Ha Hl. split; cbn; try done.
  - split; cbn; [| |done|].
    + eapply counts_update; [done|done|]. unfold route_of. by rewrite E1.
    + eapply counts_update; [done|done|]. unfold ip_of. by rewrite E2.
    + intros c' e0. rewrite lookup_insert. case_decide; [by intros [= <-]|apply E].
  - by eapply limits_update.
  - intros c' e0. rewrite lookup_insert. case_decide; [subst; intros _; by eapply D|apply D].
  - by rewrite Ha.
  - rewrite Hl, map_size_insert_Some by eauto. done.
Qed.

(** The same when the rooms do not change. *)
Lemma update_same_rooms (rt : runtime) c e e' :
  runtime_ok rt -> connections (registry rt) !! c = Some e ->
  route e' = route e -> remote_addr e' = remote_addr e -> entry_rooms e' = entry_rooms e ->
  entry_max_rooms e' = entry_max_rooms e ->
  entry_max_room_name_bytes e' = entry_max_room_name_bytes e ->
  runtime_ok (set_registry rt (set_connections (registry rt) (<[c := e']> (connections (registry rt))))).
Proof.
  intros Hok Hc E1 E2 E3 E4 E5.
  apply (update_ok rt c e e' (rooms (registry rt)) (counters (registry rt)) Hok Hc E1 E2); 
    [|apply (rooms_ok_same_update _ _ c e e' (co_rooms _ (rt_connections _ Hok)) Hc E1 E3)|done|done].
  pose proof (co_entries _ (rt_connections _ Hok) c e Hc) as He. unfold entry_ok in *. by rewrite E3, E4, E5.
Qed.

Lemma alter_ok (rt : runtime) c (g : entry -> entry) :
  runtime_ok rt ->
  (forall e, route (g e) = route e /\ remote_addr (g e) = remote_addr e /\ entry_rooms (g e) = entry_rooms e
     /\ entry_max_rooms (g e) = entry_max_rooms e
     /\ entry_max_room_name_bytes (g e) = entry_max_room_name_bytes e) ->
  runtime_ok (alter_entry rt c g).
Proof.
  intros Hok Hg. unfold alter_entry. destruct (connections (registry rt) !! c) as [e|] eqn:Hc.
  - assert (alter g c (connections (registry rt)) = <[c := g e]> (connections (registry rt))) as ->.
    { apply map_eq. intros c'. rewrite lookup_alter, lookup_insert. case_decide; [subst; by rewrite Hc|done]. }
    destruct (Hg e) as (? & ? & ? & ? & ?). by eapply update_same_rooms.
  - assert (alter g c (connections (registry rt)) = connections (registry rt)) as ->.
    { apply map_eq. intros c'. rewrite lookup_alter. case_decide; [subst; by rewrite Hc|done]. }
    destruct Hok as [[] [] [] ? ? ? ?]. by split; [split|split|split| | | |].
Qed.

(** Only the counters of refused admissions, rooms, traffic and the broker, the
    broker flag or the publication counter change. *)
Lemma same_registry_ok (rt rt' : runtime) :
  runtime_ok rt -> next_id rt' = next_id rt ->
  let r := registry rt in let r' := registry rt' in
  connections r' = connections r -> route_counts r' = route_counts r -> ip_counts r' = ip_counts r ->
  rooms r' = rooms r -> window_ok r' ->
  accepted_connections (counters r') = accepted_connections (counters r) ->
  closed_connections (counters r') = closed_connections (counters r) -> runtime_ok rt'.
Proof.
  intros [[R I X E] W L D N A C] En r r' E1 E2 E3 E4 W' Ea Ec. subst r r'.
  split; rewrite ?E1, ?En, ?Ea, ?Ec; try done. split; by rewrite ?E1, ?E2, ?E3, ?E4.
Qed.

Lemma at_limit_false limit n : at_limit limit n = false -> forall l, limit = Some l -> n < l.
Proof. intros Hf l ->. cbn in Hf. bsplit. lia. Qed.

Lemma admit_ok (rt : runtime) route' remote protocol' now :
  runtime_ok rt -> (next_id rt < u64_modulus - 1)%Z ->
  runtime_ok (admit_connection max_rooms_per_connection max_room_name_bytes rt route' remote protocol'
                (policy route') now).1.1.
Proof.
  intros Hok Hnext. unfold admit_connection.
  destruct (rejection (registry rt) route' (fst <$> remote) (policy route')) eqn:Erej; cbn [fst].
  { apply (same_registry_ok rt); try done. destruct (rt_window _ Hok). by split. }
  destruct Hok as [[R I X E] W [L1 L2 L3] D N A C].
  assert (Hfresh : connections (registry rt) !! next_id rt = None).
  { destruct (connections _ !! next_id rt) eqn:Hf; [|done]. specialize (D _ _ Hf). lia. }
  set (e := new_entry _ _ route' remote protocol' now (policy route')).
  assert (Hsucc : u64_succ (next_id rt) = (next_id rt + 1)%Z).
  { unfold u64_succ. apply Z.mod_small. lia. }
  assert (Hacc : u64_succ (accepted_connections (counters (registry rt))) = (next_id rt)%Z).
  { unfold u64_succ. rewrite A. rewrite Z.mod_small; lia. }
  unfold rejection in Erej. destruct (negb _); [done|].
  destruct (at_limit (process_max_connections _) _) eqn:P1; [done|].
  destruct (at_limit (route_max_connections _) _) eqn:P2; [done|].
  destruct (match fst <$> remote with Some _ => _ | None => false end) eqn:P3; [done|]. clear Erej.
  rewrite (counts_of route_of _ _ _ R) in P2.
  pose proof (at_limit_false _ _ P1) as Q1. pose proof (at_limit_false _ _ P2) as Q2.
  split; cbn [registry connections route_counts ip_counts rooms next_id counters].
  - split; cbn [connections route_counts ip_counts rooms].
    + apply (counts_insert route_of _ _ _ e R Hfresh).
    + apply (counts_insert ip_of _ _ _ e I Hfresh).
    + split; [apply X|]. intros key c. rewrite (rk_members _ _ X). unfold in_room.
      rewrite lookup_insert. case_decide as Hc; [|done]. subst c. rewrite Hfresh. split; [naive_solver|].
      intros (e0 & [= <-] & _ & Hin). cbn in Hin. set_solver.
    + intros c e0. rewrite lookup_insert. case_decide; [|apply E]. intros [= <-]. unfold entry_ok. cbn.
      rewrite size_empty. split_and!; [lia|lia|set_solver].
  - destruct W. by split.
  - split.
    + intros n Hn. rewrite map_size_insert_None by done. specialize (Q1 n (Hn route')). lia.
    + intros r n Hn. rewrite occ_insert, delete_id by done. unfold has_key at 2.
      change (route_of e) with (Some route').
      case_bool_decide as Hr; [|rewrite Nat.add_0_r; auto]. injection Hr as <-. specialize (Q2 n Hn). lia.
    + intros n Hn ip. rewrite occ_insert, delete_id by done. unfold has_key at 2.
      change (ip_of e) with (fst <$> remote).
      case_bool_decide as Hr; [|rewrite Nat.add_0_r; auto]. rewrite Hr in P3.
      rewrite (counts_of ip_of _ _ _ I) in P3.
      pose proof (at_limit_false _ _ P3 n (Hn route')). lia.
  - intros c e0. rewrite lookup_insert, Hsucc. case_decide; [subst; intros _; lia|].
    intros Hc. specialize (D c e0 Hc). lia.
  - rewrite Hsucc. lia.
  - cbn. rewrite Hsucc, Hacc. lia.
  - cbn. rewrite Hsucc, map_size_insert_None by done. unfold id in *. lia.
Qed.

Lemma release_ok (rt : runtime) c : runtime_ok rt -> runtime_ok (release rt c).1.1.
Proof.
  intros Hok. unfold release. destruct (connections (registry rt) !! c) as [e|] eqn:Hc; cbn [fst]; [|done].
  destruct Hok as [[R I X E] W L D N A C].
  pose proof (map_size_delete c (connections (registry rt))) as Hsz. rewrite Hc in Hsz. cbn in Hsz.
  assert (size (connections (registry rt)) <> 0) as Hne.
  { intros E0. apply map_size_empty_inv in E0. by rewrite E0, lookup_empty in Hc. }
  split; cbn [registry connections route_counts ip_counts rooms next_id counters].
  - split; cbn [connections route_counts ip_counts rooms].
    + apply (counts_delete route_of _ _ _ e R Hc).
    + apply (counts_delete ip_of _ _ _ e I Hc).
    + by apply rooms_ok_delete.
    + intros c' e0 Hc'. apply lookup_delete_Some in Hc' as [_ Hc']. by eapply E.
  - destruct W. by split.
  - by apply limits_delete.
  - intros c' e0 Hc'. apply lookup_delete_Some in Hc' as [_ Hc']. by eapply D.
  - done.
  - done.
  - cbn. unfold u64_succ, id. rewrite Z.mod_small by lia. lia.
Qed.

Lemma join_ok (rt : runtime) c rs : runtime_ok rt -> runtime_ok (join_rooms rt c rs).1.1.
Proof.
  intros Hok. unfold join_rooms. destruct (connections (registry rt) !! c) as [e|] eqn:Hc; cbn [fst]; [|done].
  set (req := list_to_set rs : gset str).
  destruct (try_map _ (ascending req)) as [us|] eqn:Hv; cbn [fst]; [|done].
  destruct (_ <? _)%nat eqn:Hl; cbn [fst]; [done|]. bsplit. rewrite ascending_length in Hl.
  pose proof (co_entries _ (rt_connections _ Hok) c e Hc) as (He1 & He2 & He3).
  pose proof (co_rooms _ (rt_connections _ Hok)) as HX.
  apply (update_ok rt c e); try done.
  - rewrite ascending_set. unfold entry_ok.
    cbn [entry_rooms set_entry_rooms entry_max_rooms entry_max_room_name_bytes]. split_and!; [|done|].
    + rewrite size_union by set_solver. lia.
    + intros room [Hr|Hr]%elem_of_union; [by apply He3|]. apply try_map_Ok in Hv.
      apply elem_of_difference in Hr as [Hr _]. apply ascending_elem, list_elem_of_lookup in Hr as [i Hi].
      destruct (Forall2_lookup_l _ _ _ _ _ Hv Hi) as ([] & _ & Hx). done.
  - apply (rooms_ok_update _ (rooms (registry rt)) _ c e); try done.
    + by apply (add_memberships_spec (rooms (registry rt)) (route e) c _ (route e, []) c).
    + intros key c'. rewrite (proj2 (add_memberships_spec _ _ _ _ _ _)), ascending_elem.
      case_decide as Hd.
      * destruct Hd as [-> Hd]. rewrite (rk_members _ _ HX). unfold in_room. rewrite Hc, ascending_set.
        cbn. rewrite elem_of_union, elem_of_difference. split; [naive_solver|].
        intros [?|?]; [left; by exists e|]. destruct (decide (key.2 ∈ entry_rooms e)); [left; by exists e|auto].
      * naive_solver.
Qed.

Lemma drop_rooms_ok (rt : runtime) c e rs :
  runtime_ok rt -> connections (registry rt) !! c = Some e ->
  runtime_ok (drop_rooms rt c e rs).1.1.
Proof.
  intros Hok Hc. unfold drop_rooms. cbn [fst].
  pose proof (co_entries _ (rt_connections _ Hok) c e Hc) as (He1 & He2 & He3).
  pose proof (co_rooms _ (rt_connections _ Hok)) as HX.
  apply (update_ok rt c e); try done.
  - unfold entry_ok. cbn. split_and!; [|done|].
    + etransitivity; [|exact He1]. apply subseteq_size. set_solver.
    + intros room Hr. apply He3. set_solver.
  - apply (rooms_ok_update _ (rooms (registry rt)) _ c e); try done.
    + by apply (remove_room_memberships_spec (rooms (registry rt)) (route e) c rs (route e, []) c).
    + intros key c'. rewrite (proj2 (remove_room_memberships_spec _ _ _ _ _ _)).
      case_decide as Hd.
      * destruct Hd as [-> Hd]. rewrite (rk_members _ _ HX). unfold in_room. rewrite Hc. cbn. rewrite elem_of_difference, elem_of_list_to_set.
        split; [naive_solver|]. intros [? ?]. split; [by eexists|naive_solver].
      * naive_solver.
Qed.

Lemma fmap_ok (rt : runtime) (g : entry -> entry) b :
  runtime_ok rt ->
  (forall e, route (g e) = route e /\ remote_addr (g e) = remote_addr e /\ entry_rooms (g e) = entry_rooms e
     /\ entry_max_rooms (g e) = entry_max_rooms e
     /\ entry_max_room_name_bytes (g e) = entry_max_room_name_bytes e) ->
  let r := registry rt in
  runtime_ok (set_registry rt
    (mkRegistry b (g <$> connections r) (route_counts r) (ip_counts r) (rooms r)
       (broker_connected r) (seen_publications r) (seen_publication_order r) (counters r))).
Proof.
  intros [[R I X E] [] L D N A C] Hg r. subst r. split; cbn; try done.
  - split; cbn.
    + apply counts_fmap; [done|]. intros e. unfold route_of. by rewrite (proj1 (Hg e)).
    + apply counts_fmap; [done|]. intros e. unfold ip_of. by rewrite (proj1 (proj2 (Hg e))).
    + apply rooms_ok_fmap; [done|]. intros e. destruct (Hg e) as (? & ? & ? & _). done.
    + intros c e. rewrite lookup_fmap. intros (e0 & He & ->)%fmap_Some.
      destruct (Hg e0) as (_ & _ & E3 & E4 & E5). specialize (E c e0 He). unfold entry_ok in *.
      by rewrite E3, E4, E5.
  - apply limits_fmap; [done|]. intros e. destruct (Hg e) as (? & ? & _). done.
  - intros c e. rewrite lookup_fmap. intros (e0 & He & _)%fmap_Some. by eapply D.
  - by rewrite map_size_fmap.
Qed.

Lemma window_mark (r : @Registry Ip Sender Abort _ _) key :
  window_ok r -> window_ok (mark_publication_seen r key).1.
Proof.
  intros [Hs Hn Hl]. unfold mark_publication_seen. case_bool_decide as Hk; [by split|].
  rewrite Hs, elem_of_list_to_set in Hk.
  assert (Hn' : NoDup (seen_publication_order r ++ [key])).
  { apply NoDup_app. split; [done|]. split; [|apply NoDup_singleton]. set_solver. }
  destruct (MAX_SEEN_PUBLICATIONS <? _)%nat eqn:Hlen; bsplit.
  - destruct (seen_publication_order r ++ [key]) as [|expired order] eqn:Eo; [by destruct (seen_publication_order r)|].
    apply NoDup_cons in Hn' as [Hx Hn']. apply (f_equal length) in Eo as El.
    rewrite length_app in El. cbn in El. split; cbn [fst seen_publications seen_publication_order]; [|done|lia].
    assert ({[key]} ∪ seen_publications r = list_to_set (expired :: order)) as ->.
    { rewrite Hs, <- Eo, list_to_set_app_L. cbn. set_solver. }
    cbn. set_solver.
  - split; cbn [fst seen_publications seen_publication_order]; [|done|done].
    rewrite Hs, list_to_set_app_L. cbn. set_solver.
Qed.

Lemma mark_ok (rt : runtime) key :
  runtime_ok rt -> runtime_ok (set_registry rt (mark_publication_seen (registry rt) key).1).
Proof.
  intros Hok. assert (Hw : window_ok (mark_publication_seen (registry rt) key).1).
  { apply window_mark, Hok. }
  unfold mark_publication_seen in *. case_bool_decide.
  - apply (same_registry_ok rt); done.
  - match type of Hw with context [let '(_, _) := ?x in _] => destruct x as [seen order] end.
    apply (same_registry_ok rt); done.
Qed.

(** ** Reachable runtimes *)

(** The registry states of a process: any sequence of critical sections, with
    ids not exhausted and every admission under the policy of its route. *)
Inductive step : runtime -> runtime -> Prop :=
| step_admit rt route' remote protocol' now :
    (next_id rt < u64_modulus - 1)%Z ->
    step rt (admit_connection max_rooms_per_connection max_room_name_bytes rt route' remote protocol'
                 (policy route') now).1.1
| step_release rt c : step rt (release rt c).1.1
| step_join rt c rs : step rt (join_rooms rt c rs).1.1
| step_leave rt c rs : step rt (leave rt c rs).1.1
| step_leave_all rt c : step rt (leave_all rt c).1.1
| step_driver rt c sender abort : step rt (register_driver rt c sender abort).1
| step_upgrade rt c abort : step rt (register_upgrade_task rt c abort).1
| step_opened rt c : step rt (record_opened rt c).1
| step_closing rt c : step rt (record_closing rt c)
| step_close rt c : step rt (close_mark rt c).1
| step_shutdown rt : step rt (begin_shutdown rt)
| step_abort rt : step rt (abort_remaining rt).1.1
| step_publication rt : step rt (next_publication rt).1
| step_seen rt key : step rt (set_registry rt (mark_publication_seen (registry rt) key).1)
| step_connected rt node : step rt (set_registry rt (set_broker_connected node (registry rt)).1)
| step_disconnected rt node reason :
    step rt (set_registry rt (set_broker_disconnected node (registry rt) reason).1)
| step_message rt c outbound bytes :
    step rt (set_registry rt (record_message (registry rt) c outbound bytes).1)
| step_saturated rt c outbound :
    step rt (set_registry rt (record_saturated_send (registry rt) c outbound).1)
| step_heartbeat rt c : step rt (set_registry rt (record_heartbeat_timeout (registry rt) c).1)
| step_broadcast rt scope n report :
    step rt (set_registry rt (record_broadcast (registry rt) scope n report).1)
| step_published rt : step rt (set_registry rt (record_broker_publication (registry rt)))
| step_broker_error rt node error :
    step rt (set_registry rt (record_broker_error node (registry rt) error).1).

Definition reachable (rt : runtime) : Prop := rtc step Runtime_new rt.

Lemma runtime_ok_new : runtime_ok Runtime_new.
Proof.
  split; cbn.
  - split; cbn.
    + intros k. cbn. by rewrite lookup_empty.
    + intros k. cbn. by rewrite lookup_empty.
    + split; [intros key; by rewrite lookup_empty|]. intros key c. unfold members, in_room. cbn.
      rewrite lookup_empty. split; [set_solver|]. intros (e & He & _). by rewrite lookup_empty in He.
    + intros c e. by rewrite lookup_empty.
  - split; cbn; [done|constructor|lia].
  - split; intros; unfold occ; rewrite ?map_filter_empty, ?map_size_empty; lia.
  - intros c e. by rewrite lookup_empty.
  - done.
  - done.
  - done.
Qed.

Lemma counters_ok (rt : runtime) cs :
  runtime_ok rt ->
  accepted_connections cs = accepted_connections (counters (registry rt)) ->
  closed_connections cs = closed_connections (counters (registry rt)) ->
  runtime_ok (set_registry rt (set_counters (registry rt) cs)).
Proof. intros Hok Ea Ec. apply (same_registry_ok rt); try done. destruct (rt_window _ Hok). by split. Qed.

Lemma step_ok rt rt' : step rt rt' -> runtime_ok rt -> runtime_ok rt'.
Proof.
  intros Hstep IH.
  destruct Hstep as [rt ? ? ? ? Hn|rt c|rt c rs|rt c rs|rt c|rt c ? ?|rt c ?|rt c|rt c|rt c|rt|rt|rt|rt key
                    |rt ?|rt ? ?|rt ? outbound ?|rt ? ?|rt ?|rt ? ? ?|rt|rt ? ?].
  - by apply admit_ok.
  - by apply release_ok.
  - by apply join_ok.
  - unfold leave. destruct (connections (registry rt) !! c) eqn:Hc; [by apply drop_rooms_ok|done].
  - unfold leave_all. destruct (connections (registry rt) !! c) eqn:Hc; [by apply drop_rooms_ok|done].
  - unfold register_driver. destruct (connections (registry rt) !! c) eqn:Hc; cbn; [|done].
    by eapply update_same_rooms.
  - unfold register_upgrade_task. destruct (connections (registry rt) !! c) as [e|] eqn:Hc; cbn; [|done].
    destruct (driver_abort e); cbn; [done|]. by eapply update_same_rooms.
  - by apply alter_ok.
  - by apply alter_ok.
  - unfold close_mark. destruct (connections (registry rt) !! c); cbn; [by apply alter_ok|done].
  - by apply fmap_ok.
  - apply fmap_ok; [done|]. intros e. by destruct (must_abort e).
  - apply (same_registry_ok rt); try done. apply IH.
  - by apply mark_ok.
  - apply (same_registry_ok rt); try done. destruct (rt_window _ IH). by split.
  - apply (same_registry_ok rt); try done. destruct (rt_window _ IH). by split.
  - apply counters_ok; [done| |]; by destruct outbound.
  - by apply counters_ok.
  - by apply counters_ok.
  - by apply counters_ok.
  - by apply counters_ok.
  - by apply counters_ok.
Qed.

Lemma registry_reachable_ok rt : reachable rt -> runtime_ok rt.
Proof.
  intros Hr. assert (Hgo : forall a b, rtc step a b -> runtime_ok a -> runtime_ok b).
  { induction 1 as [|a b c Hs _ IH]; [done|]. intros Ha. apply IH. by eapply step_ok. }
  eapply Hgo; [exact Hr|apply runtime_ok_new].
Qed.

(** *** Shutdown *)

Lemma step_accepting rt rt' :
  step rt rt' -> accepting (registry rt) = false ->
  accepting (registry rt') = false /\ dom (connections (registry rt')) ⊆ dom (connections (registry rt)).
Proof.
  intros Hstep Ha.
  assert (Hins : forall c (e e' : entry) (m : gmap Z entry), m !! c = Some e -> dom (<[c := e']> m) ⊆ dom m).
  { intros c e e' m Hc. rewrite dom_insert_L. apply elem_of_dom_2 in Hc. set_solver. }
  destruct Hstep as [rt ? ? ? ? Hn|rt c|rt c rs|rt c rs|rt c|rt c ? ?|rt c ?|rt c|rt c|rt c|rt|rt|rt|rt key
                    |rt ?|rt ? ?|rt ? ? ?|rt ? ?|rt ?|rt ? ? ?|rt|rt ? ?]; try done.
  - unfold admit_connection, rejection. rewrite Ha. cbn. done.
  - unfold release. destruct (connections (registry rt) !! c); cbn; [|done]. split; [done|set_solver].
  - unfold join_rooms. destruct (connections (registry rt) !! c) eqn:Hc; cbn; [|done].
    destruct (try_map _ _); cbn; [|done].
    match goal with |- context [if ?b then _ else _] => destruct b end; cbn; [done|].
    split; [done|by eapply Hins].
  - unfold leave. destruct (connections (registry rt) !! c) eqn:Hc; cbn; [|done]. split; [done|by eapply Hins].
  - unfold leave_all. destruct (connections (registry rt) !! c) eqn:Hc; cbn; [|done].
    split; [done|by eapply Hins].
  - unfold register_driver. destruct (connections (registry rt) !! c) eqn:Hc; cbn; [|done].
    split; [done|by eapply Hins].
  - unfold register_upgrade_task. destruct (connections (registry rt) !! c) as [e|] eqn:Hc; cbn; [|done].
    destruct (driver_abort e); cbn; [done|]. split; [done|by eapply Hins].
  - cbn. by rewrite dom_alter_L.
  - cbn. by rewrite dom_alter_L.
  - unfold close_mark. destruct (connections (registry rt) !! c); cbn; [|done]. by rewrite dom_alter_L.
  - cbn. by rewrite dom_fmap_L.
  - cbn. by rewrite dom_fmap_L.
  - unfold mark_publication_seen. case_bool_decide; [done|].
    match goal with |- context [let '(_, _) := ?x in _] => destruct x as [seen order] end. done.
Qed.

(** ** Theorems *)

(** C17. In every reachable registry the derived indexes agree with the live
    connections: the per-route and per-address counts are the numbers of
    connections, a room exists iff it has a member and its members are exactly
    the connections of its route that joined it, every connection is within its
    room limits, ids are unique and below the next one, and the connections
    accepted are those closed plus those alive. *)
Theorem registry_invariant rt :
  reachable rt ->
  let r := registry rt in
  (forall k, count_of (route_counts r) k = occ (has_key route_of k) (connections r))
  /\ (forall ip, count_of (ip_counts r) ip = occ (has_key ip_of ip) (connections r))
  /\ (forall key, rooms r !! key <> Some ∅)
  /\ (forall key c, c ∈ default ∅ (rooms r !! key) <->
        exists e, connections r !! c = Some e /\ route e = key.1 /\ key.2 ∈ entry_rooms e)
  /\ (forall c e, connections r !! c = Some e ->
        (0 < c < next_id rt)%Z /\ size (entry_rooms e) <= entry_max_rooms e
        /\ entry_max_rooms e <= max_rooms_per_connection)
  /\ (accepted_connections (counters r)
      = closed_connections (counters r) + Z.of_nat (size (connections r)))%Z.
Proof.
  intros [[R I X E] W L D N A C]%registry_reachable_ok. cbn zeta. split_and!.
  - intros k. by apply counts_of.
  - intros ip. by apply counts_of.
  - apply X.
  - intros key c. apply (rk_members _ _ X).
  - intros c e Hc. destruct (E c e Hc) as (H1 & H2 & _). split; [by eapply D|done].
  - lia.
Qed.

(** Admission limits hold at all times: when every route is admitted under
    the same process (or per-address) limit no more connections than it are
    ever alive (from one address), and no route exceeds its own limit, whatever
    the interleaving of admissions and releases. *)
Theorem admission_limits rt :
  reachable rt ->
  let m := connections (registry rt) in
  (forall n, (forall r, process_max_connections (policy r) = Some n) -> size m <= n)
  /\ (forall r n, route_max_connections (policy r) = Some n -> occ (has_key route_of r) m <= n)
  /\ (forall n, (forall r, max_connections_per_ip (policy r) = Some n) ->
        forall ip, occ (has_key ip_of ip) m <= n).
Proof. intros [_ _ [L1 L2 L3] _ _ _ _]%registry_reachable_ok. done. Qed.

(** Shutdown is final: after [begin_shutdown], whatever else happens, no
    connection is added, every admission is refused with [Shutdown], and the
    live connections are among those alive when it began. *)
Theorem shutdown_is_final rt rt' route' remote protocol' config now :
  rtc step (begin_shutdown rt) rt' ->
  dom (connections (registry rt')) ⊆ dom (connections (registry rt))
  /\ (admit_connection max_rooms_per_connection max_room_name_bytes rt' route' remote protocol' config now).1.2
     = Err Shutdown.
Proof.
  intros Hs.
  assert (Hgo : accepting (registry rt') = false
    /\ dom (connections (registry rt')) ⊆ dom (connections (registry (begin_shutdown rt)))).
  { remember (begin_shutdown rt) as a eqn:Ea. assert (Ha : accepting (registry a) = false) by (by subst).
    clear Ea. induction Hs as [a|a b c Hab _ IH]; [done|].
    destruct (step_accepting _ _ Hab Ha) as [Hb Hd]. destruct (IH Hb) as [Hc Hd']. split; [done|set_solver]. }
  destruct Hgo as [Ha Hd]. cbn in Hd. rewrite dom_fmap_L in Hd. split; [done|].
  unfold admit_connection, rejection. by rewrite Ha.
Qed.

Lemma ascending_ids_spec (X : gset Z) :
  StronglySorted Z.lt (ascending_ids X) /\ forall c, c ∈ ascending_ids X <-> c ∈ X.
Proof.
  unfold ascending_ids. split.
  - assert (Hs : StronglySorted Z.le (merge_sort Z.le (elements X))) by (apply StronglySorted_merge_sort; apply _).
    assert (Hn : NoDup (merge_sort Z.le (elements X))).
    { rewrite merge_sort_Permutation. apply NoDup_elements. }
    induction Hs as [|x l Hs IH Hf]; [constructor|]. apply NoDup_cons in Hn as [Hx Hn].
    constructor; [auto|]. rewrite Forall_forall in *. intros y Hy. specialize (Hf y Hy).
    assert (x <> y) by (by intros ->). lia.
  - intros c. by rewrite merge_sort_Permutation, elem_of_elements.
Qed.

Lemma recipients_spec rt scope targets all_in_scope excluded :
  reachable rt ->
  let recipients := select_broadcast_recipients rt scope targets all_in_scope excluded in
  StronglySorted Z.lt (map fst recipients)
  /\ forall c s, (c, s) ∈ recipients <->
       c ∉ excluded /\ exists e, connections (registry rt) !! c = Some e /\ s = internal_sender e
         /\ if all_in_scope : bool then in_scope scope e = true
            else exists route' room, scope = Some route' /\ route e = route'
                   /\ room ∈ targets /\ room ∈ entry_rooms e.
Proof.
  intros Hok%registry_reachable_ok. pose proof (co_rooms _ (rt_connections _ Hok)) as HX.
  set (r := registry rt) in *.
  assert (Hgen : forall (ids : gset Z) (P : entry -> Prop),
    (forall c, c ∈ ids <-> exists e, connections r !! c = Some e /\ P e) ->
    let l := map (fun conn => (conn, connections r !! conn ≫= internal_sender)) (ascending_ids (ids ∖ excluded)) in
    StronglySorted Z.lt (map fst l)
    /\ forall c s, (c, s) ∈ l <-> c ∉ excluded /\ exists e, connections r !! c = Some e
         /\ s = internal_sender e /\ P e).
  { intros ids P Hids. destruct (ascending_ids_spec (ids ∖ excluded)) as [Hs He]. cbn zeta. split.
    - rewrite List.map_map. cbn. by rewrite List.map_id.
    - intros c s. rewrite list_elem_of_fmap. setoid_rewrite He. split.
      + intros (c' & [= <- ->] & Hc). apply elem_of_difference in Hc as [Hc Hx].
        apply Hids in Hc as (e & Hc & HP). split; [done|]. exists e. by rewrite Hc.
      + intros (Hx & e & Hc & -> & HP). exists c. rewrite Hc. split; [done|].
        apply elem_of_difference. split; [|done]. apply Hids. eauto. }
  unfold select_broadcast_recipients. fold r. destruct all_in_scope.
  - apply Hgen. intros c. rewrite elem_of_dom. unfold is_Some. setoid_rewrite map_lookup_filter_Some. done.
  - destruct scope as [route'|].
    + apply (Hgen _ (fun e => exists route'' room, Some route' = Some route'' /\ route e = route''
                   /\ room ∈ targets /\ room ∈ entry_rooms e)). intros c. rewrite elem_of_union_list.
      setoid_rewrite list_elem_of_omap. split.
      * intros (ms & (room & Hr & Hm) & Hc).
        assert (c ∈ members (rooms r) (route', room)) as Hin by (unfold members; by rewrite Hm).
        apply (rk_members _ _ HX) in Hin as (e & He & E1 & E2). exists e. split; [done|].
        exists route', room. done.
      * intros (e & He & r2 & room & [= <-] & E1 & Ht & Hroom).
        assert (c ∈ members (rooms r) (route', room)) as Hin.
        { apply (rk_members _ _ HX). exists e. done. }
        unfold members in Hin. destruct (rooms r !! (route', room)) as [ms|] eqn:Em; cbn in Hin; [|set_solver].
        exists ms. split; [by exists room|done].
    + cbn. split; [constructor|]. intros c s. split; [by intros ?%elem_of_nil|].
      intros (_ & e & _ & _ & r2 & room & ? & _). done.
Qed.

(** A broadcast reaches exactly its audience, each recipient once and in id
    order: with rooms, the live connections of the route that joined one of
    them; without, the live connections of the scope; minus the excluded ones;
    every recipient comes with its own driver's sender. *)
Theorem broadcast_recipients_exact rt scope targets all_in_scope excluded :
  reachable rt ->
  let recipients := select_broadcast_recipients rt scope targets all_in_scope excluded in
  StronglySorted Z.lt (map fst recipients)
  /\ forall c s, (c, s) ∈ recipients <->
       c ∉ excluded /\ exists e, connections (registry rt) !! c = Some e /\ s = internal_sender e
         /\ if all_in_scope : bool then in_scope scope e = true
            else exists route' room, scope = Some route' /\ route e = route'
                   /\ room ∈ targets /\ room ∈ entry_rooms e.
Proof. apply recipients_spec. Qed.

(** *** The publication window *)

(** The last [MAX_SEEN_PUBLICATIONS] keys of a history. *)
Definition recent (hist : list (Z * Z)) : list (Z * Z) :=
  drop (length hist - MAX_SEEN_PUBLICATIONS) hist.

(** Reference: a publication is accepted unless it is among the recently
    accepted ones. *)
Fixpoint dedup_window (keys hist : list (Z * Z)) : list bool :=
  match keys with
  | [] => []
  | key :: keys =>
      if bool_decide (key ∈ recent hist) then false :: dedup_window keys hist
      else true :: dedup_window keys (hist ++ [key])
  end.

Fixpoint mark_run (r : @Registry Ip Sender Abort _ _) (keys : list (Z * Z)) : list bool :=
  match keys with
  | [] => []
  | key :: keys => let '(r, fresh) := mark_publication_seen r key in fresh :: mark_run r keys
  end.

Lemma mark_run_dedup keys :
  forall r hist, window_ok r -> seen_publication_order r = recent hist ->
    mark_run r keys = dedup_window keys hist.
Proof.
  induction keys as [|key keys IH]; intros r hist Hw Hr; [done|]. cbn [mark_run dedup_window].
  pose proof (window_mark r key Hw) as Hw'. destruct Hw as [Hs _ Hl].
  unfold mark_publication_seen in *. rewrite <- Hr.
  rewrite (bool_decide_ext (key ∈ seen_publications r) (key ∈ seen_publication_order r)) in *
    by (rewrite Hs; by rewrite elem_of_list_to_set).
  case_bool_decide as Hk; [f_equal; apply IH; [done|done]|].
  assert (Hrec : recent (hist ++ [key])
    = if (MAX_SEEN_PUBLICATIONS <? length (seen_publication_order r ++ [key]))%nat
      then tail (seen_publication_order r ++ [key]) else seen_publication_order r ++ [key]).
  { rewrite Hr in *. unfold recent in *. rewrite !length_app, length_drop in *. cbn [length].
    destruct (Nat.ltb_spec MAX_SEEN_PUBLICATIONS (length hist - (length hist - MAX_SEEN_PUBLICATIONS) + 1)) as [Hlt|Hge].
    - change (drop (length hist + 1 - MAX_SEEN_PUBLICATIONS) (hist ++ [key])
        = drop 1 (drop (length hist - MAX_SEEN_PUBLICATIONS) hist ++ [key])).
      assert (1 <= MAX_SEEN_PUBLICATIONS)%nat by (unfold MAX_SEEN_PUBLICATIONS; lia).
      rewrite (drop_app_le _ _ 1) by (rewrite length_drop; lia).
      rewrite drop_drop, drop_app_le by lia. f_equal. f_equal. lia.
    - rewrite drop_app_le by lia. f_equal. f_equal. lia. }
  destruct (MAX_SEEN_PUBLICATIONS <? length (seen_publication_order r ++ [key]))%nat.
  - destruct (seen_publication_order r ++ [key]) as [|expired order];
      (f_equal; apply IH; [done|by rewrite Hrec]).
  - f_equal. apply IH; [done|by rewrite Hrec].
Qed.

(** Broker publications are delivered at most once per window: over any
    sequence of publications received after any reachable state, one is
    accepted exactly when it is not among the last 4096 accepted ones. *)
Theorem publications_deduplicated rt keys :
  reachable rt ->
  mark_run (registry rt) keys = dedup_window keys (seen_publication_order (registry rt)).
Proof.
  intros Hok%registry_reachable_ok. apply mark_run_dedup; [apply Hok|]. destruct (rt_window _ Hok) as [_ _ Hl].
  unfold recent. replace (_ - _)%nat with 0%nat by lia. by rewrite drop_0.
Qed.
End registry.

(** ** Instances *)

Module Sample.
Definition room : str := §"lobby".
Definition chat : str := §"/chat".
Definition app_layer : WebSocketConfig :=
  Layer.mkWebSocketConfig None None None None None None None None None None None None None None None None
    (Some (Some 2)) (Some (Some 1)) None (Some 4) (Some 16).
Definition policy (_ : str) : ResolvedWebSocketConfig := from_layers app_layer app_layer.
Definition admit_from (rt : @Runtime Z nat nat _ _) (ip : Z) : @Runtime Z nat nat _ _ :=
  (admit_connection 4 16 rt chat (Some (ip, 80%Z)) None (policy chat) 0).1.1.
Definition one : @Runtime Z nat nat _ _ := admit_from Runtime_new 1.
Definition two : @Runtime Z nat nat _ _ := admit_from one 2.
Definition joined : @Runtime Z nat nat _ _ := (join_rooms two 2 [room]).1.1.

Lemma reachable_joined : reachable 4 16 policy joined.
Proof.
  assert (H1 : step 4 16 policy Runtime_new one) by (apply step_admit; done).
  assert (H2 : step 4 16 policy one two) by (apply step_admit; done).
  eapply rtc_l; [exact H1|]. eapply rtc_l; [exact H2|]. eapply rtc_l; [apply step_join|constructor].
Qed.
End Sample.
Import Sample.

Lemma registry_invariant_witness :
  count_of (route_counts (registry joined)) chat = 2 /\ count_of (ip_counts (registry joined)) 2%Z = 1
  /\ rooms (registry joined) !! (chat, room) <> Some ∅ /\ reachable 4 16 policy joined.
Proof.
  destruct (registry_invariant 4 16 policy joined reachable_joined) as (H1 & H2 & H3 & _).
  split_and!; [by rewrite H1|by rewrite H2|apply H3|apply reachable_joined].
Defined.

Lemma admission_limits_witness :
  size (connections (registry joined)) = 2 /\ size (connections (registry joined)) <= 2
  /\ occ (has_key ip_of 2%Z) (connections (registry joined)) <= 1.
Proof.
  destruct (admission_limits 4 16 policy joined reachable_joined) as (H1 & _ & H3).
  split_and!; [done|by apply H1|by apply H3].
Defined.

Lemma shutdown_is_final_witness :
  dom (connections (registry (begin_shutdown joined))) ⊆ dom (connections (registry joined))
  /\ (admit_connection 4 16 (begin_shutdown joined) chat None None (policy chat) 0).1.2 = Err Shutdown.
Proof. apply (shutdown_is_final 4 16 policy). constructor. Defined.

Lemma broadcast_recipients_exact_witness :
  select_broadcast_recipients joined (Some chat) [room] false ∅ = [(2%Z, None)]
  /\ StronglySorted Z.lt (map fst (select_broadcast_recipients joined (Some chat) [] true ∅)).
Proof.
  split; [done|]. apply (broadcast_recipients_exact 4 16 policy joined (Some chat) [] true ∅ reachable_joined).
Defined.

Lemma publications_deduplicated_witness :
  dedup_window [(1, 1); (1, 2); (1, 1)]%Z [] = [true; true; false]
  /\ mark_run (registry joined) [(1, 1); (1, 2); (1, 1)]%Z = dedup_window [(1, 1); (1, 2); (1, 1)]%Z [].
Proof.
  split; [by vm_compute|].
  apply (publications_deduplicated 4 16 policy joined [(1, 1); (1, 2); (1, 1)]%Z reachable_joined).
Defined.
