(* ===== verification/WsSocket.v ===== *)
(** * WebSocket senders ([src/app/websocket/socket.rs])

    How a message enters a connection's queues under each backpressure policy.
    Tokio's channels are outside the program: every call on one is an input
    carrying the answer it gave ([TryReserve] for the immediate calls, [Await]
    for those that wait, possibly under a timeout), and what the sender then did
    is the list of its effects. *)
From S2P Require Import Prelude Strs Percent Request WsConfig.

(** A close frame: code and reason. *)
Abbreviation CloseFrame := (Z * str)%type.

Inductive WebSocketMessage :=
| MText (text : str)
| MBinary (bytes : str)
| MPing (payload : str)
| MPong (payload : str)
| MClose (frame : option CloseFrame)
| MFrame.
#[export] Instance WebSocketMessage_eq_dec : EqDecision WebSocketMessage.
Proof. solve_decision. Defined.

Definition is_text (m : WebSocketMessage) : bool := match m with MText _ => true | _ => false end.
Definition is_binary (m : WebSocketMessage) : bool := match m with MBinary _ => true | _ => false end.

(** [src/app/websocket/driver.rs]: the commands a driver consumes. *)
Inductive ControlCommand :=
| CPing (payload : str)
| CPong (payload : str)
| CClose (frame : option CloseFrame)
| CDisconnect (frame : option CloseFrame).
#[export] Instance ControlCommand_eq_dec : EqDecision ControlCommand.
Proof. solve_decision. Defined.

(** Answers of the channels. *)
Inductive TryReserve := TryPermit | TryFull | TryClosed.
Inductive Await := AwaitOk | AwaitClosed | AwaitElapsed.

(** What a sender did: a message in the outbound queue, a command in the
    control queue, a [record_saturated_send(id, true)]. *)
Inductive Effect :=
| Outbound (message : WebSocketMessage)
| Control (command : ControlCommand)
| Saturated.
#[export] Instance Effect_eq_dec : EqDecision Effect.
Proof. solve_decision. Defined.

Abbreviation sent := (result unit WsError * list Effect)%type.

Record ChannelAnswers := mkChannelAnswers {
  reserve : Await;          (* outbound.reserve_owned() under send_timeout *)
  try_reserve : TryReserve; (* outbound.try_reserve_owned() *)
  control_send : Await      (* control.send() under send_timeout *)
}.

(** ** Application messages *)

Definition try_send_application (env : ChannelAnswers) (message : WebSocketMessage) : sent :=
  match try_reserve env with
  | TryPermit => (Ok tt, [Outbound message])
  | TryFull => (Err (WsCapacity OutboundQueue), [Saturated])
  | TryClosed => (Err WsClosed, [])
  end.

Definition send_control (env : ChannelAnswers) (command : ControlCommand) : sent :=
  match control_send env with
  | AwaitOk => (Ok tt, [Control command])
  | AwaitElapsed => (Err (WsTimeout TSend), [Saturated])
  | AwaitClosed => (Err WsClosed, [])
  end.

Definition slow_consumer : ControlCommand :=
  CDisconnect (Some (1013%Z, §"Cliente WebSocket demasiado lento")).
Definition disconnect_slow_consumer (env : ChannelAnswers) : sent := send_control env slow_consumer.

Definition send_application (policy : BackpressurePolicy) (env : ChannelAnswers)
    (message : WebSocketMessage) : sent :=
  match policy with
  | Wait =>
      match reserve env with
      | AwaitOk => (Ok tt, [Outbound message])
      | AwaitElapsed => (Err (WsTimeout TSend), [Saturated])
      | AwaitClosed => (Err WsClosed, [])
      end
  | Reject => try_send_application env message
  | Disconnect =>
      match try_send_application env message with
      | (Err (WsCapacity _), effects) =>
          match disconnect_slow_consumer env with
          | (Ok _, more) => (Err (WsCapacity OutboundQueue), effects ++ more)
          | (Err error, more) => (Err error, effects ++ more)
          end
      | outcome => outcome
      end
  end.

(** ** Internal senders: broadcasts and the runtime *)

Inductive LocalEnqueueOutcome := Enqueued | Rejected | Disconnected.
#[export] Instance LocalEnqueueOutcome_eq_dec : EqDecision LocalEnqueueOutcome.
Proof. solve_decision. Defined.

Definition enqueue (policy : BackpressurePolicy) (env : ChannelAnswers) (message : WebSocketMessage)
  : LocalEnqueueOutcome * list Effect :=
  match send_application policy env message with
  | (Ok _, effects) => (Enqueued, effects)
  | (Err WsClosed, effects) => (Disconnected, effects)
  | (Err (WsCapacity _), effects) =>
      (if bool_decide (policy = Disconnect) then Disconnected else Rejected, effects)
  | (Err _, effects) => (Rejected, effects)
  end.

(** A command sent without a timeout: it waits for room until the channel
    closes; [open] tells whether it got through. *)
Definition send_command (open : bool) (command : ControlCommand) : sent :=
  if open then (Ok tt, [Control command]) else (Err WsClosed, []).

Definition internal_send (policy : BackpressurePolicy) (env : ChannelAnswers) (open : bool)
    (message : WebSocketMessage) : sent :=
  match message with
  | MPing payload => send_command open (CPing payload)
  | MPong payload => send_command open (CPong payload)
  | MClose frame => send_command open (CDisconnect frame)
  | _ => send_application policy env message
  end.

Definition disconnect (open : bool) (code : Z) (reason : str) : sent :=
  send_command open (CDisconnect (Some (code, reason))).

(** ** Public senders *)

Definition validate_close (code : Z) (reason : str) : result unit WsError :=
  let valid_code :=
    existsb (Z.eqb code) [1000; 1001; 1002; 1003; 1007; 1008; 1009; 1010; 1011; 1012; 1013]%Z
    || ((3000 <=? code)%Z && (code <=? 4999)%Z) in
  if negb valid_code then Err (InvalidClose code §"codigo de cierre reservado o no asignado")
  else if (123 <? length reason)%nat then
    Err (InvalidClose code §"la razon de cierre supera 123 bytes UTF-8")
  else Ok tt.

Definition try_send_control (env : TryReserve) (command : ControlCommand) : sent :=
  match env with
  | TryPermit => (Ok tt, [Control command])
  | TryFull => (Err (WsCapacity OutboundQueue), [Saturated])
  | TryClosed => (Err WsClosed, [])
  end.

Definition try_send (env : ChannelAnswers) (control : TryReserve) (message : WebSocketMessage) : sent :=
  match message with
  | MPing payload => try_send_control control (CPing payload)
  | MPong payload => try_send_control control (CPong payload)
  | MClose frame => try_send_control control (CClose frame)
  | _ => try_send_application env message
  end.

Definition send (policy : BackpressurePolicy) (env : ChannelAnswers) (message : WebSocketMessage) : sent :=
  match message with
  | MPing payload => send_control env (CPing payload)
  | MPong payload => send_control env (CPong payload)
  | MClose frame => send_control env (CClose frame)
  | _ => send_application policy env message
  end.

Definition close_with (env : ChannelAnswers) (code : Z) (reason : str) : sent :=
  match validate_close code reason with
  | Err e => (Err e, [])
  | Ok _ => send_control env (CClose (Some (code, reason)))
  end.

(** ** Receivers *)

(** [recv_json] over the messages received, [None] being the end of the stream;
    control frames are skipped. *)
Fixpoint recv_json {T E} (from_slice : str -> result T E) (received : list WebSocketMessage)
  : result (option T) E * list WebSocketMessage :=
  match received with
  | [] => (Ok None, [])
  | (MText data | MBinary data) :: rest =>
      (let? value := from_slice data in Ok (Some value), rest)
  | (MPing _ | MPong _) :: rest => recv_json from_slice rest
  | (MClose _ | MFrame) :: rest => (Ok None, rest)
  end.

(** ** Lemmas *)

(** The application messages of the effects. *)
Definition delivered (effects : list Effect) : list WebSocketMessage :=
  omap (fun e => match e with Outbound m => Some m | _ => None end) effects.
Definition saturations (effects : list Effect) : nat :=
  length (List.filter (fun e => bool_decide (e = Saturated)) effects).

(** A send either queues the message once and succeeds, or fails and queues
    nothing. *)
Lemma send_application_delivers policy env message :
  delivered (send_application policy env message).2 =
  match (send_application policy env message).1 with Ok _ => [message] | Err _ => [] end.
Proof. destruct policy, env as [[] [] []]; reflexivity. Qed.

Lemma enqueue_delivers policy env message :
  delivered (enqueue policy env message).2 =
  match (enqueue policy env message).1 with Enqueued => [message] | _ => [] end.
Proof. destruct policy, env as [[] [] []]; reflexivity. Qed.

(** The slow-consumer disconnection is the only command an application send can
    issue, and only under the [Disconnect] policy with a full queue. *)
Lemma enqueue_controls policy env message command :
  Control command ∈ (enqueue policy env message).2 ->
  policy = Disconnect /\ try_reserve env = TryFull /\ command = slow_consumer.
Proof.
  intros H. apply list_elem_of_In in H.
  destruct policy, env as [[] [] []]; cbn in H; repeat destruct H as [H|H]; try done; by injection H as <-.
Qed.

Lemma recv_json_skips {T E} (from_slice : str -> result T E) l data rest :
  Forall (fun m => match m with MPing _ | MPong _ => True | _ => False end) l ->
  recv_json from_slice (l ++ MText data :: rest) = (let? v := from_slice data in Ok (Some v), rest).
Proof. induction 1 as [|m l Hm _ IH]; [done|]. by destruct m. Qed.
