(* ===== verification/WsShutdown.v ===== *)
(** * Closing and shutting down ([src/app/websocket/runtime.rs])

    [shutdown], [drain], [wait_until_empty] and [close] of the runtime: what they do
    while the rest of the process goes on. The rest is a list of timed moves,
    each any number of the runtime's own steps; [notified] futures are made
    before the registry is looked at, so no move is missed. Proved: a shutdown
    returns within twice its grace period whatever the connections do,
    succeeds exactly when the registry is empty at some moment of the first
    period, and otherwise has aborted every driver that outlived it. *)
From S2P Require Import Prelude Strs Percent Request WsConfig WsRuntime WsRuntimeInv WsSocket.

Section shutdown.
Context {Ip Sender Abort : Type} `{Countable Ip}.
Abbreviation Runtime := (Runtime (Ip := Ip) (Sender := Sender) (Abort := Abort)).

(** What the rest of the process does, with its times. *)
Abbreviation Moves := (list (Z * (Runtime -> Runtime))).

(** A wait on the registry under [tokio::time::timeout]: the runtime, the moves
    left, the time and, unless the deadline passed, what was waited for. *)
Fixpoint wait_until {A} (ready : Runtime -> option A) (deadline : Z) (moves : Moves) (rt : Runtime) (now : Z)
  : Runtime * Moves * Z * option A :=
  match ready rt with
  | Some a => (rt, moves, now, Some a)
  | None =>
      match moves with
      | (t, move) :: rest =>
          if (t <=? deadline)%Z then wait_until ready deadline rest (move rt) (Z.max now t) else (rt, moves, deadline, None)
      | [] => (rt, [], deadline, None)
      end
  end.

Definition is_empty (rt : Runtime) : option unit := if (active_count rt =? 0)%nat then Some tt else None.
Definition wait_until_empty := wait_until is_empty.

Definition drain (timeout : Z) (moves : Moves) (rt : Runtime) (now : Z) : Runtime * Moves * Z * result unit WsError :=
  if (active_count rt =? 0)%nat then (rt, moves, now, Ok tt)
  else
    let '(rt, moves, t, emptied) := wait_until_empty (now + timeout)%Z moves rt now in
    (rt, moves, t, match emptied with Some _ => Ok tt | None => Err (WsTimeout TShutdown) end).

(** The runtime at the end, the time, the drivers that were aborted and the
    result. *)
Definition shutdown (moves : Moves) (rt : Runtime) (now : Z) : Runtime * Z * list (Z * Abort) * result unit WsError :=
  let rt := begin_shutdown rt in
  let grace := shutdown_grace_period rt in
  let '(rt, moves, t, drained) := drain grace moves rt now in
  match drained with
  | Ok _ => (rt, t, [], Ok tt)
  | Err e =>
      let '(rt, aborted, _) := abort_remaining rt in
      let '(rt, _, t, _) := wait_until_empty (t + grace)%Z moves rt t in
      (rt, t, aborted, Err e)
  end.

(** *** Closing one connection *)

Definition has_sender (id : Z) (rt : Runtime) : option (result Sender WsError) :=
  match connections (registry rt) !! id with
  | Some entry => Ok <$> internal_sender entry
  | None => Some (Err (ConnectionNotFound id))
  end.
Definition wait_for_sender (id : Z) := wait_until (has_sender id).
Definition is_removed (id : Z) (rt : Runtime) : option unit :=
  match connections (registry rt) !! id with Some _ => None | None => Some tt end.
Definition wait_for_removal (id : Z) := wait_until (is_removed id).

(** [close]: [open] is whether the control channel takes the command. Waiting
    for the published close is part of waiting for the removal, which follows it. *)
Definition close_and_wait (moves : Moves) (rt : Runtime) (id code : Z) (reason : str) (open : bool) (now : Z)
  : Runtime * Z * list Effect * result unit WsError :=
  match validate_close code reason with
  | Err e => (rt, now, [], Err e)
  | Ok _ =>
      match close_mark rt id with
      | (rt, Err e) => (rt, now, [], Err e)
      | (rt, Ok timeout) =>
          let deadline := (now + timeout)%Z in
          match wait_for_sender id deadline moves rt now with
          | (rt, _, t, None) => (rt, t, [], Err (WsTimeout TClose))
          | (rt, _, t, Some (Err e)) => (rt, t, [], Err e)
          | (rt, moves, t, Some (Ok _)) =>
              match disconnect open code reason with
              | (Err e, effects) => (rt, t, effects, Err e)
              | (Ok _, effects) =>
                  match wait_for_removal id deadline moves rt t with
                  | (rt, _, t, Some _) => (rt, t, effects, Ok tt)
                  | (rt, _, t, None) => (rt, t, effects, Err (WsTimeout TClose))
                  end
              end
          end
      end
  end.
End shutdown.

(** ** Properties *)

Section theorems.
Context {Ip Sender Abort : Type} `{Countable Ip}.
Context (max_rooms_per_connection max_room_name_bytes : nat) (policy : str -> ResolvedWebSocketConfig).
Abbreviation runtime := (Runtime (Ip := Ip) (Sender := Sender) (Abort := Abort)).
Abbreviation step := (WsRuntimeInv.step max_rooms_per_connection max_room_name_bytes policy).
(** Moves are made of the runtime's steps. *)
Abbreviation honest := (Forall (fun m : Z * (runtime -> runtime) => forall rt, rtc step rt (m.2 rt))).

Lemma wait_until_spec {A} (ready : runtime -> option A) deadline moves : forall rt now, honest moves -> (now <= deadline)%Z ->
  let '(rt', rest, t, outcome) := wait_until ready deadline moves rt now in
  (now <= t <= deadline)%Z /\ rtc step rt rt' /\ honest rest /\ outcome = ready rt' /\ (outcome = None -> t = deadline).
Proof.
  induction moves as [|[u move] rest IH]; intros rt now Hm Hd; cbn [wait_until].
  - destruct (ready rt) eqn:E; (split_and!; [lia|lia|apply rtc_refl|done|done|done]).
  - destruct (ready rt) eqn:E; [by split_and!; [lia|lia|apply rtc_refl|..]|]. pose proof Hm as Hall. apply Forall_cons in Hm as [H1 H2].
    destruct (Z.leb_spec u deadline); [|split_and!; [lia|lia|apply rtc_refl|done|done|done]].
    specialize (IH (move rt) (Z.max now u) H2 ltac:(lia)). destruct (wait_until _ _ _ _ _) as [[[rt' rest'] t] o].
    destruct IH as (Ht & Hs & Hr & Ho & Hn). split_and!; [lia|lia|by etrans; [apply (H1 rt)|]|done..].
Qed.

Lemma active_count_empty (rt : runtime) : active_count rt = 0 <-> connections (registry rt) = ∅.
Proof. unfold active_count. apply map_size_empty_iff. Qed.

Lemma is_empty_Some (rt : runtime) o : is_empty rt = Some o <-> connections (registry rt) = ∅ /\ o = tt.
Proof. unfold is_empty. destruct o. destruct (Nat.eqb_spec (active_count rt) 0); rewrite <- active_count_empty; naive_solver. Qed.

Lemma drain_spec timeout moves (rt : runtime) now : honest moves -> (0 <= timeout)%Z ->
  let '(rt', rest, t, outcome) := drain timeout moves rt now in
  (now <= t <= now + timeout)%Z /\ rtc step rt rt' /\ honest rest
  /\ (outcome = Ok tt /\ connections (registry rt') = ∅
      \/ outcome = Err (WsTimeout TShutdown) /\ connections (registry rt') <> ∅ /\ t = (now + timeout)%Z).
Proof.
  intros Hm Ht. unfold drain. destruct (Nat.eqb_spec (active_count rt) 0) as [E|E].
  - split_and!; [lia|lia|apply rtc_refl|done|]. left. by apply active_count_empty in E.
  - pose proof (wait_until_spec is_empty (now + timeout)%Z moves rt now Hm ltac:(lia)) as Hw. unfold wait_until_empty.
    destruct (wait_until _ _ _ _ _) as [[[rt' rest] t] o]. destruct Hw as (Hb & Hs & Hr & Ho & Hn). split_and!; try done; [lia..|].
    destruct o as [[]|].
    + left. split; [done|]. symmetry in Ho. by apply is_empty_Some in Ho as [? _].
    + right. split_and!; [done| |by apply Hn]. intros He. symmetry in Ho. by rewrite (proj2 (is_empty_Some rt' tt) (conj He eq_refl)) in Ho.
Qed.

(** *** The registry over time *)

(** The moves made up to the deadline, and the runtime after the first [k] moves. *)
Fixpoint in_time (deadline : Z) (moves : list (Z * (runtime -> runtime))) : list (Z * (runtime -> runtime)) :=
  match moves with
  | m :: rest => if (m.1 <=? deadline)%Z then m :: in_time deadline rest else []
  | [] => []
  end.
Definition after (k : nat) (moves : list (Z * (runtime -> runtime))) (rt : runtime) : runtime :=
  foldl (fun rt m => m.2 rt) rt (take k moves).

(** A wait ends at the first moment what is awaited is there, and gives up only
    after every move in time. *)
Lemma wait_until_first {A} (ready : runtime -> option A) deadline moves : forall rt now,
  let '(rt', _, _, outcome) := wait_until ready deadline moves rt now in
  exists k, k <= length (in_time deadline moves) /\ rt' = after k (in_time deadline moves) rt /\ outcome = ready rt'
    /\ (forall j, j < k -> ready (after j (in_time deadline moves) rt) = None)
    /\ (outcome = None -> k = length (in_time deadline moves)).
Proof.
  induction moves as [|[u move] rest IH]; intros rt now; cbn [wait_until in_time fst].
  - destruct (ready rt) eqn:E; exists 0; (split_and!; [cbn; lia|done|done|intros j; lia|done]).
  - destruct (ready rt) eqn:E; [exists 0; split_and!; [cbn; lia|done|done|intros j; lia|done]|].
    destruct (u <=? deadline)%Z; [|exists 0; split_and!; [cbn; lia|done|done|intros j; lia|done]].
    specialize (IH (move rt) (Z.max now u)). destruct (wait_until _ _ _ _ _) as [[[rt' rest'] t] o].
    destruct IH as (k & Hk & -> & Ho & Hno & Hend). exists (S k). split_and!; [cbn; lia|done|done| |cbn; naive_solver].
    intros [|j] Hj; [done|]. apply Hno. lia.
Qed.

Lemma is_empty_None (rt : runtime) : is_empty rt = None <-> connections (registry rt) <> ∅.
Proof. unfold is_empty. rewrite <- active_count_empty. destruct (Nat.eqb_spec (active_count rt) 0); naive_solver. Qed.

Lemma drain_first timeout moves (rt : runtime) now :
  let '(rt', _, _, outcome) := drain timeout moves rt now in
  exists k, k <= length (in_time (now + timeout) moves) /\ rt' = after k (in_time (now + timeout) moves) rt
    /\ (forall j, j < k -> connections (registry (after j (in_time (now + timeout) moves) rt)) <> ∅)
    /\ (is_ok outcome = true -> connections (registry rt') = ∅)
    /\ (is_ok outcome = false -> connections (registry rt') <> ∅ /\ k = length (in_time (now + timeout) moves)).
Proof.
  unfold drain. destruct (Nat.eqb_spec (active_count rt) 0) as [E|E].
  - apply active_count_empty in E. exists 0. split_and!; [lia|done|intros j; lia|done|done].
  - pose proof (wait_until_first is_empty (now + timeout)%Z moves rt now) as Hw. unfold wait_until_empty.
    destruct (wait_until _ _ _ _ _) as [[[rt' rest] t] o]. destruct Hw as (k & Hk & -> & Ho & Hno & Hend). exists k.
    split_and!; [done|done|intros j Hj; by apply is_empty_None, Hno|..]; destruct o as [[]|]; try done.
    + intros _. symmetry in Ho. by apply is_empty_Some in Ho as [? _].
    + intros _. symmetry in Ho. split; [by apply is_empty_None|by apply Hend].
Qed.

(** Every connection with a driver that was not aborted yet. *)
Lemma abort_remaining_all (rt : runtime) c a :
  (c, a) ∈ (abort_remaining rt).1.2 <->
  exists e, connections (registry rt) !! c = Some e /\ driver_abort e = Some a /\ forced_shutdown_observed e = false.
Proof.
  unfold abort_remaining. cbn [fst snd]. rewrite list_elem_of_omap. split.
  - intros ((c' & e) & Hin & Ho). apply elem_of_map_to_list in Hin. cbn in Ho. unfold must_abort in Ho.
    destruct (driver_abort e) as [a'|] eqn:Ea; [|done]. destruct (forced_shutdown_observed e) eqn:Ef; [done|].
    injection Ho as -> ->. eauto.
  - intros (e & He & Ha & Hf). exists (c, e). split; [by apply elem_of_map_to_list|]. cbn. unfold must_abort. by rewrite Ha, Hf.
Qed.

Lemma grace_nonneg (rt : runtime) : (0 <= shutdown_grace_period rt)%Z.
Proof. unfold shutdown_grace_period. induction (map _ _) as [|x l IH]; cbn; lia. Qed.

(** C40. Shutdown ends: whatever the connections and the rest of the process do, a
    shutdown returns within twice the longest close timeout of the connections
    it found. It succeeds exactly when, at its start or after one of the moves
    of the rest of the process up to the end of the first period, no connection
    is registered; it returns at the first such moment and aborts nothing.
    Otherwise it reports the timeout, not before the end of that period, having
    aborted every driver still registered, and not aborted before, after all
    the moves made up to then. From its start on no connection is admitted. *)
Theorem shutdown_bounded moves (rt : runtime) now : honest moves ->
  let grace := shutdown_grace_period (begin_shutdown rt) in
  let first := in_time (now + grace) moves in
  let '(rt', t, aborted, outcome) := shutdown moves rt now in
  (now <= t <= now + 2 * grace)%Z
  /\ (outcome = Ok tt <->
      exists k, k <= length first /\ connections (registry (after k first (begin_shutdown rt))) = ∅)
  /\ match outcome with
     | Ok _ => connections (registry rt') = ∅ /\ aborted = [] /\ (t <= now + grace)%Z
         /\ exists k, rt' = after k first (begin_shutdown rt)
              /\ forall j, j < k -> connections (registry (after j first (begin_shutdown rt))) <> ∅
     | Err e => e = WsTimeout TShutdown /\ (now + grace <= t)%Z
         /\ forall c a, (c, a) ∈ aborted <->
              exists en, connections (registry (after (length first) first (begin_shutdown rt))) !! c = Some en
                /\ driver_abort en = Some a /\ forced_shutdown_observed en = false
     end
  /\ dom (connections (registry rt')) ⊆ dom (connections (registry rt))
  /\ forall route' remote protocol' config at_,
       (admit_connection max_rooms_per_connection max_room_name_bytes rt' route' remote protocol' config at_).1.2 = Err Shutdown.
Proof.
  intros Hm. cbv zeta. unfold shutdown. pose proof (grace_nonneg (begin_shutdown rt)) as Hg. set (grace := shutdown_grace_period _) in *.
  assert (Hfinal : forall rt' : runtime, rtc step (begin_shutdown rt) rt' ->
    dom (connections (registry rt')) ⊆ dom (connections (registry rt))
    /\ forall route' remote protocol' config at_,
         (admit_connection max_rooms_per_connection max_room_name_bytes rt' route' remote protocol' config at_).1.2 = Err Shutdown).
  { intros rt' Hs. split; [by apply (shutdown_is_final max_rooms_per_connection max_room_name_bytes policy rt rt' [] None None (policy []) 0 Hs)|].
    intros route' remote protocol' config at_. by apply (shutdown_is_final max_rooms_per_connection max_room_name_bytes policy rt rt'). }
  pose proof (drain_spec grace moves (begin_shutdown rt) now Hm Hg) as Hd.
  pose proof (drain_first grace moves (begin_shutdown rt) now) as Hk.
  destruct (drain _ _ _ _) as [[[rt1 rest] t1] drained]. destruct Hk as (k & Hk & Ek & Hno & _ & Hend).
  destruct Hd as (Ht & Hs & Hr & [[-> He]|(-> & He & Et)]).
  - split; [lia|]. split; [split; [intros _; exists k; split; [done|by rewrite <- Ek]|done]|].
    split; [|by apply Hfinal]. split_and!; [done|done|lia|]. by exists k.
  - pose proof (abort_remaining_all rt1) as Hab. destruct (abort_remaining rt1) as [[rt2 aborted] obs] eqn:Ea.
    assert (Hs2 : rtc step rt1 rt2) by (apply rtc_once; replace rt2 with (abort_remaining rt1).1.1 by (by rewrite Ea); constructor).
    pose proof (wait_until_spec is_empty (t1 + grace)%Z rest rt2 t1 Hr ltac:(lia)) as Hw. unfold wait_until_empty.
    destruct (wait_until _ _ _ _ _) as [[[rt3 rest3] t3] o]. destruct Hw as (Ht3 & Hs3 & _).
    assert (rtc step (begin_shutdown rt) rt3) as Hall by (by etrans; [|etrans]).
    destruct (Hend eq_refl) as [_ ->]. rewrite <- Ek. split; [lia|].
    split; [split; [done|]; intros (j & Hj & Hempty); exfalso|split; [split_and!; [done|lia|apply Hab]|by apply Hfinal]].
    apply Nat.lt_eq_cases in Hj as [Hj|Hj]; [by apply (Hno j)|]. rewrite Hj, <- Ek in Hempty. done.
Qed.
End theorems.

Module ShutdownSample.
(** One connection leaves in time; the other is still there at the end. *)
Definition leaving : list (Z * (@Runtime Z nat nat _ _ -> @Runtime Z nat nat _ _)) :=
  [(10%Z, fun rt => (release rt 1).1.1)].
Lemma leaving_honest : Forall (fun m => forall rt, rtc (step 4 16 Sample.policy) rt (m.2 rt)) leaving.
Proof. repeat constructor. intros rt. apply rtc_once. apply step_release. Defined.

Lemma shutdown_bounded_witness :
  (shutdown leaving Sample.one 0).2 = Ok tt /\ connections (registry (shutdown leaving Sample.one 0).1.1.1) = ∅
  /\ (shutdown leaving Sample.two 0).2 = Err (WsTimeout TShutdown).
Proof.
  assert (E1 : (shutdown leaving Sample.one 0).2 = Ok tt) by (vm_compute; reflexivity).
  assert (E2 : (shutdown leaving Sample.two 0).2 = Err (WsTimeout TShutdown)) by (vm_compute; reflexivity).
  split; [exact E1|]. split; [|exact E2].
  pose proof (shutdown_bounded 4 16 Sample.policy leaving Sample.one 0 leaving_honest) as Hs. cbv zeta in Hs.
  destruct (shutdown leaving Sample.one 0) as [[[rt t] aborted] o]. cbn [fst snd] in *. subst o.
  destruct Hs as (_ & _ & [He _] & _). exact He.
Defined.
End ShutdownSample.
