(* ===== verification/WsHub.v ===== *)
(** * The WebSocket hub and the broker subscription
      ([src/app/websocket/hub.rs], [broker.rs], and [supervise_broker],
      [handle_broker_publication] of [runtime.rs])

    Broadcast targets, local delivery with its report, publication to the
    broker and delivery of remote publications, and the supervisor that keeps
    the subscription alive. The broker and the queues of the connections are
    outside: their answers are inputs. *)
From S2P Require Import Prelude Strs Percent Request WsConfig WsRuntime WsRuntimeInv WsSocket.

Definition MAX_BROKER_ROUTE_BYTES : nat := 1024.
Definition MAX_BROKER_PAYLOAD_BYTES : Z := 16777216.

Record WsHubConfig := mkWsHubConfig {
  hub_max_rooms : nat;
  hub_max_room_name_bytes : nat;
  broadcast_concurrency : nat;
  broker_operation_timeout : Z;
  has_broker : bool;
  node_id : Z
}.

(** ** Publications *)

Inductive WsBrokerTarget :=
| RouteRooms (route : str) (rooms : list str)
| RouteAll (route : str)
| AllRoutes.
Inductive WsBrokerPayload := PText (text : str) | PBinary (bytes : str).

Record WsBrokerPublication := mkWsBrokerPublication {
  pub_id : Z;
  origin : Z;
  target : WsBrokerTarget;
  payload : WsBrokerPayload
}.

Definition validate_broker_route (route : str) : result unit WsBrokerError :=
  if bool_decide (route = []) || contains Byte.x00 route || (MAX_BROKER_ROUTE_BYTES <? length route)%nat
  then Err (InvalidPublication §"la ruta del broker WebSocket no es valida") else Ok tt.
Definition validate_broker_room (max_bytes : nat) (room : str) : result unit WsBrokerError :=
  if bool_decide (room = []) || contains Byte.x00 room || (max_bytes <? length room)%nat
  then Err (InvalidPublication §"una room del broker WebSocket no es valida") else Ok tt.

Definition payload_len (p : WsBrokerPayload) : Z :=
  match p with PText t => Z.of_nat (length t) | PBinary b => Z.of_nat (length b) end.

Definition validate_broker_target (c : WsHubConfig) (t : WsBrokerTarget) : result unit WsBrokerError :=
  match t with
  | RouteRooms route rooms =>
      let? _ := validate_broker_route route in
      if bool_decide (rooms = []) || (hub_max_rooms c <? length rooms)%nat then
        Err (InvalidPublication §"el destino de rooms debe incluir una cantidad valida")
      else let? _ := try_map (validate_broker_room (hub_max_room_name_bytes c)) rooms in Ok tt
  | RouteAll route => validate_broker_route route
  | AllRoutes => Ok tt
  end.

Definition validate_broker_publication (c : WsHubConfig) (p : WsBrokerPublication)
  : result unit WsBrokerError :=
  let? _ := validate_broker_target c (target p) in
  if (MAX_BROKER_PAYLOAD_BYTES <? payload_len (payload p))%Z then
    Err (InvalidPublication §"el payload supera el limite del broker WebSocket")
  else Ok tt.

(** ** Targets *)

Record WsTarget := mkWsTarget {
  t_route : option str;
  t_rooms : list str;
  all_in_scope : bool;
  excluded : gset Z;
  publish_remote : bool
}.

Definition normalize_rooms (rooms : list str) : list str := ascending (list_to_set rooms).

(** [WsHub::all], [WsRoute::to_many], [to] and [all], [WsTarget::except]. *)
Definition hub_all : WsTarget := mkWsTarget None [] true ∅ true.
Definition to_many (route : str) (rooms : list str) : WsTarget :=
  mkWsTarget (Some route) (normalize_rooms rooms) false ∅ true.
Definition to_room (route room : str) : WsTarget := to_many route [room].
Definition route_all (route : str) : WsTarget := mkWsTarget (Some route) [] true ∅ true.
Definition except (t : WsTarget) (conn : Z) : WsTarget :=
  mkWsTarget (t_route t) (t_rooms t) (all_in_scope t) ({[conn]} ∪ excluded t) (publish_remote t).

(** [WebSocketSender::to_many] and [broadcast]: the sender itself is left out. *)
Definition socket_to_many (route : str) (conn : Z) (rooms : list str) : WsTarget :=
  except (to_many route rooms) conn.
Definition socket_broadcast (route : str) (conn : Z) : WsTarget := except (route_all route) conn.

(** [None] is the unreachable case. *)
Definition broker_target (t : WsTarget) : option WsBrokerTarget :=
  match t_route t, all_in_scope t with
  | Some route, false => Some (RouteRooms route (t_rooms t))
  | Some route, true => Some (RouteAll route)
  | None, true => Some AllRoutes
  | None, false => None
  end.
Definition broker_payload (m : WebSocketMessage) : option WsBrokerPayload :=
  match m with
  | MText text => Some (PText text)
  | MBinary bytes => Some (PBinary bytes)
  | _ => None
  end.

(** The target and the message of a received publication. *)
Definition delivery_target (t : WsBrokerTarget) : WsTarget :=
  match t with
  | RouteRooms route rooms => mkWsTarget (Some route) (normalize_rooms rooms) false ∅ false
  | RouteAll route => mkWsTarget (Some route) [] true ∅ false
  | AllRoutes => mkWsTarget None [] true ∅ false
  end.
Definition delivery_message (p : WsBrokerPayload) : WebSocketMessage :=
  match p with PText text => MText text | PBinary bytes => MBinary bytes end.

(** ** Delivery *)

Section hub.
Context {Ip Sender Abort : Type} `{Countable Ip}.
Abbreviation runtime := (@Runtime Ip Sender Abort _ _).
Abbreviation recipient := (Z * option Sender)%type.

(** The policy of a connection and, during one broadcast, what its channels
    answer; the order in which [buffer_unordered] completes the sends. *)
Context (backpressure : Sender -> BackpressurePolicy).

Record Environment := mkEnvironment {
  answers : Sender -> ChannelAnswers;
  completion : list recipient -> list recipient
}.
Context (env : Environment).

Definition enqueue_to (message : WebSocketMessage) (r : recipient) : LocalEnqueueOutcome * list Effect :=
  match r.2 with
  | Some sender => enqueue (backpressure sender) (answers env sender) message
  | None => (WsSocket.Disconnected, [])
  end.

(** The counters and the queue of one connection after its effects. *)
Definition apply_effect (conn : Z) (acc : runtime * list Observation * list (Z * WebSocketMessage))
    (e : Effect) : runtime * list Observation * list (Z * WebSocketMessage) :=
  let '(rt, obs, out) := acc in
  match e with
  | Outbound m => (rt, obs, out ++ [(conn, m)])
  | Control _ => (rt, obs, out)
  | Saturated =>
      let '(r, o) := record_saturated_send (registry rt) conn true in
      (set_registry rt r, obs ++ o, out)
  end.

Definition count_outcome (report : WsBroadcastReport) (o : LocalEnqueueOutcome) : WsBroadcastReport :=
  match o with
  | Enqueued =>
      mkWsBroadcastReport (matched report) (S (enqueued report)) (rejected report) (disconnected report)
        (remote report)
  | WsSocket.Rejected =>
      mkWsBroadcastReport (matched report) (enqueued report) (S (rejected report)) (disconnected report)
        (remote report)
  | WsSocket.Disconnected =>
      mkWsBroadcastReport (matched report) (enqueued report) (rejected report) (S (disconnected report))
        (remote report)
  end.

Definition send_one (message : WebSocketMessage)
    (acc : runtime * list Observation * list (Z * WebSocketMessage)) (r : recipient) :=
  foldl (apply_effect r.1) acc (enqueue_to message r).2.

(** The runtime, the observations, the messages queued per connection and the
    report. *)
Definition send_local (rt : runtime) (t : WsTarget) (message : WebSocketMessage)
  : runtime * list Observation * list (Z * WebSocketMessage) * WsBroadcastReport :=
  let recipients :=
    select_broadcast_recipients rt (t_route t) (t_rooms t) (all_in_scope t) (excluded t) in
  let done := completion env recipients in
  (foldl (send_one message) (rt, [], []) done,
   foldl count_outcome (mkWsBroadcastReport (length recipients) 0 0 0 NotConfigured)
     (map (fun r => (enqueue_to message r).1) done)).

Definition target_record_broadcast (rt : runtime) (t : WsTarget) (report : WsBroadcastReport)
  : runtime * list Observation :=
  let '(r, obs) := record_broadcast (registry rt) (t_route t) (length (t_rooms t)) report in
  (set_registry rt r, obs).

(** ** Sending *)

Inductive WsBroadcastError :=
| BroadcastInvalidMessage
| BroadcastInvalidRoom (room : str)
| BroadcastBroker (source : WsBrokerError) (local_report : WsBroadcastReport)
| BroadcastPanic.

(** What a send did besides its result. *)
Record Sent := mkSent {
  sent_runtime : runtime;
  sent_observations : list Observation;
  sent_messages : list (Z * WebSocketMessage);
  sent_publication : option WsBrokerPublication
}.

Definition invalid_room (c : WsHubConfig) (room : str) : bool :=
  bool_decide (room = []) || contains Byte.x00 room || (hub_max_room_name_bytes c <? length room)%nat.

(** [published] is the broker's answer, [None] when it did not come in time. *)
Definition target_send (c : WsHubConfig) (rt : runtime) (t : WsTarget) (message : WebSocketMessage)
    (published : option (result unit WsBrokerError)) : result WsBroadcastReport WsBroadcastError * Sent :=
  if negb (is_text message) && negb (is_binary message) then
    (Err BroadcastInvalidMessage, mkSent rt [] [] None)
  else match List.find (invalid_room c) (t_rooms t) with
  | Some room => (Err (BroadcastInvalidRoom room), mkSent rt [] [] None)
  | None =>
      let '(rt, obs, out, report) := send_local rt t message in
      if negb (publish_remote t) || negb (has_broker c) then
        let '(rt, o) := target_record_broadcast rt t report in
        (Ok report, mkSent rt (obs ++ o) out None)
      else
        let '(rt, id) := next_publication rt in
        match broker_target t, broker_payload message with
        | None, _ => (Err BroadcastPanic, mkSent rt obs out None)
        | Some _, None => (Err BroadcastInvalidMessage, mkSent rt obs out None)
        | Some bt, Some bp =>
            let p := mkWsBrokerPublication id (node_id c) bt bp in
            match published with
            | Some (Ok _) =>
                let report := mkWsBroadcastReport (matched report) (enqueued report) (rejected report)
                                (disconnected report) Published in
                let rt := set_registry rt (record_broker_publication (registry rt)) in
                let '(rt, o) := target_record_broadcast rt t report in
                (Ok report, mkSent rt (obs ++ o) out (Some p))
            | failed =>
                let source := match failed with Some (Err e) => e | _ => Timeout end in
                let '(r, o1) := record_broker_error (node_id c) (registry rt) source in
                let '(rt, o2) := target_record_broadcast (set_registry rt r) t report in
                (Err (BroadcastBroker source report), mkSent rt (obs ++ o1 ++ o2) out (Some p))
            end
        end
  end.

(** ** Receiving *)

Definition deliver_broker_publication (rt : runtime) (p : WsBrokerPublication)
  : runtime * list Observation * list (Z * WebSocketMessage) :=
  let t := delivery_target (target p) in
  let '(rt, obs, out, report) := send_local rt t (delivery_message (payload p)) in
  let '(rt, o) := target_record_broadcast rt t report in
  (rt, obs ++ o, out).

Definition handle_broker_publication (c : WsHubConfig) (rt : runtime) (p : WsBrokerPublication)
  : runtime * list Observation * list (Z * WebSocketMessage) :=
  if (origin p =? node_id c)%Z then (rt, [], [])
  else match validate_broker_publication c p with
  | Err _ =>
      let '(r, o) := record_broker_error (node_id c) (registry rt)
                       (InvalidPublication §"publicacion remota rechazada") in
      (set_registry rt r, o ++ [BrokerInvalidPublication (origin p) (pub_id p)], [])
  | Ok _ =>
      let '(r, fresh) := mark_publication_seen (registry rt) (origin p, pub_id p) in
      let rt := set_registry rt r in
      if fresh then deliver_broker_publication rt p else (rt, [], [])
  end.
End hub.

(** ** The subscription supervisor *)

Inductive Phase := Subscribing | Streaming | Waiting | Stopped.

(** What the supervisor waits for: the shutdown signal, the answer of
    [subscribe] (under a timeout), the next item of the stream, the end of the
    retry delay together with the shutdown flag read then and at the top of the
    loop. *)
Inductive Event :=
| ShutdownChanged
| Subscribed
| SubscribeError (error : WsBrokerError)
| SubscribeTimeout
| Item (publication : WsBrokerPublication)
| ItemError (error : WsBrokerError)
| StreamEnd
| RetryElapsed (shutdown_read shutdown_at_top : bool).

Section supervisor.
Context {Ip Sender Abort : Type} `{Countable Ip}.
Abbreviation runtime := (@Runtime Ip Sender Abort _ _).
Context (backpressure : Sender -> BackpressurePolicy) (env : @Environment Sender) (c : WsHubConfig).

(** Durations in milliseconds. *)
Record Supervisor := mkSupervisor { phase : Phase; retry_delay : Z; sup_runtime : runtime }.

Definition INITIAL_RETRY : Z := 100.
Definition MAX_RETRY : Z := 1000.
Definition next_delay (d : Z) : Z := Z.min (d * 2) MAX_RETRY.

Definition disconnected_as (rt : runtime) (reason : WsBrokerErrorCategory) : runtime * list Observation :=
  let '(r, o) := set_broker_disconnected (node_id c) (registry rt) reason in (set_registry rt r, o).

(** The head of the loop. *)
Definition loop_top (shutdown : bool) (delay : Z) (rt : runtime) : Supervisor * list Observation :=
  if shutdown then
    let '(rt, o) := disconnected_as rt CatSubscriptionClosed in (mkSupervisor Stopped delay rt, o)
  else (mkSupervisor Subscribing delay rt, []).

Definition supervise_start (shutdown : bool) (rt : runtime) : Supervisor * list Observation :=
  loop_top shutdown INITIAL_RETRY rt.

(** Recording a broker error, then disconnecting and waiting. *)
Definition fail_with (s : Supervisor) (error : WsBrokerError) : Supervisor * list Observation :=
  let '(r, o1) := record_broker_error (node_id c) (registry (sup_runtime s)) error in
  let '(rt, o2) := disconnected_as (set_registry (sup_runtime s) r) (category error) in
  (mkSupervisor Waiting (retry_delay s) rt, o1 ++ o2).

(** [None]: the event is not awaited in this phase. *)
Definition supervise_step (s : Supervisor) (e : Event)
  : option (Supervisor * list Observation * list (Z * WebSocketMessage)) :=
  let stay x := Some (x, []) in
  match phase s, e with
  | Subscribing, ShutdownChanged | Streaming, ShutdownChanged =>
      let '(rt, o) := disconnected_as (sup_runtime s) CatSubscriptionClosed in
      stay (mkSupervisor Stopped (retry_delay s) rt, o)
  | Subscribing, Subscribed =>
      let '(r, o) := set_broker_connected (node_id c) (registry (sup_runtime s)) in
      stay (mkSupervisor Streaming INITIAL_RETRY (set_registry (sup_runtime s) r), o)
  | Subscribing, SubscribeError error => stay (fail_with s error)
  | Subscribing, SubscribeTimeout => stay (fail_with s Timeout)
  | Streaming, Item p =>
      let '(rt, o, out) := handle_broker_publication backpressure env c (sup_runtime s) p in
      Some (mkSupervisor Streaming (retry_delay s) rt, o, out)
  | Streaming, ItemError error => stay (fail_with s error)
  | Streaming, StreamEnd =>
      let '(rt, o) := disconnected_as (sup_runtime s) CatSubscriptionClosed in
      stay (mkSupervisor Waiting (retry_delay s) rt, o)
  | Waiting, ShutdownChanged => stay (mkSupervisor Stopped (retry_delay s) (sup_runtime s), [])
  | Waiting, RetryElapsed shutdown_read shutdown_at_top =>
      if shutdown_read then stay (mkSupervisor Stopped (retry_delay s) (sup_runtime s), [])
      else stay (loop_top shutdown_at_top (next_delay (retry_delay s)) (sup_runtime s))
  | _, _ => None
  end.

(** Supervision interleaved with the other tasks, which change the runtime but
    never the broker flag, with the events so far, the latest first. *)
Inductive supervised : list Event -> Supervisor -> Prop :=
| supervised_start shutdown rt :
    broker_connected (registry rt) = false -> supervised [] (supervise_start shutdown rt).1
| supervised_step es s e s' o out :
    supervised es s -> supervise_step s e = Some (s', o, out) -> supervised (e :: es) s'
| supervised_other es s rt :
    supervised es s -> broker_connected (registry rt) = broker_connected (registry (sup_runtime s)) ->
    supervised es (mkSupervisor (phase s) (retry_delay s) rt).
End supervisor.

(** The retry delays that have run out since the last subscription. *)
Fixpoint retries (es : list Event) : nat :=
  match es with
  | [] => 0
  | Subscribed :: _ => 0
  | RetryElapsed false _ :: es => S (retries es)
  | _ :: es => retries es
  end.
(** The delay after [k] retries, in milliseconds. *)
Definition backoff (k : nat) : Z := Z.min (100 * 2 ^ Z.of_nat k) 1000.

(** ** The hub builder *)

Record WsHubBuilder := mkWsHubBuilder {
  hb_max_rooms : nat;
  hb_max_room_name_bytes : nat;
  hb_broadcast_concurrency : nat;
  hb_broker_operation_timeout : Z;
  hb_broker : bool;
  hb_node_id : option Z
}.
Definition WsHubBuilder_default : WsHubBuilder := mkWsHubBuilder 32 128 64 (secs 2) false None.

(** [allocated] is the next process-wide node id. *)
Definition hub_build (b : WsHubBuilder) (allocated : Z) : result WsHubConfig WsError :=
  if (hb_max_rooms b =? 0)%nat || (hb_max_room_name_bytes b =? 0)%nat || (hb_broadcast_concurrency b =? 0)%nat
     || (hb_broker_operation_timeout b =? 0)%Z then
    Err (InvalidConfiguration §"los limites del hub WebSocket deben ser mayores que cero")
  else
    Ok (mkWsHubConfig (hb_max_rooms b) (hb_max_room_name_bytes b) (hb_broadcast_concurrency b)
          (hb_broker_operation_timeout b) (hb_broker b) (default allocated (hb_node_id b))).

(** ** Lemmas *)

Section hub_lemmas.
Context {Ip Sender Abort : Type} `{Countable Ip}.
Abbreviation runtime := (@Runtime Ip Sender Abort _ _).
Abbreviation entry := (@ConnectionEntry Ip Sender Abort).
Context (backpressure : Sender -> BackpressurePolicy).

(** Only counters (and observations) differ. *)
Definition counters_only (rt rt' : runtime) : Prop :=
  rt' = set_registry rt (set_counters (registry rt) (counters (registry rt'))).

Lemma counters_only_refl rt : counters_only rt rt.
Proof. by destruct rt as [? ? []]. Qed.

Lemma counters_only_trans rt1 rt2 rt3 :
  counters_only rt1 rt2 -> counters_only rt2 rt3 -> counters_only rt1 rt3.
Proof. unfold counters_only. intros H1 H2. rewrite H2, H1. done. Qed.

Lemma apply_effects_spec conn effects rt obs out :
  let acc := foldl (apply_effect conn) (rt, obs, out) effects in
  counters_only rt acc.1.1 /\ acc.2 = out ++ map (pair conn) (delivered effects).
Proof.
  revert rt obs out. induction effects as [|e effects IH]; intros rt obs out; cbn.
  - split; [apply counters_only_refl|]. by rewrite app_nil_r.
  - destruct e as [m|cmd|]; cbn.
    + destruct (IH rt obs (out ++ [(conn, m)])) as [H1 H2]. split; [done|]. cbn in H2. by rewrite H2, <- app_assoc.
    + apply IH.
    + edestruct IH as [H1 H2]. split; [|exact H2]. eapply counters_only_trans; [|exact H1].
      by destruct rt as [? ? []].
Qed.

Lemma send_all_spec env message rs rt obs out :
  let acc := foldl (send_one backpressure env message) (rt, obs, out) rs in
  counters_only rt acc.1.1
  /\ acc.2 = out ++ map (fun r => (r.1, message))
               (List.filter (fun r => bool_decide ((enqueue_to backpressure env message r).1 = Enqueued)) rs).
Proof.
  revert rt obs out. induction rs as [|r rs IH]; intros rt obs out; cbn [foldl].
  - split; [apply counters_only_refl|]. by rewrite app_nil_r.
  - unfold send_one at 2 4.
    destruct (apply_effects_spec r.1 (enqueue_to backpressure env message r).2 rt obs out) as [H1 H2].
    destruct (foldl (apply_effect r.1) _ _) as [[rt' obs'] out'] eqn:E. cbn in H1, H2.
    destruct (IH rt' obs' out') as [H3 H4]. split; [by eapply counters_only_trans|]. rewrite H4, H2.
    rewrite <- app_assoc. f_equal. cbn [List.filter].
    assert (Hd : delivered (enqueue_to backpressure env message r).2 =
      if bool_decide ((enqueue_to backpressure env message r).1 = Enqueued) then [message] else []).
    { unfold enqueue_to. destruct r.2 as [s|]; [|done]. rewrite enqueue_delivers.
      by destruct (enqueue (backpressure s) (answers env s) message) as [[] ?]. }
    rewrite Hd. by case_bool_decide.
Qed.

Lemma count_outcomes_spec os report :
  let report' := foldl count_outcome report os in
  matched report' = matched report /\ remote report' = remote report
  /\ (enqueued report' = enqueued report + length (List.filter (fun o => bool_decide (o = Enqueued)) os))%nat
  /\ (enqueued report' + rejected report' + disconnected report'
      = enqueued report + rejected report + disconnected report + length os)%nat.
Proof.
  revert report. induction os as [|o os IH]; intros report; cbn [foldl]; [cbn; split_and!; first [done|lia]|].
  destruct (IH (count_outcome report o)) as (H1 & H2 & H3 & H4).
  cbn [List.filter]. destruct o; case_bool_decide; try done; cbn [length matched remote enqueued rejected disconnected
    count_outcome] in *; split_and!; first [done|lia].
Qed.

(** The connections a target addresses. *)
Definition in_audience (t : WsTarget) (e : entry) : Prop :=
  if all_in_scope t then in_scope (t_route t) e = true
  else exists route' room, t_route t = Some route' /\ route e = route' /\ room ∈ t_rooms t /\ room ∈ entry_rooms e.

(** A live connection whose queue takes the message. *)
Definition receives env (message : WebSocketMessage) (rt : runtime) (c : Z) (e : entry) : Prop :=
  connections (registry rt) !! c = Some e
  /\ exists s, internal_sender e = Some s
     /\ (enqueue (backpressure s) (answers env s) message).1 = Enqueued.

Context (max_rooms max_name : nat) (policy : str -> ResolvedWebSocketConfig).

Lemma enqueue_to_Enqueued env message (r : Z * option Sender) :
  (enqueue_to backpressure env message r).1 = Enqueued <->
  exists s, r.2 = Some s /\ (enqueue (backpressure s) (answers env s) message).1 = Enqueued.
Proof. unfold enqueue_to. destruct r.2 as [s|]; cbn; naive_solver. Qed.

Lemma map_filter_length {A B} (f : A -> B) (p : B -> bool) l :
  length (List.filter p (map f l)) = length (List.filter (fun x => p (f x)) l).
Proof. induction l as [|x l IH]; cbn; [done|]. destruct (p (f x)); cbn; by rewrite IH. Qed.

(** Local delivery: one copy for each connection of the audience whose queue
    takes it, whatever the completion order. *)
Lemma send_local_spec env rt t message :
  reachable max_rooms max_name policy rt -> (forall l, completion env l ≡ₚ l) ->
  let '(rt', obs, out, report) := send_local backpressure env rt t message in
  counters_only rt rt'
  /\ NoDup out.*1
  /\ (forall c m, (c, m) ∈ out <->
        m = message /\ c ∉ excluded t /\ exists e, in_audience t e /\ receives env message rt c e)
  /\ (enqueued report + rejected report + disconnected report = matched report)%nat
  /\ length out = enqueued report /\ remote report = NotConfigured.
Proof.
  intros Hr Hperm. unfold send_local.
  set (rs := select_broadcast_recipients rt (t_route t) (t_rooms t) (all_in_scope t) (excluded t)).
  destruct (recipients_spec max_rooms max_name policy rt (t_route t) (t_rooms t) (all_in_scope t) (excluded t) Hr)
    as [Hsort Hrs]. fold rs in Hsort, Hrs.
  destruct (send_all_spec env message (completion env rs) rt [] []) as [H1 H2].
  destruct (foldl (send_one backpressure env message) (rt, [], []) (completion env rs)) as [[rt' obs] out].
  cbn [fst snd app] in H1, H2.
  destruct (count_outcomes_spec (map (fun r => (enqueue_to backpressure env message r).1) (completion env rs))
    (mkWsBroadcastReport (length rs) 0 0 0 NotConfigured)) as (H3 & H4 & H5 & H6).
  cbn [enqueued rejected disconnected matched remote] in H3, H4, H5, H6.
  split_and!; [done| | |rewrite H6, H3, length_map, (Hperm rs); lia| |done].
  - rewrite H2.
    assert (Hn : NoDup (completion env rs).*1).
    { rewrite (Hperm rs). clear -Hsort. change (rs.*1) with (map fst rs).
      induction Hsort as [|x l _ IH Hf]; [constructor|]. constructor; [|done].
      intros Hx. rewrite Forall_forall in Hf. specialize (Hf _ Hx). lia. }
    clear -Hn. induction (completion env rs) as [|[c s] l IH]; [constructor|].
    apply NoDup_cons in Hn as [Hc Hn]. cbn [List.filter]. case_bool_decide; [|by apply IH]. cbn.
    apply NoDup_cons. split; [|by apply IH]. intros Hin. apply Hc.
    apply list_elem_of_fmap in Hin as ([c' m] & E & Hin). apply list_elem_of_fmap in Hin as (r & [= -> ->] & Hin).
    apply elem_of_filter_bool in Hin as [Hin _]. apply list_elem_of_fmap. by exists r.
  - intros c m. rewrite H2, list_elem_of_fmap. split.
    + intros (r & [= -> ->] & [Hin Hq]%elem_of_filter_bool). bsplit. apply enqueue_to_Enqueued in Hq as (s & Es & Hq).
      rewrite (Hperm rs) in Hin. destruct r as [c' s']. cbn in Es. subst s'. apply Hrs in Hin as (Hx & e & He & Hs & Ha).
      split_and!; [done|done|]. exists e. split; [done|]. split; [done|]. by exists s.
    + intros (-> & Hx & e & Ha & He & s & Hs & Hq). exists (c, Some s). split; [done|]. apply elem_of_filter_bool.
      split; [|bgoal; apply enqueue_to_Enqueued; by exists s]. rewrite (Hperm rs). apply Hrs. split; [done|].
      exists e. by split_and!.
  - by rewrite H2, length_map, H5, map_filter_length.
Qed.

(** *** Sending *)

(** A target the constructors build names a route when it names rooms. *)
Definition wf_target (t : WsTarget) : Prop := t_route t = None -> all_in_scope t = true.

Definition sendable (m : WebSocketMessage) : Prop := is_text m = true \/ is_binary m = true.

Lemma sendable_payload m : sendable m -> exists bp, broker_payload m = Some bp /\ delivery_message bp = m.
Proof. intros [Hm|Hm]; destruct m; try done; cbn; eauto. Qed.

Lemma wf_broker_target t : wf_target t -> exists bt, broker_target t = Some bt.
Proof.
  unfold wf_target, broker_target. destruct (t_route t), (all_in_scope t); eauto. intros Hw. by specialize (Hw eq_refl).
Qed.

Lemma record_broadcast_only rt t report rt' o :
  target_record_broadcast rt t report = (rt', o) -> counters_only rt rt'.
Proof. unfold target_record_broadcast, record_broadcast. intros [= <- _]. by destruct rt as [? ? []]. Qed.

Lemma counters_only_same rt rt' :
  counters_only rt rt' -> connections (registry rt') = connections (registry rt)
  /\ rooms (registry rt') = rooms (registry rt) /\ seen_publications (registry rt') = seen_publications (registry rt)
  /\ broker_connected (registry rt') = broker_connected (registry rt).
Proof. unfold counters_only. intros ->. done. Qed.

Lemma counters_only_ids rt rt' : counters_only rt rt' -> next_publication_id rt' = next_publication_id rt.
Proof. unfold counters_only. by intros ->. Qed.

(** The result of a send from the broker's answer. *)
Definition send_result (remote_send : bool) (published : option (result unit WsBrokerError))
    (report : WsBroadcastReport) : result WsBroadcastReport WsBroadcastError :=
  if remote_send then
    match published with
    | Some (Ok _) => Ok (mkWsBroadcastReport (matched report) (enqueued report) (rejected report)
                           (disconnected report) Published)
    | Some (Err e) => Err (BroadcastBroker e report)
    | None => Err (BroadcastBroker Timeout report)
    end
  else Ok report.

(** A valid send is [send_local], and a publication when there is a broker. *)
Lemma target_send_spec env c (rt : runtime) t message published :
  sendable message -> Forall (fun room => invalid_room c room = false) (t_rooms t) -> wf_target t ->
  let remote_send := publish_remote t && has_broker c in
  let '(rt', obs, out, report) := send_local backpressure env rt t message in
  let '(res, s) := target_send backpressure env c rt t message published in
  res = send_result remote_send published report /\ sent_messages s = out
  /\ connections (registry (sent_runtime s)) = connections (registry rt')
  /\ rooms (registry (sent_runtime s)) = rooms (registry rt')
  /\ next_publication_id (sent_runtime s)
     = (if remote_send then u64_succ (next_publication_id rt') else next_publication_id rt')
  /\ exists bt bp, broker_target t = Some bt /\ broker_payload message = Some bp
     /\ sent_publication s = if remote_send then
           Some (mkWsBrokerPublication (next_publication_id rt') (node_id c) bt bp) else None.
Proof.
  intros Hm Hrooms Hw remote_send. unfold target_send.
  assert (negb (is_text message) && negb (is_binary message) = false) as ->.
  { destruct Hm as [-> | ->]; cbn; [done|by rewrite andb_false_r]. }
  rewrite (proj2 (find_None _ _) Hrooms).
  destruct (send_local backpressure env rt t message) as [[[rt' obs] out] report].
  destruct (wf_broker_target t Hw) as [bt Hbt]. destruct (sendable_payload message Hm) as (bp & Hbp & _).
  assert (negb (publish_remote t) || negb (has_broker c) = negb remote_send) as ->
    by (unfold remote_send; by destruct (publish_remote t), (has_broker c)).
  destruct remote_send; cbn [negb].
  - rewrite Hbt, Hbp. cbn [next_publication]. destruct published as [[[]|e]|];
      (split_and!; [done|done|done|done|done|]; by exists bt, bp).
  - split_and!; [done|done|done|done|done|]. by exists bt, bp.
Qed.

(** C18. Broadcasts are exact: for a text or binary message to valid rooms, one
    copy is queued for each live connection of the audience that is not excluded
    and whose queue takes it, none for anybody else, in whatever order the sends
    complete; the report adds up and its [enqueued] is the number of copies; the
    connections and rooms are untouched. With a broker, and unless the target is
    local, the message is published once, under the next publication identifier
    of this node, with the rooms, the route or everybody as its target and with
    exactly the message as its payload; the identifier is used up, and the
    result is the broker's answer. *)
Theorem broadcast_exact env c rt t message published :
  reachable max_rooms max_name policy rt -> (forall l, completion env l ≡ₚ l) ->
  sendable message -> Forall (fun room => invalid_room c room = false) (t_rooms t) -> wf_target t ->
  let remote_send := publish_remote t && has_broker c in
  let '(res, s) := target_send backpressure env c rt t message published in
  (forall conn m, (conn, m) ∈ sent_messages s <->
     m = message /\ conn ∉ excluded t /\ exists e, in_audience t e /\ receives env message rt conn e)
  /\ NoDup (sent_messages s).*1
  /\ connections (registry (sent_runtime s)) = connections (registry rt)
  /\ rooms (registry (sent_runtime s)) = rooms (registry rt)
  /\ (exists report, res = send_result remote_send published report
       /\ (enqueued report + rejected report + disconnected report = matched report)%nat
       /\ length (sent_messages s) = enqueued report)
  /\ next_publication_id (sent_runtime s)
     = (if remote_send then u64_succ (next_publication_id rt) else next_publication_id rt)
  /\ (exists bp, delivery_message bp = message
       /\ sent_publication s
          = if remote_send then
              Some (mkWsBrokerPublication (next_publication_id rt) (node_id c)
                      match t_route t with
                      | None => AllRoutes
                      | Some route => if all_in_scope t then RouteAll route else RouteRooms route (t_rooms t)
                      end bp)
            else None).
Proof.
  intros Hr Hp Hm Hrooms Hw remote_send.
  pose proof (send_local_spec env rt t message Hr Hp) as Hl.
  pose proof (target_send_spec env c rt t message published Hm Hrooms Hw) as Hs. fold remote_send in Hs. cbn zeta in Hs.
  destruct (send_local backpressure env rt t message) as [[[rt' obs] out] report].
  destruct (target_send backpressure env c rt t message published) as [res s].
  destruct Hl as (Hc & Hn & Hout & Hsum & Hlen & _). pose proof (counters_only_ids _ _ Hc) as Hid.
  apply counters_only_same in Hc as (C1 & C2 & _).
  destruct Hs as (-> & -> & S1 & S2 & -> & bt & bp & Hbt & Hbp & ->). rewrite Hid.
  split_and!; try congruence; try done.
  - exists report. done.
  - destruct (sendable_payload message Hm) as (bp' & Hbp' & Hd). rewrite Hbp in Hbp'. injection Hbp' as <-. exists bp. split; [done|].
    destruct remote_send; [|done]. do 2 f_equal. unfold broker_target in Hbt. by repeat case_match; simplify_eq.
Qed.

(** A broadcast to more rooms than the hub's limit is delivered and
    published successfully, but every node with the same configuration refuses
    the publication: it never leaves the sending node. *)
Theorem oversized_target_is_local_only env c (rt : runtime) t route' text :
  t_route t = Some route' -> all_in_scope t = false -> publish_remote t = true -> has_broker c = true ->
  Forall (fun room => invalid_room c room = false) (t_rooms t) -> hub_max_rooms c < length (t_rooms t) ->
  exists report p,
    (target_send backpressure env c rt t (MText text) (Some (Ok tt))).1 = Ok report
    /\ remote report = Published
    /\ sent_publication (target_send backpressure env c rt t (MText text) (Some (Ok tt))).2 = Some p
    /\ is_ok (validate_broker_publication c p) = false.
Proof.
  intros Ht Ha Hpub Hb Hrooms Hlen.
  assert (Hw : wf_target t) by (unfold wf_target; congruence).
  pose proof (target_send_spec env c rt t (MText text) (Some (Ok tt)) (or_introl eq_refl) Hrooms Hw) as Hs.
  rewrite Hpub, Hb in Hs. cbn [andb] in Hs.
  destruct (send_local backpressure env rt t (MText text)) as [[[rt' obs] out] report].
  destruct (target_send backpressure env c rt t (MText text) (Some (Ok tt))) as [res s].
  destruct Hs as (Hres & _ & _ & _ & _ & bt & bp & Hbt & _ & Hpubl). cbn [send_result fst snd] in *.
  eexists _, _. split_and!; [exact Hres|done|exact Hpubl|].
  unfold broker_target in Hbt. rewrite Ht, Ha in Hbt. injection Hbt as <-.
  unfold validate_broker_publication. cbn [target validate_broker_target].
  destruct (validate_broker_route route') as [[]|]; [|done].
  rewrite (proj2 (Nat.ltb_lt _ _) Hlen), orb_true_r. done.
Qed.

(** *** Receiving *)

Lemma delivery_audience t bt e :
  broker_target t = Some bt -> (in_audience (delivery_target bt) e <-> in_audience t e).
Proof.
  unfold broker_target, in_audience. destruct (t_route t) as [route'|], (all_in_scope t); intros [= <-]; cbn; try done.
  unfold normalize_rooms. setoid_rewrite ascending_elem. setoid_rewrite elem_of_list_to_set. done.
Qed.

Lemma delivery_excluded t bt : broker_target t = Some bt -> excluded (delivery_target bt) = ∅.
Proof. by destruct bt. Qed.

Lemma mark_fresh (rt : runtime) key :
  runtime_ok max_rooms policy rt -> key ∉ seen_publications (registry rt) ->
  let '(r, fresh) := mark_publication_seen (registry rt) key in
  fresh = true /\ key ∈ seen_publications r /\ connections r = connections (registry rt).
Proof.
  intros Hok Hk. unfold mark_publication_seen. rewrite bool_decide_eq_false_2 by done.
  destruct (rt_window _ _ _ Hok) as [Hs _ _].
  destruct (MAX_SEEN_PUBLICATIONS <? _)%nat eqn:El; [|split_and!; [done|cbn; set_solver|done]].
  destruct (seen_publication_order (registry rt)) as [|x l] eqn:Eo; [by vm_compute in El|].
  cbn [app]. split_and!; [done| |done]. cbn [seen_publications].
  assert (key <> x). { intros ->. apply Hk. rewrite Hs. set_solver. }
  set_solver.
Qed.

Lemma handle_seen env c (rt : runtime) p :
  (origin p, pub_id p) ∈ seen_publications (registry rt) ->
  (handle_broker_publication backpressure env c rt p).2 = [].
Proof.
  intros Hs. unfold handle_broker_publication. destruct (_ =? _)%Z; [done|].
  destruct (validate_broker_publication c p); [|done].
  unfold mark_publication_seen. by rewrite bool_decide_eq_true_2.
Qed.

(** C19. A publication crosses nodes faithfully and once: what a node publishes
    for a target, another node that accepts it and has not seen it queues for
    exactly the live connections of its own that the target addresses (the
    exclusions are the sender's own); receiving it again right after queues
    nothing, and the publishing node ignores it. *)
Theorem remote_delivery_exact env c rt t bt message bp p :
  reachable max_rooms max_name policy rt -> (forall l, completion env l ≡ₚ l) ->
  broker_target t = Some bt -> broker_payload message = Some bp -> target p = bt -> payload p = bp ->
  origin p <> node_id c -> validate_broker_publication c p = Ok tt ->
  (origin p, pub_id p) ∉ seen_publications (registry rt) ->
  let '(rt', _, out) := handle_broker_publication backpressure env c rt p in
  (forall conn m, (conn, m) ∈ out <->
     m = message /\ exists e, in_audience t e /\ receives env message rt conn e)
  /\ NoDup out.*1
  /\ (handle_broker_publication backpressure env c rt' p).2 = []
  /\ forall c', node_id c' = origin p -> handle_broker_publication backpressure env c' rt p = (rt, [], []).
Proof.
  intros Hr Hperm Hbt Hbp Ht Hpay Ho Hv Hk. unfold handle_broker_publication at 1.
  rewrite (proj2 (Z.eqb_neq _ _) Ho), Hv.
  pose proof (mark_fresh rt _ (registry_reachable_ok _ _ _ _ Hr) Hk) as Hmark.
  assert (Hr' : reachable max_rooms max_name policy
    (set_registry rt (mark_publication_seen (registry rt) (origin p, pub_id p)).1))
    by (eapply rtc_r; [exact Hr|apply step_seen]).
  destruct (mark_publication_seen (registry rt) (origin p, pub_id p)) as [r fresh].
  destruct Hmark as (-> & Hin & Hconn). cbn [fst] in Hr'. unfold deliver_broker_publication.
  pose proof (send_local_spec env _ (delivery_target (target p)) (delivery_message (payload p)) Hr' Hperm) as Hl.
  destruct (send_local _ _ _ _ _) as [[[rt1 obs] out] report].
  destruct Hl as (Hc1 & Hn & Hout & _).
  destruct (target_record_broadcast rt1 (delivery_target (target p)) report) as [rt2 o] eqn:E.
  apply record_broadcast_only in E.
  destruct (counters_only_same _ _ (counters_only_trans _ _ _ Hc1 E)) as (_ & _ & Hseen & _).
  assert (Hmsg : delivery_message (payload p) = message) by (rewrite Hpay; destruct message; try done; by injection Hbp as <-).
  split_and!; [|done| |].
  - intros conn m. rewrite Hout, Hmsg, Ht. rewrite (delivery_excluded _ _ Hbt). unfold receives. cbn [set_registry registry].
    rewrite Hconn. setoid_rewrite (delivery_audience t bt _ Hbt). set_solver.
  - apply handle_seen. by rewrite Hseen.
  - intros c' Hc'. unfold handle_broker_publication. by rewrite Hc', Z.eqb_refl.
Qed.
End hub_lemmas.

Section supervisor_theorems.
Context {Ip Sender Abort : Type} `{Countable Ip}.
Abbreviation runtime := (@Runtime Ip Sender Abort _ _).
Context (backpressure : Sender -> BackpressurePolicy) (env : @Environment Sender) (c : WsHubConfig).

Lemma send_local_only (rt : runtime) t m :
  counters_only rt (send_local backpressure env rt t m).1.1.1.
Proof.
  unfold send_local. cbn [fst].
  by destruct (send_all_spec backpressure env m
    (completion env (select_broadcast_recipients rt (t_route t) (t_rooms t) (all_in_scope t) (excluded t)))
    rt [] []) as [? _].
Qed.

Lemma handle_flag (rt : runtime) p :
  broker_connected (registry (handle_broker_publication backpressure env c rt p).1.1)
  = broker_connected (registry rt).
Proof.
  unfold handle_broker_publication. destruct (_ =? _)%Z; [done|].
  destruct (validate_broker_publication c p); [|done].
  destruct (mark_publication_seen (registry rt) (origin p, pub_id p)) as [r fresh] eqn:E.
  assert (Hr : broker_connected r = broker_connected (registry rt)).
  { unfold mark_publication_seen in E. case_bool_decide; [by injection E as <- _|].
    destruct (if (_ <? _)%nat then _ else _); by injection E as <- _. }
  destruct fresh; [|done]. unfold deliver_broker_publication.
  pose proof (send_local_only (set_registry rt r) (delivery_target (target p)) (delivery_message (payload p))) as Hs.
  destruct (send_local _ _ _ _ _) as [[[rt1 obs] out] report]. cbn [fst] in Hs.
  destruct (target_record_broadcast rt1 _ report) as [rt2 o] eqn:Eb. apply record_broadcast_only in Eb.
  destruct (counters_only_same _ _ (counters_only_trans _ _ _ Hs Eb)) as (_ & _ & _ & Hf).
  cbn [fst]. by rewrite Hf.
Qed.

Definition supervisor_ok (k : nat) (s : @Supervisor Ip Sender Abort _ _) : Prop :=
  (broker_connected (registry (sup_runtime s)) = true <-> phase s = Streaming) /\ retry_delay s = backoff k.

Lemma loop_top_ok b k (rt : runtime) :
  broker_connected (registry rt) = false -> supervisor_ok k (loop_top c b (backoff k) rt).1.
Proof. intros Hf. unfold loop_top, supervisor_ok. destruct b; cbn; [done|]. by rewrite Hf. Qed.

Lemma next_delay_backoff k : next_delay (backoff k) = backoff (S k).
Proof. unfold next_delay, backoff, MAX_RETRY. rewrite Nat2Z.inj_succ, Z.pow_succ_r by lia. lia. Qed.

Lemma backoff_bounds k : (100 <= backoff k <= 1000)%Z.
Proof. unfold backoff. pose proof (Z.pow_pos_nonneg 2 (Z.of_nat k)). lia. Qed.

Lemma supervise_step_ok es s e s' o out :
  supervisor_ok (retries es) s -> supervise_step backpressure env c s e = Some (s', o, out) ->
  supervisor_ok (retries (e :: es)) s'.
Proof.
  intros [Hf Hd]. unfold supervise_step.
  assert (Hq : phase s <> Streaming -> broker_connected (registry (sup_runtime s)) = false)
    by (destruct (broker_connected _); naive_solver).
  destruct (phase s) eqn:Ep, e; try done; intros E; try (injection E as <- _ _; split; cbn; [done|done]).
  - pose proof (handle_flag (sup_runtime s) publication) as Hh.
    destruct (handle_broker_publication _ _ _ _ _) as [[rt o'] out']. injection E as <- _ _. cbn [fst] in Hh.
    split; cbn; [|done]. by rewrite Hh.
  - injection E as <- _ _. split; cbn; [|done]. by rewrite Hq.
  - destruct shutdown_read.
    + injection E as <- _ _. split; cbn; [|done]. by rewrite Hq.
    + rewrite Hd, next_delay_backoff in E.
      pose proof (loop_top_ok shutdown_at_top (S (retries es)) _ (Hq ltac:(done))) as Ht.
      injection E as E _. by rewrite E in Ht.
Qed.

Lemma supervised_ok es s : supervised backpressure env c es s -> supervisor_ok (retries es) s.
Proof.
  induction 1 as [b rt Hf|es s e s' o out _ IH E|es s rt _ [IH Hd] Hf].
  - by apply (loop_top_ok b 0).
  - by eapply supervise_step_ok.
  - split; cbn; [by rewrite Hf|done].
Qed.

(** C20. The broker supervisor always reports the connection truthfully, backs
    off, keeps trying and can always be stopped. After any sequence of events,
    whatever the other tasks do in between: the registry says "connected"
    exactly while a subscription is streaming; the delay the supervisor waits
    after its next failure is [100 * 2^k] ms, capped at one second, for the [k]
    delays that ran out since it last subscribed (or started); while it waits,
    the end of the delay makes it subscribe again; and the shutdown signal
    stops it at once with the registry disconnected. *)
Theorem supervisor_lifecycle es (s : @Supervisor Ip Sender Abort _ _) :
  supervised backpressure env c es s ->
  (broker_connected (registry (sup_runtime s)) = true <-> phase s = Streaming)
  /\ retry_delay s = Z.min (100 * 2 ^ Z.of_nat (retries es)) 1000
  /\ (100 <= retry_delay s <= 1000)%Z
  /\ (phase s = Waiting -> exists s' : @Supervisor Ip Sender Abort _ _,
        supervise_step backpressure env c s (RetryElapsed false false) = Some (s', [], [])
        /\ phase s' = Subscribing /\ retry_delay s' = Z.min (2 * retry_delay s) 1000)
  /\ (phase s <> Stopped -> exists (s' : @Supervisor Ip Sender Abort _ _) o,
        supervise_step backpressure env c s ShutdownChanged = Some (s', o, [])
        /\ phase s' = Stopped /\ broker_connected (registry (sup_runtime s')) = false).
Proof.
  intros Hs%supervised_ok. destruct Hs as [Hf Hd]. pose proof (backoff_bounds (retries es)).
  split; [done|]. split; [done|]. split; [by rewrite Hd|]. split; intros Hp; unfold supervise_step.
  - rewrite Hp. eexists. split; [reflexivity|]. split; [done|]. cbn. unfold next_delay, MAX_RETRY. lia.
  - destruct (phase s) eqn:Ep; try done; (eexists _, _; split; [reflexivity|]); (split; [done|]); cbn; try done.
    destruct (broker_connected _); [naive_solver|done].
Qed.
End supervisor_theorems.

(** ** Instances *)

Module HubSample.
Import WsRuntimeInv.Sample.
Definition config : WsHubConfig := mkWsHubConfig 1 16 64 (secs 2) true 7.
Definition env : @Environment nat := mkEnvironment (fun _ => mkChannelAnswers AwaitOk TryPermit AwaitOk) id.
Definition live : @Runtime Z nat nat _ _ := (register_driver joined 2 9 9).1.
Definition wait (_ : nat) : BackpressurePolicy := Wait.
Lemma reachable_live : reachable 4 16 policy live.
Proof. eapply rtc_r; [apply reachable_joined|apply step_driver]. Qed.
Definition publication : WsBrokerPublication := mkWsBrokerPublication 1 3 (RouteRooms chat [room]) (PText §"hi").
End HubSample.

Lemma broadcast_exact_witness :
  sent_messages (target_send HubSample.wait HubSample.env HubSample.config HubSample.live
    (to_room Sample.chat Sample.room) (MText §"hi") (Some (Ok tt))).2 = [(2%Z, MText §"hi")]
  /\ NoDup (sent_messages (target_send HubSample.wait HubSample.env HubSample.config HubSample.live
       (to_room Sample.chat Sample.room) (MText §"hi") (Some (Ok tt))).2).*1.
Proof.
  split; [by vm_compute|].
  pose proof (broadcast_exact HubSample.wait 4 16 Sample.policy HubSample.env HubSample.config HubSample.live
    (to_room Sample.chat Sample.room) (MText §"hi") (Some (Ok tt)) HubSample.reachable_live
    (fun l => Permutation_refl l) (or_introl eq_refl)) as Hb.
  assert (H1 : Forall (fun room => invalid_room HubSample.config room = false)
    (t_rooms (to_room Sample.chat Sample.room))) by (vm_compute; by repeat constructor).
  assert (H2 : wf_target (to_room Sample.chat Sample.room)) by done.
  specialize (Hb H1 H2). destruct (target_send _ _ _ _ _ _ _) as [res s]. by destruct Hb as (_ & Hn & _).
Defined.

Lemma oversized_target_is_local_only_witness :
  exists report p,
    (target_send HubSample.wait HubSample.env HubSample.config HubSample.live
       (to_many Sample.chat [§"a"; §"b"]) (MText §"hi") (Some (Ok tt))).1 = Ok report
    /\ remote report = Published
    /\ sent_publication (target_send HubSample.wait HubSample.env HubSample.config HubSample.live
         (to_many Sample.chat [§"a"; §"b"]) (MText §"hi") (Some (Ok tt))).2 = Some p
    /\ is_ok (validate_broker_publication HubSample.config p) = false.
Proof.
  apply (oversized_target_is_local_only HubSample.wait HubSample.env HubSample.config HubSample.live
    (to_many Sample.chat [§"a"; §"b"]) Sample.chat §"hi"); try done.
  - vm_compute. by repeat constructor.
  - vm_compute. lia.
Defined.

Lemma remote_delivery_exact_witness :
  (handle_broker_publication HubSample.wait HubSample.env HubSample.config HubSample.live HubSample.publication).2
  = [(2%Z, MText §"hi")]
  /\ (handle_broker_publication HubSample.wait HubSample.env HubSample.config
        (handle_broker_publication HubSample.wait HubSample.env HubSample.config HubSample.live
           HubSample.publication).1.1 HubSample.publication).2 = [].
Proof.
  split; [by vm_compute|].
  pose proof (remote_delivery_exact HubSample.wait 4 16 Sample.policy HubSample.env HubSample.config HubSample.live
    (to_room Sample.chat Sample.room) (RouteRooms Sample.chat [Sample.room]) (MText §"hi") (PText §"hi")
    HubSample.publication HubSample.reachable_live (fun l => Permutation_refl l)) as Hb.
  assert (Hf : (3, 1)%Z ∉ seen_publications (registry HubSample.live)) by (apply (bool_decide_unpack _); by vm_compute).
  specialize (Hb eq_refl eq_refl eq_refl eq_refl ltac:(done) eq_refl Hf).
  destruct (handle_broker_publication _ _ _ HubSample.live _) as [[rt' o] out]. by destruct Hb as (_ & _ & Hb & _).
Defined.

(** Two failed subscriptions: the third failure is followed by 400 ms. *)
Lemma supervisor_lifecycle_witness :
  exists s : @Supervisor Z nat nat _ _,
    supervised HubSample.wait HubSample.env HubSample.config
      [RetryElapsed false false; SubscribeTimeout; RetryElapsed false false; SubscribeTimeout] s
    /\ phase s = Subscribing /\ retry_delay s = 400%Z.
Proof.
  assert (Hs : exists s : @Supervisor Z nat nat _ _, supervised HubSample.wait HubSample.env HubSample.config
      [RetryElapsed false false; SubscribeTimeout; RetryElapsed false false; SubscribeTimeout] s /\ phase s = Subscribing).
  { eexists. split.
    - eapply supervised_step; [eapply supervised_step; [eapply supervised_step; [eapply supervised_step|]|]|].
      + exact (supervised_start _ _ _ false HubSample.live eq_refl).
      + reflexivity.
      + reflexivity.
      + reflexivity.
      + reflexivity.
    - reflexivity. }
  destruct Hs as (s & Hs & Hp). exists s. split; [exact Hs|]. split; [exact Hp|].
  destruct (supervisor_lifecycle _ _ _ _ _ Hs) as (_ & -> & _). reflexivity.
Defined.
