(* ===== verification/WsDriver.v ===== *)
(** * The WebSocket connection driver ([src/app/websocket/driver.rs])

    [drive] is one task per connection: a loop whose every iteration first
    honours the shutdown flag, then a finished handler, and otherwise one ready
    branch of its [select!]. [iteration] is that loop body. Time, the peer's
    frames, the queue snapshots and the results of the transport's writes are
    inputs; what the driver wrote, delivered and recorded is its output. *)
From S2P Require Import Prelude Strs Percent Request WsConfig WsSocket.

(** ** Data *)

Inductive WebSocketCloseInitiator := Local | Peer | RuntimeInit | TimeoutInit | ProtocolError | HandlerInit.
#[export] Instance WebSocketCloseInitiator_eq_dec : EqDecision WebSocketCloseInitiator.
Proof. solve_decision. Defined.

Record WebSocketCloseInfo := mkCloseInfo {
  code : Z;
  reason : str;
  initiator : WebSocketCloseInitiator;
  clean : bool
}.

Record DriverState := mkDriverState {
  close_sent : bool;
  close_received : bool;
  close_info_of : option WebSocketCloseInfo;
  close_deadline : option Z;
  pending_ping : option (str * Z);
  last_inbound_frame : Z;
  last_application_message : Z;
  opened_at : Z;
  next_ping_token : Z;
  message_window_started : Z;
  message_count : Z
}.

Definition DriverState_new (now : Z) : DriverState :=
  mkDriverState false false None None None now now now 1 now 0.

Record DriverOutcome := mkDriverOutcome { close_info_out : WebSocketCloseInfo; handler_done : bool }.

(** The loop variables of [drive]. *)
Record Driver := mkDriver {
  state : DriverState;
  control_open : bool;
  outbound_open : bool;
  handler_completed : bool;
  sender_tracking_closed : bool
}.
Definition Driver_new (now : Z) : Driver := mkDriver (DriverState_new now) true true false false.

(** Errors of the transport: a timeout is an [Io] error of kind [TimedOut]. *)
Inductive TransportError := TransportTimeout | TransportFailed.
Inductive WriteResult := WriteOk | WriteErr (e : TransportError).

Inductive InboundDelivery := Delivered | ReceiverClosed | TimedOut.
#[export] Instance InboundDelivery_eq_dec : EqDecision InboundDelivery.
Proof. solve_decision. Defined.

(** What an iteration does: attempted writes and flushes of the transport,
    messages handed to the handler's queue, and records at the runtime. *)
Inductive Output :=
| Write (message : WebSocketMessage)
| Flush
| DeliverInbound (message : WebSocketMessage)
| RecordClosing
| RecordMessage (outbound : bool) (bytes : nat)
| RecordHeartbeatTimeout
| RecordSaturatedInbound
| RecordHandlerFailed
| CloseChannels.

(** ** The transport monad: results of the writes still to come, outputs so far *)

Definition M (A : Type) : Type := list WriteResult -> result A TransportError * list Output * list WriteResult.
Definition ret {A} (a : A) : M A := fun ws => (Ok a, [], ws).
Definition emit (o : Output) : M unit := fun ws => (Ok tt, [o], ws).
Definition bind {A B} (m : M A) (k : A -> M B) : M B := fun ws =>
  match m ws with
  | (Ok a, out, ws) => let '(r, more, ws) := k a ws in (r, out ++ more, ws)
  | (Err e, out, ws) => (Err e, out, ws)
  end.
Notation "'do' x <- m ; k" := (bind m (fun x => k)) (at level 10, x name, m at level 100, k at level 200)
  : rustrest_scope.
Notation "'run' m ; k" := (bind m (fun _ => k)) (at level 10, m at level 100, k at level 200)
  : rustrest_scope.

Definition attempt (o : Output) : M unit := fun ws =>
  match ws with
  | [] => (Ok tt, [o], [])
  | WriteOk :: ws => (Ok tt, [o], ws)
  | WriteErr e :: ws => (Err e, [o], ws)
  end.
Definition send_with_timeout (m : WebSocketMessage) : M unit := attempt (Write m).
Definition flush_with_timeout : M unit := attempt Flush.

(** ** Closing *)

Definition close_info (frame : option CloseFrame) (initiator : WebSocketCloseInitiator) (clean : bool)
  : WebSocketCloseInfo :=
  match frame with
  | Some (code, reason) => mkCloseInfo code reason initiator clean
  | None => mkCloseInfo 1005 [] initiator clean
  end.
Definition peer_disconnect_info : WebSocketCloseInfo := mkCloseInfo 1006 [] Peer false.

Definition outcome (st : DriverState) (handler_completed : bool) : DriverOutcome :=
  let info := default peer_disconnect_info (close_info_of st) in
  mkDriverOutcome (mkCloseInfo (code info) (reason info) (initiator info) (close_sent st && close_received st))
    handler_completed.

Section driver.
(** [Instant::checked_add] and the text of a transport error. *)
Context (checked_add : Z -> Z -> option Z) (error_text : TransportError -> str).
Context (config : ResolvedWebSocketConfig).

Definition protocol_outcome (e : TransportError) : DriverOutcome :=
  mkDriverOutcome (mkCloseInfo 1006 (error_text e)
    (match e with TransportTimeout => TimeoutInit | TransportFailed => ProtocolError end) false) false.

Definition initiate_close (now : Z) (st : DriverState) (frame : option CloseFrame)
    (who : WebSocketCloseInitiator) : M DriverState :=
  if close_sent st then ret st
  else
    run emit RecordClosing;
    let st := mkDriverState true (close_received st) (Some (close_info frame who false))
                (checked_add now (cfg_close_timeout config)) (pending_ping st) (last_inbound_frame st)
                (last_application_message st) (opened_at st) (next_ping_token st)
                (message_window_started st) (message_count st) in
    run send_with_timeout (MClose frame);
    ret st.

Definition close_command_channels (d : Driver) : M Driver :=
  run emit CloseChannels;
  ret (mkDriver (state d) false false (handler_completed d) (sender_tracking_closed d)).

Definition with_state (d : Driver) (st : DriverState) : Driver :=
  mkDriver st (control_open d) (outbound_open d) (handler_completed d) (sender_tracking_closed d).

(** Closing the command channels, then the connection: the common end of the
    deadlines, the limits and the failures. *)
Definition close_connection (now : Z) (d : Driver) (code : Z) (reason : str) (who : WebSocketCloseInitiator)
  : M Driver :=
  do d <- close_command_channels d;
  do st <- initiate_close now (state d) (Some (code, reason)) who;
  ret (with_state d st).

Definition initiate_runtime_shutdown (now : Z) (d : Driver) : M Driver :=
  close_connection now d 1001 §"apagado del servidor" RuntimeInit.

Definition message_len (m : WebSocketMessage) : nat :=
  match m with
  | MText s | MBinary s | MPing s | MPong s => length s
  | MClose (Some (_, reason)) => length reason
  | MClose None | MFrame => 0
  end.

(** The messages queued before the close, in order. *)
Fixpoint send_queued_outbound (queued : list WebSocketMessage) : M unit :=
  match queued with
  | [] => ret tt
  | m :: queued =>
      run send_with_timeout m;
      run emit (RecordMessage true (message_len m));
      send_queued_outbound queued
  end.

Definition write_control (c : ControlCommand) : M unit :=
  send_with_timeout match c with
                    | CPing payload => MPing payload
                    | CPong payload => MPong payload
                    | CClose frame | CDisconnect frame => MClose frame
                    end.

(** The commands left in the control queue when the handler has finished. *)
Fixpoint drain_controls (now : Z) (d : Driver) (controls : list ControlCommand)
    (queued : list WebSocketMessage) : M DriverState :=
  match controls with
  | [] =>
      run send_queued_outbound queued;
      initiate_close now (state d) (Some (1000%Z, [])) HandlerInit
  | CClose frame :: _ =>
      run send_queued_outbound queued;
      initiate_close now (state d) frame Local
  | CDisconnect frame :: _ => initiate_close now (state d) frame RuntimeInit
  | command :: controls =>
      run write_control command;
      drain_controls now d controls queued
  end.
Definition initiate_handler_completion (now : Z) (d : Driver) (controls : list ControlCommand)
    (queued : list WebSocketMessage) : M Driver :=
  do d <- close_command_channels d;
  do st <- drain_controls now d controls queued;
  ret (with_state d st).

(** ** Deadlines and the message rate *)

Definition ping_deadline (st : DriverState) : option Z :=
  match pending_ping st with
  | Some _ => None
  | None => interval ← ping_interval config; checked_add (last_inbound_frame st) interval
  end.
Definition pong_deadline (st : DriverState) : option Z :=
  p ← pending_ping st; checked_add p.2 (pong_timeout config).
Definition idle_deadline (st : DriverState) : option Z :=
  timeout ← idle_timeout config; checked_add (last_application_message st) timeout.
Definition lifetime_deadline (st : DriverState) : option Z :=
  lifetime ← max_connection_lifetime config; checked_add (opened_at st) lifetime.

Definition passed (deadline : option Z) (now : Z) : bool :=
  match deadline with Some t => (t <=? now)%Z | None => false end.

(** The fixed window, as the pair (window start, count), and whether the message
    exceeds it. *)
Definition rate_step (limit : MessageRateLimit) (started count now : Z) : Z * Z * bool :=
  let '(started, count) :=
    if (interval limit <=? Z.max 0 (now - started))%Z then (now, 0%Z) else (started, count) in
  if (max_messages limit <=? count)%Z then (started, count, true) else (started, (count + 1)%Z, false).

Definition message_rate_exceeded (st : DriverState) (now : Z) : DriverState * bool :=
  match message_rate_limit config with
  | None => (st, false)
  | Some limit =>
      let '(started, count, exceeded) := rate_step limit (message_window_started st) (message_count st) now in
      (mkDriverState (close_sent st) (close_received st) (close_info_of st) (close_deadline st)
         (pending_ping st) (last_inbound_frame st) (last_application_message st) (opened_at st)
         (next_ping_token st) started count, exceeded)
  end.

(** [u64::to_be_bytes]. *)
Definition to_be_bytes (n : Z) : str :=
  map (fun k => byte_of (Z.shiftr n (8 * k) mod 256)) [7; 6; 5; 4; 3; 2; 1; 0]%Z.

(** ** Incoming frames *)

Definition inbound_frame (st : DriverState) (now : Z) : DriverState :=
  mkDriverState (close_sent st) (close_received st) (close_info_of st) (close_deadline st)
    (pending_ping st) now (last_application_message st) (opened_at st) (next_ping_token st)
    (message_window_started st) (message_count st).
Definition application_message (st : DriverState) : DriverState :=
  mkDriverState (close_sent st) (close_received st) (close_info_of st) (close_deadline st)
    (pending_ping st) (last_inbound_frame st) (last_inbound_frame st) (opened_at st) (next_ping_token st)
    (message_window_started st) (message_count st).
Definition set_pending_ping (st : DriverState) (p : option (str * Z)) : DriverState :=
  mkDriverState (close_sent st) (close_received st) (close_info_of st) (close_deadline st)
    p (last_inbound_frame st) (last_application_message st) (opened_at st) (next_ping_token st)
    (message_window_started st) (message_count st).
Definition match_pong (st : DriverState) (m : WebSocketMessage) : DriverState :=
  match m, pending_ping st with
  | MPong payload, Some (expected, _) => if bool_decide (expected = payload) then set_pending_ping st None else st
  | _, _ => st
  end.
Definition peer_close (st : DriverState) (frame : option CloseFrame) : DriverState :=
  mkDriverState true true
    (match close_info_of st with Some i => Some i | None => Some (close_info frame Peer true) end)
    (close_deadline st) (pending_ping st) (last_inbound_frame st) (last_application_message st) (opened_at st)
    (next_ping_token st) (message_window_started st) (message_count st).

(** The rest of the handling of a frame that is not over the rate; [delivery] is
    the answer of the handler's queue. [inr] ends the loop. *)
Definition accept_frame (now : Z) (d : Driver) (m : WebSocketMessage) (delivery : InboundDelivery)
  : M (Driver + DriverOutcome) :=
  let d := with_state d (match_pong (state d) m) in
  run (match m with MPing _ | MClose _ => flush_with_timeout | _ => ret tt end);
  do st <- (match m with
            | MClose frame => run emit RecordClosing; ret (peer_close (state d) frame)
            | _ => ret (state d)
            end);
  run (if bool_decide (delivery = Delivered) then emit (DeliverInbound m) else ret tt);
  do d <- (if bool_decide (delivery = TimedOut) && negb (close_sent st) then
             run emit RecordSaturatedInbound;
             close_connection now (with_state d st) 1013
               §"El handler WebSocket no consume mensajes a tiempo" RuntimeInit
           else ret (with_state d st));
  ret (if close_received (state d) then inr (outcome (state d) (handler_completed d)) else inl d).

Definition incoming_frame (now : Z) (d : Driver) (m : WebSocketMessage) (delivery : InboundDelivery)
  : M (Driver + DriverOutcome) :=
  let st := inbound_frame (state d) now in
  if is_text m || is_binary m then
    let '(st, exceeded) := message_rate_exceeded st now in
    if exceeded then
      do d <- close_connection now (with_state d st) 1008 §"Limite de mensajes WebSocket excedido" RuntimeInit;
      ret (inl d)
    else
      run emit (RecordMessage false (message_len m));
      accept_frame now (with_state d (application_message st)) m delivery
  else accept_frame now (with_state d st) m delivery.

(** What [stream.next()] yields. *)
Inductive Incoming :=
| Frame (message : WebSocketMessage) (delivery : InboundDelivery)
| ConnectionClosed
| MessageTooLong
| TransportErr (e : TransportError)
| EndOfStream.

Definition incoming (now : Z) (d : Driver) (i : Incoming) : M (Driver + DriverOutcome) :=
  match i with
  | Frame m delivery => incoming_frame now d m delivery
  | ConnectionClosed =>
      let st := state d in
      if close_sent st then
        ret (inr (outcome (mkDriverState true true (close_info_of st) (close_deadline st) (pending_ping st)
                             (last_inbound_frame st) (last_application_message st) (opened_at st)
                             (next_ping_token st) (message_window_started st) (message_count st))
                    (handler_completed d)))
      else ret (inr (protocol_outcome TransportFailed))
  | MessageTooLong =>
      do d <- close_connection now d 1009 §"Mensaje WebSocket demasiado grande" ProtocolError;
      ret (inl d)
  | TransportErr e => ret (inr (protocol_outcome e))
  | EndOfStream => ret (inr (outcome (state d) (handler_completed d)))
  end.

(** ** The loop body *)

(** The branches of the [select!]; a command of the control queue comes with the
    messages queued at that moment. *)
Inductive Branch :=
| BShutdown
| BControl (command : option ControlCommand) (queued : list WebSocketMessage)
| BCloseDeadline
| BPongDeadline
| BLifetime
| BIdle
| BOutbound (message : option WebSocketMessage)
| BIncoming (i : Incoming)
| BPing
| BHandlerDone (succeeded : bool)
| BSenderCount (closed : bool).

Definition enabled (now : Z) (d : Driver) (b : Branch) : bool :=
  let st := state d in
  match b with
  | BShutdown => negb (close_sent st)
  | BControl _ _ => control_open d
  | BCloseDeadline => close_sent st && passed (close_deadline st) now
  | BPongDeadline => negb (close_sent st) && passed (pong_deadline st) now
  | BLifetime => negb (close_sent st) && passed (lifetime_deadline st) now
  | BIdle => negb (close_sent st) && passed (idle_deadline st) now
  | BOutbound _ => outbound_open d && negb (close_sent st)
  | BIncoming _ => true
  | BPing => negb (close_sent st) && passed (ping_deadline st) now
  | BHandlerDone _ => negb (handler_completed d)
  | BSenderCount _ => handler_completed d && negb (close_sent st)
  end.

Definition control_branch (now : Z) (d : Driver) (command : ControlCommand) (queued : list WebSocketMessage)
  : M Driver :=
  if close_sent (state d) then ret d
  else match command with
  | CClose frame =>
      do d <- close_command_channels d;
      run send_queued_outbound queued;
      do st <- initiate_close now (state d) frame Local;
      ret (with_state d st)
  | CDisconnect frame =>
      do d <- close_command_channels d;
      do st <- initiate_close now (state d) frame RuntimeInit;
      ret (with_state d st)
  | command => run write_control command; ret d
  end.

Definition ping_branch (now : Z) (d : Driver) : M Driver :=
  let st := state d in
  let payload := to_be_bytes (next_ping_token st) in
  let st := mkDriverState (close_sent st) (close_received st) (close_info_of st) (close_deadline st)
              (pending_ping st) (last_inbound_frame st) (last_application_message st) (opened_at st)
              ((next_ping_token st + 1) mod 18446744073709551616) (message_window_started st)
              (message_count st) in
  run send_with_timeout (MPing payload);
  ret (with_state d (set_pending_ping st (Some (payload, now)))).

Definition handler_branch (now : Z) (d : Driver) (succeeded : bool) : M Driver :=
  let d := mkDriver (state d) (control_open d) (outbound_open d) true (sender_tracking_closed d) in
  if succeeded then ret d
  else
    run emit RecordHandlerFailed;
    if close_sent (state d) then ret d
    else close_connection now d 1011 §"El handler WebSocket fallo" HandlerInit.

Definition continue_with (m : M Driver) : M (Driver + DriverOutcome) := do d <- m; ret (inl d).

Definition select_branch (now : Z) (d : Driver) (b : Branch) : M (Driver + DriverOutcome) :=
  match b with
  | BShutdown => continue_with (initiate_runtime_shutdown now d)
  | BControl None _ =>
      ret (inl (mkDriver (state d) false (outbound_open d) (handler_completed d) (sender_tracking_closed d)))
  | BControl (Some command) queued => continue_with (control_branch now d command queued)
  | BCloseDeadline => ret (inr (outcome (state d) (handler_completed d)))
  | BPongDeadline =>
      continue_with (run emit RecordHeartbeatTimeout;
        close_connection now (with_state d (set_pending_ping (state d) None)) 1001
          §"Tiempo de espera de Pong agotado" TimeoutInit)
  | BLifetime =>
      continue_with (close_connection now d 1001 §"Duracion maxima de conexion agotada" TimeoutInit)
  | BIdle => continue_with (close_connection now d 1001 §"Tiempo de inactividad agotado" TimeoutInit)
  | BOutbound None =>
      ret (inl (mkDriver (state d) (control_open d) false (handler_completed d) (sender_tracking_closed d)))
  | BOutbound (Some m) =>
      continue_with (run send_with_timeout m; run emit (RecordMessage true (message_len m)); ret d)
  | BIncoming i => incoming now d i
  | BPing => continue_with (ping_branch now d)
  | BHandlerDone succeeded => continue_with (handler_branch now d succeeded)
  | BSenderCount closed =>
      ret (inl (mkDriver (state d) (control_open d) (outbound_open d) (handler_completed d)
                  (closed || sender_tracking_closed d)))
  end.

(** The inputs of one iteration: the clock, the shutdown flag, whether every
    public sender is gone, the snapshots of the queues, the ready branch. *)
Record Input := mkInput {
  now : Z;
  shutdown : bool;
  senders_gone : bool;
  controls : list ControlCommand;
  queued : list WebSocketMessage;
  branch : Branch
}.

Definition iteration (d : Driver) (i : Input) : M (Driver + DriverOutcome) :=
  if negb (close_sent (state d)) && shutdown i then
    continue_with (initiate_runtime_shutdown (now i) d)
  else if handler_completed d && negb (close_sent (state d)) && (sender_tracking_closed d || senders_gone i) then
    continue_with (initiate_handler_completion (now i) d (controls i) (queued i))
  else if enabled (now i) d (branch i) then select_branch (now i) d (branch i)
  else ret (inl d).

(** An iteration whose transport error ends the loop with [protocol_outcome]. *)
Definition iterate (d : Driver) (i : Input) (ws : list WriteResult)
  : (Driver + DriverOutcome) * list Output * list WriteResult :=
  match iteration d i ws with
  | (Ok next, out, ws) => (next, out, ws)
  | (Err e, out, ws) => (inr (protocol_outcome e), out, ws)
  end.

(** [drive]: iterations until an outcome, with everything written on the way. A
    branch that is not ready leaves the loop waiting. *)
Fixpoint drive (d : Driver) (inputs : list Input) (ws : list WriteResult)
  : (Driver + DriverOutcome) * list Output :=
  match inputs with
  | [] => (inl d, [])
  | i :: inputs =>
      let '(next, out, ws) := iterate d i ws in
      match next with
      | inl d => let '(last, more) := drive d inputs ws in (last, out ++ more)
      | inr o => (inr o, out)
      end
  end.

(** The start of [run]: a driver whose registration was refused says so and ends. *)
Definition refuse_start : M DriverOutcome := fun ws =>
  let frame := (1001%Z, §"El servidor se esta cerrando") in
  let '(_, out, ws) := write_control (CDisconnect (Some frame)) ws in
  (Ok (mkDriverOutcome (close_info (Some frame) RuntimeInit false) false), out, ws).
End driver.

(** ** The closing handshake *)

Definition writes (out : list Output) : list WebSocketMessage :=
  omap (fun o => match o with Write m => Some m | _ => None end) out.
Definition is_close (m : WebSocketMessage) : bool := match m with MClose _ => true | _ => false end.
Definition no_close (l : list WebSocketMessage) : Prop := Forall (fun m => is_close m = false) l.

(** The writes of a computation, from and to the flag "a Close frame has been
    written": nothing follows a Close frame. *)
Definition trans (b : bool) (l : list WebSocketMessage) (b' : bool) : Prop :=
  match b, b' with
  | true, true => l = []
  | true, false => False
  | false, false => no_close l
  | false, true => exists pre frame, l = pre ++ [MClose frame] /\ no_close pre
  end.

Lemma trans_app b l1 b1 l2 b2 : trans b l1 b1 -> trans b1 l2 b2 -> trans b (l1 ++ l2) b2.
Proof.
  destruct b, b1, b2; cbn; try done.
  - by intros -> ->.
  - intros (pre & f & -> & Hp) ->. rewrite app_nil_r. eauto.
  - intros H1 (pre & f & -> & Hp). exists (l1 ++ pre), f. split; [by rewrite app_assoc|]. by apply Forall_app.
  - intros H1 H2. by apply Forall_app.
Qed.

Lemma trans_quiet b : trans b [] b.
Proof. destruct b; [done|constructor]. Qed.

Lemma writes_app o1 o2 : writes (o1 ++ o2) = writes o1 ++ writes o2.
Proof. apply omap_app. Qed.

(** From the flag [b], every result satisfies [Q] at the flag reached. *)
Definition spec {A} (b : bool) (m : M A) (Q : A -> bool -> Prop) : Prop :=
  forall ws, match m ws with
             | (Ok a, out, _) => exists b', trans b (writes out) b' /\ Q a b'
             | (Err _, out, _) => exists b', trans b (writes out) b'
             end.

Lemma spec_ret {A} b (a : A) (Q : A -> bool -> Prop) : Q a b -> spec b (ret a) Q.
Proof. intros HQ ws. exists b. split; [apply trans_quiet|done]. Qed.

Lemma spec_bind {A B} b (m : M A) (k : A -> M B) Q R :
  spec b m Q -> (forall a b', Q a b' -> spec b' (k a) R) -> spec b (bind m k) R.
Proof.
  intros Hm Hk ws. unfold bind. specialize (Hm ws). destruct (m ws) as [[[a|e] out] ws']; [|done].
  destruct Hm as (b1 & Ht & HQ). specialize (Hk a b1 HQ ws').
  destruct (k a ws') as [[[x|e] more] ws'']; rewrite writes_app.
  - destruct Hk as (b2 & Ht2 & HR). exists b2. split; [by eapply trans_app|done].
  - destruct Hk as (b2 & Ht2). exists b2. by eapply trans_app.
Qed.

Lemma spec_weaken {A} b (m : M A) (Q R : A -> bool -> Prop) :
  spec b m Q -> (forall a b', Q a b' -> R a b') -> spec b m R.
Proof.
  intros Hm HR ws. specialize (Hm ws). destruct (m ws) as [[[a|e] out] ws']; [|done].
  destruct Hm as (b1 & Ht & HQ). eauto.
Qed.

Lemma spec_emit b o : writes [o] = [] -> spec b (emit o) (fun _ b' => b' = b).
Proof. intros Hw ws. cbn [emit]. exists b. rewrite Hw. split; [apply trans_quiet|done]. Qed.

Lemma spec_attempt b o b' : trans b (writes [o]) b' -> spec b (attempt o) (fun _ b'' => b'' = b').
Proof. intros Ht [|[|e] ws]; cbn; eauto. Qed.

Lemma spec_write b m : is_close m = false -> b = false -> spec b (send_with_timeout m) (fun _ b' => b' = b).
Proof. intros Hm ->. apply (spec_attempt false (Write m) false). by constructor. Qed.

Lemma spec_write_close frame : spec false (send_with_timeout (MClose frame)) (fun _ b' => b' = true).
Proof. apply (spec_attempt false (Write (MClose frame)) true). exists [], frame. split; [done|constructor]. Qed.

(** The flag of a driver is its [close_sent]. *)
Abbreviation st_flag := (fun st b => close_sent st = b).
Abbreviation d_flag := (fun d b => close_sent (state d) = b).
Definition next_flag (next : Driver + DriverOutcome) (b : bool) : Prop :=
  match next with inl d => close_sent (state d) = b | inr _ => True end.

(** What the public senders put in the outbound queue. *)
Definition application (m : WebSocketMessage) : Prop := match m with MText _ | MBinary _ | MFrame => True | _ => False end.

Lemma senders_queue_application policy env control open m :
  Forall application (delivered (WsSocket.send policy env m).2)
  /\ Forall application (delivered (try_send env control m).2)
  /\ Forall application (delivered (internal_send policy env open m).2).
Proof.
  destruct m, policy, env as [[] [] []], control, open; cbn; split_and!; repeat constructor.
Qed.

Section close_protocol.
Context (checked_add : Z -> Z -> option Z) (error_text : TransportError -> str).
Context (config : ResolvedWebSocketConfig).

Lemma initiate_close_spec t st frame who :
  spec (close_sent st) (initiate_close checked_add config t st frame who) st_flag.
Proof.
  unfold initiate_close. destruct (close_sent st) eqn:E; [by apply spec_ret|].
  eapply spec_bind; [by apply spec_emit|]. intros _ b ->.
  eapply spec_bind; [apply spec_write_close|]. intros _ b ->. by apply spec_ret.
Qed.

Lemma close_channels_spec b d : spec b (close_command_channels d) (fun d' b' => b' = b /\ state d' = state d).
Proof. eapply spec_bind; [by apply spec_emit|]. intros _ b' ->. by apply spec_ret. Qed.

Lemma close_connection_spec t d c r who :
  spec (close_sent (state d)) (close_connection checked_add config t d c r who) d_flag.
Proof.
  eapply spec_bind; [apply close_channels_spec|]. intros d' b [-> <-].
  eapply spec_bind; [apply initiate_close_spec|]. intros st b <-. by apply spec_ret.
Qed.

Lemma application_not_close m : application m -> is_close m = false.
Proof. by destruct m. Qed.

Lemma send_queued_spec q : Forall application q -> spec false (send_queued_outbound q) (fun _ b => b = false).
Proof.
  induction 1 as [|m q Hm _ IH]; [by apply spec_ret|].
  eapply spec_bind; [apply spec_write; [by apply application_not_close|done]|]. intros _ b ->.
  eapply spec_bind; [by apply spec_emit|]. intros _ b ->. apply IH.
Qed.

Lemma drain_controls_spec t d cs q :
  close_sent (state d) = false -> Forall application q ->
  spec false (drain_controls checked_add config t d cs q) st_flag.
Proof.
  intros Hd Hq. assert (Hclose : forall frame who,
    spec false (run send_queued_outbound q; initiate_close checked_add config t (state d) frame who) st_flag).
  { intros frame who. eapply spec_bind; [by apply send_queued_spec|]. intros _ b ->.
    rewrite <- Hd. apply initiate_close_spec. }
  induction cs as [|[p|p|f|f] cs IH]; cbn [drain_controls].
  - apply Hclose.
  - eapply spec_bind; [by apply spec_write|]. intros _ b ->. apply IH.
  - eapply spec_bind; [by apply spec_write|]. intros _ b ->. apply IH.
  - apply Hclose.
  - rewrite <- Hd at 1. apply initiate_close_spec.
Qed.

Lemma control_branch_spec t d c q :
  Forall application q -> spec (close_sent (state d)) (control_branch checked_add config t d c q) d_flag.
Proof.
  intros Hq. unfold control_branch. destruct (close_sent (state d)) eqn:Hd; [by apply spec_ret|].
  destruct c as [p|p|f|f].
  - eapply spec_bind; [by apply spec_write|]. intros _ b ->. by apply spec_ret.
  - eapply spec_bind; [by apply spec_write|]. intros _ b ->. by apply spec_ret.
  - eapply spec_bind; [apply close_channels_spec|]. intros d' b [-> E].
    eapply spec_bind; [by apply send_queued_spec|]. intros _ b ->.
    eapply spec_bind; [rewrite E, <- Hd at 1; apply initiate_close_spec|]. intros st b <-. by apply spec_ret.
  - eapply spec_bind; [apply close_channels_spec|]. intros d' b [-> E].
    eapply spec_bind; [rewrite E, <- Hd at 1; apply initiate_close_spec|]. intros st b <-. by apply spec_ret.
Qed.

Lemma continue_spec b m : spec b m d_flag -> spec b (continue_with m) next_flag.
Proof. intros Hm. eapply spec_bind; [exact Hm|]. intros d b' <-. by apply spec_ret. Qed.

Lemma match_pong_flag st m : close_sent (match_pong st m) = close_sent st.
Proof.
  unfold match_pong. destruct m; try done. destruct (pending_ping st) as [[e ?]|]; [|done]. by case_bool_decide.
Qed.

Lemma accept_frame_spec t d m delivery :
  spec (close_sent (state d)) (accept_frame checked_add config t d m delivery) next_flag.
Proof.
  unfold accept_frame. set (d1 := with_state d (match_pong (state d) m)).
  assert (Hd1 : close_sent (state d1) = close_sent (state d)) by apply match_pong_flag.
  rewrite <- Hd1. clearbody d1.
  eapply (spec_bind _ _ _ (fun _ b => b = close_sent (state d1))).
  { destruct m; try (by apply spec_ret); apply spec_attempt, trans_quiet. }
  intros _ b ->.
  eapply (spec_bind _ _ _ (fun st b => b = close_sent (state d1) /\
    if is_close m then close_sent st = true /\ close_received st = true else st = state d1)).
  { destruct m; by apply spec_ret. }
  intros st b [-> Hst].
  eapply (spec_bind _ _ _ (fun _ b => b = close_sent (state d1))).
  { case_bool_decide; [by apply spec_emit|by apply spec_ret]. }
  intros _ b ->. destruct (is_close m) eqn:Em.
  - destruct Hst as [-> Hr]. rewrite andb_false_r. eapply spec_bind; [by apply spec_ret with (Q := fun d' b => state d' = st)|].
    intros d' b E. apply spec_ret. by rewrite E, Hr.
  - subst st. eapply (spec_bind _ _ _ d_flag).
    + destruct (bool_decide _ && _) eqn:Eb; [|by apply spec_ret].
      eapply spec_bind; [by apply spec_emit|]. intros _ b ->. apply (close_connection_spec _ (with_state d1 (state d1))).
    + intros d' b <-. apply spec_ret. by destruct (close_received (state d')).
Qed.

Lemma rate_flag st t : close_sent (message_rate_exceeded config st t).1 = close_sent st.
Proof.
  unfold message_rate_exceeded. destruct (message_rate_limit config) as [l|]; [|done].
  by destruct (rate_step _ _ _ _) as [[? ?] ?].
Qed.

Lemma incoming_spec t d i :
  spec (close_sent (state d)) (incoming checked_add error_text config t d i) next_flag.
Proof.
  destruct i as [m delivery| | |e|]; cbn [incoming].
  - unfold incoming_frame. destruct (is_text m || is_binary m).
    + pose proof (rate_flag (inbound_frame (state d) t) t) as Hf.
      destruct (message_rate_exceeded config (inbound_frame (state d) t) t) as [st exceeded]. cbn [fst] in Hf.
      change (close_sent (inbound_frame (state d) t)) with (close_sent (state d)) in Hf. rewrite <- Hf.
      destruct exceeded.
      * apply continue_spec, (close_connection_spec _ (with_state d st)).
      * eapply spec_bind; [by apply spec_emit|]. intros _ b ->.
        apply (accept_frame_spec t (with_state d (application_message st))).
    + apply (accept_frame_spec t (with_state d (inbound_frame (state d) t))).
  - destruct (close_sent (state d)); by apply spec_ret.
  - apply continue_spec, close_connection_spec.
  - by apply spec_ret.
  - by apply spec_ret.
Qed.

(** The queues only hold what the senders put there. *)
Definition branch_ok (b : Branch) : Prop :=
  match b with
  | BControl _ q => Forall application q
  | BOutbound (Some m) => application m
  | _ => True
  end.
Definition input_ok (i : Input) : Prop := Forall application (queued i) /\ branch_ok (branch i).

Lemma select_spec t d b :
  branch_ok b -> enabled checked_add config t d b = true ->
  spec (close_sent (state d)) (select_branch checked_add error_text config t d b) next_flag.
Proof.
  intros Hb He. destruct b as [|[c|] q| | | | |[m|]|i| |ok|cl]; cbn [select_branch enabled] in *; bsplit.
  - apply continue_spec, close_connection_spec.
  - by apply continue_spec, control_branch_spec.
  - by apply spec_ret.
  - by apply spec_ret.
  - apply continue_spec. eapply spec_bind; [by apply spec_emit|]. intros _ b ->.
    apply (close_connection_spec _ (with_state d (set_pending_ping (state d) None))).
  - apply continue_spec, close_connection_spec.
  - apply continue_spec, close_connection_spec.
  - apply continue_spec. eapply spec_bind; [apply spec_write; [by apply application_not_close|done]|].
    intros _ b ->. eapply spec_bind; [by apply spec_emit|]. intros _ b ->. by apply spec_ret.
  - by apply spec_ret.
  - apply incoming_spec.
  - apply continue_spec. eapply spec_bind; [by apply spec_write|]. intros _ b ->. by apply spec_ret.
  - apply continue_spec. unfold handler_branch. cbn [state].
    destruct ok; [by apply spec_ret|]. eapply spec_bind; [by apply spec_emit|]. intros _ b ->. cbn [state].
    destruct (close_sent (state d)) eqn:E; [by apply spec_ret|].
    rewrite <- E. apply (close_connection_spec _ (mkDriver (state d) _ _ _ _)).
  - by apply spec_ret.
Qed.

Lemma iteration_spec d i :
  input_ok i -> spec (close_sent (state d)) (iteration checked_add error_text config d i) next_flag.
Proof.
  intros [Hq Hb]. unfold iteration.
  destruct (negb (close_sent (state d)) && shutdown i); [apply continue_spec, close_connection_spec|].
  destruct (handler_completed d && _ && _) eqn:E; bsplit.
  - apply continue_spec. eapply spec_bind; [apply close_channels_spec|]. intros d' b [-> E'].
    eapply spec_bind; [rewrite H1; apply drain_controls_spec; [by rewrite E'|done]|]. intros st b <-. by apply spec_ret.
  - destruct (enabled _ _ _ _ _) eqn:Ee; [by apply select_spec|by apply spec_ret].
Qed.

Lemma drive_trans inputs : forall d ws,
  Forall input_ok inputs ->
  let '(last, out) := drive checked_add error_text config d inputs ws in
  exists b, trans (close_sent (state d)) (writes out) b /\ next_flag last b.
Proof.
  induction inputs as [|i inputs IH]; intros d ws Hi; cbn [drive].
  - exists (close_sent (state d)). split; [apply trans_quiet|done].
  - apply Forall_cons in Hi as [Hi His]. pose proof (iteration_spec d i Hi ws) as Hs. unfold iterate.
    destruct (iteration checked_add error_text config d i ws) as [[[[d'|o]|e] out] ws'].
    + destruct Hs as (b & Ht & Hf). cbn [next_flag] in Hf. specialize (IH d' ws' His).
      destruct (drive checked_add error_text config d' inputs ws') as [last more].
      destruct IH as (b2 & Ht2 & Hf2). exists b2. split; [|done]. rewrite writes_app. eapply trans_app; [done|].
      by rewrite <- Hf.
    + destruct Hs as (b & Ht & _). exists b. done.
    + destruct Hs as (b & Ht). exists b. done.
Qed.

(** C22. The closing handshake is sent once and last: over any run of the driver,
    whatever the peer, the handler, the clock and the transport do, at most one
    Close frame is written and no frame of any kind is written after it, and a
    running driver is marked as closing exactly when it has written it. *)
Theorem close_frame_is_last t inputs ws :
  Forall input_ok inputs ->
  let '(last, out) := drive checked_add error_text config (Driver_new t) inputs ws in
  (forall pre frame post, writes out = pre ++ MClose frame :: post -> no_close pre /\ post = [])
  /\ (forall d, last = inl d -> (close_sent (state d) = true <-> exists frame, MClose frame ∈ writes out)).
Proof.
  intros Hi. pose proof (drive_trans inputs (Driver_new t) ws Hi) as Hd.
  destruct (drive checked_add error_text config (Driver_new t) inputs ws) as [last out].
  destruct Hd as (b & Ht & Hf). cbn [Driver_new state DriverState_new close_sent] in Ht. split.
  - intros pre frame post E. destruct b; cbn in Ht.
    + destruct Ht as (pre' & f' & E' & Hp). rewrite E' in E. clear E'.
      destruct post as [|x post' _] using rev_ind.
      * apply app_inj_2 in E as [-> _]; done.
      * exfalso. change (MClose frame :: post' ++ [x]) with ((MClose frame :: post') ++ [x]) in E.
        rewrite app_assoc in E. apply app_inj_2 in E as [-> _]; [|done].
        apply Forall_app in Hp as [_ Hp]. by apply Forall_cons in Hp as [? _].
    + exfalso. rewrite E in Ht. apply Forall_app in Ht as [_ Hp]. by apply Forall_cons in Hp as [? _].
  - intros d ->. cbn in Hf. rewrite Hf. destruct b; cbn in Ht.
    + destruct Ht as (pre & f & -> & _). split; [|done]. intros _. exists f. set_solver.
    + split; [done|]. intros [f Hin]. unfold no_close in Ht. rewrite Forall_forall in Ht. by apply Ht in Hin.
Qed.
End close_protocol.

(** ** The message rate *)

Section rate.
Context (config : ResolvedWebSocketConfig) (limit : MessageRateLimit).
Hypothesis limited : message_rate_limit config = Some limit.

(** The messages received at the given instants: those accepted. *)
Fixpoint rate_run (st : DriverState) (times : list Z) : DriverState * list Z :=
  match times with
  | [] => (st, [])
  | t :: times =>
      let '(st, exceeded) := message_rate_exceeded config st t in
      let '(st, accepted) := rate_run st times in
      (st, if exceeded then accepted else t :: accepted)
  end.

Lemma rate_exceeded_step st t :
  let '(started, count, exceeded) := rate_step limit (message_window_started st) (message_count st) t in
  let '(st', exceeded') := message_rate_exceeded config st t in
  exceeded' = exceeded /\ message_window_started st' = started /\ message_count st' = count.
Proof. unfold message_rate_exceeded. rewrite limited. by destruct (rate_step _ _ _ _) as [[? ?] ?]. Qed.

Lemma rate_count_le st t :
  (0 <= max_messages limit)%Z -> (0 <= message_count st <= max_messages limit)%Z ->
  (0 <= message_count (message_rate_exceeded config st t).1 <= max_messages limit)%Z.
Proof.
  intros Hm Hc. pose proof (rate_exceeded_step st t) as Hs. unfold rate_step in Hs.
  destruct (message_rate_exceeded config st t) as [st' e]. cbn [fst].
  destruct (Z.leb_spec (interval limit) (Z.max 0 (t - message_window_started st)));
    match type of Hs with context [(?a <=? ?b)%Z] => destruct (Z.leb_spec a b) end;
    destruct Hs as (_ & _ & ->); lia.
Qed.

(** Within the window already started nothing is reset. *)
Lemma rate_same_window times : forall st,
  (0 <= message_count st <= max_messages limit)%Z ->
  Forall (fun t => t < message_window_started st + interval limit)%Z times ->
  (0 < interval limit)%Z ->
  (Z.of_nat (length (rate_run st times).2) <= max_messages limit - message_count st)%Z.
Proof.
  induction times as [|t times IH]; intros st Hc Ht Hi; cbn [rate_run length snd]; [lia|].
  apply Forall_cons in Ht as [Ht Hts]. pose proof (rate_exceeded_step st t) as Hs. unfold rate_step in Hs.
  rewrite (proj2 (Z.leb_gt _ _)) in Hs by lia.
  destruct (message_rate_exceeded config st t) as [st' e].
  specialize (IH st').
  destruct (rate_run st' times) as [st'' acc]. cbn [snd] in *.
  destruct (Z.leb_spec (max_messages limit) (message_count st)); destruct Hs as (-> & Es & Ec);
    rewrite Es, Ec in IH; specialize (IH ltac:(lia) Hts Hi); cbn [length]; lia.
Qed.

Lemma rate_two_windows times a : forall st,
  (0 <= message_count st <= max_messages limit)%Z -> (0 < interval limit)%Z ->
  Forall (fun t => a <= t < a + interval limit)%Z times ->
  (Z.of_nat (length (rate_run st times).2) <= 2 * max_messages limit - message_count st)%Z.
Proof.
  induction times as [|t times IH]; intros st Hc Hi Ht; cbn [rate_run length snd]; [lia|].
  apply Forall_cons in Ht as [Ht Hts]. pose proof (rate_exceeded_step st t) as Hs. unfold rate_step in Hs.
  destruct (message_rate_exceeded config st t) as [st' e].
  destruct (Z.leb_spec (interval limit) (Z.max 0 (t - message_window_started st))) as [Hr|Hr].
  - assert (Hts' : Forall (fun x => x < t + interval limit)%Z times).
    { eapply Forall_impl; [exact Hts|]. cbn. lia. }
    pose proof (rate_same_window times st') as Hw. destruct (rate_run st' times) as [st'' acc]. cbn [snd] in *.
    destruct (Z.leb_spec (max_messages limit) 0); destruct Hs as (-> & Es & Ec);
      rewrite Es, Ec in Hw; specialize (Hw ltac:(lia) Hts' Hi); cbn [length]; lia.
  - specialize (IH st'). destruct (rate_run st' times) as [st'' acc]. cbn [snd] in *.
    destruct (Z.leb_spec (max_messages limit) (message_count st)); destruct Hs as (-> & Es & Ec);
      rewrite Ec in IH; specialize (IH ltac:(lia) Hi Hts); cbn [length]; lia.
Qed.

Lemma rate_run_count times : forall st,
  (0 <= max_messages limit)%Z -> (0 <= message_count st <= max_messages limit)%Z ->
  (0 <= message_count (rate_run st times).1 <= max_messages limit)%Z.
Proof.
  induction times as [|t times IH]; intros st Hm Hc; cbn [rate_run fst]; [done|].
  pose proof (rate_count_le st t Hm Hc) as Hc'. destruct (message_rate_exceeded config st t) as [st' e].
  cbn [fst] in Hc'. specialize (IH st' Hm Hc'). by destruct (rate_run st' times).
Qed.

Lemma sorted_snoc_Forall (l : list Z) (t : Z) : StronglySorted Z.le (l ++ [t]) -> Forall (fun x => x <= t)%Z l.
Proof.
  induction l as [|x l IH]; cbn; [constructor|]. intros [H1 H2]%StronglySorted_cons. constructor; [|by apply IH].
  apply Forall_app in H1 as [_ H1]. by apply Forall_cons in H1 as [? _].
Qed.

(** The last [message_count] accepted messages belong to the current window. *)
Definition window_holds (st : DriverState) (accepted : list Z) : Prop :=
  (0 <= message_count st)%Z /\ exists older recent, accepted = older ++ recent
  /\ Z.of_nat (length recent) = message_count st /\ Forall (fun t => message_window_started st <= t)%Z recent.

Lemma window_step st accepted t :
  window_holds st accepted -> (message_window_started st <= t)%Z -> (0 < interval limit)%Z ->
  let '(st', exceeded) := message_rate_exceeded config st t in
  window_holds st' (if exceeded then accepted else accepted ++ [t]) /\ (message_window_started st' <= t)%Z.
Proof.
  intros (Hc & older & recent & -> & Hl & Hf) Ht Hi. pose proof (rate_exceeded_step st t) as Hs. unfold rate_step in Hs.
  destruct (message_rate_exceeded config st t) as [st' e].
  assert (Hreset : (message_count st' = 0)%Z -> window_holds st' (older ++ recent)).
  { intros E. split; [lia|]. exists (older ++ recent), []. rewrite app_nil_r, E. split_and!; [done|done|constructor]. }
  destruct (Z.leb_spec (interval limit) (Z.max 0 (t - message_window_started st))) as [Hr|Hr];
    match type of Hs with context [(?a <=? ?b)%Z] => destruct (Z.leb_spec a b) as [Hm|Hm] end;
    destruct Hs as (-> & Es & Ec); (split; [|lia]).
  - apply Hreset. lia.
  - split; [lia|]. exists (older ++ recent), [t]. rewrite Ec, Es. split_and!; [done|done|]. by constructor.
  - split; [lia|]. exists older, recent. rewrite Ec, Es. done.
  - split; [lia|]. exists older, (recent ++ [t]). rewrite Ec, Es, length_app. split_and!; [by rewrite app_assoc|cbn; lia|].
    apply Forall_app. split; [done|]. by constructor.
Qed.

Lemma window_run times : forall st accepted,
  window_holds st accepted -> (0 < interval limit)%Z -> StronglySorted Z.le (message_window_started st :: times) ->
  let '(st', more) := rate_run st times in
  window_holds st' (accepted ++ more) /\ forall t, Forall (fun x => x <= t)%Z (message_window_started st :: times) ->
    (message_window_started st' <= t)%Z.
Proof.
  induction times as [|t times IH]; intros st accepted Hw Hi Hs; cbn [rate_run].
  { rewrite app_nil_r. split; [done|]. intros x Hx. by apply Forall_cons in Hx as [? _]. }
  apply StronglySorted_cons in Hs as [Hs1 Hs2]. apply StronglySorted_cons in Hs2 as Hs2'. destruct Hs2' as [Ht Hs3].
  apply Forall_cons in Hs1 as [Hs1 Hs1'].
  pose proof (window_step st accepted t Hw Hs1 Hi) as Hstep. pose proof (rate_exceeded_step st t) as Hr. unfold rate_step in Hr.
  destruct (message_rate_exceeded config st t) as [st' e]. destruct Hstep as [Hw' Hle].
  specialize (IH st' _ Hw' Hi). destruct (rate_run st' times) as [st'' more].
  assert (Hsorted : StronglySorted Z.le (message_window_started st' :: times)).
  { constructor; [done|]. eapply Forall_impl; [exact Ht|]. cbn. lia. }
  destruct (IH Hsorted) as [H1 H2]. split.
  - destruct e; [done|]. by rewrite <- app_assoc in H1.
  - intros x [_ [Hx Hxs]%Forall_cons]%Forall_cons. apply H2. constructor; [lia|done].
Qed.

(** The message rate limit is tight: after any earlier messages, no span of
    one interval accepts more than twice the limit, and a message is refused
    only when at least the limit was accepted within the interval before it. *)
Theorem message_rate_bounds t0 earlier times a t :
  (0 < max_messages limit)%Z -> (0 < interval limit)%Z -> StronglySorted Z.le (t0 :: earlier ++ [t]) ->
  Forall (fun x => a <= x < a + interval limit)%Z times ->
  let '(st, accepted) := rate_run (DriverState_new t0) earlier in
  (Z.of_nat (length (rate_run st times).2) <= 2 * max_messages limit)%Z
  /\ ((message_rate_exceeded config st t).2 = true ->
      exists older recent, accepted = older ++ recent /\ (max_messages limit <= Z.of_nat (length recent))%Z
        /\ Forall (fun x => t - interval limit < x)%Z recent).
Proof.
  intros Hm Hi Hsort Ht.
  assert (Hw : window_holds (DriverState_new t0) []) by (split; [done|]; exists [], []; split_and!; [done|done|constructor]).
  assert (Hsort' : StronglySorted Z.le (t0 :: earlier)).
  { apply StronglySorted_cons in Hsort as [H1 H2]. apply Forall_app in H1 as [H1 _].
    constructor; [by apply StronglySorted_app_1_l in H2|done]. }
  pose proof (window_run earlier (DriverState_new t0) [] Hw Hi Hsort') as Hrun.
  pose proof (rate_run_count earlier (DriverState_new t0) ltac:(lia) ltac:(cbn; lia)) as Hc.
  destruct (rate_run (DriverState_new t0) earlier) as [st accepted]. cbn [fst] in Hc. destruct Hrun as [(_ & older & recent & E & Hl & Hf) Hle].
  split; [pose proof (rate_two_windows times a st Hc Hi Ht); lia|].
  assert (Hst : (message_window_started st <= t)%Z).
  { apply Hle. cbn. change (t0 :: earlier ++ [t]) with ((t0 :: earlier) ++ [t]) in Hsort.
    by apply sorted_snoc_Forall. }
  intros Hex. pose proof (rate_exceeded_step st t) as Hr. unfold rate_step in Hr.
  destruct (message_rate_exceeded config st t) as [st' e]. cbn [snd] in Hex. subst e.
  destruct (Z.leb_spec (interval limit) (Z.max 0 (t - message_window_started st))) as [Hreset|Hkeep].
  - rewrite (proj2 (Z.leb_gt _ _)) in Hr by lia. by destruct Hr as (? & _).
  - destruct (Z.leb_spec (max_messages limit) (message_count st)) as [Hfull|]; [|by destruct Hr as (? & _)].
    exists older, recent. split_and!; [done|lia|]. eapply Forall_impl; [exact Hf|]. cbn. lia.
Qed.
End rate.

(** ** The heartbeat *)

Section heartbeat.
Context (error_text : TransportError -> str) (config : ResolvedWebSocketConfig).
(** A clock on which every deadline is representable. *)
Definition clock_add (t d : Z) : option Z := Some (t + d)%Z.

Definition at_branch (t : Z) (b : Branch) : Input := mkInput t false false [] [] b.

Abbreviation running := (drive clock_add error_text config).
Abbreviation iterated := (iterate clock_add error_text config).
Abbreviation select_branch := (select_branch clock_add error_text config).

(** *** What an iteration can do to the heartbeat *)

(** Every successful result satisfies [Q], with the outputs. *)
Definition post {A} (m : M A) (Q : A -> list Output -> Prop) : Prop :=
  forall ws, match m ws with (Ok a, out, _) => Q a out | _ => True end.

Lemma post_ret {A} (a : A) (Q : A -> list Output -> Prop) : Q a [] -> post (ret a) Q.
Proof. by intros HQ ws. Qed.

Lemma post_any {A} (m : M A) : post m (fun _ _ => True).
Proof. intros ws. by destruct (m ws) as [[[]]]. Qed.

Lemma post_bind {A B} (m : M A) (k : A -> M B) Q R :
  post m Q -> (forall a o, Q a o -> post (k a) (fun b o' => R b (o ++ o'))) -> post (bind m k) R.
Proof.
  intros Hm Hk ws. unfold bind. specialize (Hm ws). destruct (m ws) as [[[a|e] out] ws']; [|done].
  specialize (Hk a out Hm ws'). by destruct (k a ws') as [[[x|e] more] ws''].
Qed.

(** The first computation does not matter. *)
Lemma post_skip {A B} (m : M A) (k : A -> M B) (R : B -> Prop) :
  (forall a, post (k a) (fun b _ => R b)) -> post (bind m k) (fun b _ => R b).
Proof. intros Hk. eapply post_bind; [apply post_any|]. intros a o _. apply Hk. Qed.

(** A driver closing since [t]. *)
Definition closes (t : Z) (st : DriverState) : Prop :=
  close_sent st = true /\ close_deadline st = Some (t + cfg_close_timeout config)%Z.

Lemma initiate_close_closes t st frame who : close_sent st = false ->
  post (initiate_close clock_add config t st frame who) (fun st' _ => closes t st').
Proof. intros E. unfold initiate_close. rewrite E. do 2 (apply post_skip; intros _). by apply post_ret. Qed.

Lemma close_connection_closes t d c r who : close_sent (state d) = false ->
  post (close_connection clock_add config t d c r who) (fun d' _ => closes t (state d')).
Proof.
  intros E. unfold close_connection, close_command_channels.
  eapply (post_bind _ _ (fun d' _ => state d' = state d)); [apply post_skip; intros _; by apply post_ret|].
  intros d' ? Ed. eapply post_bind; [apply initiate_close_closes; by rewrite Ed|].
  intros st ? Hst. by apply post_ret.
Qed.

Lemma drain_controls_closes t d cs q : close_sent (state d) = false ->
  post (drain_controls clock_add config t d cs q) (fun st _ => closes t st).
Proof.
  intros E. induction cs as [|[p|p|f|f] cs IH]; cbn [drain_controls].
  1,4: apply post_skip; intros _; by apply initiate_close_closes.
  1,2: apply post_skip; intros _; apply IH.
  by apply initiate_close_closes.
Qed.

Lemma handler_completion_closes t d cs q : close_sent (state d) = false ->
  post (initiate_handler_completion clock_add config t d cs q) (fun d' _ => closes t (state d')).
Proof.
  intros E. unfold initiate_handler_completion, close_command_channels.
  eapply (post_bind _ _ (fun d' _ => state d' = state d)); [apply post_skip; intros _; by apply post_ret|].
  intros d' ? Ed. eapply post_bind; [apply drain_controls_closes; by rewrite Ed|]. intros st ? Hst. by apply post_ret.
Qed.

(** When a frame last came in. *)
Definition frame_seen (t : Z) (b : Branch) (last : Z) : Z :=
  match b with BIncoming (Frame _ _) => t | _ => last end.
(** A Pong that echoes the payload. *)
Definition pong_of (p : str) (b : Branch) : Prop := exists delivery, b = BIncoming (Frame (MPong p) delivery).
(** A branch leaves the outstanding ping alone, or answers it, or is the
    heartbeat sending one. *)
Definition ping_after (t : Z) (st : DriverState) (b : Branch) (st' : DriverState) (out : list Output) : Prop :=
  (b = BPing /\ pending_ping st' = Some (to_be_bytes (next_ping_token st), t)
   /\ out = [Write (MPing (to_be_bytes (next_ping_token st)))])
  \/ (b <> BPing /\ pending_ping st' = pending_ping st
      /\ forall p t1, pending_ping st = Some (p, t1) -> ~ pong_of p b)
  \/ (pending_ping st' = None /\ exists p t1, pending_ping st = Some (p, t1) /\ pong_of p b).

Definition stays_open (t : Z) (d : Driver) (b : Branch) (out : list Output) (d' : Driver) : Prop :=
  close_sent (state d') = false
  /\ last_inbound_frame (state d') = frame_seen t b (last_inbound_frame (state d))
  /\ ping_after t (state d) b (state d') out.
Definition open_step (t : Z) (d : Driver) (b : Branch) (next : Driver + DriverOutcome) (out : list Output) : Prop :=
  match next with
  | inl d' => closes t (state d') \/ stays_open t d b out d'
  | inr _ => True
  end.

Lemma ping_after_frame t st m delivery st' out :
  pending_ping st' = pending_ping (match_pong st m) ->
  ping_after t st (BIncoming (Frame m delivery)) st' out.
Proof.
  intros E. unfold ping_after, pong_of, match_pong in *. right.
  destruct m; try (left; split; [done|split; [done|]]; intros p t1 _ [? ?]; done).
  destruct (pending_ping st) as [[p t1]|] eqn:Ep; [|left; split; [done|split; [congruence|]]; done].
  case_bool_decide as Hp; [subst; right; split; [done|]; eauto|].
  left. split; [done|]. split; [congruence|]. intros q t2 [= <- <-] [? [= -> ->]]. done.
Qed.

Lemma rate_keeps st t :
  close_sent (message_rate_exceeded config st t).1 = close_sent st
  /\ last_inbound_frame (message_rate_exceeded config st t).1 = last_inbound_frame st
  /\ pending_ping (message_rate_exceeded config st t).1 = pending_ping st.
Proof.
  unfold message_rate_exceeded. destruct (message_rate_limit config) as [l|]; [|done].
  by destruct (rate_step _ _ _ _) as [[? ?] ?].
Qed.

Lemma accept_frame_open t d d0 m delivery :
  close_sent (state d) = false -> last_inbound_frame (state d) = t ->
  pending_ping (state d) = pending_ping (state d0) ->
  post (accept_frame clock_add config t d m delivery) (open_step t d0 (BIncoming (Frame m delivery))).
Proof.
  intros Hc Hl Hp. unfold accept_frame. set (d1 := with_state d (match_pong (state d) m)).
  assert (close_sent (state d1) = false /\ last_inbound_frame (state d1) = t
    /\ pending_ping (state d1) = pending_ping (match_pong (state d0) m)) as (Hc1 & Hl1 & Hp1).
  { subst d1. cbn. unfold match_pong. rewrite <- Hp. destruct m; try done. destruct (pending_ping (state d)) as [[q t1]|] eqn:E;
      [case_bool_decide|]; split_and!; cbn; congruence. }
  clearbody d1. eapply post_bind; [apply post_any|]. intros _ o _.
  eapply (post_bind _ _ (fun st _ => if is_close m then close_received st = true /\ close_sent st = true else st = state d1)).
  { destruct m; try (by apply post_ret). eapply post_bind; [apply post_any|]. intros _ ? _. by apply post_ret. }
  intros st o1 Hst. eapply post_bind; [apply post_any|]. intros _ o2 _. destruct (is_close m) eqn:Em.
  - destruct Hst as [Hrec Hs]. rewrite Hs, andb_false_r. eapply (post_bind _ _ (fun d' _ => state d' = st)); [by apply post_ret|].
    intros d' o3 E. apply post_ret. by rewrite E, Hrec.
  - cbn in Hst. subst st. eapply (post_bind _ _ (fun d' _ => closes t (state d') \/ state d' = state d1)).
    + destruct (bool_decide _ && _); [|apply post_ret; by right]. apply post_skip. intros _.
      intros ws. pose proof (close_connection_closes t (with_state d1 (state d1)) 1013
        §"El handler WebSocket no consume mensajes a tiempo" RuntimeInit Hc1 ws) as Hcl.
      destruct (close_connection _ _ _ _ _ _ _ ws) as [[[]]]; auto.
    + intros d' o3 Hd'. apply post_ret. destruct (close_received (state d')); [done|]. cbn [open_step].
      destruct Hd' as [Hd'|Hd']; [by left|right]. split_and!; [by rewrite Hd'|by rewrite Hd'|].
      apply ping_after_frame. by rewrite Hd'.
Qed.

Lemma incoming_open t d i : close_sent (state d) = false ->
  post (incoming clock_add error_text config t d i) (open_step t d (BIncoming i)).
Proof.
  intros Hc. destruct i as [m delivery| | |e|]; cbn [incoming]; try (by apply post_ret).
  - unfold incoming_frame. destruct (is_text m || is_binary m); [|by apply accept_frame_open].
    pose proof (rate_keeps (inbound_frame (state d) t) t) as (Hf & Hl & Hp).
    destruct (message_rate_exceeded config (inbound_frame (state d) t) t) as [st exceeded]. cbn [fst] in *.
    destruct exceeded.
    + eapply post_bind; [apply close_connection_closes; exact (eq_trans Hf Hc)|]. intros d' o Hd'. apply post_ret. by left.
    + eapply post_bind; [apply post_any|]. intros _ o _ ws.
      pose proof (accept_frame_open t (with_state d (application_message st)) d m delivery) as Ha.
      specialize (Ha (eq_trans Hf Hc) Hl Hp ws).
      destruct (accept_frame _ _ _ _ _ _ ws) as [[[[d'|]|] out] ws']; try done.
      destruct Ha as [Ha|(H1 & H2 & H3)]; [by left|right]. split_and!; try done.
      destruct H3 as [[? _]|H3]; [done|]. right. done.
  - destruct (close_sent (state d)); by apply post_ret.
  - eapply post_bind; [by apply close_connection_closes|]. intros d' o Hd'. apply post_ret. by left.
Qed.

Lemma ping_deadline_None st t : passed (ping_deadline clock_add config st) t = true ->
  pending_ping st = None /\ exists n, ping_interval config = Some n /\ (last_inbound_frame st + n <= t)%Z.
Proof.
  unfold ping_deadline. destruct (pending_ping st) as [?|]; [done|]. destruct (ping_interval config) as [n|]; [|done].
  cbn. intros ?. split; [done|]. exists n. split; [done|lia].
Qed.

(** A branch that does not touch the heartbeat. *)
Lemma open_same t d b d' out : close_sent (state d) = false ->
  (forall i, b <> BIncoming i) -> b <> BPing -> state d' = state d -> open_step t d b (inl d') out.
Proof.
  intros Hc Hb Hp E. right. unfold stays_open. rewrite E. split_and!; [done|by destruct b; naive_solver|].
  right. left. split_and!; [done|done|]. intros p t1 _ [? ?]. naive_solver.
Qed.

Lemma select_open t d b : close_sent (state d) = false -> enabled clock_add config t d b = true ->
  post (select_branch t d b) (open_step t d b).
Proof.
  intros Hc He. assert (forall m, post m (fun d' _ => closes t (state d')) -> post (continue_with m) (open_step t d b)) as Hcl.
  { intros m Hm. eapply post_bind; [exact Hm|]. intros d' o Hd'. apply post_ret. by left. }
  destruct b as [|[c|] q| | | | |[m|]|i| |ok|cl]; cbn [select_branch enabled] in *; bsplit.
  - by apply Hcl, close_connection_closes.
  - unfold control_branch. rewrite Hc. destruct c as [p|p|f|f].
    1,2: eapply post_bind; [eapply (post_bind _ _ (fun _ _ => True) (fun d' _ => d' = d)); [apply post_any|]; intros _ ? _; by apply post_ret|].
    1,2: intros d' o E; apply post_ret; apply open_same; by rewrite ?E.
    all: apply Hcl; eapply (post_bind _ _ (fun d' _ => state d' = state d));
      [apply post_skip; intros _; by apply post_ret|]; intros d' ? Ed; rewrite ?Ed.
    + apply post_skip. intros _. eapply post_bind; [by apply initiate_close_closes|]. intros st ? Hst. by apply post_ret.
    + eapply post_bind; [by apply initiate_close_closes|]. intros st ? Hst. by apply post_ret.
  - apply post_ret. by apply open_same.
  - congruence.
  - apply Hcl, post_skip. intros _. by apply close_connection_closes.
  - by apply Hcl, close_connection_closes.
  - by apply Hcl, close_connection_closes.
  - eapply post_bind; [eapply (post_bind _ _ (fun _ _ => True) (fun d' _ => d' = d)); [apply post_any|]; intros _ ? _;
      eapply (post_bind _ _ (fun _ _ => True) (fun d' _ => d' = d)); [apply post_any|]; intros _ ? _; by apply post_ret|].
    intros d' o E. apply post_ret. apply open_same; by rewrite ?E.
  - apply post_ret. by apply open_same.
  - by apply incoming_open.
  - eapply (post_bind _ _ (fun d' o => o = [Write (MPing (to_be_bytes (next_ping_token (state d))))]
      /\ close_sent (state d') = false /\ last_inbound_frame (state d') = last_inbound_frame (state d)
      /\ pending_ping (state d') = Some (to_be_bytes (next_ping_token (state d)), t))).
    { unfold ping_branch. eapply (post_bind _ _ (fun _ o => o = [Write (MPing (to_be_bytes (next_ping_token (state d))))])).
      - intros [|[|e] ws]; done.
      - intros _ o ->. by apply post_ret. }
    intros d' o (-> & H1 & H2 & H3). apply post_ret. right. split_and!; [done|done|]. by left.
  - eapply (post_bind _ _ (fun d' _ => closes t (state d') \/ state d' = state d)).
    + unfold handler_branch. destruct ok; [apply post_ret; by right|]. apply post_skip. intros _. cbn [state]. rewrite Hc.
      intros ws. pose proof (close_connection_closes t (mkDriver (state d) (control_open d) (outbound_open d) true
        (sender_tracking_closed d)) 1011 §"El handler WebSocket fallo" HandlerInit Hc ws) as Hx.
      destruct (close_connection _ _ _ _ _ _ _ ws) as [[[]]]; auto.
    + intros d' o [Hd'|Hd']; apply post_ret; [by left|]. by apply open_same.
  - apply post_ret. by apply open_same.
Qed.

Lemma iteration_open d i : close_sent (state d) = false ->
  post (iteration clock_add error_text config d i) (fun next out => match next with
    | inl d' => closes (now i) (state d')
        \/ (enabled clock_add config (now i) d (branch i) = true /\ stays_open (now i) d (branch i) out d')
        \/ (enabled clock_add config (now i) d (branch i) = false /\ d' = d /\ out = [])
    | inr _ => True
    end).
Proof.
  intros Hc. unfold iteration. rewrite Hc. cbn [negb andb]. rewrite andb_true_r. destruct (shutdown i).
  { eapply post_bind; [by apply close_connection_closes|]. intros d' o Hd'. apply post_ret. by left. }
  destruct (handler_completed d && _).
  { eapply post_bind; [by apply handler_completion_closes|]. intros d' o Hd'. apply post_ret. by left. }
  destruct (enabled clock_add config (now i) d (branch i)) eqn:He.
  - intros ws. pose proof (select_open (now i) d (branch i) Hc He ws) as Hs.
    destruct (select_branch _ _ _ ws) as [[[[d'|]|] out] ws']; try done. destruct Hs; auto.
  - apply post_ret. auto.
Qed.

(** *** Once closing *)

(** The deadline of a closing driver stands. *)
Definition still_closing (deadline : option Z) (next : Driver + DriverOutcome) : Prop :=
  match next with
  | inl d => close_sent (state d) = true /\ close_deadline (state d) = deadline
  | inr _ => True
  end.

Lemma close_connection_closed t d c r who : close_sent (state d) = true ->
  post (close_connection clock_add config t d c r who)
    (fun d' _ => close_sent (state d') = true /\ close_deadline (state d') = close_deadline (state d)).
Proof.
  intros E. unfold close_connection, close_command_channels, initiate_close.
  eapply (post_bind _ _ (fun d' _ => state d' = state d)); [apply post_skip; intros _; by apply post_ret|].
  intros d' ? Ed. rewrite Ed, E. eapply (post_bind _ _ (fun st _ => st = state d)); [by apply post_ret|].
  intros st ? ->. by apply post_ret.
Qed.

Lemma accept_frame_closed t d m delivery : close_sent (state d) = true ->
  post (accept_frame clock_add config t d m delivery) (fun next _ => still_closing (close_deadline (state d)) next).
Proof.
  intros Hc. unfold accept_frame. set (d1 := with_state d (match_pong (state d) m)).
  assert (close_sent (state d1) = true /\ close_deadline (state d1) = close_deadline (state d)) as [Hc1 Hd1].
  { subst d1. cbn. unfold match_pong. destruct m; try done. destruct (pending_ping (state d)) as [[q t1]|]; [|done].
    by case_bool_decide. }
  clearbody d1. apply post_skip. intros _.
  eapply (post_bind _ _ (fun st _ => close_sent st = true /\ close_deadline st = close_deadline (state d))).
  { destruct m; try (by apply post_ret). apply post_skip. intros _. by apply post_ret. }
  intros st ? [Hs Hd]. apply post_skip. intros _. rewrite Hs, andb_false_r.
  eapply (post_bind _ _ (fun d' _ => state d' = st)); [by apply post_ret|].
  intros d' ? E. apply post_ret. rewrite E. destruct (close_received st); [done|]. cbn. by rewrite E.
Qed.

Lemma incoming_closed t d i : close_sent (state d) = true ->
  post (incoming clock_add error_text config t d i) (fun next _ => still_closing (close_deadline (state d)) next).
Proof.
  intros Hc. destruct i as [m delivery| | |e|]; cbn [incoming]; try (by apply post_ret).
  - unfold incoming_frame. destruct (is_text m || is_binary m);
      [|by apply (accept_frame_closed t (with_state d (inbound_frame (state d) t)))].
    assert (close_sent (message_rate_exceeded config (inbound_frame (state d) t) t).1 = true
      /\ close_deadline (message_rate_exceeded config (inbound_frame (state d) t) t).1 = close_deadline (state d)) as [Hf Hd].
    { unfold message_rate_exceeded. destruct (message_rate_limit config) as [l|]; [|done].
      by destruct (rate_step _ _ _ _) as [[? ?] ?]. }
    destruct (message_rate_exceeded config (inbound_frame (state d) t) t) as [st exceeded]. cbn [fst] in *.
    destruct exceeded.
    + eapply post_bind; [by apply close_connection_closed|]. intros d' ? [H1 H2]. apply post_ret. split; [done|].
      by etrans.
    + apply post_skip. intros _. rewrite <- Hd. by apply (accept_frame_closed t (with_state d (application_message st))).
  - rewrite Hc. by apply post_ret.
  - eapply post_bind; [by apply close_connection_closed|]. intros d' ? Hd'. by apply post_ret.
Qed.

Lemma select_closed t d b : close_sent (state d) = true ->
  post (select_branch t d b) (fun next _ => still_closing (close_deadline (state d)) next).
Proof.
  intros Hc. assert (forall m, post m (fun d' _ => still_closing (close_deadline (state d)) (inl d')) ->
    post (continue_with m) (fun next _ => still_closing (close_deadline (state d)) next)) as Hcl.
  { intros m Hm. eapply post_bind; [exact Hm|]. intros d' ? Hd'. by apply post_ret. }
  destruct b as [|[c|] q| | | | |[m|]|i| |ok|cl]; cbn [select_branch]; try (by apply post_ret).
  - by apply Hcl, close_connection_closed.
  - apply Hcl. unfold control_branch. rewrite Hc. by apply post_ret.
  - apply Hcl, post_skip. intros _. by apply (close_connection_closed t (with_state d (set_pending_ping (state d) None))).
  - by apply Hcl, close_connection_closed.
  - by apply Hcl, close_connection_closed.
  - apply Hcl. do 2 (apply post_skip; intros _). by apply post_ret.
  - by apply incoming_closed.
  - apply Hcl. unfold ping_branch. apply post_skip. intros _. by apply post_ret.
  - apply Hcl. unfold handler_branch. destruct ok; [by apply post_ret|]. apply post_skip. intros _. cbn [state]. rewrite Hc.
    by apply post_ret.
Qed.

Lemma iteration_closed d i : close_sent (state d) = true ->
  post (iteration clock_add error_text config d i) (fun next _ => still_closing (close_deadline (state d)) next)
  /\ (branch i = BCloseDeadline -> passed (close_deadline (state d)) (now i) = true ->
      post (iteration clock_add error_text config d i) (fun next _ => exists o, next = inr o)).
Proof.
  intros Hc. unfold iteration. rewrite Hc. cbn [negb andb]. rewrite andb_false_r. cbn [andb]. split.
  - destruct (enabled _ _ _ _ _); [by apply select_closed|by apply post_ret].
  - intros Hb Hp. rewrite Hb. cbn [enabled]. rewrite Hc, Hp. cbn. apply post_ret. eauto.
Qed.

(** *** The timeout record *)

(** Nothing but the pong deadline records a heartbeat timeout. *)
Definition quiet {A} (m : M A) : Prop := forall ws, RecordHeartbeatTimeout ∉ (m ws).1.2.

Lemma quiet_ret {A} (a : A) : quiet (ret a).
Proof. intros ws. cbn. set_solver. Qed.
Lemma quiet_emit o : o <> RecordHeartbeatTimeout -> quiet (emit o).
Proof. intros Ho ws. cbn. set_solver. Qed.
Lemma quiet_attempt o : o <> RecordHeartbeatTimeout -> quiet (attempt o).
Proof. intros Ho [|[|e] ws]; cbn; set_solver. Qed.
Lemma quiet_bind {A B} (m : M A) (k : A -> M B) : quiet m -> (forall a, quiet (k a)) -> quiet (bind m k).
Proof.
  intros Hm Hk ws. unfold bind. specialize (Hm ws). destruct (m ws) as [[[a|e] out] ws']; [|done].
  specialize (Hk a ws'). destruct (k a ws') as [[x more] ws'']. cbn in *. set_solver.
Qed.

(** The components first, so that no definition is unfolded under them. *)
Ltac quiet_with lem := repeat first
  [ lem | assumption | apply quiet_ret | by apply quiet_emit | by apply quiet_attempt
  | lazymatch goal with |- quiet (bind _ _) => apply quiet_bind; [|intros ?] end
  | case_match | progress unfold send_with_timeout, flush_with_timeout, write_control, close_command_channels ].

Lemma quiet_initiate_close t st frame who : quiet (initiate_close clock_add config t st frame who).
Proof. unfold initiate_close. quiet_with fail. Qed.
Lemma quiet_close_connection t d c r who : quiet (close_connection clock_add config t d c r who).
Proof. unfold close_connection. quiet_with ltac:(apply quiet_initiate_close). Qed.
Lemma quiet_send_queued q : quiet (send_queued_outbound q).
Proof. induction q; cbn [send_queued_outbound]; quiet_with fail. Qed.
Lemma quiet_drain t d cs q : quiet (drain_controls clock_add config t d cs q).
Proof.
  induction cs as [|[] cs IH]; cbn [drain_controls];
    quiet_with ltac:(apply quiet_send_queued || apply quiet_initiate_close).
Qed.
Lemma quiet_incoming t d i : quiet (incoming clock_add error_text config t d i).
Proof. unfold incoming, incoming_frame, accept_frame. quiet_with ltac:(apply quiet_close_connection). Qed.
Lemma quiet_control t d c q : quiet (control_branch clock_add config t d c q).
Proof. unfold control_branch. quiet_with ltac:(apply quiet_send_queued || apply quiet_initiate_close). Qed.

Lemma quiet_select t d b : b <> BPongDeadline -> quiet (select_branch t d b).
Proof.
  intros Hb. destruct b as [|[c|] q| | | | |[m|]|i| |ok|cl]; cbn [select_branch]; try done;
    unfold continue_with, initiate_runtime_shutdown, ping_branch, handler_branch;
    quiet_with ltac:(apply quiet_close_connection || apply quiet_control || apply quiet_incoming).
Qed.

Lemma timeout_recorded d i ws :
  RecordHeartbeatTimeout ∈ (iterated d i ws).1.2 ->
  branch i = BPongDeadline /\ close_sent (state d) = false
  /\ passed (pong_deadline clock_add config (state d)) (now i) = true.
Proof.
  assert ((iterated d i ws).1.2 = (iteration clock_add error_text config d i ws).1.2) as ->.
  { unfold iterate. by destruct (iteration _ _ _ _ _ _) as [[[]]]. }
  unfold iteration. destruct (negb _ && shutdown i).
  { intros []%quiet_bind; [apply quiet_close_connection|intros ?; apply quiet_ret]. }
  destruct (_ && _).
  { intros []%quiet_bind; [|intros ?; apply quiet_ret]. unfold initiate_handler_completion.
    quiet_with ltac:(apply quiet_drain). }
  destruct (enabled _ _ _ _ _) eqn:He; [|intros []%quiet_ret].
  assert (branch i = BPongDeadline \/ branch i <> BPongDeadline) as [E|E] by (destruct (branch i); auto);
    [|by intros []%quiet_select].
  intros _. rewrite E in He. cbn [enabled] in He. bsplit. done.
Qed.

(** *** Runs *)

Lemma drive_split d l ws : exists ws', forall l',
  running d (l ++ l') ws = match running d l ws with
                         | (inl d1, out) => let '(last, more) := running d1 l' ws' in (last, out ++ more)
                         | ended => ended
                         end.
Proof.
  revert d ws. induction l as [|i l IH]; intros d ws.
  { exists ws. intros l'. cbn. by destruct (running d l' ws). }
  cbn [app drive]. destruct (iterated d i ws) as [[[d1|o] out] ws1]; [|by exists ws1].
  destruct (IH d1 ws1) as [ws' Hl]. exists ws'. intros l'. rewrite Hl.
  destruct (running d1 l ws1) as [[d2|o] out2]; [|done]. destruct (running d2 l' ws') as [last more]. by rewrite app_assoc.
Qed.

(** When a frame last came in, over a whole run. *)
Definition last_frame (t0 : Z) (inputs : list Input) : Z :=
  foldl (fun last i => frame_seen (now i) (branch i) last) t0 inputs.
(** No Pong answers the payload. *)
Definition unanswered (p : str) (inputs : list Input) : Prop := Forall (fun i => ~ pong_of p (branch i)) inputs.
(** In a run that had the inputs [before], the heartbeat sends [p] at [ping]. *)
Definition pings (t0 : Z) (before : list Input) (ping : Input) (p : str) (ws : list WriteResult) : Prop :=
  branch ping = BPing
  /\ (running (Driver_new t0) (before ++ [ping]) ws).2 = (running (Driver_new t0) before ws).2 ++ [Write (MPing p)].

Lemma last_frame_snoc t0 l i : last_frame t0 (l ++ [i]) = frame_seen (now i) (branch i) (last_frame t0 l).
Proof. unfold last_frame. by rewrite foldl_app. Qed.

(** The state of the heartbeat is the history of the run. *)
Definition heartbeat_inv (t0 : Z) (inputs : list Input) (ws : list WriteResult) (d : Driver) : Prop :=
  close_sent (state d) = false ->
  last_inbound_frame (state d) = last_frame t0 inputs
  /\ forall p t1, pending_ping (state d) = Some (p, t1) ->
       exists before ping between n, inputs = before ++ ping :: between /\ now ping = t1
         /\ pings t0 before ping p ws /\ ping_interval config = Some n
         /\ (last_frame t0 before + n <= t1)%Z /\ unanswered p between.

Lemma running_snoc t0 l i ws d out : running (Driver_new t0) l ws = (inl d, out) ->
  exists ws', running (Driver_new t0) (l ++ [i]) ws
    = ((iterated d i ws').1.1, out ++ (iterated d i ws').1.2).
Proof.
  intros E. destruct (drive_split (Driver_new t0) l ws) as [ws' Hs]. exists ws'. rewrite Hs, E. cbn [drive].
  destruct (iterated d i ws') as [[[d'|o] out'] ws'']; cbn; by rewrite ?app_nil_r.
Qed.

Lemma iterated_open d i ws d' : close_sent (state d) = false -> (iterated d i ws).1.1 = inl d' ->
  closes (now i) (state d')
  \/ (enabled clock_add config (now i) d (branch i) = true /\ stays_open (now i) d (branch i) (iterated d i ws).1.2 d')
  \/ (enabled clock_add config (now i) d (branch i) = false /\ d' = d /\ (iterated d i ws).1.2 = []).
Proof.
  intros Hc. pose proof (iteration_open d i Hc ws) as Hi. unfold iterate.
  destruct (iteration _ _ _ _ _ ws) as [[[[d1|o]|e] out] ws']; cbn in *; try done. intros [= <-]. naive_solver.
Qed.

Lemma iterated_closed d i ws d' : close_sent (state d) = true -> (iterated d i ws).1.1 = inl d' ->
  close_sent (state d') = true /\ close_deadline (state d') = close_deadline (state d)
  /\ ~ (branch i = BCloseDeadline /\ passed (close_deadline (state d)) (now i) = true).
Proof.
  intros Hc. destruct (iteration_closed d i Hc) as [Hi He]. specialize (Hi ws). unfold iterate.
  destruct (iteration _ _ _ _ _ ws) as [[[[d1|o]|e] out] ws'] eqn:Ei; cbn in *; try done. intros [= <-].
  split_and!; [apply Hi|apply Hi|]. intros [Hb Hp]. specialize (He Hb Hp ws). rewrite Ei in He. by destruct He.
Qed.

Lemma heartbeat_run t0 inputs ws : forall d out,
  running (Driver_new t0) inputs ws = (inl d, out) -> heartbeat_inv t0 inputs ws d.
Proof.
  induction inputs as [|i inputs IH] using rev_ind; intros d out E.
  { cbn in E. injection E as <- <-. intros _. split; [done|]. intros p t1. done. }
  destruct (running (Driver_new t0) inputs ws) as [[d0|o] out0] eqn:E0.
  2:{ destruct (drive_split (Driver_new t0) inputs ws) as [ws' Hs]. rewrite Hs, E0 in E. done. }
  destruct (running_snoc t0 inputs i ws d0 out0 E0) as [ws' Hs]. rewrite Hs in E. injection E as Ed Eout.
  intros Hc. destruct (close_sent (state d0)) eqn:Hc0.
  { destruct (iterated_closed d0 i ws' d Hc0 Ed) as (? & _). congruence. }
  specialize (IH d0 out0 eq_refl Hc0) as [Hl Hp].
  rewrite last_frame_snoc, <- Hl.
  destruct (iterated_open d0 i ws' d Hc0 Ed) as [[? _]|[(He & _ & -> & Hstep)|(He & -> & _)]]; [congruence| |].
  - split; [done|]. intros p t1 Hpend.
    destruct Hstep as [(Hb & Hpend' & Hout)|[(Hb & Hpend' & Hno)|(Hpend' & _)]]; rewrite Hpend in Hpend'; try done.
    + injection Hpend' as -> ->. rewrite Hb in He. cbn [enabled] in He. bsplit.
      match goal with H : passed _ _ = true |- _ => apply ping_deadline_None in H as (_ & n & Hn & Hle) end.
      exists inputs, i, [], n. split_and!; [done|done| |done|by rewrite <- Hl|constructor].
      split; [done|]. by rewrite Hs, E0, Hout.
    + symmetry in Hpend'. destruct (Hp p t1 Hpend') as (before & ping & between & n & -> & Ht & Hpi & Hn & Hle & Hu).
      exists before, ping, (between ++ [i]), n. split_and!; try done; [by rewrite <- app_assoc|].
      apply Forall_app. split; [done|]. constructor; [by apply (Hno p t1)|constructor].
  - assert (forall j, branch i <> BIncoming j) as Hni by (intros j Hj; by rewrite Hj in He).
    split; [by destruct (branch i); naive_solver|]. intros p t1 Hpend.
    destruct (Hp p t1 Hpend) as (before & ping & between & n & -> & Ht & Hpi & Hn & Hle & Hu).
    exists before, ping, (between ++ [i]), n. split_and!; try done; [by rewrite <- app_assoc|].
    apply Forall_app. split; [done|]. constructor; [|constructor]. intros [? Hx]. naive_solver.
Qed.

Lemma timeout_justified t0 inputs ws : RecordHeartbeatTimeout ∈ (running (Driver_new t0) inputs ws).2 ->
  exists before ping between late rest p n, inputs = before ++ ping :: between ++ late :: rest
    /\ pings t0 before ping p ws /\ ping_interval config = Some n /\ (last_frame t0 before + n <= now ping)%Z
    /\ (now ping + pong_timeout config <= now late)%Z /\ unanswered p between.
Proof.
  induction inputs as [|i inputs IH] using rev_ind; [cbn; set_solver|].
  assert (RecordHeartbeatTimeout ∈ (running (Driver_new t0) inputs ws).2 ->
    exists before ping between late rest p n, inputs ++ [i] = before ++ ping :: between ++ late :: rest
    /\ pings t0 before ping p ws /\ ping_interval config = Some n /\ (last_frame t0 before + n <= now ping)%Z
    /\ (now ping + pong_timeout config <= now late)%Z /\ unanswered p between) as Hbefore.
  { intros (before & ping & between & late & rest & p & n & -> & Hrest)%IH.
    exists before, ping, between, late, (rest ++ [i]), p, n. split; [|done]. by rewrite <- app_assoc; cbn; rewrite <- app_assoc. }
  destruct (running (Driver_new t0) inputs ws) as [[d0|o] out0] eqn:E0.
  2:{ destruct (drive_split (Driver_new t0) inputs ws) as [ws' Hs]. rewrite Hs, E0. exact Hbefore. }
  destruct (running_snoc t0 inputs i ws d0 out0 E0) as [ws' ->]. cbn [snd].
  intros [Hin|Hin]%elem_of_app; [by apply Hbefore|].
  apply timeout_recorded in Hin as (Hb & Hc & Hp). destruct (heartbeat_run t0 inputs ws d0 out0 E0 Hc) as [_ Hpend].
  unfold pong_deadline in Hp. destruct (pending_ping (state d0)) as [[p t1]|] eqn:Ep; [|done]. cbn in Hp.
  destruct (Hpend p t1 eq_refl) as (before & ping & between & n & -> & Ht & Hpi & Hn & Hle & Hu).
  exists before, ping, between, i, [], p, n. split_and!; try done; [by rewrite <- app_assoc|lia|lia].
Qed.

(** An outstanding ping, or a close started by [T]. *)
Definition doomed (p : str) (t1 T : Z) (d : Driver) : Prop :=
  (close_sent (state d) = false /\ pending_ping (state d) = Some (p, t1))
  \/ (close_sent (state d) = true
      /\ exists t, close_deadline (state d) = Some (t + cfg_close_timeout config)%Z /\ (t <= T)%Z).

Lemma doomed_step p t1 T d i ws d' : doomed p t1 T d -> ~ pong_of p (branch i) -> (now i <= T)%Z ->
  (iterated d i ws).1.1 = inl d' -> doomed p t1 T d'.
Proof.
  intros [[Hc Hp]|(Hc & t & Hd & Ht)] Hno Hle E.
  - destruct (iterated_open d i ws d' Hc E) as [[Hs Hd]|[(He & Hs & _ & Hstep)|(_ & -> & _)]].
    + right. split; [done|]. by exists (now i).
    + left. split; [done|]. destruct Hstep as [(Hb & _)|[(_ & -> & _)|(_ & q & t2 & Hq & Hpong)]]; [|done|congruence].
      rewrite Hb in He. cbn [enabled] in He. bsplit.
      match goal with H : passed _ _ = true |- _ => apply ping_deadline_None in H as [? _] end. congruence.
    + by left.
  - destruct (iterated_closed d i ws d' Hc E) as (Hs & Hd' & _). right. split; [done|]. exists t. by rewrite Hd'.
Qed.

Lemma doomed_run p t1 T l : forall d ws, doomed p t1 T d -> unanswered p l -> Forall (fun i => now i <= T)%Z l ->
  match (running d l ws).1 with inl d' => doomed p t1 T d' | inr _ => True end.
Proof.
  induction l as [|i l IH]; intros d ws Hd Hu Ht; [done|]. apply Forall_cons in Hu as [Hi Hu]. apply Forall_cons in Ht as [Hti Ht].
  cbn [drive]. pose proof (doomed_step p t1 T d i ws) as Hs. destruct (iterated d i ws) as [[[d1|o] out] ws1]; [|done].
  specialize (IH d1 ws1 (Hs d1 Hd Hi Hti eq_refl) Hu Ht). by destruct (running d1 l ws1) as [[|] ?].
Qed.

Lemma closing_run T l : forall d ws, close_sent (state d) = true -> close_deadline (state d) = Some T ->
  match (running d l ws).1 with
  | inl d' => close_sent (state d') = true /\ close_deadline (state d') = Some T
  | inr _ => True
  end.
Proof.
  induction l as [|i l IH]; intros d ws Hc Hd; [done|]. cbn [drive]. pose proof (iterated_closed d i ws) as Hs.
  destruct (iterated d i ws) as [[[d1|o] out] ws1]; [|done]. destruct (Hs d1 Hc eq_refl) as (Hc1 & Hd1 & _).
  specialize (IH d1 ws1 Hc1 ltac:(congruence)). by destruct (running d1 l ws1) as [[|] ?].
Qed.

(** The pong deadline starts the close. *)
Lemma late_closes p t1 d i ws d' : doomed p t1 (now i) d -> branch i = BPongDeadline ->
  (t1 + pong_timeout config <= now i)%Z -> (iterated d i ws).1.1 = inl d' ->
  exists t, close_sent (state d') = true /\ close_deadline (state d') = Some (t + cfg_close_timeout config)%Z /\ (t <= now i)%Z.
Proof.
  intros [[Hc Hp]|(Hc & t & Hd & Ht)] Hb Hle E.
  2:{ destruct (iterated_closed d i ws d' Hc E) as (? & ? & _). exists t. split_and!; congruence. }
  assert (post (iteration clock_add error_text config d i) (fun next _ => match next with
    | inl d' => closes (now i) (state d') | inr _ => True end)) as Hpost.
  { assert (forall m, post m (fun d' _ => closes (now i) (state d')) -> post (continue_with m) (fun next _ => match next with
      | inl d' => closes (now i) (state d') | inr _ => True end)) as Hcl.
    { intros m Hm. eapply post_bind; [exact Hm|]. intros d1 ? Hd1. by apply post_ret. }
    unfold iteration. rewrite Hc. cbn [negb andb]. destruct (shutdown i); [by apply Hcl, close_connection_closes|].
    destruct (_ && _); [by apply Hcl, handler_completion_closes|]. rewrite Hb. cbn [enabled]. unfold pong_deadline. rewrite Hc, Hp.
    cbn. rewrite (proj2 (Z.leb_le _ _) Hle). apply Hcl, post_skip. intros _. by apply close_connection_closes. }
  specialize (Hpost ws). unfold iterate in E. destruct (iteration _ _ _ _ _ ws) as [[[[d1|o]|e] out] ws']; cbn in *; try done.
  injection E as <-. destruct Hpost. exists (now i). by split_and!.
Qed.

(** The heartbeat leaves its payload outstanding. *)
Lemma pings_doomed t0 before ping p ws d out : pings t0 before ping p ws ->
  running (Driver_new t0) (before ++ [ping]) ws = (inl d, out) -> doomed p (now ping) (now ping) d.
Proof.
  intros [Hb Hout] E. destruct (running (Driver_new t0) before ws) as [[d0|o] out0] eqn:E0; cbn [snd] in Hout.
  2:{ destruct (drive_split (Driver_new t0) before ws) as [ws' Hs]. by rewrite Hs, E0 in E. }
  destruct (running_snoc t0 before ping ws d0 out0 E0) as [ws' Hs]. rewrite Hs in E, Hout. cbn [snd] in Hout.
  apply app_inv_head in Hout. injection E as E _. destruct (close_sent (state d0)) eqn:Hc.
  - assert ((iterated d0 ping ws').1.2 = []) as Hn; [|by rewrite Hn in Hout].
    unfold iterate, iteration. rewrite Hc, Hb. cbn [negb andb enabled]. rewrite andb_false_r. cbn [andb]. rewrite Hc. done.
  - destruct (iterated_open d0 ping ws' d Hc E) as [[Hs' Hd]|[(_ & Hs' & _ & Hstep)|(_ & _ & Hn)]]; [| |by rewrite Hn in Hout].
    + right. split; [done|]. exists (now ping). split; [done|lia].
    + left. split; [done|]. destruct Hstep as [(_ & -> & Hw)|[(? & _)|(_ & q & t2 & _ & [? Hq])]]; [congruence|done|congruence].
Qed.

Lemma unanswered_dropped t0 ws before ping between late between' final p :
  pings t0 before ping p ws -> unanswered p between -> (now ping <= now late)%Z ->
  Forall (fun i => now i <= now late)%Z between ->
  branch late = BPongDeadline -> (now ping + pong_timeout config <= now late)%Z ->
  branch final = BCloseDeadline -> (now late + cfg_close_timeout config <= now final)%Z ->
  exists o, (running (Driver_new t0) ((before ++ [ping]) ++ between ++ late :: between' ++ [final]) ws).1 = inr o.
Proof.
  intros Hpi Hu Hpl Htimes Hlate Hpong Hfinal Hclose.
  destruct (drive_split (Driver_new t0) (before ++ [ping]) ws) as [ws1 ->].
  destruct (running (Driver_new t0) (before ++ [ping]) ws) as [[d1|o] out1] eqn:E1; [|by eexists].
  assert (doomed p (now ping) (now late) d1) as Hd1.
  { destruct (pings_doomed _ _ _ _ _ _ _ Hpi E1) as [?|(Hc & t & ? & ?)]; [by left|right]. split; [done|].
    exists t. split; [done|lia]. }
  pose proof (doomed_run p (now ping) (now late) between d1 ws1 Hd1 Hu Htimes) as Hd2.
  destruct (drive_split d1 between ws1) as [ws2 ->].
  destruct (running d1 between ws1) as [[d2|o] out2]; [|by eexists]. cbn [fst] in Hd2. cbn [drive].
  pose proof (late_closes p (now ping) d2 late ws2) as Hl.
  destruct (iterated d2 late ws2) as [[[d3|o] out3] ws3]; [|by eexists].
  destruct (Hl d3 Hd2 Hlate Hpong eq_refl) as (t & Hc3 & Hd3 & Ht).
  pose proof (closing_run _ between' d3 ws3 Hc3 Hd3) as Hd4.
  destruct (drive_split d3 between' ws3) as [ws4 ->].
  destruct (running d3 between' ws3) as [[d4|o] out4]; [|by eexists]. cbn [fst] in Hd4. destruct Hd4 as [Hc4 Hd4].
  cbn [drive]. pose proof (iterated_closed d4 final ws4) as He.
  destruct (iterated d4 final ws4) as [[[d5|o] out5] ws5]; [|by eexists].
  destruct (He d5 Hc4 eq_refl) as (_ & _ & Hno). destruct Hno. split; [done|]. rewrite Hd4. cbn. bgoal. lia.
Qed.

(** The outputs at a deadline of a driver that is open and whose handler runs. *)
Lemma timeout_outputs d i ws p t1 : close_sent (state d) = false -> handler_completed d = false -> shutdown i = false ->
  pending_ping (state d) = Some (p, t1) -> branch i = BPongDeadline -> (t1 + pong_timeout config <= now i)%Z ->
  (iterated d i ws).1.2 = [RecordHeartbeatTimeout; CloseChannels; RecordClosing;
                           Write (MClose (Some (1001%Z, §"Tiempo de espera de Pong agotado")))].
Proof.
  intros Hc Hh Hs Hp Hb Ht. unfold iterate, iteration. rewrite Hc, Hh, Hs, Hb. cbn [negb andb enabled]. unfold pong_deadline.
  rewrite Hc, Hp. cbn -[lit]. rewrite (proj2 (Z.leb_le _ _) Ht). cbn -[lit].
  unfold continue_with, close_connection, close_command_channels, initiate_close, bind. cbn -[lit]. rewrite Hc.
  by destruct ws as [|[|e] ws].
Qed.

Lemma ping_outputs d i ws n : close_sent (state d) = false -> handler_completed d = false -> shutdown i = false ->
  pending_ping (state d) = None -> ping_interval config = Some n -> branch i = BPing ->
  (last_inbound_frame (state d) + n <= now i)%Z ->
  (iterated d i ws).1.2 = [Write (MPing (to_be_bytes (next_ping_token (state d))))].
Proof.
  intros Hc Hh Hs Hp Hn Hb Ht. unfold iterate, iteration. rewrite Hc, Hh, Hs, Hb. cbn [negb andb enabled]. unfold ping_deadline.
  rewrite Hc, Hp, Hn. cbn -[to_be_bytes]. rewrite (proj2 (Z.leb_le _ _) Ht). cbn -[to_be_bytes].
  unfold continue_with, ping_branch, bind. by destruct ws as [|[|e] ws].
Qed.

(** C23. A silent peer is dropped, and only a silent peer. Over every run of the
    driver, whatever the peer, the handler, the other tasks and the transport
    do: (1) a heartbeat timeout is counted only when a heartbeat Ping was sent,
    after at least the ping interval without a frame, and no Pong with its
    payload has come in since, for at least the pong timeout; (2) an open
    driver with no ping outstanding sends one when the interval since the last
    frame is over; (3) once a Ping is unanswered at its pong deadline the
    connection ends, whatever else happens before and after: when the deadline
    branch runs a close has begun, and the close deadline ends the loop, at
    most the close timeout later; (4) that deadline counts the timeout and says
    goodbye with 1001. *)
Theorem silent_peer_is_dropped t0 inputs ws :
  (RecordHeartbeatTimeout ∈ (running (Driver_new t0) inputs ws).2 ->
   exists before ping between late rest p n, inputs = before ++ ping :: between ++ late :: rest
     /\ pings t0 before ping p ws /\ ping_interval config = Some n /\ (last_frame t0 before + n <= now ping)%Z
     /\ (now ping + pong_timeout config <= now late)%Z /\ unanswered p between)
  /\ (forall d out ping n, running (Driver_new t0) inputs ws = (inl d, out) ->
      close_sent (state d) = false -> handler_completed d = false -> pending_ping (state d) = None ->
      shutdown ping = false -> branch ping = BPing -> ping_interval config = Some n ->
      (last_frame t0 inputs + n <= now ping)%Z ->
      pings t0 inputs ping (to_be_bytes (next_ping_token (state d))) ws)
  /\ (forall before ping between late between' final p,
      inputs = (before ++ [ping]) ++ between ++ late :: between' ++ [final] ->
      pings t0 before ping p ws -> unanswered p between ->
      Forall (fun i => now i <= now late)%Z (ping :: between) ->
      branch late = BPongDeadline -> (now ping + pong_timeout config <= now late)%Z ->
      branch final = BCloseDeadline -> (now late + cfg_close_timeout config <= now final)%Z ->
      exists o, (running (Driver_new t0) inputs ws).1 = inr o)
  /\ (forall d out p t1 late, running (Driver_new t0) inputs ws = (inl d, out) ->
      close_sent (state d) = false -> handler_completed d = false -> pending_ping (state d) = Some (p, t1) ->
      shutdown late = false -> branch late = BPongDeadline -> (t1 + pong_timeout config <= now late)%Z ->
      (running (Driver_new t0) (inputs ++ [late]) ws).2
      = out ++ [RecordHeartbeatTimeout; CloseChannels; RecordClosing;
                Write (MClose (Some (1001%Z, §"Tiempo de espera de Pong agotado")))]).
Proof.
  split_and!; [apply timeout_justified| | |].
  - intros d out ping n E Hc Hh Hp Hs Hb Hn Hle. destruct (heartbeat_run t0 inputs ws d out E Hc) as [Hl _].
    split; [done|]. destruct (running_snoc t0 inputs ping ws d out E) as [ws' ->]. rewrite E. cbn [snd]. f_equal.
    apply (ping_outputs d ping ws' n); try done. by rewrite Hl.
  - intros before ping between late between' final p -> Hpi Hu [Hpl Ht]%Forall_cons. intros.
    by apply (unanswered_dropped t0 ws before ping between late between' final p).
  - intros d out p t1 late E Hc Hh Hp Hs Hb Hle. destruct (running_snoc t0 inputs late ws d out E) as [ws' ->].
    cbn [snd]. f_equal. by apply (timeout_outputs d late ws' p t1).
Qed.
End heartbeat.

(** ** Instances *)

Module DriverSample.
Definition config : ResolvedWebSocketConfig := from_layers Layer.default Layer.default.
Definition limit : MessageRateLimit := mkMessageRateLimit 1 10.
Definition limited : ResolvedWebSocketConfig :=
  from_layers Layer.default
    (Layer.mkWebSocketConfig None None None None None None None None None None None None None None None None
       None None (Some (Some limit)) None None).
Definition text (_ : TransportError) : str := [].
Definition inputs : list Input :=
  [at_branch 1 (BOutbound (Some (MText §"hi"))); at_branch 2 (BControl (Some (CClose None)) [MText §"bye"]);
   at_branch 3 (BIncoming (Frame (MText §"late") Delivered))].
End DriverSample.

Lemma close_frame_is_last_witness :
  (drive clock_add DriverSample.text DriverSample.config (Driver_new 0) DriverSample.inputs []).2
  = [Write (MText §"hi"); RecordMessage true 2; CloseChannels; Write (MText §"bye"); RecordMessage true 3;
     RecordClosing; Write (MClose None); RecordMessage false 4; DeliverInbound (MText §"late")]
  /\ forall pre frame post,
       writes (drive clock_add DriverSample.text DriverSample.config (Driver_new 0) DriverSample.inputs []).2
       = pre ++ MClose frame :: post -> no_close pre /\ post = [].
Proof.
  split; [by vm_compute|].
  assert (Hi : Forall input_ok DriverSample.inputs) by (repeat constructor).
  pose proof (close_frame_is_last clock_add DriverSample.text DriverSample.config 0 DriverSample.inputs [] Hi) as H.
  destruct (drive _ _ _ _ _ _) as [last out]. by destruct H as [H _].
Defined.

Lemma message_rate_bounds_witness :
  (rate_run DriverSample.limited (DriverState_new 0) [1; 5]%Z).2 = [1%Z]
  /\ (Z.of_nat (length (rate_run DriverSample.limited
        (rate_run DriverSample.limited (DriverState_new 0) [1; 5]%Z).1 [7; 11; 12]%Z).2) <= 2)%Z.
Proof.
  split; [by vm_compute|].
  assert (Hs : StronglySorted Z.le [0; 1; 5; 7]%Z) by (repeat constructor; lia).
  assert (Ht : Forall (fun x => 7 <= x < 7 + interval DriverSample.limit)%Z [7; 11; 12]%Z)
    by (repeat constructor; cbn; lia).
  pose proof (message_rate_bounds DriverSample.limited DriverSample.limit eq_refl 0 [1; 5]%Z [7; 11; 12]%Z 7 7
    ltac:(done) ltac:(done) Hs Ht) as H.
  destruct (rate_run DriverSample.limited (DriverState_new 0) [1; 5]%Z) as [st accepted]. by destruct H as [H _].
Defined.

(** Traffic of our own and an unrelated Pong do not save the connection. *)
Lemma silent_peer_is_dropped_witness :
  exists o, (drive clock_add DriverSample.text DriverSample.config (Driver_new 0)
    [at_branch 5 (BIncoming (Frame (MText §"hi") Delivered)); at_branch (5 + secs 30) BPing;
     at_branch (secs 36) (BOutbound (Some (MText §"yo"))); at_branch (secs 37) (BIncoming (Frame (MPong §"?") Delivered));
     at_branch (5 + secs 40) BPongDeadline; at_branch (secs 41) (BOutbound (Some (MText §"yo")));
     at_branch (5 + secs 45) BCloseDeadline] []).1 = inr o.
Proof.
  destruct (silent_peer_is_dropped DriverSample.text DriverSample.config 0
    [at_branch 5 (BIncoming (Frame (MText §"hi") Delivered)); at_branch (5 + secs 30) BPing;
     at_branch (secs 36) (BOutbound (Some (MText §"yo"))); at_branch (secs 37) (BIncoming (Frame (MPong §"?") Delivered));
     at_branch (5 + secs 40) BPongDeadline; at_branch (secs 41) (BOutbound (Some (MText §"yo")));
     at_branch (5 + secs 45) BCloseDeadline] []) as (_ & _ & Hdrop & _).
  apply (Hdrop [at_branch 5 (BIncoming (Frame (MText §"hi") Delivered))] (at_branch (5 + secs 30) BPing)
    [at_branch (secs 36) (BOutbound (Some (MText §"yo"))); at_branch (secs 37) (BIncoming (Frame (MPong §"?") Delivered))]
    (at_branch (5 + secs 40) BPongDeadline) [at_branch (secs 41) (BOutbound (Some (MText §"yo")))]
    (at_branch (5 + secs 45) BCloseDeadline) (to_be_bytes 1)); try done.
  - repeat (constructor; [intros [? Hp]; vm_compute in Hp; discriminate Hp|]). constructor.
  - by repeat constructor.
Defined.
