(* ===== verification/RequestHead.v ===== *)
(** * Request heads ([src/app/server.rs])

    What the server checks before a request reaches the application
    ([validate_request_head] with [ValidatedAuthority], [request_target_len]
    and the limits of [ServerConfig]), the recognition of a WebSocket upgrade,
    and the translation of a hyper request into a [Request] by [App::handle].
    A hyper request is its version, method, URI accessors and header map; the
    parser of [http::uri::Authority] is a parameter. *)
From S2P Require Import Prelude Strs Percent Pattern Host Request Headers Response WsConfig Ipv6.

(** ** Configuration *)

Inductive TrailingSlash := Ignore | Strict | RedirectSlash.
#[export] Instance TrailingSlash_eq_dec : EqDecision TrailingSlash.
Proof. solve_decision. Defined.

(** Durations in nanoseconds. *)
Record ServerConfig := mkServerConfig {
  max_body_size : Z;
  request_timeout : option Z;
  header_read_timeout : option Z;
  http2_keep_alive_interval : option Z;
  http2_keep_alive_timeout : Z;
  tls_handshake_timeout : Z;
  graceful_shutdown_timeout : Z;
  max_connections : option Z;
  max_request_target_bytes : Z;
  max_query_bytes : Z;
  max_request_header_count : Z;
  max_request_header_bytes : Z;
  trailing_slash : TrailingSlash
}.

Definition ServerConfig_default : ServerConfig := {|
  max_body_size := DEFAULT_BODY_LIMIT;
  request_timeout := Some (secs 30);
  header_read_timeout := Some (secs 10);
  http2_keep_alive_interval := Some (secs 30);
  http2_keep_alive_timeout := secs 10;
  tls_handshake_timeout := secs 10;
  graceful_shutdown_timeout := secs 10;
  max_connections := Some 10000;
  max_request_target_bytes := 8 * 1024;
  max_query_bytes := 8 * 1024;
  max_request_header_count := 100;
  max_request_header_bytes := 32 * 1024;
  trailing_slash := Ignore
|}%Z.

Definition usize_max : Z := u64_max.
Definition saturating_add (a b : Z) : Z := Z.min usize_max (a + b).
Definition saturating_mul (a b : Z) : Z := Z.min usize_max (a * b).

Definition max_http1_head_bytes (c : ServerConfig) : Z :=
  Z.max
    (saturating_add
       (saturating_add (saturating_add (max_request_target_bytes c) (max_request_header_bytes c))
          (saturating_mul (max_request_header_count c) 4))
       1024)
    (8 * 1024).

(** ** Hyper requests *)

(** What [Uri::scheme], [authority], [path], [query] and [path_and_query] return. *)
Record RequestUri := mkRequestUri {
  uri_scheme : option str;
  uri_authority : option str;
  uri_path : str;
  uri_query : option str;
  uri_path_and_query : option str
}.

Record HyperRequest (HM : Type) := mkHyperRequest {
  hyper_version : Version;
  hyper_method : str;
  hyper_uri : RequestUri;
  hyper_req_headers : HM
}.
Arguments mkHyperRequest {HM} _ _ _ _.
Arguments hyper_version {HM} _.
Arguments hyper_method {HM} _.
Arguments hyper_uri {HM} _.
Arguments hyper_req_headers {HM} _.

Definition slen (s : str) : Z := Z.of_nat (length s).

Definition request_target_len (method : str) (uri : RequestUri) : Z :=
  if bool_decide (method = §"CONNECT") && bool_decide (uri_scheme uri = None) then
    match uri_authority uri with Some a => slen a | None => 0 end
  else
    let path_and_query := match uri_path_and_query uri with Some v => slen v | None => slen (uri_path uri) end in
    match uri_scheme uri, uri_authority uri with
    | Some scheme, Some authority =>
        saturating_add (saturating_add (saturating_add (slen scheme) 3) (slen authority)) path_and_query
    | _, _ => path_and_query
    end.

Definition request_header_text (value : str) : option str := if utf8_valid value then Some value else None.

(** ** Authorities *)

Record ValidatedAuthority := mkValidatedAuthority { va_host : str; va_port : option Z }.

Definition parse_authority_port (raw : str) : option Z :=
  if bool_decide (raw = []) || negb (forallb is_ascii_digit raw) then None else parse_uint 65535 raw.

Abbreviation lbracket := Byte.x5b.
Abbreviation rbracket := Byte.x5d.

Section authority.
(** [http::uri::Authority::from_str] succeeds. *)
Context (authority_parses : str -> bool).

Definition bracketed_authority (bracketed : str) : option ValidatedAuthority :=
  match split_once rbracket bracketed with
  | None => None
  | Some (inside, suffix) =>
      match ipv6_parse inside with
      | None => None
      | Some address =>
          let host := [lbracket] ++ ipv6_display address ++ [rbracket] in
          if bool_decide (suffix = []) then Some (mkValidatedAuthority host None)
          else match strip_prefix [colon] suffix with
               | None => None
               | Some port =>
                   match parse_authority_port port with
                   | Some p => Some (mkValidatedAuthority host (Some p))
                   | None => None
                   end
               end
      end
  end.

Definition named_authority (raw : str) : option ValidatedAuthority :=
  if contains lbracket raw || contains rbracket raw || (1 <? count_byte colon raw)%nat then None
  else
    match split_once colon raw with
    | Some (host, port) =>
        match parse_authority_port port with
        | None => None
        | Some p =>
            if bool_decide (host = []) then None else Some (mkValidatedAuthority (to_ascii_lowercase host) (Some p))
        end
    | None =>
        if bool_decide (raw = []) then None else Some (mkValidatedAuthority (to_ascii_lowercase raw) None)
    end.

(** [ValidatedAuthority::parse]. *)
Definition authority_parse (raw : str) : option ValidatedAuthority :=
  if bool_decide (raw = []) || contains Byte.x40 raw || contains slash raw || contains Byte.x5c raw
     || (has_control raw || has_whitespace raw) || negb (authority_parses raw)
  then None
  else match strip_prefix [lbracket] raw with
       | Some bracketed => bracketed_authority bracketed
       | None => named_authority raw
       end.

Definition normalized (a : ValidatedAuthority) : str :=
  match va_port a with Some port => va_host a ++ [colon] ++ to_dec port | None => va_host a end.

Definition option_or {A} (a b : option A) : option A := match a with Some _ => a | None => b end.
Definition equivalent_to (a b : ValidatedAuthority) (default_port : option Z) : bool :=
  bool_decide (va_host a = va_host b)
  && bool_decide (option_or (va_port a) default_port = option_or (va_port b) default_port).

Definition default_port_for_uri (uri : RequestUri) : option Z :=
  match uri_scheme uri with
  | Some scheme =>
      if eq_ignore_ascii_case scheme §"http" || eq_ignore_ascii_case scheme §"ws" then Some 80%Z
      else if eq_ignore_ascii_case scheme §"https" || eq_ignore_ascii_case scheme §"wss" then Some 443%Z
      else None
  | None => None
  end.

(** ** Validation *)

Section validate.
Context `{HeaderMap HM, HttpTypes}.

Definition HOST : str := §"host".
Arguments HOST : simpl never.

Definition request_head_error (status : Z) (code message : str) : Response.HttpError HM :=
  HttpError_new status code message.
Definition invalid_authority (message : str) := request_head_error 400 §"invalid_authority" message.

Definition header_bytes (headers : HM) : Z :=
  foldl (fun total '(name, value) => saturating_add (saturating_add total (slen name)) (slen value)) 0%Z
    (hm_iter headers).

(** The [Host] field: at most one, and an authority. *)
Definition host_of (headers : HM) : result (option ValidatedAuthority) (Response.HttpError HM) :=
  match get_all headers HOST with
  | [] => Ok None
  | [value] =>
      if value_to_str value then
        match authority_parse value with
        | Some a => Ok (Some a)
        | None => Err (invalid_authority §"El encabezado Host no es valido")
        end
      else Err (invalid_authority §"El encabezado Host no es valido")
  | _ => Err (invalid_authority §"La solicitud contiene mas de un encabezado Host")
  end.

Definition uri_authority_of (uri : RequestUri) : result (option ValidatedAuthority) (Response.HttpError HM) :=
  match uri_authority uri with
  | None => Ok None
  | Some raw =>
      match authority_parse raw with
      | Some a => Ok (Some a)
      | None => Err (invalid_authority §"La autoridad del objetivo de solicitud no es valida")
      end
  end.

(** The limits and the framing of the head. *)
Definition validate_limits (config : ServerConfig) (method : str) (uri : RequestUri) (headers : HM)
  : result unit (Response.HttpError HM) :=
  if (max_request_target_bytes config <? request_target_len method uri)%Z then
    Err (request_head_error 414 §"request_target_too_large" §"El objetivo de la solicitud supera el limite configurado")
  else if (max_query_bytes config <? match uri_query uri with Some q => slen q | None => 0 end)%Z then
    Err (request_head_error 414 §"query_too_large" §"La consulta supera el limite configurado")
  else if (max_request_header_count config <? Z.of_nat (length (hm_iter headers)))%Z then
    Err (request_head_error 431 §"too_many_headers" §"La solicitud contiene demasiados encabezados")
  else if (max_request_header_bytes config <? header_bytes headers)%Z then
    Err (request_head_error 431 §"request_headers_too_large"
           §"Los encabezados de la solicitud superan el limite configurado")
  else if existsb (fun p => bool_decide (request_header_text p.2 = None)) (hm_iter headers) then
    Err (request_head_error 400 §"invalid_header_value" §"La solicitud contiene un valor de encabezado no valido")
  else if contains_key headers TRANSFER_ENCODING && contains_key headers CONTENT_LENGTH then
    Err (request_head_error 400 §"ambiguous_message_framing" §"Transfer-Encoding y Content-Length no pueden combinarse")
  else Ok tt.

Definition validate_request_head (config : ServerConfig) (version : Version) (method : str) (uri : RequestUri)
    (headers : HM) : result (option str) (Response.HttpError HM) :=
  let? _ := validate_limits config method uri headers in
  let? host := host_of headers in
  let? uri_authority := uri_authority_of uri in
  if bool_decide (version = HTTP_11) && match host with None => true | Some _ => false end then
    Err (invalid_authority §"HTTP/1.1 requiere exactamente un encabezado Host")
  else
    let? _ := match host, uri_authority with
              | Some h, Some u =>
                  if equivalent_to h u (default_port_for_uri uri) then Ok tt
                  else Err (invalid_authority §"Host y :authority no coinciden")
              | _, _ => Ok tt
              end in
    match option_or host uri_authority with
    | None =>
        match version with
        | HTTP_11 | HTTP_2 | HTTP_3 =>
            Err (invalid_authority §"La solicitud no incluye Host o :authority")
        | _ => Ok None
        end
    | Some a => Ok (Some (normalized a))
    end.
End validate.
End authority.

(** ** Translation *)

Section translate.
Context `{HeaderMap HM, HttpTypes}.
Context (base64_decode : str -> option str).

Definition is_websocket_upgrade_request (req : HyperRequest HM) : bool :=
  let h := hyper_req_headers req in
  bool_decide (hyper_version req = HTTP_11)
  && eq_ignore_ascii_case (hyper_method req) §"GET"
  && existsb (fun value => value_to_str value && header_value_contains_token value §"websocket") (get_all h UPGRADE)
  && existsb (fun value => value_to_str value && header_value_contains_token value §"upgrade") (get_all h CONNECTION)
  && match hm_get h §"sec-websocket-key" with
     | Some value => value_to_str value && is_valid_websocket_key base64_decode value
     | None => false
     end
  && match hm_get h §"sec-websocket-version" with
     | Some value => value_to_str value && bool_decide (value = §"13")
     | None => false
     end.

(** The loop over [parts.headers]; the [expect] holds after validation. *)
Definition collect_header (views : gmap str str * list (str * str)) (field : str * str)
  : gmap str str * list (str * str) :=
  let value := default field.2 (request_header_text field.2) in
  (<[field.1 := value]> views.1, views.2 ++ [(field.1, value)]).

Definition collect_cookies (headers : HM) : Cookies :=
  foldl (fun acc value => match request_header_text value with
                          | Some value => parse_cookies value ∪ acc
                          | None => acc
                          end) ∅ (get_all headers COOKIE).

(** The [Request] that [handle] builds from an accepted head. *)
Definition to_request (config : ServerConfig) (secure : bool) (req : HyperRequest HM) (authority : option str)
  : Request :=
  let '(headers, header_pairs) := foldl collect_header (∅, []) (hm_iter (hyper_req_headers req)) in
  let '(headers, header_pairs) :=
    match headers !! HOST, authority with
    | None, Some authority => (<[HOST := authority]> headers, header_pairs ++ [(HOST, authority)])
    | _, _ => (headers, header_pairs)
    end in
  let uri := hyper_uri req in
  mkRequest (hyper_version req) (hyper_method req) (uri_path uri) (uri_query uri)
    (match uri_query uri with Some q => parse_query q | None => ∅ end)
    headers (collect_cookies (hyper_req_headers req)) None (max_body_size config) secure header_pairs.
End translate.

(** ** Lemmas on authorities *)

Lemma solid_quiet s : Forall (fun b => ascii_solid b = true) s -> has_control s = false /\ has_whitespace s = false.
Proof.
  induction 1 as [|b s Hb Hs [IHc IHw]]; [done|]. cbn [has_control has_whitespace].
  rewrite IHc, IHw, (ws_prefix_solid b s Hb). cbn. split; [|done]. by byte_cases b.
Qed.

Lemma lower_elem c s : is_ascii_lower c = false -> c ∈ to_ascii_lowercase s -> c ∈ s.
Proof.
  unfold to_ascii_lowercase. rewrite !list_elem_of_In, in_map_iff. intros Hc (b & <- & Hb).
  enough (to_ascii_lower b = b) as -> by done. revert Hc. by byte_cases b.
Qed.

Lemma lower_solid s : Forall (fun b => ascii_solid b = true) s ->
  Forall (fun b => ascii_solid b = true) (to_ascii_lowercase s).
Proof. unfold to_ascii_lowercase. induction 1 as [|b s Hb _ IH]; constructor; [|done]. revert Hb. by byte_cases b. Qed.

(** A host followed by an optional port, as text. *)
Definition port_suffix (port : option str) : str := match port with Some p => colon :: p | None => [] end.
Definition port_text (port : option str) : Prop := match port with Some p => is_port p = true | None => True end.

Lemma is_port_digits p : is_port p = true -> Forall (fun c => is_ascii_digit c = true) p /\ p <> [].
Proof. unfold is_port, nonempty. intros Hp. bsplit. rewrite forallb_true_Forall in *. by destruct p. Qed.

Lemma port_no_colon p : is_port p = true -> colon ∉ p.
Proof. intros [Hp _]%is_port_digits Hin. rewrite Forall_forall in Hp. by specialize (Hp _ Hin). Qed.

(** What both kinds of host share once they are plain text. *)
Definition clean_host (h : str) : Prop :=
  h <> [] /\ Forall (fun b => ascii_solid b = true) h /\ Byte.x40 ∉ h /\ slash ∉ h /\ Byte.x5c ∉ h.

Lemma clean_with_port h port : clean_host h -> port_text port -> clean_host (h ++ port_suffix port).
Proof.
  intros (Hne & Hs & H1 & H2 & H3) Hp. destruct port as [p|]; cbn [port_suffix]; [|by rewrite app_nil_r].
  apply is_port_digits in Hp as [Hp _]. split_and!.
  1: by destruct h.
  1: apply Forall_app; split; [done|]; constructor; [done|by apply digit_solid].
  all: rewrite Forall_forall in Hp; intros [?|[?|Hin]%elem_of_cons]%elem_of_app; [done|done|by specialize (Hp _ Hin)].
Qed.

(** The router's own normalisation of a clean host keeps the host part. *)
Lemma normalize_clean raw h : clean_host raw -> strip_valid_port raw = Some h -> h <> [] ->
  Host.normalize_host raw = Some (to_ascii_lowercase h).
Proof.
  intros (Hne & Hs & H1 & H2 & H3) Hstrip Hh. unfold Host.normalize_host.
  rewrite (trim_id raw) by by apply solid_trimmed. destruct (solid_quiet raw Hs) as [-> ->].
  rewrite !(proj2 (contains_false _ _)) by done. rewrite bool_decide_eq_false_2 by done. cbn [orb].
  by rewrite Hstrip, bool_decide_eq_false_2.
Qed.

Lemma strip_port_named h port : colon ∉ h -> lbracket ∉ h -> h <> [] -> port_text port ->
  strip_valid_port (h ++ port_suffix port) = Some h.
Proof.
  intros Hc Hb Hne Hp. unfold strip_valid_port.
  assert (starts_with [lbracket] (h ++ port_suffix port) = false) as ->.
  { destruct h as [|b h]; [done|]. apply not_elem_of_cons in Hb as [Hb _]. unfold starts_with. cbn.
    by rewrite (bool_decide_eq_false_2 (lbracket = b)), bool_decide_eq_false_2 by (done || by intros [? ?]). }
  destruct port as [p|]; cbn [port_suffix].
  - rewrite rsplit_once_last by by apply port_no_colon. by rewrite Hp.
  - by rewrite app_nil_r, rsplit_once_none.
Qed.

Lemma strip_port_bracketed inside port : rbracket ∉ inside -> port_text port ->
  strip_valid_port (([lbracket] ++ inside ++ [rbracket]) ++ port_suffix port)
  = Some ([lbracket] ++ inside ++ [rbracket]).
Proof.
  intros Hr Hp. unfold strip_valid_port.
  assert (starts_with [lbracket] (([lbracket] ++ inside ++ [rbracket]) ++ port_suffix port) = true) as -> by done.
  replace (([lbracket] ++ inside ++ [rbracket]) ++ port_suffix port)
    with ((lbracket :: inside) ++ rbracket :: port_suffix port) by (cbn; by rewrite <- app_assoc).
  rewrite split_once_app by (by apply not_elem_of_cons). destruct port as [p|]; cbn [port_suffix].
  - rewrite bool_decide_eq_false_2 by done. cbn. by rewrite bool_decide_eq_true_2, Hp.
  - by rewrite bool_decide_eq_true_2.
Qed.

(** The port a text suffix denotes. *)
Definition port_value (text : option str) (port : option Z) : Prop :=
  match text, port with
  | None, None => True
  | Some p, Some n => is_port p = true /\ digits_value p = n /\ (0 <= n <= 65535)%Z
  | _, _ => False
  end.

Lemma parse_port_value p n : parse_authority_port p = Some n -> port_value (Some p) (Some n).
Proof.
  unfold parse_authority_port. intros Hp. destruct (bool_decide_reflect (p = [])) as [|Hne]; [done|].
  destruct (forallb is_ascii_digit p) eqn:Hd; [|done]. cbn [orb negb] in Hp.
  destruct p as [|c p]; [done|]. cbn [parse_uint] in Hp.
  rewrite bool_decide_eq_false_2 in Hp by (intros ->; by cbn in Hd).
  rewrite parse_digits_spec, Hd in Hp by lia. cbn zeta in Hp.
  destruct (Z.leb_spec (foldl (fun acc c => acc * 10 + (bval c - 48))%Z 0%Z (c :: p)) 65535); [|done]. simplify_eq.
  pose proof (digits_foldl_ge 0 (c :: p) ltac:(lia) Hd).
  split_and!; [unfold is_port; by rewrite Hd|done|done|done].
Qed.

(** How an authority may be spelled: a name or a bracketed IPv6 address, with
    or without a port. *)
Inductive spells (raw : str) (a : ValidatedAuthority) : Prop :=
| SpellsName h p :
    raw = h ++ port_suffix p -> clean_host h -> colon ∉ h -> lbracket ∉ h ->
    va_host a = to_ascii_lowercase h -> port_value p (va_port a) -> spells raw a
| SpellsAddress inside address p :
    raw = ([lbracket] ++ inside ++ [rbracket]) ++ port_suffix p -> rbracket ∉ inside ->
    ipv6_parse inside = Some address -> va_host a = [lbracket] ++ ipv6_display address ++ [rbracket] ->
    port_value p (va_port a) -> spells raw a.

Lemma port_value_text p n : port_value p n -> port_text p.
Proof. destruct p, n; cbn; naive_solver. Qed.

Lemma clean_app_l h t : clean_host (h ++ t) -> h <> [] -> clean_host h.
Proof.
  intros (_ & Hs & H1 & H2 & H3) Hne. rewrite Forall_app in Hs. rewrite !not_elem_of_app in *.
  unfold clean_host. naive_solver.
Qed.

Section shape.
Context (authority_parses : str -> bool).
(** [http::uri::Authority] is made of URI characters only. *)
Hypothesis authority_visible : forall s, authority_parses s = true -> forallb ascii_solid s = true.

Lemma authority_parse_clean raw a : authority_parse authority_parses raw = Some a -> clean_host raw.
Proof.
  unfold authority_parse, clean_host. intros Hp.
  destruct (bool_decide_reflect (raw = [])); [done|].
  destruct (contains Byte.x40 raw) eqn:H1, (contains slash raw) eqn:H2, (contains Byte.x5c raw) eqn:H3,
    (authority_parses raw) eqn:Ha; cbn [orb negb] in Hp; rewrite ?orb_true_r in Hp; try done.
  rewrite <- !contains_false. split_and!; try done. apply forallb_true_Forall. by apply authority_visible.
Qed.

Lemma authority_parse_spells raw a : authority_parse authority_parses raw = Some a -> spells raw a.
Proof.
  intros Hp. pose proof (authority_parse_clean _ _ Hp) as Hclean. unfold authority_parse in Hp.
  destruct (_ || negb (authority_parses raw)); [done|].
  destruct (strip_prefix [lbracket] raw) as [bracketed|] eqn:Hb.
  - assert (raw = lbracket :: bracketed) as ->.
    { destruct raw as [|c raw]; [done|]. cbn in Hb. by destruct (bool_decide_reflect (lbracket = c)); simplify_eq. }
    unfold bracketed_authority in Hp. destruct (split_once rbracket bracketed) as [[inside suffix]|] eqn:Hs; [|done].
    apply split_once_Some in Hs as [-> Hin]. destruct (ipv6_parse inside) as [address|] eqn:Hip; [|done].
    case_bool_decide as Hsuf.
    + simplify_eq. by apply SpellsAddress with inside address None; cbn; rewrite ?app_nil_r.
    + destruct (strip_prefix [colon] suffix) as [port|] eqn:Hc; [|done].
      destruct (parse_authority_port port) as [n|] eqn:Hn; [|done]. simplify_eq.
      destruct suffix as [|c suffix]; [done|]. cbn in Hc.
      destruct (bool_decide_reflect (colon = c)) as [<-|]; simplify_eq.
      apply SpellsAddress with inside address (Some port); [cbn; by rewrite <- app_assoc|done|done|done|].
      by apply parse_port_value.
  - unfold named_authority in Hp. destruct (contains lbracket raw) eqn:Hl; [done|].
    apply contains_false in Hl. cbn [orb] in Hp. destruct (contains rbracket raw || (1 <? count_byte colon raw)%nat); [done|].
    destruct (split_once colon raw) as [[h port]|] eqn:Hs.
    + apply split_once_Some in Hs as [-> Hh]. destruct (parse_authority_port port) as [n|] eqn:Hn; [|done].
      case_bool_decide; [done|]. simplify_eq. apply not_elem_of_app in Hl as [Hl _].
      apply SpellsName with h (Some port); [done|by eapply clean_app_l|done|done|done|by apply parse_port_value].
    + apply split_once_None in Hs. case_bool_decide; [done|]. simplify_eq.
      by apply SpellsName with raw None; cbn; rewrite ?app_nil_r.
Qed.
End shape.

(** ** What the router sees of an authority *)

Lemma address_clean inside : address_text inside -> clean_host ([lbracket] ++ inside ++ [rbracket]) /\ rbracket ∉ inside
  /\ to_ascii_lowercase ([lbracket] ++ inside ++ [rbracket]) = [lbracket] ++ inside ++ [rbracket].
Proof.
  intros Ht. unfold address_text in Ht. rewrite Forall_forall in Ht.
  assert (forall c, address_byte c = false -> c ∉ inside) as Hout by (intros c Hc Hin; rewrite Ht in Hc; done).
  assert (forall c, address_byte c = false -> c <> lbracket -> c <> rbracket -> c ∉ [lbracket] ++ inside ++ [rbracket]) as Hout'.
  { intros c Hc ? ?. rewrite !not_elem_of_app, !list_elem_of_singleton. auto. }
  split_and!; [|by apply Hout|].
  - split_and!; [done| |by apply Hout'|by apply Hout'|by apply Hout'].
    apply Forall_app_2; [by repeat constructor|]. apply Forall_app_2; [|by repeat constructor].
    apply Forall_forall. intros b Hb. specialize (Ht b Hb). revert Ht. by byte_cases b.
  - unfold to_ascii_lowercase. rewrite !map_app. f_equal. f_equal. clear Hout Hout'.
    induction inside as [|b s IH]; [done|]. cbn. rewrite IH by set_solver. f_equal.
    specialize (Ht b ltac:(left)). revert Ht. by byte_cases b.
Qed.

Lemma normalized_suffix a p : port_value p (va_port a) ->
  exists q, normalized a = va_host a ++ port_suffix q /\ port_text q.
Proof.
  unfold normalized. intros Hp. destruct (va_port a) as [n|].
  - exists (Some (to_dec n)). split; [done|]. destruct p as [p|]; [|done]. destruct Hp as (_ & _ & Hn).
    destruct (to_dec_spec n) as (Hne & Hd & _); [lia|]. cbn. unfold is_port, nonempty.
    rewrite (proj2 (forallb_true_Forall _ _) Hd). by destruct (to_dec n).
  - exists None. cbn. by rewrite app_nil_r.
Qed.

Lemma clean_lower h : clean_host h -> clean_host (to_ascii_lowercase h).
Proof.
  intros (Hne & Hs & H1 & H2 & H3). split_and!; [by destruct h|by apply lower_solid|..];
    intros Hin; by apply lower_elem in Hin.
Qed.

(** The host of an authority survives the router's own normalisation. *)
Lemma normalized_routes raw a : spells raw a -> Host.normalize_host (normalized a) = Some (va_host a).
Proof.
  intros [h p -> Hh Hc Hb Ha Hp|inside address p -> Hr Hip Ha Hp].
  - destruct (normalized_suffix a p Hp) as (q & -> & Hq). rewrite Ha.
    assert (to_ascii_lowercase h <> []) by by apply clean_lower.
    rewrite <- (to_lower_idem h) at 2. apply normalize_clean; [|apply strip_port_named|done]; try done.
    + apply clean_with_port; [by apply clean_lower|done].
    + intros Hin. by apply lower_elem in Hin.
    + intros Hin. by apply lower_elem in Hin.
  - destruct (normalized_suffix a p Hp) as (q & -> & Hq). rewrite Ha.
    destruct (address_clean (ipv6_display address)) as (Hc & Hnr & Hlow).
    { apply ipv6_display_text. by eapply ipv6_parse_range. }
    rewrite <- Hlow at 2. apply normalize_clean; [by apply clean_with_port|by apply strip_port_bracketed|done].
Qed.

Lemma name_routes raw a h p : raw = h ++ port_suffix p -> clean_host h -> colon ∉ h -> lbracket ∉ h ->
  va_host a = to_ascii_lowercase h -> port_value p (va_port a) -> Host.normalize_host raw = Some (va_host a).
Proof.
  intros -> Hh Hc Hb -> Hp. apply normalize_clean.
  - apply clean_with_port; [done|by eapply port_value_text].
  - apply strip_port_named; [done|done|by destruct Hh|by eapply port_value_text].
  - by destruct Hh.
Qed.

(** ** Accepted heads *)

Lemma saturating_fold (l : list (str * str)) : forall acc, (0 <= acc)%Z ->
  foldl (fun total '(name, value) => saturating_add (saturating_add total (slen name)) (slen value))
    (Z.min usize_max acc) l
  = Z.min usize_max (foldl (fun total p => total + slen p.1 + slen p.2)%Z acc l).
Proof.
  induction l as [|[n v] l IH]; intros acc Ha; cbn [foldl]; [done|].
  unfold slen in *. rewrite <- IH by (cbn; lia). f_equal. unfold saturating_add, usize_max. cbn. lia.
Qed.

Section exact.
Context `{HeaderMap HM, HttpTypes} (authority_parses : str -> bool).
Abbreviation authority_parse := (authority_parse authority_parses).

(** The plain sum of the field sizes, and the authority a field or URI gives. *)
Definition field_bytes (headers : HM) : Z :=
  foldl (fun total p => total + slen p.1 + slen p.2)%Z 0%Z (hm_iter headers).
Definition target_bytes (method : str) (uri : RequestUri) : Z :=
  if bool_decide (method = §"CONNECT") && bool_decide (uri_scheme uri = None) then
    match uri_authority uri with Some a => slen a | None => 0 end
  else
    (match uri_scheme uri, uri_authority uri with
     | Some scheme, Some authority => slen scheme + 3 + slen authority
     | _, _ => 0
     end + match uri_path_and_query uri with Some v => slen v | None => slen (uri_path uri) end)%Z.

Definition gives (text : option str) (a : option ValidatedAuthority) : Prop :=
  match text with None => a = None | Some raw => authority_parse raw = a /\ is_Some a end.

Record acceptable_head (config : ServerConfig) (version : Version) (method : str) (uri : RequestUri) (headers : HM)
    (authority : option str) : Prop := {
  ah_target : (target_bytes method uri <= max_request_target_bytes config)%Z;
  ah_query : (match uri_query uri with Some q => slen q | None => 0 end <= max_query_bytes config)%Z;
  ah_count : (Z.of_nat (length (hm_iter headers)) <= max_request_header_count config)%Z;
  ah_bytes : (field_bytes headers <= max_request_header_bytes config)%Z;
  ah_text : forall n v, v ∈ get_all headers n -> utf8_valid v = true;
  ah_framing : get_all headers TRANSFER_ENCODING = [] \/ get_all headers CONTENT_LENGTH = [];
  ah_one_host : length (get_all headers HOST) <= 1;
  ah_authority : exists host target,
    gives (hm_get headers HOST) host /\ (forall v, v ∈ get_all headers HOST -> value_to_str v = true)
    /\ gives (uri_authority uri) target
    /\ (version = HTTP_11 -> is_Some host)
    /\ (forall a b, host = Some a -> target = Some b ->
          va_host a = va_host b
          /\ option_or (va_port a) (default_port_for_uri uri) = option_or (va_port b) (default_port_for_uri uri))
    /\ authority = normalized <$> option_or host target
    /\ (authority = None -> version = HTTP_09 \/ version = HTTP_10)
}.

Lemma slen_nonneg s : (0 <= slen s)%Z.
Proof. unfold slen. lia. Qed.

Lemma fold_nonneg (l : list (str * str)) : forall acc, (0 <= acc)%Z ->
  (0 <= foldl (fun total p => total + slen p.1 + slen p.2)%Z acc l)%Z.
Proof.
  induction l as [|p l IH]; intros acc Ha; cbn [foldl]; [done|]. apply IH.
  pose proof (slen_nonneg p.1). pose proof (slen_nonneg p.2). lia.
Qed.

Lemma header_bytes_limit (headers : HM) limit : (limit < usize_max)%Z ->
  (limit <? header_bytes headers)%Z = (limit <? field_bytes headers)%Z.
Proof.
  intros Hl. unfold header_bytes. change 0%Z with (Z.min usize_max 0) at 1.
  rewrite saturating_fold by done. fold (field_bytes headers).
  destruct (Z.ltb_spec limit (Z.min usize_max (field_bytes headers))), (Z.ltb_spec limit (field_bytes headers)); lia.
Qed.

Lemma target_len_limit method uri limit : (limit < usize_max)%Z ->
  (limit <? request_target_len method uri)%Z = (limit <? target_bytes method uri)%Z.
Proof.
  intros Hl. unfold request_target_len, target_bytes. case_match; [done|].
  set (pq := match uri_path_and_query uri with Some v => slen v | None => slen (uri_path uri) end).
  destruct (uri_scheme uri) as [scheme|], (uri_authority uri) as [a|]; rewrite ?Z.add_0_l; try done.
  assert (0 <= pq)%Z by (subst pq; case_match; apply slen_nonneg).
  pose proof (slen_nonneg scheme). pose proof (slen_nonneg a). unfold saturating_add.
  match goal with |- (_ <? ?x)%Z = (_ <? ?y)%Z => destruct (Z.ltb_spec limit x), (Z.ltb_spec limit y) end; lia.
Qed.

Lemma limits_Ok config method uri (headers : HM) :
  (max_request_target_bytes config < usize_max)%Z -> (max_request_header_bytes config < usize_max)%Z ->
  validate_limits config method uri headers = Ok tt <->
  (target_bytes method uri <= max_request_target_bytes config)%Z
  /\ (match uri_query uri with Some q => slen q | None => 0 end <= max_query_bytes config)%Z
  /\ (Z.of_nat (length (hm_iter headers)) <= max_request_header_count config)%Z
  /\ (field_bytes headers <= max_request_header_bytes config)%Z
  /\ (forall n v, v ∈ get_all headers n -> utf8_valid v = true)
  /\ (get_all headers TRANSFER_ENCODING = [] \/ get_all headers CONTENT_LENGTH = []).
Proof.
  intros Ht Hb. unfold validate_limits. rewrite target_len_limit, header_bytes_limit by done.
  assert (existsb (fun p => bool_decide (request_header_text p.2 = None)) (hm_iter headers) = false
          <-> forall n v, v ∈ get_all headers n -> utf8_valid v = true) as Htext.
  { rewrite existsb_false_Forall, Forall_forall. setoid_rewrite bool_decide_eq_false. unfold request_header_text.
    split.
    - intros Hall n v Hv%elem_of_hm_iter. specialize (Hall _ Hv). cbn in Hall. by destruct (utf8_valid v).
    - intros Hall [n v] Hv%elem_of_hm_iter. cbn. by rewrite (Hall n v). }
  assert (contains_key headers TRANSFER_ENCODING && contains_key headers CONTENT_LENGTH = false
          <-> get_all headers TRANSFER_ENCODING = [] \/ get_all headers CONTENT_LENGTH = []) as Hframe.
  { by rewrite andb_false_iff, !contains_key_false. }
  rewrite <- Htext, <- Hframe.
  repeat (match goal with |- context [(?a <? ?b)%Z] => destruct (Z.ltb_spec a b) end; [split; [done|lia]|]).
  destruct (existsb _ (hm_iter headers)); [split; [done|naive_solver]|].
  destruct (contains_key headers TRANSFER_ENCODING && _); [split; [done|naive_solver]|].
  split; [|done]. intros _. split_and!; done || lia.
Qed.

Lemma host_of_Ok (headers : HM) host : host_of authority_parses headers = Ok host <->
  length (get_all headers HOST) <= 1 /\ gives (hm_get headers HOST) host
  /\ (forall v, v ∈ get_all headers HOST -> value_to_str v = true).
Proof.
  unfold host_of, hm_get. destruct (get_all headers HOST) as [|v [|w l]]; cbn [length head].
  - split; [intros [= <-]; split_and!; [lia|done|set_solver]|]. by intros (_ & -> & _).
  - unfold gives. setoid_rewrite list_elem_of_singleton. destruct (value_to_str v) eqn:Hv.
    + destruct (authority_parse v) as [a|]; split; [|naive_solver|done|].
      * intros [= <-]. split_and!; [lia|done|done|by intros ? ->].
      * intros (_ & [<- [? ?]] & _). done.
    + split; [done|]. intros (_ & _ & Hall). by rewrite (Hall v) in Hv.
  - split; [done|]. intros [Hl _]. lia.
Qed.

Lemma uri_authority_of_Ok uri target : uri_authority_of (HM := HM) authority_parses uri = Ok target <->
  gives (uri_authority uri) target.
Proof.
  unfold uri_authority_of, gives. destruct (uri_authority uri) as [raw|]; [|naive_solver].
  destruct (authority_parse raw) as [a|]; split; [intros [= <-]; eauto|naive_solver|done|naive_solver].
Qed.

Lemma equivalent_to_spec a b d : equivalent_to a b d = true <->
  va_host a = va_host b /\ option_or (va_port a) d = option_or (va_port b) d.
Proof. unfold equivalent_to. by rewrite andb_true_iff, !bool_decide_eq_true. Qed.

(** The part of the validation after the limits and the two parses. *)
Lemma choose_Ok version uri (host target : option ValidatedAuthority) authority :
  (if bool_decide (version = HTTP_11) && match host with None => true | Some _ => false end
   then Err (invalid_authority (HM := HM) §"HTTP/1.1 requiere exactamente un encabezado Host")
   else
     let? _ := match host, target with
               | Some h, Some u =>
                   if equivalent_to h u (default_port_for_uri uri) then Ok tt
                   else Err (invalid_authority §"Host y :authority no coinciden")
               | _, _ => Ok tt
               end in
     match option_or host target with
     | None =>
         match version with
         | HTTP_11 | HTTP_2 | HTTP_3 => Err (invalid_authority §"La solicitud no incluye Host o :authority")
         | _ => Ok None
         end
     | Some a => Ok (Some (normalized a))
     end) = Ok authority <->
  (version = HTTP_11 -> is_Some host)
  /\ (forall a b, host = Some a -> target = Some b ->
        va_host a = va_host b
        /\ option_or (va_port a) (default_port_for_uri uri) = option_or (va_port b) (default_port_for_uri uri))
  /\ authority = normalized <$> option_or host target
  /\ (authority = None -> version = HTTP_09 \/ version = HTTP_10).
Proof.
  destruct host as [h|], target as [u|]; cbn [option_or fmap option_fmap option_map];
    rewrite ?andb_false_r, ?andb_true_r.
  - destruct (equivalent_to h u (default_port_for_uri uri)) eqn:He.
    + apply equivalent_to_spec in He. split; [intros [= <-]; naive_solver|]. by intros (_ & _ & -> & _).
    + split; [done|]. intros (_ & Heq & _). specialize (Heq h u eq_refl eq_refl). apply equivalent_to_spec in Heq.
      congruence.
  - split; [intros [= <-]; naive_solver|]. by intros (_ & _ & -> & _).
  - case_bool_decide as Hv.
    + split; [done|]. intros (Hs & _). by destruct (Hs Hv).
    + split; [intros [= <-]; naive_solver|]. by intros (_ & _ & -> & _).
  - case_bool_decide as Hv.
    + split; [done|]. intros (Hs & _). by destruct (Hs Hv).
    + destruct version; try done; (split; [intros [= <-]; naive_solver|]); intros (_ & _ & -> & Hn);
        first [done | by destruct (Hn eq_refl)].
Qed.

(** The statement of [request_head_exact], for the other proofs. *)
Lemma request_head_spec config version method uri (headers : HM) authority :
  (max_request_target_bytes config < usize_max)%Z -> (max_request_header_bytes config < usize_max)%Z ->
  validate_request_head authority_parses config version method uri headers = Ok authority <->
  acceptable_head config version method uri headers authority.
Proof.
  intros Ht Hb. unfold validate_request_head. pose proof (limits_Ok config method uri headers Ht Hb) as Hl.
  destruct (validate_limits config method uri headers) as [[]|e].
  2:{ split; [done|]. intros []. naive_solver. }
  apply proj1 in Hl. specialize (Hl eq_refl) as (H1 & H2 & H3 & H4 & H5 & H6). split.
  - destruct (host_of authority_parses headers) as [host|] eqn:Hh; [|done].
    destruct (uri_authority_of authority_parses uri) as [target|] eqn:Hu; [|done].
    intros Hc%choose_Ok. apply host_of_Ok in Hh as (Hone & Hg & Hv). apply uri_authority_of_Ok in Hu.
    constructor; try done. exists host, target. naive_solver.
  - intros [_ _ _ _ _ _ Hone (host & target & Hg & Hv & Hu & Hrest)].
    rewrite (proj2 (host_of_Ok headers host)) by done.
    rewrite (proj2 (uri_authority_of_Ok uri target)) by done. by apply choose_Ok.
Qed.

(** C6. A request head is accepted exactly when every limit holds (sizes
    counted without the saturation of the counters), every field value is
    text, Transfer-Encoding and Content-Length are not combined, there is at
    most one Host field and (HTTP/1.1) at least one, Host and the authority of
    the request target are well-formed and name the same host and effective
    port, and HTTP/1.1, HTTP/2 and HTTP/3 requests have an authority; the
    value returned is then its normal form. *)
Theorem request_head_exact config version method uri (headers : HM) authority :
  (max_request_target_bytes config < usize_max)%Z -> (max_request_header_bytes config < usize_max)%Z ->
  validate_request_head authority_parses config version method uri headers = Ok authority <->
  acceptable_head config version method uri headers authority.
Proof.
  apply request_head_spec.
Qed.
End exact.

(** ** The request the application receives *)

Section faithful.
Context `{HeaderMap HM, HttpTypes} (authority_parses : str -> bool).
Hypothesis authority_visible : forall s, authority_parses s = true -> forallb ascii_solid s = true.

Lemma collect_headers_view (l : list (str * str)) :
  foldl collect_header (∅, []) l = (header_view l, l).
Proof.
  induction l as [|p l IH] using rev_ind; [done|]. rewrite foldl_app, IH, header_view_snoc. cbn.
  unfold collect_header, request_header_text. destruct p as [n v]. cbn. by destruct (utf8_valid v).
Qed.

Lemma rebuild_values (l : list (str * str)) : Forall lower l ->
  rebuild_cookies l
  = foldl (fun acc v => parse_cookies v ∪ acc) ∅ (map snd (List.filter (fun p => bool_decide (p.1 = COOKIE)) l)).
Proof.
  intros Hl. unfold rebuild_cookies. assert (List.filter is_cookie l = List.filter (fun p => bool_decide (p.1 = COOKIE)) l) as ->.
  { induction Hl as [|p l Hp _ IH]; cbn; [done|]. unfold is_cookie at 1.
    rewrite named_lower by (done || apply COOKIE_lower). by rewrite IH. }
  by rewrite foldl_map.
Qed.

Lemma collect_cookies_rebuild (headers : HM) : Forall lower (hm_iter headers) ->
  (forall n v, v ∈ get_all headers n -> utf8_valid v = true) ->
  collect_cookies headers = rebuild_cookies (hm_iter headers).
Proof.
  intros Hl Htext. rewrite rebuild_values, hm_iter_named by done. unfold collect_cookies.
  specialize (Htext COOKIE). revert Htext. generalize (∅ : Cookies). induction (get_all headers COOKIE) as [|v l IH]; [done|].
  intros acc Htext. cbn. unfold request_header_text at 2. rewrite (Htext v) by left. apply IH.
  intros w Hw. apply Htext. by right.
Qed.

Lemma iter_lower (headers : HM) : Forall (fun n => to_ascii_lowercase n = n) (hm_keys headers) ->
  Forall lower (hm_iter headers).
Proof.
  rewrite !Forall_forall. intros Hk [n v] Hv%elem_of_hm_iter. apply Hk, elem_of_hm_keys.
  cbn. intros E. by rewrite E, elem_of_nil in Hv.
Qed.

Lemma lower_values (l : list (str * str)) n : Forall lower l -> to_ascii_lowercase n = n ->
  map snd (List.filter (fun p => eq_ignore_ascii_case p.1 n) l) = map snd (List.filter (fun p => bool_decide (p.1 = n)) l).
Proof.
  intros Hl Hn. f_equal. induction Hl as [|p l Hp _ IH]; cbn; [done|]. by rewrite named_lower, IH.
Qed.

(** The fields of the built request, by whether a Host was added. *)
Lemma to_request_pairs config secure (req : HyperRequest HM) authority :
  let h := hyper_req_headers req in
  let r := to_request config secure req authority in
  headers r = header_view (header_pairs r)
  /\ header_pairs r = hm_iter h ++ (match get_all h HOST with [] => map (pair HOST) (option_list authority) | _ => [] end)
  /\ cookies r = collect_cookies h.
Proof.
  cbn zeta. unfold to_request. rewrite collect_headers_view.
  assert (header_view (hm_iter (hyper_req_headers req)) !! HOST = last (get_all (hyper_req_headers req) HOST)) as ->.
  { by rewrite header_view_last, hm_iter_named. }
  destruct (get_all (hyper_req_headers req) HOST) as [|v l]; [destruct authority|]; cbn; rewrite ?app_nil_r;
    rewrite ?header_view_snoc; [done|done|].
  destruct (last (v :: l)) eqn:E; [done|]. by apply last_None in E.
Qed.

Lemma HOST_lower : to_ascii_lowercase HOST = HOST.
Proof. by vm_compute. Qed.

Lemma to_request_views config secure (req : HyperRequest HM) authority :
  Forall (fun n => to_ascii_lowercase n = n) (hm_keys (hyper_req_headers req)) ->
  (forall n v, v ∈ get_all (hyper_req_headers req) n -> utf8_valid v = true) ->
  views_ok (to_request config secure req authority).
Proof.
  intros Hk Htext. apply iter_lower in Hk as Hl.
  destruct (to_request_pairs config secure req authority) as (Hh & Hp & Hc).
  set (extra := match get_all (hyper_req_headers req) HOST with [] => map (pair HOST) (option_list authority) | _ => [] end) in Hp.
  assert (Forall (fun p => lower p /\ is_cookie p = false) extra) as Hextra.
  { subst extra. destruct (get_all (hyper_req_headers req) HOST), authority; cbn; try constructor; try constructor; (split; by vm_compute). }
  constructor; [|done|].
  - rewrite Hp. apply Forall_app_2; [done|]. eapply Forall_impl; [exact Hextra|]. by intros ? [? _].
  - rewrite Hc, Hp, collect_cookies_rebuild by done. unfold rebuild_cookies. rewrite List.filter_app, foldl_app.
    assert (List.filter is_cookie extra = []) as ->; [|done].
    clearbody extra. clear -Hextra. induction Hextra as [|p e [_ Hp] _ IH]; cbn; [done|]. by rewrite Hp.
Qed.

(** The request built from an accepted head shows exactly the fields that
    were received: the string, multi-value and cookie views agree, every field
    keeps its values in order, and the only addition is the authority of the
    target as Host when the field is absent. The host the router compares is
    then the validated one (a bracketed address in a Host field excepted, which
    the router compares as it is spelled). *)
Theorem handled_request_faithful config secure (req : HyperRequest HM) authority :
  (max_request_target_bytes config < usize_max)%Z -> (max_request_header_bytes config < usize_max)%Z ->
  Forall (fun n => to_ascii_lowercase n = n) (hm_keys (hyper_req_headers req)) ->
  validate_request_head authority_parses config (hyper_version req) (hyper_method req) (hyper_uri req)
    (hyper_req_headers req) = Ok authority ->
  let r := to_request config secure req authority in
  views_ok r
  /\ (forall n, n <> HOST -> to_ascii_lowercase n = n -> headers_all r n = get_all (hyper_req_headers req) n)
  /\ headers_all r HOST = match get_all (hyper_req_headers req) HOST with [] => option_list authority | l => l end
  /\ forall s, authority = Some s -> exists a raw,
       s = normalized a /\ Host.normalize_host s = Some (va_host a) /\ header r HOST = Some raw
       /\ (lbracket ∉ raw -> Host.normalize_host raw = Some (va_host a)).
Proof.
  intros Ht Hb Hk Hok r.
  apply request_head_spec in Hok; [|done|done]. destruct Hok as [_ _ _ _ Htext _ Hone Hauth].
  assert (views_ok r) as Hv by by apply to_request_views.
  destruct (to_request_pairs config secure req authority) as (_ & Hp & _). fold r in Hp.
  assert (forall n, to_ascii_lowercase n = n -> headers_all r n = get_all (hyper_req_headers req) n
    ++ map snd (List.filter (fun p => bool_decide (p.1 = n))
         (match get_all (hyper_req_headers req) HOST with [] => map (pair HOST) (option_list authority) | _ => [] end)))
    as Hall.
  { intros n Hn. unfold headers_all. rewrite lower_values by (done || apply Hv).
    by rewrite Hp, List.filter_app, map_app, hm_iter_named. }
  assert (headers_all r HOST = match get_all (hyper_req_headers req) HOST with [] => option_list authority | l => l end)
    as Hhost.
  { rewrite Hall by apply HOST_lower. destruct (get_all (hyper_req_headers req) HOST); [by destruct authority|].
    cbn [List.filter map]. by rewrite app_nil_r. }
  split_and!; [done| |done|].
  - intros n Hne Hn. rewrite Hall by done.
    destruct (get_all (hyper_req_headers req) HOST), authority; cbn; rewrite ?app_nil_r; try done.
    rewrite bool_decide_eq_false_2 by (intros E; by apply Hne; symmetry). by rewrite app_nil_r.
  - intros s ->. destruct Hauth as (host & target & Hg & _ & Hu & _ & _ & Hs & _). unfold hm_get in Hg.
    rewrite (views_header r HOST) by done. rewrite Hhost.
    destruct (get_all (hyper_req_headers req) HOST) as [|v [|w l]]; cbn in Hone; [| |lia].
    + cbn in Hg. subst host. cbn in Hs. destruct target as [a|]; [|done]. injection Hs as ->.
      unfold gives in Hu. destruct (uri_authority (hyper_uri req)) as [raw|]; [|done]. destruct Hu as [Hu _].
      apply authority_parse_spells, normalized_routes in Hu; [|done]. exists a, (normalized a). by split_and!.
    + cbn in Hg. destruct Hg as [Hg [a ->]]. injection Hs as ->. apply authority_parse_spells in Hg; [|done].
      exists a, v. split_and!; [done|by eapply normalized_routes|done|]. intros Hnb.
      destruct Hg as [h p Hraw ? ? ? ? ?|inside address p -> _ _ _ _]; [by eapply name_routes|]. set_solver.
Qed.
End faithful.

(** ** Concrete requests *)

Module HeadSample.
#[local] Existing Instances assoc_header_map reference_http_types.

Definition parses : str -> bool := forallb ascii_solid.
Lemma parses_visible s : parses s = true -> forallb ascii_solid s = true.
Proof. done. Qed.

Definition uri : RequestUri := mkRequestUri None None §"/users" (Some §"a=1") (Some §"/users?a=1").
Definition get_users (host : str) : HyperRequest AssocHeaders :=
  mkHyperRequest HTTP_11 §"GET" uri [(§"host", host); (§"cookie", §"a=1"); (§"cookie", §"b=2")].
Definition validate_get host :=
  validate_request_head parses ServerConfig_default HTTP_11 §"GET" uri (hyper_req_headers (get_users host)).

Lemma request_head_exact_witness :
  acceptable_head parses ServerConfig_default HTTP_11 §"GET" uri (hyper_req_headers (get_users §"Example.COM:0080"))
    (Some §"example.com:80").
Proof. apply request_head_exact; [done|done|]. vm_compute. reflexivity. Defined.

Lemma handled_request_faithful_witness :
  let r := to_request ServerConfig_default false (get_users §"Example.COM:0080") (Some §"example.com:80") in
  views_ok r /\ headers_all r §"cookie" = [§"a=1"; §"b=2"] /\ headers_all r HOST = [§"Example.COM:0080"].
Proof.
  destruct (handled_request_faithful parses parses_visible ServerConfig_default false
              (get_users §"Example.COM:0080") (Some §"example.com:80")) as (Hv & Hall & Hhost & _).
  - done.
  - done.
  - by repeat constructor.
  - vm_compute. reflexivity.
  - split_and!; [exact Hv| |exact Hhost]. apply (Hall §"cookie"); [by vm_compute|by vm_compute].
Defined.

(** The normal form of an IPv6 authority is computed and not used when the
    request has a Host field: the router compares the address as spelled. *)
Lemma ipv6_host_routed_as_spelled :
  validate_get §"[2001:DB8:0:0::1]" = Ok (Some §"[2001:db8::1]")
  /\ Host.normalize_host §"[2001:DB8:0:0::1]" = Some §"[2001:db8:0:0::1]".
Proof. split; vm_compute; reflexivity. Qed.
End HeadSample.
