(* ===== verification/Dispatch.v ===== *)
(** * Dispatch ([src/app/server.rs], [src/app/handler.rs])

    [App::run_request] and what it runs: the choice of the route or of its
    substitute ([resolve_miss], [trailing_slash_miss]), the middleware onion
    of [execute_chain], the deadline, panic containment and error rendering.
    Handlers, middlewares and the error handler are arbitrary functions of
    the client: a handler may return a response at some time, panic at some
    time, or never return; a middleware is given the rest of the chain.
    Synchronous code is instantaneous. *)
From S2P Require Import Prelude Strs Percent Pattern Host Trie Url Router RouterInv RouterLookup.
From S2P Require Import Request Headers Response WsConfig Ipv6 RequestHead.

(** ** Computations in time *)

Inductive Run (A : Type) :=
| Done (t : Z) (a : A)
| Panicked (t : Z)
| Never.
Arguments Done {A} _ _.
Arguments Panicked {A} _.
Arguments Never {A}.

(** A computation started at a time. *)
Abbreviation Comp A := (Z -> Run A).

Definition ret {A} (a : A) : Comp A := fun now => Done now a.
Definition comp_map {A B} (f : A -> B) (c : Comp A) : Comp B :=
  fun now => match c now with Done t a => Done t (f a) | Panicked t => Panicked t | Never => Never end.
(** [catch_unwind] around the call and the future it returns. *)
Definition catch_unwind {A} (recover : A) (c : Comp A) : Comp A :=
  fun now => match c now with Panicked t => Done t recover | run => run end.
(** [tokio::time::timeout_at]: the computation is polled before the clock. *)
Definition timeout_at {A} (deadline : Z) (c : Comp A) : Comp (option A) :=
  fun now =>
    let cut := Z.max now deadline in
    match c now with
    | Done t a => if (t <=? cut)%Z then Done t (Some a) else Done cut None
    | Panicked t => if (t <=? cut)%Z then Panicked t else Done cut None
    | Never => Done cut None
    end.

(** ** Applications *)

(** The request with what routing adds to it; [upgrade]: hyper offered the
    connection for an upgrade. *)
Record Call := mkCall {
  request : Request;
  params : gmap str str;
  route_pattern : option str;
  resolved_websocket_config : option ResolvedWebSocketConfig;
  upgrade : bool
}.

Abbreviation Next HM := (Call -> Comp (Response HM)).
Abbreviation Handler HM := (Call -> Comp (Response HM)).
Abbreviation Middleware HM := (Call -> (Call -> Comp (Response HM)) -> Comp (Response HM)).
(** [None]: the handler panics. *)
Abbreviation ErrorHandler HM := (Response.HttpError HM -> option (Response HM)).
Abbreviation AppRouter HM := (Router (Handler HM) (Middleware HM) Layer.WebSocketConfig).
Abbreviation AppMatch HM := (MatchedRoute (Handler HM) (Middleware HM) Layer.WebSocketConfig).

Record App (HM : Type) := mkApp {
  router : AppRouter HM;
  app_middlewares : list (Middleware HM);
  error_handler : option (ErrorHandler HM);
  config : ServerConfig;
  websocket_defaults : Layer.WebSocketConfig
}.
Arguments mkApp {HM} _ _ _ _ _.
Arguments router {HM} _.
Arguments app_middlewares {HM} _.
Arguments error_handler {HM} _.
Arguments config {HM} _.
Arguments websocket_defaults {HM} _.

Section dispatch.
Context `{HeaderMap HM, HttpTypes, PercentEncoding}.
Context (base64_decode : str -> option str) (problem_json : str -> str -> Z -> str -> str -> str).
(** [websocket_accept]: SHA-1 and base64 of the key and the protocol's GUID. *)
Context (websocket_accept : str -> str).
Abbreviation Response := (Response HM).
Abbreviation App := (App HM).
Abbreviation from_error := (from_error problem_json).
Abbreviation finalize := (finalize base64_decode problem_json).

(** ** Rendering errors *)

Definition internal_server_error_response : Response :=
  from_error (internal_server_error §"Internal Server Error").
Definition panic_response : Response := internal_server_error_response.
Definition timeout_error : Response.HttpError HM := request_timeout_error §"Request Timeout".

(** Every field of [from] that [skip] does not exempt replaces the one of [into]. *)
Definition override_headers (skip : str -> bool) (from into : HM) : HM :=
  let cleared := foldl (fun m n => if skip n then m else hm_remove m n) into (hm_keys from) in
  foldl (fun m '(n, v) => if skip n then m else hm_append m n v) cleared (hm_iter from).

Definition render_http_error (e : Response.HttpError HM) (handler : option (ErrorHandler HM)) : Response :=
  match handler with
  | None => from_error e
  | Some handler =>
      match handler e with
      | None => (take_error internal_server_error_response).1
      | Some r =>
          let r := (take_error r).1 in
          set_headers r (override_headers (fun _ => false) (err_headers e) (res_headers r))
      end
  end.

Definition representation_field (n : str) : bool := bool_decide (n = CONTENT_TYPE) || bool_decide (n = CONTENT_LENGTH).

Definition render_response_error (r : Response) (handler : option (ErrorHandler HM)) : Response :=
  let '(taken, e) := take_error r in
  match e, handler with
  | Some e, Some _ =>
      let rendered := render_http_error e handler in
      let rendered := set_headers rendered
                        (override_headers representation_field (res_headers taken) (res_headers rendered)) in
      if (status taken =? err_status e)%Z then rendered else set_status rendered (status taken)
  | _, _ => taken
  end.

Definition error_response (app : App) (e : Response.HttpError HM) : Response :=
  render_http_error e (error_handler app).

(** ** The onion *)

Definition guarded_next (next : Next HM) (handler : option (ErrorHandler HM)) : Next HM :=
  fun call => comp_map (fun r => render_response_error r handler) (catch_unwind panic_response (next call)).

Definition wrap (app : App) (next : Next HM) (mw : Middleware HM) : Next HM :=
  guarded_next (fun call => mw call next) (error_handler app).

Definition execute_chain (app : App) (call : Call) (next : Next HM) (route_mws : list (Middleware HM))
    (deadline : option Z) : Comp Response :=
  let next : Next HM :=
    match deadline with
    | Some deadline =>
        fun call => comp_map (fun r => match r with Some r => r | None => from_error timeout_error end)
                      (timeout_at deadline (next call))
    | None => next
    end in
  let next := guarded_next next (error_handler app) in
  let next := foldl (wrap app) next (rev route_mws) in
  let next := foldl (wrap app) next (rev (app_middlewares app)) in
  comp_map (fun r => render_response_error r (error_handler app)) (catch_unwind panic_response (next call)).

Definition dispatch_error_through_global (app : App) (call : Call) (e : Response.HttpError HM) : Comp Response :=
  let r := error_response app e in
  execute_chain app call (fun _ => ret r) [] None.

(** ** Substitute handlers *)

Definition not_found_handler : Handler HM := fun _ => ret (not_found problem_json).
Definition method_not_allowed_error (allow : str) : Response.HttpError HM :=
  error_header (HttpError_new 405 §"method_not_allowed" §"Method Not Allowed") §"allow" allow.
(** [expect] on the value of the Allow field. *)
Definition method_not_allowed_handler (allow : str) : Handler HM :=
  fun _ => if header_value allow then ret (from_error (method_not_allowed_error allow)) else Panicked.
Definition options_handler (allow : str) : Handler HM :=
  fun _ => ret (with_header (with_status (response_send []) 204) §"allow" allow).

Definition substitute (handler : Handler HM) (mws : list (Middleware HM)) : AppMatch HM :=
  mkMatchedRoute handler mws ∅ [] Router.Http None.

(** [resolve_miss]; [None] is the panic of a corrupt index. *)
Definition resolve_miss (r : AppRouter HM) (method path : str) (host : option str)
  : AppRouter HM * option (result (AppMatch HM) RouteMatchError) :=
  match allowed_methods r path host with
  | (r, None) => (r, None)
  | (r, Some (Err e)) => (r, Some (Err e))
  | (r, Some (Ok allowed)) =>
      match resolve_http_method r §"GET" path host with
      | (r, None) => (r, None)
      | (r, Some (Err e)) => (r, Some (Err e))
      | (r, Some (Ok implicit_head)) =>
          let has_implicit_head := bool_decide (is_Some (matched_pattern <$> implicit_head)) in
          let scoped handler :=
            match scoped_middlewares r path host with
            | (r, None) => (r, None)
            | (r, Some (Err e)) => (r, Some (Err e))
            | (r, Some (Ok mws)) => (r, Some (Ok (substitute handler mws)))
            end in
          match allowed with
          | [] => (r, Some (Ok (substitute not_found_handler [])))
          | _ =>
              match implicit_head with
              | Some found =>
                  if bool_decide (method = §"HEAD") then (r, Some (Ok found))
                  else if bool_decide (method = §"OPTIONS")
                  then scoped (options_handler (allow_header_value allowed has_implicit_head))
                  else scoped (method_not_allowed_handler (allow_header_value allowed has_implicit_head))
              | None =>
                  if bool_decide (method = §"OPTIONS")
                  then scoped (options_handler (allow_header_value allowed has_implicit_head))
                  else scoped (method_not_allowed_handler (allow_header_value allowed has_implicit_head))
              end
          end
      end
  end.

(** [canonical_path.replace('\\', "%5C")]. *)
Definition escape_backslashes (s : str) : str :=
  concat (map (fun b => if bool_decide (b = Byte.x5c) then §"%5C" else [b]) s).

(** The location of the redirect to the path without its trailing slashes. *)
Definition canonical_location (path : str) (query : option str) : str :=
  let canonical_path := escape_backslashes (trim_end_matches slash path) in
  let location :=
    if bool_decide (canonical_path = []) then [slash]
    else if starts_with [slash; slash] canonical_path then slash :: trim_start_matches slash canonical_path
    else canonical_path in
  match query with Some q => location ++ [Byte.x3f] ++ q | None => location end.

Definition has_trailing_slash (path : str) : bool :=
  negb ((length path <=? 1)%nat || negb (ends_with [slash] path)).

Definition trailing_slash_miss (app : App) (r : Request) : option (Handler HM) :=
  if negb (has_trailing_slash (path r)) then None
  else match trailing_slash (config app) with
       | Ignore => None
       | Strict => Some not_found_handler
       | RedirectSlash =>
           Some (fun _ => ret (redirect_with_status (canonical_location (path r) (raw_query r)) 308))
       end.

(** ** Dispatch *)

Definition match_error (e : RouteMatchError) : Response.HttpError HM :=
  with_source
    (match match_kind e with
     | InvalidPathEncoding =>
         HttpError_new 400 §"invalid_path_encoding" §"La ruta contiene codificacion porcentual invalida"
     | TooManyPathSegments => HttpError_new 414 §"too_many_path_segments" §"La ruta contiene demasiados segmentos"
     end) OtherSource.

(** The errors of [validate_content_length] as responses; it never returns
    [DuplicateHeader] or [BadRequest]. *)
Definition framing_error (e : Request.HttpError) : Response.HttpError HM :=
  match e with
  | AmbiguousFraming =>
      HttpError_new 400 §"ambiguous_message_framing" §"Transfer-Encoding y Content-Length no pueden combinarse"
  | PayloadTooLarge limit => payload_too_large_limit limit
  | DuplicateHeader name => duplicate_header name
  | BadRequest => bad_request_error §"Bad Request"
  | InvalidContentLength => invalid_content_length_error
  end.

Definition connect_error : Response.HttpError HM :=
  HttpError_new 501 §"connect_not_supported" §"CONNECT requiere una API de tunel dedicada".

Definition is_success (s : Z) : bool := status_code s && (200 <=? s)%Z && (s <=? 299)%Z.
Definition enforce_connect_rejection_status (r : Response) (is_connect : bool) : Response :=
  if negb is_connect then r else if is_success (status r) then set_status r 501 else r.

Definition set_body_limit (r : Request) (limit : Z) : Request :=
  mkRequest (version r) (method r) (path r) (raw_query r) (query r) (headers r) (cookies r) (buffered_len r) limit
    (secure_transport r) (header_pairs r).

Definition is_connect (r : Request) : bool := eq_ignore_ascii_case (method r) §"CONNECT".

(** The route or its substitute. *)
Definition choose_route (app : App) (r : Request)
  : AppRouter HM * option (result (AppMatch HM) RouteMatchError) :=
  match trailing_slash_miss app r with
  | Some handler => (router app, Some (Ok (substitute handler [])))
  | None =>
      let host := header r §"host" in
      match resolve_method (router app) (method r) (path r) host with
      | (rt, Some (Ok (Some found))) => (rt, Some (Ok found))
      | (rt, Some (Ok None)) => resolve_miss rt (method r) (path r) host
      | (rt, Some (Err e)) => (rt, Some (Err e))
      | (rt, None) => (rt, None)
      end
  end.

Definition effective_body_limit (app : App) (m : AppMatch HM) : Z :=
  Z.min (default (max_body_size (config app)) (matched_body_limit m)) (max_body_size (config app)).

(** The call the chain is given for a match. *)
Definition routed_call (app : App) (call : Call) (m : AppMatch HM) : Call :=
  mkCall (set_body_limit (request call) (effective_body_limit app m)) (matched_params m)
    (if bool_decide (matched_pattern m = []) then None else Some (matched_pattern m))
    (match matched_kind m with
     | Router.Http => None
     | WebSocket route => Some (from_layers (websocket_defaults app) route)
     end)
    (upgrade call).

(** [dispatch_until], with the router whose index a lookup may have built. *)
Definition dispatch_until (app : App) (call : Call) (deadline : option Z) : AppRouter HM * Comp Response :=
  let r := request call in
  if is_connect r then
    (router app, comp_map (fun r => enforce_connect_rejection_status r true)
                   (dispatch_error_through_global app call connect_error))
  else if bool_decide (path r = §"*") && bool_decide (method r = §"OPTIONS") then
    (router app, execute_chain app call (fun _ => ret (with_status (response_send []) 204)) [] None)
  else
    match choose_route app r with
    | (rt, None) => (rt, Panicked)
    | (rt, Some (Err e)) => (rt, dispatch_error_through_global app call (match_error e))
    | (rt, Some (Ok m)) =>
        let call := routed_call app call m in
        (rt, match validate_content_length (request call) with
             | Err e => dispatch_error_through_global app call (framing_error e)
             | Ok _ => execute_chain app call (matched_handler m) (matched_middlewares m) deadline
             end)
    end.

(** ** Whole requests *)

Definition authorized_websocket_switch (r : Response) (expected_accept : option str) : bool :=
  websocket_upgrade_authorized r
  && match expected_accept with
     | Some expected =>
         match get_all (res_headers r) SEC_WEBSOCKET_ACCEPT with
         | [value] => value_to_str value && bool_decide (value = expected)
         | _ => false
         end
     | None => false
     end.

(** The accept value a 101 has to carry. *)
Definition expected_websocket_accept (call : Call) : option str :=
  if upgrade call && is_websocket_upgrade base64_decode (request call) then
    match request_singleton_header (request call) §"sec-websocket-key" with
    | Ok (Some key) => Some (websocket_accept key)
    | _ => None
    end
  else None.

(** What [run_request] does to the dispatched response before it validates it. *)
Definition settle (call : Call) (r : Response) : Response :=
  let req := request call in
  let r := if (status r =? 101)%Z && negb (authorized_websocket_switch r (expected_websocket_accept call))
           then internal_server_error_response else r in
  let r := match version req with HTTP_2 | HTTP_3 => strip_http2_connection_headers r | _ => r end in
  enforce_connect_rejection_status r (is_connect req).

(** [None] when [finalize] would not end. *)
Definition conclude (call : Call) (r : Response) : option Response :=
  match finalize (settle call r) with
  | None => None
  | Some r => if bool_decide (method (request call) = §"HEAD") then finalize (prepare_for_head r) else Some r
  end.

Definition run_request (app : App) (call : Call) (now : Z) : AppRouter HM * Run (option Response) :=
  match request_timeout (config app) with
  | Some timeout =>
      let deadline := (now + timeout)%Z in
      let '(rt, dispatched) := dispatch_until app call (Some deadline) in
      (rt, comp_map (fun r => conclude call (match r with
                                             | Some r => r
                                             | None => error_response app timeout_error
                                             end)) (timeout_at deadline dispatched) now)
  | None => let '(rt, dispatched) := dispatch_until app call None in (rt, comp_map (conclude call) dispatched now)
  end.
End dispatch.
