(* ===== verification/Extract.v ===== *)
(** * Extractors and typed handlers ([src/app/extract.rs], [src/app/handler.rs],
    [src/app/state.rs])

    Extractors of the parts of a request, extractors of its body, the [Option]
    and [Result] wrappers, and the handlers the macros of [handler.rs] build out
    of them. What serde does with a text is a parameter of each extractor.
    Proved: an optional typed body is [None] exactly when the request has no
    body at all, so malformed or oversized input is never taken for an absent
    one; a typed handler never lets a panic of its function escape and runs it
    only on values every extractor accepted. *)
From S2P Require Import Prelude Strs Percent Pattern Host Request Headers Response Body WsConfig RequestHead Dispatch.

(** ** Application state *)

Section state.
Context (TypeId : Type) `{Countable TypeId} (value_of : TypeId -> Type).

(** A boxed value with its type. *)
Record Any := mkAny { type_id : TypeId; boxed : value_of type_id }.
Record StateStore := mkStateStore { values : gmap TypeId Any }.

Definition downcast (T : TypeId) (a : Any) : option (value_of T) :=
  match decide (type_id a = T) with
  | left E => Some (eq_rect (type_id a) value_of (boxed a) T E)
  | right _ => None
  end.
Definition state_default : StateStore := mkStateStore ∅.
(** [Arc::make_mut]: other handles keep the old map. *)
Definition state_insert (st : StateStore) (T : TypeId) (v : value_of T) : StateStore :=
  mkStateStore (<[T := mkAny T v]> (values st)).
Definition state_get (st : StateStore) (T : TypeId) : option (value_of T) := values st !! T ≫= downcast T.
End state.

(** ** Requests as extractors see them *)

(** [RequestParts]; [uri] is hyper's parsed form of a target. *)
Record Parts := mkParts { part_call : Call; remote_addr : option str }.
(** A request with its body; reading it to the end takes until [body_ready]. *)
Record Incoming := mkIncoming { parts : Parts; req_body : RequestBody; body_ready : Z }.

Abbreviation part_request p := (request (part_call p)).

Section extract.
Context `{HeaderMap HM, HttpTypes}.
Context (problem_json : str -> str -> Z -> str -> str -> str).
Abbreviation HttpError := (Response.HttpError HM).
Abbreviation Response := (Response HM).

Record PartsExtractor (E : Type) := mkPartsExtractor {
  parts_rejection : Type;
  from_request_parts : Parts -> Comp (result E parts_rejection);
  parts_into_response : parts_rejection -> Response;
  parts_is_missing : parts_rejection -> bool
}.
Arguments parts_rejection {E} _.
Arguments from_request_parts {E} _ _.
Arguments parts_into_response {E} _ _.
Arguments parts_is_missing {E} _ _.

Record Extractor (E : Type) := mkExtractor {
  rejection : Type;
  from_request : Incoming -> Comp (Incoming * result E rejection);
  into_response : rejection -> Response;
  is_missing : rejection -> bool
}.
Arguments rejection {E} _.
Arguments from_request {E} _ _.
Arguments into_response {E} _ _.
Arguments is_missing {E} _ _.

(** [OptionalRejection for HttpError]. *)
Definition http_error_is_missing (e : HttpError) : bool := err_missing e || bool_decide (code e = §"missing_header").

Definition parts_extractor {E} (f : Parts -> result E HttpError) : PartsExtractor E :=
  mkPartsExtractor E HttpError (fun p => ret (f p)) (from_error problem_json) http_error_is_missing.

(** ** Extractors of the parts *)

Section parts_of.
Context {T : Type}.

Definition invalid_path_parameters : HttpError :=
  with_source (HttpError_new 400 §"invalid_path_parameters" §"Los parametros de ruta no son validos") OtherSource.

(** [to_string] and [from_str] of serde_urlencoded; [scalar] is the derived
    deserializer of a one-field struct. *)
Definition deserialize_scalar (pair_to_string : str -> str -> option str) (scalar_from_str : str -> option T) (raw : str) : option T :=
  pair_to_string §"value" raw ≫= scalar_from_str.
Definition deserialize_path (to_string : gmap str str -> option str) (from_str : str -> option T)
    (pair_to_string : str -> str -> option str) (scalar_from_str : str -> option T) (params : gmap str str) : result T HttpError :=
  match to_string params with
  | None => Err invalid_path_parameters
  | Some encoded =>
      match from_str encoded with
      | Some value => Ok value
      | None =>
          match (match map_to_list params with
                 | [(_, raw)] => deserialize_scalar pair_to_string scalar_from_str raw
                 | _ => None
                 end) with
          | Some value => Ok value
          | None => Err invalid_path_parameters
          end
      end
  end.
Definition Path to_string from_str pair_to_string scalar_from_str : PartsExtractor T :=
  parts_extractor (fun p => deserialize_path to_string from_str pair_to_string scalar_from_str (params (part_call p))).

Definition Query (from_str : str -> option T) : PartsExtractor T :=
  parts_extractor (fun p =>
    let raw := default [] (raw_query (part_request p)) in
    match from_str raw with
    | Some value => Ok value
    | None =>
        let error := with_source (HttpError_new 400 §"invalid_query" §"La cadena de consulta no es valida") OtherSource in
        Err (if bool_decide (raw = []) then missing error else error)
    end).

(** What an extractor of a type-keyed store finds. *)
Definition or_missing (message : str) (found : option T) : result T HttpError :=
  match found with Some v => Ok v | None => Err (missing (internal_server_error message)) end.
Definition State (find : Parts -> option T) : PartsExtractor T := parts_extractor (fun p => or_missing §"State not found" (find p)).
Definition Extension (find : Parts -> option T) : PartsExtractor T := parts_extractor (fun p => or_missing §"Extension not found" (find p)).

(** [from_map] is [serde_json::from_value] after [to_value]. *)
Definition Cookies (from_map : gmap str str -> option T) : PartsExtractor T :=
  parts_extractor (fun p =>
    match from_map (cookies (part_request p)) with
    | Some v => Ok v
    | None => Err (with_source (HttpError_new 400 §"invalid_cookies" §"Las cookies de la solicitud no son validas") OtherSource)
    end).
Definition Headers (from_map : gmap str str -> option T) : PartsExtractor T :=
  parts_extractor (fun p =>
    match from_map (headers (part_request p)) with
    | Some v => Ok v
    | None => Err (with_source (HttpError_new 400 §"invalid_headers" §"Los encabezados de la solicitud no son validos") OtherSource)
    end).

(** [name] and [decode] are those of the [headers] crate's type. *)
Definition TypedHeader (name : str) (decode : list str -> option T) : PartsExtractor T :=
  parts_extractor (fun p =>
    let invalid := with_source (HttpError_new 400 §"invalid_header" (§"El encabezado " ++ name ++ §" no es valido")) OtherSource in
    match headers_all (part_request p) name with
    | [] => Err (missing (HttpError_new 400 §"missing_header" (§"Falta el encabezado " ++ name)))
    | raw =>
        if forallb header_value raw then match decode raw with Some v => Ok v | None => Err invalid end
        else Err invalid
    end).

(** Method tokens and targets as hyper parses them. *)
Definition ExtractMethod (parse : str -> option T) : PartsExtractor T :=
  parts_extractor (fun p =>
    match parse (method (part_request p)) with
    | Some m => Ok m
    | None => Err (with_source (bad_request_error §"Invalid method") OtherSource)
    end).
Definition original_uri (parse : str -> option T) (root : T) (p : Parts) : T :=
  let r := part_request p in
  default root (parse (path r ++ match raw_query r with Some q => §"?" ++ q | None => [] end)).
Definition OriginalUri (parse : str -> option T) (root : T) : PartsExtractor T := parts_extractor (fun p => Ok (original_uri parse root p)).
End parts_of.

Definition MatchedPath : PartsExtractor str :=
  parts_extractor (fun p => or_missing §"Matched path not available" (route_pattern (part_call p))).
Definition ConnectInfo : PartsExtractor (option str) := parts_extractor (fun p => Ok (remote_addr p)).
Definition ExtractVersion : PartsExtractor Version := parts_extractor (fun p => Ok (version (part_request p))).

(** ** Extractors of the body *)

(** [SizeHint::exact]. *)
Definition exact (h : SizeHint) : option Z :=
  match upper h with Some u => if (lower h =? u)%Z then Some u else None | None => None end.
Definition body_is_absent (i : Incoming) : bool :=
  bool_decide (header (part_request (parts i)) §"content-type" = None) && bool_decide (exact (size_hint (req_body i)) = Some 0%Z).

Definition media_type (content_type : option str) : str :=
  match content_type with
  | Some value => match split_on semicolon value with first :: _ => trim first | [] => [] end
  | None => []
  end.
Definition unsupported_media_type (expected : str) : HttpError :=
  HttpError_new 415 §"unsupported_media_type" (§"Se esperaba Content-Type " ++ expected).
Definition require_content_type (content_type : option str) (accepted : str -> bool) (expected : str) : result unit HttpError :=
  if accepted (media_type content_type) then Ok tt else Err (unsupported_media_type expected).

Definition is_json_content_type (media_type : str) : bool :=
  let media_type := to_ascii_lowercase media_type in
  bool_decide (media_type = §"application/json")
  || match strip_prefix §"application/" media_type with Some suffix => ends_with §"+json" suffix | None => false end.
Definition is_form_content_type (media_type : str) : bool := eq_ignore_ascii_case media_type §"application/x-www-form-urlencoded".

Definition set_body (i : Incoming) (b : RequestBody) : Incoming := mkIncoming (parts i) b (body_ready i).

(** [req.bytes().await], then [f]. *)
Definition read_body {E} (read : RequestBody -> Z -> RequestBody * option (result str HttpError)) (f : str -> result E HttpError)
    (i : Incoming) : Comp (Incoming * result E HttpError) :=
  fun now =>
    let '(b, outcome) := read (req_body i) (body_limit (part_request (parts i))) in
    match outcome with
    | None => Never
    | Some bytes => Done (Z.max now (body_ready i)) (set_body i b, let? bytes := bytes in f bytes)
    end.

(** The body of [from_request] of [Json] and of [Form]. *)
Definition typed_body {E} (accepted : str -> bool) (expected : str) (decode : str -> result E HttpError)
    (i : Incoming) : Comp (Incoming * result E HttpError) :=
  let absent := body_is_absent i in
  match request_singleton_header (part_request (parts i)) §"content-type" with
  | Err _ => ret (i, Err (duplicate_header §"content-type"))
  | Ok content_type =>
      match require_content_type content_type accepted expected with
      | Err e => ret (i, Err (if absent then missing e else e))
      | Ok _ => read_body request_bytes decode i
      end
  end.

Definition body_extractor {E} (f : Incoming -> Comp (Incoming * result E HttpError)) : Extractor E :=
  mkExtractor E HttpError f (from_error problem_json) http_error_is_missing.

Definition invalid_json : HttpError := HttpError_new 400 §"invalid_json" §"El cuerpo de la solicitud no contiene JSON valido".
(** [from_slice] of serde_json, [from_bytes] of serde_html_form. *)
Definition decode_json {T} (from_slice : str -> option T) (bytes : str) : result T HttpError :=
  match from_slice bytes with Some v => Ok v | None => Err (with_source invalid_json OtherSource) end.
Definition deserialize_form {T} (from_bytes : str -> option T) (bytes : str) : result T HttpError :=
  match from_bytes bytes with
  | Some v => Ok v
  | None => Err (with_source (HttpError_new 400 §"invalid_form" §"El cuerpo no contiene un formulario valido") OtherSource)
  end.
Definition Json {T} (from_slice : str -> option T) : Extractor T :=
  body_extractor (typed_body is_json_content_type §"application/json" (decode_json from_slice)).
Definition Form {T} (from_bytes : str -> option T) : Extractor T :=
  body_extractor (typed_body is_form_content_type §"application/x-www-form-urlencoded" (deserialize_form from_bytes)).
Definition BytesBody : Extractor str := body_extractor (read_body request_bytes Ok).
Definition StringBody : Extractor str := body_extractor (read_body request_text Ok).

(** ** Wrappers *)

Definition optional {E R} (is_missing : R -> bool) (r : result E R) : result (option E) R :=
  match r with
  | Ok value => Ok (Some value)
  | Err rejection => if is_missing rejection then Ok None else Err rejection
  end.
Definition OptionBody {E} (x : Extractor E) : Extractor (option E) :=
  mkExtractor (option E) (rejection x) (fun i => comp_map (fun '(i, r) => (i, optional (is_missing x) r)) (from_request x i))
    (into_response x) (is_missing x).
Definition OptionParts {E} (x : PartsExtractor E) : PartsExtractor (option E) :=
  mkPartsExtractor (option E) (parts_rejection x) (fun p => comp_map (optional (parts_is_missing x)) (from_request_parts x p))
    (parts_into_response x) (parts_is_missing x).
Definition ResultBody {E} (x : Extractor E) : Extractor (result E (rejection x)) :=
  body_extractor (fun i => comp_map (fun '(i, r) => (i, Ok r)) (from_request x i)).
Definition ResultParts {E} (x : PartsExtractor E) : PartsExtractor (result E (parts_rejection x)) :=
  mkPartsExtractor _ HttpError (fun p => comp_map Ok (from_request_parts x p)) (from_error problem_json) http_error_is_missing.

(** ** Typed handlers *)

(** The arguments the macros accept: extractors of parts, then at most one of
    the body. *)
Inductive Args :=
| NoArgs
| BodyArg {E : Type} (x : Extractor E)
| PartArg {E : Type} (x : PartsExtractor E) (rest : Args).
Fixpoint takes (a : Args) (R : Type) : Type :=
  match a with NoArgs => R | @BodyArg E _ => E -> R | @PartArg E _ rest => E -> takes rest R end.

(** A synchronous function is instantaneous; [None]: it panics. *)
Definition sync {R} (r : option R) : Comp R := fun now => match r with Some r => Done now r | None => Panicked now end.
(** The call of the user's function, and of the future it returns. *)
Definition answer {R} (into : R -> Response) (c : Comp R) : Comp Response := catch_unwind (panic_response problem_json) (comp_map into c).

(** A handler of the whole request, synchronous or not. *)
Definition request_handler {R} (into : R -> Response) (f : Incoming -> Comp R) : Incoming -> Comp Response := fun i => answer into (f i).

(** The three macros, for any number of arguments. *)
Fixpoint typed_handler {R} (into : R -> Response) (a : Args) : takes a (Comp R) -> Incoming -> Comp Response :=
  match a with
  | NoArgs => fun f _ => answer into f
  | BodyArg x => fun f i now =>
      match from_request x i now with
      | Done t (_, Ok v) => answer into (f v) t
      | Done t (_, Err e) => Done t (into_response x e)
      | Panicked t => Panicked t
      | Never => Never
      end
  | PartArg x rest => fun f i now =>
      match from_request_parts x (parts i) now with
      | Done t (Ok v) => typed_handler into rest (f v) i t
      | Done t (Err e) => Done t (parts_into_response x e)
      | Panicked t => Panicked t
      | Never => Never
      end
  end.
End extract.

Arguments parts_rejection {HM E} _.
Arguments from_request_parts {HM E} _ _.
Arguments parts_into_response {HM E} _ _.
Arguments parts_is_missing {HM E} _ _.
Arguments rejection {HM E} _.
Arguments from_request {HM E} _ _.
Arguments into_response {HM E} _ _.
Arguments is_missing {HM E} _ _.
Arguments NoArgs {HM}.
Arguments BodyArg {HM E} _.
Arguments PartArg {HM E} _ _.

(** ** Properties *)

Section store.
Context (TypeId : Type) `{Countable TypeId} (value_of : TypeId -> Type).
Abbreviation state_insert := (state_insert TypeId value_of).
Abbreviation state_get := (state_get TypeId value_of).

(** One value per type: the last one inserted, with its own type. *)
Lemma state_get_insert st T v : state_get (state_insert st T v) T = Some v.
Proof.
  unfold Extract.state_get, Extract.state_insert. cbn. rewrite lookup_insert_eq. cbn. unfold downcast. cbn.
  destruct (decide (T = T)) as [E|]; [|done]. by rewrite (Eqdep_dec.UIP_dec (fun x y => decide (x = y)) E eq_refl).
Qed.
Lemma state_get_insert_ne st T T' v : T <> T' -> state_get (state_insert st T v) T' = state_get st T'.
Proof. intros Hne. unfold Extract.state_get, Extract.state_insert. cbn. by rewrite lookup_insert_ne. Qed.
End store.

Section media.
Lemma strip_prefix_shape p s t : strip_prefix p s = Some t -> s = p ++ t.
Proof.
  intros E. destruct (proj1 (starts_with_iff p s)) as [q ->].
  - unfold starts_with. rewrite E. by apply bool_decide_eq_true_2.
  - rewrite strip_prefix_app in E. by injection E as ->.
Qed.

(** The media types taken for JSON. *)
Lemma is_json_content_type_iff m : is_json_content_type m = true <->
  to_ascii_lowercase m = §"application/json" \/ exists t, to_ascii_lowercase m = §"application/" ++ t ++ §"+json".
Proof.
  unfold is_json_content_type. rewrite orb_true_iff, bool_decide_eq_true. split; (intros [E|E]; [by left|right]).
  - destruct (strip_prefix _ _) as [s|] eqn:Es; [|done]. apply strip_prefix_shape in Es. apply ends_with_iff in E as [t ->]. by exists t.
  - destruct E as [t ->]. rewrite strip_prefix_app. apply ends_with_iff. by exists t.
Qed.
End media.

Section optional.
Context `{HeaderMap HM, HttpTypes}.
Context (problem_json : str -> str -> Z -> str -> str -> str).
Abbreviation HttpError := (Response.HttpError HM).

Definition present (e : HttpError) : Prop := http_error_is_missing e = false.

(** The reading of a body that an extractor of [T] should come to, from the
    Content-Type fields, the size and the bytes of the body. *)
Definition body_spec {T} (accepted : str -> bool) (expected : str) (parse : str -> option T) (malformed : HttpError)
    (i : Incoming) (now : Z) (cs : list str) (tail : Chunks) : Run (Incoming * result (option T) HttpError) :=
  let r := part_request (parts i) in
  match headers_all r §"content-type" with
  | [] => Done now (i, if bool_decide (exact (size_hint (req_body i)) = Some 0%Z) then Ok None else Err (unsupported_media_type expected))
  | [value] =>
      if accepted (media_type (Some value)) then
        match verdict (Z.min (body_limit r) (default_limit (req_body i))) cs tail with
        | None => Never
        | Some outcome =>
            Done (Z.max now (body_ready i))
              (set_body i (request_bytes (HM := HM) (req_body i) (body_limit r)).1,
               let? bytes := outcome in match parse bytes with Some v => Ok (Some v) | None => Err malformed end)
        end
      else Done now (i, Err (unsupported_media_type expected))
  | _ => Done now (i, Err (duplicate_header §"content-type"))
  end.

Lemma verdict_present L cs tail e : verdict L cs tail = Some (Err e) -> present e.
Proof.
  unfold verdict. destruct (_ <? _)%Z; [by intros [= <-]|]. destruct tail as [| |[|[]]]; try done; by intros [= <-].
Qed.

Lemma typed_body_spec {T} accepted expected (parse : str -> option T) malformed decode i now s cs tail :
  accepted [] = false -> present malformed ->
  (forall bytes, decode bytes = match parse bytes with Some v => Ok v | None => Err malformed end) ->
  views_ok (part_request (parts i)) -> (0 <= body_limit (part_request (parts i)))%Z -> (0 <= default_limit (req_body i) <= u64_max)%Z ->
  source (req_body i) = Some s -> flows s cs tail ->
  from_request (OptionBody (body_extractor problem_json (typed_body accepted expected decode))) i now
  = body_spec accepted expected parse malformed i now cs tail.
Proof.
  intros Ha Hm Hd Hv Hl Hdl Hs Hf. unfold OptionBody, body_extractor. cbn [from_request is_missing]. unfold comp_map, typed_body, body_spec.
  unfold request_singleton_header, body_is_absent, require_content_type. rewrite (views_header _ _ Hv).
  destruct (headers_all _ _) as [|v [|v' vs]]; cbn [last].
  - rewrite bool_decide_eq_true_2 by done. cbn [andb media_type]. rewrite Ha. unfold ret. by destruct (bool_decide (exact _ = _)).
  - destruct (accepted (media_type (Some v))).
    + unfold read_body, request_bytes. pose proof (collect_outcome (req_body i) (body_limit (part_request (parts i))) s cs tail Hl Hdl Hs Hf) as Ho.
      destruct (collect (req_body i) _) as [b outcome]. cbn [fst snd] in *. subst outcome.
      destruct (verdict _ cs tail) as [[p|e]|] eqn:Ev; [| |done].
      * cbn. rewrite Hd. unfold optional. destruct (parse p); [done|]. by rewrite Hm.
      * apply verdict_present in Ev. cbn. by rewrite Ev.
    + unfold ret. rewrite bool_decide_eq_false_2 by done. done.
  - done.
Qed.

(** C36. Optional typed bodies: for a request whose views agree (as every built or
    received one's do), [Option<Json<T>>] and [Option<Form<T>>] are [None] exactly when
    the request has no Content-Type and a body of size zero; the value exactly
    when the single Content-Type is of the expected media type and the bytes of the
    body, within the limits, parse; and otherwise an error: 400 for a repeated
    Content-Type, 415 for another media type, 413 or the failure of the transport
    for a body that cannot be read, 400 for one that does not parse. The body is
    not touched unless its media type is accepted. *)
Theorem optional_body_exact {T} (from_slice from_bytes : str -> option T) i now s cs tail :
  views_ok (part_request (parts i)) -> (0 <= body_limit (part_request (parts i)))%Z -> (0 <= default_limit (req_body i) <= u64_max)%Z ->
  source (req_body i) = Some s -> flows s cs tail ->
  from_request (OptionBody (Json problem_json from_slice)) i now
    = body_spec is_json_content_type §"application/json" from_slice (with_source invalid_json OtherSource) i now cs tail
  /\ from_request (OptionBody (Form problem_json from_bytes)) i now
    = body_spec is_form_content_type §"application/x-www-form-urlencoded" from_bytes
        (with_source (HttpError_new 400 §"invalid_form" §"El cuerpo no contiene un formulario valido") OtherSource) i now cs tail
  /\ ((exists t i', from_request (OptionBody (Json problem_json from_slice)) i now = Done t (i', Ok None))
      <-> headers_all (part_request (parts i)) §"content-type" = [] /\ exact (size_hint (req_body i)) = Some 0%Z).
Proof.
  intros Hv Hl Hd Hs Hf. pose proof (typed_body_spec is_json_content_type §"application/json" from_slice (with_source invalid_json OtherSource)
    (decode_json from_slice) i now s cs tail eq_refl eq_refl (fun _ => eq_refl) Hv Hl Hd Hs Hf) as Hj.
  split_and!; [exact Hj|by apply (typed_body_spec _ _ _ _ _ _ _ s)|].
  unfold Json. rewrite Hj. unfold body_spec. destruct (headers_all _ _) as [|v [|v' vs]].
  - split.
    + intros (t & i' & E). case_bool_decide; done.
    + intros [_ E]. rewrite E. eauto.
  - split; [|naive_solver]. intros (t & i' & E). exfalso. destruct (is_json_content_type _); [|done].
    destruct (verdict _ _ _) as [[p|e]|]; try done. cbn in E. by destruct (from_slice p).
  - split; [|naive_solver]. by intros (? & ? & [=]).
Qed.
End optional.

Section handlers.
Context `{HeaderMap HM, HttpTypes}.
Context (problem_json : str -> str -> Z -> str -> str -> str).

(** Extractors that do not panic, as those of the library. *)
Fixpoint calm (a : Args (HM := HM)) : Prop :=
  match a with
  | NoArgs => True
  | BodyArg x => forall i now t, from_request x i now <> Panicked t
  | PartArg x rest => (forall p now t, from_request_parts x p now <> Panicked t) /\ calm rest
  end.

(** Whether every extractor accepts: the values, as the function applied to
    them, and the time. *)
Fixpoint accepts {R} (a : Args (HM := HM)) : takes a (Comp R) -> Incoming -> Z -> Comp R -> Z -> Prop :=
  match a with
  | NoArgs => fun f _ now c t => c = f /\ t = now
  | BodyArg x => fun f i now c t => exists v i', from_request x i now = Done t (i', Ok v) /\ c = f v
  | PartArg x rest => fun f i now c t =>
      exists v t1, from_request_parts x (parts i) now = Done t1 (Ok v) /\ accepts rest (f v) i t1 c t
  end.

(** A typed handler: when every extractor accepts, its answer is that of the
    function on their values, 500 if the function or its future panics; when
    one rejects, the answer does not depend on the function; and no panic escapes. *)
Theorem typed_handler_contained {R} (into : R -> Response HM) a : calm a -> forall f i now,
  (forall c t, accepts a f i now c t ->
     typed_handler problem_json into a f i now
     = match c t with Done t r => Done t (into r) | Panicked t => Done t (panic_response problem_json) | Never => Never end)
  /\ ((forall c t, ~ accepts a f i now c t) -> forall g, typed_handler problem_json into a g i now = typed_handler problem_json into a f i now)
  /\ forall t, typed_handler problem_json into a f i now <> Panicked t.
Proof.
  assert (forall (c : Comp R) t, answer problem_json into c t
    = match c t with Done t r => Done t (into r) | Panicked t => Done t (panic_response problem_json) | Never => Never end) as Hans.
  { intros c t. unfold answer, catch_unwind, comp_map. by destruct (c t). }
  assert (forall (c : Comp R) t t', answer problem_json into c t <> Panicked t') as Hpan.
  { intros c t t'. rewrite Hans. by destruct (c t). }
  induction a as [|E x|E x rest IH]; intros Hc f i now; cbn [typed_handler accepts calm] in *.
  - split_and!; [|naive_solver|by apply Hpan]. intros c t [-> ->]. apply Hans.
  - specialize (Hc i now). split_and!.
    + intros c t (v & i' & -> & ->). apply Hans.
    + intros Hn g. destruct (from_request x i now) as [t [i' [v|e]]|t|]; try done. naive_solver.
    + intros t. destruct (from_request x i now) as [t1 [i' [v|e]]|t1|]; [apply Hpan|done|by destruct (Hc t1)|done].
  - destruct Hc as [Hx Hrest]. specialize (IH Hrest). specialize (Hx (parts i) now). split_and!.
    + intros c t (v & t1 & -> & Ha). by apply IH.
    + intros Hn g. destruct (from_request_parts x (parts i) now) as [t [v|e]|t|]; try done.
      apply (IH (f v) i t). intros c t' Ha. apply (Hn c t'). eauto.
    + intros t. destruct (from_request_parts x (parts i) now) as [t1 [v|e]|t1|]; [by apply IH|done|by destruct (Hx t1)|done].
Qed.
End handlers.

(** ** Concrete requests *)

Module ExtractSample.
#[local] Existing Instances assoc_header_map reference_http_types.
Definition pj (_ _ : str) (_ : Z) (_ _ : str) : str := §"{}".
(** Stands for serde: a string of digits is a number of digits. *)
Definition digits (bytes : str) : option nat := if forallb is_ascii_digit bytes then Some (length bytes) else None.
Definition request_of (pairs : list (str * str)) : Request :=
  mkRequest HTTP_11 §"POST" §"/" None ∅ (header_view pairs) (rebuild_cookies pairs) None 64 false pairs.
Definition incoming (pairs : list (str * str)) (b : RequestBody) : Incoming :=
  mkIncoming (mkParts (mkCall (request_of pairs) ∅ None None false) None) b 7.
Definition upload : Chunks := Yields (Ok §"12") (Yields (Ok §"3") Ended).
Definition posted : Incoming := incoming [(§"content-type", §"application/problem+json; charset=utf-8")] (body_from_stream upload 64).
Definition empty_get : Incoming := incoming [] (body_buffered [] 64).

Lemma optional_body_exact_witness :
  from_request (OptionBody (Json pj digits)) posted 0 = Done 7 (set_body posted (body_buffered §"123" 64), Ok (Some 3))
  /\ from_request (OptionBody (Json pj digits)) empty_get 0 = Done 0 (empty_get, Ok None).
Proof.
  split.
  - destruct (optional_body_exact (HM := AssocHeaders) pj digits digits posted 0 upload [§"12"; §"3"] Ended) as [E _].
    + split; [by repeat constructor|done|done].
    + done.
    + cbn. unfold u64_max. lia.
    + done.
    + by repeat constructor.
    + rewrite E. by vm_compute.
  - destruct (optional_body_exact (HM := AssocHeaders) pj digits digits empty_get 0 (Yields (Ok []) Ended) [[]] Ended) as [E _].
    + split; [by repeat constructor|done|done].
    + done.
    + cbn. unfold u64_max. lia.
    + done.
    + by repeat constructor.
    + rewrite E. by vm_compute.
Defined.

(** A handler of a path and an optional body. *)
Example handled :
  typed_handler pj (fun n => response_send (to_dec (Z.of_nat n))) (PartArg (ExtractVersion pj) (BodyArg (OptionBody (Json pj digits))))
    (fun _ n => sync (n ≫= fun n => if decide (n = 0) then None else Some n)) posted 0
  = Done 7 (response_send §"3").
Proof. by vm_compute. Qed.
End ExtractSample.
