(* ===== verification/WsUpgrade.v ===== *)
(** * Upgrading a request to a WebSocket ([src/app/websocket.rs])

    [Request::websocket_with]: the handshake, the admission by the runtime, the
    101 response and the driver it spawns; what a rejection answers. The
    components are those of [WsConfig], [WsRuntime] and [Dispatch]. Proved: a
    connection is spawned exactly with a 101 the server's own check
    lets through unchanged, every other outcome is an error response and leaves
    no admission behind. *)
From S2P Require Import Prelude Strs Percent Pattern Host Request Headers Response WsConfig WsRuntime WsSocket RequestHead Dispatch.

(** ** Rejections *)

Definition rejection_message (r : HandshakeRejection) : str :=
  match r with
  | RejectVersion => §"La actualizacion WebSocket requiere HTTP/1.1"
  | RejectHost => §"La cabecera Host debe aparecer exactamente una vez y no estar vacia"
  | RejectMethod => §"La actualizacion WebSocket requiere el metodo GET"
  | RejectUpgrade => §"La cabecera Upgrade debe incluir websocket"
  | RejectConnection => §"La cabecera Connection debe incluir Upgrade"
  | RejectWsVersionCount => §"Sec-WebSocket-Version debe aparecer exactamente una vez"
  | RejectWsVersion => §"La version WebSocket debe ser 13"
  | RejectKeyCount => §"Sec-WebSocket-Key debe aparecer exactamente una vez"
  | RejectKey => §"Sec-WebSocket-Key debe codificar exactamente 16 bytes"
  | RejectOriginCount => §"La cabecera Origin no puede aparecer mas de una vez"
  | RejectOrigin => §"El origen WebSocket no esta permitido"
  | RejectToken => §"Sec-WebSocket-Protocol contiene un token no valido"
  | RejectDuplicateToken => §"Sec-WebSocket-Protocol contiene un token duplicado"
  | RejectNoToken => §"Sec-WebSocket-Protocol debe contener al menos un token"
  | RejectRequired => §"Se requiere un subprotocolo WebSocket compatible"
  end.
Definition rejection_headers (r : HandshakeRejection) : list (str * str) :=
  match r with RejectWsVersion => [(§"sec-websocket-version", §"13")] | _ => [] end.

Section upgrade.
Context `{HeaderMap HM, HttpTypes}.
Context (parse_uri : str -> option Uri) (base64_decode : str -> option str) (representable : Z -> bool).
Context (problem_json : str -> str -> Z -> str -> str -> str) (websocket_accept : str -> str).
Context {Ip Sender Abort : Type} `{Countable Ip}.
Context (max_rooms_per_connection max_room_name_bytes : nat).
Abbreviation HttpError := (Response.HttpError HM).
Abbreviation Response := (Response HM).
Abbreviation Runtime := (Runtime (Ip := Ip) (Sender := Sender) (Abort := Abort)).
Abbreviation from_error := (from_error problem_json).
Abbreviation validate_handshake := (validate_handshake parse_uri base64_decode).

(** [HandshakeRejection::into_http_error]. *)
Definition rejection_http_error (r : HandshakeRejection) : HttpError :=
  let message := rejection_message r in
  let s := rejection_status r in
  let error := if (s =? 400)%Z then bad_request_error message
               else if (s =? 403)%Z then HttpError_new 403 §"forbidden" message
               else if (s =? 426)%Z then HttpError_new 426 §"upgrade_required" message
               else if status_code s then HttpError_new s §"websocket_handshake_rejected" message
               else with_source (internal_server_error §"Error interno") OtherSource in
  foldl (fun e '(name, value) => error_header e name value) error (rejection_headers r).

(** [AdmissionError::into_http_error]. *)
Definition admission_http_error (e : AdmissionError) : HttpError :=
  match e with
  | Shutdown => HttpError_new 503 §"websocket_shutdown" §"El runtime WebSocket se esta cerrando"
  | ProcessCapacity =>
      HttpError_new 503 §"websocket_process_capacity" §"La capacidad global de conexiones WebSocket esta agotada"
  | RouteCapacity =>
      HttpError_new 503 §"websocket_route_capacity" §"La capacidad de conexiones WebSocket para esta ruta esta agotada"
  | IpCapacity =>
      error_header
        (HttpError_new 429 §"websocket_ip_capacity" §"El limite de conexiones WebSocket para esta direccion IP esta agotado")
        §"retry-after" §"1"
  end.

(** ** The response *)

Definition websocket_upgrade_response (req : Request) : result Response HttpError :=
  match singleton_header req §"sec-websocket-key" with
  | None => Err (bad_request_error §"Falta Sec-WebSocket-Key")
  | Some key =>
      Ok (with_header (with_header (with_header (with_status (response_send []) 101) §"upgrade" §"websocket")
            §"connection" §"Upgrade") §"sec-websocket-accept" (websocket_accept key))
  end.

Definition authorize_websocket_upgrade (r : Response) : Response :=
  mkResponse (status r) (content_type r) (res_headers r) (body_kind r) (trailers r) (error r) (build_error r) true.

(** The runtime left, the response and the connection spawned on it. A permit
    that is not handed to the driver is dropped, which releases it. *)
Definition into_websocket_response (call : Call) (remote : option (Ip * Z)) (config : ResolvedWebSocketConfig) (protocol : option str)
    (rt : Runtime) (now : Z) : Runtime * Response * option Z :=
  let route := default (path (request call)) (route_pattern call) in
  let '(rt, admitted, _) := admit_connection max_rooms_per_connection max_room_name_bytes rt route remote protocol config now in
  match admitted with
  | Err e => (rt, from_error (admission_http_error e), None)
  | Ok id =>
      let dropped := (release rt id).1.1 in
      match websocket_upgrade_response (request call) with
      | Err e => (dropped, from_error e, None)
      | Ok r =>
          let r := match protocol with Some p => with_header r §"sec-websocket-protocol" p | None => r end in
          if upgrade call then (rt, authorize_websocket_upgrade r, Some id)
          else (dropped, from_error (bad_request_error §"La actualizacion WebSocket no esta disponible"), None)
      end
  end.

Definition websocket_with (call : Call) (remote : option (Ip * Z)) (layer : Layer.WebSocketConfig) (rt : Runtime) (now : Z)
  : Runtime * Response * option Z :=
  let config := default (from_layers Layer.default layer) (resolved_websocket_config call) in
  match validate parse_uri representable config with
  | Err _ => (rt, from_error (with_source (internal_server_error §"Configuracion WebSocket no valida") OtherSource), None)
  | Ok _ =>
      match validate_handshake (request call) config with
      | Err r => (rt, from_error (rejection_http_error r), None)
      | Ok protocol => into_websocket_response call remote config protocol rt now
      end
  end.
Definition websocket (call : Call) (remote : option (Ip * Z)) := websocket_with call remote Layer.default.
End upgrade.

(** ** Properties *)

Section upgrade_theorems.
Context `{HeaderMap HM, HttpTypes}.
Context (parse_uri : str -> option Uri) (base64_decode : str -> option str) (representable : Z -> bool).
Context (problem_json : str -> str -> Z -> str -> str -> str) (websocket_accept : str -> str).
Context {Ip Sender Abort : Type} `{Countable Ip}.
Context (max_rooms_per_connection max_room_name_bytes : nat).
(** base64 is visible text. *)
Hypothesis accept_visible : forall key, forallb visible_ascii (websocket_accept key) = true.
Abbreviation runtime := (Runtime (Ip := Ip) (Sender := Sender) (Abort := Abort)).
Abbreviation validate_handshake := (validate_handshake parse_uri base64_decode).
Abbreviation websocket_with := (websocket_with (HM := HM) parse_uri base64_decode representable problem_json websocket_accept
  (Ip := Ip) (Sender := Sender) (Abort := Abort) max_rooms_per_connection max_room_name_bytes).
Abbreviation settle := (settle (HM := HM) base64_decode problem_json websocket_accept).

(** What an accepted handshake says of the request. *)
Lemma handshake_accepted req config protocol : validate_handshake req config = Ok protocol ->
  is_websocket_upgrade base64_decode req = true /\ is_connect req = false /\ version req = HTTP_11
  /\ (exists key, singleton_header req §"sec-websocket-key" = Some key)
  /\ (forall p, protocol = Some p -> is_valid_protocol_token p = true).
Proof.
  unfold WsConfig.validate_handshake, is_websocket_upgrade. case_bool_decide as Hv; [|done]. cbn [negb].
  destruct (singleton_header req §"host") as [host|]; [|done]. case_bool_decide; [done|].
  destruct (eq_ignore_ascii_case (method req) §"GET") eqn:Hm; [|done]. cbn [negb].
  destruct (request_header_contains_token req §"upgrade" _); [|done]. destruct (request_header_contains_token req §"connection" _); [|done].
  cbn [negb]. destruct (singleton_header req §"sec-websocket-version") as [v|]; [|done].
  case_bool_decide as H13; [|done]. cbn [negb]. destruct (singleton_header req §"sec-websocket-key") as [key|]; [|done].
  destruct (is_valid_websocket_key _ key); [|done]. cbn [negb]. destruct (1 <? _)%nat; [done|]. destruct (negb _); [done|].
  destruct (negotiate_protocol req _) as [p|] eqn:Hn; [|done]. destruct (require_protocol config && _); [done|].
  intros [= <-]. split_and!; [done| |done|eauto|].
  - unfold is_connect. unfold eq_ignore_ascii_case in *. bsplit. rewrite Hm. by vm_compute.
  - intros q ->. apply negotiate_Ok in Hn as (Ht & _ & _ & Hf). symmetry in Hf. apply find_some in Hf as [Hin _].
    rewrite Forall_forall in Ht. by apply Ht, list_elem_of_In.
Qed.

Lemma token_visible p : is_valid_protocol_token p = true -> forallb visible_ascii p = true.
Proof.
  unfold is_valid_protocol_token. intros [_ Hp]%andb_true_iff. rewrite forallb_true_Forall in *. eapply Forall_impl; [exact Hp|].
  intros b. by destruct b.
Qed.

Lemma upgrade_response_fields req key : singleton_header req §"sec-websocket-key" = Some key ->
  exists r : Response HM, websocket_upgrade_response websocket_accept req = Ok r /\ status r = 101%Z
    /\ get_all (res_headers r) §"sec-websocket-accept" = [websocket_accept key]
    /\ get_all (res_headers r) §"upgrade" = [§"websocket"] /\ get_all (res_headers r) §"connection" = [§"Upgrade"]
    /\ get_all (res_headers r) §"sec-websocket-protocol" = [].
Proof.
  intros Hk. unfold websocket_upgrade_response. rewrite Hk. eexists. split; [done|].
  rewrite !with_header_plain by (by apply header_value_visible || by vm_compute).
  unfold with_status. rewrite (proj2 (status_code_range 101)) by lia. cbn.
  split_and!; [done|..]; repeat first [rewrite get_all_insert_eq | rewrite get_all_insert_ne by done]; try done. apply get_all_empty.
Qed.

(** Statuses of the errors. *)
Lemma from_error_plain (e : Response.HttpError HM) : (400 <= err_status e <= 599)%Z ->
  status (from_error problem_json e) = err_status e /\ websocket_upgrade_authorized (from_error problem_json e) = false.
Proof. intros He. unfold from_error, with_status. by rewrite (proj2 (status_code_range _)) by lia. Qed.

Lemma rejection_status_range r : (400 <= err_status (rejection_http_error (HM := HM) r) <= 426)%Z.
Proof. destruct r; cbn; lia. Qed.
Lemma admission_status_range e : (429 <= err_status (admission_http_error (HM := HM) e) <= 503)%Z.
Proof. destruct e; cbn; lia. Qed.

(** Dropping the permit undoes the admission. *)
Lemma admit_release (rt : runtime) route' remote protocol' config now rt' id obs :
  connections (registry rt) !! next_id rt = None ->
  admit_connection max_rooms_per_connection max_room_name_bytes rt route' remote protocol' config now = (rt', Ok id, obs) ->
  id = next_id rt /\ is_Some (connections (registry rt') !! id)
  /\ connections (registry (release rt' id).1.1) = connections (registry rt).
Proof.
  intros Hf. unfold admit_connection. destruct (rejection _ _ _ _); [done|]. intros [= <- <- <-]. split; [done|].
  unfold release. cbn. rewrite lookup_insert_eq. split; [eauto|]. cbn. by rewrite delete_insert_id.
Qed.
Lemma admit_rejected (rt : runtime) route' remote protocol' config now rt' e obs :
  admit_connection max_rooms_per_connection max_room_name_bytes rt route' remote protocol' config now = (rt', Err e, obs) ->
  connections (registry rt') = connections (registry rt).
Proof. unfold admit_connection. destruct (rejection _ _ _ _); [|done]. by intros [= <- _ _]. Qed.

(** The response of a failed upgrade and what it leaves. *)
Definition refused (rt rt' : runtime) (r : Response HM) : Prop :=
  (400 <= status r <= 599)%Z /\ websocket_upgrade_authorized r = false /\ connections (registry rt') = connections (registry rt).

Lemma refused_error (rt rt' : runtime) (e : Response.HttpError HM) :
  (400 <= err_status e <= 599)%Z -> connections (registry rt') = connections (registry rt) -> refused rt rt' (from_error problem_json e).
Proof. intros He Hc. destruct (from_error_plain e He) as [Hs Ha]. split_and!; [lia|lia|done|done]. Qed.

(** The server passes an authorized 101 for a complete request on. *)
Lemma settle_authorized call (r : Response HM) key :
  upgrade call = true -> is_websocket_upgrade base64_decode (request call) = true -> is_connect (request call) = false ->
  version (request call) = HTTP_11 -> singleton_header (request call) §"sec-websocket-key" = Some key ->
  status r = 101%Z -> get_all (res_headers r) §"sec-websocket-accept" = [websocket_accept key] ->
  settle call (authorize_websocket_upgrade r) = authorize_websocket_upgrade r.
Proof.
  intros Hup Hu Hc Hv Hk Hs Hacc. unfold Dispatch.settle. cbn [status authorize_websocket_upgrade]. rewrite Hs. cbn [Z.eqb andb].
  assert (authorized_websocket_switch (authorize_websocket_upgrade r) (expected_websocket_accept base64_decode websocket_accept call) = true) as ->.
  { unfold authorized_websocket_switch, expected_websocket_accept. rewrite Hup, Hu. cbn [andb authorize_websocket_upgrade websocket_upgrade_authorized].
    apply singleton_header_Some in Hk as Hall. unfold request_singleton_header. rewrite Hall. cbn [authorize_websocket_upgrade res_headers].
    change SEC_WEBSOCKET_ACCEPT with §"sec-websocket-accept". rewrite Hacc.
    rewrite header_value_to_str by (by apply header_value_visible). by rewrite bool_decide_eq_true_2. }
  cbn [negb]. rewrite Hv, Hc. done.
Qed.

(** The runtime has room for one more connection of the route and the address. *)
Definition below (limit : option nat) (n : nat) : Prop := match limit with Some l => n < l | None => True end.
Definition has_room (rt : runtime) (route' : str) (remote : option (Ip * Z)) (config : ResolvedWebSocketConfig) : Prop :=
  accepting (registry rt) = true
  /\ below (process_max_connections config) (size (connections (registry rt)))
  /\ below (route_max_connections config) (default 0 (route_counts (registry rt) !! route'))
  /\ match remote with
     | Some (ip, _) => below (max_connections_per_ip config) (default 0 (ip_counts (registry rt) !! ip))
     | None => True
     end.

Lemma at_limit_below limit n : at_limit limit n = false <-> below limit n.
Proof. destruct limit; cbn; [|done]. apply Nat.leb_gt. Qed.

Lemma rejection_room (rt : runtime) route' remote config :
  rejection (registry rt) route' (fst <$> remote) config = None <-> has_room rt route' remote config.
Proof.
  unfold rejection, has_room. rewrite <- !at_limit_below. destruct (accepting (registry rt)); cbn [negb]; [|naive_solver].
  destruct (at_limit (process_max_connections config) _); [naive_solver|]. unfold count_of.
  destruct (at_limit (route_max_connections config) _); [naive_solver|].
  destruct remote as [[ip port]|]; cbn; [|naive_solver]. rewrite <- at_limit_below.
  destruct (at_limit (max_connections_per_ip config) _); naive_solver.
Qed.

Lemma admit_room (rt : runtime) route' remote protocol' config now :
  is_ok (admit_connection max_rooms_per_connection max_room_name_bytes rt route' remote protocol' config now).1.2 = true
  <-> has_room rt route' remote config.
Proof.
  rewrite <- rejection_room. unfold admit_connection. by destruct (rejection (registry rt) route' (fst <$> remote) config).
Qed.

(** C39. Upgrades are all or nothing: a connection is admitted and its driver
    spawned exactly when the configuration is valid, the handshake is
    accepted, the runtime accepts connections and is below the limits of the
    process, the route and the address, and the transport can be upgraded; the
    response is then the 101 with the accept value of the client's key and the
    negotiated protocol, which the server's check before sending passes on
    unchanged. In every other case the response is an error, carries no
    authority to switch protocols, and no connection stays registered. *)
Theorem upgrade_all_or_nothing call remote layer (rt : runtime) now :
  connections (registry rt) !! next_id rt = None ->
  let config := default (from_layers Layer.default layer) (resolved_websocket_config call) in
  let '(rt', r, spawned) := websocket_with call remote layer rt now in
  (is_Some spawned <->
     is_ok (validate parse_uri representable config) = true /\ is_ok (validate_handshake (request call) config) = true
     /\ has_room rt (default (path (request call)) (route_pattern call)) remote config /\ upgrade call = true)
  /\ match spawned with
     | None => refused rt rt' r
     | Some id =>
         id = next_id rt /\ is_Some (connections (registry rt') !! id)
         /\ exists protocol key,
              validate_handshake (request call) config = Ok protocol
              /\ singleton_header (request call) §"sec-websocket-key" = Some key
              /\ status r = 101%Z /\ get_all (res_headers r) §"sec-websocket-accept" = [websocket_accept key]
              /\ get_all (res_headers r) §"sec-websocket-protocol" = option_list protocol
              /\ settle call r = r
     end.
Proof.
  intros Hf config. unfold WsUpgrade.websocket_with. fold config.
  assert (forall P Q R S : Prop, ~ (P /\ Q /\ R /\ S) -> (is_Some (@None Z) <-> P /\ Q /\ R /\ S)) as Hnone.
  { intros P Q R S Hn. split; [by intros [? ?]|done]. }
  destruct (validate _ _ _).
  2:{ split; [|by apply refused_error]. apply Hnone. cbn. naive_solver. }
  destruct (validate_handshake (request call) config) as [protocol|rej] eqn:Hh.
  2:{ split; [apply Hnone; cbn; naive_solver|]. apply refused_error; [|done]. pose proof (rejection_status_range rej). lia. }
  apply handshake_accepted in Hh as Ha. destruct Ha as (Hu & Hc & Hv & [key Hk] & Hp).
  unfold into_websocket_response.
  pose proof (admit_room rt (default (path (request call)) (route_pattern call)) remote protocol config now) as Hroom.
  destruct (admit_connection _ _ _ _ _ _ _ _) as [[rt1 [id|e]] obs] eqn:Eadm; cbn [fst snd is_ok] in Hroom.
  2:{ split; [apply Hnone; naive_solver|].
      apply refused_error; [pose proof (admission_status_range e); lia|by eapply admit_rejected]. }
  destruct (admit_release _ _ _ _ _ _ _ _ _ Hf Eadm) as (Hid & Hin & Hrel).
  destruct (upgrade_response_fields (request call) key Hk) as (r0 & -> & Hs & Hacc & _ & _ & Hproto).
  destruct (upgrade call) eqn:Hup; [|split; [apply Hnone; naive_solver|by apply refused_error]].
  split; [split; [intros _; by split_and!; [| |apply Hroom|]|by eexists]|].
  split_and!; [done|done|]. exists protocol, key.
  set (r := match protocol with Some p => _ | None => r0 end).
  assert (status r = 101%Z /\ get_all (res_headers r) §"sec-websocket-accept" = [websocket_accept key]
    /\ get_all (res_headers r) §"sec-websocket-protocol" = option_list protocol) as (Hs' & Hacc' & Hpro').
  { subst r. destruct protocol as [p|]; [|done]. rewrite with_header_plain by (done || by apply header_value_visible, token_visible, Hp).
    cbn. by rewrite get_all_insert_eq, get_all_insert_ne. }
  split_and!; [done..|]. by apply (settle_authorized call r key).
Qed.
End upgrade_theorems.

(** ** A concrete upgrade *)

Module UpgradeSample.
#[local] Existing Instances assoc_header_map reference_http_types.
Definition pj (_ _ : str) (_ : Z) (_ _ : str) : str := §"{}".
Definition decode (_ : str) : option str := Some (replicate 16 Byte.x00).
Definition accept (_ : str) : str := §"s3pPLMBiTxaQ9kYGzzhZRbK+xOo=".
Definition upgrading (available : bool) : Call :=
  mkCall (build (foldl (fun b h => build_header b h.1 h.2) (build_path RequestBuilder_new §"/chat")
            [(§"host", §"a.example"); (§"upgrade", §"websocket"); (§"connection", §"Upgrade");
             (§"sec-websocket-key", §"dGhlIHNhbXBsZSBub25jZQ=="); (§"sec-websocket-version", §"13")])) ∅ None None available.
Definition any_origin : Layer.WebSocketConfig :=
  Layer.mkWebSocketConfig None None None None None None None None None None None None None None None (Some (Any true)) None None None None None.
Definition outcome (available : bool) :=
  websocket_with (HM := AssocHeaders) (fun _ => None) decode (fun _ => true) pj accept (Ip := Z) (Sender := nat) (Abort := nat) 4 16
    (upgrading available) None any_origin Runtime_new 0.

Example upgrade_outcomes : (status (outcome true).1.2, (outcome true).2, status (outcome false).1.2, (outcome false).2) = (101, Some 1, 400, None)%Z.
Proof. vm_compute. reflexivity. Qed.

Lemma upgrade_all_or_nothing_witness :
  status (outcome true).1.2 = 101%Z /\ settle decode pj accept (upgrading true) (outcome true).1.2 = (outcome true).1.2
  /\ connections (registry (outcome false).1.1) = ∅.
Proof.
  assert (Hs : (outcome true).2 = Some 1%Z) by (vm_compute; reflexivity).
  assert (Hn : (outcome false).2 = None) by (vm_compute; reflexivity).
  pose proof (upgrade_all_or_nothing (HM := AssocHeaders) (fun _ => None) decode (fun _ => true) pj accept (Ip := Z) (Sender := nat) (Abort := nat)
    4 16 (fun _ => eq_refl) (upgrading true) None any_origin Runtime_new 0 eq_refl) as Ht.
  pose proof (upgrade_all_or_nothing (HM := AssocHeaders) (fun _ => None) decode (fun _ => true) pj accept (Ip := Z) (Sender := nat) (Abort := nat)
    4 16 (fun _ => eq_refl) (upgrading false) None any_origin Runtime_new 0 eq_refl) as Hf.
  change (websocket_with _ _ _ _ _ _ _ (upgrading true) _ _ _ _) with (outcome true) in Ht.
  change (websocket_with _ _ _ _ _ _ _ (upgrading false) _ _ _ _) with (outcome false) in Hf.
  destruct (outcome true) as [[rt r] s]. destruct (outcome false) as [[rt' r'] s']. cbn [fst snd] in *. subst s s'.
  destruct Ht as (_ & _ & _ & p & k & _ & _ & E1 & _ & _ & E2). destruct Hf as (_ & _ & _ & E3). exact (conj E1 (conj E2 E3)).
Defined.
End UpgradeSample.
