(* ===== verification/WsEndpoint.v ===== *)
(** * The application's side of a connection ([src/app/websocket/socket.rs])

    Normalized handlers, the handles an application holds, the
    receiver, the wait for the close and the counter of public senders. The
    queues are those of [WsSocket], the rooms those of [WsRuntime]. Proved: a
    handler never lets a panic escape; the wait for the close ends with the
    first close published, or with 1006 if the driver is gone; and the published
    number of senders is exact when updates do not overlap, but may stay wrong
    for good when two of them do. *)
From S2P Require Import Prelude Strs Percent Pattern Host Request Headers Response WsConfig WsRuntime WsSocket WsHub WsDriver.
From S2P Require Import RequestHead Dispatch.

(** ** Handlers *)

(** [IntoWebSocketOutput]; a [WebSocketError] is known by its category. *)
Definition unit_output (_ : unit) : result unit WsError := Ok tt.
Definition compat_output (r : result unit WebSocketErrorCategory) : result unit WsError :=
  match r with Ok _ => Ok tt | Err e => Err (WsWebSocket e) end.
Definition ws_output (r : result unit WsError) : result unit WsError := r.

(** The call of the handler ([None]: it panics) and its future. *)
Definition normalize_handler {O} (into : O -> result unit WsError) (call : option (Comp O)) : Comp (result unit WsError) :=
  match call with
  | None => ret (Err HandlerPanic)
  | Some future => fun now =>
      match future now with Done t o => Done t (into o) | Panicked t => Done t (Err HandlerPanic) | Never => Never end
  end.

(** ** The channels of a connection *)

Definition CONTROL_CHANNEL_CAPACITY : nat := 8.
Record ChannelPair := mkChannelPair {
  inbound_room : nat; outbound_room : nat; control_room : nat;
  pair_policy : BackpressurePolicy; pair_send_timeout : Z
}.
Definition channel_pair (config : ResolvedWebSocketConfig) : ChannelPair :=
  mkChannelPair (inbound_capacity config `max` 1) (outbound_capacity config `max` 1) CONTROL_CHANNEL_CAPACITY
    (backpressure_policy config) (send_timeout config).

(** ** Sending *)

Section sender.
Context (policy : BackpressurePolicy) (env : ChannelAnswers).

Definition send_text (text : str) : sent := send policy env (MText text).
Definition send_binary (bytes : str) : sent := send policy env (MBinary bytes).
(** [to_string] of serde_json on the value. *)
Definition send_json {T} (to_string : T -> option str) (value : T) : sent :=
  match to_string value with Some text => send_text text | None => (Err (WsWebSocket Json), []) end.
(** [WebSocketEvent]: an object with the name and the data. *)
Record WebSocketEvent (T : Type) := mkWebSocketEvent { event : str; event_data : T }.
Definition send_event {T} (to_string : WebSocketEvent T -> option str) (name : str) (data : T) : sent :=
  send_json to_string (mkWebSocketEvent T name data).
Definition ping (payload : str) : sent := send_control env (CPing payload).
Definition pong (payload : str) : sent := send_control env (CPong payload).
Definition close : sent := close_with env 1000 [].
End sender.

Definition compatibility_error (e : WsError) : WebSocketErrorCategory :=
  match e with WsWebSocket e => e | _ => Protocol end.
(** The methods of [WebSocket] over those of its sender. *)
Definition compatible (s : sent) : result unit WebSocketErrorCategory * list Effect :=
  (match s.1 with Ok _ => Ok tt | Err e => Err (compatibility_error e) end, s.2).

(** ** Rooms *)

Section rooms.
Context {Ip Sender Abort : Type} `{Countable Ip}.
Abbreviation Runtime := (Runtime (Ip := Ip) (Sender := Sender) (Abort := Abort)).

Definition sender_join (rt : Runtime) (id : Z) (room : str) := join_rooms rt id [room].
Definition sender_leave (rt : Runtime) (id : Z) (room : str) := leave rt id [room].
Definition sender_rooms (rt : Runtime) (id : Z) : result (list str) WsError :=
  match rooms_of rt id with Some rooms => Ok rooms | None => Err (ConnectionNotFound id) end.
End rooms.

(** ** Receiving *)

(** What arrives; the end of the list is the end of the stream. *)
Definition recv (inbound : list (result WebSocketMessage WebSocketErrorCategory))
  : result (option WebSocketMessage) WebSocketErrorCategory * list (result WebSocketMessage WebSocketErrorCategory) :=
  match inbound with
  | Ok message :: rest => (Ok (Some message), rest)
  | Err e :: rest => (Err e, rest)
  | [] => (Ok None, [])
  end.

(** ** The close *)

Definition lost_driver : WebSocketCloseInfo :=
  mkCloseInfo 1006 §"El driver WebSocket termino sin publicar el cierre" ProtocolError false.
(** The value of the watch channel, the values it takes later, and whether the
    driver then drops it; [None]: the wait goes on. *)
Fixpoint wait_for_close (current : option WebSocketCloseInfo) (later : list (option WebSocketCloseInfo)) (dropped : bool)
  : option WebSocketCloseInfo :=
  match current with
  | Some info => Some info
  | None => match later with
            | next :: later => wait_for_close next later dropped
            | [] => if dropped then Some lost_driver else None
            end
  end.

(** ** Counting public senders *)

(** The atomic counter, the value of the watch channel, and the counts that
    threads have computed and not yet sent to it. *)
Record SenderCount := mkSenderCount { public_senders : nat; published : nat; unsent : list nat }.
Definition SenderCount_new : SenderCount := mkSenderCount 1 1 [].

(** [fetch_add] of [clone] and [fetch_sub] of [drop]; then the [send] of either,
    a separate step of its thread. *)
Definition begin_clone (s : SenderCount) : SenderCount :=
  let count := S (public_senders s) in mkSenderCount count (published s) (unsent s ++ [count]).
Definition begin_drop (s : SenderCount) : SenderCount :=
  let count := public_senders s - 1 in mkSenderCount count (published s) (unsent s ++ [count]).
Definition publish (i : nat) (s : SenderCount) : SenderCount :=
  match unsent s !! i with
  | Some count => mkSenderCount (public_senders s) count (delete i (unsent s))
  | None => s
  end.

Inductive counting : SenderCount -> SenderCount -> Prop :=
| counting_clone s : 0 < public_senders s -> counting s (begin_clone s)
| counting_drop s : 0 < public_senders s -> counting s (begin_drop s)
| counting_send s i : i < length (unsent s) -> counting s (publish i s).

(** ** Properties *)

Lemma normalize_contained {O} (into : O -> result unit WsError) call now t : normalize_handler into call now <> Panicked t.
Proof. unfold normalize_handler. destruct call as [future|]; [|done]. by destruct (future now). Qed.

(** The wait ends with the first close that is published; with 1006 exactly when
    the driver goes without publishing one. *)
Lemma wait_for_close_first current later dropped :
  wait_for_close current later dropped
  = match List.find (fun v => bool_decide (is_Some v)) (current :: later) with
    | Some (Some info) => Some info
    | _ => if dropped then Some lost_driver else None
    end.
Proof. revert current. induction later as [|next later IH]; intros [info|]; cbn; try done. Qed.

(** Senders whose updates do not overlap: the published number is theirs. *)
Inductive sequential : SenderCount -> Prop :=
| sequential_new : sequential SenderCount_new
| sequential_clone s : sequential s -> 0 < public_senders s -> sequential (publish 0 (begin_clone s))
| sequential_drop s : sequential s -> 0 < public_senders s -> sequential (publish 0 (begin_drop s)).
Theorem sequential_count_exact s : sequential s -> published s = public_senders s /\ unsent s = [].
Proof.
  induction 1 as [|s _ [IH1 IH2] _|s _ [IH1 IH2] _]; [done|..]; unfold publish, begin_clone, begin_drop; cbn; by rewrite IH2.
Qed.

(** Two overlapping drops: both counts are computed, the later one is sent
    first, and the watch channel is left at one with no sender alive and
    nothing left to send, so a driver that waits for zero never sees it. *)
Theorem stale_sender_count : rtc counting SenderCount_new (mkSenderCount 0 1 []).
Proof.
  eapply rtc_l; [apply counting_clone; cbn; lia|]. eapply rtc_l; [apply (counting_send _ 0); cbn; lia|].
  eapply rtc_l; [apply counting_drop; cbn; lia|]. eapply rtc_l; [apply counting_drop; cbn; lia|].
  eapply rtc_l; [apply (counting_send _ 1); cbn; lia|]. eapply rtc_l; [apply (counting_send _ 0); cbn; lia|].
  apply rtc_refl.
Qed.
