(* ===== verification/DispatchSpec.v ===== *)
(** * What dispatch guarantees

    Whatever the handlers, middlewares and the error handler do (panic, hang,
    answer nonsense), a request is answered by its deadline with a well-framed
    response; a response switches protocols only for an authorised WebSocket
    handshake and never for CONNECT; requests no route answers get the 404,
    405 or OPTIONS answer their path deserves; a trailing-slash redirect stays
    on the server and does not loop; error headers survive custom rendering. *)
From S2P Require Import Prelude Strs Percent Pattern Host Trie Url Router RouterInv RouterLookup.
From S2P Require Import Request Headers Response WsConfig Ipv6 RequestHead Dispatch.

(** ** Replacing header fields *)

Section headers.
Context `{HeaderMap HM}.

Lemma clear_fields (skip : str -> bool) (keys : list str) n : forall m : HM,
  get_all (foldl (fun m n => if skip n then m else hm_remove m n) m keys) n
  = if negb (skip n) && bool_decide (n ∈ keys) then [] else get_all m n.
Proof.
  induction keys as [|k keys IH]; intros m; cbn [foldl].
  - rewrite (bool_decide_eq_false_2 (n ∈ [])) by apply not_elem_of_nil. by rewrite andb_false_r.
  - rewrite IH. destruct (skip n) eqn:Hn; cbn [negb andb].
    + destruct (skip k) eqn:Hk; [done|]. rewrite get_all_remove_ne by congruence. done.
    + destruct (decide (n = k)) as [->|Hne].
      * rewrite (bool_decide_eq_true_2 (k ∈ k :: keys)) by left. rewrite Hn. rewrite get_all_remove_eq.
        by destruct (bool_decide (k ∈ keys)).
      * assert (bool_decide (n ∈ k :: keys) = bool_decide (n ∈ keys)) as ->.
        { apply bool_decide_ext. rewrite elem_of_cons. naive_solver. }
        destruct (bool_decide (n ∈ keys)); [done|]. destruct (skip k); [done|]. by rewrite get_all_remove_ne.
Qed.

Lemma append_fields (skip : str -> bool) (l : list (str * str)) n : forall m : HM,
  get_all (foldl (fun m '(n, v) => if skip n then m else hm_append m n v) m l) n
  = get_all m n ++ (if skip n then [] else map snd (List.filter (fun p => bool_decide (p.1 = n)) l)).
Proof.
  induction l as [|[k v] l IH]; intros m; cbn [foldl List.filter map fst].
  - destruct (skip n); by rewrite app_nil_r.
  - rewrite IH. destruct (skip n) eqn:Hn, (skip k) eqn:Hk.
    + done.
    + rewrite get_all_append. by rewrite decide_False by congruence.
    + by rewrite bool_decide_eq_false_2 by congruence.
    + rewrite get_all_append. case_decide as He.
      * subst k. rewrite bool_decide_eq_true_2 by done. cbn. by rewrite <- app_assoc.
      * by rewrite bool_decide_eq_false_2 by congruence.
Qed.

Lemma override_headers_get skip (from into : HM) n :
  get_all (override_headers skip from into) n
  = if skip n || bool_decide (get_all from n = []) then get_all into n else get_all from n.
Proof.
  unfold override_headers. rewrite append_fields, clear_fields, hm_iter_named.
  destruct (skip n); cbn [negb andb orb]; [by rewrite app_nil_r|].
  case_bool_decide as Hk.
  - rewrite elem_of_hm_keys in Hk. by rewrite bool_decide_eq_false_2.
  - rewrite elem_of_hm_keys in Hk. apply dec_stable in Hk. rewrite Hk, bool_decide_eq_true_2 by done.
    by rewrite app_nil_r.
Qed.
End headers.

(** ** Computations that are guarded do not panic *)

Definition no_panic {A} (c : Comp A) : Prop := forall now t, c now <> Panicked t.

Lemma guarded_no_panic {A B} (f : A -> B) recover (c : Comp A) : no_panic (comp_map f (catch_unwind recover c)).
Proof. intros now t. unfold comp_map, catch_unwind. by destruct (c now). Qed.

Lemma map_no_panic {A B} (f : A -> B) (c : Comp A) : no_panic c -> no_panic (comp_map f c).
Proof. intros Hc now t. unfold comp_map. specialize (Hc now t). destruct (c now); [done| |done]. intros [= ->]. by apply Hc. Qed.

(** A deadline bounds a computation that does not panic. *)
Lemma timeout_done {A} deadline (c : Comp A) now : no_panic c ->
  exists t a, timeout_at deadline c now = Done t a /\ (t <= Z.max now deadline)%Z.
Proof.
  intros Hc. unfold timeout_at. specialize (Hc now). destruct (c now) as [t a|t|].
  - destruct (Z.leb_spec t (Z.max now deadline)); eauto with lia.
  - by destruct (Hc t).
  - eauto with lia.
Qed.

(** ** Lookups leave the routes as they are *)

Section lookups.
Context {Handler Middleware WebSocketConfig : Type} `{PercentEncoding}.
Abbreviation Router := (Router Handler Middleware WebSocketConfig).

Definition same_routes (r r' : Router) : Prop := routes r' = routes r /\ router_ok r'.

Lemma index_same (r : Router) : router_ok r -> same_routes r (router_index r).1.
Proof. intros Hr. destruct (router_index_spec r Hr) as (_ & ? & _ & ?). done. Qed.

Lemma resolve_same skip (r : Router) m p : router_ok r -> same_routes r (resolve_with skip r m p).1.
Proof.
  intros Hr. unfold resolve_with. case_match; [|done]. pose proof (index_same r Hr) as Hi.
  by destruct (router_index r).
Qed.

Lemma allowed_same (r : Router) p host : router_ok r -> same_routes r (allowed_methods r p host).1.
Proof.
  intros Hr. unfold allowed_methods. case_match; [|done]. pose proof (index_same r Hr) as Hi.
  by destruct (router_index r).
Qed.

Lemma same_trans (r1 r2 r3 : Router) : same_routes r1 r2 -> same_routes r2 r3 -> same_routes r1 r3.
Proof. intros [E1 _] [E2 ?]. split; [congruence|done]. Qed.

(** Every index the scope search looks at is a route. *)
Lemma scoped_loop_total (rs : list (Route Handler Middleware WebSocketConfig)) host segs : forall rest index best,
  drop index rs = rest -> match best with Some (_, i) => i < length rs | None => True end ->
  exists out, scoped_loop rs host segs (map entry_route (expected_entries index (route_patterns rest) segs)) best = Some out
    /\ match out with Some (_, i) => i < length rs | None => True end.
Proof.
  induction rest as [|route rest IH]; intros index best Hd Hb; [by exists best|].
  apply drop_cons_inv in Hd as [Hi Hd]. cbn [route_patterns map expected_entries].
  destruct (pattern_matches (segments (pattern route)) segs); [|by apply IH].
  cbn [app map entry_route fst snd scoped_loop]. rewrite Hi.
  destruct (bool_decide (Router.method route = METHOD_ALL) || _ || _); [by apply IH|]. apply IH; [done|].
  apply lookup_lt_Some in Hi. by destruct (match best with None => true | Some _ => _ end).
Qed.

Lemma scoped_total (r : Router) p host segs : router_ok r -> decode_path_segments p = Ok segs ->
  exists mws, (scoped_middlewares r p host).2 = Some (Ok mws) /\ same_routes r (scoped_middlewares r p host).1.
Proof.
  intros Hr Hs. unfold scoped_middlewares. rewrite Hs. pose proof (index_same r Hr) as [Hsame Hok].
  destruct (router_index_spec _ Hr) as (Hidx & _ & _ & _).
  destruct (router_index r) as [r' idx]; cbn [fst snd] in *. subst idx. rewrite matching_methods_exact, <- Hsame.
  destruct (scoped_loop_total (routes r') host segs (routes r') 0 None) as (out & -> & Hout); [done|done|].
  destruct out as [[sp i]|]; [|by eexists].
  apply lookup_lt_is_Some in Hout as [route ->]. by eexists.
Qed.
End lookups.

Section dispatch.
Context `{HeaderMap HM, HttpTypes, PercentEncoding}.
Context (base64_decode : str -> option str) (problem_json : str -> str -> Z -> str -> str -> str).
Context (websocket_accept : str -> str).
Abbreviation Response := (Response HM).
Abbreviation App := (App HM).
Abbreviation dispatch_until := (dispatch_until problem_json).
Abbreviation choose_route := (choose_route problem_json).
Abbreviation resolve_miss := (resolve_miss problem_json).
Abbreviation conclude := (conclude base64_decode problem_json websocket_accept).
Abbreviation run_request := (run_request base64_decode problem_json websocket_accept).
Abbreviation well_framed := (well_framed base64_decode).

(** ** Routing never fails on a well-formed router *)

Lemma resolve_total skip (r : AppRouter HM) m p : router_ok r ->
  exists r' out, resolve_with skip r m p = (r', Some out) /\ same_routes r r'.
Proof.
  intros Hr. pose proof (resolve_same skip r m p Hr) as Hs.
  destruct (decode_path_segments p) as [segs|e] eqn:E.
  - destruct (resolve_with_best r skip m p segs Hr E) as (res & Hres & _).
    destruct (resolve_with skip r m p) as [r' out]. cbn in *. subst out. eauto.
  - unfold resolve_with in *. rewrite E in *. eauto.
Qed.

Lemma miss_total (r : AppRouter HM) m p host : router_ok r ->
  exists r' out, resolve_miss r m p host = (r', Some out) /\ same_routes r r'.
Proof.
  intros Hr. unfold resolve_miss, resolve_http_method. pose proof (allowed_same r p host Hr) as Hs1.
  destruct (decode_path_segments p) as [segs|e] eqn:E.
  - pose proof (allowed_methods_reference r p host segs Hr E) as Ha.
    destruct (allowed_methods r p host) as [r1 out]. cbn in Ha, Hs1. subst out.
    destruct (resolve_total (skip_http host) r1 §"GET" p) as (r2 & out & -> & Hs2); [apply Hs1|].
    pose proof (same_trans _ _ _ Hs1 Hs2) as Hs. destruct out as [implicit|e]; [|by eexists _, _].
    destruct (scoped_total r2 p host segs) as (mws & Hm & Hs3); [apply Hs2|done|].
    destruct (scoped_middlewares r2 p host) as [r3 out]. cbn in Hm, Hs3. subst out.
    pose proof (same_trans _ _ _ Hs Hs3). cbn zeta.
    repeat case_match; (eexists _, _; split; [reflexivity|assumption]).
  - assert (allowed_methods r p host = (r, Some (Err e))) as -> by (unfold allowed_methods; by rewrite E).
    by eexists _, _.
Qed.

Lemma choose_total (app : App) r : router_ok (router app) ->
  exists r' out, choose_route app r = (r', Some out) /\ same_routes (router app) r'.
Proof.
  intros Hr. unfold choose_route. destruct (trailing_slash_miss problem_json app r); [by eexists _, _|].
  unfold resolve_method.
  destruct (resolve_total (skip_method (method r) (header r §"host")) (router app) (method r) (path r) Hr)
    as (r1 & out & -> & Hs). destruct out as [[found|]|e]; [by eexists _, _| |by eexists _, _].
  destruct (miss_total r1 (method r) (path r) (header r §"host")) as (r2 & out & -> & Hs2); [apply Hs|].
  eexists _, _. split; [done|by eapply same_trans].
Qed.

Lemma dispatch_no_panic (app : App) call deadline : router_ok (router app) ->
  no_panic (dispatch_until app call deadline).2 /\ same_routes (router app) (dispatch_until app call deadline).1.
Proof.
  intros Hr. unfold dispatch_until. case_match; [split; [apply map_no_panic, guarded_no_panic|done]|].
  case_match; [split; [apply guarded_no_panic|done]|].
  destruct (choose_total app (request call) Hr) as (r' & out & -> & Hs). destruct out as [m|e]; cbn [fst snd].
  - split; [|done]. case_match; apply guarded_no_panic.
  - split; [apply guarded_no_panic|done].
Qed.

(** ** The concluding steps *)

(** A bodyless response with the framing fields of a well-framed one. *)
Lemma bodyless_well_framed (r r' : Response) :
  well_framed r -> status r' = status r -> build_error r' = None -> body_kind r' = Empty -> trailers r' = None ->
  same_except [CONTENT_LENGTH; TRAILER] (res_headers r) (res_headers r') ->
  get_all (res_headers r') TRAILER = [] ->
  (get_all (res_headers r') CONTENT_LENGTH = [] \/
   exists n, (0 <= n <= u64_max)%Z /\ get_all (res_headers r') CONTENT_LENGTH = [to_dec n]) ->
  (status_has_no_content (status r) = true -> status r <> 304%Z -> get_all (res_headers r') CONTENT_LENGTH = []) ->
  well_framed r'.
Proof.
  intros [Hst Hbe Hte Hct Hnc _ _ _] Es Eb Ek Et Hsame Htr Hcl Hncl. constructor; rewrite ?Es; try done.
  - destruct Hst as [|[Hs Hv]]; [by left|right]. split; [done|]. rewrite <- Hv. apply switching_ext.
    eapply same_except_weaken; [|exact Hsame]. unfold FRAMING. set_solver.
  - rewrite Hsame; [done|vm_compute; set_solver].
  - intros Hno. rewrite Hsame; [by apply Hct|vm_compute; set_solver].
  - intros Hno. split_and!; [done|done|by apply Hncl].
  - destruct Hcl as [|(n & Hn & E)]; [by left|right]. exists n. split_and!; [lia|left; lia|done|done|by rewrite Ek].
  - by rewrite Ek.
  - rewrite Et. done.
Qed.

Lemma well_framed_status (r : Response) : well_framed r -> status_code (status r) = true.
Proof. intros [Hst _ _ _ _ _ _ _]. apply status_code_range. lia. Qed.

Lemma wf_declared (r : Response) : well_framed r -> (forall b, body_kind r = Bytes b -> (body_len b <= u64_max)%Z) ->
  get_all (res_headers r) CONTENT_LENGTH = []
  \/ exists n, (0 <= n <= u64_max)%Z /\ get_all (res_headers r) CONTENT_LENGTH = [to_dec n]
       /\ forall b, body_kind r = Bytes b -> n = body_len b.
Proof.
  intros Hwf Hu. destruct (wf_length _ _ Hwf) as [|(n & [Hn Hfit] & E & _ & Hb)]; [by left|right].
  exists n. split_and!; [lia| |done|done]. destruct Hfit as [|[b Hby]]; [done|]. unfold body_bytes in Hby.
  destruct (body_kind r) as [b'| |] eqn:Ek; simplify_eq. rewrite (Hb _ eq_refl). by apply Hu.
Qed.

(** The length a buffered body keeps under HEAD. *)
Lemma preserve_length (r : Response) b : body_kind r = Bytes b -> build_error r = None -> (body_len b <= u64_max)%Z ->
  (get_all (res_headers r) CONTENT_LENGTH = [] \/ get_all (res_headers r) CONTENT_LENGTH = [to_dec (body_len b)]) ->
  exists m, preserve_buffered_representation_length r = set_headers r m
    /\ same_except [CONTENT_LENGTH] (res_headers r) m /\ get_all m CONTENT_LENGTH = [to_dec (body_len b)].
Proof.
  intros Hb Hbe Hu Hcl. unfold preserve_buffered_representation_length. rewrite Hb.
  assert (0 <= body_len b)%Z by (unfold body_len; lia). destruct Hcl as [Hcl|Hcl].
  - rewrite parse_content_length_absent by done. eexists. split; [done|]. split; [|apply get_all_insert_eq].
    apply same_except_insert. set_solver.
  - rewrite (parse_content_length_dec _ (body_len b)) by (done || lia). cbn [res_headers set_headers build_error].
    rewrite Z.eqb_refl. eexists. split; [done|]. split; [|apply get_all_insert_eq].
    apply same_except_insert. set_solver.
Qed.

Lemma prepare_head_shape (r : Response) : well_framed r ->
  (forall b, body_kind r = Bytes b -> (body_len b <= u64_max)%Z) ->
  exists m, prepare_for_head r = set_headers (set_body (set_trailers r None) Empty) m
    /\ same_except [CONTENT_LENGTH; TRAILER] (res_headers r) m /\ get_all m TRAILER = []
    /\ (get_all m CONTENT_LENGTH = [] \/ exists n, (0 <= n <= u64_max)%Z /\ get_all m CONTENT_LENGTH = [to_dec n])
    /\ (status_has_no_content (status r) = true -> get_all m CONTENT_LENGTH = get_all (res_headers r) CONTENT_LENGTH).
Proof.
  intros Hwf Hu. pose proof (wf_declared r Hwf Hu) as Hcl. pose proof (wf_build_error _ _ Hwf) as Hbe.
  unfold prepare_for_head. cbn [set_headers set_trailers status res_headers trailers].
  rewrite (well_framed_status r Hwf). cbn [negb].
  assert (same_except [CONTENT_LENGTH; TRAILER] (res_headers r) (hm_remove (res_headers r) TRAILER)) as Hsame
    by (apply same_except_remove; set_solver).
  assert (exists m, clear_body (set_headers (set_trailers r None) (hm_remove (res_headers r) TRAILER))
            = set_headers (set_body (set_trailers r None) Empty) m
    /\ same_except [CONTENT_LENGTH; TRAILER] (res_headers r) m /\ get_all m TRAILER = []
    /\ (get_all m CONTENT_LENGTH = [] \/ exists n, (0 <= n <= u64_max)%Z /\ get_all m CONTENT_LENGTH = [to_dec n])
    /\ (status_has_no_content (status r) = true -> get_all m CONTENT_LENGTH = get_all (res_headers r) CONTENT_LENGTH))
    as Hplain.
  { exists (hm_remove (res_headers r) TRAILER). split; [reflexivity|]. split_and!; [done|apply get_all_remove_eq| |intros _; by header_ne].
    header_ne. destruct Hcl as [|(n & ? & ? & _)]; eauto. }
  destruct (status_has_no_content (status r)) eqn:Enc; [done|].
  destruct (body_kind r) as [b|frames|] eqn:Eb.
  2-3: unfold preserve_buffered_representation_length; cbn [body_kind set_headers set_trailers]; by rewrite Eb.
  set (r' := set_headers (set_trailers r None) (hm_remove (res_headers r) TRAILER)).
  destruct (preserve_length r' b) as (m & -> & Hm & Hml); [done|done|by apply Hu| |].
  { cbn. header_ne. destruct Hcl as [|(n & _ & Hn & Hnb)]; [by left|right]. by rewrite Hn, (Hnb b). }
  exists m. split; [done|]. split_and!.
  - eapply same_except_trans; [exact Hsame|]. eapply same_except_weaken; [|exact Hm]. set_solver.
  - rewrite Hm by (vm_compute; set_solver). apply get_all_remove_eq.
  - right. exists (body_len b). split; [|done]. split; [unfold body_len; lia|by apply Hu].
  - done.
Qed.

Lemma well_framed_head (r : Response) : well_framed r ->
  (forall b, body_kind r = Bytes b -> (body_len b <= u64_max)%Z) ->
  well_framed (prepare_for_head r) /\ body_kind (prepare_for_head r) = Empty.
Proof.
  intros Hwf Hu. destruct (prepare_head_shape r Hwf Hu) as (m & -> & Hsame & Htr & Hcl & Hnc). split; [|done].
  apply (bodyless_well_framed r); try done; [apply Hwf|]. intros Hn H3. cbn. rewrite Hnc by done.
  destruct (wf_no_content _ _ Hwf Hn) as (_ & _ & E). by apply E.
Qed.

Abbreviation settle := (settle base64_decode problem_json websocket_accept).
Abbreviation finalize := (finalize base64_decode problem_json).

Lemma finalize_spec (r : Response) : exists g, finalize r = Some g /\ well_framed g
  /\ (status g = status r /\ same_except FRAMING (res_headers r) (res_headers g) \/ status g = 500%Z).
Proof.
  unfold finalize. destruct (finalize_cases base64_decode problem_json r) as [(g & E & Hl)|(e & g & _ & E & Hs & _ & Hl)];
    exists g; rewrite Hl by lia; apply finalize_pass_well_framed in E as (Hwf & ? & ? & _); auto.
Qed.

Lemma prepare_for_head_status (r : Response) : status (prepare_for_head r) = status r.
Proof.
  unfold prepare_for_head. repeat case_match; try done. unfold preserve_buffered_representation_length, record_build_error.
  cbn. repeat case_match; done.
Qed.

Lemma conclude_spec call (r : Response) : exists g resp,
  finalize (settle call r) = Some g /\ conclude call r = Some resp /\ well_framed g /\ well_framed resp
  /\ (method (request call) <> §"HEAD" -> resp = g)
  /\ (status resp = status g \/ status resp = 500%Z)
  /\ (method (request call) = §"HEAD" -> (forall b, body_kind g = Bytes b -> (body_len b <= u64_max)%Z) ->
      status resp = status g /\ body_kind resp = Empty /\ trailers resp = None
      /\ same_except [CONTENT_LENGTH; TRAILER] (res_headers g) (res_headers resp)).
Proof.
  unfold conclude. destruct (finalize_spec (settle call r)) as (g & -> & Hg & _). exists g.
  case_bool_decide as Hm; [|exists g; naive_solver].
  destruct (finalize_spec (prepare_for_head g)) as (resp & Ef & Hr & Hcase). exists resp. rewrite Ef.
  pose proof (prepare_for_head_status g) as Hps.
  split_and!; try done.
  - destruct Hcase as [[-> _]|]; auto.
  - intros _ Hu. destruct (well_framed_head g Hg Hu) as [Hwf Hb].
    destruct (finalize_pass_again base64_decode problem_json (prepare_for_head g) Hwf) as (r' & E & Heq).
    { by rewrite Hb. }
    unfold Response.finalize in Ef. cbn in Ef. rewrite E in Ef. injection Ef as <-.
    destruct Heq as (-> & _ & Hh & -> & -> & _). destruct (prepare_head_shape g Hg Hu) as (m & Em & Hsame & _).
    rewrite Em in *. split_and!; try done. intros n Hn. rewrite Hh. by apply Hsame.
Qed.

(** ** Answering by the deadline *)

(** What dispatching hands to the concluding steps, and when: the response of
    the handler and its middlewares, or the timeout error once the deadline
    passes. *)
Definition dispatched (app : App) call (now : Z) : Run Response :=
  match request_timeout (config app) with
  | Some d =>
      match timeout_at (now + d) (dispatch_until app call (Some (now + d)%Z)).2 now with
      | Done t (Some r) => Done t r
      | Done t None => Done t (error_response problem_json app timeout_error)
      | Panicked t => Panicked t
      | Never => Never
      end
  | None => (dispatch_until app call None).2 now
  end.

(** The dispatched response went through [conclude]. *)
Lemma run_dispatched (app : App) call now :
  (run_request app call now).2 = comp_map (conclude call) (dispatched app call) now.
Proof.
  unfold run_request, dispatched, comp_map. destruct (request_timeout (config app)) as [d|].
  - destruct (dispatch_until app call (Some (now + d)%Z)) as [rt c]. cbn. by destruct (timeout_at _ c now) as [t [r|]|t|].
  - by destruct (dispatch_until app call None) as [rt c].
Qed.

Lemma run_concludes (app : App) call now rt t resp :
  run_request app call now = (rt, Done t (Some resp)) ->
  exists r, dispatched app call now = Done t r /\ conclude call r = Some resp.
Proof.
  intros Hrun. pose proof (run_dispatched app call now) as Hd. rewrite Hrun in Hd. unfold comp_map in Hd. cbn [snd] in Hd.
  destruct (dispatched app call now) as [t' r|t'|]; simplify_eq. eauto.
Qed.

Lemma dispatched_done (app : App) call now d :
  router_ok (router app) -> request_timeout (config app) = Some d -> (0 <= d)%Z ->
  exists t r, dispatched app call now = Done t r /\ (t <= now + d)%Z.
Proof.
  intros Hr Hd Hpos. unfold dispatched. rewrite Hd.
  destruct (dispatch_no_panic app call (Some (now + d)%Z) Hr) as [Hnp _].
  destruct (timeout_done (now + d) (dispatch_until app call (Some (now + d)%Z)).2 now Hnp) as (t & a & -> & Hle).
  destruct a; eexists _, _; (split; [done|lia]).
Qed.

Lemma run_keeps_routes (app : App) call now : router_ok (router app) ->
  routes (run_request app call now).1 = routes (router app).
Proof.
  intros Hr. unfold run_request.
  destruct (request_timeout (config app)) as [d|].
  - destruct (dispatch_no_panic app call (Some (now + d)%Z) Hr) as [_ [Hs _]].
    by destruct (dispatch_until app call (Some (now + d)%Z)).
  - destruct (dispatch_no_panic app call None Hr) as [_ [Hs _]]. by destruct (dispatch_until app call None).
Qed.

Lemma run_answers (app : App) call now d :
  reachable (router app) -> request_timeout (config app) = Some d -> (0 <= d)%Z ->
  exists rt t r g resp,
    dispatched app call now = Done t r
    /\ run_request app call now = (rt, Done t (Some resp)) /\ (t <= now + d)%Z
    /\ routes rt = routes (router app) /\ well_framed resp
    /\ finalize (settle call r) = Some g
    /\ (method (request call) <> §"HEAD" -> resp = g)
    /\ (method (request call) = §"HEAD" -> (forall b, body_kind g = Bytes b -> (body_len b <= u64_max)%Z) ->
        status resp = status g /\ body_kind resp = Empty /\ trailers resp = None
        /\ same_except [CONTENT_LENGTH; TRAILER] (res_headers g) (res_headers resp)).
Proof.
  intros Hr Hd Hpos. apply reachable_ok in Hr.
  destruct (dispatched_done app call now d Hr Hd Hpos) as (t & r & Ht & Hle).
  pose proof (run_dispatched app call now) as Hrun. unfold comp_map in Hrun. rewrite Ht in Hrun.
  destruct (conclude_spec call r) as (g & resp & Hg & Hc & _ & Hwf & Hget & _ & Hhead). rewrite Hc in Hrun.
  exists (run_request app call now).1, t, r, g, resp. split_and!; try done.
  - rewrite <- Hrun. apply surjective_pairing.
  - by apply run_keeps_routes.
Qed.


(** ** Protocol switches *)

Lemma expected_accept_request call accept : expected_websocket_accept base64_decode websocket_accept call = Some accept ->
  upgrade call = true /\ is_websocket_upgrade base64_decode (request call) = true
  /\ version (request call) = HTTP_11 /\ eq_ignore_ascii_case (method (request call)) §"GET" = true
  /\ exists key, headers_all (request call) §"sec-websocket-key" = [key] /\ accept = websocket_accept key.
Proof.
  unfold expected_websocket_accept. destruct (upgrade call); [|done]. cbn [andb].
  destruct (is_websocket_upgrade base64_decode (request call)) eqn:Hu; [|done].
  unfold is_websocket_upgrade in Hu. destruct (singleton_header (request call) §"host"); [|done].
  destruct (singleton_header (request call) §"sec-websocket-key") as [key|] eqn:Hk; [|done].
  destruct (singleton_header (request call) §"sec-websocket-version"); [|done]. bsplit.
  apply singleton_header_Some in Hk. unfold request_singleton_header. rewrite Hk. intros [= <-].
  split_and!; [done|done|done|done|by exists key].
Qed.

Lemma from_error_status (e : Response.HttpError HM) : status_code (err_status e) = true ->
  status (from_error problem_json e) = err_status e.
Proof. intros Hs. unfold from_error, with_status. cbn. by rewrite Hs. Qed.

Lemma server_error_status : status (internal_server_error_response problem_json (HM := HM)) = 500%Z.
Proof. apply from_error_status, status_code_range. cbn. lia. Qed.

Lemma strip_status (r : Response) : status (strip_http2_connection_headers r) = status r.
Proof.
  unfold strip_http2_connection_headers, record_build_error. cbn. destruct (trailers r); [|done].
  destruct (List.find _ _); [|done]. by destruct (build_error r).
Qed.

Lemma enforce_other (r : Response) b : is_success (status r) = false -> enforce_connect_rejection_status r b = r.
Proof. unfold enforce_connect_rejection_status. intros ->. by destruct b. Qed.

Lemma is_success_range s : is_success s = true <-> (200 <= s <= 299)%Z.
Proof.
  unfold is_success. rewrite !andb_true_iff, status_code_range. lia.
Qed.

(** Only an authorized switch leaves [settle] as a 101, and it is unchanged. *)
Lemma settle_switch call (r : Response) : status (settle call r) = 101%Z ->
  status r = 101%Z
  /\ authorized_websocket_switch r (expected_websocket_accept base64_decode websocket_accept call) = true.
Proof.
  unfold settle. set (r1 := if (status r =? 101)%Z && _ then _ else r).
  set (r2 := match version (request call) with HTTP_2 | HTTP_3 => _ | _ => _ end). intros Hs.
  assert (status r2 = status r1) as E21 by (subst r2; destruct (version (request call)); by rewrite ?strip_status).
  assert (status r2 = 101%Z) as Hs2.
  { unfold enforce_connect_rejection_status in Hs. by repeat case_match. }
  rewrite E21 in Hs2. subst r1.
  destruct ((status r =? 101)%Z && _) eqn:Hc; [by rewrite server_error_status in Hs2|].
  rewrite Hs2 in Hc. cbn [andb] in Hc. rewrite Z.eqb_refl in Hc. by apply negb_false_iff in Hc.
Qed.

Lemma settle_accepted call (r : Response) : status r = 101%Z -> version (request call) = HTTP_11 ->
  authorized_websocket_switch r (expected_websocket_accept base64_decode websocket_accept call) = true ->
  settle call r = r.
Proof.
  intros Hs Hv Hc. unfold settle. rewrite Hs, Hc, Hv. cbn [negb]. rewrite andb_false_r.
  apply enforce_other. rewrite Hs. apply not_true_is_false. rewrite is_success_range. lia.
Qed.

(** The dispatched response may switch protocols: an authorized 101 that
    answers, with the accept value of the one key, a complete WebSocket request
    on a connection offered for upgrading. *)
Definition answers_handshake (call : Call) (r : Response) : Prop :=
  status r = 101%Z /\ websocket_upgrade_authorized r = true
  /\ upgrade call = true /\ is_websocket_upgrade base64_decode (request call) = true
  /\ exists key, headers_all (request call) §"sec-websocket-key" = [key]
       /\ get_all (res_headers r) SEC_WEBSOCKET_ACCEPT = [websocket_accept key].

Lemma authorized_answers call (r : Response) : status r = 101%Z ->
  authorized_websocket_switch r (expected_websocket_accept base64_decode websocket_accept call) = true ->
  answers_handshake call r /\ version (request call) = HTTP_11 /\ method (request call) <> §"HEAD".
Proof.
  intros Hs Hc. unfold authorized_websocket_switch in Hc. bsplit.
  destruct (expected_websocket_accept _ _ call) as [accept|] eqn:He; [|done].
  apply expected_accept_request in He as (Hu & Hw & Hv & Hm & key & Hk & ->).
  destruct (get_all (res_headers r) SEC_WEBSOCKET_ACCEPT) as [|v [|w l]] eqn:Hg; try done. bsplit.
  split_and!; [|done|intros E; by rewrite E in Hm].
  split_and!; try done. exists key. split; [done|]. rewrite Hg. congruence.
Qed.

(** A 101 that is not such an answer leaves [settle] as a 500. *)
Lemma settle_refused call (r : Response) : status r = 101%Z ->
  authorized_websocket_switch r (expected_websocket_accept base64_decode websocket_accept call) = false ->
  status (settle call r) = 500%Z.
Proof.
  intros Hs Hc. unfold settle. rewrite Hs, Hc. cbn [Z.eqb negb andb Pos.eqb].
  assert (status (match version (request call) with
                  | HTTP_2 | HTTP_3 => strip_http2_connection_headers (internal_server_error_response problem_json)
                  | _ => internal_server_error_response problem_json
                  end) = 500%Z) as E by (destruct (version (request call)); by rewrite ?strip_status, server_error_status).
  rewrite enforce_other; [done|]. rewrite E. apply not_true_is_false. rewrite is_success_range. lia.
Qed.

(** What the concluding steps make of a dispatched 101, and of any response
    that leaves them as one. *)
Lemma conclude_switch call (r resp : Response) : conclude call r = Some resp ->
  (status resp = 101%Z -> answers_handshake call r
     /\ get_all (res_headers resp) SEC_WEBSOCKET_ACCEPT = get_all (res_headers r) SEC_WEBSOCKET_ACCEPT)
  /\ (status r = 101%Z -> answers_handshake call r \/ status resp = 500%Z).
Proof.
  intros Hc. destruct (conclude_spec call r) as (g & resp' & Hg & Hc' & _ & _ & Hget & Hst & _).
  rewrite Hc in Hc'. simplify_eq.
  destruct (finalize_spec (settle call r)) as (g' & Hg' & _ & Hcase). rewrite Hg in Hg'. simplify_eq. split.
  - intros Hs. destruct Hst as [Hst|Hst]; [|congruence]. destruct Hcase as [[Hst' Hsame]|]; [|congruence].
    assert (status (settle call r) = 101%Z) as Hsw by congruence.
    destruct (settle_switch call r Hsw) as [Hr Hauth]. destruct (authorized_answers call r Hr Hauth) as (Ha & Hv & Hm).
    split; [done|]. rewrite (Hget Hm), Hsame by (vm_compute; set_solver). by rewrite (settle_accepted call r).
  - intros Hr. destruct (authorized_websocket_switch r (expected_websocket_accept base64_decode websocket_accept call)) eqn:E.
    + left. by apply authorized_answers.
    + right. pose proof (settle_refused call r Hr E) as Hs. destruct Hst as [->|]; [|done].
      destruct Hcase as [[-> _]|]; done.
Qed.

(** C8. A connection changes protocol only through a WebSocket handshake: when
    the response to a request is 101, the response that was dispatched is a 101
    the framework itself authorized, the request was a complete WebSocket
    upgrade request over a connection hyper offers for upgrading, and the
    answer carries exactly one accept field, the one computed from the single
    key the client sent. Any other 101 an application dispatches (made up by a
    handler, with a foreign or repeated accept value, or in answer to another
    kind of request) goes out as a 500. *)
Theorem switching_requires_handshake (app : App) call now rt t resp :
  run_request app call now = (rt, Done t (Some resp)) ->
  exists r, dispatched app call now = Done t r
    /\ (status resp = 101%Z -> answers_handshake call r
          /\ get_all (res_headers resp) SEC_WEBSOCKET_ACCEPT = get_all (res_headers r) SEC_WEBSOCKET_ACCEPT)
    /\ (status r = 101%Z -> answers_handshake call r \/ status resp = 500%Z).
Proof.
  intros Hrun. destruct (run_concludes _ _ _ _ _ _ Hrun) as (r & Hd & Hc). exists r. split; [done|].
  by apply conclude_switch.
Qed.

Lemma settle_connect call (r : Response) : is_connect (request call) = true -> is_success (status (settle call r)) = false.
Proof.
  intros Hc. unfold settle, enforce_connect_rejection_status. rewrite Hc. cbn [negb].
  match goal with |- is_success (status (if is_success (status ?x) then _ else _)) = _ => set (r' := x) end.
  destruct (is_success (status r')) eqn:E; [|done]. apply not_true_is_false. rewrite is_success_range. cbn. lia.
Qed.

(** The application without its routes. *)
Definition with_router (app : App) (r : AppRouter HM) : App :=
  mkApp r (app_middlewares app) (error_handler app) (config app) (websocket_defaults app).

(** C9. CONNECT never opens a tunnel: for a CONNECT request (in any case) no
    route is consulted, so the outcome is the same for every routing table,
    and whatever the middlewares and the error handler answer, the response
    that leaves the server is not a 2xx. *)
Theorem connect_never_tunnels (app : App) call now :
  is_connect (request call) = true ->
  (forall r, (run_request (with_router app r) call now).2 = (run_request app call now).2)
  /\ forall rt t resp, run_request app call now = (rt, Done t (Some resp)) -> ~ (200 <= status resp <= 299)%Z.
Proof.
  intros Hc. split.
  - intros r. unfold run_request, dispatch_until. cbn [config with_router]. rewrite Hc.
    by destruct (request_timeout (config app)).
  - intros rt t resp Hrun. destruct (run_concludes _ _ _ _ _ _ Hrun) as (r & _ & Hr).
    destruct (conclude_spec call r) as (g & resp' & Hg & Hr' & _ & _ & _ & Hst & _). rewrite Hr in Hr'. simplify_eq.
    destruct (finalize_spec (settle call r)) as (g' & Hg' & _ & Hcase). rewrite Hg in Hg'. simplify_eq.
    pose proof (settle_connect call r Hc) as Hns. rewrite <- not_true_iff_false, is_success_range in Hns.
    destruct Hst as [-> | ->]; [|lia]. destruct Hcase as [[-> _] | ->]; [done|lia].
Qed.

(** ** Requests no route answers *)

(** A route a GET may be answered by, other than a WebSocket route. *)
Definition serves_get (host : option str) (segs : list str)
    (route : Route (Handler HM) (Middleware HM) Layer.WebSocketConfig) : Prop :=
  host_matches (route_host route) host = true /\ pattern_matches (segments (pattern route)) segs = true
  /\ is_Some (method_class §"GET" (Router.method route)) /\ is_websocket (route_kind route) = false.

Lemma get_serves_head host segs route : serves_get host segs route -> may_answer §"HEAD" host segs route.
Proof.
  intros (Hh & Hp & [c Hc] & Hw). split_and!; [|done|done|by right].
  unfold method_class in *. repeat case_bool_decide; try done; naive_solver.
Qed.

Lemma resolve_none (r : AppRouter HM) m p host segs : router_ok r -> decode_path_segments p = Ok segs ->
  (forall i route, routes r !! i = Some route -> ~ may_answer m host segs route) ->
  exists r', resolve_method r m p host = (r', Some (Ok None)) /\ same_routes r r'.
Proof.
  intros Hr Hs Hnone. pose proof (resolve_same (skip_method m host) r m p Hr) as Hsame.
  destruct (resolve_with_best r (skip_method m host) m p segs Hr Hs) as (res & Hres & Hspec).
  unfold resolve_method. destruct (resolve_with (skip_method m host) r m p) as [r' out]. cbn in *. subst out.
  exists r'. destruct res as [found|]; [|done].
  destruct Hspec as (i & route & ? & ? & Hi & Hel & _). apply eligible_may_answer in Hel. by destruct (Hnone i route Hi).
Qed.

Lemma implicit_head_spec (r : AppRouter HM) p host segs : router_ok r -> decode_path_segments p = Ok segs ->
  exists r' implicit, resolve_http_method r §"GET" p host = (r', Some (Ok implicit)) /\ same_routes r r'
    /\ (is_Some (matched_pattern <$> implicit) <-> exists i route, routes r !! i = Some route /\ serves_get host segs route).
Proof.
  clear base64_decode problem_json websocket_accept.
  intros Hr Hs. pose proof (resolve_same (skip_http host) r §"GET" p Hr) as Hsame.
  destruct (resolve_with_best r (skip_http host) §"GET" p segs Hr Hs) as (res & Hres & Hspec).
  unfold resolve_http_method. destruct (resolve_with (skip_http host) r §"GET" p) as [r' out]. cbn in *. subst out.
  exists r', res. split; [done|]. split; [done|].
  assert (forall route, eligible (skip_http host) §"GET" segs route <-> serves_get host segs route) as Hel.
  { intros route. unfold eligible, serves_get, skip_http. rewrite orb_false_iff, negb_false_iff. naive_solver. }
  destruct res as [found|]; cbn.
  - destruct Hspec as (i & route & ? & ? & Hi & He & _). split; [|by eexists]. intros _. exists i, route.
    by rewrite <- Hel.
  - split; [by intros []|]. intros (i & route & Hi & He%Hel). by destruct (Hspec i route Hi).
Qed.

(** The substitute a path deserves, given the methods registered for it. *)
Definition miss_handler (allowed : list str) (m : str) (implicit_head : bool) : Handler HM :=
  if bool_decide (allowed = []) then not_found_handler problem_json
  else if bool_decide (m = §"OPTIONS") then options_handler (allow_header_value allowed implicit_head)
  else method_not_allowed_handler problem_json (allow_header_value allowed implicit_head).

(** The choice of the substitute for a request, over an unchanged table. *)
Definition answers_miss (app : App) (r : Request) (segs : list str)
    (out : AppRouter HM * option (result (AppMatch HM) RouteMatchError)) : Prop :=
  let host := header r §"host" in
  exists rt m implicit_head,
    out = (rt, Some (Ok m)) /\ routes rt = routes (router app)
    /\ matched_pattern m = [] /\ matched_params m = ∅
    /\ (implicit_head = true <-> exists i route, routes (router app) !! i = Some route /\ serves_get host segs route)
    /\ (method r = §"HEAD" -> implicit_head = false)
    /\ matched_handler m = miss_handler (allowed_reference (routes (router app)) host segs) (method r) implicit_head.

(** A request that no route may answer gets the answer its path deserves:
    404 when no method is registered for the path and host; otherwise OPTIONS
    is answered with the Allow list and any other method with 405 and the
    Allow list, which names every registered method, HEAD when an ordinary GET
    route serves the path, and OPTIONS. (A HEAD request is never in this
    situation when an ordinary GET route exists.) The choice never fails, runs
    no route handler and leaves the routing table as it is. *)
Theorem unmatched_requests_answered (app : App) r segs :
  reachable (router app) -> trailing_slash_miss problem_json app r = None -> decode_path_segments (path r) = Ok segs ->
  (forall i route, routes (router app) !! i = Some route -> ~ may_answer (method r) (header r §"host") segs route) ->
  answers_miss app r segs (choose_route app r).
Proof.
  intros Hr%reachable_ok Hts Hs Hnone. unfold choose_route. rewrite Hts.
  set (host := header r §"host") in *. set (allowed := allowed_reference (routes (router app)) host segs).
  destruct (resolve_none (router app) (method r) (path r) host segs Hr Hs Hnone) as (r1 & -> & Hs1).
  unfold resolve_miss. pose proof (allowed_same r1 (path r) host (proj2 Hs1)) as Hs2.
  pose proof (allowed_methods_reference r1 (path r) host segs (proj2 Hs1) Hs) as Ha.
  destruct (allowed_methods r1 (path r) host) as [r2 out]. cbn in Ha, Hs2. subst out.
  pose proof (same_trans _ _ _ Hs1 Hs2) as Hs12.
  destruct (implicit_head_spec r2 (path r) host segs (proj2 Hs2) Hs) as (r3 & implicit & -> & Hs3 & Himp).
  pose proof (same_trans _ _ _ Hs12 Hs3) as Hs13.
  destruct (scoped_total r3 (path r) host segs (proj2 Hs3) Hs) as (mws & Hm & Hs4).
  pose proof (same_trans _ _ _ Hs13 Hs4) as Hs14.
  destruct (scoped_middlewares r3 (path r) host) as [r4 out]. cbn in Hm, Hs4, Hs14. subst out.
  rewrite (proj1 Hs1), (proj1 Hs12) in *. fold allowed.
  set (has := bool_decide (is_Some (matched_pattern <$> implicit))).
  assert (method r = §"HEAD" -> implicit = None) as Hhead.
  { intros E. destruct implicit as [found|]; [exfalso|done]. destruct (proj1 Himp) as (i & route & Hi & Hg); [by eexists|].
    apply get_serves_head in Hg. rewrite <- E in Hg. by destruct (Hnone i route Hi). }
  assert (forall h rt mws', same_routes (router app) rt -> h = miss_handler allowed (method r) has ->
    answers_miss app r segs (rt, Some (Ok (substitute h mws')))) as Hdone.
  { intros h rt mws' [Hrt _] ->. exists rt, (substitute (miss_handler allowed (method r) has) mws'), has.
    do 4 (split; [done|]). split; [subst has; by rewrite bool_decide_eq_true|]. split; [|done].
    intros E. subst has. by rewrite (Hhead E). }
  unfold miss_handler in Hdone. destruct allowed as [|a l]; [by apply Hdone|].
  rewrite (bool_decide_eq_false_2 (a :: l = [])) in Hdone by done.
  destruct implicit as [found|]; [|case_bool_decide; by apply Hdone].
  rewrite (bool_decide_eq_false_2 (method r = §"HEAD")) by (intros E; by specialize (Hhead E)).
  case_bool_decide; by apply Hdone.
Qed.

(** ** Custom error rendering *)

Lemma render_http_error_headers (e : Response.HttpError HM) handler r n : handler e = Some r ->
  get_all (res_headers (render_http_error problem_json e (Some handler))) n
  = if bool_decide (get_all (err_headers e) n = []) then get_all (res_headers r) n else get_all (err_headers e) n.
Proof. intros Hr. unfold render_http_error. rewrite Hr. cbn. by rewrite override_headers_get. Qed.

(** A custom error handler renders errors without losing what the error
    response has to carry. Whatever the handler returns for the error in a
    response, the rendered response carries no error any more, keeps a status
    the application set explicitly, and keeps every header field of the
    response it replaces and every field the error itself requires (the Allow
    of a 405, the Retry-After of a 429), except that the handler's
    representation owns Content-Type and Content-Length; a handler that panics
    gives a plain 500 with those fields. *)
Theorem rendered_error_keeps_fields (resp : Response) e handler :
  error resp = Some e ->
  let rendered := render_response_error problem_json resp (Some handler) in
  error rendered = None
  /\ (status resp <> err_status e -> status rendered = status resp)
  /\ (forall n, representation_field n = false -> get_all (res_headers resp) n <> [] ->
        get_all (res_headers rendered) n = get_all (res_headers resp) n)
  /\ (forall n, representation_field n = false -> get_all (res_headers resp) n = [] ->
        get_all (res_headers rendered) n
        = match handler e with
          | Some r => if bool_decide (get_all (err_headers e) n = []) then get_all (res_headers r) n
                      else get_all (err_headers e) n
          | None => []
          end)
  /\ (status resp = err_status e -> status rendered = match handler e with Some r => status r | None => 500%Z end).
Proof.
  intros He rendered. unfold rendered, render_response_error. cbn [take_error]. rewrite He. cbn [status set_error].
  set (inner := render_http_error problem_json e (Some handler)).
  assert (error inner = None) as Hei.
  { unfold inner, render_http_error. by destruct (handler e). }
  assert (status inner = match handler e with Some r => status r | None => 500%Z end) as Hsi.
  { unfold inner, render_http_error. destruct (handler e); [done|]. apply server_error_status. }
  assert (forall n, get_all (res_headers inner) n
    = match handler e with
      | Some r => if bool_decide (get_all (err_headers e) n = []) then get_all (res_headers r) n else get_all (err_headers e) n
      | None => []
      end) as Hhi.
  { intros n. destruct (handler e) as [r|] eqn:Hh; [by apply render_http_error_headers|].
    unfold inner, render_http_error. rewrite Hh. cbn. apply get_all_empty. }
  destruct (Z.eqb_spec (status resp) (err_status e)) as [E|E]; cbn [set_headers set_status error status res_headers].
  all: split_and!; try done.
  all: intros n Hn Hg; rewrite override_headers_get, Hn; cbn [orb].
  1,3: by rewrite bool_decide_eq_false_2.
  all: by rewrite bool_decide_eq_true_2.
Qed.
End dispatch.

(** ** A concrete application *)

Module DispatchSample.
#[local] Existing Instances assoc_header_map reference_http_types reference_percent_encoding.

Definition problem (_ _ : str) (_ : Z) (detail _ : str) : str := detail.
(** Accept values decode to 20 bytes, keys to 16. *)
Definition decode (s : str) : option str := Some (replicate (if (length s =? 24)%nat then 16 else 20) Byte.x00).
Definition accept (key : str) : str := §"accept-" ++ key.

Definition hello : Handler AssocHeaders := fun _ => ret (response_send §"hola").
Definition hang : Handler AssocHeaders := fun _ _ => Never.
Definition boom : Handler AssocHeaders := fun _ now => Panicked now.
Definition key : str := §"dGhlIHNhbXBsZSBub25jZQ==".
Definition switching : Response AssocHeaders :=
  mkResponse 101 [] [(§"connection", §"Upgrade"); (§"upgrade", §"websocket"); (§"sec-websocket-accept", accept key)]
    Empty None None None true.
Definition chat : Handler AssocHeaders := fun _ => ret switching.

Definition table : AppRouter AssocHeaders :=
  (add (add (add (add Router_new §"GET" §"/hello" hello).1 §"GET" §"/slow" hang).1 §"GET" §"/boom" boom).1
     §"GET" §"/chat" chat).1.
Lemma table_reachable : reachable table.
Proof. unfold table, add. repeat apply reach_add. apply reach_new. Qed.

Definition app : App AssocHeaders := mkApp table [] None ServerConfig_default Layer.default.
Definition call (m p : str) : Call := mkCall (build (build_path (build_method RequestBuilder_new m) p)) ∅ None None false.
Definition upgrade_call : Call :=
  mkCall (build (foldl (fun b h => build_header b h.1 h.2) (build_path RequestBuilder_new §"/chat")
            [(§"host", §"a.example"); (§"upgrade", §"websocket"); (§"connection", §"Upgrade");
             (§"sec-websocket-key", key); (§"sec-websocket-version", §"13")])) ∅ None None true.

(** The time and status of an answer. *)
Definition outcome (c : Call) : option (Z * Z) :=
  match (run_request decode problem accept app c 0).2 with Done t (Some r) => Some (t, status r) | _ => None end.

Example outcomes :
  map outcome [call §"GET" §"/hello"; call §"HEAD" §"/hello"; call §"GET" §"/slow"; call §"GET" §"/boom";
               call §"POST" §"/hello"; call §"OPTIONS" §"/hello"; call §"GET" §"/none"; call §"connect" §"/hello";
               call §"GET" §"/chat"; upgrade_call; call §"OPTIONS" §"*"; call §"GET" §"/a%zz"]
  = [Some (0, 200); Some (0, 200); Some (secs 30, 408); Some (0, 500); Some (0, 405); Some (0, 204); Some (0, 404);
     Some (0, 501); Some (0, 500); Some (0, 101); Some (0, 204); Some (0, 400)]%Z.
Proof. vm_compute. reflexivity. Qed.


(** The upgrade is answered 101; the same 101 for a plain GET becomes a 500. *)
Lemma switching_requires_handshake_witness :
  (exists r, dispatched problem app upgrade_call 0 = Done 0 r /\ answers_handshake decode accept upgrade_call r)
  /\ outcome (call §"GET" §"/chat") = Some (0, 500)%Z.
Proof.
  assert (outcome upgrade_call = Some (0, 101)%Z) as Ho by (vm_compute; reflexivity).
  split; [|vm_compute; reflexivity].
  unfold outcome in Ho. destruct (run_request decode problem accept app upgrade_call 0) as [rt run] eqn:E. cbn in Ho.
  destruct run as [t [resp|]|t|]; try discriminate Ho. injection Ho as -> Hs.
  destruct (switching_requires_handshake decode problem accept app upgrade_call 0 rt 0 resp E) as (r & Hd & Hsw & _).
  exists r. split; [exact Hd|]. by apply Hsw.
Defined.

Lemma connect_never_tunnels_witness :
  is_connect (request (call §"Connect" §"/hello")) = true
  /\ (run_request decode problem accept (with_router app Router_new) (call §"Connect" §"/hello") 0).2
     = (run_request decode problem accept app (call §"Connect" §"/hello") 0).2.
Proof.
  split; [by vm_compute|]. apply (connect_never_tunnels decode problem accept app (call §"Connect" §"/hello") 0).
  by vm_compute.
Defined.

Lemma unmatched_requests_answered_witness :
  answers_miss problem app (request (call §"POST" §"/hello")) [§"hello"]
    (choose_route problem app (request (call §"POST" §"/hello"))).
Proof.
  apply (unmatched_requests_answered problem app (request (call §"POST" §"/hello")) [§"hello"] table_reachable);
    [by vm_compute|by vm_compute|].
  assert (Forall (fun route => method_class §"POST" (Router.method route) = None) (routes (router app))) as Hall.
  { repeat (constructor; [by vm_compute|]). constructor. }
  intros i route Hi [[c Hc] _]. pose proof (Forall_lookup_1 _ _ i route Hall Hi) as Hnone. cbv beta in Hnone.
  change (method (request (call §"POST" §"/hello"))) with §"POST" in Hc. congruence.
Defined.

Definition teapot : Response AssocHeaders := set_status (response_send §"x") 418.
Definition denied : Response AssocHeaders :=
  from_error problem (error_header (HttpError_new 405 §"code" §"message") §"allow" §"GET").
Lemma rendered_error_keeps_fields_witness :
  get_all (res_headers (render_response_error problem denied (Some (fun _ => Some teapot)))) §"allow" = [§"GET"].
Proof.
  destruct (rendered_error_keeps_fields problem denied (default (HttpError_new 0 [] []) (error denied))
              (fun _ => Some teapot) eq_refl) as (_ & _ & Hkeep & _).
  apply (Hkeep §"allow"); by vm_compute.
Defined.
End DispatchSample.
