(* ===== verification/Redirect.v ===== *)
(** * The trailing-slash redirect

    The location [trailing_slash_miss] redirects to: it stays on the server,
    needs no further redirect, and names the same path segments. *)
From S2P Require Import Prelude Strs Percent Pattern Host Trie Url Router RouterInv RouterLookup.
From S2P Require Import Request Headers Response WsConfig Ipv6 RequestHead Dispatch DispatchSpec.

Abbreviation backslash := Byte.x5c.
Abbreviation question := Byte.x3f.

(** ** Trimming slashes *)

Lemma trim_start_shape c s : exists k, s = replicate k c ++ trim_start_matches c s
  /\ head (trim_start_matches c s) <> Some c.
Proof.
  induction s as [|b s [k [E Hh]]]; cbn [trim_start_matches]; [by exists 0|].
  case_bool_decide as Hb; [|exists 0; split; [done|cbn; congruence]].
  exists (S k). split; [|done]. cbn. by rewrite <- E, Hb.
Qed.

Lemma rev_reverse {A} (l : list A) : rev l = reverse l.
Proof. induction l as [|x l IH]; [done|]. rewrite reverse_cons. cbn [rev]. by rewrite IH. Qed.

Lemma trim_end_shape c s : exists k, s = trim_end_matches c s ++ replicate k c
  /\ last (trim_end_matches c s) <> Some c.
Proof.
  destruct (trim_start_shape c (rev s)) as (k & E & Hh). exists k. unfold trim_end_matches.
  rewrite !rev_reverse in *. rewrite last_reverse. split; [|done].
  apply (inj reverse). by rewrite reverse_app, reverse_replicate, reverse_involutive.
Qed.

Lemma segments_cons s : path_segments (slash :: s) = path_segments s.
Proof. exact (path_segments_slash [] s). Qed.

Lemma segments_slashes_l k s : path_segments (replicate k slash ++ s) = path_segments s.
Proof. induction k as [|k IH]; [done|]. cbn [replicate app]. by rewrite segments_cons. Qed.

Lemma segments_slashes_r k s : path_segments (s ++ replicate k slash) = path_segments s.
Proof.
  destruct k as [|k]; cbn [replicate]; [by rewrite app_nil_r|].
  rewrite path_segments_slash, <- (app_nil_r (replicate k slash)), segments_slashes_l. by rewrite app_nil_r.
Qed.

(** ** Encoders that work segment by segment *)

Lemma segments_map (f : str -> str) :
  (forall s, f s = [] <-> s = []) -> (forall s, slash ∉ s -> slash ∉ f s) ->
  (forall a b, f (a ++ slash :: b) = f a ++ slash :: f b) ->
  forall s, path_segments (f s) = map f (path_segments s).
Proof.
  intros Hnil Hns Hcut s. induction s as [s IH] using (induction_ltof1 _ (@length _)); unfold ltof in IH.
  assert (forall a, slash ∉ a -> path_segments (f a) = map f (path_segments a)) as Hplain.
  { intros a Ha. rewrite !path_segments_plain by auto. destruct a as [|c a]; [by rewrite (proj2 (Hnil []) eq_refl)|].
    assert (f (c :: a) <> []) by by rewrite Hnil. cbn. by destruct (f (c :: a)). }
  destruct (decide (slash ∈ s)) as [(a & b & -> & Ha)%list_elem_of_split_l|]; [|by apply Hplain].
  rewrite Hcut, !path_segments_slash, map_app, Hplain by done. f_equal. apply IH. rewrite length_app. cbn. lia.
Qed.

Lemma escape_app a b : escape_backslashes (a ++ b) = escape_backslashes a ++ escape_backslashes b.
Proof. unfold escape_backslashes. by rewrite map_app, concat_app. Qed.
Lemma escape_cons b s : escape_backslashes (b :: s)
  = (if bool_decide (b = backslash) then §"%5C" else [b]) ++ escape_backslashes s.
Proof. done. Qed.
Lemma escape_slash s : escape_backslashes (slash :: s) = slash :: escape_backslashes s.
Proof. done. Qed.
Lemma escape_nil s : escape_backslashes s = [] <-> s = [].
Proof. split; [|by intros ->]. destruct s as [|b s]; [done|]. rewrite escape_cons. by case_bool_decide. Qed.
Lemma escape_no_slash s : slash ∉ s -> slash ∉ escape_backslashes s.
Proof.
  induction s as [|b s IH]; [done|]. intros [Hb Hs]%not_elem_of_cons. rewrite escape_cons, not_elem_of_app.
  split; [|by apply IH]. case_bool_decide; [by vm_compute; set_solver|]. by apply not_elem_of_cons; split; [|apply not_elem_of_nil].
Qed.

Lemma encode_location_nil s : encode_location s = [] <-> s = [].
Proof. split; [|by intros ->]. destruct s as [|b s]; [done|]. cbn [encode_location]. cbn zeta. by case_match. Qed.

Lemma hex_not_slash b : hex_digit (bval b / 16) <> slash /\ hex_digit (bval b mod 16) <> slash.
Proof. byte_cases b. Qed.

Lemma encode_location_no_slash s : slash ∉ s -> slash ∉ encode_location s.
Proof.
  induction s as [|b s IH]; [done|]. intros [Hb Hs]%not_elem_of_cons. specialize (IH Hs). cbn [encode_location]. cbn zeta.
  destruct (hex_not_slash b) as [H1 H2]. case_match; rewrite ?not_elem_of_app, ?not_elem_of_cons; [done|].
  split; [|done]. split_and!; [done|done|done|apply not_elem_of_nil].
Qed.

(** A byte that is kept and is no hexadecimal digit separates two encodings. *)
Lemma encode_location_cut c a b : location_byte c = true -> is_ascii_hexdigit c = false ->
  encode_location (a ++ c :: b) = encode_location a ++ c :: encode_location b.
Proof.
  intros Hc Hh. induction a as [|x a IH]; cbn [app encode_location]; cbn zeta; [by rewrite Hc|].
  rewrite IH. replace (match a ++ c :: b with x :: y :: _ => is_ascii_hexdigit x && is_ascii_hexdigit y | _ => false end)
    with (match a with x :: y :: _ => is_ascii_hexdigit x && is_ascii_hexdigit y | _ => false end).
  - by case_match.
  - destruct a as [|y [|z a]]; cbn; [by destruct b; rewrite ?Hh|by rewrite Hh, andb_false_r|done].
Qed.

(** ** Re-encoding keeps what a segment decodes to *)

Lemma redirect_hexdigit_value h : is_ascii_hexdigit h = true -> h <> backslash /\ exists v, hex_value h = Some v.
Proof. destruct h; vm_compute; try done; intros _; (split; [done|eauto]). Qed.

Lemma hex_digit_value b : exists hv lv,
  hex_value (hex_digit (bval b / 16)) = Some hv /\ hex_value (hex_digit (bval b mod 16)) = Some lv
  /\ byte_of (16 * hv + lv) = b.
Proof. destruct b; vm_compute; eauto 10. Qed.

Lemma valid_triplets_plain b s : b <> percent -> valid_triplets (b :: s) = valid_triplets s.
Proof. intros Hb. cbn [valid_triplets]. by rewrite bool_decide_eq_false_2. Qed.
Lemma valid_triplets_triplet h l s : is_ascii_hexdigit h = true -> is_ascii_hexdigit l = true ->
  valid_triplets (percent :: h :: l :: s) = valid_triplets s.
Proof. intros Hh Hl. cbn [valid_triplets]. by rewrite bool_decide_eq_true_2, Hh, Hl. Qed.

Lemma encode_location_keep b s : location_byte b = true -> encode_location (b :: s) = b :: encode_location s.
Proof. intros Hb. cbn [encode_location]. cbn zeta. by rewrite Hb. Qed.
Lemma encode_location_other b s : location_byte b = false -> b <> percent ->
  encode_location (b :: s) = percent :: hex_digit (bval b / 16) :: hex_digit (bval b mod 16) :: encode_location s.
Proof. intros Hb Hp. cbn [encode_location]. cbn zeta. by rewrite Hb, (bool_decide_eq_false_2 (b = percent)). Qed.

Section relocate.
Context `{PercentEncoding}.

Definition relocate (s : str) : str := encode_location (escape_backslashes s).

Lemma relocate_decodes s : valid_triplets s = true ->
  valid_triplets (relocate s) = true /\ percent_decode (relocate s) = percent_decode s.
Proof.
  unfold relocate. induction s as [s IH] using (induction_ltof1 _ (@length _)); unfold ltof in IH.
  destruct s as [|b s]; [done|]. destruct (decide (b = percent)) as [->|Hb].
  - destruct s as [|h [|l s]]; try done. cbn [valid_triplets]. rewrite bool_decide_eq_true_2 by done.
    intros [[Hh Hl]%andb_true_iff Hs]%andb_true_iff.
    destruct (redirect_hexdigit_value h Hh) as [Hhb [hv Hhv]], (redirect_hexdigit_value l Hl) as [Hlb [lv Hlv]].
    destruct (IH s) as [Hv Hd]; [cbn; lia|done|].
    rewrite !escape_cons, !bool_decide_eq_false_2 by done. cbn [app].
    rewrite encode_location_escape, valid_triplets_triplet by done. split; [done|].
    by rewrite !(percent_decode_triplet h l hv lv), Hd.
  - rewrite valid_triplets_plain, percent_decode_plain by done. intros Hs.
    destruct (IH s) as [Hv Hd]; [cbn; lia|done|]. rewrite escape_cons. case_bool_decide as Hbs.
    + change (§"%5C" ++ escape_backslashes s) with (percent :: Byte.x35 :: Byte.x43 :: escape_backslashes s).
      rewrite encode_location_escape, valid_triplets_triplet by done. split; [done|].
      rewrite (percent_decode_triplet Byte.x35 Byte.x43 5 12), Hd by done. by subst b.
    + cbn [app]. destruct (location_byte b) eqn:Hl.
      * rewrite encode_location_keep, valid_triplets_plain, percent_decode_plain by done. by rewrite Hd.
      * destruct (hex_digit_value b) as (hv & lv & Hhv & Hlv & Hbv). destruct (escape_bytes b) as (_ & Hx & Hy).
        rewrite encode_location_other, valid_triplets_triplet by done. split; [done|].
        by rewrite (percent_decode_triplet _ _ hv lv), Hd, Hbv.
Qed.

Lemma relocate_segment s d : decode_path_segment s = Ok d -> decode_path_segment (relocate s) = Ok d.
Proof.
  unfold decode_path_segment, validate_percent_triplets. destruct (valid_triplets s) eqn:Hs; [|done].
  destruct (relocate_decodes s Hs) as [-> ->]. done.
Qed.

Lemma relocate_path s : path_segments (relocate s) = map relocate (path_segments s).
Proof.
  apply segments_map; unfold relocate.
  - intros t. by rewrite encode_location_nil, escape_nil.
  - intros t Ht. by apply encode_location_no_slash, escape_no_slash.
  - intros a b. rewrite escape_app, escape_cons. cbn [app]. by apply encode_location_cut.
Qed.

Lemma try_map_relocate l ds : try_map decode_path_segment l = Ok ds ->
  try_map decode_path_segment (map relocate l) = Ok ds.
Proof.
  revert ds. induction l as [|s l IH]; intros ds; cbn [try_map map]; [done|].
  destruct (decode_path_segment s) as [d|] eqn:Hd; [|done]. apply relocate_segment in Hd. rewrite Hd.
  destruct (try_map decode_path_segment l) as [rest|]; [|done]. intros [= <-]. by rewrite (IH rest).
Qed.

Lemma relocate_segments p q segs : path_segments q = map relocate (path_segments p) ->
  decode_path_segments p = Ok segs -> decode_path_segments q = Ok segs.
Proof.
  intros Hq. unfold decode_path_segments. rewrite Hq, length_map. case_match; [done|]. apply try_map_relocate.
Qed.
End relocate.

(** ** Last bytes *)

Lemma last_app_ne {A} (a b : list A) : b <> [] -> last (a ++ b) = last b.
Proof. intros Hb. rewrite last_app. destruct (last b) eqn:E; [done|]. by apply last_None in E. Qed.

Lemma encode_location_last s : last s <> Some slash -> last (encode_location s) <> Some slash.
Proof.
  induction s as [|b s IH]; [done|]. intros Hl. destruct (hex_not_slash b) as [_ Hh].
  assert (exists p, encode_location (b :: s) = p ++ encode_location s /\ (last p = Some slash -> b = slash) /\ p <> [])
    as (p & -> & Hp & Hne).
  { cbn [encode_location]. cbn zeta. case_match; [exists [b]|eexists; split; [done|]]; cbn; split_and!; try done; congruence. }
  destruct s as [|c s].
  - cbn [encode_location]. rewrite app_nil_r. intros E. rewrite (Hp E) in Hl. done.
  - rewrite last_app_ne by (rewrite encode_location_nil; done). apply IH. by rewrite last_cons_cons in Hl.
Qed.

Lemma escape_last s : last s <> Some slash -> last (escape_backslashes s) <> Some slash.
Proof.
  induction s as [|b s IH]; [done|]. rewrite escape_cons. intros Hl. destruct s as [|c s].
  - unfold escape_backslashes. cbn [map concat]. rewrite app_nil_r. case_bool_decide; [done|]. exact Hl.
  - rewrite last_app_ne by (rewrite escape_nil; done). apply IH. by rewrite last_cons_cons in Hl.
Qed.

Lemma trim_start_last c s : last s <> Some c -> last (trim_start_matches c s) <> Some c.
Proof.
  destruct (trim_start_shape c s) as (k & E & _). destruct (trim_start_matches c s) as [|b t] eqn:Et; [done|].
  rewrite E at 1. by rewrite last_app_ne.
Qed.

Lemma has_trailing_slash_last p : has_trailing_slash p = true -> last p = Some slash.
Proof.
  unfold has_trailing_slash. rewrite negb_true_iff, orb_false_iff, negb_false_iff, ends_with_iff.
  intros [_ [q ->]]. by rewrite last_app_ne.
Qed.

(** ** The location *)

Definition target_path (path : str) : str :=
  slash :: trim_start_matches slash (escape_backslashes (trim_end_matches slash path)).

Lemma canonical_location_shape path rest query : path = slash :: rest ->
  canonical_location path query = target_path path ++ match query with Some q => question :: q | None => [] end.
Proof.
  intros Hp. destruct (trim_end_shape slash path) as (k & E & _). unfold canonical_location, target_path.
  set (c := trim_end_matches slash path) in *. assert (c = [] \/ exists t, c = slash :: t) as Hc.
  { destruct c as [|b t]; [by left|right]. exists t. rewrite Hp in E. cbn in E. congruence. }
  assert ((if bool_decide (escape_backslashes c = []) then [slash]
           else if starts_with [slash; slash] (escape_backslashes c)
                then slash :: trim_start_matches slash (escape_backslashes c) else escape_backslashes c)
          = slash :: trim_start_matches slash (escape_backslashes c)) as ->.
  { destruct Hc as [->|[t ->]]; [done|]. rewrite escape_slash.
    rewrite (bool_decide_eq_false_2 (slash :: escape_backslashes t = [])) by done.
    destruct (starts_with _ _) eqn:Es; [done|].
    cbn [trim_start_matches]. rewrite bool_decide_eq_true_2 by done. f_equal.
    destruct (escape_backslashes t) as [|b u]; [done|]. cbn [trim_start_matches]. case_bool_decide as Hb; [|done].
    subst b. unfold starts_with in Es. cbn in Es. rewrite bool_decide_eq_false in Es. destruct Es. by eexists. }
  destruct query; [done|by rewrite app_nil_r].
Qed.

Lemma encode_target path : exists w, encode_location (target_path path) = slash :: encode_location w
  /\ head w <> Some slash /\ last w <> Some slash /\ path_segments w = map escape_backslashes (path_segments path).
Proof.
  unfold target_path. set (c := trim_end_matches slash path).
  exists (trim_start_matches slash (escape_backslashes c)). rewrite encode_location_keep by done.
  destruct (trim_end_shape slash path) as (k & E & Hl), (trim_start_shape slash (escape_backslashes c)) as (j & E' & Hh).
  split_and!; [done|done|apply trim_start_last; by apply escape_last|].
  transitivity (path_segments (escape_backslashes c)); [by rewrite E' at 2; rewrite segments_slashes_l|].
  rewrite segments_map; [|apply escape_nil|apply escape_no_slash|intros; by rewrite escape_app, escape_cons].
  f_equal. rewrite E. fold c. by rewrite segments_slashes_r.
Qed.

Lemma encode_location_head s b : head (encode_location s) = Some b -> head s <> Some slash -> b <> slash /\ b <> backslash.
Proof.
  destruct s as [|c s]; [done|]. pose proof (encode_location_uri (c :: s)) as Hu. revert Hu. cbn [encode_location].
  cbn zeta. case_match; cbn; intros Hu [= <-] Hc.
  - split; [congruence|]. intros ->. by cbn in Hu.
  - done.
Qed.

Section theorems.
Context `{HeaderMap HM, HttpTypes, PercentEncoding}.
Context (problem_json : str -> str -> Z -> str -> str -> str).

Lemma uri_visible s : forallb uri_byte s = true -> forallb visible_ascii s = true.
Proof.
  rewrite !forallb_true_Forall. intros Hs. eapply Forall_impl; [exact Hs|]. intros b. byte_cases b.
Qed.

Lemma redirect_response location s : (300 <= s <= 399)%Z ->
  let r : Response HM := redirect_with_status location s in
  status r = s /\ build_error r = None /\ get_all (res_headers r) §"location" = [encode_location location].
Proof.
  intros Hs. unfold redirect_with_status. rewrite (proj2 (Z.leb_le 300 s)), (proj2 (Z.leb_le s 399)) by lia. cbn [andb].
  unfold with_status. rewrite (proj2 (status_code_range s)) by lia.
  rewrite with_header_plain; [|done|apply header_value_visible, uri_visible, encode_location_uri].
  cbn. split_and!; [done|done|]. apply get_all_insert_eq.
Qed.

(** C10. The trailing-slash redirect is safe: for a path that begins with a
    slash and has a trailing one, the substitute answers 308 with one
    Location; the location stays on this server (it begins with exactly one
    slash, so it is neither scheme-relative nor backslash-relative), keeps the
    query, has no trailing slash itself (so following it causes no second
    redirect), and its path decodes to the same segments, so the same routes
    match. *)
Theorem trailing_slash_redirect_safe (app : App HM) r rest :
  trailing_slash (config app) = RedirectSlash -> has_trailing_slash (path r) = true -> path r = slash :: rest ->
  exists h target,
    trailing_slash_miss problem_json app r = Some h
    /\ (forall call now, exists resp, h call now = Done now resp
          /\ status resp = 308%Z /\ build_error resp = None
          /\ get_all (res_headers resp) §"location"
             = [target ++ match raw_query r with Some q => question :: encode_location q | None => [] end])
    /\ (exists tail, target = slash :: tail /\ head tail <> Some slash /\ head tail <> Some backslash)
    /\ has_trailing_slash target = false
    /\ forall segs, decode_path_segments (path r) = Ok segs -> decode_path_segments target = Ok segs.
Proof.
  intros Hcfg Hts Hp. destruct (encode_target (path r)) as (w & Hw & Hh & Hl & Hsegs).
  eexists _, (encode_location (target_path (path r))). split_and!.
  - unfold trailing_slash_miss. by rewrite Hts, Hcfg.
  - intros call now. eexists. split; [done|].
    destruct (redirect_response (canonical_location (path r) (raw_query r)) 308) as (Hs & Hb & Hloc); [lia|].
    split_and!; [done|done|]. rewrite Hloc, (canonical_location_shape _ rest) by done.
    f_equal. destruct (raw_query r) as [q|]; [by apply encode_location_cut|by rewrite !app_nil_r].
  - exists (encode_location w). split; [done|].
    destruct (head (encode_location w)) as [b|] eqn:Eb; [|done].
    destruct (encode_location_head _ _ Eb Hh). split; congruence.
  - rewrite Hw. apply encode_location_last in Hl. destruct (encode_location w) as [|b t]; [done|].
    apply not_true_is_false. intros Hlast%has_trailing_slash_last. by rewrite last_cons_cons in Hlast.
  - intros segs. apply relocate_segments. rewrite Hw, segments_cons.
    rewrite segments_map; [|apply encode_location_nil|apply encode_location_no_slash|intros; by apply encode_location_cut].
    rewrite Hsegs. by rewrite map_map.
Qed.
End theorems.

(** ** A concrete redirect *)

Module RedirectSample.
#[local] Existing Instances assoc_header_map reference_http_types reference_percent_encoding.

Definition app : App AssocHeaders :=
  mkApp Router_new [] None
    (mkServerConfig DEFAULT_BODY_LIMIT None None None 1 1 1 None 100 100 100 100 RedirectSlash) Layer.default.
Definition request : Request :=
  build (build_query (build_path RequestBuilder_new §"//evil.example/\x//") §"a=b c").

Example location : canonical_location §"//evil.example/\x//" (Some §"q") = §"/evil.example/%5Cx?q".
Proof. by vm_compute. Qed.

Lemma trailing_slash_redirect_safe_witness :
  exists target, decode_path_segments target = Ok [§"evil.example"; §"\x"] /\ has_trailing_slash target = false.
Proof.
  destruct (trailing_slash_redirect_safe (HM := AssocHeaders) DispatchSample.problem app request §"/evil.example/\x//")
    as (h & target & _ & _ & _ & Hts & Hsegs); [done|by vm_compute|by vm_compute|].
  exists target. split; [|done]. apply Hsegs. by vm_compute.
Defined.
End RedirectSample.
