(* ===== verification/Server.v ===== *)
(** * The server ([src/app/server.rs])

    The configuration methods of [App], the admission of connections, the
    handling of a request from its head to the response hyper is given
    ([handle], [handle_http1]) and the ordered shutdown. *)
From S2P Require Import Prelude Strs Percent Pattern Host Trie Url Router RouterInv RouterLookup Http1.
From S2P Require Import Request Headers Response WsConfig Ipv6 RequestHead Dispatch DispatchSpec.

(** ** Configuration *)

(** Each method returns [None] when its assertion fails. *)
Section configure.
(** [Instant::now().checked_add(d).is_some()]. *)
Context (representable : Z -> bool).
(** [Semaphore::MAX_PERMITS]. *)
Context (MAX_PERMITS : Z).
Implicit Types (c : ServerConfig).

Definition MAX_REQUEST_HEADER_COUNT : Z := 1024.

Definition cfg_max_body_size c (bytes : Z) : ServerConfig :=
  mkServerConfig bytes (request_timeout c) (header_read_timeout c) (http2_keep_alive_interval c)
    (http2_keep_alive_timeout c) (tls_handshake_timeout c) (graceful_shutdown_timeout c) (max_connections c)
    (max_request_target_bytes c) (max_query_bytes c) (max_request_header_count c) (max_request_header_bytes c)
    (trailing_slash c).
Definition cfg_set_timeouts c (request header interval : option Z) (keep_alive tls graceful : Z) : ServerConfig :=
  mkServerConfig (max_body_size c) request header interval keep_alive tls graceful (max_connections c)
    (max_request_target_bytes c) (max_query_bytes c) (max_request_header_count c) (max_request_header_bytes c)
    (trailing_slash c).
Definition cfg_set_limits c (connections : option Z) (target query count bytes : Z) (slash : TrailingSlash) : ServerConfig :=
  mkServerConfig (max_body_size c) (request_timeout c) (header_read_timeout c) (http2_keep_alive_interval c)
    (http2_keep_alive_timeout c) (tls_handshake_timeout c) (graceful_shutdown_timeout c) connections target query count
    bytes slash.

Definition cfg_request_timeout c (d : Z) : option ServerConfig :=
  if (d =? 0)%Z then None
  else Some (cfg_set_timeouts c (Some d) (header_read_timeout c) (http2_keep_alive_interval c)
               (http2_keep_alive_timeout c) (tls_handshake_timeout c) (graceful_shutdown_timeout c)).
Definition cfg_disable_request_timeout c : ServerConfig :=
  cfg_set_timeouts c None (header_read_timeout c) (http2_keep_alive_interval c) (http2_keep_alive_timeout c)
    (tls_handshake_timeout c) (graceful_shutdown_timeout c).
Definition cfg_header_read_timeout c (d : Z) : option ServerConfig :=
  if negb (d =? 0)%Z && representable d
  then Some (cfg_set_timeouts c (request_timeout c) (Some d) (http2_keep_alive_interval c)
               (http2_keep_alive_timeout c) (tls_handshake_timeout c) (graceful_shutdown_timeout c))
  else None.
Definition cfg_disable_header_read_timeout c : ServerConfig :=
  cfg_set_timeouts c (request_timeout c) None (http2_keep_alive_interval c) (http2_keep_alive_timeout c)
    (tls_handshake_timeout c) (graceful_shutdown_timeout c).
Definition cfg_http2_keep_alive_interval c (d : Z) : option ServerConfig :=
  if negb (d =? 0)%Z && representable d
  then Some (cfg_set_timeouts c (request_timeout c) (header_read_timeout c) (Some d) (http2_keep_alive_timeout c)
               (tls_handshake_timeout c) (graceful_shutdown_timeout c))
  else None.
Definition cfg_disable_http2_keep_alive c : ServerConfig :=
  cfg_set_timeouts c (request_timeout c) (header_read_timeout c) None (http2_keep_alive_timeout c)
    (tls_handshake_timeout c) (graceful_shutdown_timeout c).
Definition cfg_http2_keep_alive_timeout c (d : Z) : option ServerConfig :=
  if negb (d =? 0)%Z && representable d
  then Some (cfg_set_timeouts c (request_timeout c) (header_read_timeout c) (http2_keep_alive_interval c) d
               (tls_handshake_timeout c) (graceful_shutdown_timeout c))
  else None.
Definition cfg_tls_handshake_timeout c (d : Z) : option ServerConfig :=
  if (d =? 0)%Z then None
  else Some (cfg_set_timeouts c (request_timeout c) (header_read_timeout c) (http2_keep_alive_interval c)
               (http2_keep_alive_timeout c) d (graceful_shutdown_timeout c)).
Definition cfg_graceful_shutdown_timeout c (d : Z) : ServerConfig :=
  cfg_set_timeouts c (request_timeout c) (header_read_timeout c) (http2_keep_alive_interval c)
    (http2_keep_alive_timeout c) (tls_handshake_timeout c) d.
Definition cfg_max_connections c (limit : Z) : ServerConfig :=
  cfg_set_limits c (Some (Z.min limit MAX_PERMITS)) (max_request_target_bytes c) (max_query_bytes c)
    (max_request_header_count c) (max_request_header_bytes c) (trailing_slash c).
Definition cfg_disable_connection_limit c : ServerConfig :=
  cfg_set_limits c None (max_request_target_bytes c) (max_query_bytes c) (max_request_header_count c)
    (max_request_header_bytes c) (trailing_slash c).
Definition cfg_max_request_target_size c (bytes : Z) : ServerConfig :=
  cfg_set_limits c (max_connections c) bytes (max_query_bytes c) (max_request_header_count c)
    (max_request_header_bytes c) (trailing_slash c).
Definition cfg_max_query_string_size c (bytes : Z) : ServerConfig :=
  cfg_set_limits c (max_connections c) (max_request_target_bytes c) bytes (max_request_header_count c)
    (max_request_header_bytes c) (trailing_slash c).
Definition cfg_max_request_header_count c (count : Z) : ServerConfig :=
  cfg_set_limits c (max_connections c) (max_request_target_bytes c) (max_query_bytes c)
    (Z.min count MAX_REQUEST_HEADER_COUNT) (max_request_header_bytes c) (trailing_slash c).
Definition cfg_max_request_header_bytes c (bytes : Z) : ServerConfig :=
  cfg_set_limits c (max_connections c) (max_request_target_bytes c) (max_query_bytes c) (max_request_header_count c)
    bytes (trailing_slash c).
Definition cfg_trailing_slash c (policy : TrailingSlash) : ServerConfig :=
  cfg_set_limits c (max_connections c) (max_request_target_bytes c) (max_query_bytes c) (max_request_header_count c)
    (max_request_header_bytes c) policy.

(** The configurations a program can build without a panic. *)
Inductive configured : ServerConfig -> Prop :=
| configured_default : configured ServerConfig_default
| configured_total c f arg : configured c -> (0 <= arg <= usize_max)%Z ->
    f ∈ [cfg_max_body_size; cfg_graceful_shutdown_timeout; cfg_max_connections; cfg_max_request_target_size;
         cfg_max_query_string_size; cfg_max_request_header_count; cfg_max_request_header_bytes] ->
    configured (f c arg)
| configured_partial c f arg c' : configured c -> (0 <= arg)%Z ->
    f ∈ [cfg_request_timeout; cfg_header_read_timeout; cfg_http2_keep_alive_interval; cfg_http2_keep_alive_timeout;
         cfg_tls_handshake_timeout] ->
    f c arg = Some c' -> configured c'
| configured_const c f : configured c ->
    f ∈ [cfg_disable_request_timeout; cfg_disable_header_read_timeout; cfg_disable_http2_keep_alive;
         cfg_disable_connection_limit] -> configured (f c)
| configured_slash c policy : configured c -> configured (cfg_trailing_slash c policy).
End configure.

(** ** Connection admission *)

(** The semaphore of [connection_admission] ([None]: no limit) and the
    connections whose transport holds a permit. *)
Record Admission := mkAdmission { permits : option Z; admitted : gset nat }.

Definition connection_admission (c : ServerConfig) : option Z := max_connections c.

Definition try_admit_connection (permits : option Z) : result (option Z) unit :=
  match permits with
  | Some n => if (n <=? 0)%Z then Err tt else Ok (Some (n - 1)%Z)
  | None => Ok None
  end.

(** The accept loop, with the end of a transport anywhere in between. An
    accept error changes nothing. *)
Inductive ServerEvent := Accepted (id : nat) | AcceptFailed | TransportDropped (id : nat).

Definition server_step (s : Admission) (e : ServerEvent) : Admission :=
  match e with
  | AcceptFailed => s
  | Accepted id =>
      match try_admit_connection (permits s) with
      | Ok permits => mkAdmission permits ({[id]} ∪ admitted s)
      | Err _ => s
      end
  | TransportDropped id =>
      if bool_decide (id ∈ admitted s)
      then mkAdmission ((fun n => (n + 1)%Z) <$> permits s) (admitted s ∖ {[id]})
      else s
  end.

(** ** Requests *)

(** What hyper is given, with the version the response is forced to. *)
Record Http1Answer (HM : Type) := mkAnswer { answer : HyperResponse (HM := HM); answer_version : option Version }.
Arguments mkAnswer {HM} _ _.
Arguments answer {HM} _.
Arguments answer_version {HM} _.

Section handle.
Context `{HeaderMap HM, HttpTypes, PercentEncoding}.
Context (base64_decode : str -> option str) (problem_json : str -> str -> Z -> str -> str -> str).
Context (websocket_accept : str -> str) (authority_parses : str -> bool).
Abbreviation into_hyper := (into_hyper base64_decode problem_json).
Abbreviation finalize := (finalize base64_decode problem_json).
Abbreviation HyperResponse := (HyperResponse (HM := HM)).

(** [App::handle]; [None] under [Done] when [finalize] would not end. *)
Definition handle (app : App HM) (req : HyperRequest HM) (secure : bool) (now : Z)
  : AppRouter HM * Run (option HyperResponse) :=
  match validate_request_head authority_parses (config app) (hyper_version req) (hyper_method req) (hyper_uri req)
          (hyper_req_headers req) with
  | Err e => (router app, Done now (into_hyper (error_response problem_json app e)))
  | Ok authority =>
      let call := mkCall (to_request (config app) secure req authority) ∅ None None
                    (is_websocket_upgrade_request base64_decode req) in
      let '(rt, run) := run_request base64_decode problem_json websocket_accept app call now in
      (rt, match run with
           | Done t (Some r) => Done t (into_hyper r)
           | Done t None => Done t None
           | Panicked t => Panicked t
           | Never => Never
           end)
  end.

Definition rejected_head_response (code message : str) (is_head : bool) : option HyperResponse :=
  match finalize (from_error problem_json (HttpError_new 400 code message)) with
  | None => None
  | Some r =>
      if is_head then match finalize (prepare_for_head r) with Some r => into_hyper r | None => None end
      else into_hyper r
  end.

Definition force_connection_close (r : HyperResponse) (request : Version) : Http1Answer HM :=
  mkAnswer (mkHyper (hyper_status r) (hm_insert (hyper_headers r) CONNECTION §"close") (hyper_body r))
    (if bool_decide (request = HTTP_10) then Some HTTP_10 else None).

(** [App::handle_http1]. *)
Definition handle_http1 (app : App HM) (req : HyperRequest HM) (verdict : HeadVerdict) (secure : bool) (now : Z)
  : AppRouter HM * Run (option (Http1Answer HM)) :=
  let is_head := bool_decide (hyper_method req = §"HEAD") in
  let '(rt, run) :=
    match verdict with
    | Ambiguous =>
        (router app, Done now (rejected_head_response §"ambiguous_message_framing"
                                 §"Transfer-Encoding y Content-Length no pueden combinarse" is_head))
    | Unclassified =>
        (router app, Done now (rejected_head_response §"unverified_message_framing"
                                 §"La solicitud no pudo verificarse en esta conexion" is_head))
    | Persistent | Terminal => handle app req secure now
    end in
  (rt, comp_map (fun r => (fun r => if negb (bool_decide (verdict = Persistent)) && negb (hyper_status r =? 101)%Z
                                    then force_connection_close r (hyper_version req) else mkAnswer r None) <$> r)
         (fun _ => run) now).
End handle.

(** ** Shutdown *)

(** [drain_server_connections] started at [now]: when the HTTP side ends by
    itself, when the last WebSocket connection ends by itself, and when it ends
    once aborted ([None]: never). The result is the time it returns and
    whether everything ended in time. *)
Definition drain_server_connections (now grace timeout : Z) (http ws : option Z) (ws_aborted : Z -> option Z)
  : Z * bool :=
  let websocket :=
    match ws with
    | Some t => if (t <=? now + grace)%Z then Some (Z.max now t) else ws_aborted (now + grace)%Z
    | None => ws_aborted (now + grace)%Z
    end in
  match http, websocket with
  | Some h, Some w => if (Z.max h w <=? now + timeout)%Z then (Z.max now (Z.max h w), true) else ((now + timeout)%Z, false)
  | _, _ => ((now + timeout)%Z, false)
  end.

(** ** Properties *)

Section limits.
Context (representable : Z -> bool) (MAX_PERMITS : Z).

Definition positive (d : option Z) : Prop := match d with Some d => (0 < d)%Z | None => True end.

Record config_ok (c : ServerConfig) : Prop := {
  co_timeouts : positive (request_timeout c) /\ positive (header_read_timeout c)
    /\ positive (http2_keep_alive_interval c) /\ (0 < http2_keep_alive_timeout c)%Z /\ (0 < tls_handshake_timeout c)%Z;
  co_sizes : (0 <= max_request_target_bytes c <= usize_max)%Z /\ (0 <= max_request_header_bytes c <= usize_max)%Z;
  co_count : (0 <= max_request_header_count c <= MAX_REQUEST_HEADER_COUNT)%Z;
  co_connections : match max_connections c with Some n => (n <= MAX_PERMITS)%Z | None => True end
}.

Lemma configured_ok c : (10000 <= MAX_PERMITS)%Z -> configured representable MAX_PERMITS c -> config_ok c.
Proof.
  intros Hm. induction 1 as [|c f arg _ [(? & ? & ? & ? & ?) ? ? ?] Ha Hf|c f arg c' _ [(? & ? & ? & ? & ?) ? ? ?] Ha Hf E
    |c f _ [(? & ? & ? & ? & ?) ? ? ?] Hf|c policy _ [(? & ? & ? & ? & ?) ? ? ?]].
  - split; cbn; unfold secs, usize_max, u64_max, MAX_REQUEST_HEADER_COUNT; split_and?; lia.
  - repeat (apply elem_of_cons in Hf as [->|Hf]; [split; cbn; try done; unfold MAX_REQUEST_HEADER_COUNT in *; lia|]).
    by apply elem_of_nil in Hf.
  - repeat (apply elem_of_cons in Hf as [->|Hf];
      [unfold cfg_request_timeout, cfg_header_read_timeout, cfg_http2_keep_alive_interval, cfg_http2_keep_alive_timeout,
         cfg_tls_handshake_timeout in E; destruct (Z.eqb_spec arg 0); cbn in E; try destruct (representable arg);
       simplify_eq; split; cbn; try done; split_and?; done || lia|]).
    by apply elem_of_nil in Hf.
  - repeat (apply elem_of_cons in Hf as [->|Hf]; [by split; cbn|]). by apply elem_of_nil in Hf.
  - by split; cbn.
Qed.

(** A request head as an HTTP/1.1 client writes it: the request line, a line
    per field, an empty line. *)
Definition head_text (method target : str) (fields : list (str * str)) : str :=
  method ++ §" " ++ target ++ §" HTTP/1.1" ++ [CR; LF]
  ++ concat (map (fun p => p.1 ++ §": " ++ p.2 ++ [CR; LF]) fields) ++ [CR; LF].

Lemma fields_text_len (fields : list (str * str)) : forall a,
  (a + slen (concat (map (fun p : str * str => p.1 ++ §": " ++ p.2 ++ [CR; LF]) fields))
   = foldl (fun total p => total + slen p.1 + slen p.2) a fields + 4 * Z.of_nat (length fields))%Z.
Proof.
  induction fields as [|p fields IH]; intros a; cbn [foldl map concat length]; [unfold slen; cbn [length]; lia|].
  specialize (IH (a + slen p.1 + slen p.2)%Z). unfold slen in *. rewrite !length_app.
  change (length §": ") with 2. change (length [CR; LF]) with 2. lia.
Qed.

(** The text fits the inspector's buffer. *)
Lemma head_text_fits c method target fields : config_ok c ->
  (slen method < 1010 -> slen target <= max_request_target_bytes c ->
   Z.of_nat (length fields) <= max_request_header_count c ->
   foldl (fun total p => total + slen p.1 + slen p.2) 0 fields <= max_request_header_bytes c ->
   slen (head_text method target fields) < usize_max ->
   slen (head_text method target fields) < max_http1_head_bytes c)%Z.
Proof.
  intros Hok Hm Ht Hn Hb Hu. pose proof (fields_text_len fields 0) as Hl.
  destruct (co_sizes _ Hok), (co_count _ Hok). pose proof (slen_nonneg method). revert Hu. unfold head_text, slen in *.
  rewrite !length_app. cbn [length]. change (length §" HTTP/1.1") with 9. change (length §" ") with 1.
  unfold max_http1_head_bytes, saturating_add, saturating_mul. lia.
Qed.

(** C30. The limits the configuration methods accept are coherent. Every
    configuration a program builds without a panic has positive request,
    header-read, HTTP/2 keep-alive and TLS timeouts (the graceful-shutdown
    timeout alone may be zero), at most 1024 header fields and a connection
    limit the semaphore supports. And the byte budget the HTTP/1 inspector is
    constructed with covers every head within the target, field-count and
    field-size limits (with a method below 1010 bytes): when the parser reads
    the text of such a head, the inspector queues the verdict of that head,
    whatever the read boundaries, and never gives it up for its size. *)
Theorem configured_limits_coherent `{HttpParse} c method target fields chunks v l :
  (10000 <= MAX_PERMITS)%Z -> configured representable MAX_PERMITS c ->
  config_ok c
  /\ ((slen method < 1010)%Z -> (slen target <= max_request_target_bytes c)%Z ->
      (Z.of_nat (length fields) <= max_request_header_count c)%Z ->
      (foldl (fun total p => total + slen p.1 + slen p.2) 0 fields <= max_request_header_bytes c)%Z ->
      (slen (head_text method target fields) < usize_max)%Z ->
      concat chunks = head_text method target fields ->
      inspect_head (Z.to_nat (max_request_header_count c)) (concat chunks) = Complete (length (concat chunks)) v l ->
      v <> Terminal ->
      exists st, conn_run (Z.to_nat (max_http1_head_bytes c)) (Z.to_nat (max_request_header_count c))
                   Inspector_new (map Read chunks) = Some (st, []) /\ pending st = [v]).
Proof.
  intros Hm Hc. pose proof (configured_ok c Hm Hc) as Hok. split; [done|]. intros Hlen Ht Hn Hb Hu E Hi Hv.
  apply (head_reads _ _ chunks v l); [|done|done].
  pose proof (head_text_fits c method target fields Hok Hlen Ht Hn Hb Hu) as Hfit. rewrite E. unfold slen in Hfit. lia.
Qed.
End limits.

(** Permits and admitted connections add up. *)
Definition admission_inv (limit : option Z) (s : Admission) : Prop :=
  match limit with
  | Some n => exists free, permits s = Some free /\ (0 <= free)%Z /\ (free + Z.of_nat (size (admitted s)) = n)%Z
  | None => permits s = None
  end.

Lemma server_step_inv limit s e : admission_inv limit s -> (forall id, e = Accepted id -> id ∉ admitted s) ->
  admission_inv limit (server_step s e).
Proof.
  intros Hs Hfresh. destruct e as [id| |id]; cbn [server_step]; [|done|].
  - specialize (Hfresh id eq_refl). unfold admission_inv in *. destruct limit as [n|]; cbn.
    + destruct Hs as (free & Hp & Hf & Hsum). rewrite Hp. cbn. destruct (Z.leb_spec free 0); [by exists free|].
      exists (free - 1)%Z. cbn. rewrite size_union, size_singleton by set_solver. split_and!; [done|lia|lia].
    + by rewrite Hs.
  - case_bool_decide as Hin; [|done]. unfold admission_inv in *. destruct limit as [n|]; cbn; [|by rewrite Hs].
    destruct Hs as (free & Hp & Hf & Hsum). rewrite Hp. exists (free + 1)%Z. split; [done|].
    assert (size (admitted s ∖ {[id]}) = size (admitted s) - 1) as ->.
    { rewrite size_difference by set_solver. by rewrite size_singleton. }
    assert (size (admitted s) <> 0) by (intros E%size_empty_inv; set_solver). split; lia.
Qed.

Definition accepted_ids (events : list ServerEvent) : list nat :=
  omap (fun e => match e with Accepted id => Some id | _ => None end) events.

Lemma server_step_admitted s e i : i ∈ admitted (server_step s e) -> i ∈ admitted s \/ e = Accepted i.
Proof.
  destruct e as [id| |id]; cbn [server_step]; [|auto|].
  - destruct (try_admit_connection (permits s)); cbn; [|auto]. intros [->%elem_of_singleton|]%elem_of_union; auto.
  - case_bool_decide; cbn; set_solver.
Qed.

Lemma server_run_inv limit events : forall s, admission_inv limit s -> NoDup (accepted_ids events) ->
  (forall i, i ∈ accepted_ids events -> i ∉ admitted s) ->
  admission_inv limit (foldl server_step s events)
  /\ forall i, i ∈ admitted (foldl server_step s events) -> i ∈ admitted s \/ i ∈ accepted_ids events.
Proof.
  induction events as [|e events IH]; intros s Hs Hnd Hfresh; cbn [foldl]; [auto|].
  assert (accepted_ids (e :: events) = match e with Accepted id => id :: accepted_ids events | _ => accepted_ids events end)
    as Hcons by by destruct e.
  rewrite Hcons in *. destruct (IH (server_step s e)) as [Hinv Hold].
  - apply server_step_inv; [done|]. intros id ->. apply Hfresh. left.
  - destruct e; [by apply NoDup_cons in Hnd as [_ ?]|done|done].
  - intros i Hi [Hin| ->]%server_step_admitted.
    + revert Hin. apply Hfresh. destruct e; [by right|done|done].
    + apply NoDup_cons in Hnd as [Hnd _]. done.
  - split; [done|]. intros i [[?| ->]%server_step_admitted|?]%Hold; [by left|right; left|right].
    destruct e; [by right|done|done].
Qed.

(** Admission bounds the open connections: from a server that starts with
    [n] permits, whatever the sequence of accepted connections (with fresh
    identities), accept failures and ended transports, permits and admitted
    connections always add up to [n], so no more than [n] transports are open,
    upgraded ones included; the next connection is admitted exactly when fewer
    than [n] are open; and without a limit none is refused. *)
Theorem connections_bounded (limit : option Z) (events : list ServerEvent) id :
  match limit with Some n => (0 <= n)%Z | None => True end ->
  NoDup (accepted_ids (events ++ [Accepted id])) ->
  let s := foldl server_step (mkAdmission limit ∅) events in
  admission_inv limit s
  /\ (id ∈ admitted (server_step s (Accepted id)) <->
      match limit with Some n => (Z.of_nat (size (admitted s)) < n)%Z | None => True end).
Proof.
  intros Hn Hnd s. unfold accepted_ids in Hnd. rewrite omap_app in Hnd. apply NoDup_app in Hnd as (Hnd & Hdis & _).
  destruct (server_run_inv limit events (mkAdmission limit ∅)) as [Hinv Hold]; [|done|set_solver|].
  { destruct limit as [n|]; cbn; [|done]. exists n. rewrite size_empty. split_and!; [done|done|lia]. }
  fold s in Hinv, Hold. split; [done|].
  assert (id ∉ admitted s) as Hnew.
  { intros [Hin|Hin]%Hold; [set_solver|]. apply (Hdis id Hin). cbn. left. }
  cbn [server_step]. unfold admission_inv in Hinv. destruct limit as [n|].
  - destruct Hinv as (free & -> & Hf & Hsum). cbn. destruct (Z.leb_spec free 0); cbn; [split; [done|lia]|].
    split; [lia|set_solver].
  - rewrite Hinv. cbn. split; [done|set_solver].
Qed.

Section serve.
Context `{HeaderMap HM, HttpTypes, PercentEncoding}.
Context (base64_decode : str -> option str) (problem_json : str -> str -> Z -> str -> str -> str).
Context (websocket_accept : str -> str) (authority_parses : str -> bool).
Abbreviation into_hyper := (into_hyper base64_decode problem_json).
Abbreviation handle := (handle base64_decode problem_json websocket_accept authority_parses).
Abbreviation handle_http1 := (handle_http1 base64_decode problem_json websocket_accept authority_parses).

Lemma into_hyper_some (r : Response HM) : exists h, into_hyper r = Some h /\ (hyper_status h = status r \/ hyper_status h = 500%Z).
Proof.
  unfold into_hyper. destruct (finalize_spec base64_decode problem_json r) as (g & -> & _ & Hs).
  eexists. split; [done|]. cbn. destruct Hs as [[-> _]|]; auto.
Qed.

Lemma handle_answers (app : App HM) req secure now d :
  reachable (router app) -> request_timeout (config app) = Some d -> (0 <= d)%Z ->
  exists rt t h, handle app req secure now = (rt, Done t (Some h)) /\ (t <= now + d)%Z
    /\ routes rt = routes (router app).
Proof.
  intros Hr Hd Hpos. unfold handle. destruct (validate_request_head _ _ _ _ _ _) as [authority|e].
  - set (call := mkCall _ _ _ _ _).
    destruct (run_answers base64_decode problem_json websocket_accept app call now d Hr Hd Hpos)
      as (rt & t & r & g & resp & _ & -> & Ht & Hrt & _).
    destruct (into_hyper_some resp) as (h & -> & _). by exists rt, t, h.
  - destruct (into_hyper_some (error_response problem_json app e)) as (h & -> & _). exists (router app), now, h.
    split_and!; [done|lia|done].
Qed.

Lemma rejected_head_some code message is_head :
  exists h, rejected_head_response (HM := HM) base64_decode problem_json code message is_head = Some h
    /\ (hyper_status h = 400%Z \/ hyper_status h = 500%Z).
Proof.
  unfold rejected_head_response.
  set (r0 := from_error problem_json (HttpError_new 400 code message)).
  assert (status r0 = 400%Z) as Hs0 by (apply from_error_status, status_code_range; cbn; lia).
  destruct (finalize_spec base64_decode problem_json r0) as (g & -> & _ & Hg).
  assert (status g = 400%Z \/ status g = 500%Z) as Hsg by (rewrite <- Hs0; naive_solver).
  destruct is_head.
  - destruct (finalize_spec base64_decode problem_json (prepare_for_head g)) as (g' & -> & _ & Hg').
    rewrite prepare_for_head_status in Hg'.
    destruct (into_hyper_some g') as (h & -> & Hh). exists h. split; [done|]. naive_solver congruence.
  - destruct (into_hyper_some g) as (h & -> & Hh). exists h. split; [done|]. naive_solver congruence.
Qed.

End serve.

(** ** Concrete servers *)

Module ServerSample.
#[local] Existing Instances assoc_header_map reference_http_types reference_percent_encoding reference_HttpParse.

(** A head of two reads, inspected with the default limits. *)
Lemma configured_limits_coherent_witness :
  exists st, conn_run (Z.to_nat (max_http1_head_bytes ServerConfig_default)) 100 Inspector_new
               (map Read [§"GET /a HTT"; drop 10 (head_text §"GET" §"/a" [(§"host", §"a.example")])]) = Some (st, [])
    /\ pending st = [Persistent].
Proof.
  destruct (configured_limits_coherent (fun _ => true) 10000 ServerConfig_default §"GET" §"/a" [(§"host", §"a.example")]
              [§"GET /a HTT"; drop 10 (head_text §"GET" §"/a" [(§"host", §"a.example")])] Persistent 0) as [_ Hread];
    [done|constructor|]. apply Hread; by vm_compute.
Defined.

Lemma connections_bounded_witness :
  let s := foldl server_step (mkAdmission (Some 2%Z) ∅) [Accepted 1; Accepted 2; Accepted 3; TransportDropped 1] in
  admission_inv (Some 2%Z) s /\ 4 ∈ admitted (server_step s (Accepted 4)).
Proof.
  destruct (connections_bounded (Some 2%Z) [Accepted 1; Accepted 2; Accepted 3; TransportDropped 1] 4) as [Hinv Hadm].
  - lia.
  - by apply (bool_decide_unpack _); vm_compute.
  - split; [exact Hinv|]. apply Hadm. by vm_compute.
Defined.

End ServerSample.
